(* ===== verification/_CoqProject ===== *)
-Q . S2P
Prelude.v
Bits.v
Ready.v
PinList.v
ScheduledIo.v
ScheduledIoProps.v
SlotMap.v
SlotMapConc.v
JoinHandle.v
Task.v
TaskConc.v
TaskProps.v
LinkedList.v
Executor.v
Runtime.v
Programs.v
ForkJoin.v
Workers.v
WorkersInv.v
WorkersSteps.v
WorkersProps.v
ExecutorConc.v
Threads.v
IoDriver.v
Registration.v
AsyncIo.v
IoConc.v
IoConcSteps.v
IoConcProps.v
PollEvented.v
Net.v
Text.v
AddrParse.v
AddrProps.v
Tcp.v
Udp.v
Debug.v
HttpDate.v
HttpServer.v
