(* ===== verification/Prelude.v ===== *)
(** * A verification of arc-discharge

    arc-discharge is a work-sharing async runtime.  Worker threads poll tasks,
    block on a queue of parked workers when there is nothing to do, and one
    thread drives I/O through mio.  This library translates the runtime and the
    example server of the repository into Rocq definitions and proves properties
    of them.  Paths below are relative to src/src.

    ** The program and its model

    - [Bits] (bits.rs): [Pack], a bit field of a machine word, with its [const]
      constructors, [pack], [pack_lossy] and [unpack].
    - [Ready] (io/ready.rs): the readiness flags; specification as finite sets.
    - [PinList]: the interface of the [pin_list] crate, with its laws.
    - [ScheduledIo], [ScheduledIoProps] (io/mod.rs): the state of one I/O resource:
      the readiness word with tick, generation and shutdown bit
      ([set_readiness], [clear_readiness], [clear]), the waiters ([wake],
      [poll_readiness]) and the [Readiness] future.
    - [SlotMap], [SlotMapConc] (sync_slot_map.rs): the queue of parked workers, as
      the functions [push] and [pop] and as their atomic accesses, interleaved.
    - [JoinHandle], [Task], [TaskConc], [TaskProps] (join_handle.rs, task.rs): the
      task with its state word ([run], [cancel], [finish_cancellation],
      [take_output], [register]) and the join handle, as functions and as threads
      whose atomic accesses interleave.
    - [LinkedList] (linked_list.rs): the fat links with which tasks are queued.
    - [Executor] (lib.rs, and [schedule_global] and [wake_by_ref] of task.rs): the
      runtime's queues and workers, [spawn], [block_on], one turn of
      [run_forever], parking and waking.
    - [Runtime]: [Executor], [Task] and [JoinHandle] put together: a worker that runs
      spawned tasks, and the handles that read their results.
    - [Programs]: futures that spawn tasks, await them and yield, and what they come
      to.  [ForkJoin]: one worker that runs such programs.
    - [Workers], [WorkersInv], [WorkersSteps], [WorkersProps]: any number of workers
      that run the tasks of a program together and sleep when there are none; their
      steps are those of [Task], [TaskConc] and [Executor], and interleave.
    - [ExecutorConc] (lib.rs, task.rs): [run_forever] and [schedule_global] as
      threads whose steps interleave, on top of the atomic accesses of
      [SlotMapConc].
    - [Threads] (lib.rs): the start-up in [init_workers], and [block_on] with whoever
      wakes it, as threads with [park] and [unpark].
    - [IoDriver] (io/mod.rs): [IODriver::poll_timeout], [Handle::add_source],
      [deregister_source] and [wake].
    - [Registration], [AsyncIo] (io/registration.rs): a registered resource:
      [poll_io], [try_io], [readiness], [async_io].
    - [IoConc], [IoConcSteps], [IoConcProps] (io/mod.rs, io/registration.rs): one
      resource whose users ([poll_io], [async_io], [try_io]), driver and kernel take
      their steps in any order.
    - [PollEvented] (io/poll_evented.rs): an I/O object with its registration.
    - [Net] (net/addr.rs, net/lookup_host.rs): socket addresses, and the loop that
      tries one address after the other.
    - [Text], [AddrParse], [AddrProps] (net/addr.rs): addresses in strings, with the
      parser and the [Display] of [std::net].
    - [Tcp] (net/tcp/stream.rs, net/tcp/listener.rs) and [Udp] (net/udp.rs): the
      sockets.
    - [Debug]: the [Debug] output of the types that write their own.
    - [HttpDate], [HttpServer] (src/examples/http-server.rs): the example server:
      date cache, decoder, encoder, routes, connections and accept loop.

    A wake-up travels through all of them: the driver ([IoDriver]) reads events
    from mio, finds the resource of the token in the slab, updates its word and
    wakes its waiters ([ScheduledIo]); a waker of a task queues it globally and
    wakes one sleeper ([Executor], with [SlotMap]); a worker takes the task from
    its queue and runs it ([Task]); its future polls sockets ([Tcp], [Udp],
    [PollEvented]) and so [Registration]; when it returns, the [JoinHandle] is
    woken.

    ** How the code is translated

    - [usize] is 64 bits wide and a number in [Z]; bit operations and the
      wrap-around or panic of each operator are written out.
    - A function returns an [outcome]: its value, a panic, or [OutOfFuel] where a
      [loop] was given too few turns.  Theorems about loops say how many turns
      are enough: [set_readiness] needs one turn more than the exchanges that are
      overtaken, [wake] one more than there are waiters, the [Readiness] future
      two, [poll_io] and [async_io] on a direction that is not closed two,
      [schedule_global] one.  Where the code does not return, the theorem holds
      for every amount of fuel.
    - Mutable state is passed explicitly.  Shared state that several threads
      change is treated in two ways.  The slot map, the task, the executor, the
      start-up, [block_on] and the I/O resource are step relations: a step is one
      access to an atomic, a lock or the memory that the lock protects, and every
      interleaving of any number of threads is covered.  For the slot map, the task
      and the I/O resource theorems say that an uninterrupted run of the steps
      computes the functions as written.  In [ScheduledIo] the updates of the
      readiness word also take the interference as a parameter (what the other
      threads do between a load and an exchange).  Memory is sequentially consistent
      throughout.
    - The kernel in [IoConc] is edge-triggered: when the resource becomes ready in a
      direction it posts an event once; events without a reason are allowed.
    - In [Executor] each operation on the queue of parked workers is one step; in
      [ExecutorConc] it is the sequence of its accesses, and choosing a task, which
      happens under the lock of the global queue, is one step.  In [Workers] one
      operation on the queues ([schedule_local], [schedule_global], choosing a task,
      parking) is one step, and an access to a task is one.
    - A wait of a condition variable may return spuriously: this is a step of the
      models ([park_end], [ASpurious], [tn_spurious]).  The theorems about workers
      that go on working are about the runs without it, since one spurious return
      breaks the queue of parked workers.
    - The polls of an async function are one function on the state of its
      future: where it is suspended and the variables it needs to go on.
    - Crates that the repository only calls are type classes with their documented
      behaviour as laws where a theorem needs them, and each has a reference
      instance: mio ([MioInterest], [MioEvent], [Mio], [MioTcp], [MioUdp]),
      [pin_list] ([PinListOps]), [sharded_slab] ([Pool]), [AtomicWaker] of
      [futures_util] ([AtomicWakerOps]), the link operations of
      [intrusive_collections], and for the example server [BytesMut], [Httparse],
      [Http] and the rendering of [httpdate].  Futures, closures and wakers of the user are
      parameters.

    ** What is proved

    - Tasks ([TaskProps]): no wake-up is lost, one thread polls at a time, the
      joiner is woken and receives the first result, a task at rest has no
      pending work, and threads inside [run] and [cancel] make progress.
    - Parked workers ([SlotMapConc], [SlotMap]): FIFO order without loss or
      duplication as long as an index is pushed only while it is not queued, what
      each answer of [pop] says and does not say about the queue, refinement of a
      list without interference, no panics.
    - Executor: choosing a task conserves and orders the tasks, the global queue
      is served within a bounded number of turns, the local queue is bounded,
      scheduling wakes exactly one sleeper unless it finds the lock of the parked
      workers taken, parking keeps its invariant.
      [ExecutorConc]: workers and schedulers keep to the protocol of the slot map
      under every interleaving without a spurious return, and a queued task is
      attended to as long as no scheduler finds the lock of the parked workers taken.  [Runtime]: spawned
      tasks that wake themselves are run to their end in as many turns as they need
      polls, and joined with their results.  [ForkJoin]: programs that spawn tasks,
      await them, yield, return and panic come to the result they denote, with every
      task complete; their turns are bounded by the steps of the programs.
      [WorkersProps]: the same for any number of workers and every interleaving, with
      their sleep: no panic, a bound on the steps, no circle of workers that wait for
      each other, and the denoted result where every worker sleeps; on the way at most
      one worker is inside the poll of a task.
    - Threads: every order of start-up ends with all workers in [run_forever];
      [block_on] never sleeps on a future that is ready, and returns the first
      value that is.
    - I/O resources ([ScheduledIoProps]): updates of the word are atomic and keep
      its invariant, [poll_readiness] and the [Readiness] future do not lose
      events, [wake] wakes everybody when everybody is interested, clearing.
    - Interleaved I/O ([IoConcProps]): a user that sleeps on a direction which is
      ready has a registration that the driver will find, and an event on the way;
      the driver then wakes it; the lock of the waiters is given back.  Without reuse
      of a tick, and where the driver is concerned with waiters that are interested.
    - Driver and registrations ([IoDriver], [Registration], [AsyncIo],
      [PollEvented]): delivery of events to the word, the list and the slots of a
      resource, tokens that lead back to their slot, the behaviour of [poll_io],
      [try_io] and [async_io] when the driver does not run during the system call, and
      that an event that arrives during it is kept.
    - Sockets ([AddrProps], [Tcp], [Udp]): the order of attempts and the reported
      error of [connect] and [bind], printed addresses are read back without a lookup,
      [connect] gives its slots back and loses one only where the registry refuses a
      source, the behaviour of [accept], the ways of sending agree.
    - Example server ([HttpDate], [HttpServer]): the date cache is transparent,
      the decoder refines decoding on plain bytes, responses are framed by their
      length, requests are answered in order.
    - Foundations ([Bits], [Ready], [LinkedList]): bit fields and flags are what
      the rest assumes, fat links obey the laws of the inner links.

    Six theorems show behaviour that the code does not intend.
    [wake_livelock]: [ScheduledIo::wake] does not move its cursor past a waiter that
    is not interested, and spins with the lock held.  [spurious_wakeup_livelock]:
    a spurious wake-up of a worker's condition variable makes its index its own
    successor in the queue, and [schedule_global] spins.  [add_source_registers]:
    when the registry refuses a source, the slot stays allocated.
    [executor_loses_wakeup]: a scheduler that finds the lock of the parked workers
    taken wakes nobody, although the worker that the holder of the lock woke may
    sleep again already; the task it queued is stranded with all threads asleep.
    [tick_reuse_loses_event]: the tick of the driver has eight bits, so that a thread
    that stops between its system call and the clearing of the readiness for 256
    turns removes an event it has not seen.
    [date_cache_transparent]: in the first second of the epoch the date is empty.

    ** What is not modelled

    The creation of operating-system threads (they appear as threads of the step
    relations), the storage of thread-locals (the current handle and the date cache
    are arguments and results), the resolver of the operating system, what
    [pin_list] does when a pending [Readiness] future is dropped, closing of file
    descriptors, memory orderings weaker than sequential consistency, module
    declarations and tests.  In [Workers] every task but the first is queued by a
    worker, which looks at the queues again before it sleeps, so that no task is
    stranded; [ExecutorConc] has threads outside of the runtime that queue tasks, and
    there one can be.  [Workers] leaves out [abort] and tasks that wait for I/O, whose
    wake-ups [IoConc] follows up to the waker of the task. *)

(** ** Prelude: the vocabulary that all files share *)

From Stdlib Require Export ZArith Lia.
From stdpp Require Export base tactics option relations gmap list.

#[export] Set Warnings "-clear-no-such-hyp".

(** ** Outcomes of Rust code

    A Rust function either returns a value or unwinds with a panic; a loop of
    the model that is given too little fuel says so.  [outcome] is a monad, so
    that straight-line code reads [x ← e; k] with stdpp's notation. *)

Inductive outcome (A : Type) : Type :=
| Done (a : A)
| Panic
| OutOfFuel.
Arguments Done {A} a.
Arguments Panic {A}.
Arguments OutOfFuel {A}.

#[export] Instance outcome_ret : MRet outcome := λ A a, Done a.

#[export] Instance outcome_bind : MBind outcome := λ A B f o,
  match o with
  | Done a => f a
  | Panic => Panic
  | OutOfFuel => OutOfFuel
  end.

#[export] Instance outcome_fmap : FMap outcome := λ A B f o,
  match o with
  | Done a => Done (f a)
  | Panic => Panic
  | OutOfFuel => OutOfFuel
  end.

#[export] Instance outcome_eq_dec `{EqDecision A} : EqDecision (outcome A).
Proof. solve_decision. Defined.

(** [assert!] and [Option::unwrap]/[expect]. *)
Definition assert_ (b : bool) : outcome unit := if b then Done () else Panic.

Definition unwrap {A} (o : option A) : outcome A :=
  match o with Some a => Done a | None => Panic end.

Definition is_done {A} (o : outcome A) : bool :=
  match o with Done _ => true | _ => false end.

(** The value of a Rust [const]: the compiler evaluates the initializer, and
    refuses the program when it panics; the proof is that evaluation. *)
Definition const_eval {A} (o : outcome A) : is_done o = true → A :=
  match o with
  | Done a => λ _, a
  | Panic => λ H, False_rect A (diff_false_true H)
  | OutOfFuel => λ H, False_rect A (diff_false_true H)
  end.

(** Rust's [Result]. *)
Inductive result (A E : Type) : Type :=
| Ok (a : A)
| Err (e : E).
Arguments Ok {A E} a.
Arguments Err {A E} e.

#[export] Instance result_eq_dec `{EqDecision A, EqDecision E} : EqDecision (result A E).
Proof. solve_decision. Defined.

(** [std::task::Poll]. *)
Inductive poll (A : Type) : Type :=
| Ready_ (a : A)
| Pending.
Arguments Ready_ {A} a.
Arguments Pending {A}.

#[export] Instance poll_eq_dec `{EqDecision A} : EqDecision (poll A).
Proof. solve_decision. Defined.

(** ** Loops

    [loop] is Rust's [loop { .. }]: the body maps the loop's variables either
    to new values or to the value of a [break]/[return]. *)

Inductive ctl (S A : Type) : Type :=
| Continue (s : S)
| Break (a : A).
Arguments Continue {S A} s.
Arguments Break {S A} a.

Fixpoint loop {S A} (fuel : nat) (body : S → outcome (ctl S A)) (s : S) : outcome A :=
  match fuel with
  | O => OutOfFuel
  | S fuel =>
      c ← body s;
      match c with
      | Break a => mret a
      | Continue s' => loop fuel body s'
      end
  end.

(** ** Machine integers

    [usize] is 64 bits wide.  Arithmetic that Rust checks ([+], [-], [<<],
    [>>]) panics where it overflows, as it does with overflow checks on; the
    theorems show that the program's uses return [Done], so that a build
    without the checks computes the same values. *)

Definition word_width : Z := 64.
Definition usize_bound : Z := 2 ^ word_width.
Definition usize_max : Z := usize_bound - 1.
Definition usize_ok (x : Z) : Prop := (0 ≤ x < usize_bound)%Z.

Definition usize_not (x : Z) : Z := Z.land (Z.lnot x) (Z.ones word_width).

Definition checked_shl (x n : Z) : outcome Z :=
  if bool_decide (0 ≤ n < word_width)%Z
  then Done (Z.land (Z.shiftl x n) (Z.ones word_width)) else Panic.

Definition checked_shr (x n : Z) : outcome Z :=
  if bool_decide (0 ≤ n < word_width)%Z then Done (Z.shiftr x n) else Panic.

Definition checked_sub (x y : Z) : outcome Z :=
  if bool_decide (y ≤ x)%Z then Done (x - y)%Z else Panic.

(** [usize + usize], which panics past [usize::MAX]. *)
Definition checked_add (x y : Z) : outcome Z :=
  if bool_decide (x + y < usize_bound)%Z then Done (x + y)%Z else Panic.

(** [1usize.wrapping_shl(n)]: the shift amount is taken modulo the width. *)
Definition wrapping_shl (x n : Z) : Z :=
  Z.land (Z.shiftl x (n mod word_width)) (Z.ones word_width).

Definition leading_zeros (x : Z) : Z :=
  if bool_decide (x = 0)%Z then word_width else (word_width - 1 - Z.log2 x)%Z.

(** [x as u8]. *)
Definition as_u8 (x : Z) : Z := x mod 256.

Definition u8_wrapping_add (x y : Z) : Z := (x + y) mod 256.
Definition usize_wrapping_add (x y : Z) : Z := (x + y) mod usize_bound.

(** ** Automation *)

Create HintDb arc discriminated.
Create Rewrite HintDb arc_bits.

(** Case analysis on every [match] and [decide] of the goal. *)
Ltac split_matches :=
  repeat (case_match || case_decide || case_bool_decide); simplify_eq/=; try done.

(** Destruct the existentials and conjunctions of the context. *)
Ltac open_hyps :=
  repeat match goal with
  | H : _ ∧ _ |- _ => destruct H
  | H : ∃ _, _ |- _ => destruct H
  end.

(** ** Lemmas on outcomes and loops *)

Lemma outcome_bind_done {A B} (f : A → outcome B) (o : outcome A) b :
  o ≫= f = Done b ↔ ∃ a, o = Done a ∧ f a = Done b.
Proof.
  split; [destruct o; naive_solver | by intros (a & -> & ?)].
Qed.

Lemma Done_inj {A} (a b : A) : Done a = Done b → a = b.
Proof. congruence. Qed.

Lemma const_eval_done {A} (o : outcome A) (H : is_done o = true) :
  o = Done (const_eval o H).
Proof. by destruct o. Qed.

Lemma loop_break {S A} (body : S → outcome (ctl S A)) fuel s a :
  body s = Done (Break a) → 0 < fuel → loop fuel body s = Done a.
Proof. intros Hb. destruct fuel; [lia|]. cbn. by rewrite Hb. Qed.

Lemma loop_continue {S A} (body : S → outcome (ctl S A)) fuel s s' :
  body s = Done (Continue s') → loop (Datatypes.S fuel) body s = loop fuel body s'.
Proof. intros Hb. cbn. by rewrite Hb. Qed.

Lemma loop_out {S A} (body : S → outcome (ctl S A)) fuel s :
  body s = OutOfFuel → loop fuel body s = OutOfFuel.
Proof. intros Hb. destruct fuel; [done|]. cbn. by rewrite Hb. Qed.

(** A loop whose measure decreases on every [Continue] breaks. *)
Lemma loop_terminates {S A} (body : S → outcome (ctl S A)) (I : S → Prop)
    (Q : A → Prop) (m : S → nat) :
  (∀ s, I s → (∃ a, body s = Done (Break a) ∧ Q a) ∨
              (∃ s', body s = Done (Continue s') ∧ I s' ∧ m s' < m s)) →
  ∀ s, I s → ∃ a, Q a ∧ ∀ fuel, m s < fuel → loop fuel body s = Done a.
Proof.
  intros Hbody s. remember (m s) as n eqn:En. revert s En.
  induction n as [n IH] using lt_wf_ind; intros s -> HI.
  destruct (Hbody s HI) as [(a & Hb & HQ) | (s' & Hb & HI' & Hm)].
  - exists a. split; [done|]. intros [|fuel] ?; [lia|]. by cbn; rewrite Hb.
  - destruct (IH (m s') Hm s' eq_refl HI') as (a & HQ & Hf).
    exists a. split; [done|]. intros [|fuel] ?; [lia|].
    cbn. rewrite Hb. cbn. apply Hf. lia.
Qed.

(** Loops with the same body. *)
Lemma loop_ext {S A} (body body' : S → outcome (ctl S A)) fuel s :
  (∀ s, body s = body' s) → loop fuel body s = loop fuel body' s.
Proof.
  intros Heq. revert s. induction fuel as [|fuel IH]; intros s; [done|]. cbn. rewrite Heq.
  destruct (body' s) as [[]| |]; cbn; auto.
Qed.

(** A loop that keeps to states from which the body continues never breaks. *)
Lemma loop_diverges {S A} (body : S → outcome (ctl S A)) (I : S → Prop) :
  (∀ s, I s → ∃ s', body s = Done (Continue s') ∧ I s') →
  ∀ fuel s, I s → loop fuel body s = OutOfFuel.
Proof.
  intros Hbody. induction fuel as [|fuel IH]; intros s HI; [done|].
  destruct (Hbody s HI) as (s' & Hb & HI'). cbn. rewrite Hb. by apply IH.
Qed.

(** More fuel does not change the result. *)
Lemma loop_fuel_mono {S A} (body : S → outcome (ctl S A)) f1 f2 s a :
  loop f1 body s = Done a → f1 ≤ f2 → loop f2 body s = Done a.
Proof.
  revert f2 s. induction f1 as [|f1 IH]; intros [|f2] s H Hle; [done..|lia|].
  cbn in *. destruct (body s) as [[s'|b]| |]; cbn in *; try done.
  apply IH; [done|lia].
Qed.

(** ** Lemmas on lists *)

(** A sum over a list of which one element is replaced. *)
Lemma sum_list_with_insert {A} (f : A → nat) i x y (l : list A) :
  l !! i = Some x → sum_list_with f (<[i := y]> l) + f x = sum_list_with f l + f y.
Proof.
  intros Hi. rewrite <- (take_drop_middle l i x Hi) at 2.
  rewrite insert_take_drop by (by eapply lookup_lt_Some).
  rewrite !sum_list_with_app. cbn. lia.
Qed.

(** ** Lemmas on bits *)

Lemma usize_bound_pos : (0 < usize_bound)%Z.
Proof. done. Qed.

(** The bits of a number below [2 ^ n]. *)
Lemma testbit_small x n i :
  (0 ≤ x < 2 ^ n)%Z → (n ≤ i)%Z → Z.testbit x i = false.
Proof.
  intros Hx Hi. destruct (decide (0 ≤ n)%Z) as [Hn|Hn].
  - rewrite <- (Z.mod_small x (2 ^ n)) by done. by apply Z.mod_pow2_bits_high.
  - rewrite Z.pow_neg_r in Hx; lia.
Qed.

(** A number whose bits from [n] on are clear is below [2 ^ n]. *)
Lemma small_of_testbit x n :
  (0 ≤ n)%Z → (0 ≤ x)%Z → (∀ i, (n ≤ i)%Z → Z.testbit x i = false) → (x < 2 ^ n)%Z.
Proof.
  intros Hn Hx H. destruct (decide (x = 0)%Z) as [->|]; [lia|].
  apply Z.log2_lt_pow2; [lia|].
  destruct (decide (Z.log2 x < n)%Z) as [|Hge]; [done|].
  pose proof (Z.bit_log2 x ltac:(lia)) as Hb. rewrite H in Hb; [done|lia].
Qed.

Lemma testbit_ones n i :
  (0 ≤ n)%Z → Z.testbit (Z.ones n) i = bool_decide (0 ≤ i < n)%Z.
Proof.
  intros Hn. rewrite Z.testbit_ones by done.
  case_bool_decide; [rewrite andb_true_iff | rewrite andb_false_iff]; lia.
Qed.

Lemma testbit_shiftl x n i :
  (0 ≤ i)%Z → Z.testbit (Z.shiftl x n) i = Z.testbit x (i - n).
Proof. intros. by rewrite Z.shiftl_spec. Qed.

#[export] Hint Rewrite Z.land_spec Z.lor_spec Z.ldiff_spec Z.bits_0 : arc_bits.
#[export] Hint Rewrite Z.lnot_spec Z.shiftr_spec testbit_shiftl testbit_ones using lia : arc_bits.

(** Decide the interval tests that [testbit_ones] leaves. *)
Ltac bits_cases :=
  repeat match goal with
  | |- context [bool_decide ?P] =>
      first [ rewrite (bool_decide_true P) by lia
            | rewrite (bool_decide_false P) by lia
            | destruct (decide P) ]
  end.

(** Equality of two numbers, bit by bit. *)
Ltac bitwise i :=
  apply Z.bits_inj'; intros i ?; autorewrite with arc_bits; bits_cases;
  autorewrite with arc_bits;
  rewrite ?andb_true_r, ?andb_false_r, ?orb_false_r, ?orb_true_r, ?orb_false_l;
  try done.
