(* ===== verification/Bits.v ===== *)
(** * Bits: packing values into a [usize]  (src/src/bits.rs)

    [Pack] describes a bit field by its mask and shift.  The definitions follow
    the source, with its checked arithmetic; [Pack_wf p w s] says that [p] is
    the field of width [w] at bit [s], which is what [least_significant] and
    [then] build, and every other operation is characterised under it. *)

From S2P Require Import Prelude.

Local Open Scope Z_scope.

(** ** Definitions *)

Record Pack : Type := mkPack { mask : Z; shift : Z }.

#[export] Instance Pack_eq_dec : EqDecision Pack.
Proof. solve_decision. Defined.

(** [std::mem::size_of::<usize>() as u32 * 8]. *)
Definition pointer_width : Z := word_width.

(** [let shift = 1usize.wrapping_shl(n - 1); shift | (shift - 1)]. *)
Definition mask_for (n : Z) : outcome Z :=
  n1 ← checked_sub n 1;
  let shift := wrapping_shl 1 n1 in
  s1 ← checked_sub shift 1;
  mret (Z.lor shift s1).

(** The free function [unpack]. *)
Definition unpack (src mask shift : Z) : outcome Z :=
  checked_shr (Z.land src mask) shift.

Definition Pack_least_significant (width : Z) : outcome Pack :=
  mask ← mask_for width;
  mret (mkPack mask 0).

Definition Pack_then (self : Pack) (width : Z) : outcome Pack :=
  shift ← checked_sub pointer_width (leading_zeros (mask self));
  m ← mask_for width;
  mask ← checked_shl m shift;
  mret (mkPack mask shift).

Definition Pack_width (self : Pack) : outcome Z :=
  m ← checked_shr (mask self) (shift self);
  checked_sub pointer_width (leading_zeros m).

Definition Pack_max_value (self : Pack) : outcome Z :=
  w ← Pack_width self;
  x ← checked_shl 1 w;
  checked_sub x 1.

Definition Pack_pack (self : Pack) (value base : Z) : outcome Z :=
  max ← Pack_max_value self;
  _ ← assert_ (bool_decide (value ≤ max));
  v ← checked_shl value (shift self);
  mret (Z.lor (Z.land base (usize_not (mask self))) v).

Definition Pack_pack_lossy (self : Pack) (value base : Z) : outcome Z :=
  max ← Pack_max_value self;
  Pack_pack self (Z.land value max) base.

Definition Pack_unpack (self : Pack) (src : Z) : outcome Z :=
  unpack src (mask self) (shift self).

(** ** Specification

    A well-formed field, and what its operations mean. *)

Record Pack_wf (p : Pack) (w s : Z) : Prop := {
  wf_width : 1 ≤ w;
  wf_shift : 0 ≤ s;
  wf_fits : s + w ≤ word_width;
  wf_mask : mask p = Z.shiftl (Z.ones w) s;
  wf_shift_eq : shift p = s;
}.

(** The value of the field [(w, s)] in a word, and the word with that field
    replaced. *)
Definition field_get (w s word : Z) : Z := Z.land (Z.shiftr word s) (Z.ones w).

Definition field_set (w s value base : Z) : Z :=
  Z.lor (Z.ldiff base (Z.shiftl (Z.ones w) s)) (Z.shiftl value s).

(** ** Facts on fields *)

Lemma field_get_range w s x : 0 ≤ w → 0 ≤ field_get w s x < 2 ^ w.
Proof.
  intros. unfold field_get. rewrite Z.land_ones by done.
  apply Z.mod_pos_bound. lia.
Qed.

Lemma field_get_small w v : 0 ≤ w → 0 ≤ v < 2 ^ w → Z.land v (Z.ones w) = v.
Proof. intros. rewrite Z.land_ones by done. by apply Z.mod_small. Qed.

Lemma field_get_set_same w s v b :
  0 ≤ w → 0 ≤ s → 0 ≤ v < 2 ^ w → field_get w s (field_set w s v b) = v.
Proof.
  intros Hw Hs Hv. unfold field_get, field_set. bitwise i.
  - by rewrite Z.add_simpl_r.
  - symmetry. apply (testbit_small v w); lia.
Qed.

Lemma field_get_set_other w s w' s' v b :
  0 ≤ w → 0 ≤ s → 0 ≤ w' → 0 ≤ s' → 0 ≤ v < 2 ^ w →
  s + w ≤ s' ∨ s' + w' ≤ s →
  field_get w' s' (field_set w s v b) = field_get w' s' b.
Proof.
  intros Hw Hs Hw' Hs' Hv Hdisj. unfold field_get, field_set. bitwise i.
  destruct Hdisj.
  - rewrite (testbit_small v w) by lia. by rewrite orb_false_r.
  - rewrite (Z.testbit_neg_r v) by lia. by rewrite orb_false_r.
Qed.

Lemma field_set_range w s v b :
  0 ≤ w → 0 ≤ s → s + w ≤ word_width → 0 ≤ v < 2 ^ w → usize_ok b →
  usize_ok (field_set w s v b).
Proof.
  unfold usize_ok, usize_bound, field_set. intros Hw Hs Hf Hv Hb.
  assert (0 ≤ Z.lor (Z.ldiff b (Z.shiftl (Z.ones w) s)) (Z.shiftl v s)) as Hpos.
  { apply Z.lor_nonneg. split; [apply Z.ldiff_nonneg; lia | apply Z.shiftl_nonneg; lia]. }
  split; [done|]. apply small_of_testbit; [done|done|].
  intros i Hi. assert (0 ≤ i) by (unfold word_width in *; lia).
  autorewrite with arc_bits.
  rewrite (testbit_small b word_width), (testbit_small v w) by lia. done.
Qed.

(** ** The constructors build well-formed fields *)

Lemma wrapping_shl_one n :
  0 ≤ n < word_width → wrapping_shl 1 n = 2 ^ n.
Proof.
  intros Hn. unfold wrapping_shl. rewrite Z.mod_small by done.
  rewrite Z.shiftl_1_l, Z.land_ones by done.
  apply Z.mod_small. split; [lia|]. apply Z.pow_lt_mono_r; lia.
Qed.

Lemma pow2_lor_pred n : 0 ≤ n → Z.lor (2 ^ n) (2 ^ n - 1) = Z.ones (n + 1).
Proof.
  intros Hn.
  replace (2 ^ n - 1) with (Z.ones n) by (rewrite Z.ones_equiv; lia).
  rewrite <- Z.shiftl_1_l. bitwise i.
  all: destruct (decide (i = n)) as [->|].
  all: rewrite ?Z.sub_diag; try done; try lia.
  change 1 with (Z.ones 1). rewrite testbit_ones by lia. by bits_cases.
Qed.

Lemma mask_for_spec n : 1 ≤ n ≤ word_width → mask_for n = Done (Z.ones n).
Proof.
  intros Hn. unfold mask_for, checked_sub. rewrite bool_decide_true by lia. cbn.
  rewrite wrapping_shl_one by lia.
  pose proof (Z.pow_pos_nonneg 2 (n - 1)). rewrite bool_decide_true by lia. cbn.
  rewrite pow2_lor_pred by lia. by rewrite Z.sub_add.
Qed.

Lemma ones_pos w : 1 ≤ w → 0 < Z.ones w.
Proof.
  intros. rewrite Z.ones_equiv.
  pose proof (Z.pow_le_mono_r 2 1 w ltac:(lia) ltac:(lia)). lia.
Qed.

Lemma leading_zeros_shifted_ones w s :
  1 ≤ w → 0 ≤ s → word_width - leading_zeros (Z.shiftl (Z.ones w) s) = s + w.
Proof.
  intros Hw Hs. pose proof (ones_pos w Hw). unfold leading_zeros.
  rewrite bool_decide_false.
  - rewrite Z.log2_shiftl, Z.ones_equiv, Z.log2_pred_pow2 by lia. lia.
  - rewrite Z.shiftl_mul_pow2 by done. pose proof (Z.pow_pos_nonneg 2 s). nia.
Qed.

Lemma shifted_ones_range w s :
  0 ≤ w → 0 ≤ s → s + w ≤ word_width →
  Z.land (Z.shiftl (Z.ones w) s) (Z.ones word_width) = Z.shiftl (Z.ones w) s.
Proof.
  intros. bitwise i.
Qed.

Lemma least_significant_wf w :
  1 ≤ w ≤ word_width →
  ∃ p, Pack_least_significant w = Done p ∧ Pack_wf p w 0.
Proof.
  intros Hw. unfold Pack_least_significant. rewrite mask_for_spec by done. cbn.
  eexists. split; [done|]. split; cbn; rewrite ?Z.shiftl_0_r; lia.
Qed.

Lemma then_wf p w s w' :
  Pack_wf p w s → 1 ≤ w' → s + w + w' ≤ word_width →
  ∃ q, Pack_then p w' = Done q ∧ Pack_wf q w' (s + w).
Proof.
  intros [Hw Hs Hf Hm Hsh] Hw' Hfit. unfold Pack_then, pointer_width.
  rewrite Hm. unfold checked_sub at 1.
  rewrite bool_decide_true by (pose proof (leading_zeros_shifted_ones w s); lia).
  cbn. rewrite leading_zeros_shifted_ones, mask_for_spec by lia. cbn.
  unfold checked_shl. rewrite bool_decide_true by lia. cbn.
  rewrite shifted_ones_range by lia.
  eexists. split; [done|]. split; cbn; lia.
Qed.

(** ** The operations on a well-formed field *)

Section operations.
Context (p : Pack) (w s : Z) (Hwf : Pack_wf p w s).

Lemma shift_in_range : bool_decide (0 ≤ shift p < word_width) = true.
Proof using Hwf.
  pose proof Hwf as [Hw Hs Hf Hm Hsh]. rewrite Hsh. apply bool_decide_true. lia.
Qed.

Lemma width_spec : Pack_width p = Done w.
Proof using Hwf.
  unfold Pack_width, checked_shr. rewrite shift_in_range. cbn.
  pose proof Hwf as [Hw Hs Hf Hm Hsh]. rewrite Hm, Hsh.
  rewrite Z.shiftr_shiftl_l, Z.sub_diag by done.
  pose proof (leading_zeros_shifted_ones w 0) as Hlz.
  unfold checked_sub, pointer_width. rewrite bool_decide_true by lia. f_equal. lia.
Qed.

Lemma max_value_spec : w < word_width → Pack_max_value p = Done (2 ^ w - 1).
Proof using Hwf.
  intros Hlt. unfold Pack_max_value. rewrite width_spec. cbn.
  pose proof Hwf as [Hw _ _ _ _].
  unfold checked_shl. rewrite bool_decide_true by lia. cbn.
  rewrite Z.shiftl_1_l, Z.land_ones, Z.mod_small
    by (try split; try apply Z.pow_lt_mono_r; lia).
  unfold checked_sub. rewrite bool_decide_true; [done|lia].
Qed.

Lemma max_value_panics : w = word_width → Pack_max_value p = Panic.
Proof using Hwf.
  intros Hw. unfold Pack_max_value. by rewrite width_spec, Hw.
Qed.

Lemma land_not_mask b : usize_ok b → Z.land b (usize_not (mask p)) = Z.ldiff b (mask p).
Proof using.
  intros Hb. unfold usize_not. rewrite Z.land_assoc, <- Z.ldiff_land.
  apply field_get_small; [done|]. destruct Hb.
  split; [apply Z.ldiff_nonneg; lia|]. apply small_of_testbit; [done|apply Z.ldiff_nonneg; lia|].
  intros i Hi. assert (0 ≤ i) by (unfold word_width in *; lia).
  autorewrite with arc_bits. by rewrite (testbit_small b word_width).
Qed.

Lemma pack_spec v b :
  w < word_width → usize_ok v → usize_ok b →
  Pack_pack p v b = if bool_decide (v < 2 ^ w) then Done (field_set w s v b) else Panic.
Proof using Hwf.
  intros Hlt Hv Hb. unfold Pack_pack. rewrite max_value_spec by done. cbn.
  unfold assert_. case_bool_decide as Hle; case_bool_decide; try lia; cbn; [|done].
  unfold checked_shl. rewrite shift_in_range. cbn.
  rewrite land_not_mask by done. unfold field_set.
  pose proof Hwf as [Hw Hs Hf -> ->]. do 2 f_equal. bitwise i.
  unfold usize_ok in Hv. symmetry. apply (testbit_small v w); lia.
Qed.

Lemma pack_lossy_spec v b :
  w < word_width → usize_ok v → usize_ok b →
  Pack_pack_lossy p v b = Done (field_set w s (v mod 2 ^ w) b).
Proof using Hwf.
  intros Hlt Hv Hb. unfold Pack_pack_lossy. rewrite max_value_spec by done. cbn.
  pose proof Hwf as [Hw _ _ _ _].
  replace (2 ^ w - 1) with (Z.ones w) by (rewrite Z.ones_equiv; lia).
  rewrite Z.land_ones by lia. pose proof (Z.mod_pos_bound v (2 ^ w) ltac:(lia)).
  rewrite pack_spec, bool_decide_true; [done|lia|done| |done].
  unfold usize_ok, usize_bound in *.
  pose proof (Z.pow_lt_mono_r 2 w word_width). lia.
Qed.

Lemma unpack_spec x : Pack_unpack p x = Done (field_get w s x).
Proof using Hwf.
  unfold Pack_unpack, unpack, checked_shr. rewrite shift_in_range.
  pose proof Hwf as [Hw Hs Hf -> ->]. unfold field_get. f_equal.
  rewrite Z.shiftr_land, Z.shiftr_shiftl_l, Z.sub_diag by done. done.
Qed.
End operations.

(** ** Properties *)

(** A value that fits its field is recovered from the packed word, every
    field that does not overlap it keeps its value, and the word stays a
    [usize].  Neither operation panics. *)
Theorem pack_unpack_roundtrip p w s v b :
  Pack_wf p w s → w < word_width → 0 ≤ v < 2 ^ w → usize_ok b →
  ∃ r, Pack_pack p v b = Done r ∧ usize_ok r ∧ Pack_unpack p r = Done v ∧
    ∀ q w' s', Pack_wf q w' s' → s + w ≤ s' ∨ s' + w' ≤ s →
      Pack_unpack q r = Pack_unpack q b.
Proof.
  intros Hwf Hlt Hv Hb. destruct (Hwf) as [Hw Hs Hf _ _].
  assert (usize_ok v).
  { unfold usize_ok, usize_bound. pose proof (Z.pow_lt_mono_r 2 w word_width). lia. }
  exists (field_set w s v b). rewrite (pack_spec p w s), bool_decide_true by (done || lia).
  rewrite (unpack_spec p w s), field_get_set_same by (done || lia).
  split_and!; [done|apply field_set_range; (done || lia)|done|].
  intros q w' s' Hq Hd. rewrite !(unpack_spec q w' s') by done. f_equal.
  destruct Hq. apply field_get_set_other; lia.
Qed.

Lemma pack_unpack_roundtrip_witness :
  ∃ r, Pack_pack (mkPack 0xff0000 16) 7 0xabcdef01 = Done r ∧ usize_ok r ∧
    Pack_unpack (mkPack 0xff0000 16) r = Done 7 ∧
    ∀ q w' s', Pack_wf q w' s' → 16 + 8 ≤ s' ∨ s' + w' ≤ 16 →
      Pack_unpack q r = Pack_unpack q 0xabcdef01.
Proof.
  apply (pack_unpack_roundtrip (mkPack 0xff0000 16) 8 16 7 0xabcdef01).
  - by split.
  - done.
  - done.
  - done.
Defined.

(** [pack] panics exactly on the values its field cannot hold, while
    [pack_lossy] never panics and keeps the value modulo the field's size. *)
Theorem pack_panics_iff_pack_lossy_truncates p w s v b :
  Pack_wf p w s → w < word_width → usize_ok v → usize_ok b →
  (Pack_pack p v b = Panic ↔ 2 ^ w ≤ v) ∧
  ∃ r, Pack_pack_lossy p v b = Done r ∧ Pack_unpack p r = Done (v mod 2 ^ w).
Proof.
  intros Hwf Hlt Hv Hb. destruct (Hwf) as [Hw Hs _ _ _]. split.
  - rewrite (pack_spec p w s) by done. case_bool_decide; split; (done || lia).
  - eexists. rewrite (pack_lossy_spec p w s) by done. split; [done|].
    rewrite (unpack_spec p w s) by done. f_equal.
    apply field_get_set_same; [lia..|]. apply Z.mod_pos_bound. lia.
Qed.

Lemma pack_panics_iff_pack_lossy_truncates_witness :
  (Pack_pack (mkPack 0x7f000000 24) 128 0 = Panic ↔ 2 ^ 7 ≤ 128) ∧
  ∃ r, Pack_pack_lossy (mkPack 0x7f000000 24) 128 0 = Done r ∧
    Pack_unpack (mkPack 0x7f000000 24) r = Done (128 mod 2 ^ 7).
Proof.
  apply (pack_panics_iff_pack_lossy_truncates (mkPack 0x7f000000 24) 7 24 128 0).
  - by split.
  - done.
  - done.
  - done.
Defined.
