(* ===== verification/Ready.v ===== *)
(** * Ready: the readiness bit set  (src/src/io/ready.rs)

    [Ready] is a newtype over [usize] with four flags.  [mio]'s interests and
    events are not part of the repository: they are the classes
    [MioInterest] and [MioEvent], with the documented laws of [mio::Interest]
    in [MioInterestLaws].  The specification reads a [Ready] as a finite set
    of [readiness_kind]s. *)

From S2P Require Import Prelude.

Local Open Scope Z_scope.

(** ** Interfaces of mio *)

(** [mio::Interest]: its two constants, its union and its queries. *)
Class MioInterest (I : Type) : Type := {
  interest_eq_dec :: EqDecision I;
  INTEREST_READABLE : I;
  INTEREST_WRITABLE : I;
  interest_add : I → I → I;
  interest_is_readable : I → bool;
  interest_is_writable : I → bool;
}.

Class MioInterestLaws (I : Type) `{MioInterest I} : Prop := {
  READABLE_is_readable : interest_is_readable INTEREST_READABLE = true;
  READABLE_is_writable : interest_is_writable INTEREST_READABLE = false;
  WRITABLE_is_readable : interest_is_readable INTEREST_WRITABLE = false;
  WRITABLE_is_writable : interest_is_writable INTEREST_WRITABLE = true;
  add_is_readable a b : interest_is_readable (interest_add a b) =
    interest_is_readable a || interest_is_readable b;
  add_is_writable a b : interest_is_writable (interest_add a b) =
    interest_is_writable a || interest_is_writable b;
}.

(** [mio::event::Event]: its token and its queries. *)
Class MioEvent (E : Type) : Type := {
  event_token : E → Z;
  event_is_readable : E → bool;
  event_is_writable : E → bool;
  event_is_read_closed : E → bool;
  event_is_write_closed : E → bool;
  event_is_aio : E → bool;
  event_is_lio : E → bool;
}.

(** ** Definitions *)

Definition READABLE : Z := 1.
Definition WRITABLE : Z := 2.
Definition READ_CLOSED : Z := 4.
Definition WRITE_CLOSED : Z := 8.

Record Ready : Type := mkReady { ready_0 : Z }.

#[export] Instance Ready_eq_dec : EqDecision Ready.
Proof. solve_decision. Defined.

Definition Ready_EMPTY : Ready := mkReady 0.
Definition Ready_READABLE : Ready := mkReady READABLE.
Definition Ready_WRITABLE : Ready := mkReady WRITABLE.
Definition Ready_READ_CLOSED : Ready := mkReady READ_CLOSED.
Definition Ready_WRITE_CLOSED : Ready := mkReady WRITE_CLOSED.
Definition Ready_ALL : Ready :=
  mkReady (Z.lor (Z.lor (Z.lor READABLE WRITABLE) READ_CLOSED) WRITE_CLOSED).

Definition Ready_bitor (self other : Ready) : Ready :=
  mkReady (Z.lor (ready_0 self) (ready_0 other)).
(** [self |= other]. *)
Definition Ready_bitor_assign (self other : Ready) : Ready :=
  mkReady (Z.lor (ready_0 self) (ready_0 other)).
Definition Ready_bitand (self other : Ready) : Ready :=
  mkReady (Z.land (ready_0 self) (ready_0 other)).
Definition Ready_sub (self other : Ready) : Ready :=
  mkReady (Z.land (ready_0 self) (usize_not (ready_0 other))).

Definition Ready_as_usize (self : Ready) : Z := ready_0 self.
Definition Ready_from_usize (val : Z) : Ready :=
  mkReady (Z.land val (Ready_as_usize Ready_ALL)).

Definition Ready_is_empty (self : Ready) : bool := bool_decide (self = Ready_EMPTY).
Definition Ready_contains (self other : Ready) : bool :=
  bool_decide (Ready_bitand self other = other).
Definition Ready_is_read_closed (self : Ready) : bool :=
  Ready_contains self Ready_READ_CLOSED.
Definition Ready_is_write_closed (self : Ready) : bool :=
  Ready_contains self Ready_WRITE_CLOSED.
Definition Ready_is_readable (self : Ready) : bool :=
  Ready_contains self Ready_READABLE || Ready_is_read_closed self.
Definition Ready_is_writable (self : Ready) : bool :=
  Ready_contains self Ready_WRITABLE || Ready_is_write_closed self.

(** [if c { ready |= flag; }] *)
Definition or_if (c : bool) (flag ready : Ready) : Ready :=
  if c then Ready_bitor_assign ready flag else ready.

(** [freebsd] stands for [cfg(target_os = "freebsd")]. *)
Definition Ready_from_mio {E} `{MioEvent E} (freebsd : bool) (event : E) : Ready :=
  let ready := Ready_EMPTY in
  let ready := or_if (freebsd && event_is_aio event) Ready_READABLE ready in
  let ready := or_if (freebsd && event_is_lio event) Ready_READABLE ready in
  let ready := or_if (event_is_readable event) Ready_READABLE ready in
  let ready := or_if (event_is_writable event) Ready_WRITABLE ready in
  let ready := or_if (event_is_read_closed event) Ready_READ_CLOSED ready in
  or_if (event_is_write_closed event) Ready_WRITE_CLOSED ready.

Section interest.
Context {I : Type} `{MioInterest I}.

Definition Ready_from_interest (interest : I) : Ready :=
  let ready := Ready_EMPTY in
  let ready := if interest_is_readable interest
               then Ready_bitor (Ready_bitor ready Ready_READABLE) Ready_READ_CLOSED
               else ready in
  if interest_is_writable interest
  then Ready_bitor (Ready_bitor ready Ready_WRITABLE) Ready_WRITE_CLOSED
  else ready.

Definition Ready_intersection (self : Ready) (interest : I) : Ready :=
  mkReady (Z.land (ready_0 self) (ready_0 (Ready_from_interest interest))).

Definition Ready_satisfies (self : Ready) (interest : I) : bool :=
  negb (bool_decide (Z.land (ready_0 self) (ready_0 (Ready_from_interest interest)) = 0)).
End interest.

(** ** Specification: a [Ready] as a set *)

Inductive readiness_kind : Type := Readable | Writable | ReadClosed | WriteClosed.

#[export] Instance readiness_kind_eq_dec : EqDecision readiness_kind.
Proof. solve_decision. Defined.

Definition readiness_bit (k : readiness_kind) : Z :=
  match k with Readable => 0 | Writable => 1 | ReadClosed => 2 | WriteClosed => 3 end.

#[export] Instance readiness_kind_countable : Countable readiness_kind.
Proof.
  refine (inj_countable' (λ k, Z.to_nat (readiness_bit k))
    (λ n, match n with
          | 0 => Readable | 1 => Writable | 2 => ReadClosed | _ => WriteClosed
          end%nat) _).
  by intros [].
Defined.

Definition all_readiness : list readiness_kind := [Readable; Writable; ReadClosed; WriteClosed].

(** The kinds whose flag is set. *)
Definition kinds (r : Ready) : gset readiness_kind :=
  list_to_set (filter (λ k, Z.testbit (ready_0 r) (readiness_bit k) = true) all_readiness).

(** A [Ready] that only holds the four flags. *)
Definition Ready_wf (r : Ready) : Prop := 0 ≤ ready_0 r < 16.

(** ** Instances of mio's interfaces *)

Module MioRef.
(** Two flags: readable and writable. *)
Record interest : Type := mkInterest { i_readable : bool; i_writable : bool }.

#[export] Instance interest_ref_eq_dec : EqDecision interest.
Proof. solve_decision. Defined.

#[export] Instance interest_ref : MioInterest interest := {|
  INTEREST_READABLE := mkInterest true false;
  INTEREST_WRITABLE := mkInterest false true;
  interest_add a b := mkInterest (i_readable a || i_readable b) (i_writable a || i_writable b);
  interest_is_readable := i_readable;
  interest_is_writable := i_writable;
|}.

#[export] Instance interest_ref_laws : MioInterestLaws interest.
Proof. by split. Qed.

Record event : Type := mkEvent { e_token : Z; e_flags : Z }.

#[export] Instance event_ref : MioEvent event := {|
  event_token := e_token;
  event_is_readable e := Z.testbit (e_flags e) 0;
  event_is_writable e := Z.testbit (e_flags e) 1;
  event_is_read_closed e := Z.testbit (e_flags e) 2;
  event_is_write_closed e := Z.testbit (e_flags e) 3;
  event_is_aio e := Z.testbit (e_flags e) 4;
  event_is_lio e := Z.testbit (e_flags e) 5;
|}.
End MioRef.

(** ** Lemmas *)

Lemma elem_of_kinds k r :
  k ∈ kinds r ↔ Z.testbit (ready_0 r) (readiness_bit k) = true.
Proof.
  unfold kinds. rewrite elem_of_list_to_set, list_elem_of_filter.
  split; [by intros [? _]|]. intros ?. split; [done|].
  unfold all_readiness. destruct k; set_solver.
Qed.

Lemma Ready_wf_ext a b :
  Ready_wf a → Ready_wf b →
  (∀ k, Z.testbit (ready_0 a) (readiness_bit k) = Z.testbit (ready_0 b) (readiness_bit k)) →
  a = b.
Proof.
  destruct a as [x], b as [y]. unfold Ready_wf; cbn. intros Hx Hy H. f_equal.
  apply Z.bits_inj'. intros i Hi. destruct (decide (4 ≤ i)) as [Hge|].
  - by rewrite (testbit_small x 4), (testbit_small y 4).
  - pose proof (H Readable). pose proof (H Writable).
    pose proof (H ReadClosed). pose proof (H WriteClosed). cbn [readiness_bit] in *.
    assert (i = 0 ∨ i = 1 ∨ i = 2 ∨ i = 3) as [->|[->|[->| ->]]] by lia; done.
Qed.

Lemma kinds_inj a b : Ready_wf a → Ready_wf b → kinds a = kinds b → a = b.
Proof.
  intros Ha Hb Heq. apply Ready_wf_ext; [done..|]. intros k.
  pose proof (elem_of_kinds k a) as H1. pose proof (elem_of_kinds k b) as H2.
  rewrite Heq, H2 in H1.
  do 2 destruct (Z.testbit _ _); intuition congruence.
Qed.

Lemma Ready_wf_sub_mask a x : 0 ≤ x → Ready_wf (mkReady x) → Ready_wf (mkReady (Z.land x a)).
Proof.
  unfold Ready_wf; cbn. intros Hx Hwf. change 16 with (2 ^ 4) in *.
  split; [apply Z.land_nonneg; lia|].
  apply small_of_testbit; [done|apply Z.land_nonneg; lia|].
  intros i Hi. rewrite Z.land_spec. by rewrite (testbit_small x 4).
Qed.

Lemma Ready_wf_from_usize x : Ready_wf (Ready_from_usize x).
Proof.
  unfold Ready_from_usize, Ready_wf. cbn [ready_0].
  change (Ready_as_usize Ready_ALL) with (Z.ones 4). rewrite Z.land_ones by done.
  by apply Z.mod_pos_bound.
Qed.

Lemma Ready_wf_bitor a b : Ready_wf a → Ready_wf b → Ready_wf (Ready_bitor a b).
Proof.
  unfold Ready_wf; cbn. intros Ha Hb. change 16 with (2 ^ 4) in *.
  assert (0 ≤ Z.lor (ready_0 a) (ready_0 b)) by (apply Z.lor_nonneg; lia).
  split; [done|]. apply small_of_testbit; [done|done|].
  intros i Hi. rewrite Z.lor_spec. by rewrite !(testbit_small _ 4).
Qed.

Lemma Ready_wf_bitand a b : Ready_wf a → Ready_wf (Ready_bitand a b).
Proof. destruct a as [x]. intros Ha. apply Ready_wf_sub_mask; [apply Ha|done]. Qed.

Lemma Ready_wf_bitand_r a b : Ready_wf b → Ready_wf (Ready_bitand a b).
Proof.
  unfold Ready_bitand. rewrite Z.land_comm. destruct b as [x]. intros Hb.
  apply Ready_wf_sub_mask; [apply Hb|done].
Qed.

Lemma Ready_wf_sub a b : Ready_wf a → Ready_wf (Ready_sub a b).
Proof. destruct a as [x]. intros Ha. apply Ready_wf_sub_mask; [apply Ha|done]. Qed.

#[export] Hint Resolve Ready_wf_from_usize Ready_wf_bitor Ready_wf_bitand Ready_wf_sub : arc.
#[export] Hint Extern 1 (Ready_wf ?r) => is_const r; by vm_compute : arc.

Lemma kinds_bitor a b : kinds (Ready_bitor a b) = kinds a ∪ kinds b.
Proof.
  apply set_eq. intros k. rewrite elem_of_union, !elem_of_kinds. cbn.
  by rewrite Z.lor_spec, orb_true_iff.
Qed.

Lemma kinds_bitand a b : kinds (Ready_bitand a b) = kinds a ∩ kinds b.
Proof.
  apply set_eq. intros k. rewrite elem_of_intersection, !elem_of_kinds. cbn.
  by rewrite Z.land_spec, andb_true_iff.
Qed.

Lemma kinds_sub a b : kinds (Ready_sub a b) = kinds a ∖ kinds b.
Proof.
  apply set_eq. intros k. rewrite elem_of_difference, !elem_of_kinds. cbn.
  unfold usize_not, word_width.
  assert (0 ≤ readiness_bit k < 64) by by destruct k.
  rewrite !Z.land_spec, Z.lnot_spec, testbit_ones, bool_decide_true by lia.
  rewrite !andb_true_iff, negb_true_iff. destruct (Z.testbit (ready_0 b) _); intuition congruence.
Qed.

Lemma kinds_EMPTY : kinds Ready_EMPTY = ∅.
Proof. by vm_compute. Qed.

Lemma Ready_is_empty_spec a : Ready_wf a → Ready_is_empty a = true ↔ kinds a = ∅.
Proof.
  intros Ha. unfold Ready_is_empty. rewrite bool_decide_eq_true. split.
  - by intros ->.
  - intros Hk. apply kinds_inj; auto with arc.
Qed.

Lemma Ready_contains_spec a b :
  Ready_wf b → Ready_contains a b = true ↔ kinds b ⊆ kinds a.
Proof.
  intros Hb. unfold Ready_contains. rewrite bool_decide_eq_true. split.
  - intros <-. rewrite kinds_bitand. set_solver.
  - intros Hs. apply kinds_inj; [by apply Ready_wf_bitand_r|done|].
    rewrite kinds_bitand. set_solver.
Qed.

Lemma elem_of_or_if k c f r :
  k ∈ kinds (or_if c f r) ↔ k ∈ kinds r ∨ (c = true ∧ k ∈ kinds f).
Proof.
  destruct c; cbn [or_if]; [rewrite kinds_bitor, elem_of_union|]; intuition congruence.
Qed.

(** The flag constants are the singletons. *)
Lemma elem_of_flag k j : k ∈ kinds (mkReady (2 ^ readiness_bit j)) ↔ k = j.
Proof. rewrite elem_of_kinds. by destruct k, j. Qed.

Lemma elem_of_from_interest {I} `{MioInterest I} (i : I) k :
  k ∈ kinds (Ready_from_interest i) ↔
  match k with
  | Readable | ReadClosed => interest_is_readable i = true
  | Writable | WriteClosed => interest_is_writable i = true
  end.
Proof.
  rewrite elem_of_kinds. unfold Ready_from_interest.
  by destruct (interest_is_readable i), (interest_is_writable i), k.
Qed.

Lemma Ready_wf_from_interest {I} `{MioInterest I} (i : I) : Ready_wf (Ready_from_interest i).
Proof.
  unfold Ready_from_interest.
  by destruct (interest_is_readable i), (interest_is_writable i); vm_compute.
Qed.

Lemma Ready_wf_from_mio {E} `{MioEvent E} bsd (e : E) : Ready_wf (Ready_from_mio bsd e).
Proof.
  unfold Ready_from_mio, or_if. repeat case_match; auto 10 with arc.
Qed.

#[export] Hint Resolve Ready_wf_from_interest Ready_wf_from_mio : arc.

Lemma kinds_from_mio {E} `{MioEvent E} bsd (e : E) k :
  k ∈ kinds (Ready_from_mio bsd e) ↔
  match k with
  | Readable => event_is_readable e = true ∨
      (bsd = true ∧ (event_is_aio e = true ∨ event_is_lio e = true))
  | Writable => event_is_writable e = true
  | ReadClosed => event_is_read_closed e = true
  | WriteClosed => event_is_write_closed e = true
  end.
Proof.
  unfold Ready_from_mio. rewrite !elem_of_or_if, kinds_EMPTY, elem_of_empty.
  rewrite (elem_of_flag k Readable), (elem_of_flag k Writable),
    (elem_of_flag k ReadClosed), (elem_of_flag k WriteClosed), !andb_true_iff.
  destruct k; intuition congruence.
Qed.

Lemma kinds_nonempty r : Ready_wf r → ready_0 r ≠ 0 ↔ ∃ k, k ∈ kinds r.
Proof.
  intros Hr. pose proof (Ready_is_empty_spec r Hr) as He.
  unfold Ready_is_empty in He. rewrite bool_decide_eq_true in He.
  assert (ready_0 r = 0 ↔ kinds r = ∅) as ->.
  { rewrite <- He. destruct r. unfold Ready_EMPTY. cbn. split; congruence. }
  split; [by intros ?%set_choose_L | set_solver].
Qed.

Lemma Ready_satisfies_spec {I} `{MioInterest I} r (i : I) :
  Ready_satisfies r i = true ↔ ∃ k, k ∈ kinds r ∧ k ∈ kinds (Ready_from_interest i).
Proof.
  unfold Ready_satisfies. rewrite negb_true_iff, bool_decide_eq_false.
  change (Z.land _ _) with (ready_0 (Ready_bitand r (Ready_from_interest i))).
  rewrite kinds_nonempty by (apply Ready_wf_bitand_r; auto with arc).
  rewrite kinds_bitand. set_solver.
Qed.

(** ** Properties *)

(** On the values the program builds, the operators of [Ready] are the
    operations of finite sets of readiness kinds: [|], [&] and [-] are union,
    intersection and difference, [contains] is inclusion and [is_empty] is
    emptiness, and two values with the same kinds are equal. *)
Theorem ready_refines_finite_set a b :
  Ready_wf a → Ready_wf b →
  (Ready_wf (Ready_bitor a b) ∧ kinds (Ready_bitor a b) = kinds a ∪ kinds b) ∧
  (Ready_wf (Ready_bitand a b) ∧ kinds (Ready_bitand a b) = kinds a ∩ kinds b) ∧
  (Ready_wf (Ready_sub a b) ∧ kinds (Ready_sub a b) = kinds a ∖ kinds b) ∧
  (Ready_contains a b = true ↔ kinds b ⊆ kinds a) ∧
  (Ready_is_empty a = true ↔ kinds a = ∅) ∧
  (kinds a = kinds b → a = b).
Proof.
  intros Ha Hb. split_and!.
  1, 3, 5: auto with arc.
  - apply kinds_bitor.
  - apply kinds_bitand.
  - apply kinds_sub.
  - by apply Ready_contains_spec.
  - by apply Ready_is_empty_spec.
  - by apply kinds_inj.
Qed.

Lemma ready_refines_finite_set_witness :
  kinds (Ready_sub Ready_ALL Ready_READ_CLOSED) = kinds Ready_ALL ∖ kinds Ready_READ_CLOSED.
Proof.
  apply (ready_refines_finite_set Ready_ALL Ready_READ_CLOSED); by vm_compute.
Defined.

(** An event satisfies an interest exactly when it reports, for one of the
    directions the interest names, that the resource is ready or that this
    direction was closed (on FreeBSD, [aio] and [lio] completions count as
    readable). *)
Theorem ready_event_satisfies_interest {E I} `{MioEvent E, MioInterest I}
    (bsd : bool) (e : E) (i : I) :
  Ready_satisfies (Ready_from_mio bsd e) i = true ↔
  (interest_is_readable i = true ∧
    (event_is_readable e = true ∨ event_is_read_closed e = true ∨
     (bsd = true ∧ (event_is_aio e = true ∨ event_is_lio e = true)))) ∨
  (interest_is_writable i = true ∧
    (event_is_writable e = true ∨ event_is_write_closed e = true)).
Proof.
  rewrite Ready_satisfies_spec.
  setoid_rewrite kinds_from_mio. setoid_rewrite elem_of_from_interest. split.
  - intros ([] & Hk & Hi); tauto.
  - intros [[Hi [?|[?|?]]]|[Hi [?|?]]].
    + exists Readable. auto.
    + exists ReadClosed. auto.
    + exists Readable. auto.
    + exists Writable. auto.
    + exists WriteClosed. auto.
Qed.
