(* ===== verification/PinList.v ===== *)
(** * PinList: the interface of the waiter list

    The list of I/O waiters is a [pin_list::PinList] whose nodes carry a waker
    (the protected data) and an interest (the unprotected data).  The crate is
    not part of the repository: the model uses it through [PinListOps], and the
    theorems through [PinListLaws], its documented behaviour stated on a
    view of the list.  [PinListRef] is a plain list that satisfies the laws. *)

From S2P Require Import Prelude.

(** ** The interface *)

(** A list node, by identity. *)
Definition node : Type := nat.

Record waiter (W I : Type) : Type := mkWaiter {
  waiter_node : node;
  waiter_waker : W;
  waiter_interest : I;
}.
Arguments mkWaiter {W I}.
Arguments waiter_node {W I}.
Arguments waiter_waker {W I}.
Arguments waiter_interest {W I}.

(** What an observer of the list sees: the linked nodes from front to back, and
    the nodes that a cursor removed and that were not reset since. *)
Record pin_view (W I : Type) : Type := mkView {
  linked : list (waiter W I);
  removed : gset node;
}.
Arguments mkView {W I}.
Arguments linked {W I}.
Arguments removed {W I}.

Class PinListOps (L C W I : Type) : Type := {
  (** [PinList::new] *)
  pl_new : L;
  (** [PinList::push_front] *)
  pl_push_front : node → W → I → L → L;
  (** [PinList::cursor_front_mut] and the end of the cursor's borrow *)
  pl_cursor_front_mut : L → C;
  pl_cursor_end : C → L;
  (** [CursorMut::unprotected] and [CursorMut::remove_current(())] *)
  pl_cursor_unprotected : C → option I;
  pl_cursor_remove_current : C → option (W * C);
  (** [Node::initialized_mut] is [Some] *)
  pl_initialized : node → L → bool;
  (** [InitializedNode::protected_mut]: the waker, with the way to replace it *)
  pl_protected : node → L → option W;
  pl_set_protected : node → W → L → L;
  (** [InitializedNode::take_removed] *)
  pl_take_removed : node → L → option L;
}.

Definition view_nodes {W I} (v : pin_view W I) : list node := waiter_node <$> linked v.

Definition view_find {W I} (n : node) (v : pin_view W I) : option (waiter W I) :=
  snd <$> list_find (λ x, waiter_node x = n) (linked v).

Definition set_waker {W I} (n : node) (w : W) (x : waiter W I) : waiter W I :=
  if decide (waiter_node x = n) then mkWaiter n w (waiter_interest x) else x.

Class PinListLaws (L C W I : Type) `{PinListOps L C W I} : Type := {
  pl_view : L → pin_view W I;
  (** The nodes behind the cursor, and the ones from its position on. *)
  pl_cview : C → list (waiter W I) * pin_view W I;
  pl_new_view : pl_view pl_new = mkView [] ∅;
  pl_push_front_view n w i l :
    pl_view (pl_push_front n w i l) =
    mkView (mkWaiter n w i :: linked (pl_view l)) (removed (pl_view l) ∖ {[n]});
  pl_cursor_front_view l : pl_cview (pl_cursor_front_mut l) = ([], pl_view l);
  pl_cursor_end_view c :
    pl_view (pl_cursor_end c) =
    mkView (fst (pl_cview c) ++ linked (snd (pl_cview c))) (removed (snd (pl_cview c)));
  pl_cursor_unprotected_view c :
    pl_cursor_unprotected c = waiter_interest <$> head (linked (snd (pl_cview c)));
  pl_cursor_remove_none c :
    linked (snd (pl_cview c)) = [] → pl_cursor_remove_current c = None;
  pl_cursor_remove_some c x xs :
    linked (snd (pl_cview c)) = x :: xs →
    ∃ c', pl_cursor_remove_current c = Some (waiter_waker x, c') ∧
      pl_cview c' = (fst (pl_cview c),
                     mkView xs ({[waiter_node x]} ∪ removed (snd (pl_cview c))));
  pl_initialized_view n l :
    pl_initialized n l =
    bool_decide (n ∈ view_nodes (pl_view l) ∨ n ∈ removed (pl_view l));
  pl_protected_view n l :
    pl_protected n l = waiter_waker <$> view_find n (pl_view l);
  pl_set_protected_view n w l :
    pl_view (pl_set_protected n w l) =
    mkView (set_waker n w <$> linked (pl_view l)) (removed (pl_view l));
  pl_take_removed_some n l :
    n ∈ removed (pl_view l) → n ∉ view_nodes (pl_view l) →
    ∃ l', pl_take_removed n l = Some l' ∧
      pl_view l' = mkView (linked (pl_view l)) (removed (pl_view l) ∖ {[n]});
}.

(** ** An instance *)

Module PinListRef.
Section ref.
Context {W I : Type}.

Abbreviation rlist := (pin_view W I).
Abbreviation rcursor := (list (waiter W I) * pin_view W I)%type.

Definition remove_current (c : rcursor) : option (W * rcursor) :=
  match linked c.2 with
  | [] => None
  | x :: xs => Some (waiter_waker x,
                     (c.1, mkView xs ({[waiter_node x]} ∪ removed c.2)))
  end.

#[export] Instance ref_ops : PinListOps rlist rcursor W I := {|
  pl_new := mkView [] ∅;
  pl_push_front n w i l := mkView (mkWaiter n w i :: linked l) (removed l ∖ {[n]});
  pl_cursor_front_mut l := ([], l);
  pl_cursor_end c := mkView (c.1 ++ linked c.2) (removed c.2);
  pl_cursor_unprotected c := waiter_interest <$> head (linked c.2);
  pl_cursor_remove_current := remove_current;
  pl_initialized n l := bool_decide (n ∈ view_nodes l ∨ n ∈ removed l);
  pl_protected n l := waiter_waker <$> view_find n l;
  pl_set_protected n w l := mkView (set_waker n w <$> linked l) (removed l);
  pl_take_removed n l :=
    if decide (n ∈ removed l) then Some (mkView (linked l) (removed l ∖ {[n]})) else None;
|}.

#[export] Program Instance ref_laws : PinListLaws rlist rcursor W I := {|
  pl_view l := l;
  pl_cview c := c;
|}.
Solve Obligations with (try done).
Next Obligation. intros c H; cbn in *. unfold remove_current. by rewrite H. Qed.
Next Obligation.
  intros c x xs H; cbn in *. unfold remove_current. rewrite H. eauto.
Qed.
Next Obligation.
  intros n l H1 H2; cbn in *. destruct (decide _); [eauto|done].
Qed.
End ref.
End PinListRef.

(** ** Lemmas *)

Lemma view_find_none {W I} n (v : pin_view W I) :
  n ∉ view_nodes v → view_find n v = None.
Proof.
  intros Hn. unfold view_find. rewrite (proj2 (list_find_None _ _)); [done|].
  apply Forall_forall. intros x Hx Heq. apply Hn.
  apply list_elem_of_fmap. by exists x.
Qed.

Lemma view_find_head {W I} (x : waiter W I) xs r :
  view_find (waiter_node x) (mkView (x :: xs) r) = Some x.
Proof. unfold view_find. cbn. by rewrite decide_True. Qed.
