(* ===== verification/ScheduledIo.v ===== *)
(** * ScheduledIo: the readiness word and the waiters of an I/O resource
      (src/src/io/mod.rs)

    The readiness word packs the readiness flags, the driver's tick and the
    slot's generation.  It is an atomic cell that other threads change between
    the steps of an operation: [set_readiness] takes the interference [env]
    its compare-exchange loop meets, and the polling operations take the values
    their loads observe. *)

From S2P Require Import Prelude Bits Ready PinList.

Local Open Scope Z_scope.

(** ** The readiness word *)

Definition READINESS : Pack := const_eval (Pack_least_significant 16) eq_refl.
Definition TICK : Pack := const_eval (Pack_then READINESS 8) eq_refl.
Definition GENERATION : Pack := const_eval (Pack_then TICK 7) eq_refl.
Definition SHUTDOWN : Pack := const_eval (Pack_then GENERATION 1) eq_refl.

Inductive Tick : Type :=
| Tick_Set (t : Z)
| Tick_Clear (t : Z).

Record ReadyEvent : Type := mkReadyEvent {
  ev_tick : Z;
  ev_ready : Ready;
  ev_is_shutdown : bool;
}.

#[export] Instance ReadyEvent_eq_dec : EqDecision ReadyEvent.
Proof. solve_decision. Defined.

Inductive Direction : Type := Read | Write_.

Definition Direction_mask (self : Direction) : Ready :=
  match self with
  | Read => Ready_bitor Ready_READABLE Ready_READ_CLOSED
  | Write_ => Ready_bitor Ready_WRITABLE Ready_WRITE_CLOSED
  end.

(** The free function [mask]: [match int { READABLE => .., WRITABLE => .., _ => .. }]. *)
Definition interest_mask {I} `{MioInterest I} (int : I) : Ready :=
  if decide (int = INTEREST_READABLE) then Ready_bitor Ready_READABLE Ready_READ_CLOSED
  else if decide (int = INTEREST_WRITABLE) then Ready_bitor Ready_WRITABLE Ready_WRITE_CLOSED
  else Ready_EMPTY.

(** One turn of the loop of [set_readiness], up to its compare-exchange: the
    word to store, or [None] for the early return. *)
Definition set_readiness_attempt (tick : Tick) (f : Ready → Ready) (current : Z)
    : outcome (option Z) :=
  current_generation ← Pack_unpack GENERATION current;
  let current_readiness := Ready_from_usize current in
  let new := f current_readiness in
  packed ← match tick with
           | Tick_Set t => Some <$> Pack_pack TICK t (Ready_as_usize new)
           | Tick_Clear t =>
               ct ← Pack_unpack TICK current;
               if bool_decide (as_u8 ct ≠ t) then mret None
               else Some <$> Pack_pack TICK t (Ready_as_usize new)
           end;
  match packed with
  | None => mret None
  | Some packed => Some <$> Pack_pack GENERATION current_generation packed
  end.

(** The compare-exchange: [env n] is what other threads do to the word between
    the [n]-th load and the exchange that follows it. *)
Definition set_readiness_turn (env : nat → Z → Z) (tick : Tick) (f : Ready → Ready)
    (st : nat * Z * Z) : outcome (ctl (nat * Z * Z) Z) :=
  let '(n, current, memory) := st in
  let memory := env n memory in
  next ← set_readiness_attempt tick f current;
  match next with
  | None => mret (Break memory)
  | Some next =>
      if bool_decide (memory = current) then mret (Break next)
      else mret (Continue (S n, memory, memory))
  end.

Definition set_readiness_word (fuel : nat) (env : nat → Z → Z) (tick : Tick)
    (f : Ready → Ready) (memory : Z) : outcome Z :=
  loop fuel (set_readiness_turn env tick f) (O, memory, memory).

(** No other thread writes the word. *)
Definition quiet : nat → Z → Z := λ _ memory, memory.

(** ** The resource *)

Section scheduled_io.
Context {L C W I : Type} `{PinListOps L C W I, MioInterest I}.

Record Waiters : Type := mkWaiters {
  wt_list : L;
  wt_reader : option W;
  wt_writer : option W;
}.

Record ScheduledIo : Type := mkScheduledIo {
  sio_readiness : Z;
  sio_waiters : Waiters;
}.

Definition with_readiness (r : Z) (s : ScheduledIo) : ScheduledIo :=
  mkScheduledIo r (sio_waiters s).
Definition with_waiters (w : Waiters) (s : ScheduledIo) : ScheduledIo :=
  mkScheduledIo (sio_readiness s) w.
Definition with_list (l : L) (w : Waiters) : Waiters :=
  mkWaiters l (wt_reader w) (wt_writer w).

Definition ScheduledIo_default : ScheduledIo :=
  mkScheduledIo 0 (mkWaiters pl_new None None).

(** [<ScheduledIo as Clear>::clear]. *)
Definition ScheduledIo_clear (self : ScheduledIo) : outcome ScheduledIo :=
  let state := sio_readiness self in
  generation ← Pack_unpack GENERATION state;
  g1 ← checked_add generation 1;
  next ← Pack_pack_lossy GENERATION g1 0;
  mret (with_readiness next self).

Definition ScheduledIo_generation (self : ScheduledIo) : outcome Z :=
  Pack_unpack GENERATION (sio_readiness self).

Definition ScheduledIo_set_readiness (fuel : nat) (env : nat → Z → Z)
    (self : ScheduledIo) (tick : Tick) (f : Ready → Ready) : outcome ScheduledIo :=
  r ← set_readiness_word fuel env tick f (sio_readiness self);
  mret (with_readiness r self).

Definition ScheduledIo_clear_readiness (fuel : nat) (env : nat → Z → Z)
    (self : ScheduledIo) (event : ReadyEvent) : outcome ScheduledIo :=
  let mask_no_closed :=
    Ready_sub (Ready_sub (ev_ready event) Ready_READ_CLOSED) Ready_WRITE_CLOSED in
  ScheduledIo_set_readiness fuel env self (Tick_Clear (ev_tick event))
    (λ curr, Ready_sub curr mask_no_closed).

Definition ScheduledIo_ready_event (self : ScheduledIo) (interest : I) : outcome ReadyEvent :=
  let curr := sio_readiness self in
  t ← Pack_unpack TICK curr;
  r ← Pack_unpack READINESS curr;
  sh ← Pack_unpack SHUTDOWN curr;
  mret (mkReadyEvent (as_u8 t) (Ready_bitand (interest_mask interest) (Ready_from_usize r))
          (bool_decide (sh ≠ 0))).

(** *** [poll_readiness] *)

(** [match slot { Some(existing) if existing.will_wake(cx.waker()) => {},
     _ => *slot = Some(cx.waker().clone()) }] *)
Definition store_waker (will_wake : W → W → bool) (cx : W) (slot : option W) : option W :=
  match slot with
  | Some existing => if will_wake existing cx then slot else Some cx
  | None => Some cx
  end.

Definition slot_of (d : Direction) (w : Waiters) : option W :=
  match d with Read => wt_reader w | Write_ => wt_writer w end.

Definition with_slot (d : Direction) (o : option W) (w : Waiters) : Waiters :=
  match d with
  | Read => mkWaiters (wt_list w) o (wt_writer w)
  | Write_ => mkWaiters (wt_list w) (wt_reader w) o
  end.

(** [load1] and [load2] are the words its two loads observe. *)
Definition ScheduledIo_poll_readiness (will_wake : W → W → bool) (load1 load2 : Z)
    (self : ScheduledIo) (cx : W) (direction : Direction)
    : outcome (poll ReadyEvent * ScheduledIo) :=
  let curr := load1 in
  r ← Pack_unpack READINESS curr;
  let ready := Ready_bitand (Direction_mask direction) (Ready_from_usize r) in
  sh ← Pack_unpack SHUTDOWN curr;
  let is_shutdown := bool_decide (sh ≠ 0) in
  if Ready_is_empty ready && negb is_shutdown then
    let waiters := sio_waiters self in
    let slot := store_waker will_wake cx (slot_of direction waiters) in
    let self := with_waiters (with_slot direction slot waiters) self in
    let curr := load2 in
    r ← Pack_unpack READINESS curr;
    let ready := Ready_bitand (Direction_mask direction) (Ready_from_usize r) in
    sh ← Pack_unpack SHUTDOWN curr;
    let is_shutdown := bool_decide (sh ≠ 0) in
    t ← Pack_unpack TICK curr;
    if is_shutdown then
      mret (Ready_ (mkReadyEvent (as_u8 t) (Direction_mask direction) is_shutdown), self)
    else if Ready_is_empty ready then mret (Pending, self)
    else mret (Ready_ (mkReadyEvent (as_u8 t) ready is_shutdown), self)
  else
    t ← Pack_unpack TICK curr;
    mret (Ready_ (mkReadyEvent (as_u8 t) ready is_shutdown), self).

(** *** [wake] *)

Definition WAKERS_CAP : nat := 32.

(** [ArrayVec::push], which panics when the array is full. *)
Definition wakers_push (w : W) (wakers : list W) : outcome (list W) :=
  if bool_decide (length wakers < WAKERS_CAP)%nat then Done (wakers ++ [w]) else Panic.

(** [if let Some(waker) = slot.take() { wakers.push(waker) }] *)
Definition take_slot (slot : option W) (wakers : list W) : outcome (list W) :=
  match slot with
  | Some waker => wakers_push waker wakers
  | None => mret wakers
  end.

Inductive wake_exit : Type := WakersFull | BreakOuter.

(** The body of [while !wakers.is_full()], and how that loop is left. *)
Definition wake_turn (ready : Ready) (st : C * list W)
    : outcome (ctl (C * list W) (wake_exit * C * list W)) :=
  let '(cursor, wakers) := st in
  if bool_decide (length wakers = WAKERS_CAP) then mret (Break (WakersFull, cursor, wakers))
  else
    match Ready_satisfies ready <$> pl_cursor_unprotected cursor with
    | Some false => mret (Continue (cursor, wakers))
    | Some true =>
        '(waker, cursor) ← unwrap (pl_cursor_remove_current cursor);
        wakers ← wakers_push waker wakers;
        mret (Continue (cursor, wakers))
    | None => mret (Break (BreakOuter, cursor, wakers))
    end.

(** The body of ['outer: loop]: the state is the locked list, the array of
    wakers and the wakers that were woken so far, in order. *)
Definition wake_outer (fuel : nat) (ready : Ready) (st : L * list W * list W)
    : outcome (ctl (L * list W * list W) (L * list W * list W)) :=
  let '(l, wakers, woken) := st in
  '(exit, cursor, wakers) ← loop fuel (wake_turn ready) (pl_cursor_front_mut l, wakers);
  let l := pl_cursor_end cursor in
  match exit with
  | BreakOuter => mret (Break (l, wakers, woken))
  | WakersFull => mret (Continue (l, [], woken ++ wakers))
  end.

(** The resource afterwards, and the wakers in the order they are woken. *)
Definition ScheduledIo_wake (fuel : nat) (self : ScheduledIo) (ready : Ready)
    : outcome (ScheduledIo * list W) :=
  let w := sio_waiters self in
  let readable := Ready_is_readable ready in
  let writable := Ready_is_writable ready in
  wakers ← if readable then take_slot (wt_reader w) [] else mret [];
  wakers ← if writable then take_slot (wt_writer w) wakers else mret wakers;
  '(l, wakers, woken) ← loop fuel (wake_outer fuel ready) (wt_list w, wakers, []);
  let w := mkWaiters l (if readable then None else wt_reader w)
                       (if writable then None else wt_writer w) in
  mret (with_waiters w self, woken ++ wakers).

(** *** The [Readiness] future *)

Inductive State : Type := State_Init | State_Waiting | State_Done.

Record Readiness : Type := mkReadiness {
  rd_state : State;
  rd_interest : I;
  rd_waiter : node;
}.

Definition with_state (st : State) (r : Readiness) : Readiness :=
  mkReadiness st (rd_interest r) (rd_waiter r).

(** The body of the [loop] of [poll]; [load n] is the word that the [n]-th load
    of the poll observes. *)
Definition Readiness_turn (load : nat → Z) (cx : W) (st : nat * Readiness * ScheduledIo)
    : outcome (ctl (nat * Readiness * ScheduledIo)
                   (poll ReadyEvent * Readiness * ScheduledIo)) :=
  let '(n, this, scheduled_io) := st in
  let interest := rd_interest this in
  match rd_state this with
  | State_Init =>
      let curr := load n in
      r ← Pack_unpack READINESS curr;
      sh ← Pack_unpack SHUTDOWN curr;
      let is_shutdown := bool_decide (sh ≠ 0) in
      let ready := Ready_intersection (Ready_from_usize r) interest in
      t ← Pack_unpack TICK curr;
      if negb (Ready_is_empty ready) || is_shutdown then
        mret (Break (Ready_ (mkReadyEvent (as_u8 t) ready is_shutdown),
                     with_state State_Done this, scheduled_io))
      else
        let curr := load (S n) in
        r ← Pack_unpack READINESS curr;
        sh ← Pack_unpack SHUTDOWN curr;
        let is_shutdown := bool_decide (sh ≠ 0) in
        let ready := if is_shutdown then Ready_ALL else Ready_from_usize r in
        let ready := Ready_intersection ready interest in
        t ← Pack_unpack TICK curr;
        if negb (Ready_is_empty ready) || is_shutdown then
          mret (Break (Ready_ (mkReadyEvent (as_u8 t) ready is_shutdown),
                       with_state State_Done this, scheduled_io))
        else
          let w := sio_waiters scheduled_io in
          let l := pl_push_front (rd_waiter this) cx interest (wt_list w) in
          mret (Continue (S (S n), with_state State_Waiting this,
                          with_waiters (with_list l w) scheduled_io))
  | State_Waiting =>
      let w := sio_waiters scheduled_io in
      if pl_initialized (rd_waiter this) (wt_list w) then
        match pl_protected (rd_waiter this) (wt_list w) with
        | Some _ =>
            let l := pl_set_protected (rd_waiter this) cx (wt_list w) in
            mret (Break (Pending, this, with_waiters (with_list l w) scheduled_io))
        | None =>
            l ← unwrap (pl_take_removed (rd_waiter this) (wt_list w));
            mret (Continue (n, with_state State_Done this,
                            with_waiters (with_list l w) scheduled_io))
        end
      else mret (Continue (n, with_state State_Done this, scheduled_io))
  | State_Done =>
      let curr := load n in
      sh ← Pack_unpack SHUTDOWN curr;
      t ← Pack_unpack TICK curr;
      r ← Pack_unpack READINESS curr;
      let ready := Ready_intersection (Ready_from_usize r) interest in
      mret (Break (Ready_ (mkReadyEvent (as_u8 t) ready (bool_decide (sh ≠ 0))),
                   this, scheduled_io))
  end.

Definition Readiness_poll (fuel : nat) (load : nat → Z) (cx : W) (this : Readiness)
    (scheduled_io : ScheduledIo) : outcome (poll ReadyEvent * Readiness * ScheduledIo) :=
  loop fuel (Readiness_turn load cx) (O, this, scheduled_io).
End scheduled_io.

Arguments Waiters : clear implicits.
Arguments ScheduledIo : clear implicits.
Arguments Readiness : clear implicits.

(** ** Specification of the readiness word *)

(** The word with the given fields, and its shutdown bit clear. *)
Definition word_of (r : Ready) (tick generation : Z) : Z :=
  field_set 7 24 generation (field_set 8 16 tick (Ready_as_usize r)).

Definition word_ready (m : Z) : Ready := Ready_from_usize m.
Definition word_tick (m : Z) : Z := field_get 8 16 m.
Definition word_generation (m : Z) : Z := field_get 7 24 m.
Definition word_shutdown (m : Z) : Z := field_get 1 31 m.

(** The words the program stores: only the four flags in the readiness field,
    and no shutdown. *)
Definition word_ok (m : Z) : Prop :=
  usize_ok m ∧ field_get 16 0 m < 16 ∧ word_shutdown m = 0.

(** The atomic effect of [set_readiness] on the word. *)
Definition word_update (tick : Tick) (f : Ready → Ready) (m : Z) : Z :=
  match tick with
  | Tick_Set t => word_of (f (word_ready m)) t (word_generation m)
  | Tick_Clear t =>
      if bool_decide (word_tick m = t)
      then word_of (f (word_ready m)) t (word_generation m) else m
  end.

Definition tick_value (t : Tick) : Z := match t with Tick_Set t | Tick_Clear t => t end.

(** An event that is older than the word. *)
Definition tick_stale (t : Tick) (m : Z) : bool :=
  match t with Tick_Set _ => false | Tick_Clear t => bool_decide (word_tick m ≠ t) end.

(** [f] maps flag sets to flag sets, as the program's two closures do. *)
Definition flag_update (f : Ready → Ready) : Prop := ∀ r, Ready_wf r → Ready_wf (f r).

(** ** Lemmas on the word *)

Lemma READINESS_wf : Pack_wf READINESS 16 0.
Proof. by split; vm_compute. Qed.
Lemma TICK_wf : Pack_wf TICK 8 16.
Proof. by split; vm_compute. Qed.
Lemma GENERATION_wf : Pack_wf GENERATION 7 24.
Proof. by split; vm_compute. Qed.
Lemma SHUTDOWN_wf : Pack_wf SHUTDOWN 1 31.
Proof. by split; vm_compute. Qed.

Lemma unpack_READINESS m : Pack_unpack READINESS m = Done (field_get 16 0 m).
Proof. apply unpack_spec, READINESS_wf. Qed.
Lemma unpack_TICK m : Pack_unpack TICK m = Done (word_tick m).
Proof. apply unpack_spec, TICK_wf. Qed.
Lemma unpack_GENERATION m : Pack_unpack GENERATION m = Done (word_generation m).
Proof. apply unpack_spec, GENERATION_wf. Qed.
Lemma unpack_SHUTDOWN m : Pack_unpack SHUTDOWN m = Done (word_shutdown m).
Proof. apply unpack_spec, SHUTDOWN_wf. Qed.

Create Rewrite HintDb arc_word.
#[export] Hint Rewrite unpack_READINESS unpack_TICK unpack_GENERATION unpack_SHUTDOWN : arc_word.

Lemma word_tick_range m : 0 ≤ word_tick m < 256.
Proof. by apply (field_get_range 8). Qed.

Lemma word_generation_range m : 0 ≤ word_generation m < 128.
Proof. by apply (field_get_range 7). Qed.

Lemma as_u8_tick m : as_u8 (word_tick m) = word_tick m.
Proof. apply Z.mod_small, word_tick_range. Qed.

#[export] Hint Rewrite as_u8_tick : arc_word.

Lemma Ready_usize_ok r : Ready_wf r → usize_ok (Ready_as_usize r).
Proof. unfold Ready_wf, usize_ok, Ready_as_usize, usize_bound. intros. split; [lia|].
  apply Z.lt_trans with 16; [lia|done].
Qed.

Lemma field_get_of_small w s x :
  0 ≤ w → 0 ≤ s → 0 ≤ x < 2 ^ s → field_get w s x = 0.
Proof.
  intros Hw Hs Hx. unfold field_get. rewrite Z.shiftr_div_pow2 by done.
  by rewrite Z.div_small.
Qed.

(** A bounded number is a [usize]. *)
Ltac usize :=
  unfold usize_ok, usize_bound, word_width; split; [lia|];
  first [ lia | eapply Z.lt_trans; [eassumption|by vm_compute]
        | eapply Z.le_lt_trans; [|by vm_compute]; lia ].

Section word.
Context (r : Ready) (t g : Z) (Hr : Ready_wf r) (Ht : 0 ≤ t < 256) (Hg : 0 ≤ g < 128).

Lemma word_of_usize : usize_ok (word_of r t g).
Proof using All.
  repeat apply field_set_range; try done. by apply Ready_usize_ok.
Qed.

Lemma word_of_flags : field_get 16 0 (word_of r t g) = Ready_as_usize r.
Proof using All.
  unfold word_of. rewrite !field_get_set_other by (done || lia).
  unfold field_get. rewrite Z.shiftr_0_r. apply field_get_small; [done|].
  unfold Ready_wf, Ready_as_usize in *. lia.
Qed.

Lemma word_of_tick : word_tick (word_of r t g) = t.
Proof using All.
  unfold word_tick, word_of. rewrite field_get_set_other by (done || lia).
  by apply field_get_set_same.
Qed.

Lemma word_of_generation : word_generation (word_of r t g) = g.
Proof using All. by apply field_get_set_same. Qed.

Lemma word_of_shutdown : word_shutdown (word_of r t g) = 0.
Proof using All.
  unfold word_shutdown, word_of. rewrite !field_get_set_other by (done || lia).
  apply field_get_of_small; [done..|]. unfold Ready_wf, Ready_as_usize in *. lia.
Qed.
End word.

Lemma from_usize_low m : Ready_from_usize (field_get 16 0 m) = Ready_from_usize m.
Proof.
  unfold Ready_from_usize, field_get. f_equal. rewrite Z.shiftr_0_r, <- Z.land_assoc. done.
Qed.

#[export] Hint Rewrite from_usize_low : arc_word.

Lemma from_usize_id r : Ready_wf r → Ready_from_usize (Ready_as_usize r) = r.
Proof.
  intros Hr. destruct r as [x]. unfold Ready_from_usize, Ready_as_usize. cbn [ready_0].
  change (ready_0 Ready_ALL) with (Z.ones 4). f_equal. by apply field_get_small.
Qed.

Lemma word_of_ready r t g :
  Ready_wf r → 0 ≤ t < 256 → 0 ≤ g < 128 → word_ready (word_of r t g) = r.
Proof.
  intros. unfold word_ready. rewrite <- from_usize_low, word_of_flags by done.
  by apply from_usize_id.
Qed.

Lemma word_of_ok r t g :
  Ready_wf r → 0 ≤ t < 256 → 0 ≤ g < 128 → word_ok (word_of r t g).
Proof.
  intros Hr Ht Hg. split_and!; [by apply word_of_usize| |by apply word_of_shutdown].
  rewrite word_of_flags by done. apply Hr.
Qed.

#[export] Hint Resolve word_of_ok word_tick_range word_generation_range : arc.

Lemma word_ok_0 : word_ok 0.
Proof. by split_and!. Qed.

Lemma pack_TICK_GENERATION r t g :
  Ready_wf r → 0 ≤ t < 256 → 0 ≤ g < 128 →
  (x ← Pack_pack TICK t (Ready_as_usize r); Pack_pack GENERATION g x) = Done (word_of r t g).
Proof.
  intros Hr Ht Hg. pose proof (Ready_usize_ok r Hr).
  rewrite (pack_spec TICK 8 16), bool_decide_true by (apply TICK_wf || done || lia || usize).
  cbn. rewrite (pack_spec GENERATION 7 24), bool_decide_true
    by (apply GENERATION_wf || done || lia || usize || by apply field_set_range).
  done.
Qed.

Lemma set_readiness_attempt_spec tick f m :
  flag_update f → 0 ≤ tick_value tick < 256 →
  set_readiness_attempt tick f m =
  Done match tick with
       | Tick_Clear t => if bool_decide (word_tick m = t) then Some (word_update tick f m) else None
       | Tick_Set _ => Some (word_update tick f m)
       end.
Proof.
  intros Hf Ht. unfold set_readiness_attempt. autorewrite with arc_word. cbn.
  pose proof (pack_TICK_GENERATION (f (Ready_from_usize m)) (tick_value tick)
    (word_generation m) (Hf _ (Ready_wf_from_usize m)) Ht (word_generation_range m)) as Hp.
  destruct tick as [t|t]; cbn in *.
  - destruct (Pack_pack TICK t _) as [x| |]; cbn in *; [|done..]. by rewrite Hp.
  - autorewrite with arc_word. cbn. unfold word_update.
    destruct (decide (word_tick m = t)) as [Heq|Hne].
    + rewrite bool_decide_false, bool_decide_true by auto.
      destruct (Pack_pack TICK t _) as [x| |]; cbn in *; [|done..]. by rewrite Hp.
    + by rewrite bool_decide_true, bool_decide_false.
Qed.

(** *** The compare-exchange loop *)

(** The word as the [n]-th exchange finds it, and as the load before it saw it. *)
Fixpoint cell (env : nat → Z → Z) (m : Z) (n : nat) : Z :=
  match n with O => env O m | S n' => env n (cell env m n') end.

Definition loaded (env : nat → Z → Z) (m : Z) (n : nat) : Z :=
  match n with O => m | S n => cell env m n end.

Lemma cell_loaded env m n : env n (loaded env m n) = cell env m n.
Proof. by destruct n. Qed.

(** How the loop ends at turn [n] with the word [r] in the cell: it stored the
    update of the word it found, or it saw a tick that is not its event's. *)
Definition turn_result (env : nat → Z → Z) (tick : Tick) (f : Ready → Ready) (m : Z)
    (n : nat) (r : Z) : Prop :=
  (cell env m n = loaded env m n ∧ r = word_update tick f (cell env m n)) ∨
  (r = cell env m n ∧ ∃ t, tick = Tick_Clear t ∧ word_tick (loaded env m n) ≠ t).

Lemma set_readiness_turn_cases env tick f m n :
  flag_update f → 0 ≤ tick_value tick < 256 →
  let st := (n, loaded env m n, loaded env m n) in
  (∃ r, set_readiness_turn env tick f st = Done (Break r) ∧ turn_result env tick f m n r) ∨
  (cell env m n ≠ loaded env m n ∧
   set_readiness_turn env tick f st =
     Done (Continue (S n, loaded env m (S n), loaded env m (S n)))).
Proof.
  intros Hf Ht. cbn. unfold set_readiness_turn, turn_result.
  rewrite set_readiness_attempt_spec, cell_loaded by done. cbn.
  destruct tick as [t|t]; [|case_bool_decide as Hs].
  - case_bool_decide as Heq; [left|right]; [|done].
    eexists. split; [done|]. left. split; [done|]. by rewrite Heq.
  - case_bool_decide as Heq; [left|right]; [|done].
    eexists. split; [done|]. left. split; [done|]. by rewrite Heq.
  - left. eexists. split; [done|]. right. eauto.
Qed.

Lemma set_readiness_loop env tick f m N k :
  flag_update f → 0 ≤ tick_value tick < 256 → cell env m N = loaded env m N → (k ≤ N)%nat →
  ∃ n r, (k ≤ n ≤ N)%nat ∧ turn_result env tick f m n r ∧
    ∀ fuel, (n - k < fuel)%nat →
      loop fuel (set_readiness_turn env tick f) (k, loaded env m k, loaded env m k) = Done r.
Proof.
  intros Hf Ht HN Hk. remember (N - k)%nat as d eqn:Ed. revert k Ed Hk.
  induction d as [|d IH]; intros k Ed Hk;
    destruct (set_readiness_turn_cases env tick f m k Hf Ht) as [(r & Hb & Hr)|[Hne Hc]].
  - exists k, r. split_and!; [lia..|done|]. intros fuel ?. apply loop_break; [done|lia].
  - replace k with N in Hne by lia. done.
  - exists k, r. split_and!; [lia..|done|]. intros fuel ?. apply loop_break; [done|lia].
  - destruct (IH (S k)) as (n & r & Hn & Hr & Hf'); [lia..|].
    exists n, r. split_and!; [lia..|done|]. intros [|fuel] ?; [lia|].
    rewrite (loop_continue _ _ _ _ Hc). apply Hf'. lia.
Qed.

Lemma set_readiness_quiet fuel tick f m :
  flag_update f → 0 ≤ tick_value tick < 256 → (0 < fuel)%nat →
  set_readiness_word fuel quiet tick f m = Done (word_update tick f m).
Proof.
  intros Hf Ht Hfuel.
  destruct (set_readiness_loop quiet tick f m 0 0 Hf Ht eq_refl (le_n _))
    as (n & r & Hn & Hr & Hl). assert (n = 0%nat) as -> by lia.
  unfold set_readiness_word. etrans; [apply Hl; lia|]. f_equal.
  destruct Hr as [[_ ->]|[-> (t & -> & Hne)]]; [done|].
  cbn in *. by rewrite bool_decide_false.
Qed.

Lemma word_update_ok tick f m :
  flag_update f → 0 ≤ tick_value tick < 256 → word_ok m → word_ok (word_update tick f m).
Proof.
  intros Hf Ht Hm. destruct tick as [t|t]; cbn; [|case_bool_decide; [|done]];
    apply word_of_ok; auto using Ready_wf_from_usize with arc.
Qed.

(** The fields of a word that was updated. *)
Lemma word_update_fields tick f m :
  flag_update f → 0 ≤ tick_value tick < 256 →
  if tick_stale tick m then word_update tick f m = m
  else
    word_ready (word_update tick f m) = f (word_ready m) ∧
    word_tick (word_update tick f m) = tick_value tick ∧
    word_generation (word_update tick f m) = word_generation m ∧
    word_shutdown (word_update tick f m) = 0.
Proof.
  intros Hf Ht. pose proof (word_generation_range m) as Hg.
  pose proof (Hf _ (Ready_wf_from_usize m)) as Hr.
  assert (word_update tick f m =
    if tick_stale tick m then m
    else word_of (f (word_ready m)) (tick_value tick) (word_generation m)) as ->.
  { destruct tick as [t|t]; [done|]. cbn.
    destruct (decide (word_tick m = t)) as [He|He].
    - by rewrite bool_decide_true, bool_decide_false by auto.
    - by rewrite bool_decide_false, bool_decide_true. }
  destruct (tick_stale tick m); [done|]. split_and!.
  - by apply word_of_ready.
  - by apply word_of_tick.
  - by apply word_of_generation.
  - by apply word_of_shutdown.
Qed.

Lemma flag_update_or ready : Ready_wf ready → flag_update (λ curr, Ready_bitor curr ready).
Proof. intros ? ? ?. auto with arc. Qed.

Lemma flag_update_sub mask : flag_update (λ curr, Ready_sub curr mask).
Proof. intros ? ?. auto with arc. Qed.

#[export] Hint Resolve flag_update_or flag_update_sub : arc.

(** *** Slot reuse *)

Lemma clear_spec {L W} (s : ScheduledIo L W) :
  ScheduledIo_clear s =
  Done (with_readiness (word_of Ready_EMPTY 0 ((word_generation (sio_readiness s) + 1) mod 128)) s).
Proof.
  unfold ScheduledIo_clear. autorewrite with arc_word. cbn.
  pose proof (word_generation_range (sio_readiness s)) as Hg.
  unfold checked_add. rewrite bool_decide_true.
  2: { eapply Z.le_lt_trans with 128; [lia|done]. }
  cbn. rewrite (pack_lossy_spec GENERATION 7 24) by (apply GENERATION_wf || done || usize).
  done.
Qed.

(** ** The operations that write the word *)

Inductive word_step : Z → Z → Prop :=
| step_event (t : Z) (ready : Ready) m m' :
    0 ≤ t < 256 → Ready_wf ready →
    set_readiness_word 1 quiet (Tick_Set t) (λ curr, Ready_bitor curr ready) m = Done m' →
    word_step m m'
| step_clear_readiness (ev : ReadyEvent) m m' :
    0 ≤ ev_tick ev < 256 →
    set_readiness_word 1 quiet (Tick_Clear (ev_tick ev))
      (λ curr, Ready_sub curr
        (Ready_sub (Ready_sub (ev_ready ev) Ready_READ_CLOSED) Ready_WRITE_CLOSED)) m = Done m' →
    word_step m m'
| step_reuse {L W} (s s' : ScheduledIo L W) :
    ScheduledIo_clear s = Done s' → word_step (sio_readiness s) (sio_readiness s').

Lemma word_step_ok m m' : word_step m m' → word_ok m → word_ok m'.
Proof.
  intros Hstep Hm. destruct Hstep as [t ready m m' Ht Hr Hs|ev m m' Ht Hs|L W s s' Hs].
  - rewrite set_readiness_quiet in Hs by (auto with arc || lia). apply Done_inj in Hs as <-.
    apply word_update_ok; auto with arc.
  - rewrite set_readiness_quiet in Hs by (auto with arc || lia). apply Done_inj in Hs as <-.
    apply word_update_ok; auto with arc.
  - rewrite clear_spec in Hs. simplify_eq. cbn. apply word_of_ok; [done..|].
    by apply Z.mod_pos_bound.
Qed.

Lemma word_steps_ok m m' : rtc word_step m m' → word_ok m → word_ok m'.
Proof. induction 1; eauto using word_step_ok. Qed.

(** ** Lemmas on [wake] *)

Section wake.
Context {L C W I : Type} `{PinListOps L C W I, !PinListLaws L C W I, MioInterest I}.
Context (ready : Ready).

Definition satisfied (x : waiter W I) : Prop := Ready_satisfies ready (waiter_interest x) = true.

Abbreviation nodes_of xs := (list_to_set (waiter_node <$> xs) : gset node).
Abbreviation rest c := (snd (pl_cview c)).

Lemma wakers_push_ok (w : W) wakers :
  (length wakers < WAKERS_CAP)%nat → wakers_push w wakers = Done (wakers ++ [w]).
Proof. intros. unfold wakers_push. by rewrite bool_decide_true. Qed.

Lemma wake_turn_full c wakers :
  length wakers = WAKERS_CAP →
  wake_turn ready (c, wakers) = Done (Break (WakersFull, c, wakers)).
Proof. intros. unfold wake_turn. by rewrite bool_decide_true. Qed.

Lemma wake_turn_end c wakers :
  (length wakers < WAKERS_CAP)%nat → linked (rest c) = [] →
  wake_turn ready (c, wakers) = Done (Break (BreakOuter, c, wakers)).
Proof.
  intros Hlt Hl. unfold wake_turn. rewrite bool_decide_false by lia.
  by rewrite pl_cursor_unprotected_view, Hl.
Qed.

Lemma wake_turn_unsatisfied c wakers x xs :
  (length wakers < WAKERS_CAP)%nat → linked (rest c) = x :: xs → ¬ satisfied x →
  wake_turn ready (c, wakers) = Done (Continue (c, wakers)).
Proof.
  intros Hlt Hl Hs. unfold wake_turn. rewrite bool_decide_false by lia.
  rewrite pl_cursor_unprotected_view, Hl. cbn. unfold satisfied in Hs.
  by destruct (Ready_satisfies ready _).
Qed.

Lemma wake_turn_satisfied c wakers x xs :
  (length wakers < WAKERS_CAP)%nat → linked (rest c) = x :: xs → satisfied x →
  ∃ c', wake_turn ready (c, wakers) = Done (Continue (c', wakers ++ [waiter_waker x])) ∧
    pl_cview c' = (fst (pl_cview c), mkView xs ({[waiter_node x]} ∪ removed (rest c))).
Proof.
  intros Hlt Hl Hs. destruct (pl_cursor_remove_some c x xs Hl) as (c' & Hr & Hc').
  exists c'. split; [|done]. unfold wake_turn. rewrite bool_decide_false by lia.
  rewrite pl_cursor_unprotected_view, Hl. cbn. rewrite Hs, Hr. cbn.
  by rewrite wakers_push_ok.
Qed.

(** A run of satisfied waiters that fits into the array. *)
Lemma wake_turns ys : ∀ c wakers zs,
  linked (rest c) = ys ++ zs → Forall satisfied ys →
  (length wakers + length ys ≤ WAKERS_CAP)%nat →
  (∀ fuel, (fuel ≤ length ys)%nat → loop fuel (wake_turn ready) (c, wakers) = OutOfFuel) ∧
  ∃ c', pl_cview c' = (fst (pl_cview c), mkView zs (nodes_of ys ∪ removed (rest c))) ∧
    ∀ fuel, loop (length ys + fuel) (wake_turn ready) (c, wakers) =
            loop fuel (wake_turn ready) (c', wakers ++ (waiter_waker <$> ys)).
Proof.
  induction ys as [|y ys IH]; intros c wakers zs Hl Hs Hlen; cbn [length] in *.
  - split.
    + intros fuel ?. by replace fuel with O by lia.
    + exists c. split.
      * destruct (pl_cview c) as [before [lk rm]]; cbn in *. subst. f_equal. f_equal. set_solver.
      * intros fuel. by rewrite app_nil_r.
  - apply Forall_cons in Hs as [Hy Hs].
    destruct (wake_turn_satisfied c wakers y (ys ++ zs)) as (c1 & Ht & Hc1); [lia|done..|].
    destruct (IH c1 (wakers ++ [waiter_waker y]) zs) as (Hshort & c' & Hc' & Hrun).
    { by rewrite Hc1. }
    { done. }
    { rewrite length_app. cbn. lia. }
    split.
    + intros [|fuel] ?; [done|]. rewrite (loop_continue _ _ _ _ Ht). apply Hshort. lia.
    + exists c'. split.
      * rewrite Hc', Hc1. cbn. f_equal. f_equal. set_solver.
      * intros fuel. rewrite Nat.add_succ_l, (loop_continue _ _ _ _ Ht), Hrun.
        by rewrite <- app_assoc.
Qed.

(** The cursor does not move past a waiter that is not satisfied. *)
Lemma wake_turns_stuck c wakers ys z zs fuel :
  linked (rest c) = ys ++ z :: zs → Forall satisfied ys → ¬ satisfied z →
  (length wakers + length ys < WAKERS_CAP)%nat →
  loop fuel (wake_turn ready) (c, wakers) = OutOfFuel.
Proof.
  intros Hl Hs Hz Hlen.
  destruct (wake_turns ys c wakers (z :: zs)) as (Hshort & c' & Hc' & Hrun); [done..|lia|].
  destruct (decide (fuel ≤ length ys)%nat) as [?|Hgt]; [by apply Hshort|].
  replace fuel with (length ys + (fuel - length ys))%nat by lia. rewrite Hrun.
  apply (loop_diverges _ (λ st, st = (c', wakers ++ (waiter_waker <$> ys)))); [|done].
  intros st ->. eexists. split; [|done].
  apply wake_turn_unsatisfied with z zs; [|by rewrite Hc'|done].
  rewrite length_app, length_fmap. lia.
Qed.

(** One round of ['outer]: either the list was drained, or the array filled up
    and was flushed. *)
Lemma wake_round fuel l wakers woken ys zs :
  linked (pl_view l) = ys ++ zs → Forall satisfied ys →
  (length wakers + length ys = WAKERS_CAP)%nat →
  (∀ st, wake_outer fuel ready (l, wakers, woken) ≠ Done (Break st)) ∧
  ∃ l', pl_view l' = mkView zs (nodes_of ys ∪ removed (pl_view l)) ∧
    wake_outer fuel ready (l, wakers, woken) =
      if decide (length ys < fuel)%nat
      then Done (Continue (l', [], woken ++ wakers ++ (waiter_waker <$> ys)))
      else OutOfFuel.
Proof.
  intros Hl Hs Hlen.
  destruct (wake_turns ys (pl_cursor_front_mut l) wakers zs)
    as (Hshort & c' & Hc' & Hrun); [by rewrite pl_cursor_front_view|done|lia|].
  rewrite pl_cursor_front_view in Hc'; cbn in Hc'.
  assert (∃ l', pl_view l' = mkView zs (nodes_of ys ∪ removed (pl_view l)) ∧
    wake_outer fuel ready (l, wakers, woken) =
      if decide (length ys < fuel)%nat
      then Done (Continue (l', [], woken ++ wakers ++ (waiter_waker <$> ys)))
      else OutOfFuel) as (l' & Hv & Hw).
  { exists (pl_cursor_end c'). split; [by rewrite pl_cursor_end_view, Hc'|].
    unfold wake_outer. case_decide as Hf.
    - replace fuel with (length ys + S (fuel - S (length ys)))%nat by lia. rewrite Hrun.
      rewrite (loop_break _ _ _ (WakersFull, c', wakers ++ (waiter_waker <$> ys))); [done| |lia].
      apply wake_turn_full. by rewrite length_app, length_fmap.
    - rewrite Hshort by lia. done. }
  split; [|eauto]. intros st. rewrite Hw. by case_decide.
Qed.

Lemma wake_last_round fuel l wakers woken :
  Forall satisfied (linked (pl_view l)) →
  (length wakers + length (linked (pl_view l)) < WAKERS_CAP)%nat →
  (length (linked (pl_view l)) < fuel)%nat →
  ∃ l', pl_view l' = mkView [] (nodes_of (linked (pl_view l)) ∪ removed (pl_view l)) ∧
    wake_outer fuel ready (l, wakers, woken) =
      Done (Break (l', wakers ++ (waiter_waker <$> linked (pl_view l)), woken)).
Proof.
  intros Hs Hlen Hf. set (ys := linked (pl_view l)) in *.
  destruct (wake_turns ys (pl_cursor_front_mut l) wakers [])
    as (_ & c' & Hc' & Hrun); [by rewrite pl_cursor_front_view, app_nil_r|done|lia|].
  rewrite pl_cursor_front_view in Hc'; cbn in Hc'.
  exists (pl_cursor_end c'). split; [by rewrite pl_cursor_end_view, Hc'|].
  unfold wake_outer. replace fuel with (length ys + S (fuel - S (length ys)))%nat by lia.
  rewrite Hrun, (loop_break _ _ _ (BreakOuter, c', wakers ++ (waiter_waker <$> ys)));
    [done| |lia].
  apply wake_turn_end; [|by rewrite Hc']. rewrite length_app, length_fmap. lia.
Qed.

Lemma split_at {A} (xs : list A) n :
  (n ≤ length xs)%nat → ∃ ys zs, xs = ys ++ zs ∧ length ys = n.
Proof.
  intros. exists (take n xs), (drop n xs). rewrite take_drop, length_take. split; [done|lia].
Qed.

Lemma wake_outer_all fuel : ∀ n l wakers woken,
  length (linked (pl_view l)) = n → (length wakers < WAKERS_CAP)%nat →
  Forall satisfied (linked (pl_view l)) → (n < fuel)%nat →
  ∀ fuel', (n < fuel')%nat →
  ∃ l' wakers' woken', loop fuel' (wake_outer fuel ready) (l, wakers, woken) =
      Done (l', wakers', woken') ∧
    pl_view l' = mkView [] (nodes_of (linked (pl_view l)) ∪ removed (pl_view l)) ∧
    woken' ++ wakers' = woken ++ wakers ++ (waiter_waker <$> linked (pl_view l)).
Proof.
  induction n as [n IH] using lt_wf_ind; intros l wakers woken Hn Hw Hs Hf fuel' Hf'.
  destruct (decide (length wakers + n < WAKERS_CAP)%nat) as [Hlast|Hmore].
  - destruct (wake_last_round fuel l wakers woken) as (l' & Hv & Hr); [done|lia..|].
    do 3 eexists. split_and!; [by apply (loop_break _ _ _ _ Hr); lia|done|done].
  - destruct (split_at (linked (pl_view l)) (WAKERS_CAP - length wakers))
      as (ys & zs & Hl & Hys); [lia|].
    rewrite Hl, Forall_app in Hs. destruct Hs as [Hs1 Hs2].
    pose proof (f_equal length Hl) as Hlen. rewrite length_app in Hlen.
    destruct (wake_round fuel l wakers woken ys zs) as (_ & l1 & Hv1 & Hr1); [done..|lia|].
    rewrite decide_True in Hr1 by lia.
    destruct fuel' as [|fuel']; [lia|]. rewrite (loop_continue _ _ _ _ Hr1).
    destruct (IH (length zs) ltac:(lia) l1 [] (woken ++ wakers ++ (waiter_waker <$> ys)))
      with (fuel' := fuel') as (l' & wk & wo & Hd & Hv & Hlog);
      [by rewrite Hv1|cbn; unfold WAKERS_CAP; lia|by rewrite Hv1|lia|lia|].
    exists l', wk, wo. split_and!; [done| |].
    + rewrite Hv, Hv1, Hl. cbn. f_equal. rewrite fmap_app, list_to_set_app_L. set_solver.
    + rewrite Hlog, Hv1, Hl. cbn. by rewrite fmap_app, <- !app_assoc.
Qed.

Lemma wake_outer_stuck fuel : ∀ n l wakers woken ys z zs fuel',
  length ys = n → (length wakers < WAKERS_CAP)%nat →
  linked (pl_view l) = ys ++ z :: zs → Forall satisfied ys → ¬ satisfied z →
  loop fuel' (wake_outer fuel ready) (l, wakers, woken) = OutOfFuel.
Proof.
  induction n as [n IH] using lt_wf_ind; intros l wakers woken ys z zs fuel' Hn Hw Hl Hs Hz.
  destruct fuel' as [|fuel']; [done|].
  destruct (decide (length wakers + n < WAKERS_CAP)%nat) as [Hlast|Hmore].
  - cbn. rewrite (wake_turns_stuck _ wakers ys z zs);
      [done|by rewrite pl_cursor_front_view|done|done|lia].
  - destruct (split_at ys (WAKERS_CAP - length wakers)) as (ys1 & ys2 & -> & Hys); [lia|].
    rewrite Forall_app in Hs. destruct Hs as [Hs1 Hs2].
    rewrite <- app_assoc in Hl. rewrite length_app in Hn.
    destruct (wake_round fuel l wakers woken ys1 (ys2 ++ z :: zs))
      as (_ & l1 & Hv1 & Hr1); [done..|lia|].
    case_decide; [|by apply loop_out]. rewrite (loop_continue _ _ _ _ Hr1).
    apply (IH (length ys2)) with ys2 z zs; [lia|done|cbn; unfold WAKERS_CAP; lia|by rewrite Hv1|done|done].
Qed.

(** The wakers of the two slots that the event concerns. *)
Definition slot_wakers (w : Waiters L W) : list W :=
  (if Ready_is_readable ready then option_list (wt_reader w) else []) ++
  (if Ready_is_writable ready then option_list (wt_writer w) else []).

Lemma slot_wakers_len w : (length (slot_wakers w) ≤ 2)%nat.
Proof.
  unfold slot_wakers. rewrite length_app.
  destruct (Ready_is_readable ready), (Ready_is_writable ready), (wt_reader w), (wt_writer w);
    cbn; lia.
Qed.

Lemma wake_unfold fuel (s : ScheduledIo L W) :
  ScheduledIo_wake fuel s ready =
  '(l, wakers, woken) ← loop fuel (wake_outer fuel ready)
                          (wt_list (sio_waiters s), slot_wakers (sio_waiters s), []);
  mret (with_waiters
    (mkWaiters l (if Ready_is_readable ready then None else wt_reader (sio_waiters s))
                 (if Ready_is_writable ready then None else wt_writer (sio_waiters s))) s,
    woken ++ wakers).
Proof.
  unfold ScheduledIo_wake, slot_wakers.
  by destruct (Ready_is_readable ready), (Ready_is_writable ready),
    (wt_reader (sio_waiters s)), (wt_writer (sio_waiters s)).
Qed.

Lemma wake_all fuel (s : ScheduledIo L W) :
  let xs := linked (pl_view (wt_list (sio_waiters s))) in
  Forall satisfied xs → (length xs < fuel)%nat →
  ∃ l', pl_view l' = mkView [] (nodes_of xs ∪ removed (pl_view (wt_list (sio_waiters s)))) ∧
    ScheduledIo_wake fuel s ready = Done (with_waiters
      (mkWaiters l' (if Ready_is_readable ready then None else wt_reader (sio_waiters s))
                    (if Ready_is_writable ready then None else wt_writer (sio_waiters s))) s,
      slot_wakers (sio_waiters s) ++ (waiter_waker <$> xs)).
Proof.
  intros xs Hs Hf. rewrite wake_unfold.
  destruct (wake_outer_all fuel (length xs) (wt_list (sio_waiters s))
    (slot_wakers (sio_waiters s)) []) with (fuel' := fuel)
    as (l' & wk & wo & Hd & Hv & Hlog); try done.
  { pose proof (slot_wakers_len (sio_waiters s)). unfold WAKERS_CAP. lia. }
  exists l'. split; [done|]. rewrite Hd. cbn [mbind outcome_bind mret outcome_ret].
  by rewrite Hlog.
Qed.
End wake.

(** ** Lemmas on polling *)

(** The flags of a word that concern a direction, or an interest. *)
Definition flags_for (d : Direction) (m : Z) : Ready :=
  Ready_bitand (Direction_mask d) (word_ready m).

Definition flags_of {I} `{MioInterest I} (i : I) (m : Z) : Ready :=
  Ready_intersection (word_ready m) i.

(** The event that a load of [m] reports, when the shutdown bit is clear. *)
Definition event_at (ready : Ready) (m : Z) : ReadyEvent :=
  mkReadyEvent (word_tick m) ready false.

Lemma shutdown_false m : word_ok m → bool_decide (word_shutdown m ≠ 0) = false.
Proof. intros (_ & _ & ->). done. Qed.

(** The slot ends up with the caller's waker, or with an equivalent one. *)
Lemma store_waker_spec {W} ww (cx : W) slot :
  ∃ w, store_waker ww cx slot = Some w ∧ (w = cx ∨ ww w cx = true).
Proof.
  unfold store_waker. destruct slot as [w|]; [|eauto].
  destruct (ww w cx) eqn:Hw; eauto.
Qed.

Lemma poll_readiness_spec {L W} ww m1 m2 (s : ScheduledIo L W) (cx : W) d :
  word_ok m1 → word_ok m2 →
  ScheduledIo_poll_readiness ww m1 m2 s cx d = Done
    (if Ready_is_empty (flags_for d m1) then
       let w := sio_waiters s in
       let s' := with_waiters (with_slot d (store_waker ww cx (slot_of d w)) w) s in
       if Ready_is_empty (flags_for d m2) then (Pending, s')
       else (Ready_ (event_at (flags_for d m2) m2), s')
     else (Ready_ (event_at (flags_for d m1) m1), s)).
Proof.
  intros H1 H2. unfold ScheduledIo_poll_readiness. autorewrite with arc_word. cbn.
  autorewrite with arc_word. rewrite (shutdown_false m1 H1).
  change (Ready_bitand _ (Ready_from_usize m1)) with (flags_for d m1).
  destruct (Ready_is_empty (flags_for d m1)); cbn; [|done].
  autorewrite with arc_word. cbn. rewrite (shutdown_false m2 H2).
  change (Ready_bitand _ (Ready_from_usize m2)) with (flags_for d m2).
  autorewrite with arc_word. by destruct (Ready_is_empty (flags_for d m2)).
Qed.

Section readiness.
Context {L C W I : Type} `{PinListOps L C W I, MioInterest I}.

Lemma Readiness_turn_init load cx n (this : Readiness I) (s : ScheduledIo L W) :
  (∀ n, word_ok (load n)) → rd_state this = State_Init →
  Readiness_turn load cx (n, this, s) = Done
    (if Ready_is_empty (flags_of (rd_interest this) (load n)) then
       if Ready_is_empty (flags_of (rd_interest this) (load (S n))) then
         Continue (S (S n), with_state State_Waiting this,
           with_waiters (with_list (pl_push_front (rd_waiter this) cx (rd_interest this)
             (wt_list (sio_waiters s))) (sio_waiters s)) s)
       else Break (Ready_ (event_at (flags_of (rd_interest this) (load (S n))) (load (S n))),
                   with_state State_Done this, s)
     else Break (Ready_ (event_at (flags_of (rd_interest this) (load n)) (load n)),
                 with_state State_Done this, s)).
Proof.
  intros Hok Hst. unfold Readiness_turn. rewrite Hst. autorewrite with arc_word. cbn.
  autorewrite with arc_word. rewrite (shutdown_false _ (Hok n)).
  change (Ready_intersection (Ready_from_usize (load n)) _)
    with (flags_of (rd_interest this) (load n)).
  destruct (Ready_is_empty (flags_of _ (load n))); cbn; [|done].
  autorewrite with arc_word. cbn. rewrite (shutdown_false _ (Hok (S n))).
  autorewrite with arc_word.
  change (Ready_intersection (Ready_from_usize (load (S n))) _)
    with (flags_of (rd_interest this) (load (S n))).
  by destruct (Ready_is_empty (flags_of _ (load (S n)))).
Qed.

Lemma Readiness_turn_done load cx n (this : Readiness I) (s : ScheduledIo L W) :
  (∀ n, word_ok (load n)) → rd_state this = State_Done →
  Readiness_turn load cx (n, this, s) =
  Done (Break (Ready_ (event_at (flags_of (rd_interest this) (load n)) (load n)), this, s)).
Proof.
  intros Hok Hst. unfold Readiness_turn. rewrite Hst. autorewrite with arc_word. cbn.
  autorewrite with arc_word. rewrite (shutdown_false _ (Hok n)).
  unfold flags_of, word_ready. by autorewrite with arc_word.
Qed.

Context `{!PinListLaws L C W I}.

(** Where the future's node is. *)
Definition node_linked (n : node) (s : ScheduledIo L W) : Prop :=
  n ∈ view_nodes (pl_view (wt_list (sio_waiters s))).
Definition node_removed (n : node) (s : ScheduledIo L W) : Prop :=
  ¬ node_linked n s ∧ n ∈ removed (pl_view (wt_list (sio_waiters s))).

Lemma view_find_linked n (v : pin_view W I) :
  n ∈ view_nodes v → ∃ x, view_find n v = Some x.
Proof.
  unfold view_nodes, view_find. intros (x & -> & Hx)%list_elem_of_fmap.
  destruct (list_find_elem_of (λ y, waiter_node y = waiter_node x) (linked v) x Hx eq_refl)
    as [[i y] Hy].
  exists y. by rewrite Hy.
Qed.

Lemma Readiness_turn_waiting load cx n (this : Readiness I) (s : ScheduledIo L W) :
  rd_state this = State_Waiting → node_linked (rd_waiter this) s →
  Readiness_turn load cx (n, this, s) =
  Done (Break (Pending, this, with_waiters (with_list
    (pl_set_protected (rd_waiter this) cx (wt_list (sio_waiters s))) (sio_waiters s)) s)).
Proof.
  intros Hst Hl. unfold Readiness_turn. rewrite Hst.
  rewrite pl_initialized_view, bool_decide_true by by left. rewrite pl_protected_view.
  by destruct (view_find_linked _ _ Hl) as (x & ->).
Qed.

Lemma Readiness_turn_notified load cx n (this : Readiness I) (s : ScheduledIo L W) :
  rd_state this = State_Waiting → node_removed (rd_waiter this) s →
  ∃ l', pl_view l' = mkView (linked (pl_view (wt_list (sio_waiters s))))
          (removed (pl_view (wt_list (sio_waiters s))) ∖ {[rd_waiter this]}) ∧
  Readiness_turn load cx (n, this, s) =
  Done (Continue (n, with_state State_Done this,
                  with_waiters (with_list l' (sio_waiters s)) s)).
Proof.
  intros Hst [Hl Hr]. destruct (pl_take_removed_some _ _ Hr Hl) as (l' & Ht & Hv).
  exists l'. split; [done|]. unfold Readiness_turn. rewrite Hst.
  rewrite pl_initialized_view, bool_decide_true by by right.
  rewrite pl_protected_view, view_find_none by done. cbn. by rewrite Ht.
Qed.

Lemma set_waker_fresh n cx (xs : list (waiter W I)) :
  n ∉ waiter_node <$> xs → set_waker n cx <$> xs = xs.
Proof.
  intros Hn. induction xs as [|x xs IH]; [done|]. cbn in *.
  apply not_elem_of_cons in Hn as [Hx Hn]. rewrite IH by done.
  unfold set_waker. by rewrite decide_False.
Qed.

(** The first poll of a resource that is not ready. *)
Lemma Readiness_poll_registers fuel load cx (this : Readiness I) (s : ScheduledIo L W) :
  (∀ n, word_ok (load n)) → rd_state this = State_Init → ¬ node_linked (rd_waiter this) s →
  (1 < fuel)%nat →
  Ready_is_empty (flags_of (rd_interest this) (load 0%nat)) = true →
  Ready_is_empty (flags_of (rd_interest this) (load 1%nat)) = true →
  ∃ l', pl_view l' = mkView (mkWaiter (rd_waiter this) cx (rd_interest this) ::
                             linked (pl_view (wt_list (sio_waiters s))))
                       (removed (pl_view (wt_list (sio_waiters s))) ∖ {[rd_waiter this]}) ∧
    Readiness_poll fuel load cx this s =
    Done (Pending, with_state State_Waiting this,
          with_waiters (with_list l' (sio_waiters s)) s).
Proof.
  intros Hok Hst Hfresh Hf He0 He1. unfold Readiness_poll.
  pose proof (Readiness_turn_init load cx 0 this s Hok Hst) as Ht.
  rewrite He0, He1 in Ht. destruct fuel as [|fuel]; [lia|].
  rewrite (loop_continue _ _ _ _ Ht).
  set (s1 := with_waiters (with_list (pl_push_front _ _ _ _) _) s).
  assert (node_linked (rd_waiter this) s1) as Hl.
  { unfold node_linked, view_nodes. cbn. rewrite pl_push_front_view. left. }
  rewrite (loop_break _ _ _ _ (Readiness_turn_waiting load cx _
    (with_state State_Waiting this) s1 eq_refl Hl)) by lia.
  cbn. eexists. split; [|done].
  rewrite pl_set_protected_view, pl_push_front_view. cbn. f_equal. f_equal.
  - unfold set_waker. cbn. by rewrite decide_True.
  - by apply set_waker_fresh.
Qed.

(** The poll after the node was removed from the list. *)
Lemma Readiness_poll_notified fuel load cx (this : Readiness I) (s : ScheduledIo L W) :
  (∀ n, word_ok (load n)) → rd_state this = State_Waiting → node_removed (rd_waiter this) s →
  (1 < fuel)%nat →
  ∃ l', pl_view l' = mkView (linked (pl_view (wt_list (sio_waiters s))))
                       (removed (pl_view (wt_list (sio_waiters s))) ∖ {[rd_waiter this]}) ∧
    Readiness_poll fuel load cx this s =
    Done (Ready_ (event_at (flags_of (rd_interest this) (load 0%nat)) (load 0%nat)),
          with_state State_Done this, with_waiters (with_list l' (sio_waiters s)) s).
Proof.
  intros Hok Hst Hr Hf.
  destruct (Readiness_turn_notified load cx 0 this s Hst Hr) as (l' & Hv & Ht).
  exists l'. split; [done|]. unfold Readiness_poll. destruct fuel as [|fuel]; [lia|].
  rewrite (loop_continue _ _ _ _ Ht).
  by rewrite (loop_break _ _ _ _ (Readiness_turn_done load cx 0 (with_state State_Done this) _
    Hok eq_refl)) by lia.
Qed.
End readiness.
