(* ===== verification/ScheduledIoProps.v ===== *)
(** * ScheduledIoProps: what the readiness word and the waiters guarantee

    The properties of the operations of [ScheduledIo]: the atomicity and the
    effect of updates of the readiness word, the invariant of every word the
    program stores, who [wake] notifies and when it does not return, and the
    polling operations that pair with it. *)

From S2P Require Import Prelude Bits Ready PinList ScheduledIo.

Local Open Scope Z_scope.

(** C25: [set_readiness] is one atomic update of the word, however other threads
    interfere: as soon as one of its exchanges is not overtaken, at turn [N] at
    the latest, it returns within [N + 1] turns without panicking, having
    either replaced the word it found by its update (flags, tick and
    generation), or found that its event is older than the word. *)
Theorem set_readiness_linearizable env tick f m N :
  flag_update f → 0 ≤ tick_value tick < 256 → cell env m N = loaded env m N →
  ∃ n r, (n ≤ N)%nat ∧ turn_result env tick f m n r ∧
    ∀ fuel, (N < fuel)%nat → set_readiness_word fuel env tick f m = Done r.
Proof.
  intros Hf Ht HN.
  destruct (set_readiness_loop env tick f m N 0 Hf Ht HN) as (n & r & Hn & Hr & Hl); [lia|].
  exists n, r. split_and!; [lia|done|]. intros fuel ?. apply (Hl fuel). lia.
Qed.

Lemma set_readiness_linearizable_witness :
  ∃ n r, (n ≤ 1)%nat ∧
    turn_result (λ n m, match n with O => word_of Ready_READABLE 1 0 | _ => m end)
      (Tick_Set 2) (λ curr, Ready_bitor curr Ready_WRITABLE) 0 n r ∧
    ∀ fuel, (1 < fuel)%nat →
      set_readiness_word fuel (λ n m, match n with O => word_of Ready_READABLE 1 0 | _ => m end)
        (Tick_Set 2) (λ curr, Ready_bitor curr Ready_WRITABLE) 0 = Done r.
Proof.
  apply (set_readiness_linearizable
    (λ n m, match n with O => word_of Ready_READABLE 1 0 | _ => m end)
    (Tick_Set 2) (λ curr, Ready_bitor curr Ready_WRITABLE) 0 1).
  - apply flag_update_or. by vm_compute.
  - by vm_compute.
  - done.
Defined.

(** [clear_readiness] takes away the flags of the event, except that a
    closed direction stays closed; an event whose tick is not the word's takes
    away nothing.  The waiters are not touched. *)
Theorem clear_readiness_keeps_closed {L W} fuel (s : ScheduledIo L W) ev :
  Ready_wf (ev_ready ev) → 0 ≤ ev_tick ev < 256 → (0 < fuel)%nat →
  ∃ s', ScheduledIo_clear_readiness fuel quiet s ev = Done s' ∧
    sio_waiters s' = sio_waiters s ∧
    if bool_decide (word_tick (sio_readiness s) = ev_tick ev) then
      kinds (word_ready (sio_readiness s')) =
        kinds (word_ready (sio_readiness s)) ∖ (kinds (ev_ready ev) ∖ {[ReadClosed; WriteClosed]})
    else s' = s.
Proof.
  intros Hr Ht Hfuel. unfold ScheduledIo_clear_readiness, ScheduledIo_set_readiness.
  rewrite set_readiness_quiet by auto with arc. cbn [mbind outcome_bind].
  eexists. split; [done|]. split; [done|].
  pose proof (word_update_fields (Tick_Clear (ev_tick ev)) (λ curr, Ready_sub curr
    (Ready_sub (Ready_sub (ev_ready ev) Ready_READ_CLOSED) Ready_WRITE_CLOSED))
    (sio_readiness s) (flag_update_sub _) Ht) as Hw. cbn [tick_stale] in Hw.
  destruct (decide (word_tick (sio_readiness s) = ev_tick ev)) as [He|He].
  - rewrite bool_decide_false in Hw by auto. rewrite bool_decide_true by done.
    cbn [sio_readiness with_readiness]. destruct Hw as [-> _].
    rewrite !kinds_sub.
    change (kinds Ready_READ_CLOSED) with ({[ReadClosed]} : gset readiness_kind).
    change (kinds Ready_WRITE_CLOSED) with ({[WriteClosed]} : gset readiness_kind).
    f_equal. by rewrite difference_difference_l_L.
  - rewrite bool_decide_true in Hw by done. rewrite bool_decide_false by done.
    rewrite Hw. by destruct s.
Qed.

Lemma clear_readiness_keeps_closed_witness :
  ∃ s', ScheduledIo_clear_readiness 1 quiet
      (mkScheduledIo (word_of Ready_ALL 5 3) (mkWaiters () (None : option nat) None))
      (mkReadyEvent 5 Ready_ALL false) = Done s' ∧
    sio_waiters s' = mkWaiters () None None ∧
    kinds (word_ready (sio_readiness s')) =
      kinds (word_ready (word_of Ready_ALL 5 3)) ∖ (kinds Ready_ALL ∖ {[ReadClosed; WriteClosed]}).
Proof.
  apply (clear_readiness_keeps_closed 1
    (mkScheduledIo (word_of Ready_ALL 5 3) (mkWaiters () (None : option nat) None))
    (mkReadyEvent 5 Ready_ALL false)).
  - by vm_compute.
  - by vm_compute.
  - lia.
Defined.

(** C35: every word that events, [clear_readiness] and the reuse of slots can
    produce from a new resource is a [usize] whose readiness field holds only
    the four flags and whose shutdown bit is clear. *)
Theorem readiness_word_invariant m :
  rtc word_step 0 m → word_ok m.
Proof. intros Hs. apply (word_steps_ok 0); [done|apply word_ok_0]. Qed.

Lemma readiness_word_invariant_witness :
  word_ok (word_of (Ready_bitor Ready_EMPTY Ready_READABLE) 1 0).
Proof.
  apply (readiness_word_invariant (word_of (Ready_bitor Ready_EMPTY Ready_READABLE) 1 0)).
  eapply rtc_once, (step_event 1 Ready_READABLE); by vm_compute.
Defined.

(** Clearing a slot for reuse never panics, empties the flags, the tick and
    the shutdown bit, and moves the generation to the next of its 128 values;
    the waiters of the previous registration stay in the slot. *)
Theorem clear_bumps_generation {L W} (s : ScheduledIo L W) :
  ∃ s', ScheduledIo_clear s = Done s' ∧ sio_waiters s' = sio_waiters s ∧
    word_ok (sio_readiness s') ∧
    word_ready (sio_readiness s') = Ready_EMPTY ∧ word_tick (sio_readiness s') = 0 ∧
    ∃ g, ScheduledIo_generation s = Done g ∧ 0 ≤ g < 128 ∧
      ScheduledIo_generation s' = Done ((g + 1) mod 128).
Proof.
  rewrite clear_spec. eexists. split; [done|]. split; [done|].
  pose proof (Z.mod_pos_bound (word_generation (sio_readiness s) + 1) 128 ltac:(lia)) as Hg.
  cbn [sio_readiness with_readiness]. split_and!.
  - by apply word_of_ok.
  - by apply word_of_ready.
  - by apply word_of_tick.
  - eexists. unfold ScheduledIo_generation. autorewrite with arc_word.
    split_and!; [done|apply word_generation_range..|].
    cbn [sio_readiness with_readiness]. by rewrite word_of_generation.
Qed.

(** ** Notification *)

Section notification.
Context {L C W I : Type} `{PinListOps L C W I, !PinListLaws L C W I, MioInterest I}.

(** The waiters of the list, front to back. *)
Definition waiting (s : ScheduledIo L W) : list (waiter W I) :=
  linked (pl_view (wt_list (sio_waiters s))).

(** When every waiter of the list is interested in the event, [wake]
    returns and wakes exactly the reader slot (if the event is readable), the
    writer slot (if it is writable) and every waiter, in that order and once
    each, however many more than 32 they are; the slots it took and the list
    are empty afterwards. *)
Theorem wake_notifies_all fuel (s : ScheduledIo L W) ready :
  Forall (satisfied ready) (waiting s) → (length (waiting s) < fuel)%nat →
  ∃ s', ScheduledIo_wake fuel s ready =
      Done (s', slot_wakers ready (sio_waiters s) ++ (waiter_waker <$> waiting s)) ∧
    waiting s' = [] ∧ sio_readiness s' = sio_readiness s ∧
    wt_reader (sio_waiters s') =
      (if Ready_is_readable ready then None else wt_reader (sio_waiters s)) ∧
    wt_writer (sio_waiters s') =
      (if Ready_is_writable ready then None else wt_writer (sio_waiters s)).
Proof.
  intros Hs Hf. destruct (wake_all ready fuel s Hs Hf) as (l' & Hv & ->).
  eexists. split; [done|]. split_and!; [|done..]. unfold waiting. cbn. by rewrite Hv.
Qed.

(** C34: when some waiter of the list is not interested in the event, [wake]
    never returns: the cursor is not advanced past it, so the inner loop spins
    on it with the waiters' lock held, whatever the fuel. *)
Theorem wake_livelock fuel (s : ScheduledIo L W) ready :
  ¬ Forall (satisfied ready) (waiting s) → ScheduledIo_wake fuel s ready = OutOfFuel.
Proof.
  intros Hs. rewrite wake_unfold.
  assert (∃ ys z zs, waiting s = ys ++ z :: zs ∧ Forall (satisfied ready) ys ∧
            ¬ satisfied ready z) as (ys & z & zs & Hl & Hys & Hz).
  { revert Hs. generalize (waiting s). induction l as [|x xs IH]; intros Hn; [by destruct Hn|].
    destruct (decide (Ready_satisfies ready (waiter_interest x) = true)) as [Hx|Hx].
    - destruct IH as (ys & z & zs & -> & Hys & Hz).
      { contradict Hn. by constructor. }
      exists (x :: ys), z, zs. split_and!; [done|by constructor|done].
    - by exists [], x, xs. }
  rewrite (wake_outer_stuck ready fuel (length ys) _ _ _ ys z zs); try done.
  pose proof (slot_wakers_len ready (sio_waiters s)). unfold WAKERS_CAP. lia.
Qed.
End notification.

Import MioRef PinListRef.

(** A reader's waiter, with a waker and an interest of the reference instances. *)
Definition reader_waiter (n : node) : waiter nat MioRef.interest :=
  mkWaiter n (100 + n)%nat INTEREST_READABLE.

Definition one_reader : ScheduledIo (pin_view nat MioRef.interest) nat :=
  mkScheduledIo 0 (mkWaiters (mkView [reader_waiter 1%nat; reader_waiter 2%nat] ∅) (Some 7%nat) None).

Lemma wake_notifies_all_witness :
  ∃ s', ScheduledIo_wake 3 one_reader Ready_READABLE = Done (s', [7; 101; 102]%nat) ∧
    waiting s' = [] ∧ sio_readiness s' = 0 ∧
    wt_reader (sio_waiters s') = None ∧ wt_writer (sio_waiters s') = None.
Proof.
  destruct (wake_notifies_all 3 one_reader Ready_READABLE) as (s' & Hw & Hl & Hr & H1 & H2).
  - by repeat constructor.
  - cbn. lia.
  - exists s'. split_and!; [exact Hw|exact Hl|exact Hr|exact H1|exact H2].
Defined.

(** A writable event with a reader in the list. *)
Lemma wake_livelock_witness :
  ¬ Forall (satisfied Ready_WRITABLE) (waiting one_reader) ∧
  ScheduledIo_wake 1000 one_reader Ready_WRITABLE = OutOfFuel.
Proof.
  assert (¬ Forall (satisfied Ready_WRITABLE) (waiting one_reader)) as Hn
    by (intros [Hx _]%Forall_cons; by vm_compute in Hx).
  split; [exact Hn|]. apply (wake_livelock 1000 one_reader Ready_WRITABLE Hn).
Defined.

(** ** Polling *)

(** [poll_readiness] is [Pending] exactly when neither of its loads saw a
    flag of the direction, and then the direction's slot holds the caller's
    waker, or one that [will_wake] equates with it; otherwise it reports the
    flags and the tick of one load, with at least one flag of the direction.
    The other slot and the list are never touched. *)
Theorem poll_readiness_pending_registers {L W} ww m1 m2 (s : ScheduledIo L W) (cx : W) d :
  word_ok m1 → word_ok m2 →
  ∃ p s', ScheduledIo_poll_readiness ww m1 m2 s cx d = Done (p, s') ∧
    sio_readiness s' = sio_readiness s ∧
    wt_list (sio_waiters s') = wt_list (sio_waiters s) ∧
    (∀ d', d' ≠ d → slot_of d' (sio_waiters s') = slot_of d' (sio_waiters s)) ∧
    match p with
    | Pending =>
        kinds (flags_for d m1) = ∅ ∧ kinds (flags_for d m2) = ∅ ∧
        ∃ w, slot_of d (sio_waiters s') = Some w ∧ (w = cx ∨ ww w cx = true)
    | Ready_ ev =>
        ∃ m, m ∈ [m1; m2] ∧ ev = event_at (flags_for d m) m ∧ kinds (flags_for d m) ≠ ∅
    end.
Proof.
  intros H1 H2. rewrite poll_readiness_spec by done.
  assert (∀ m, Ready_is_empty (flags_for d m) = true ↔ kinds (flags_for d m) = ∅) as He.
  { intros m. apply Ready_is_empty_spec, Ready_wf_bitand. by destruct d. }
  pose proof (He m1) as He1. pose proof (He m2) as He2.
  destruct (Ready_is_empty (flags_for d m1)); [destruct (Ready_is_empty (flags_for d m2))|].
  - do 2 eexists. split; [done|]. split_and!; [done|by destruct d|by destruct d, d'|naive_solver..|].
    destruct (store_waker_spec ww cx (slot_of d (sio_waiters s))) as (w & -> & Hw).
    exists w. by destruct d.
  - do 2 eexists. split; [done|]. split_and!; [done|by destruct d|by destruct d, d'|].
    exists m2. split_and!; [set_solver|done|]. naive_solver.
  - do 2 eexists. split; [done|]. split_and!; [done|done|done|].
    exists m1. split_and!; [set_solver|done|]. naive_solver.
Qed.

Lemma poll_readiness_pending_registers_witness :
  ∃ p s', ScheduledIo_poll_readiness Nat.eqb 0 0 one_reader 9%nat Write_ = Done (p, s') ∧
    sio_readiness s' = 0 ∧ wt_list (sio_waiters s') = wt_list (sio_waiters one_reader) ∧
    (∀ d', d' ≠ Write_ → slot_of d' (sio_waiters s') = slot_of d' (sio_waiters one_reader)) ∧
    match p with
    | Pending =>
        kinds (flags_for Write_ 0) = ∅ ∧ kinds (flags_for Write_ 0) = ∅ ∧
        ∃ w, slot_of Write_ (sio_waiters s') = Some w ∧ (w = 9%nat ∨ Nat.eqb w 9 = true)
    | Ready_ ev =>
        ∃ m, m ∈ [0; 0] ∧ ev = event_at (flags_for Write_ m) m ∧ kinds (flags_for Write_ m) ≠ ∅
    end.
Proof.
  apply (poll_readiness_pending_registers Nat.eqb 0 0 one_reader 9%nat Write_);
    by split_and!.
Defined.

Section future.
Context {L C W I : Type} `{PinListOps L C W I, !PinListLaws L C W I, MioInterest I}.

(** The life of an awaited readiness.  A first poll that finds the resource
    not ready adds the task's waker at the front of the list and is [Pending];
    when an event then arrives that concerns this interest and the interests
    of everyone in the list, the task's waker is among the woken ones, and the
    next poll is [Ready] with a non-empty set of flags of the interest and the
    event's tick, and leaves the node out of the list. *)
Theorem readiness_future_wakes_and_resolves fuel load t ready (cx cx' : W)
    (this : Readiness I) (s : ScheduledIo L W) :
  (∀ n, word_ok (load n)) → word_ok (sio_readiness s) →
  rd_state this = State_Init → ¬ node_linked (rd_waiter this) s →
  Ready_is_empty (flags_of (rd_interest this) (load 0%nat)) = true →
  Ready_is_empty (flags_of (rd_interest this) (load 1%nat)) = true →
  0 ≤ t < 256 → Ready_wf ready → Ready_satisfies ready (rd_interest this) = true →
  Forall (satisfied ready) (waiting s) → (S (length (waiting s)) < fuel)%nat →
  ∃ this1 s1 s2 s3 log ev this2 s4,
    Readiness_poll fuel load cx this s = Done (Pending, this1, s1) ∧
    waiting s1 = mkWaiter (rd_waiter this) cx (rd_interest this) :: waiting s ∧
    ScheduledIo_set_readiness fuel quiet s1 (Tick_Set t) (λ curr, Ready_bitor curr ready) =
      Done s2 ∧
    ScheduledIo_wake fuel s2 ready = Done (s3, log) ∧ cx ∈ log ∧
    Readiness_poll fuel (λ _, sio_readiness s3) cx' this1 s3 = Done (Ready_ ev, this2, s4) ∧
    kinds (ev_ready ev) ≠ ∅ ∧ ev_tick ev = t ∧ ev_is_shutdown ev = false ∧
    rd_state this2 = State_Done ∧ waiting s4 = [] ∧ ¬ node_removed (rd_waiter this) s4.
Proof.
  intros Hok Hoks Hst Hfresh He0 He1 Ht Hr Hsat Hall Hfuel.
  destruct (Readiness_poll_registers fuel load cx this s) as (l1 & Hv1 & Hp1); [done..|lia|done|done|].
  set (s1 := with_waiters (with_list l1 (sio_waiters s)) s) in *.
  assert (waiting s1 = mkWaiter (rd_waiter this) cx (rd_interest this) :: waiting s) as Hw1
    by (unfold waiting; cbn; by rewrite Hv1).
  set (m2 := word_update (Tick_Set t) (λ curr, Ready_bitor curr ready) (sio_readiness s)).
  set (s2 := with_readiness m2 s1).
  assert (ScheduledIo_set_readiness fuel quiet s1 (Tick_Set t)
            (λ curr, Ready_bitor curr ready) = Done s2) as Hset.
  { unfold ScheduledIo_set_readiness. rewrite set_readiness_quiet by (auto with arc || lia). done. }
  assert (Forall (satisfied ready) (waiting s1)) as Hall1 by (rewrite Hw1; by constructor).
  destruct (wake_all ready fuel s2) as (l3 & Hv3 & Hwake).
  { apply Hall1. }
  { change (length (waiting s1) < fuel)%nat. rewrite Hw1. cbn. lia. }
  change (linked (pl_view (wt_list (sio_waiters s2)))) with (waiting s1) in Hv3, Hwake.
  set (s3 := with_waiters (mkWaiters l3 _ _) s2) in Hwake.
  assert (word_ok m2) as Hm2 by (apply word_update_ok; auto with arc).
  destruct (Readiness_poll_notified fuel (λ _, m2) cx' (with_state State_Waiting this) s3)
    as (l4 & Hv4 & Hp4); [done|done| |lia|].
  { unfold node_removed, node_linked, view_nodes. cbn. rewrite Hv3, Hw1. cbn.
    split; [apply not_elem_of_nil|set_solver]. }
  destruct (word_update_fields (Tick_Set t) (λ curr, Ready_bitor curr ready) (sio_readiness s))
    as (Hf1 & Hf2 & _); [auto with arc..|].
  do 8 eexists. split_and!; [exact Hp1|exact Hw1|exact Hset|exact Hwake| |exact Hp4|..].
  - rewrite Hw1, fmap_cons. cbn. set_solver.
  - cbn [ev_ready event_at rd_interest with_state]. unfold flags_of. fold m2 in Hf1.
    rewrite Hf1.
    apply Ready_satisfies_spec in Hsat as (k & Hk1 & Hk2).
    change (Ready_intersection ?a ?b) with (Ready_bitand a (Ready_from_interest b)).
    rewrite kinds_bitand, kinds_bitor. set_solver.
  - exact Hf2.
  - done.
  - done.
  - unfold waiting. cbn. by rewrite Hv4; cbn; rewrite Hv3.
  - unfold node_removed. cbn. rewrite Hv4. cbn. set_solver.
Qed.
End future.

Lemma readiness_future_wakes_and_resolves_witness :
  ∃ this1 s1 s2 s3 log ev this2 s4,
    Readiness_poll 4 (λ _, 0) 9%nat (mkReadiness State_Init INTEREST_READABLE 5%nat) one_reader =
      Done (Pending, this1, s1) ∧
    waiting s1 = mkWaiter 5%nat 9%nat INTEREST_READABLE :: waiting one_reader ∧
    ScheduledIo_set_readiness 4 quiet s1 (Tick_Set 3) (λ curr, Ready_bitor curr Ready_READABLE) =
      Done s2 ∧
    ScheduledIo_wake 4 s2 Ready_READABLE = Done (s3, log) ∧ 9%nat ∈ log ∧
    Readiness_poll 4 (λ _, sio_readiness s3) 9%nat this1 s3 = Done (Ready_ ev, this2, s4) ∧
    kinds (ev_ready ev) ≠ ∅ ∧ ev_tick ev = 3 ∧ ev_is_shutdown ev = false ∧
    rd_state this2 = State_Done ∧ waiting s4 = [] ∧ ¬ node_removed 5%nat s4.
Proof.
  apply (readiness_future_wakes_and_resolves 4 (λ _, 0) 3 Ready_READABLE 9%nat 9%nat
    (mkReadiness State_Init INTEREST_READABLE 5%nat) one_reader).
  - intros _. apply word_ok_0.
  - apply word_ok_0.
  - done.
  - unfold node_linked. cbn. set_solver.
  - by vm_compute.
  - by vm_compute.
  - done.
  - by vm_compute.
  - by vm_compute.
  - by repeat constructor.
  - cbn. lia.
Defined.
