(* ===== verification/SlotMap.v ===== *)
(** * SlotMap: the queue of parked workers  (src/src/sync_slot_map.rs)

    An intrusive multi-producer single-consumer queue of the indices
    [0 .. cap - 1], linked through the array [slots]; the index [cap] is the
    stub node and [cap + 1] (the length of the array) means "no successor".
    Indices and slots are natural numbers: the array has [cap + 1] cells, so
    they stay far below [usize::MAX].

    [SyncSlotMapShared_push] and [SyncSlotMapLock_pop] are the operations as
    written; [push_step] and [pop_step] are the same code cut at its atomic
    accesses, for the interleavings of [SlotMapConc]. *)

From S2P Require Import Prelude.

(** ** Definitions *)

Record SyncSlotMapShared : Type := mkShared {
  head : nat;
  slots : list nat;
}.

Record SyncSlotMapExclusive : Type := mkExclusive { tail : nat }.

Record SyncSlotMap : Type := mkSlotMap {
  exclusive : SyncSlotMapExclusive;
  shared : SyncSlotMapShared;
}.

Inductive ReadySlot : Type :=
| ReadySlot_Ready (t : nat)
| ReadySlot_Inconsistent
| ReadySlot_None.

#[export] Instance ReadySlot_eq_dec : EqDecision ReadySlot.
Proof. solve_decision. Defined.

(** [slots[i].load(..)] and [slots[i].store(v, ..)], with their bounds checks. *)
Definition slot_load (sh : SyncSlotMapShared) (i : nat) : outcome nat :=
  unwrap (slots sh !! i).

Definition slot_store (i v : nat) (sh : SyncSlotMapShared) : outcome SyncSlotMapShared :=
  if decide (i < length (slots sh)) then Done (mkShared (head sh) (<[i := v]> (slots sh)))
  else Panic.

(** [head.swap(index, ..)]. *)
Definition head_swap (index : nat) (sh : SyncSlotMapShared) : nat * SyncSlotMapShared :=
  (head sh, mkShared index (slots sh)).

Definition SyncSlotMap_new (cap : nat) : SyncSlotMap :=
  mkSlotMap (mkExclusive cap) (mkShared cap (replicate (S cap) (S cap))).

Definition SyncSlotMapShared_push (self : SyncSlotMapShared) (index : nat)
    : outcome SyncSlotMapShared :=
  self ← slot_store index (length (slots self)) self;
  let '(prev, self) := head_swap index self in
  slot_store prev index self.

Definition SyncSlotMap_push (self : SyncSlotMap) (index : nat) : outcome SyncSlotMap :=
  sh ← SyncSlotMapShared_push (shared self) index;
  mret (mkSlotMap (exclusive self) sh).

(** The last part of [pop]: [tail] has no successor yet. *)
Definition pop_stub (cap tail : nat) (e : SyncSlotMapExclusive) (sh : SyncSlotMapShared)
    : outcome (ReadySlot * SyncSlotMap) :=
  if decide (head sh ≠ tail) then mret (ReadySlot_Inconsistent, mkSlotMap e sh)
  else
    sh ← SyncSlotMapShared_push sh cap;
    next ← slot_load sh tail;
    if decide (next ≤ cap) then mret (ReadySlot_Ready tail, mkSlotMap (mkExclusive next) sh)
    else mret (ReadySlot_Inconsistent, mkSlotMap e sh).

(** [if next <= cap { .. return Ready(tail) }] and what follows it. *)
Definition pop_next (cap tail next : nat) (e : SyncSlotMapExclusive) (sh : SyncSlotMapShared)
    : outcome (ReadySlot * SyncSlotMap) :=
  if decide (next ≤ cap) then
    _ ← assert_ (bool_decide (tail ≠ cap));
    mret (ReadySlot_Ready tail, mkSlotMap (mkExclusive next) sh)
  else pop_stub cap tail e sh.

Definition SyncSlotMapLock_pop (self : SyncSlotMap) : outcome (ReadySlot * SyncSlotMap) :=
  let sh := shared self in
  cap ← unwrap (match length (slots sh) with O => None | S n => Some n end);
  let t := tail (exclusive self) in
  next ← slot_load sh t;
  if decide (t = cap) then
    if decide (cap < next) then mret (ReadySlot_None, self)
    else
      let e := mkExclusive next in
      let t := next in
      next ← slot_load sh t;
      pop_next cap t next e sh
  else pop_next cap t next (exclusive self) sh.

(** [SyncSlotMapLock]: the guard of the mutex, with the shared part. *)
Record SyncSlotMapLock : Type := mkLock {
  lock_exclusive : SyncSlotMapExclusive;
  lock_shared : SyncSlotMapShared;
}.

(** [taken] says that another thread holds the mutex. *)
Definition SyncSlotMap_try_lock (taken : bool) (self : SyncSlotMap) : option SyncSlotMapLock :=
  if taken then None else Some (mkLock (exclusive self) (shared self)).

(** ** The same code, one atomic access at a time *)

(** Where a [push] is: before its store, before its swap, before its link. *)
Inductive push_pc : Type :=
| PushStore (index : nat)
| PushSwap (index : nat)
| PushLink (prev index : nat).

Definition push_step (pc : push_pc) (sh : SyncSlotMapShared)
    : outcome (SyncSlotMapShared * option push_pc) :=
  match pc with
  | PushStore index =>
      sh ← slot_store index (length (slots sh)) sh; mret (sh, Some (PushSwap index))
  | PushSwap index =>
      let '(prev, sh) := head_swap index sh in mret (sh, Some (PushLink prev index))
  | PushLink prev index => sh ← slot_store prev index sh; mret (sh, None)
  end.

(** Where a [pop] is: at its load of [slots[tail]], at the load after it moved
    off the stub, at its load of [head], or after the push of the stub. *)
Inductive pop_pc : Type :=
| PopLoad
| PopLoad2 (tail : nat)
| PopHead (tail : nat)
| PopPushed (tail : nat).

(** The next pc, the start of the push of the stub, or the result. *)
Inductive pop_next_pc : Type :=
| PopAt (pc : pop_pc)
| PopPush (tail : nat)
| PopDone (r : ReadySlot).

Definition pop_step (cap : nat) (pc : pop_pc) (e : SyncSlotMapExclusive) (sh : SyncSlotMapShared)
    : outcome (SyncSlotMapExclusive * pop_next_pc) :=
  match pc with
  | PopLoad =>
      let t := tail e in
      next ← slot_load sh t;
      if decide (t = cap) then
        if decide (cap < next) then mret (e, PopDone ReadySlot_None)
        else mret (mkExclusive next, PopAt (PopLoad2 next))
      else if decide (next ≤ cap) then
        _ ← assert_ (bool_decide (t ≠ cap));
        mret (mkExclusive next, PopDone (ReadySlot_Ready t))
      else mret (e, PopAt (PopHead t))
  | PopLoad2 t =>
      next ← slot_load sh t;
      if decide (next ≤ cap) then
        _ ← assert_ (bool_decide (t ≠ cap));
        mret (mkExclusive next, PopDone (ReadySlot_Ready t))
      else mret (e, PopAt (PopHead t))
  | PopHead t =>
      if decide (head sh ≠ t) then mret (e, PopDone ReadySlot_Inconsistent)
      else mret (e, PopPush t)
  | PopPushed t =>
      next ← slot_load sh t;
      if decide (next ≤ cap) then mret (mkExclusive next, PopDone (ReadySlot_Ready t))
      else mret (e, PopDone ReadySlot_Inconsistent)
  end.

(** A push that nothing interrupts: the steps by their own next pcs. *)
Fixpoint push_run (fuel : nat) (pc : push_pc) (sh : SyncSlotMapShared)
    : outcome SyncSlotMapShared :=
  match fuel with
  | O => OutOfFuel
  | S fuel =>
      '(sh, next) ← push_step pc sh;
      match next with
      | None => mret sh
      | Some pc => push_run fuel pc sh
      end
  end.

(** A pop that nothing interrupts, from a given pc. *)
Fixpoint pop_run (fuel : nat) (cap : nat) (pc : pop_pc) (m : SyncSlotMap)
    : outcome (ReadySlot * SyncSlotMap) :=
  match fuel with
  | O => OutOfFuel
  | S fuel =>
      '(e, next) ← pop_step cap pc (exclusive m) (shared m);
      match next with
      | PopDone r => mret (r, mkSlotMap e (shared m))
      | PopAt pc => pop_run fuel cap pc (mkSlotMap e (shared m))
      | PopPush t =>
          sh ← push_run fuel (PushStore cap) (shared m);
          pop_run fuel cap (PopPushed t) (mkSlotMap e sh)
      end
  end.

(** ** The steps are the code *)

Lemma push_run_spec fuel index sh :
  2 < fuel → push_run fuel (PushStore index) sh = SyncSlotMapShared_push sh index.
Proof.
  intros Hf. destruct fuel as [|[|[|fuel]]]; [lia..|].
  unfold SyncSlotMapShared_push. cbn.
  destruct (slot_store index _ sh) as [sh1| |]; cbn; [|done..].
  by destruct (slot_store (head sh1) index _).
Qed.

Lemma pop_run_pushed fuel cap t e sh :
  0 < fuel →
  pop_run fuel cap (PopPushed t) (mkSlotMap e sh) =
  (next ← slot_load sh t;
   if decide (next ≤ cap) then mret (ReadySlot_Ready t, mkSlotMap (mkExclusive next) sh)
   else mret (ReadySlot_Inconsistent, mkSlotMap e sh)).
Proof.
  intros Hf. destruct fuel; [lia|]. cbn. destruct (slot_load sh t); cbn; [|done..].
  by case_decide.
Qed.

Lemma pop_run_head fuel cap t e sh :
  3 < fuel → pop_run fuel cap (PopHead t) (mkSlotMap e sh) = pop_stub cap t e sh.
Proof.
  intros Hf. destruct fuel as [|fuel]; [lia|]. unfold pop_stub.
  cbn [pop_run pop_step exclusive shared]. case_decide; [done|].
  cbn [mbind outcome_bind mret outcome_ret]. rewrite push_run_spec by lia.
  destruct (SyncSlotMapShared_push sh cap) as [sh'| |]; cbn; [|done..].
  apply pop_run_pushed. lia.
Qed.

Lemma pop_run_load2 fuel cap t e sh :
  4 < fuel →
  pop_run fuel cap (PopLoad2 t) (mkSlotMap e sh) =
  (next ← slot_load sh t; pop_next cap t next e sh).
Proof.
  intros Hf. destruct fuel as [|fuel]; [lia|]. unfold pop_next. cbn.
  destruct (slot_load sh t) as [next| |]; cbn; [|done..]. case_decide; cbn.
  - by destruct (assert_ _).
  - apply pop_run_head. lia.
Qed.

Lemma slot_map_run_pop fuel cap m :
  length (slots (shared m)) = S cap → 5 < fuel →
  pop_run fuel cap PopLoad m = SyncSlotMapLock_pop m.
Proof.
  intros Hlen Hf. unfold SyncSlotMapLock_pop. rewrite Hlen. cbn [unwrap mbind outcome_bind].
  destruct fuel as [|fuel]; [lia|]. cbn [pop_run pop_step].
  destruct (slot_load (shared m) (tail (exclusive m))) as [next| |];
    cbn [mbind outcome_bind]; [|done..].
  case_decide as Hstub; [case_decide; [by destruct m|]|].
  - cbn [mret outcome_ret mbind outcome_bind]. apply pop_run_load2. lia.
  - unfold pop_next. case_decide; cbn [mret outcome_ret mbind outcome_bind].
    + by destruct (assert_ _).
    + apply pop_run_head. lia.
Qed.

(** ** Properties *)

(** C38: run without interruption, each step choosing the next one, the atomic
    steps compute exactly what [push] and [pop] compute, panics included; six
    units of fuel are enough for any of them. *)
Theorem slot_map_steps_are_the_code fuel cap index m :
  length (slots (shared m)) = S cap → 5 < fuel →
  push_run fuel (PushStore index) (shared m) = SyncSlotMapShared_push (shared m) index ∧
  pop_run fuel cap PopLoad m = SyncSlotMapLock_pop m.
Proof. split; [apply push_run_spec; lia|by apply slot_map_run_pop]. Qed.

Lemma slot_map_steps_are_the_code_witness :
  push_run 6 (PushStore 1) (shared (SyncSlotMap_new 2)) =
    SyncSlotMapShared_push (shared (SyncSlotMap_new 2)) 1 ∧
  pop_run 6 2 PopLoad (SyncSlotMap_new 2) = SyncSlotMapLock_pop (SyncSlotMap_new 2).
Proof.
  apply (slot_map_steps_are_the_code 6 2 1 (SyncSlotMap_new 2)); [done|lia].
Defined.
