(* ===== verification/SlotMapConc.v ===== *)
(** * SlotMapConc: the queue of parked workers under concurrency

    Any number of threads push their own index and one consumer (the holder of
    the exclusive lock) pops, interleaved at every atomic access.  The history
    variables [s_pushed] and [s_popped] record the indices in the order of the
    swaps of [head] and in the order of the [Ready] results.

    The invariant describes memory by the chain of nodes from [tail] to
    [head]: consecutive nodes are linked by their slot, or the push of the
    second one is about to link them. *)

From S2P Require Import Prelude SlotMap.

(** ** The transition system *)

(** The consumer: inside [pop], or waiting for its own push of the stub. *)
Inductive popper : Type :=
| Popping (pc : pop_pc)
| PushingStub (tail : nat).

Record sys : Type := mkSys {
  s_excl : SyncSlotMapExclusive;
  s_sh : SyncSlotMapShared;
  s_pushers : gmap nat push_pc;
  s_popper : option popper;
  s_pushed : list nat;
  s_popped : list nat;
}.

(** The indices that were pushed and not popped, oldest first. *)
Definition queue (st : sys) : list nat := drop (length (s_popped st)) (s_pushed st).

Definition enqueued (cap : nat) (pc : push_pc) : list nat :=
  match pc with
  | PushSwap i => if decide (i = cap) then [] else [i]
  | _ => []
  end.

Definition dequeued (r : ReadySlot) : list nat :=
  match r with ReadySlot_Ready t => [t] | _ => [] end.

Definition after_push (cap i : nat) (pc : push_pc) (sh : SyncSlotMapShared)
    (next : option push_pc) (st : sys) : sys :=
  mkSys (s_excl st) sh
    (match next with Some pc' => <[i := pc']> (s_pushers st) | None => delete i (s_pushers st) end)
    (s_popper st) (s_pushed st ++ enqueued cap pc) (s_popped st).

Definition after_pop (cap : nat) (e : SyncSlotMapExclusive) (next : pop_next_pc) (st : sys) : sys :=
  match next with
  | PopAt pc => mkSys e (s_sh st) (s_pushers st) (Some (Popping pc)) (s_pushed st) (s_popped st)
  | PopPush t => mkSys e (s_sh st) (<[cap := PushStore cap]> (s_pushers st))
                   (Some (PushingStub t)) (s_pushed st) (s_popped st)
  | PopDone r => mkSys e (s_sh st) (s_pushers st) None (s_pushed st) (s_popped st ++ dequeued r)
  end.

(** A thread pushes an index that is not queued and that nobody is pushing:
    the contract of the queue.  [push] does not check it, and
    [slot_map_double_push_never_drains] shows what its violation does. *)
Inductive sys_step (cap : nat) : sys → sys → Prop :=
| step_push_begin st i :
    i < cap → s_pushers st !! i = None → i ∉ queue st →
    sys_step cap st (mkSys (s_excl st) (s_sh st) (<[i := PushStore i]> (s_pushers st))
                       (s_popper st) (s_pushed st) (s_popped st))
| step_push st i pc sh next :
    s_pushers st !! i = Some pc → push_step pc (s_sh st) = Done (sh, next) →
    sys_step cap st (after_push cap i pc sh next st)
| step_pop_begin st :
    s_popper st = None →
    sys_step cap st (mkSys (s_excl st) (s_sh st) (s_pushers st) (Some (Popping PopLoad))
                       (s_pushed st) (s_popped st))
| step_pop st pc e next :
    s_popper st = Some (Popping pc) → pop_step cap pc (s_excl st) (s_sh st) = Done (e, next) →
    sys_step cap st (after_pop cap e next st)
| step_pop_pushed st t :
    s_popper st = Some (PushingStub t) → s_pushers st !! cap = None →
    sys_step cap st (mkSys (s_excl st) (s_sh st) (s_pushers st) (Some (Popping (PopPushed t)))
                       (s_pushed st) (s_popped st)).

Definition sys_init (cap : nat) : sys :=
  mkSys (exclusive (SyncSlotMap_new cap)) (shared (SyncSlotMap_new cap)) ∅ None [] [].

Definition reachable (cap : nat) (st : sys) : Prop := rtc (sys_step cap) (sys_init cap) st.

(** ** The invariant *)

(** [a] and [b] are consecutive in the chain. *)
Definition adjacent (chain : list nat) (a b : nat) : Prop :=
  ∃ k, chain !! k = Some a ∧ chain !! S k = Some b.

Definition no_next (cap : nat) : nat := S cap.

(** The memory between two consecutive nodes. *)
Definition link_ok (cap : nat) (st : sys) (a b : nat) : Prop :=
  (slots (s_sh st) !! a = Some b ∧ s_pushers st !! b ≠ Some (PushLink a b)) ∨
  (slots (s_sh st) !! a = Some (no_next cap) ∧ s_pushers st !! b = Some (PushLink a b)).

(** What a push in progress knows. *)
Definition pusher_ok (cap : nat) (st : sys) (chain : list nat) (i : nat) (pc : push_pc) : Prop :=
  i ≤ cap ∧
  match pc with
  | PushStore j => j = i ∧ i ∉ chain
  | PushSwap j => j = i ∧ (i ∉ chain) ∧ slots (s_sh st) !! i = Some (no_next cap)
  | PushLink a j => j = i ∧ adjacent chain a i
  end.

(** What the consumer knows. *)
Definition popper_ok (cap : nat) (st : sys) (chain : list nat) : Prop :=
  match s_popper st with
  | None | Some (Popping PopLoad) => (s_pushers st !! cap = None)
  | Some (Popping (PopLoad2 t)) | Some (Popping (PopHead t)) =>
      s_pushers st !! cap = None ∧ t = tail (s_excl st) ∧ t ≠ cap
  | Some (Popping (PopPushed t)) =>
      s_pushers st !! cap = None ∧ t = tail (s_excl st) ∧ t ≠ cap ∧ cap ∈ chain
  | Some (PushingStub t) =>
      t = tail (s_excl st) ∧ t ≠ cap ∧ (s_pushers st !! cap = None → cap ∈ chain)
  end.

Record inv_at (cap : nat) (st : sys) (chain : list nat) : Prop := {
  inv_len : length (slots (s_sh st)) = S cap;
  inv_tail : chain !! 0 = Some (tail (s_excl st));
  inv_head : last chain = Some (head (s_sh st));
  inv_nodup : NoDup chain;
  inv_range : ∀ a, a ∈ chain → a ≤ cap;
  inv_links : ∀ a b, adjacent chain a b → link_ok cap st a b;
  inv_last : slots (s_sh st) !! head (s_sh st) = Some (no_next cap);
  inv_pushers : ∀ i pc, s_pushers st !! i = Some pc → pusher_ok cap st chain i pc;
  inv_popper : popper_ok cap st chain;
  inv_history : s_pushed st = s_popped st ++ filter (λ a, a ≠ cap) chain;
}.

Definition inv (cap : nat) (st : sys) : Prop := ∃ chain, inv_at cap st chain.

(** The results of [n] pops in a row. *)
Fixpoint pops (n : nat) (m : SyncSlotMap) : outcome (list ReadySlot) :=
  match n with
  | O => mret []
  | S n =>
      '(r, m) ← SyncSlotMapLock_pop m;
      rs ← pops n m;
      mret (r :: rs)
  end.

(** ** Lemmas on chains *)

Lemma adjacent_snoc chain c a b :
  adjacent (chain ++ [c]) a b ↔ adjacent chain a b ∨ (last chain = Some a ∧ b = c).
Proof.
  unfold adjacent. split.
  - intros (k & Ha & Hb). apply lookup_app_Some in Hb as [Hb|[Hge Hb]].
    + left. exists k. split; [|done]. apply lookup_lt_Some in Hb.
      by rewrite lookup_app_l in Ha by lia.
    + apply list_lookup_singleton_Some in Hb as [Hk ->]. right. split; [|done].
      rewrite last_lookup. replace (pred (length chain)) with k by lia.
      by rewrite lookup_app_l in Ha by lia.
  - intros [(k & Ha & Hb)|[Hl ->]].
    + exists k. rewrite !lookup_app_l; eauto using lookup_lt_Some.
    + exists (pred (length chain)). rewrite last_lookup in Hl.
      pose proof (lookup_lt_Some _ _ _ Hl). split; [by rewrite lookup_app_l|].
      replace (S (pred (length chain))) with (length chain) by lia.
      by rewrite lookup_app_r, Nat.sub_diag by lia.
Qed.

Lemma adjacent_cons c chain a b :
  adjacent (c :: chain) a b ↔ adjacent chain a b ∨ (a = c ∧ chain !! 0 = Some b).
Proof.
  unfold adjacent. split.
  - intros ([|k] & Ha & Hb); cbn in *; [right; naive_solver|left; eauto].
  - intros [(k & Ha & Hb)|[-> Hb]]; [by exists (S k)|by exists 0].
Qed.

Lemma adjacent_elem chain a b : adjacent chain a b → a ∈ chain ∧ b ∈ chain.
Proof. intros (k & Ha & Hb). split; eapply list_elem_of_lookup_2; eauto. Qed.

Lemma adjacent_fun chain a b b' :
  NoDup chain → adjacent chain a b → adjacent chain a b' → b = b'.
Proof.
  intros Hn (k & Ha & Hb) (k' & Ha' & Hb').
  rewrite (NoDup_lookup _ _ _ _ Hn Ha Ha') in Hb. congruence.
Qed.

Lemma adjacent_inj chain a a' b :
  NoDup chain → adjacent chain a b → adjacent chain a' b → a = a'.
Proof.
  intros Hn (k & Ha & Hb) (k' & Ha' & Hb').
  pose proof (NoDup_lookup _ _ _ _ Hn Hb Hb'). simplify_eq. congruence.
Qed.

Lemma adjacent_not_last chain a b : NoDup chain → adjacent chain a b → last chain ≠ Some a.
Proof.
  intros Hn (k & Ha & Hb) Hl. rewrite last_lookup in Hl.
  pose proof (NoDup_lookup _ _ _ _ Hn Ha Hl). apply lookup_lt_Some in Hb. lia.
Qed.

(** A node is the last one or has a successor. *)
Lemma chain_next (chain : list nat) a :
  chain !! 0 = Some a →
  (chain = [a]) ∨ (∃ b rest, chain = a :: b :: rest).
Proof. destruct chain as [|x [|y rest]]; intros; simplify_eq/=; eauto. Qed.

(** ** Every step preserves the invariant *)

Lemma slot_store_spec i v sh :
  i < length (slots sh) → slot_store i v sh = Done (mkShared (head sh) (<[i := v]> (slots sh))).
Proof. intros. unfold slot_store. by rewrite decide_True. Qed.

Lemma slot_store_inv i v sh sh' :
  slot_store i v sh = Done sh' →
  i < length (slots sh) ∧ sh' = mkShared (head sh) (<[i := v]> (slots sh)).
Proof. unfold slot_store. case_decide; [|done]. by intros [= <-]. Qed.

(** Evaluates the stores of a push whose indices are in range. *)
Ltac run_stores :=
  repeat (cbn [mbind outcome_bind mret outcome_ret head_swap head slots shared exclusive];
          rewrite slot_store_spec
            by (cbn [slots head_swap head]; rewrite ?length_insert, ?length_replicate; lia));
  cbn [mbind outcome_bind mret outcome_ret head_swap head slots shared exclusive].

Section steps.
Context (cap : nat).

Lemma inv_init : inv cap (sys_init cap).
Proof.
  exists [cap]. split; cbn.
  - by rewrite length_replicate.
  - done.
  - done.
  - apply NoDup_singleton.
  - intros a ->%list_elem_of_singleton. done.
  - intros a b (k & Ha & Hb). apply list_lookup_singleton_Some in Hb as [? _]. lia.
  - apply (lookup_replicate_2 (S cap)). lia.
  - intros i pc. by rewrite lookup_empty.
  - apply lookup_empty.
  - by case_decide.
Qed.

(** An index that is not queued is not in the chain. *)
Lemma not_queued st chain i :
  inv_at cap st chain → i < cap → i ∉ queue st → i ∉ chain.
Proof.
  intros Hinv Hi Hq Hin. apply Hq. unfold queue. rewrite (inv_history _ _ _ Hinv).
  rewrite drop_app_length. apply list_elem_of_filter. split; [lia|done].
Qed.

Lemma inv_push_begin st i :
  inv cap st → i < cap → s_pushers st !! i = None → i ∉ queue st →
  inv cap (mkSys (s_excl st) (s_sh st) (<[i := PushStore i]> (s_pushers st))
             (s_popper st) (s_pushed st) (s_popped st)).
Proof.
  intros [chain Hinv] Hi Hn Hq. pose proof (not_queued st chain i Hinv Hi Hq) as Hc.
  exists chain. destruct Hinv as [Hlen Ht Hh Hnd Hr Hl Hlast Hp Hpop Hhist].
  split; cbn; try done.
  - intros a b Hab. destruct (adjacent_elem _ _ _ Hab) as [_ Hb].
    assert (i ≠ b) by (intros ->; done). unfold link_ok. cbn.
    rewrite lookup_insert_ne by done. by apply Hl.
  - intros j pc. destruct (decide (i = j)) as [<-|Hij].
    + rewrite lookup_insert_eq. intros [= <-]. split; [lia|done].
    + rewrite lookup_insert_ne by done. apply Hp.
  - unfold popper_ok in *. cbn. rewrite lookup_insert_ne by lia. done.
Qed.

Lemma inv_push_store st i sh next :
  inv cap st → s_pushers st !! i = Some (PushStore i) →
  push_step (PushStore i) (s_sh st) = Done (sh, next) →
  inv cap (after_push cap i (PushStore i) sh next st).
Proof.
  intros [chain Hinv] Hi Hs. cbn in Hs. apply outcome_bind_done in Hs as (sh' & Hst & [= <- <-]).
  apply slot_store_inv in Hst as [Hb ->].
  exists chain. destruct Hinv as [Hlen Ht Hh Hnd Hr Hl Hlast Hp Hpop Hhist].
  destruct (Hp _ _ Hi) as (Hic & _ & Hc).
  assert (head (s_sh st) ≠ i) as Hhi.
  { intros <-. apply Hc. rewrite last_lookup in Hh. by apply list_elem_of_lookup_2 in Hh. }
  split; cbn; try done.
  - by rewrite length_insert.
  - intros a b Hab. destruct (adjacent_elem _ _ _ Hab) as [Ha Hb'].
    assert (i ≠ a ∧ i ≠ b) as [? ?] by (split; intros ->; done). unfold link_ok. cbn.
    rewrite lookup_insert_ne, list_lookup_insert_ne by done. by apply Hl.
  - by rewrite list_lookup_insert_ne.
  - intros j pc. destruct (decide (i = j)) as [<-|Hij].
    + rewrite lookup_insert_eq. intros [= <-]. split; [done|]. cbn.
      split_and!; [done|done|]. rewrite list_lookup_insert_eq by done. by rewrite Hlen.
    + rewrite lookup_insert_ne by done. intros Hj. destruct (Hp _ _ Hj) as [Hjc Hj'].
      split; [done|]. destruct pc; cbn in *; try done.
      by rewrite list_lookup_insert_ne.
  - unfold popper_ok in *. cbn. destruct (decide (i = cap)) as [->|].
    + rewrite lookup_insert_eq. destruct (s_popper st) as [[[]|]|]; naive_solver.
    + rewrite lookup_insert_ne by done. done.
  - by rewrite app_nil_r.
Qed.

Lemma inv_push_swap st i sh next :
  inv cap st → s_pushers st !! i = Some (PushSwap i) →
  push_step (PushSwap i) (s_sh st) = Done (sh, next) →
  inv cap (after_push cap i (PushSwap i) sh next st).
Proof.
  intros [chain Hinv] Hi Hs. cbn in Hs. injection Hs as <- <-.
  exists (chain ++ [i]). destruct Hinv as [Hlen Ht Hh Hnd Hr Hl Hlast Hp Hpop Hhist].
  destruct (Hp _ _ Hi) as (Hic & _ & Hc & Hnone).
  split; cbn; try done.
  - by apply lookup_app_l_Some.
  - apply last_snoc.
  - apply NoDup_app. split_and!; [done|set_solver|apply NoDup_singleton].
  - intros a [Ha| ->%list_elem_of_singleton]%elem_of_app; auto.
  - intros a b Hab. unfold link_ok. cbn. apply adjacent_snoc in Hab as [Hab|[Hla ->]].
    + destruct (adjacent_elem _ _ _ Hab) as [_ Hb].
      rewrite lookup_insert_ne by (intros ->; done). by apply Hl.
    + right. rewrite lookup_insert_eq. rewrite Hh in Hla. injection Hla as <-. done.
  - intros j pc. destruct (decide (i = j)) as [<-|Hij].
    + rewrite lookup_insert_eq. intros [= <-]. split; [done|]. cbn. split; [done|].
      apply adjacent_snoc. right. done.
    + rewrite lookup_insert_ne by done. intros Hj. destruct (Hp _ _ Hj) as [Hjc Hj'].
      split; [done|]. destruct pc; cbn in *.
      * destruct Hj' as [-> ?]. split; [done|]. set_solver.
      * destruct Hj' as (-> & ? & ?). split_and!; [done|set_solver|done].
      * destruct Hj' as [-> ?]. split; [done|]. apply adjacent_snoc. by left.
  - unfold popper_ok in *. cbn. destruct (decide (i = cap)) as [->|].
    + rewrite lookup_insert_eq. destruct (s_popper st) as [[[]|]|]; naive_solver.
    + rewrite lookup_insert_ne by done. destruct (s_popper st) as [[[]|]|]; set_solver.
  - rewrite Hhist, filter_app, <- app_assoc. f_equal. f_equal. case_decide as Hcap.
    + by rewrite filter_cons_False by auto.
    + by rewrite filter_cons_True by auto.
Qed.

Lemma inv_push_link st a i sh next :
  inv cap st → s_pushers st !! i = Some (PushLink a i) →
  push_step (PushLink a i) (s_sh st) = Done (sh, next) →
  inv cap (after_push cap i (PushLink a i) sh next st).
Proof.
  intros [chain Hinv] Hi Hs. cbn in Hs. apply outcome_bind_done in Hs as (sh' & Hst & [= <- <-]).
  apply slot_store_inv in Hst as [Hb ->].
  exists chain. destruct Hinv as [Hlen Ht Hh Hnd Hr Hl Hlast Hp Hpop Hhist].
  destruct (Hp _ _ Hi) as (Hic & _ & Hadj).
  assert (head (s_sh st) ≠ a) as Hha.
  { intros Heq. apply (adjacent_not_last _ _ _ Hnd Hadj). by rewrite Hh, Heq. }
  split; cbn; try done.
  - by rewrite length_insert.
  - intros x y Hxy. unfold link_ok. cbn. destruct (decide (a = x)) as [<-|Hax].
    + assert (y = i) as -> by (eapply adjacent_fun; eauto).
      left. rewrite list_lookup_insert_eq by done. rewrite lookup_delete_eq. done.
    + assert (i ≠ y) by (intros <-; apply Hax; eapply adjacent_inj; eauto).
      rewrite list_lookup_insert_ne, lookup_delete_ne by done. by apply Hl.
  - by rewrite list_lookup_insert_ne.
  - intros j pc. destruct (decide (i = j)) as [<-|Hij].
    + by rewrite lookup_delete_eq.
    + rewrite lookup_delete_ne by done. intros Hj. destruct (Hp _ _ Hj) as [Hjc Hj'].
      split; [done|]. destruct pc; cbn in *; try done.
      destruct Hj' as (-> & Hjn & Hjs). split_and!; [done|done|].
      rewrite list_lookup_insert_ne; [done|]. intros <-.
      apply Hjn. by destruct (adjacent_elem _ _ _ Hadj).
  - unfold popper_ok in *. cbn. destruct (decide (i = cap)) as [->|].
    + destruct (adjacent_elem _ _ _ Hadj) as [_ Hcin].
      rewrite lookup_delete_eq. destruct (s_popper st) as [[[]|]|]; naive_solver.
    + rewrite lookup_delete_ne by done. done.
  - by rewrite app_nil_r.
Qed.

(** *** The consumer *)

Lemma tail_linked st chain t n :
  inv_at cap st chain → chain !! 0 = Some t → slots (s_sh st) !! t = Some n → n ≤ cap →
  ∃ rest, chain = t :: n :: rest.
Proof.
  intros Hinv Ht Hn Hle. destruct (chain_next _ _ Ht) as [->|(b & rest & ->)].
  - pose proof (inv_head _ _ _ Hinv) as Hh. cbn in Hh. injection Hh as ->.
    rewrite (inv_last _ _ _ Hinv) in Hn. unfold no_next in Hn. simplify_eq. lia.
  - exists rest. destruct (inv_links _ _ _ Hinv t b) as [[Hs _]|[Hs _]].
    { by exists 0. }
    + congruence.
    + unfold no_next in Hs. simplify_eq. lia.
Qed.

Lemma tail_unlinked st chain t n :
  inv_at cap st chain → chain !! 0 = Some t → slots (s_sh st) !! t = Some n → cap < n →
  chain = [t] ∨ ∃ b rest, chain = t :: b :: rest ∧ s_pushers st !! b = Some (PushLink t b).
Proof.
  intros Hinv Ht Hn Hlt. destruct (chain_next _ _ Ht) as [->|(b & rest & ->)]; [by left|].
  right. exists b, rest. split; [done|].
  destruct (inv_links _ _ _ Hinv t b) as [[Hs _]|[_ Hs]]; [by exists 0| |done].
  pose proof (inv_range _ _ _ Hinv b ltac:(set_solver)). simplify_eq. lia.
Qed.

(** The consumer moves past a linked node. *)
Lemma inv_advance st t b rest pp popped :
  inv_at cap st (t :: b :: rest) → slots (s_sh st) !! t = Some b →
  let st' := mkSys (mkExclusive b) (s_sh st) (s_pushers st) pp (s_pushed st) popped in
  popper_ok cap st' (b :: rest) →
  s_pushed st = popped ++ filter (λ a, a ≠ cap) (b :: rest) →
  inv cap st'.
Proof.
  intros Hinv Hs st' Hpop Hhist. exists (b :: rest).
  destruct Hinv as [Hlen Ht Hh Hnd Hr Hl Hlast Hp _ _].
  apply NoDup_cons in Hnd as [Hnt Hnd].
  assert (s_pushers st !! b ≠ Some (PushLink t b)) as Hnb.
  { destruct (Hl t b) as [[_ ?]|[Hs' _]]; [by exists 0|done|].
    pose proof (Hr b ltac:(set_solver)). unfold no_next in Hs'. simplify_eq. lia. }
  split; try done.
  - intros a Ha. apply Hr. set_solver.
  - intros a c Hac. apply Hl. apply adjacent_cons. by left.
  - intros j pc Hj. destruct (Hp j pc Hj) as [Hjc Hj']. split; [done|].
    destruct pc as [k|k|a k]; cbn in *.
    + destruct Hj' as [-> ?]. split; [done|]. set_solver.
    + destruct Hj' as (-> & ? & ?). split_and!; [done|set_solver|done].
    + destruct Hj' as [-> Hadj]. split; [done|].
      apply adjacent_cons in Hadj as [?|[-> [= ->]]]; done.
Qed.

(** The consumer only changes its own state. *)
Lemma inv_popper_only st chain pp :
  inv_at cap st chain →
  let st' := mkSys (s_excl st) (s_sh st) (s_pushers st) pp (s_pushed st) (s_popped st) in
  popper_ok cap st' chain → inv cap st'.
Proof.
  intros [Hlen Ht Hh Hnd Hr Hl Hlast Hp _ Hhist] st' Hpop. exists chain. by split.
Qed.

Lemma inv_finish st chain pp :
  inv_at cap st chain →
  let st' := mkSys (s_excl st) (s_sh st) (s_pushers st) pp (s_pushed st) (s_popped st ++ []) in
  popper_ok cap st' chain → inv cap st'.
Proof. rewrite app_nil_r. apply inv_popper_only. Qed.

(** What the result of a pop says about the queue. *)
Definition result_ok (st : sys) (r : ReadySlot) : Prop :=
  match r with
  | ReadySlot_Ready t => ∃ q, queue st = t :: q
  | ReadySlot_None =>
      queue st = [] ∨
      ∃ i a q, queue st = i :: q ∧ s_pushers st !! i = Some (PushLink a i)
  | ReadySlot_Inconsistent => queue st ≠ []
  end.

Definition next_ok (st : sys) (next : pop_next_pc) : Prop :=
  match next with PopDone r => result_ok st r | _ => True end.

Lemma queue_chain st chain : inv_at cap st chain → queue st = filter (λ a, a ≠ cap) chain.
Proof.
  intros Hinv. unfold queue. rewrite (inv_history _ _ _ Hinv). by rewrite drop_app_length.
Qed.

Lemma filter_front t rest :
  t ≠ cap → filter (λ a, a ≠ cap) (t :: rest) = t :: filter (λ a, a ≠ cap) rest.
Proof. intros. by rewrite filter_cons_True. Qed.

(** A [Ready] result takes the first index of the queue. *)
Lemma inv_ready st t n rest :
  inv_at cap st (t :: n :: rest) → t ≠ cap → slots (s_sh st) !! t = Some n →
  s_pushers st !! cap = None →
  inv cap (after_pop cap (mkExclusive n) (PopDone (ReadySlot_Ready t)) st) ∧
  result_ok st (ReadySlot_Ready t).
Proof.
  intros Hinv Ht Hs Hcap. split.
  - eapply inv_advance; [done|done|done|].
    rewrite (inv_history _ _ _ Hinv), filter_front by done. cbn [dequeued].
    by rewrite <- app_assoc.
  - cbn. rewrite (queue_chain st _ Hinv), filter_front by done. eauto.
Qed.

Lemma stub_once st t b rest :
  inv_at cap st (t :: b :: rest) → t = cap → b ≠ cap.
Proof.
  intros Hinv Hstub Hb. pose proof (inv_nodup _ _ _ Hinv) as Hnd.
  apply NoDup_cons in Hnd as [Hnt _]. apply Hnt. rewrite Hstub, Hb. apply list_elem_of_here.
Qed.

Lemma slot_load_inv sh i n : slot_load sh i = Done n → slots sh !! i = Some n.
Proof. unfold slot_load. destruct (slots sh !! i); [by intros [= ->]|done]. Qed.

(** The load that decides between [Ready] and the look at [head]. *)
Lemma inv_load_next st chain t n e next :
  inv_at cap st chain → chain !! 0 = Some t → t ≠ cap → t = tail (s_excl st) →
  s_pushers st !! cap = None → slots (s_sh st) !! t = Some n →
  (if decide (n ≤ cap) then
     _ ← assert_ (bool_decide (t ≠ cap)); mret (mkExclusive n, PopDone (ReadySlot_Ready t))
   else mret (s_excl st, PopAt (PopHead t))) = Done (e, next) →
  inv cap (after_pop cap e next st) ∧ next_ok st next.
Proof.
  intros Hinv Ht Hne Htl Hcap Hn Hs. case_decide as Hle.
  - apply outcome_bind_done in Hs as ([] & _ & [= <- <-]).
    destruct (tail_linked _ _ _ _ Hinv Ht Hn Hle) as [rest ->]. by eapply inv_ready.
  - injection Hs as <- <-. split; [|done]. by eapply inv_popper_only.
Qed.

Lemma inv_pop_load st e next :
  inv cap st → s_popper st = Some (Popping PopLoad) →
  pop_step cap PopLoad (s_excl st) (s_sh st) = Done (e, next) →
  inv cap (after_pop cap e next st) ∧ next_ok st next.
Proof.
  intros [chain Hinv] Hpp Hs. cbn [pop_step] in Hs.
  apply outcome_bind_done in Hs as (n & Hn%slot_load_inv & Hs).
  pose proof (inv_tail _ _ _ Hinv) as Ht. pose proof (inv_popper _ _ _ Hinv) as Hpop.
  unfold popper_ok in Hpop. rewrite Hpp in Hpop.
  case_decide as Hstub; [case_decide as Hlt|].
  - injection Hs as <- <-. split; [by eapply inv_finish|]. cbn.
    rewrite (queue_chain _ _ Hinv).
    destruct (tail_unlinked _ _ _ _ Hinv Ht Hn Hlt) as [->|(b & rest & -> & Hb)].
    + left. by rewrite filter_cons_False by auto.
    + right. exists b, (tail (s_excl st)), (filter (λ a, a ≠ cap) rest). split; [|done].
      rewrite filter_cons_False by auto. eauto using filter_front, stub_once.
  - injection Hs as <- <-. split; [|done].
    destruct (tail_linked _ _ _ _ Hinv Ht Hn ltac:(lia)) as [rest Hchain].
    rewrite Hchain in Hinv. eapply inv_advance; [done|done| |].
    + cbn. split_and!; [done|done|]. by eapply stub_once.
    + rewrite (inv_history _ _ _ Hinv). by rewrite filter_cons_False by auto.
  - by eapply inv_load_next.
Qed.

Lemma inv_pop_load2 st t e next :
  inv cap st → s_popper st = Some (Popping (PopLoad2 t)) →
  pop_step cap (PopLoad2 t) (s_excl st) (s_sh st) = Done (e, next) →
  inv cap (after_pop cap e next st) ∧ next_ok st next.
Proof.
  intros [chain Hinv] Hpp Hs. cbn [pop_step] in Hs.
  apply outcome_bind_done in Hs as (n & Hn%slot_load_inv & Hs).
  pose proof (inv_tail _ _ _ Hinv) as Ht. pose proof (inv_popper _ _ _ Hinv) as Hpop.
  unfold popper_ok in Hpop. rewrite Hpp in Hpop. destruct Hpop as (Hcap & -> & Hne).
  by eapply inv_load_next.
Qed.

Lemma queue_not_stub st chain t :
  inv_at cap st chain → chain !! 0 = Some t → t ≠ cap → queue st ≠ [].
Proof.
  intros Hinv Ht Hne. rewrite (queue_chain _ _ Hinv).
  destruct chain as [|x rest]; [done|]. injection Ht as ->. by rewrite filter_front.
Qed.

Lemma inv_pop_head st t e next :
  inv cap st → s_popper st = Some (Popping (PopHead t)) →
  pop_step cap (PopHead t) (s_excl st) (s_sh st) = Done (e, next) →
  inv cap (after_pop cap e next st) ∧ next_ok st next.
Proof.
  intros [chain Hinv] Hpp Hs. cbn [pop_step] in Hs.
  pose proof (inv_tail _ _ _ Hinv) as Ht. pose proof (inv_popper _ _ _ Hinv) as Hpop.
  unfold popper_ok in Hpop. rewrite Hpp in Hpop. destruct Hpop as (Hcap & -> & Hne).
  case_decide as Hht; injection Hs as <- <-.
  - split; [by eapply inv_finish|]. by eapply queue_not_stub.
  - split; [|done]. exists chain.
    destruct Hinv as [Hlen _ Hh Hnd Hr Hl Hlast Hp _ Hhist].
    assert (head (s_sh st) = tail (s_excl st)) as Heq by (destruct (decide (head (s_sh st) = tail (s_excl st))); tauto).
    assert (chain = [tail (s_excl st)]) as ->.
    { destruct (chain_next _ _ Ht) as [->|(b & rest & ->)]; [done|]. exfalso.
      apply (adjacent_not_last _ (tail (s_excl st)) b Hnd); [by exists 0|]. by rewrite Hh, Heq. }
    split; cbn; try done.
    + intros a b (k & _ & Hb). apply list_lookup_singleton_Some in Hb as [? _]. lia.
    + intros j pc. destruct (decide (cap = j)) as [<-|Hj].
      * rewrite lookup_insert_eq. intros [= <-]. split; [done|]. split; [done|]. set_solver.
      * rewrite lookup_insert_ne by done. apply Hp.
    + split_and!; [done|done|]. by rewrite lookup_insert_eq.
Qed.

Lemma inv_pop_pushed st t e next :
  inv cap st → s_popper st = Some (Popping (PopPushed t)) →
  pop_step cap (PopPushed t) (s_excl st) (s_sh st) = Done (e, next) →
  inv cap (after_pop cap e next st) ∧ next_ok st next.
Proof.
  intros [chain Hinv] Hpp Hs. cbn [pop_step] in Hs.
  apply outcome_bind_done in Hs as (n & Hn%slot_load_inv & Hs).
  pose proof (inv_tail _ _ _ Hinv) as Ht. pose proof (inv_popper _ _ _ Hinv) as Hpop.
  unfold popper_ok in Hpop. rewrite Hpp in Hpop. destruct Hpop as (Hcap & -> & Hne & Hin).
  case_decide as Hle; injection Hs as <- <-.
  - destruct (tail_linked _ _ _ _ Hinv Ht Hn Hle) as [rest Hchain].
    rewrite Hchain in Hinv. by eapply inv_ready.
  - split; [by eapply inv_finish|]. by eapply queue_not_stub.
Qed.

Lemma inv_pop st pc e next :
  inv cap st → s_popper st = Some (Popping pc) →
  pop_step cap pc (s_excl st) (s_sh st) = Done (e, next) →
  inv cap (after_pop cap e next st) ∧ next_ok st next.
Proof.
  destruct pc; eauto using inv_pop_load, inv_pop_load2, inv_pop_head, inv_pop_pushed.
Qed.

Lemma pusher_index st i pc :
  inv cap st → s_pushers st !! i = Some pc →
  pc = PushStore i ∨ pc = PushSwap i ∨ ∃ a, pc = PushLink a i.
Proof.
  intros [chain Hinv] Hi. destruct (inv_pushers _ _ _ Hinv _ _ Hi) as [_ Hpc].
  destruct pc; naive_solver.
Qed.

Lemma inv_step st st' : inv cap st → sys_step cap st st' → inv cap st'.
Proof.
  intros Hinv Hstep. destruct Hstep as [st i Hi Hn Hq|st i pc sh next Hi Hs|st Hn|st pc e next Hpp Hs|st t Hpp Hn].
  - by apply inv_push_begin.
  - destruct (pusher_index _ _ _ Hinv Hi) as [->|[->|[a ->]]];
      eauto using inv_push_store, inv_push_swap, inv_push_link.
  - destruct Hinv as [chain Hinv]. eapply inv_popper_only; [done|].
    pose proof (inv_popper _ _ _ Hinv) as Hpop. unfold popper_ok in *. by rewrite Hn in Hpop.
  - by eapply inv_pop.
  - destruct Hinv as [chain Hinv]. eapply inv_popper_only; [done|].
    pose proof (inv_popper _ _ _ Hinv) as Hpop. unfold popper_ok in *. rewrite Hpp in Hpop.
    cbn. naive_solver.
Qed.

Lemma reachable_inv st : reachable cap st → inv cap st.
Proof.
  apply (rtc_ind_r (inv cap)); [apply inv_init|]. eauto using inv_step.
Qed.

(** *** No access is out of bounds *)

Lemma slot_load_in_range sh i :
  length (slots sh) = S cap → i ≤ cap → ∃ n, slot_load sh i = Done n.
Proof.
  intros Hlen Hi. unfold slot_load.
  destruct (lookup_lt_is_Some_2 (slots sh) i) as [n ->]; [lia|]. by exists n.
Qed.

Lemma push_step_done st i pc :
  inv cap st → s_pushers st !! i = Some pc → ∃ r, push_step pc (s_sh st) = Done r.
Proof.
  intros [chain Hinv] Hi. pose proof (inv_len _ _ _ Hinv) as Hlen.
  destruct (inv_pushers _ _ _ Hinv _ _ Hi) as [Hic Hpc]. destruct pc as [j|j|a j]; cbn in *.
  - destruct Hpc as [-> _]. rewrite slot_store_spec by lia. by eexists.
  - by eexists.
  - destruct Hpc as [-> [Ha _]%adjacent_elem]. pose proof (inv_range _ _ _ Hinv _ Ha).
    rewrite slot_store_spec by lia. by eexists.
Qed.

Lemma tail_in_range st chain : inv_at cap st chain → tail (s_excl st) ≤ cap.
Proof.
  intros Hinv. apply (inv_range _ _ _ Hinv).
  apply (list_elem_of_lookup_2 _ 0), (inv_tail _ _ _ Hinv).
Qed.

Lemma pop_step_done st pc :
  inv cap st → s_popper st = Some (Popping pc) →
  ∃ r, pop_step cap pc (s_excl st) (s_sh st) = Done r.
Proof.
  intros [chain Hinv] Hpp. pose proof (inv_popper _ _ _ Hinv) as Hpop.
  destruct (slot_load_in_range (s_sh st) _ (inv_len _ _ _ Hinv) (tail_in_range _ _ Hinv)) as [n Hn].
  unfold popper_ok in Hpop. rewrite Hpp in Hpop. destruct pc as [|t|t|t]; cbn [pop_step].
  - rewrite Hn. cbn. case_decide; [|rewrite bool_decide_true by done; cbn]; case_decide; by eexists.
  - destruct Hpop as (_ & -> & Hne). rewrite Hn. cbn. rewrite bool_decide_true by done.
    cbn. case_decide; by eexists.
  - case_decide; by eexists.
  - destruct Hpop as (_ & -> & _). rewrite Hn. cbn. case_decide; by eexists.
Qed.

(** *** A pop that runs alone *)

(** A quiescent state: nobody pushes and nobody pops. *)
Definition quiescent (st : sys) : Prop := s_pushers st = ∅ ∧ s_popper st = None.

Definition map_of (st : sys) : SyncSlotMap := mkSlotMap (s_excl st) (s_sh st).

(** The accesses of a push that nothing interrupts. *)
Lemma push_run_accesses fuel i sh sh' :
  push_run fuel (PushStore i) sh = Done sh' →
  ∃ sh1, push_step (PushStore i) sh = Done (sh1, Some (PushSwap i)) ∧
         push_step (PushLink (head sh1) i) (mkShared i (slots sh1)) = Done (sh', None).
Proof.
  destruct fuel as [|[|[|fuel]]]; cbn; [done|destruct (slot_store _ _ sh); cbn; done..|].
  destruct (slot_store i _ sh) as [sh1| |]; cbn; [|done..].
  intros Hrun. exists sh1. split; [done|].
  destruct (slot_store (head sh1) i _) as [sh2| |]; cbn in *; [|done..].
  by injection Hrun as ->.
Qed.

(** A push that nothing interrupts, as steps of the system. *)
Lemma push_steps fuel st i sh :
  s_pushers st !! i = Some (PushStore i) → push_run fuel (PushStore i) (s_sh st) = Done sh →
  rtc (sys_step cap) st
    (mkSys (s_excl st) sh (delete i (s_pushers st)) (s_popper st)
       (s_pushed st ++ enqueued cap (PushSwap i)) (s_popped st)).
Proof.
  intros Hi (sh1 & H1 & H2)%push_run_accesses.
  destruct st as [e sh0 ps pp pushed popped]. cbn [s_pushers s_sh] in *.
  eapply rtc_l; [eapply (step_push _ _ i); [exact Hi|exact H1]|].
  unfold after_push. cbn [s_excl s_pushers s_popper s_pushed s_popped enqueued].
  rewrite app_nil_r. eapply rtc_l; [eapply (step_push _ _ i); [apply lookup_insert_eq|done]|].
  unfold after_push. cbn [s_excl s_pushers s_popper s_pushed s_popped]. rewrite insert_insert_eq.
  eapply rtc_l; [eapply (step_push _ _ i); [apply lookup_insert_eq|exact H2]|].
  unfold after_push. cbn [s_excl s_pushers s_popper s_pushed s_popped].
  change (enqueued cap (PushLink _ i)) with (@nil nat). by rewrite delete_insert_eq, app_nil_r.
Qed.

Lemma stub_push_steps fuel st t sh :
  s_popper st = Some (PushingStub t) → s_pushers st = {[cap := PushStore cap]} →
  push_run fuel (PushStore cap) (s_sh st) = Done sh →
  rtc (sys_step cap) st
    (mkSys (s_excl st) sh ∅ (Some (Popping (PopPushed t))) (s_pushed st) (s_popped st)).
Proof.
  intros Hpp Hps Hrun. destruct st as [e sh0 ps pp pushed popped]. cbn in Hpp, Hps. subst.
  eapply rtc_r; [eapply (push_steps fuel _ cap); [apply lookup_singleton_eq|exact Hrun]|].
  cbn. rewrite delete_singleton_eq, decide_True, app_nil_r by done.
  by refine (step_pop_pushed cap (mkSys e sh ∅ (Some (PushingStub t)) pushed popped) t _ _).
Qed.

(** A whole push from a state where the index may be pushed. *)
Lemma push_index_steps fuel st i sh :
  i < cap → s_pushers st !! i = None → i ∉ queue st →
  push_run fuel (PushStore i) (s_sh st) = Done sh →
  rtc (sys_step cap) st
    (mkSys (s_excl st) sh (s_pushers st) (s_popper st) (s_pushed st ++ [i]) (s_popped st)).
Proof.
  intros Hi Hn Hq Hrun. eapply rtc_l; [by apply (step_push_begin _ _ i)|].
  etrans; [eapply (push_steps fuel _ i); [apply lookup_insert_eq|exact Hrun]|].
  cbn. rewrite delete_insert_id by done. by rewrite decide_False by lia.
Qed.

(** Only the look at [head] starts the push of the stub; it keeps [tail]. *)
Lemma pop_step_push pc e e' sh t : pop_step cap pc e sh = Done (e', PopPush t) → e' = e.
Proof.
  destruct pc as [|t'|t'|t']; cbn [pop_step].
  - destruct (slot_load sh (tail e)); cbn [mbind outcome_bind]; [|done..].
    repeat case_decide; cbn; try done. all: by destruct (bool_decide _).
  - destruct (slot_load sh t'); cbn [mbind outcome_bind]; [|done..].
    case_decide; cbn; [by destruct (bool_decide _)|done].
  - case_decide; [done|]. by intros [= ->].
  - destruct (slot_load sh t'); cbn [mbind outcome_bind]; [|done..]. by case_decide.
Qed.

(** [pop_run] is an execution of the system. *)
Lemma pop_run_steps fuel pc st r m :
  s_popper st = Some (Popping pc) → s_pushers st = ∅ →
  pop_run fuel cap pc (map_of st) = Done (r, m) →
  ∃ st', rtc (sys_step cap) st st' ∧ quiescent st' ∧ map_of st' = m ∧
         s_pushed st' = s_pushed st ∧ s_popped st' = s_popped st ++ dequeued r.
Proof.
  revert pc st. induction fuel as [|fuel IH]; [done|]. intros pc st Hpp Hps Hrun.
  cbn [pop_run map_of exclusive shared] in Hrun.
  apply outcome_bind_done in Hrun as ([e next] & Hs & Hrun).
  pose proof (step_pop cap _ _ _ _ Hpp Hs) as Hstep. destruct next as [pc'|t|r']; cbn in Hstep.
  - destruct (IH pc' (after_pop cap e (PopAt pc') st) eq_refl Hps Hrun) as (st' & Hsteps & ?).
    exists st'. split; [by eapply rtc_l|done].
  - apply outcome_bind_done in Hrun as (sh & Hpush & Hrun).
    assert (e = s_excl st) as ->.
    { by apply pop_step_push in Hs. }
    rewrite Hps in Hstep.
    pose proof (stub_push_steps fuel (after_pop cap (s_excl st) (PopPush t) st) t sh eq_refl
      ltac:(cbn; by rewrite Hps) Hpush) as Hsteps.
    destruct (IH (PopPushed t) (mkSys (s_excl st) sh ∅ (Some (Popping (PopPushed t)))
      (s_pushed st) (s_popped st)) eq_refl eq_refl Hrun) as (st' & Hsteps' & ?).
    cbn in Hsteps. rewrite Hps in Hsteps.
    exists st'. split; [|done]. eapply rtc_l; [exact Hstep|]. by etrans.
  - injection Hrun as <- <-. eexists. split; [by apply rtc_once|]. done.
Qed.

(** When nothing is in flight every link is in memory. *)
Lemma quiescent_link st chain a b :
  inv_at cap st chain → s_pushers st = ∅ → adjacent chain a b →
  slots (s_sh st) !! a = Some b ∧ b ≤ cap.
Proof.
  intros Hinv Hps Hab. split.
  - destruct (inv_links _ _ _ Hinv a b Hab) as [[? _]|[_ Hb]]; [done|].
    by rewrite Hps, lookup_empty in Hb.
  - apply (inv_range _ _ _ Hinv). by apply adjacent_elem in Hab as [_ ?].
Qed.

(** The push of the stub behind the only node makes that node ready. *)
Lemma pop_stub_alone sh e t :
  length (slots sh) = S cap → t < cap → head sh = t →
  ∃ m, pop_stub cap t e sh = Done (ReadySlot_Ready t, m).
Proof.
  intros Hlen Ht Hh. unfold pop_stub, SyncSlotMapShared_push.
  rewrite decide_False by (intros Hn; done).
  rewrite slot_store_spec by lia. cbn [mbind outcome_bind head_swap head slots].
  rewrite Hh, slot_store_spec by (cbn; rewrite length_insert; lia).
  cbn [mbind outcome_bind head slots]. unfold slot_load. cbn [slots].
  rewrite list_lookup_insert_eq by (rewrite length_insert; lia).
  cbn [unwrap mbind outcome_bind]. rewrite decide_True by lia. by eexists.
Qed.

(** From a node that is not the stub, [pop] returns it. *)
Lemma pop_next_quiescent st chain k t rest e :
  inv_at cap st chain → s_pushers st = ∅ → drop k chain = t :: rest → t ≠ cap →
  ∃ m, (next ← slot_load (s_sh st) t; pop_next cap t next e (s_sh st)) =
       Done (ReadySlot_Ready t, m).
Proof.
  intros Hinv Hps Hdrop Hne. unfold slot_load, pop_next.
  pose proof (lookup_drop chain k) as Hlk. rewrite Hdrop in Hlk.
  pose proof (Hlk 0) as Ht. cbn in Ht. rewrite Nat.add_0_r in Ht.
  destruct rest as [|u rest].
  - assert (head (s_sh st) = t) as Hh.
    { pose proof (inv_head _ _ _ Hinv) as Hh. rewrite <- (take_drop k chain), Hdrop, last_snoc in Hh.
      by injection Hh. }
    pose proof (inv_last _ _ _ Hinv) as Hl. rewrite Hh in Hl. rewrite Hl.
    cbn [unwrap mbind outcome_bind]. rewrite decide_False by (unfold no_next; lia).
    apply pop_stub_alone; [apply (inv_len _ _ _ Hinv)| |done].
    pose proof (inv_range _ _ _ Hinv t). apply Nat.le_neq. split; [|done].
    apply H. by eapply list_elem_of_lookup_2.
  - pose proof (Hlk 1) as Hu. cbn in Hu. rewrite Nat.add_1_r in Hu.
    destruct (quiescent_link st chain t u Hinv Hps) as [-> Hle]; [by exists k|].
    cbn [unwrap mbind outcome_bind]. rewrite decide_True, bool_decide_true by done. by eexists.
Qed.

Lemma pop_quiescent st :
  inv cap st → s_pushers st = ∅ →
  ∃ m, SyncSlotMapLock_pop (map_of st) =
       Done (match queue st with [] => ReadySlot_None | t :: _ => ReadySlot_Ready t end, m).
Proof.
  intros [chain Hinv] Hps. rewrite (queue_chain _ _ Hinv).
  unfold SyncSlotMapLock_pop. cbn [map_of shared exclusive].
  rewrite (inv_len _ _ _ Hinv). cbn [unwrap mbind outcome_bind].
  pose proof (inv_tail _ _ _ Hinv) as Ht. destruct chain as [|t rest]; [done|]. injection Ht as Ht.
  rewrite <- Ht. destruct (decide (t = cap)) as [->|Hne].
  - rewrite filter_cons_False by auto. destruct rest as [|u rest].
    + pose proof (inv_last _ _ _ Hinv) as Hl. pose proof (inv_head _ _ _ Hinv) as [= Hh].
      unfold slot_load. rewrite Hh, Hl. cbn [unwrap mbind outcome_bind].
      rewrite decide_True by (unfold no_next; lia). by eexists.
    + destruct (quiescent_link st _ cap u Hinv Hps) as [Hs Hle]; [by exists 0|].
      assert (slot_load (s_sh st) cap = Done u) as -> by (unfold slot_load; by rewrite Hs).
      cbn [mbind outcome_bind].
      rewrite decide_False by lia.
      assert (u ≠ cap) by (by eapply stub_once).
      rewrite filter_front by done. by eapply (pop_next_quiescent st _ 1).
  - rewrite filter_front by done.
    destruct (pop_next_quiescent st _ 0 t rest (s_excl st) Hinv Hps) as [m Hm]; [done..|].
    exists m. rewrite <- Hm. destruct (slot_load (s_sh st) t); cbn [mbind outcome_bind]; done.
Qed.

Lemma push_run_total st i :
  inv cap st → i < cap → ∃ sh, push_run 3 (PushStore i) (s_sh st) = Done sh.
Proof.
  intros [chain Hinv] Hi. rewrite push_run_spec by lia. unfold SyncSlotMapShared_push.
  pose proof (inv_len _ _ _ Hinv). rewrite slot_store_spec by lia. cbn.
  rewrite slot_store_spec; [by eexists|]. cbn. rewrite length_insert.
  pose proof (inv_head _ _ _ Hinv) as Hh. rewrite last_lookup in Hh.
  apply list_elem_of_lookup_2, (inv_range _ _ _ Hinv) in Hh. lia.
Qed.

Lemma queue_pushed st e sh ps pp i :
  inv cap st → queue (mkSys e sh ps pp (s_pushed st ++ [i]) (s_popped st)) = queue st ++ [i].
Proof.
  intros [chain Hinv]. unfold queue. cbn. rewrite (inv_history _ _ _ Hinv), <- app_assoc.
  by rewrite !drop_app_length.
Qed.

(** A pop from a quiescent state is an execution that removes its result. *)
Lemma pop_alone_steps st r m :
  reachable cap st → s_pushers st = ∅ → s_popper st = None →
  SyncSlotMapLock_pop (map_of st) = Done (r, m) →
  ∃ st', reachable cap st' ∧ quiescent st' ∧ map_of st' = m ∧
         queue st' = drop (length (dequeued r)) (queue st).
Proof.
  intros Hr Hps Hpp Hpop. pose proof (reachable_inv _ Hr) as [chain Hinv].
  pose proof (slot_map_run_pop 6 cap (map_of st) (inv_len _ _ _ Hinv) ltac:(lia)) as Hrun.
  rewrite Hpop in Hrun. pose proof (step_pop_begin cap st Hpp) as Hbegin.
  destruct (pop_run_steps 6 PopLoad (mkSys (s_excl st) (s_sh st) (s_pushers st)
    (Some (Popping PopLoad)) (s_pushed st) (s_popped st)) r m eq_refl Hps Hrun)
    as (st' & Hsteps & Hq & Hm & Hpu & Hpo).
  exists st'. split_and!; [|done|done|].
  - unfold reachable. etrans; [exact Hr|]. eapply rtc_l; [exact Hbegin|exact Hsteps].
  - unfold queue. rewrite Hpu, Hpo, length_app. cbn. by rewrite drop_drop.
Qed.

(** A node that is its own successor. *)
Lemma pop_self_loop sh i :
  length (slots sh) = S cap → i < cap → slots sh !! i = Some i →
  SyncSlotMapLock_pop (mkSlotMap (mkExclusive i) sh) =
  Done (ReadySlot_Ready i, mkSlotMap (mkExclusive i) sh).
Proof.
  intros Hlen Hi Hs. unfold SyncSlotMapLock_pop, slot_load, pop_next.
  cbn [shared exclusive tail]. rewrite Hlen. cbn [unwrap mbind outcome_bind].
  rewrite Hs. cbn [unwrap mbind outcome_bind].
  rewrite decide_False, decide_True, bool_decide_true by lia. done.
Qed.

Lemma pops_self_loop n sh i :
  length (slots sh) = S cap → i < cap → slots sh !! i = Some i →
  pops n (mkSlotMap (mkExclusive i) sh) = Done (replicate n (ReadySlot_Ready i)).
Proof.
  intros Hlen Hi Hs. induction n as [|n IH]; [done|]. cbn [pops].
  rewrite pop_self_loop by done. cbn [mbind outcome_bind]. by rewrite IH.
Qed.

(** The first pop moves off the stub. *)
Lemma pop_stub_loop sh i :
  length (slots sh) = S cap → i < cap → slots sh !! cap = Some i → slots sh !! i = Some i →
  SyncSlotMapLock_pop (mkSlotMap (mkExclusive cap) sh) =
  Done (ReadySlot_Ready i, mkSlotMap (mkExclusive i) sh).
Proof.
  intros Hlen Hi Hc Hs. unfold SyncSlotMapLock_pop, slot_load, pop_next.
  cbn [shared exclusive tail]. rewrite Hlen. cbn [unwrap mbind outcome_bind].
  rewrite Hc. cbn [unwrap mbind outcome_bind].
  rewrite decide_True, decide_False, Hs by lia. cbn [unwrap mbind outcome_bind].
  rewrite decide_True, bool_decide_true by lia. done.
Qed.

Lemma pops_from_stub n sh i :
  length (slots sh) = S cap → i < cap → slots sh !! cap = Some i → slots sh !! i = Some i →
  pops n (mkSlotMap (mkExclusive cap) sh) = Done (replicate n (ReadySlot_Ready i)).
Proof.
  intros Hlen Hi Hc Hs. destruct n as [|n]; [done|]. cbn [pops].
  rewrite (pop_stub_loop sh i) by done. cbn [mbind outcome_bind]. by rewrite pops_self_loop.
Qed.

(** Two pushes of the same index in a row. *)
Lemma double_push i :
  i < cap →
  ∃ m1 sh, SyncSlotMap_push (SyncSlotMap_new cap) i = Done m1 ∧
    SyncSlotMap_push m1 i = Done (mkSlotMap (mkExclusive cap) sh) ∧
    length (slots sh) = S cap ∧ slots sh !! cap = Some i ∧ slots sh !! i = Some i.
Proof.
  intros Hi. unfold SyncSlotMap_push, SyncSlotMapShared_push. cbn [SyncSlotMap_new shared exclusive].
  do 2 eexists. split_and!; [run_stores; done|run_stores; done|..];
    cbn [slots]; rewrite ?length_insert, ?length_replicate; [done|..].
  - rewrite !list_lookup_insert_ne by lia.
    rewrite list_lookup_insert_eq; rewrite ?length_insert, ?length_replicate; [done|lia].
  - rewrite list_lookup_insert_eq; rewrite ?length_insert, ?length_replicate; [done|lia].
Qed.

(** A push from a quiescent state appends its index. *)
Lemma push_alone_steps st i :
  reachable cap st → s_pushers st = ∅ → s_popper st = None → i < cap → i ∉ queue st →
  ∃ m st', SyncSlotMap_push (map_of st) i = Done m ∧ reachable cap st' ∧ quiescent st' ∧
           map_of st' = m ∧ queue st' = queue st ++ [i].
Proof.
  intros Hr Hps Hpp Hi Hq. pose proof (reachable_inv _ Hr) as Hinv.
  destruct (push_run_total st i Hinv Hi) as [sh Hrun].
  exists (mkSlotMap (s_excl st) sh). eexists. split_and!; [| |split|..].
  - unfold SyncSlotMap_push. cbn [map_of shared exclusive].
    rewrite push_run_spec in Hrun by lia. by rewrite Hrun.
  - unfold reachable. etrans; [exact Hr|]. eapply (push_index_steps 3); [done| |done|done].
    by rewrite Hps.
  - done.
  - done.
  - done.
  - by apply queue_pushed.
Qed.
End steps.

(** ** Properties *)

(** C9: under every interleaving in which an index is pushed only while it is
    not queued and nobody is pushing it (the contract of an intrusive queue,
    which [push] does not check), the map is a first-in-first-out queue: the
    indices that [pop] returned are, in order, the first of those that were
    pushed, and what remains holds each worker at most once. *)
Theorem slot_map_fifo cap st :
  reachable cap st →
  s_pushed st = s_popped st ++ queue st ∧ NoDup (queue st) ∧ Forall (λ i, i < cap) (queue st).
Proof.
  intros [chain Hinv]%reachable_inv. rewrite (queue_chain _ _ _ Hinv). split_and!.
  - apply (inv_history _ _ _ Hinv).
  - apply NoDup_filter, (inv_nodup _ _ _ Hinv).
  - apply Forall_forall. intros i [Hne Hi%(inv_range _ _ _ Hinv)]%list_elem_of_filter. lia.
Qed.

(** C10: how the result of a [pop] relates to the queue at its last access,
    under the same contract: [Ready] carries the oldest index; [None] is
    returned on the empty queue, or with workers queued when the push of the
    oldest one has swapped [head] and not yet stored its link; [Inconsistent]
    is returned only with a worker queued.  Neither [None] nor [Inconsistent]
    tells the caller that nobody is parked. *)
Theorem slot_map_pop_results cap st pc e r :
  reachable cap st → s_popper st = Some (Popping pc) →
  pop_step cap pc (s_excl st) (s_sh st) = Done (e, PopDone r) →
  match r with
  | ReadySlot_Ready t => ∃ q, queue st = t :: q
  | ReadySlot_None =>
      queue st = [] ∨ ∃ i a q, queue st = i :: q ∧ s_pushers st !! i = Some (PushLink a i)
  | ReadySlot_Inconsistent => queue st ≠ []
  end.
Proof. intros Hr Hpp Hs. by apply (inv_pop cap st pc e (PopDone r) (reachable_inv cap st Hr)). Qed.

(** No interleaving makes an access of [slots] out of bounds or fails the
    [debug_assert] of [pop]: every thread in the middle of an operation can
    take its next step. *)
Theorem slot_map_never_panics cap st :
  reachable cap st →
  (∀ i pc, s_pushers st !! i = Some pc → ∃ r, push_step pc (s_sh st) = Done r) ∧
  (∀ pc, s_popper st = Some (Popping pc) → ∃ r, pop_step cap pc (s_excl st) (s_sh st) = Done r).
Proof.
  intros Hinv%reachable_inv. split; intros; eauto using push_step_done, pop_step_done.
Qed.

(** C11: when no other thread interferes, [push] and [pop] are the operations of
    a list: [push] appends an index that is not queued, [pop] returns and
    removes the first index, returns [None] exactly on the empty queue and
    never [Inconsistent]. *)
Theorem slot_map_refines_queue cap st i :
  reachable cap st → quiescent st → i < cap → i ∉ queue st →
  (∃ m st', SyncSlotMap_push (map_of st) i = Done m ∧
     reachable cap st' ∧ quiescent st' ∧ map_of st' = m ∧ queue st' = queue st ++ [i]) ∧
  (∃ r m st', SyncSlotMapLock_pop (map_of st) = Done (r, m) ∧
     reachable cap st' ∧ quiescent st' ∧ map_of st' = m ∧
     match queue st with
     | [] => r = ReadySlot_None ∧ queue st' = []
     | t :: q => r = ReadySlot_Ready t ∧ queue st' = q
     end).
Proof.
  intros Hr [Hps Hpp] Hi Hq. split; [by apply push_alone_steps|].
  destruct (pop_quiescent cap st (reachable_inv _ _ Hr) Hps) as [m Hm].
  destruct (pop_alone_steps cap st _ m Hr Hps Hpp Hm) as (st' & Hr' & Hq' & Hmap & Hqueue).
  eexists _, m, st'. split_and!; [exact Hm|done|done|done|]. destruct (queue st); auto.
Qed.

(** The queue relies on each index being pushed only when it is not queued.
    An index that is pushed twice in a row becomes its own successor, and from
    then on every [pop] returns that same index: the queue never runs empty. *)
Theorem slot_map_double_push_never_drains cap i n :
  i < cap →
  ∃ m1 m2, SyncSlotMap_push (SyncSlotMap_new cap) i = Done m1 ∧
           SyncSlotMap_push m1 i = Done m2 ∧
           pops n m2 = Done (replicate n (ReadySlot_Ready i)).
Proof.
  intros Hi. destruct (double_push cap i Hi) as (m1 & sh & H1 & H2 & Hlen & Hc & Hs).
  exists m1. eexists. split_and!; [done|done|]. by apply pops_from_stub.
Qed.

(** ** Witnesses *)

(** Two workers parked: 1, then 0. *)
Definition two_parked : sys := mkSys (mkExclusive 2) (mkShared 0 [3; 0; 1]) ∅ None [1; 0] [].

Lemma two_parked_reachable : reachable 2 two_parked.
Proof.
  unfold reachable. etrans.
  - apply (push_index_steps 2 3 (sys_init 2) 1 (mkShared 1 [3; 3; 1]));
      [lia|done|apply (bool_decide_unpack _); vm_compute; exact I|reflexivity].
  - apply (push_index_steps 2 3 (mkSys (mkExclusive 2) (mkShared 1 [3; 3; 1]) ∅ None [1] []) 0);
      [lia|done|apply (bool_decide_unpack _); vm_compute; exact I|reflexivity].
Qed.

Definition two_parked_popping : sys :=
  mkSys (mkExclusive 1) (mkShared 0 [3; 0; 1]) ∅ (Some (Popping (PopLoad2 1))) [1; 0] [].

Lemma two_parked_popping_reachable : reachable 2 two_parked_popping.
Proof.
  eapply rtc_r; [eapply rtc_r; [apply two_parked_reachable|by apply step_pop_begin]|].
  eapply (step_pop 2 (mkSys _ _ _ _ _ _) PopLoad (mkExclusive 1) (PopAt (PopLoad2 1))); reflexivity.
Qed.

Lemma slot_map_fifo_witness :
  s_pushed two_parked = s_popped two_parked ++ queue two_parked ∧
  NoDup (queue two_parked) ∧ Forall (λ i, i < 2) (queue two_parked).
Proof. apply (slot_map_fifo 2 two_parked). apply two_parked_reachable. Defined.

Lemma slot_map_pop_results_witness : ∃ q, queue two_parked_popping = 1 :: q.
Proof.
  apply (slot_map_pop_results 2 two_parked_popping (PopLoad2 1) (mkExclusive 0) (ReadySlot_Ready 1)
           two_parked_popping_reachable); reflexivity.
Defined.

Lemma slot_map_never_panics_witness :
  ∃ r, pop_step 2 (PopLoad2 1) (s_excl two_parked_popping) (s_sh two_parked_popping) = Done r.
Proof.
  apply (slot_map_never_panics 2 two_parked_popping two_parked_popping_reachable). reflexivity.
Defined.

(** The queue of three workers in which 1 and 0 are parked and 2 may park. *)
Definition two_of_three : sys := mkSys (mkExclusive 3) (mkShared 0 [4; 0; 4; 1]) ∅ None [1; 0] [].

Lemma two_of_three_reachable : reachable 3 two_of_three.
Proof.
  unfold reachable. etrans.
  - apply (push_index_steps 3 3 (sys_init 3) 1 (mkShared 1 [4; 4; 4; 1]));
      [lia|done|apply (bool_decide_unpack _); vm_compute; exact I|reflexivity].
  - apply (push_index_steps 3 3 (mkSys (mkExclusive 3) (mkShared 1 [4; 4; 4; 1]) ∅ None [1] []) 0);
      [lia|done|apply (bool_decide_unpack _); vm_compute; exact I|reflexivity].
Qed.

Lemma slot_map_refines_queue_witness :
  (∃ m st', SyncSlotMap_push (map_of two_of_three) 2 = Done m ∧
     reachable 3 st' ∧ quiescent st' ∧ map_of st' = m ∧ queue st' = [1; 0; 2]) ∧
  (∃ r m st', SyncSlotMapLock_pop (map_of two_of_three) = Done (r, m) ∧
     reachable 3 st' ∧ quiescent st' ∧ map_of st' = m ∧
     r = ReadySlot_Ready 1 ∧ queue st' = [0]).
Proof.
  apply (slot_map_refines_queue 3 two_of_three 2).
  - apply two_of_three_reachable.
  - split; reflexivity.
  - lia.
  - apply (bool_decide_unpack _). vm_compute. exact I.
Defined.

Lemma slot_map_double_push_never_drains_witness :
  ∃ m1 m2, SyncSlotMap_push (SyncSlotMap_new 2) 1 = Done m1 ∧
           SyncSlotMap_push m1 1 = Done m2 ∧
           pops 3 m2 = Done [ReadySlot_Ready 1; ReadySlot_Ready 1; ReadySlot_Ready 1].
Proof. apply (slot_map_double_push_never_drains 2 1 3). lia. Defined.
