(* ===== verification/JoinHandle.v ===== *)
(** * JoinHandle: what a task holds and how it is polled (src/src/join_handle.rs)

    [JoinInner] is the cell of a task: the user's future until it completes, its
    result afterwards.  The user's future is a parameter: one poll of it returns
    [Ready], [Pending] or unwinds with a payload, which [catch_unwind] catches. *)

From Stdlib Require Import String.
From S2P Require Import Prelude.

(** ** Definitions *)

Inductive JoinError (P : Type) : Type :=
| JoinError_Aborted
| JoinError_Panic (payload : P).
Arguments JoinError_Aborted {P}.
Arguments JoinError_Panic {P} payload.

(** [<JoinError as Display>::fmt]. *)
Definition JoinError_display {P} (self : JoinError P) : string :=
  match self with
  | JoinError_Aborted => "task was aborted"
  | JoinError_Panic _ => "task panicked"
  end.

Inductive JoinInner (F O P : Type) : Type :=
| JoinInner_Future (fut : F)
| JoinInner_Return (val : result O (JoinError P)).
Arguments JoinInner_Future {F O P} fut.
Arguments JoinInner_Return {F O P} val.

(** The user's future: what a poll returns ([Err] is a panic that unwinds to
    [catch_unwind]) and the future it leaves behind. *)
Class UserFuture (F O P C : Type) : Type :=
  fut_poll : C → F → result (poll O) P * F.

Section join_inner.
Context {F O P C : Type} `{UserFuture F O P C}.

Definition JoinInner_new (fut : F) : JoinInner F O P := JoinInner_Future fut.

(** [<JoinInner as Future>::poll]. *)
Definition JoinInner_poll (self : JoinInner F O P) (cx : C) : poll unit * JoinInner F O P :=
  match self with
  | JoinInner_Future fut =>
      let '(res, fut) := fut_poll cx fut in
      match res with
      | Ok Pending => (Pending, JoinInner_Future fut)
      | Ok (Ready_ x) => (Ready_ (), JoinInner_Return (Ok x))
      | Err panic => (Ready_ (), JoinInner_Return (Err (JoinError_Panic panic)))
      end
  | JoinInner_Return _ => (Pending, self)
  end.

(** The future is gone and its result is stored. *)
Definition is_return (i : JoinInner F O P) : bool :=
  match i with JoinInner_Return _ => true | JoinInner_Future _ => false end.

Lemma JoinInner_poll_ready cx i i' :
  JoinInner_poll i cx = (Ready_ (), i') → is_return i = false ∧ is_return i' = true.
Proof.
  destruct i as [fut|v]; cbn; [|done]. destruct (fut_poll cx fut) as [[[x|]|p] fut'];
    intros; simplify_eq; done.
Qed.

Lemma JoinInner_poll_pending cx i i' :
  JoinInner_poll i cx = (Pending, i') →
  is_return i' = is_return i ∧ (is_return i = true → i' = i).
Proof.
  destruct i as [fut|v]; cbn; [|naive_solver].
  destruct (fut_poll cx fut) as [[[x|]|p] fut']; intros; simplify_eq; done.
Qed.

Lemma JoinInner_poll_return cx i r i' :
  JoinInner_poll i cx = (r, i') → is_return i = true → is_return i' = true.
Proof. destruct i as [fut|v]; cbn; [done|]. by intros [= <- <-]. Qed.
End join_inner.
