(* ===== verification/Task.v ===== *)
(** * Task: the life of a spawned task (src/src/task.rs, src/src/join_handle.rs)

    A task is a state byte, the cell with its future and the waker of whoever
    joins it.  [Task_run], [Task_cancel], [Task_take_output] and
    [JoinHandle_poll] are the operations as written.  [thread_step] is the same
    code of [run] and [cancel] cut at its atomic accesses, lock operations and
    wakes; [TaskConc] interleaves those steps. *)

From S2P Require Import Prelude JoinHandle.

Local Open Scope Z_scope.

(** ** The waker cell

    [futures_util::task::AtomicWaker] is not part of the repository: its
    documented behaviour is that [wake] wakes the waker that was registered
    last, if one was registered since the last [wake]. *)

Class AtomicWakerOps (A W : Type) : Type := {
  aw_new : A;
  aw_register : W → A → A;
  aw_wake : A → option W * A;
}.

Class AtomicWakerLaws (A W : Type) `{AtomicWakerOps A W} : Type := {
  (** the waker that the next [wake] wakes *)
  aw_last : A → option W;
  aw_last_new : aw_last aw_new = None;
  aw_last_register w a : aw_last (aw_register w a) = Some w;
  aw_wake_last a : (aw_wake a).1 = aw_last a;
  aw_wake_empties a : aw_last (aw_wake a).2 = None;
}.

Module AtomicWakerRef.
#[export] Instance cell_ops {W} : AtomicWakerOps (option W) W :=
  {| aw_new := None; aw_register := λ w _, Some w; aw_wake := λ a, (a, None) |}.
#[export] Program Instance cell_laws {W} : AtomicWakerLaws (option W) W := {| aw_last := id |}.
Solve Obligations with done.
End AtomicWakerRef.

(** ** The state byte *)

Definition IDLE : Z := 0.
Definition RUNNING : Z := 1.
Definition COMPLETED : Z := 2.
Definition CANCELLED : Z := 3.
Definition NOTIFIED : Z := 4.

(** [AtomicU8::try_update]: [Ok(previous)] when the closure gave a new value. *)
Definition try_update (f : Z → option Z) (state : Z) : result Z Z * Z :=
  match f state with
  | Some new => (Ok state, new)
  | None => (Err state, state)
  end.

(** The closures of [run], of its end and of [cancel]. *)
Definition run_claim (state : Z) : option Z :=
  if decide (state = IDLE) then Some RUNNING
  else if decide (state = RUNNING) then Some NOTIFIED
  else None.

Definition run_release (state : Z) : option Z :=
  if decide (state = RUNNING ∨ state = NOTIFIED) then Some IDLE else None.

Definition cancel_request (state : Z) : option Z :=
  if decide (state = COMPLETED ∨ state = CANCELLED) then None else Some CANCELLED.

Section task.
Context {F O P C A W : Type} `{UserFuture F O P C, AtomicWakerOps A W}.

Record Task : Type := mkTask {
  t_state : Z;
  t_waker : A;
  t_fut : JoinInner F O P;
}.

Definition with_state (s : Z) (t : Task) : Task := mkTask s (t_waker t) (t_fut t).
Definition with_waker (a : A) (t : Task) : Task := mkTask (t_state t) a (t_fut t).
Definition with_fut (f : JoinInner F O P) (t : Task) : Task := mkTask (t_state t) (t_waker t) f.

(** What an operation asks of others, in order: to put the task on the global
    queue, to wake the joiner. *)
Inductive effect : Type :=
| ScheduleGlobal
| WakeJoiner (w : W).

Definition Task_new (fut : F) : Task := mkTask IDLE aw_new (JoinInner_new fut).

(** [self.waker.wake()]. *)
Definition wake_joiner (self : Task) : Task * list effect :=
  let '(w, a) := aw_wake (t_waker self) in
  (with_waker a self, match w with Some w => [WakeJoiner w] | None => [] end).

(** A future that is still there is dropped in place: [Return { Err(Aborted) }]. *)
Definition abort_future (f : JoinInner F O P) : JoinInner F O P :=
  match f with
  | JoinInner_Future _ => JoinInner_Return (Err JoinError_Aborted)
  | JoinInner_Return _ => f
  end.

Definition Task_finish_cancellation (self : Task) : Task * list effect :=
  let self := with_fut (abort_future (t_fut self)) self in
  let self := with_state COMPLETED self in
  wake_joiner self.

Definition Task_take_output (self : Task) (output : poll (result O (JoinError P))) : Task * poll (result O (JoinError P)) :=
  match t_fut self with
  | JoinInner_Return val =>
      (with_fut (JoinInner_Return (Err JoinError_Aborted)) self, Ready_ val)
  | JoinInner_Future _ => (self, output)
  end.

Definition Task_register (self : Task) (waker : W) : Task :=
  with_waker (aw_register waker (t_waker self)) self.

Definition Task_cancel (self : Task) : Task * list effect :=
  let '(r, s) := try_update cancel_request (t_state self) in
  let self := with_state s self in
  match r with
  | Ok _ => (self, [ScheduleGlobal])
  | Err _ => (self, [])
  end.

(** The end of [run] after a poll that was not ready. *)
Definition run_pending (self : Task) : Task * list effect :=
  let '(r, s) := try_update run_release (t_state self) in
  let self := with_state s self in
  match r with
  | Ok prev => if decide (prev = NOTIFIED) then (self, [ScheduleGlobal]) else (self, [])
  | Err prev =>
      if decide (prev = CANCELLED) then Task_finish_cancellation self else (self, [])
  end.

Definition Task_run (cx : C) (self : Task) : Task * list effect :=
  let '(r, s) := try_update run_claim (t_state self) in
  let self := with_state s self in
  match r with
  | Ok prev =>
      if decide (prev = IDLE) then
        let '(ready, fut) := JoinInner_poll (t_fut self) cx in
        let self := with_fut fut self in
        match ready with
        | Ready_ _ => wake_joiner (with_state COMPLETED self)
        | Pending => run_pending self
        end
      else (self, [])
  | Err prev =>
      if decide (prev = CANCELLED) then Task_finish_cancellation self else (self, [])
  end.

(** [<JoinHandle as Future>::poll]. *)
Definition JoinHandle_poll (self : Task) (cx_waker : W) : Task * poll (result O (JoinError P)) :=
  let '(self, out) := Task_take_output self Pending in
  match out with
  | Pending => Task_take_output (Task_register self cx_waker) out
  | Ready_ _ => (self, out)
  end.

Definition JoinHandle_abort (self : Task) : Task * list effect := Task_cancel self.

(** ** The same code, one access at a time *)

(** The memory that the threads share: the task, the holder of the mutex of the
    future, whether the task is on the global queue, how many times it is on
    local queues, and the wakers woken so far. *)
Record shared : Type := mkShared {
  sh_task : Task;
  sh_lock : option nat;
  sh_linked : bool;
  sh_local : nat;
  sh_woken : list W;
}.

Definition with_task (t : Task) (s : shared) : shared :=
  mkShared t (sh_lock s) (sh_linked s) (sh_local s) (sh_woken s).
Definition with_lock (l : option nat) (s : shared) : shared :=
  mkShared (sh_task s) l (sh_linked s) (sh_local s) (sh_woken s).
Definition with_queues (linked : bool) (loc : nat) (s : shared) : shared :=
  mkShared (sh_task s) (sh_lock s) linked loc (sh_woken s).

(** [schedule_global]: the task is pushed unless it is linked already. *)
Definition schedule (s : shared) : shared := with_queues true (sh_local s) s.

Definition perform (e : effect) (s : shared) : shared :=
  match e with
  | ScheduleGlobal => schedule s
  | WakeJoiner w =>
      mkShared (sh_task s) (sh_lock s) (sh_linked s) (sh_local s) (sh_woken s ++ [w])
  end.

(** Where a thread is in [run], [finish_cancellation] or [cancel]. *)
Inductive pc : Type :=
| RunClaim          (** the first [try_update] *)
| RunLock           (** [self.fut.lock()] *)
| RunPoll           (** inside the poll of the future *)
| RunStore          (** [state.store(COMPLETED)] *)
| RunUnlockReady    (** [drop(fut)] *)
| RunWake           (** [self.waker.wake()] *)
| RunUnlock         (** [drop(fut)] of the other branch *)
| RunRelease        (** the second [try_update] *)
| RunReschedule     (** [Self::schedule_global(&self)] *)
| FinLock           (** [finish_cancellation]: [self.fut.lock()] *)
| FinWrite
| FinStore
| FinUnlock
| FinWake
| CancelUpdate      (** [cancel]: its [try_update] *)
| CancelSchedule.

(** One step of thread [i]: the memory and where the thread goes, or [None] when
    it waits for the mutex. *)
Definition thread_step (cx : C) (i : nat) (p : pc) (s : shared) : option (shared * option pc) :=
  let t := sh_task s in
  match p with
  | RunClaim =>
      let '(r, st) := try_update run_claim (t_state t) in
      let s := with_task (with_state st t) s in
      match r with
      | Ok prev => Some (s, if decide (prev = IDLE) then Some RunLock else None)
      | Err prev => Some (s, if decide (prev = CANCELLED) then Some FinLock else None)
      end
  | RunLock =>
      match sh_lock s with
      | None => Some (with_lock (Some i) s, Some RunPoll)
      | Some _ => None
      end
  | RunPoll =>
      let '(ready, fut) := JoinInner_poll (t_fut t) cx in
      Some (with_task (with_fut fut t) s,
            Some (match ready with Ready_ _ => RunStore | Pending => RunUnlock end))
  | RunStore => Some (with_task (with_state COMPLETED t) s, Some RunUnlockReady)
  | RunUnlockReady => Some (with_lock None s, Some RunWake)
  | RunWake | FinWake =>
      let '(t, effects) := wake_joiner t in
      Some (fold_right perform (with_task t s) effects, None)
  | RunUnlock => Some (with_lock None s, Some RunRelease)
  | RunRelease =>
      let '(r, st) := try_update run_release (t_state t) in
      let s := with_task (with_state st t) s in
      match r with
      | Ok prev => Some (s, if decide (prev = NOTIFIED) then Some RunReschedule else None)
      | Err prev => Some (s, if decide (prev = CANCELLED) then Some FinLock else None)
      end
  | RunReschedule | CancelSchedule => Some (schedule s, None)
  | FinLock =>
      match sh_lock s with
      | None => Some (with_lock (Some i) s, Some FinWrite)
      | Some _ => None
      end
  | FinWrite => Some (with_task (with_fut (abort_future (t_fut t)) t) s, Some FinStore)
  | FinStore => Some (with_task (with_state COMPLETED t) s, Some FinUnlock)
  | FinUnlock => Some (with_lock None s, Some FinWake)
  | CancelUpdate =>
      let '(r, st) := try_update cancel_request (t_state t) in
      let s := with_task (with_state st t) s in
      Some (s, match r with Ok _ => Some CancelSchedule | Err _ => None end)
  end.

(** A thread that nothing interrupts, until it is done. *)
Fixpoint thread_run (fuel : nat) (cx : C) (i : nat) (p : pc) (s : shared) : outcome shared :=
  match fuel with
  | 0%nat => OutOfFuel
  | S fuel =>
      match thread_step cx i p s with
      | None => Panic
      | Some (s, None) => mret s
      | Some (s, Some p) => thread_run fuel cx i p s
      end
  end.

(** The memory after an operation with its effects. *)
Definition apply_effects (r : Task * list effect) (s : shared) : shared :=
  fold_right perform (with_task r.1 s) r.2.
End task.

Arguments Task : clear implicits.
Arguments effect : clear implicits.
Arguments shared : clear implicits.

#[export] Instance pc_eq_dec : EqDecision pc.
Proof. solve_decision. Defined.

(** ** The steps are the code *)

Section steps.
Context {F O P C A W : Type} `{UserFuture F O P C, AtomicWakerOps A W}.
Implicit Types (s : shared F O P A W) (t : Task F O P A).

Lemma run_finish fuel cx i s :
  (4 < fuel)%nat → sh_lock s = None →
  thread_run fuel cx i FinLock s = Done (apply_effects (Task_finish_cancellation (sh_task s)) s).
Proof.
  intros Hf Hl. destruct s as [t l q n w]; cbn in Hl; subst l.
  do 5 (destruct fuel as [|fuel]; [lia|]). cbn.
  unfold apply_effects, Task_finish_cancellation. by destruct (wake_joiner _).
Qed.

Lemma run_release_steps fuel cx i s :
  (5 < fuel)%nat → sh_lock s = None →
  thread_run fuel cx i RunRelease s = Done (apply_effects (run_pending (sh_task s)) s).
Proof.
  intros Hf Hl. destruct fuel as [|fuel]; [lia|]. cbn. unfold run_pending, try_update.
  destruct (run_release _) eqn:Hr; case_decide.
  - by destruct fuel; [lia|].
  - done.
  - rewrite run_finish by (done || lia). done.
  - done.
Qed.

Lemma run_claimed fuel cx i s :
  (8 < fuel)%nat → sh_lock s = None →
  thread_run fuel cx i RunLock s =
  Done (apply_effects
    (let '(ready, fut) := JoinInner_poll (t_fut (sh_task s)) cx in
     match ready with
     | Ready_ _ => wake_joiner (with_state COMPLETED (with_fut fut (sh_task s)))
     | Pending => run_pending (with_fut fut (sh_task s))
     end) s).
Proof.
  intros Hf Hl. destruct s as [t l q n w]; cbn in Hl; subst l.
  do 3 (destruct fuel as [|fuel]; [lia|]). cbn [thread_run thread_step sh_lock sh_task with_lock].
  destruct (JoinInner_poll (t_fut t) cx) as [[[]|] fut]; cbn [thread_run thread_step].
  - do 2 (destruct fuel as [|fuel]; [lia|]). cbn. by destruct (wake_joiner _).
  - etrans; [apply run_release_steps; [lia|done]|done].
Qed.

(** C39: the steps that the interleavings use are the code: a thread that nobody
    interrupts and that finds the mutex free performs exactly [run] or
    [cancel], effects included. *)
Theorem task_steps_are_the_code fuel cx i s :
  (9 < fuel)%nat → sh_lock s = None →
  thread_run fuel cx i RunClaim s = Done (apply_effects (Task_run cx (sh_task s)) s) ∧
  thread_run fuel cx i CancelUpdate s = Done (apply_effects (Task_cancel (sh_task s)) s).
Proof.
  intros Hf Hl. destruct fuel as [|fuel]; [lia|]. split.
  - cbn [thread_run thread_step]. unfold Task_run, try_update.
    destruct (run_claim _) as [st|] eqn:Hc; case_decide; [|done| |done].
    + rewrite run_claimed by (done || lia). done.
    + rewrite run_finish by (done || lia). done.
  - cbn [thread_run thread_step]. unfold Task_cancel, try_update.
    destruct (cancel_request _); [|done]. by destruct fuel; [lia|].
Qed.
End steps.
