(* ===== verification/TaskConc.v ===== *)
(** * TaskConc: a task under concurrency (src/src/task.rs, src/src/join_handle.rs)

    Any number of workers run the task, any number of threads cancel it or wake
    it, and the owner of its [JoinHandle] polls that handle; all of them
    interleave at every access of [Task.thread_step].  A wake may come from
    anyone at any time, also from inside the poll of the future.

    History variables: [ts_notified] says that a wake came since the last poll
    began, [ts_aborted] that [abort] was called, and [ts_result] is the first
    result that was stored. *)

From S2P Require Import Prelude JoinHandle Task.

Local Open Scope Z_scope.

(** ** The transition system *)

Section system.
Context {F O P C A W : Type} `{UserFuture F O P C, AtomicWakerOps A W}.

(** The owner of the [JoinHandle], inside [poll] with its waker; [k] is the
    number of wakes at the time of its registration. *)
Inductive joiner : Type :=
| JoinIdle
| JoinTake1 (w : W)
| JoinRegister (w : W)
| JoinTake2 (w : W) (k : nat)
| JoinWaiting (w : W) (k : nat)
| JoinDone (r : result O (JoinError P)).

Record tsys : Type := mkT {
  ts_sh : shared F O P A W;
  ts_threads : gmap nat pc;
  ts_joiner : joiner;
  ts_notified : bool;
  ts_aborted : bool;
  ts_result : option (result O (JoinError P));
}.

(** [JoinHandle::poll], one lock-protected block or access at a time. *)
Definition joiner_step (j : joiner) (s : shared F O P A W) : option (shared F O P A W * joiner) :=
  match j with
  | JoinTake1 w =>
      match sh_lock s with
      | Some _ => None
      | None =>
          let '(t, out) := Task_take_output (sh_task s) Pending in
          Some (with_task t s, match out with Ready_ r => JoinDone r | Pending => JoinRegister w end)
      end
  | JoinRegister w =>
      Some (with_task (Task_register (sh_task s) w) s, JoinTake2 w (length (sh_woken s)))
  | JoinTake2 w k =>
      match sh_lock s with
      | Some _ => None
      | None =>
          let '(t, out) := Task_take_output (sh_task s) Pending in
          Some (with_task t s, match out with Ready_ r => JoinDone r | Pending => JoinWaiting w k end)
      end
  | _ => None
  end.

Definition go (i : nat) (next : option pc) (T : gmap nat pc) : gmap nat pc :=
  match next with Some q => <[i := q]> T | None => delete i T end.

(** The first result that is stored. *)
Definition note_result (old new : JoinInner F O P) (r : option (result O (JoinError P)))
    : option (result O (JoinError P)) :=
  match old, new with
  | JoinInner_Future _, JoinInner_Return v => Some v
  | _, _ => r
  end.

(** A poll begins when its thread gets the mutex. *)
Definition note_poll (p : pc) (notified : bool) : bool :=
  match p with RunLock => false | _ => notified end.

Inductive tsys_step (cx : C) : tsys → tsys → Prop :=
| ts_thread st i p s next :
    ts_threads st !! i = Some p → thread_step cx i p (ts_sh st) = Some (s, next) →
    tsys_step cx st
      (mkT s (go i next (ts_threads st)) (ts_joiner st) (note_poll p (ts_notified st))
         (ts_aborted st)
         (note_result (t_fut (sh_task (ts_sh st))) (t_fut (sh_task s)) (ts_result st)))
| ts_join st s j :
    joiner_step (ts_joiner st) (ts_sh st) = Some (s, j) →
    tsys_step cx st (mkT s (ts_threads st) j (ts_notified st) (ts_aborted st) (ts_result st))
| ts_join_begin st w :
    ts_joiner st = JoinIdle ∨ (∃ w' k, ts_joiner st = JoinWaiting w' k) →
    tsys_step cx st
      (mkT (ts_sh st) (ts_threads st) (JoinTake1 w) (ts_notified st) (ts_aborted st) (ts_result st))
| ts_wake_global st :
    tsys_step cx st
      (mkT (schedule (ts_sh st)) (ts_threads st) (ts_joiner st) true (ts_aborted st) (ts_result st))
| ts_wake_local st :
    tsys_step cx st
      (mkT (with_queues (sh_linked (ts_sh st)) (S (sh_local (ts_sh st))) (ts_sh st))
         (ts_threads st) (ts_joiner st) true (ts_aborted st) (ts_result st))
| ts_fetch st :
    sh_linked (ts_sh st) = true →
    tsys_step cx st
      (mkT (with_queues false (S (sh_local (ts_sh st))) (ts_sh st))
         (ts_threads st) (ts_joiner st) (ts_notified st) (ts_aborted st) (ts_result st))
| ts_run st i n :
    sh_local (ts_sh st) = S n → ts_threads st !! i = None →
    tsys_step cx st
      (mkT (with_queues (sh_linked (ts_sh st)) n (ts_sh st)) (<[i := RunClaim]> (ts_threads st))
         (ts_joiner st) (ts_notified st) (ts_aborted st) (ts_result st))
| ts_abort st i :
    ts_threads st !! i = None →
    tsys_step cx st
      (mkT (ts_sh st) (<[i := CancelUpdate]> (ts_threads st)) (ts_joiner st) (ts_notified st)
         true (ts_result st)).

(** A task that was just spawned: on a local queue or on the global one. *)
Definition tsys_init (fut : F) (on_global : bool) : tsys :=
  mkT (mkShared (Task_new fut) None on_global (if on_global then 0 else 1) []) ∅ JoinIdle
    true false None.

Definition treachable (cx : C) (fut : F) (st : tsys) : Prop :=
  ∃ g, rtc (tsys_step cx) (tsys_init fut g) st.
End system.

Arguments joiner : clear implicits.
Arguments tsys : clear implicits.

(** ** Classes of program points *)

(** The thread won [IDLE -> RUNNING] and has not given the task back. *)
#[local] Arguments go : simpl never.

Definition owner (p : pc) : bool :=
  match p with RunLock | RunPoll | RunStore | RunUnlock | RunRelease => true | _ => false end.

(** The thread holds the mutex of the future. *)
Definition holds (p : pc) : bool :=
  match p with
  | RunPoll | RunStore | RunUnlockReady | RunUnlock | FinWrite | FinStore | FinUnlock => true
  | _ => false
  end.

(** In [finish_cancellation] before it publishes [COMPLETED]. *)
Definition finishing (p : pc) : bool :=
  match p with FinLock | FinWrite | FinStore => true | _ => false end.

(** In [cancel] or [finish_cancellation]. *)
Definition cancelling (p : pc) : bool :=
  match p with
  | FinLock | FinWrite | FinStore | FinUnlock | FinWake | CancelUpdate | CancelSchedule => true
  | _ => false
  end.

(** The result is stored and [COMPLETED] is about to be. *)
Definition storing (p : pc) : bool := match p with RunStore | FinStore => true | _ => false end.

(** The result is stored and the thread will wake the joiner. *)
Definition publishing (p : pc) : bool :=
  match p with
  | RunStore | RunUnlockReady | RunWake | FinStore | FinUnlock | FinWake => true
  | _ => false
  end.

(** The thread will poll the future or put the task on a queue. *)
Definition responding (p : pc) : bool :=
  match p with RunClaim | RunLock | RunReschedule => true | _ => false end.

(** The thread will see [CANCELLED] and finish the cancellation. *)
Definition cancel_responding (p : pc) : bool :=
  match p with
  | CancelSchedule | RunClaim | FinLock | FinWrite | FinStore => true
  | p => owner p
  end.

Definition some_at (f : pc → bool) (T : gmap nat pc) : Prop :=
  ∃ i p, T !! i = Some p ∧ f p = true.

Lemma some_at_go f T i p next :
  T !! i = Some p → some_at f T → f p = false ∨ (∃ q, next = Some q ∧ f q = true) →
  some_at f (go i next T).
Proof.
  intros Hi (j & q & Hj & Hq) Hp. destruct (decide (i = j)) as [<-|Hne].
  - simplify_eq. destruct Hp as [?|(q' & -> & Hq')]; [congruence|].
    exists i, q'. unfold go. by rewrite lookup_insert_eq.
  - exists j, q. split; [|done].
    destruct next; unfold go; [by rewrite lookup_insert_ne|by rewrite lookup_delete_ne].
Qed.

Lemma some_at_here f T i q : f q = true → some_at f (go i (Some q) T).
Proof. intros. exists i, q. unfold go. by rewrite lookup_insert_eq. Qed.

Lemma some_at_insert f T i q : T !! i = None → some_at f T → some_at f (<[i := q]> T).
Proof.
  intros Hi (j & p & Hj & Hp). exists j, p. split; [|done].
  by rewrite lookup_insert_ne by congruence.
Qed.

Lemma no_thread (T : gmap nat pc) : T = ∅ → ∀ f, ~ some_at f T.
Proof. intros -> f (i & p & Hi & _). by rewrite lookup_empty in Hi. Qed.

Lemma go_lookup i next T j q :
  go i next T !! j = Some q → (i = j ∧ next = Some q) ∨ (i ≠ j ∧ T !! j = Some q).
Proof.
  destruct next as [p|]; unfold go; intros Hl.
  - apply lookup_insert_Some in Hl. naive_solver.
  - apply lookup_delete_Some in Hl. naive_solver.
Qed.

(** ** The invariant *)

(** Arithmetic on the values of the state byte. *)
Ltac state_lia := unfold IDLE, RUNNING, COMPLETED, CANCELLED, NOTIFIED in *; cbn in *; lia.

Section invariant.
Context {F O P C A W : Type} `{UserFuture F O P C, AtomicWakerLaws A W}.
Implicit Types (s : shared F O P A W) (st : tsys F O P A W) (T : gmap nat pc).

Abbreviation state_of s := (t_state (sh_task s)).
Abbreviation fut_of s := (t_fut (sh_task s)).

(** What a thread knows by being where it is. *)
Record pc_ok s (aborted : bool) (i : nat) (p : pc) : Prop := {
  pc_holds : holds p = true ↔ sh_lock s = Some i;
  pc_owner : owner p = true → state_of s ≠ IDLE;
  pc_finishing : finishing p = true → state_of s = CANCELLED ∨ state_of s = COMPLETED;
  pc_cancelling : cancelling p = true → aborted = true;
  pc_publishing : publishing p = true → is_return (fut_of s) = true;
}.

Definition threads_ok s (aborted : bool) T : Prop := ∀ i p, T !! i = Some p → pc_ok s aborted i p.

Definition owner_unique T : Prop :=
  ∀ i j p q, T !! i = Some p → T !! j = Some q → owner p = true → owner q = true → i = j.

(** How the state byte, the cell and the threads fit together. *)
Record state_ok s (aborted : bool) T : Prop := {
  st_range : 0 ≤ state_of s ≤ 4;
  st_running : state_of s = RUNNING ∨ state_of s = NOTIFIED → some_at owner T;
  st_completed : state_of s = COMPLETED → is_return (fut_of s) = true;
  st_return : is_return (fut_of s) = true → state_of s = COMPLETED ∨ some_at storing T;
  st_cancelled : state_of s = CANCELLED → aborted = true;
  st_lock : ∀ i, sh_lock s = Some i → is_Some (T !! i);
}.

Definition queued s : Prop := sh_linked s = true ∨ (0 < sh_local s)%nat.

(** A notification is not lost: the future is done, or somebody will poll it. *)
Definition notified_ok s T (notified : bool) : Prop :=
  notified = true →
  is_return (fut_of s) = true ∨ queued s ∨ some_at responding T ∨
  state_of s = NOTIFIED ∨ state_of s = CANCELLED.

(** A cancellation is not lost: somebody will finish it. *)
Definition cancel_ok s T : Prop :=
  state_of s = CANCELLED → queued s ∨ some_at cancel_responding T.

(** A request to abort is not lost. *)
Definition requesting (p : pc) : bool := match p with CancelUpdate => true | _ => false end.

Definition abort_ok s T (aborted : bool) : Prop :=
  aborted = true →
  state_of s = CANCELLED ∨ state_of s = COMPLETED ∨ some_at requesting T.

(** The joiner gets the first result that was stored. *)
Definition result_ok s (j : joiner O P W) (aborted : bool) (r : option (result O (JoinError P)))
    : Prop :=
  (is_return (fut_of s) = true ↔ is_Some r) ∧
  (r = Some (Err JoinError_Aborted) → aborted = true) ∧
  match j with
  | JoinDone v => r = Some v
  | _ => ∀ v, fut_of s = JoinInner_Return v → r = Some v
  end.

(** The waker of the joiner is registered until it is woken. *)
Definition registered s (w : W) (k : nat) : Prop :=
  (k ≤ length (sh_woken s))%nat ∧
  (w ∈ drop k (sh_woken s) ∨ aw_last (t_waker (sh_task s)) = Some w).

(** The joiner is not left behind. *)
Definition join_ok s T (j : joiner O P W) : Prop :=
  match j with
  | JoinTake2 w k => registered s w k
  | JoinWaiting w k =>
      registered s w k ∧
      (is_return (fut_of s) = true → w ∈ drop k (sh_woken s) ∨ some_at publishing T)
  | _ => True
  end.

Record tinv st : Prop := {
  ti_threads : threads_ok (ts_sh st) (ts_aborted st) (ts_threads st);
  ti_unique : owner_unique (ts_threads st);
  ti_state : state_ok (ts_sh st) (ts_aborted st) (ts_threads st);
  ti_notified : notified_ok (ts_sh st) (ts_threads st) (ts_notified st);
  ti_cancel : cancel_ok (ts_sh st) (ts_threads st);
  ti_abort : abort_ok (ts_sh st) (ts_threads st) (ts_aborted st);
  ti_result : result_ok (ts_sh st) (ts_joiner st) (ts_aborted st) (ts_result st);
  ti_join : join_ok (ts_sh st) (ts_threads st) (ts_joiner st);
}.

(** ** Steps of the threads *)

Lemma abort_future_return (f : JoinInner F O P) : is_return (abort_future f) = true.
Proof. by destruct f. Qed.

Lemma wake_joiner_spec (t : Task F O P A) :
  ∃ a, wake_joiner (W := W) t =
    (with_waker a t, match aw_last (t_waker t) with Some w => [WakeJoiner w] | None => [] end) ∧
    aw_last a = None.
Proof.
  unfold wake_joiner. pose proof (aw_wake_last (t_waker t)) as Hl.
  pose proof (aw_wake_empties (t_waker t)) as He.
  destruct (aw_wake (t_waker t)) as [w a]. cbn in *. subst. eauto.
Qed.

(** The cases of a step of a thread. *)
Ltac step_cases Hs :=
  cbn [thread_step] in Hs;
  unfold try_update, run_claim, run_release, cancel_request in Hs;
  repeat first
    [ case_decide
    | match type of Hs with
      | context [wake_joiner ?t] =>
          let a := fresh "a" in
          let Hw := fresh "Hw" in
          destruct (wake_joiner_spec t) as (a & Hw & ?); rewrite Hw in Hs; clear Hw;
          destruct (aw_last (t_waker t)) eqn:?
      | context [match ?x with _ => _ end] => destruct x eqn:?
      end
    | progress (simplify_eq/=) ];
  simplify_eq/=.

Lemma step_lock cx i p s s' next :
  thread_step cx i p s = Some (s', next) →
  sh_lock s' = sh_lock s ∨ (sh_lock s = None ∧ sh_lock s' = Some i) ∨
  (holds p = true ∧ sh_lock s' = None).
Proof. intros Hs. destruct p; step_cases Hs; eauto. Qed.

Lemma step_holds cx i p s s' next :
  thread_step cx i p s = Some (s', next) → (holds p = true ↔ sh_lock s = Some i) →
  match next with
  | Some q => holds q = true ↔ sh_lock s' = Some i
  | None => sh_lock s' ≠ Some i
  end.
Proof. intros Hs Hh. destruct p; step_cases Hs; naive_solver. Qed.

(** The result of a task is final. *)
Lemma step_return cx i p s s' next :
  thread_step cx i p s = Some (s', next) → is_return (fut_of s) = true → fut_of s' = fut_of s.
Proof.
  intros Hs Hr. destruct p; step_cases Hs; try done.
  - destruct (fut_of s); [done|]. by simplify_eq/=.
  - destruct (fut_of s); [done|]. by simplify_eq/=.
  - by destruct (fut_of s).
Qed.

(** What the moving thread knows afterwards. *)
Lemma step_here cx i p q s s' ab T :
  thread_step cx i p s = Some (s', Some q) → pc_ok s ab i p → state_ok s ab T →
  pc_ok s' ab i q.
Proof.
  intros Hs Hp Hst. pose proof (step_holds _ _ _ _ _ _ Hs (pc_holds _ _ _ _ Hp)) as Hh.
  destruct Hp as [_ Ho Hf Hc Hpub], Hst as [Hrange _ Hcomp _ Hcanc _].
  split; [exact Hh|..]; clear Hh; destruct p; step_cases Hs; try done; try tauto.
  all: try (intros _; unfold IDLE, RUNNING, COMPLETED, CANCELLED in *; lia).
  - intros _. match goal with x : () |- _ => destruct x end.
    by eapply JoinInner_poll_ready.
  - intros _. apply abort_future_return.
Qed.

(** The step of an owner that gives the task back. *)
Lemma step_to_idle cx i p s s' next :
  thread_step cx i p s = Some (s', next) → state_of s' = IDLE →
  state_of s = IDLE ∨ owner p = true.
Proof. intros Hs Hi. destruct p; step_cases Hs; auto; by left. Qed.

Lemma step_final cx i p s s' next :
  thread_step cx i p s = Some (s', next) →
  state_of s = CANCELLED ∨ state_of s = COMPLETED →
  state_of s' = CANCELLED ∨ state_of s' = COMPLETED.
Proof.
  intros Hs Hf. destruct p; step_cases Hs; auto.
  all: unfold IDLE, RUNNING, COMPLETED, CANCELLED, NOTIFIED in *; lia.
Qed.

(** What the other threads know stays true. *)
Lemma step_others cx i j p q s s' next ab T :
  thread_step cx i p s = Some (s', next) → T !! i = Some p → T !! j = Some q → i ≠ j →
  threads_ok s ab T → owner_unique T → pc_ok s' ab j q.
Proof.
  intros Hs Hi Hj Hne Hok Hu. destruct (Hok i p Hi) as [Hhi _ _ _ _].
  destruct (Hok j q Hj) as [Hh Ho Hf Hc Hpub]. split; [|..|done|].
  - rewrite Hh. destruct (step_lock _ _ _ _ _ _ Hs) as [->|[[-> ->]|[Hp ->]]].
    + done.
    + split; congruence.
    + apply Hhi in Hp. split; congruence.
  - intros Hq Hidle. destruct (step_to_idle _ _ _ _ _ _ Hs Hidle) as [?|Hp].
    + by apply Ho.
    + apply Hne. by eapply Hu.
  - intros Hq. eapply step_final; eauto.
  - intros Hq. rewrite (step_return _ _ _ _ _ _ Hs); auto.
Qed.

Lemma step_threads_ok cx i p s s' next ab T :
  thread_step cx i p s = Some (s', next) → T !! i = Some p →
  threads_ok s ab T → owner_unique T → state_ok s ab T →
  threads_ok s' ab (go i next T).
Proof.
  intros Hs Hi Hok Hu Hst j q [[<- ->]|[Hne Hj]]%go_lookup.
  - eapply step_here; eauto.
  - eapply step_others; eauto.
Qed.

Lemma step_to_owner cx i p s s' q :
  thread_step cx i p s = Some (s', Some q) → owner q = true →
  owner p = true ∨ state_of s = IDLE.
Proof. intros Hs Hi. destruct p; step_cases Hs; auto. Qed.

Lemma step_unique cx i p s s' next ab T :
  thread_step cx i p s = Some (s', next) → T !! i = Some p →
  threads_ok s ab T → owner_unique T → owner_unique (go i next T).
Proof.
  intros Hs Hi Hok Hu.
  assert (∀ q j q', next = Some q → owner q = true → T !! j = Some q' → owner q' = true → i = j)
    as Hnew.
  { intros q j q' -> Hq Hj Hq'. destruct (step_to_owner _ _ _ _ _ _ Hs Hq) as [Hp|Hidle].
    - by eapply Hu.
    - exfalso. by apply (pc_owner _ _ _ _ (Hok j q' Hj) Hq'). }
  intros j k q q' [[<- ->]|[Hij Hj]]%go_lookup [[<- Hk]|[Hik Hk]]%go_lookup Hq Hq'; eauto.
Qed.

(** Closes a disjunction from what held before the step: the same program point,
    the one the moving thread reached, or the state byte. *)
(** Uses the implications whose premise holds in this case. *)
Ltac forward :=
  repeat match goal with
  | H : ?Q → _ |- _ =>
      match type of Q with Prop => idtac end;
      let HQ := fresh in
      assert Q as HQ by (first [assumption|done|state_lia]); specialize (H HQ); clear HQ
  end.

Ltac pick :=
  first
    [ assumption
    | done
    | match goal with Hq : queued _ |- queued _ => exact Hq end
    | state_lia
    | apply some_at_here; reflexivity
    | eapply some_at_go; [eassumption|eassumption|first [left; reflexivity|right; eexists; split; reflexivity]]
    | left; pick
    | right; pick ].

Lemma step_state_ok cx i p s s' next ab T :
  thread_step cx i p s = Some (s', next) → T !! i = Some p →
  threads_ok s ab T → state_ok s ab T → state_ok s' ab (go i next T).
Proof.
  intros Hs Hi Hok Hst. pose proof (Hok i p Hi) as Hp.
  pose proof (step_holds _ _ _ _ _ _ Hs (pc_holds _ _ _ _ Hp)) as Hh.
  pose proof (step_lock _ _ _ _ _ _ Hs) as Hlk.
  assert (∀ j, sh_lock s' = Some j → is_Some (go i next T !! j)) as Hlock.
  { intros j Hj. destruct (decide (i = j)) as [<-|Hne].
    - destruct next; unfold go; [rewrite lookup_insert_eq; by eexists|done].
    - destruct Hst as [_ _ _ _ _ Hl].
      assert (is_Some (T !! j)) as [q Hq] by (apply Hl; destruct Hlk as [<-|[[? ?]|[? ?]]]; congruence).
      exists q. destruct next; unfold go; [by rewrite lookup_insert_ne|by rewrite lookup_delete_ne]. }
  clear Hh Hlk. destruct Hst as [Hr Hrun Hcomp Hret Hcanc _], Hp as [_ Ho Hf Hc Hpub].
  split; [..|exact Hlock]; clear Hlock.
  all: destruct p; step_cases Hs.
  all: try state_lia; try tauto.
  all: intros Hx; try rewrite (proj1 (JoinInner_poll_pending _ _ _ Heqp)) in Hx.
  all: forward; destruct_or?; try solve [pick].
  all: eauto using JoinInner_poll_return, abort_future_return.
Qed.

(** A notification that a step consumes is answered by where the thread goes. *)
Lemma step_notified_ok cx i p s s' next ab T notified :
  thread_step cx i p s = Some (s', next) → T !! i = Some p →
  pc_ok s ab i p → state_ok s ab T →
  notified_ok s T notified → notified_ok s' (go i next T) (note_poll p notified).
Proof.
  intros Hs Hi [_ Ho Hf Hc Hpub] [Hr Hrun Hcomp Hret Hcanc _] Hn Hx.
  unfold notified_ok, cancel_ok in Hn. destruct p; step_cases Hs; try done.
  all: forward; destruct_or?; try solve [pick].
  - destruct (decide (state_of s = COMPLETED)); forward; pick.
  - left. by eapply JoinInner_poll_return.
  - left. by eapply JoinInner_poll_return.
  - left. apply abort_future_return.
Qed.

Lemma step_cancel_ok cx i p s s' next ab T :
  thread_step cx i p s = Some (s', next) → T !! i = Some p →
  pc_ok s ab i p → state_ok s ab T →
  cancel_ok s T → cancel_ok s' (go i next T).
Proof.
  intros Hs Hi [_ Ho Hf Hc Hpub] [Hr Hrun Hcomp Hret Hcanc _] Hn Hx.
  unfold notified_ok, cancel_ok in Hn. destruct p; step_cases Hs; try done.
  all: forward; destruct_or?; try solve [pick].
Qed.

Lemma step_abort_ok cx i p s s' next ab T :
  thread_step cx i p s = Some (s', next) → T !! i = Some p →
  abort_ok s T ab → abort_ok s' (go i next T) ab.
Proof.
  intros Hs Hi Ha Hx. destruct (Ha Hx) as [?|[?|Hat]].
  - destruct (step_final _ _ _ _ _ _ Hs); auto.
  - destruct (step_final _ _ _ _ _ _ Hs); auto.
  - destruct (decide (p = CancelUpdate)) as [->|Hp].
    + step_cases Hs; destruct_or?; pick.
    + right. right. eapply some_at_go; [done|done|]. left. by destruct p.
Qed.

(** A step that stores a result reached a point that publishes it; only a
    cancellation stores [Aborted]. *)
Lemma step_stores cx i p s s' next v :
  thread_step cx i p s = Some (s', next) → is_return (fut_of s) = false →
  fut_of s' = JoinInner_Return v →
  (v = Err JoinError_Aborted → cancelling p = true) ∧
  ∃ q, next = Some q ∧ publishing q = true.
Proof.
  intros Hs Hf Hv. destruct p; step_cases Hs; try by rewrite Hv in Hf.
  - destruct (fut_of s) as [fut|]; [|done]. cbn in *.
    destruct (fut_poll cx fut) as [[[x|]|e] f]; simplify_eq; split; eauto; done.
  - destruct (fut_of s) as [fut|]; [|done]. cbn in *.
    destruct (fut_poll cx fut) as [[[x|]|e] f]; simplify_eq.
  - split; eauto.
Qed.

Lemma step_result_ok cx i p s s' next ab j r :
  thread_step cx i p s = Some (s', next) → pc_ok s ab i p →
  result_ok s j ab r → result_ok s' j ab (note_result (fut_of s) (fut_of s') r).
Proof.
  intros Hs Hp (Hiff & Hab & Hj). destruct (is_return (fut_of s)) eqn:Hr.
  - pose proof (step_return _ _ _ _ _ _ Hs Hr) as Heq. unfold result_ok. rewrite Heq, Hr.
    assert (note_result (fut_of s) (fut_of s) r = r) as -> by (by destruct (fut_of s)). done.
  - assert (r = None) as ->.
    { destruct r; [|done]. assert (false = true) by (apply Hiff; by eexists). done. }
    destruct (fut_of s) as [f|] eqn:Hfs; [|done].
    destruct (fut_of s') as [f'|v] eqn:Hfs'; unfold result_ok; rewrite Hfs'; cbn [note_result is_return].
    + split_and!; [done|done|]. by destruct j.
    + destruct (step_stores _ _ _ _ _ _ v Hs) as [Hv _]; [by rewrite Hfs|done|].
      split_and!; [by split; intros|intros [= ?]; by apply (pc_cancelling _ _ _ _ Hp), Hv|].
      destruct j; try (by intros v' [= ->]). done.
Qed.

Lemma step_registered cx i p s s' next w k :
  thread_step cx i p s = Some (s', next) → registered s w k →
  registered s' w k ∧ (p = RunWake ∨ p = FinWake → w ∈ drop k (sh_woken s')) ∧
  (w ∈ drop k (sh_woken s) → w ∈ drop k (sh_woken s')).
Proof.
  intros Hs [Hk Hw]. destruct p; step_cases Hs.
  all: try (split_and!; [done|intros [?|?]; done|done]).
  all: unfold registered; cbn.
  all: try (rewrite length_app, drop_app_le by done; set_solver by lia).
  all: naive_solver.
Qed.

Lemma step_join_ok cx i p s s' next T j :
  thread_step cx i p s = Some (s', next) → T !! i = Some p →
  join_ok s T j → join_ok s' (go i next T) j.
Proof.
  intros Hs Hi. destruct j as [| | |w k|w k|]; cbn [join_ok]; try done.
  - intros Hreg. by apply (step_registered _ _ _ _ _ _ _ _ Hs Hreg).
  - intros [Hreg Hpub].
    destruct (step_registered _ _ _ _ _ _ _ _ Hs Hreg) as (Hreg' & Hwake & Hmono).
    split; [done|]. intros Hr. destruct (is_return (fut_of s)) eqn:Hrs.
    + destruct (Hpub eq_refl) as [?|Hat]; [by left; apply Hmono|].
      destruct (decide (p = RunWake ∨ p = FinWake)) as [Hp|Hp]; [by left; apply Hwake|].
      right. eapply some_at_go; [done|done|].
      destruct p; step_cases Hs; eauto; naive_solver.
    + right. destruct (fut_of s') as [|v] eqn:Hv; [done|].
      destruct (step_stores _ _ _ _ _ _ v Hs Hrs Hv) as [_ (q & -> & Hq)].
      by apply some_at_here.
Qed.

Lemma step_thread cx st i p s next :
  tinv st → ts_threads st !! i = Some p → thread_step cx i p (ts_sh st) = Some (s, next) →
  tinv (mkT s (go i next (ts_threads st)) (ts_joiner st) (note_poll p (ts_notified st))
          (ts_aborted st) (note_result (fut_of (ts_sh st)) (fut_of s) (ts_result st))).
Proof.
  intros [Hth Hu Hst Hn Hc Ha Hres Hj] Hi Hs. pose proof (Hth i p Hi) as Hp. split; cbn.
  - by eapply step_threads_ok.
  - by eapply step_unique.
  - by eapply step_state_ok.
  - by eapply step_notified_ok.
  - by eapply step_cancel_ok.
  - by eapply step_abort_ok.
  - by eapply step_result_ok.
  - by eapply step_join_ok.
Qed.

(** ** Steps of the joiner *)

(** The joiner only takes a stored result: [Return] stays [Return]. *)
Lemma take_output_spec (t : Task F O P A) :
  (∃ v, t_fut t = JoinInner_Return v ∧
     Task_take_output t Pending =
       (with_fut (JoinInner_Return (Err JoinError_Aborted)) t, Ready_ v)) ∨
  (is_return (t_fut t) = false ∧ Task_take_output t Pending = (t, Pending)).
Proof. unfold Task_take_output. destruct (t_fut t); eauto. Qed.

(** Nothing the threads know depends on which result is stored, nor on the
    waker of the joiner. *)
Lemma threads_ok_equiv s s' ab T :
  state_of s' = state_of s → is_return (fut_of s') = is_return (fut_of s) →
  sh_lock s' = sh_lock s → threads_ok s ab T → threads_ok s' ab T.
Proof.
  intros Hst Hf Hl Hok i p Hi. destruct (Hok i p Hi) as [? ? ? ? ?].
  split; by rewrite ?Hst, ?Hf, ?Hl.
Qed.

Lemma state_ok_equiv s s' ab T :
  state_of s' = state_of s → is_return (fut_of s') = is_return (fut_of s) →
  sh_lock s' = sh_lock s → state_ok s ab T → state_ok s' ab T.
Proof. intros Hst Hf Hl [? ? ? ? ? ?]. split; by rewrite ?Hst, ?Hf, ?Hl. Qed.

Lemma tinv_joiner st s j :
  tinv st →
  state_of s = state_of (ts_sh st) → is_return (fut_of s) = is_return (fut_of (ts_sh st)) →
  sh_lock s = sh_lock (ts_sh st) → sh_linked s = sh_linked (ts_sh st) →
  sh_local s = sh_local (ts_sh st) →
  result_ok s j (ts_aborted st) (ts_result st) → join_ok s (ts_threads st) j →
  tinv (mkT s (ts_threads st) j (ts_notified st) (ts_aborted st) (ts_result st)).
Proof.
  intros [Hth Hu Hst Hn Hc Ha _ _] Es Ef El Eq En Hres Hj. split; cbn; try done.
  - by eapply threads_ok_equiv.
  - by eapply state_ok_equiv.
  - unfold notified_ok, queued. by rewrite Es, Ef, Eq, En.
  - unfold cancel_ok, queued. by rewrite Es, Eq, En.
  - unfold abort_ok. by rewrite Es.
Qed.

Lemma step_joiner st s j :
  tinv st → joiner_step (ts_joiner st) (ts_sh st) = Some (s, j) →
  tinv (mkT s (ts_threads st) j (ts_notified st) (ts_aborted st) (ts_result st)).
Proof.
  intros Hinv Hs. destruct (ti_result _ Hinv) as (Hiff & Hab & Hj). pose proof (ti_join _ Hinv) as Hjo.
  destruct (ts_joiner st) as [|w|w|w k| |]; cbn in Hs; try done.
  - destruct (sh_lock (ts_sh st)) eqn:Hl; [done|].
    destruct (take_output_spec (sh_task (ts_sh st))) as [(v & Hv & Ht)|[Hf Ht]];
      rewrite Ht in Hs; injection Hs as <- <-.
    + apply tinv_joiner; cbn; try done; [by rewrite Hv|].
      split_and!; [by rewrite Hv in Hiff|done|by apply Hj].
    + apply tinv_joiner; cbn; try done.
  - injection Hs as <- <-. apply tinv_joiner; cbn; try done. split; cbn; [done|].
    right. apply aw_last_register.
  - destruct (sh_lock (ts_sh st)) eqn:Hl; [done|].
    destruct (take_output_spec (sh_task (ts_sh st))) as [(v & Hv & Ht)|[Hf Ht]];
      rewrite Ht in Hs; injection Hs as <- <-.
    + apply tinv_joiner; cbn; try done; [by rewrite Hv|].
      split_and!; [by rewrite Hv in Hiff|done|by apply Hj].
    + apply tinv_joiner; cbn; try done. split; [done|]. by rewrite Hf.
Qed.

(** ** Steps of the environment *)

(** The queues change, and threads may start at a point that knows nothing. *)
Lemma tinv_queues st T linked loc notified ab :
  let s := with_queues linked loc (ts_sh st) in
  tinv st →
  (∀ i p, T !! i = Some p →
     ts_threads st !! i = Some p ∨ (ts_threads st !! i = None ∧
       (p = RunClaim ∨ (p = CancelUpdate ∧ ab = true)))) →
  (∀ f, some_at f (ts_threads st) → some_at f T) →
  (∀ i, is_Some (ts_threads st !! i) → is_Some (T !! i)) →
  (ts_aborted st = true → ab = true) →
  (ab = true → ts_aborted st = true ∨ some_at requesting T) →
  (queued (ts_sh st) → queued s ∨ some_at (λ p, bool_decide (p = RunClaim)) T) →
  (notified = true → ts_notified st = true ∨ queued s) →
  tinv (mkT s T (ts_joiner st) notified ab (ts_result st)).
Proof.
  intros s [Hth Hu Hst Hn Hc Ha Hres Hj] HT Hsome Hdom Hab Hreq Hq Hnot.
  assert (∀ f, f RunClaim = true → some_at (λ p, bool_decide (p = RunClaim)) T → some_at f T) as Hclaim.
  { intros f Hf (i & p & Hi & ->%bool_decide_eq_true). by exists i, RunClaim. }
  split; cbn.
  - intros i p Hi. destruct (HT i p Hi) as [Hi'|[Hi' Hp]].
    + destruct (Hth i p Hi') as [? ? ? Hca ?]. split; try done. naive_solver.
    + assert (sh_lock (ts_sh st) ≠ Some i) as Hl.
      { intros Hl. destruct (st_lock _ _ _ Hst i Hl) as [? ?]. congruence. }
      destruct Hp as [->|[-> ?]]; split; cbn; try done; by split.
  - intros i k p q Hi Hk Hp Hq'.
    destruct (HT i p Hi) as [Hi'|[_ [->|[-> _]]]]; [|done..].
    destruct (HT k q Hk) as [Hk'|[_ [->|[-> _]]]]; [|done..]. by eapply Hu.
  - destruct Hst as [? Hrun ? Hret Hcanc Hlock]. split; cbn; eauto.
    intros Hr. destruct (Hret Hr); eauto.
  - intros Hx. destruct (Hnot Hx) as [Hx'|?]; [|by right; left].
    destruct (Hn Hx') as [?|[Hqu|[?|[?|?]]]]; cbn; [by left| |by eauto 10..].
    destruct (Hq Hqu) as [?|?]; [by right; left|]. right; right; left. by apply Hclaim.
  - intros Hx. destruct (Hc Hx) as [Hqu|?]; [|by right; auto].
    destruct (Hq Hqu) as [?|?]; [by left|]. right. by apply Hclaim.
  - intros Hx. destruct (Hreq Hx) as [Hx'|?]; [|by auto]. destruct (Ha Hx') as [?|[?|?]]; auto.
  - destruct Hres as (? & ? & ?). split_and!; auto.
  - destruct (ts_joiner st); cbn in *; try done. destruct Hj as [? Hp]. split; [done|].
    intros Hr. destruct (Hp Hr); auto.
Qed.

Lemma tinv_init fut g : tinv (tsys_init (O := O) (P := P) (A := A) (W := W) fut g).
Proof.
  split; cbn.
  - intros i p. by rewrite lookup_empty.
  - intros i j p q. by rewrite lookup_empty.
  - split; cbn; try done. state_lia.
  - intros _. right. left. destruct g; [by left|right; cbn; lia].
  - done.
  - done.
  - split_and!; [|done|done]. cbn. split; [done|by intros [? ?]].
  - done.
Qed.

Lemma tinv_step cx st st' : tinv st → tsys_step cx st st' → tinv st'.
Proof.
  intros Hinv Hstep. destruct Hstep as [st i p s next Hi Hs|st s j Hs|st w Hw|st|st|st Hl|st i n Hn Hi|st i Hi].
  - by apply (step_thread cx).
  - by apply step_joiner.
  - apply tinv_joiner; try done. destruct (ti_result _ Hinv) as (? & ? & Hj).
    split_and!; [done|done|]. by destruct Hw as [Hw|(? & ? & Hw)]; rewrite Hw in Hj.
  - apply (tinv_queues st _ true _ true _ Hinv); eauto; intros _; [left|right]; by left.
  - apply (tinv_queues st _ _ _ true _ Hinv); eauto; intros _; [left|right]; right; cbn; lia.
  - apply (tinv_queues st _ false _ _ _ Hinv); eauto. intros _. left. right. cbn. lia.
  - apply (tinv_queues st _ _ n _ _ Hinv); eauto.
    + intros j p [[<- <-]|[? ?]]%lookup_insert_Some; eauto.
    + intros f. by apply some_at_insert.
    + intros j. rewrite lookup_insert_is_Some. destruct (decide (i = j)); eauto.
    + intros _. right. exists i, RunClaim. rewrite lookup_insert_eq. by rewrite bool_decide_true.
  - replace (ts_sh st) with (with_queues (sh_linked (ts_sh st)) (sh_local (ts_sh st)) (ts_sh st))
      by (by destruct (ts_sh st)).
    apply (tinv_queues st _ _ _ _ _ Hinv); eauto.
    + intros j p [[<- <-]|[? ?]]%lookup_insert_Some; eauto 10.
    + intros f. by apply some_at_insert.
    + intros j. rewrite lookup_insert_is_Some. destruct (decide (i = j)); eauto.
    + intros _. right. exists i, CancelUpdate. by rewrite lookup_insert_eq.
Qed.

Lemma treachable_inv cx fut st : treachable cx fut st → tinv st.
Proof.
  intros [g Hr]. revert Hr. apply (rtc_ind_r tinv); [apply tinv_init|]. eauto using tinv_step.
Qed.

(** ** Progress *)

(** The number of steps that a thread has left at most. *)
Definition steps_left (p : pc) : nat :=
  match p with
  | RunClaim => 10
  | RunLock => 9
  | RunPoll => 8
  | RunUnlock => 7
  | RunRelease => 6
  | FinLock => 5
  | FinWrite | RunStore => 4
  | FinStore | RunUnlockReady => 3
  | FinUnlock | RunWake | CancelUpdate => 2
  | FinWake | RunReschedule | CancelSchedule => 1
  end.

Lemma thread_step_decreases cx i p s s' q :
  thread_step cx i p s = Some (s', Some q) → (steps_left q < steps_left p ≤ 10)%nat.
Proof. intros Hs. destruct p; step_cases Hs; lia. Qed.

Lemma holder_steps cx i p s : holds p = true → is_Some (thread_step cx i p s).
Proof.
  intros Hp. destruct p; try done; cbn; try by eexists. by destruct (JoinInner_poll _ _).
Qed.

Lemma unlocked_steps cx i p s : sh_lock s = None → is_Some (thread_step cx i p s).
Proof.
  intros Hl. destruct p; cbn; rewrite ?Hl; try by eexists.
  all: try (destruct (try_update _ _) as [[|] ?]; by eexists).
  all: try (destruct (wake_joiner _); by eexists). by destruct (JoinInner_poll _ _).
Qed.
End invariant.
