(* ===== verification/TaskProps.v ===== *)
(** * TaskProps: what the task protocol guarantees

    The properties of the interleavings of [TaskConc]: one poll at a time, no
    lost wake-up, no lost cancellation, no lost join, the result that the joiner
    gets, and progress.  [drive] executes an explicit interleaving; the examples
    use it to exhibit reachable states. *)

From S2P Require Import Prelude JoinHandle Task TaskConc.

Local Open Scope Z_scope.

(** ** Explicit interleavings *)

Inductive action (W : Type) : Type :=
| AThread (i : nat)
| AJoin
| AJoinBegin (w : W)
| AWakeGlobal
| AWakeLocal
| AFetch
| ARun (i : nat)
| AAbort (i : nat).
Arguments AThread {W} i.
Arguments AJoin {W}.
Arguments AJoinBegin {W} w.
Arguments AWakeGlobal {W}.
Arguments AWakeLocal {W}.
Arguments AFetch {W}.
Arguments ARun {W} i.
Arguments AAbort {W} i.

Section drive.
Context {F O P C A W : Type} `{UserFuture F O P C, AtomicWakerOps A W}.
Implicit Types (st : tsys F O P A W).

Definition drive_one (cx : C) (a : action W) (st : tsys F O P A W) : option (tsys F O P A W) :=
  let '(mkT s T j notified aborted r) := st in
  match a with
  | AThread i =>
      p ← T !! i;
      '(s', next) ← thread_step cx i p s;
      Some (mkT s' (go i next T) j (note_poll p notified) aborted
              (note_result (t_fut (sh_task s)) (t_fut (sh_task s')) r))
  | AJoin => '(s', j') ← joiner_step j s; Some (mkT s' T j' notified aborted r)
  | AJoinBegin w =>
      match j with
      | JoinIdle | JoinWaiting _ _ => Some (mkT s T (JoinTake1 w) notified aborted r)
      | _ => None
      end
  | AWakeGlobal => Some (mkT (schedule s) T j true aborted r)
  | AWakeLocal => Some (mkT (with_queues (sh_linked s) (S (sh_local s)) s) T j true aborted r)
  | AFetch =>
      if sh_linked s
      then Some (mkT (with_queues false (S (sh_local s)) s) T j notified aborted r)
      else None
  | ARun i =>
      match sh_local s, T !! i with
      | S n, None =>
          Some (mkT (with_queues (sh_linked s) n s) (<[i := RunClaim]> T) j notified aborted r)
      | _, _ => None
      end
  | AAbort i =>
      match T !! i with
      | None => Some (mkT s (<[i := CancelUpdate]> T) j notified true r)
      | Some _ => None
      end
  end.

Fixpoint drive (cx : C) (l : list (action W)) (st : tsys F O P A W) : option (tsys F O P A W) :=
  match l with
  | [] => Some st
  | a :: l => st' ← drive_one cx a st; drive cx l st'
  end.

Lemma drive_one_step cx a st st' : drive_one cx a st = Some st' → tsys_step cx st st'.
Proof.
  destruct st as [s T j notified aborted r]. destruct a; cbn [drive_one].
  - destruct (T !! i) as [p|] eqn:Hi; [|done]. cbn [mbind option_bind].
    destruct (thread_step cx i p s) as [[s' next]|] eqn:Hs; [|done]. intros [= <-].
    by apply (ts_thread cx (mkT s T j notified aborted r) i p s' next).
  - destruct (joiner_step j s) as [[s' j']|] eqn:Hs; [|done]. intros [= <-].
    by apply (ts_join cx (mkT s T j notified aborted r)).
  - intros Hd. assert (j = JoinIdle ∨ ∃ w' k, j = JoinWaiting w' k) as Hj
      by (destruct j; try done; eauto).
    destruct Hj as [->|(w' & k & ->)]; injection Hd as <-.
    + apply (ts_join_begin cx (mkT s T JoinIdle notified aborted r)). by left.
    + apply (ts_join_begin cx (mkT s T (JoinWaiting w' k) notified aborted r)). right; eauto.
  - intros [= <-]. apply (ts_wake_global cx (mkT s T j notified aborted r)).
  - intros [= <-]. apply (ts_wake_local cx (mkT s T j notified aborted r)).
  - destruct (sh_linked s) eqn:Hl; [|done]. intros [= <-].
    by apply (ts_fetch cx (mkT s T j notified aborted r)).
  - destruct (sh_local s) as [|n] eqn:Hn; [done|]. destruct (T !! i) eqn:Hi; [done|].
    intros [= <-]. by apply (ts_run cx (mkT s T j notified aborted r)).
  - destruct (T !! i) eqn:Hi; [done|]. intros [= <-].
    by apply (ts_abort cx (mkT s T j notified aborted r)).
Qed.

Lemma drive_steps cx l st st' : drive cx l st = Some st' → rtc (tsys_step cx) st st'.
Proof.
  revert st. induction l as [|a l IH]; intros st; cbn [drive].
  - intros [= <-]. done.
  - destruct (drive_one cx a st) as [st1|] eqn:Hd; [|done]. cbn. intros Hl.
    eapply rtc_l; [by eapply drive_one_step|by apply IH].
Qed.

Lemma drive_reachable cx fut g l st :
  drive cx l (tsys_init fut g) = Some st → treachable cx fut st.
Proof. intros Hd. exists g. by eapply drive_steps. Qed.
End drive.

(** ** Properties *)

Section properties.
Context {F O P C A W : Type} `{UserFuture F O P C, AtomicWakerLaws A W}.
Implicit Types (st : tsys F O P A W).

(** C5: the future is never polled by two threads: the thread inside the poll
    is the only one between its claim and its release of the task, it holds the
    mutex, and the future it polls is there unless the task has been completed
    by a cancellation. *)
Theorem task_one_poll_at_a_time cx fut st i j p :
  treachable cx fut st → ts_threads st !! i = Some RunPoll →
  ts_threads st !! j = Some p → i ≠ j →
  owner p = false ∧ holds p = false ∧ sh_lock (ts_sh st) = Some i ∧
  (is_return (t_fut (sh_task (ts_sh st))) = true → t_state (sh_task (ts_sh st)) = COMPLETED).
Proof.
  intros Hinv%treachable_inv Hi Hj Hne.
  pose proof (proj1 (pc_holds _ _ _ _ (ti_threads _ Hinv i _ Hi)) eq_refl) as Hl.
  split_and!; [| |done|].
  - destruct (owner p) eqn:Ho; [|done]. destruct Hne. by eapply (ti_unique _ Hinv).
  - destruct (holds p) eqn:Hh; [|done].
    apply (pc_holds _ _ _ _ (ti_threads _ Hinv j _ Hj)) in Hh. congruence.
  - intros Hr. destruct (st_return _ _ _ (ti_state _ Hinv) Hr) as [?|(k & q & Hk & Hq)]; [done|].
    assert (sh_lock (ts_sh st) = Some k).
    { apply (pc_holds _ _ _ _ (ti_threads _ Hinv k _ Hk)). by destruct q. }
    by simplify_eq.
Qed.

(** C1: no wake-up is lost.  If the task was woken since its last poll began,
    then it is finished, or it is on a queue, or a thread is about to poll it or
    to queue it, or the thread that runs it will see the notification, or the
    cancellation that overtook it will be finished. *)
Theorem task_wake_not_lost cx fut st :
  treachable cx fut st → ts_notified st = true →
  is_return (t_fut (sh_task (ts_sh st))) = true ∨ queued (ts_sh st) ∨
  some_at responding (ts_threads st) ∨
  (t_state (sh_task (ts_sh st)) = NOTIFIED ∧ some_at owner (ts_threads st)) ∨
  (t_state (sh_task (ts_sh st)) = CANCELLED ∧ some_at cancel_responding (ts_threads st)).
Proof.
  intros Hinv%treachable_inv Hn.
  destruct (ti_notified _ Hinv Hn) as [?|[?|[?|[Hs|Hs]]]]; auto.
  - right; right; right; left. split; [done|]. apply (st_running _ _ _ (ti_state _ Hinv)). by right.
  - destruct (ti_cancel _ Hinv Hs) as [?|?]; auto 10.
Qed.

(** C4: when nothing runs the task and it is on no queue, either it waits for a
    wake-up that has not come and nobody asked to abort it, or it is complete
    and its joiner, if one waits, has been woken. *)
Theorem task_quiescent cx fut st :
  treachable cx fut st → ts_threads st = ∅ → ~ queued (ts_sh st) →
  (t_state (sh_task (ts_sh st)) = IDLE ∧ is_return (t_fut (sh_task (ts_sh st))) = false ∧
   ts_notified st = false ∧ ts_aborted st = false) ∨
  (t_state (sh_task (ts_sh st)) = COMPLETED ∧ is_return (t_fut (sh_task (ts_sh st))) = true ∧
   ∀ w k, ts_joiner st = JoinWaiting w k → w ∈ drop k (sh_woken (ts_sh st))).
Proof.
  intros Hinv%treachable_inv HT Hq. pose proof (no_thread _ HT) as Hno.
  destruct (ti_state _ Hinv) as [Hr Hrun Hcomp Hret Hcanc _].
  destruct (is_return (t_fut (sh_task (ts_sh st)))) eqn:Hf; [right|left].
  - destruct (Hret eq_refl) as [?|?]; [|by exfalso; eapply Hno].
    split_and!; [done|done|]. intros w k Hj. pose proof (ti_join _ Hinv) as Hjo.
    rewrite Hj in Hjo. destruct Hjo as [_ Hjo]. rewrite Hf in Hjo.
    destruct (Hjo eq_refl) as [?|?]; [done|by exfalso; eapply Hno].
  - assert (t_state (sh_task (ts_sh st)) ≠ CANCELLED) as Hnc.
    { intros Hs. destruct (ti_cancel _ Hinv Hs) as [?|?]; [done|by eapply Hno]. }
    assert (t_state (sh_task (ts_sh st)) ≠ COMPLETED) by (intros Hs; by apply Hcomp in Hs).
    assert (~ (t_state (sh_task (ts_sh st)) = RUNNING ∨ t_state (sh_task (ts_sh st)) = NOTIFIED))
      by (intros Hs; by eapply Hno, Hrun).
    split_and!; [state_lia|done| |].
    + destruct (ts_notified st) eqn:Hn; [|done]. exfalso.
      destruct (ti_notified _ Hinv Hn) as [?|[?|[?|[?|?]]]]; [congruence|done|by eapply Hno|tauto|done].
    + destruct (ts_aborted st) eqn:Ha; [|done]. exfalso.
      destruct (ti_abort _ Hinv Ha) as [?|[?|?]]; [done|done|by eapply Hno].
Qed.

(** C6: no join is lost: once the result is stored, a joiner that waits has been
    woken, or a thread is on its way to wake it; its registration is in place
    until then. *)
Theorem task_join_not_lost cx fut st w k :
  treachable cx fut st → ts_joiner st = JoinWaiting w k →
  (w ∈ drop k (sh_woken (ts_sh st)) ∨ aw_last (t_waker (sh_task (ts_sh st))) = Some w) ∧
  (is_return (t_fut (sh_task (ts_sh st))) = true →
   w ∈ drop k (sh_woken (ts_sh st)) ∨ some_at publishing (ts_threads st)).
Proof.
  intros Hinv%treachable_inv Hj. pose proof (ti_join _ Hinv) as Hjo. rewrite Hj in Hjo.
  destruct Hjo as [[_ ?] ?]. done.
Qed.

(** C7: the joiner receives the first result that was stored, and [Aborted] only
    if [abort] was called: a task that has completed keeps its result. *)
Theorem task_result_is_first cx fut st r :
  treachable cx fut st → ts_joiner st = JoinDone r →
  ts_result st = Some r ∧ (r = Err JoinError_Aborted → ts_aborted st = true).
Proof.
  intros Hinv%treachable_inv Hj. destruct (ti_result _ Hinv) as (_ & Hab & Hr).
  rewrite Hj in Hr. split; [done|]. intros ->. by apply Hab.
Qed.

(** C8: the protocol cannot get stuck and every operation ends: while a thread is
    inside [run] or [cancel] some thread can take a step, and each step brings
    its thread strictly closer to the end, at most ten steps away. *)
Theorem task_progress cx fut st :
  treachable cx fut st →
  (ts_threads st ≠ ∅ →
   ∃ i p s next, ts_threads st !! i = Some p ∧ thread_step cx i p (ts_sh st) = Some (s, next)) ∧
  (∀ i p s q, thread_step cx i p (ts_sh st) = Some (s, Some q) →
     (steps_left q < steps_left p ≤ 10)%nat).
Proof.
  intros Hinv%treachable_inv. split; [|intros i p s q; apply thread_step_decreases].
  intros HT. destruct (sh_lock (ts_sh st)) as [i|] eqn:Hl.
  - destruct (st_lock _ _ _ (ti_state _ Hinv) i Hl) as [p Hp].
    pose proof (proj2 (pc_holds _ _ _ _ (ti_threads _ Hinv i p Hp)) Hl) as Hh.
    destruct (holder_steps cx i p (ts_sh st) Hh) as ([s next] & Hs). eauto 10.
  - destruct (map_choose _ HT) as (i & p & Hp).
    destruct (unlocked_steps cx i p (ts_sh st) Hl) as ([s next] & Hs). eauto 10.
Qed.
End properties.

(** ** Examples *)

Module Countdown.
Import AtomicWakerRef.

(** A future that is pending [n] times and then returns 42. *)
#[export] Instance countdown : UserFuture nat Z unit unit := λ _ n,
  match n with
  | 0%nat => (Ok (Ready_ 42), 0%nat)
  | S n => (Ok Pending, n)
  end.

Definition start (n : nat) : tsys nat Z unit (option nat) nat := tsys_init n false.

Definition after (n : nat) (l : list (action nat)) : tsys nat Z unit (option nat) nat :=
  default (start n) (drive () l (start n)).

(** Thread 0 polls while thread 1, woken for the same task, begins to run it. *)
Definition polling : list (action nat) :=
  [ARun 0; AThread 0; AThread 0; AWakeLocal; ARun 1].

Lemma polling_reachable : treachable () 1%nat (after 1 polling).
Proof. apply (drive_reachable () 1%nat false polling). vm_compute. reflexivity. Qed.

(** The poll was pending and nothing else happened. *)
Definition idle : list (action nat) :=
  [ARun 0; AThread 0; AThread 0; AThread 0; AThread 0; AThread 0].

Lemma idle_reachable : treachable () 1%nat (after 1 idle).
Proof. apply (drive_reachable () 1%nat false idle). vm_compute. reflexivity. Qed.

(** The joiner waits, then thread 0 polls the future to completion. *)
Definition joining : list (action nat) :=
  [AJoinBegin 7%nat; AJoin; AJoin; AJoin; ARun 0; AThread 0; AThread 0; AThread 0].

Lemma joining_reachable : treachable () 0%nat (after 0 joining).
Proof. apply (drive_reachable () 0%nat false joining). vm_compute. reflexivity. Qed.

(** Thread 0 wakes the joiner, which polls again. *)
Definition joined : list (action nat) :=
  joining ++ [AThread 0; AThread 0; AThread 0; AJoinBegin 8%nat; AJoin].

Lemma joined_reachable : treachable () 0%nat (after 0 joined).
Proof. apply (drive_reachable () 0%nat false joined). vm_compute. reflexivity. Qed.
End Countdown.

Import AtomicWakerRef Countdown.

Lemma task_one_poll_at_a_time_witness :
  owner RunClaim = false ∧ holds RunClaim = false ∧
  sh_lock (ts_sh (after 1 polling)) = Some 0%nat ∧
  (is_return (t_fut (sh_task (ts_sh (after 1 polling)))) = true →
   t_state (sh_task (ts_sh (after 1 polling))) = COMPLETED).
Proof.
  apply (task_one_poll_at_a_time () 1%nat (after 1 polling) 0 1 RunClaim polling_reachable);
    [vm_compute; reflexivity|vm_compute; reflexivity|lia].
Defined.

Lemma task_wake_not_lost_witness :
  is_return (t_fut (sh_task (ts_sh (after 1 polling)))) = true ∨ queued (ts_sh (after 1 polling)) ∨
  some_at responding (ts_threads (after 1 polling)) ∨
  (t_state (sh_task (ts_sh (after 1 polling))) = NOTIFIED ∧
   some_at owner (ts_threads (after 1 polling))) ∨
  (t_state (sh_task (ts_sh (after 1 polling))) = CANCELLED ∧
   some_at cancel_responding (ts_threads (after 1 polling))).
Proof.
  apply (task_wake_not_lost () 1%nat (after 1 polling) polling_reachable).
  vm_compute. reflexivity.
Defined.

Lemma task_quiescent_witness :
  (t_state (sh_task (ts_sh (after 1 idle))) = IDLE ∧
   is_return (t_fut (sh_task (ts_sh (after 1 idle)))) = false ∧
   ts_notified (after 1 idle) = false ∧ ts_aborted (after 1 idle) = false) ∨
  (t_state (sh_task (ts_sh (after 1 idle))) = COMPLETED ∧
   is_return (t_fut (sh_task (ts_sh (after 1 idle)))) = true ∧
   ∀ w k, ts_joiner (after 1 idle) = JoinWaiting w k → w ∈ drop k (sh_woken (ts_sh (after 1 idle)))).
Proof.
  apply (task_quiescent () 1%nat (after 1 idle) idle_reachable).
  - vm_compute. reflexivity.
  - intros [Hq|Hq]; vm_compute in Hq; [done|lia].
Defined.

Lemma task_join_not_lost_witness :
  (7%nat ∈ drop 0 (sh_woken (ts_sh (after 0 joining))) ∨
   aw_last (t_waker (sh_task (ts_sh (after 0 joining)))) = Some 7%nat) ∧
  (is_return (t_fut (sh_task (ts_sh (after 0 joining)))) = true →
   7%nat ∈ drop 0 (sh_woken (ts_sh (after 0 joining))) ∨
   some_at publishing (ts_threads (after 0 joining))).
Proof.
  apply (task_join_not_lost () 0%nat (after 0 joining) 7%nat 0%nat joining_reachable).
  vm_compute. reflexivity.
Defined.

Lemma task_result_is_first_witness :
  ts_result (after 0 joined) = Some (Ok 42) ∧
  ((Ok 42 : result Z (JoinError unit)) = Err JoinError_Aborted → ts_aborted (after 0 joined) = true).
Proof.
  apply (task_result_is_first () 0%nat (after 0 joined) (Ok 42) joined_reachable).
  vm_compute. reflexivity.
Defined.

Lemma task_progress_witness :
  (ts_threads (after 1 polling) ≠ ∅ →
   ∃ i p s next, ts_threads (after 1 polling) !! i = Some p ∧
     thread_step () i p (ts_sh (after 1 polling)) = Some (s, next)) ∧
  (∀ i p s q, thread_step () i p (ts_sh (after 1 polling)) = Some (s, Some q) →
     (steps_left q < steps_left p ≤ 10)%nat).
Proof. apply (task_progress () 1%nat (after 1 polling) polling_reachable). Defined.

Lemma task_steps_are_the_code_witness :
  thread_run 10 () 0 RunClaim (ts_sh (start 1)) =
    Done (apply_effects (Task_run () (sh_task (ts_sh (start 1)))) (ts_sh (start 1))) ∧
  thread_run 10 () 0 CancelUpdate (ts_sh (start 1)) =
    Done (apply_effects (Task_cancel (sh_task (ts_sh (start 1)))) (ts_sh (start 1))).
Proof. apply (task_steps_are_the_code 10 () 0 (ts_sh (start 1))); [lia|reflexivity]. Defined.
