(* ===== verification/LinkedList.v ===== *)
(** * LinkedList: the intrusive links of tasks
      (src/src/linked_list.rs; the [FatLinked] impl of src/src/task.rs)

    A task embeds a [FatLink], which embeds the [AtomicLink] of
    [intrusive_collections].  Pointers are addresses; the projections between a
    task, its link and the inner link add and subtract field offsets.  The
    crate's operations on inner links are a record of operations [link_ops] with
    laws [link_laws]; the program's [FatLinkOps] are such a record for fat
    links, and its [TaskAdapter] recovers a task from its link by the callback
    that the link carries. *)

From S2P Require Import Prelude.

Local Open Scope Z_scope.

(** ** The interface of intrusive links *)

(** [LinkOps] and [LinkedListOps]: [M] is the memory that the links live in. *)
Record link_ops (M : Type) : Type := mkLinkOps {
  acquire_link : Z → M → bool * M;
  release_link : Z → M → M;
  next : Z → M → option Z;
  prev : Z → M → option Z;
  set_next : Z → option Z → M → M;
  set_prev : Z → option Z → M → M;
}.
Arguments mkLinkOps {M}.
Arguments acquire_link {M}.
Arguments release_link {M}.
Arguments next {M}.
Arguments prev {M}.
Arguments set_next {M}.
Arguments set_prev {M}.

(** The documented behaviour: [acquire_link] succeeds exactly on a link that is
    in no list, a refused link is left alone, and the pointers that were set are
    read back. *)
Record link_laws {M : Type} (linked : Z → M → bool) (ops : link_ops M) : Prop := {
  acquire_result p m : (acquire_link ops p m).1 = negb (linked p m);
  acquire_links p m : linked p (acquire_link ops p m).2 = true;
  acquire_refused p m : linked p m = true → (acquire_link ops p m).2 = m;
  release_unlinks p m : linked p (release_link ops p m) = false;
  next_set_next p q n m :
    next ops p (set_next ops q n m) = if decide (p = q) then n else next ops p m;
  prev_set_prev p q n m :
    prev ops p (set_prev ops q n m) = if decide (p = q) then n else prev ops p m;
}.

(** ** Definitions *)

(** [FatLink::to_link] and [FatLink::from_link]; [offset] is
    [offset_of!(FatLink<D>, link)]. *)
Definition to_link (offset ptr : Z) : Z := ptr + offset.
Definition from_link (offset link : Z) : Z := link - offset.

(** [FatLinkOps]: every operation projects and delegates. *)
Definition FatLinkOps {M} (offset : Z) (ops : link_ops M) : link_ops M := {|
  acquire_link ptr m := acquire_link ops (to_link offset ptr) m;
  release_link ptr m := release_link ops (to_link offset ptr) m;
  next ptr m := from_link offset <$> next ops (to_link offset ptr) m;
  prev ptr m := from_link offset <$> prev ops (to_link offset ptr) m;
  set_next ptr n m := set_next ops (to_link offset ptr) (to_link offset <$> n) m;
  set_prev ptr n m := set_prev ops (to_link offset ptr) (to_link offset <$> n) m;
|}.

(** [DefaultLinkOps for FatLink]: [NEW] wraps the operations of [AtomicLink]; the
    struct is [Copy], and its default is [NEW]. *)
Definition FatLink_NEW {M} (offset : Z) (atomic : link_ops M) : link_ops M := FatLinkOps offset atomic.
Definition FatLinkOps_clone {M} (self : link_ops M) : link_ops M := self.
Definition FatLinkOps_default {M} (offset : Z) (atomic : link_ops M) : link_ops M := FatLink_NEW offset atomic.

(** [FatLink::is_linked]. *)
Definition FatLink_is_linked {M} (offset : Z) (linked : Z → M → bool) (ptr : Z) (m : M) : bool :=
  linked (to_link offset ptr) m.

(** The concrete type behind a [dyn DynTask]: where its link is, and its vtable. *)
Record task_type : Type := mkTaskType { link_offset : Z; vtable : nat }.

(** [*const dyn DynTask]: an address with its metadata. *)
Record dyn_task : Type := mkDyn { dyn_address : Z; dyn_type : task_type }.

(** [<Task<F> as FatLinked>::get_link] and [get_value]. *)
Definition Task_get_link (ty : task_type) (self : Z) : Z := self + link_offset ty.
Definition Task_get_value (ty : task_type) (ptr : Z) : dyn_task :=
  mkDyn (ptr - link_offset ty) ty.

(** [FatLink]: the callback that recovers the task ([FatLink::new]). *)
Record FatLink : Type := mkFatLink { get_value : Z → dyn_task }.

Definition FatLink_new (ty : task_type) : FatLink := mkFatLink (Task_get_value ty).

(** [TaskAdapter]: the operations on links and, of the type [PO], those on owning
    pointers. *)
Record TaskAdapter (M PO : Type) : Type := mkTaskAdapter {
  ta_link_ops : link_ops M;
  ta_pointer_ops : PO;
}.
Arguments mkTaskAdapter {M PO}.
Arguments ta_link_ops {M PO}.
Arguments ta_pointer_ops {M PO}.

Section adapter.
Context {M PO : Type} (offset : Z) (atomic : link_ops M) (arc_ops : PO).

Definition TaskAdapter_NEW : TaskAdapter M PO := mkTaskAdapter (FatLink_NEW offset atomic) arc_ops.
Definition TaskAdapter_new : TaskAdapter M PO := TaskAdapter_NEW.
Definition TaskAdapter_default : TaskAdapter M PO := TaskAdapter_NEW.

Definition TaskAdapter_link_ops (self : TaskAdapter M PO) : link_ops M := ta_link_ops self.
Definition TaskAdapter_link_ops_mut (self : TaskAdapter M PO) : link_ops M := ta_link_ops self.
Definition TaskAdapter_pointer_ops (self : TaskAdapter M PO) : PO := ta_pointer_ops self.
End adapter.

(** [<TaskAdapter as Adapter>]: [get_value] reads the callback in the link,
    [get_link] dispatches on the metadata of the pointer. *)
Definition TaskAdapter_get_value (memory : gmap Z FatLink) (link : Z) : option dyn_task :=
  cell ← memory !! link;
  Some (get_value cell link).

Definition TaskAdapter_get_link (value : dyn_task) : Z :=
  Task_get_link (dyn_type value) (dyn_address value).

(** [Task::allocate]: a new task puts its link, with its own callback, in memory. *)
Definition allocate (value : dyn_task) (memory : gmap Z FatLink) : gmap Z FatLink :=
  <[TaskAdapter_get_link value := FatLink_new (dyn_type value)]> memory.

(** ** Properties *)

Lemma link_round_trip offset p :
  from_link offset (to_link offset p) = p ∧ to_link offset (from_link offset p) = p.
Proof. unfold from_link, to_link. lia. Qed.

Lemma option_round_trip offset (n : option Z) : from_link offset <$> (to_link offset <$> n) = n.
Proof. destruct n; cbn; [|done]. by rewrite (proj1 (link_round_trip _ _)). Qed.

(** The operations of a new adapter promise on fat links what the crate's [AtomicLinkOps]
    promise on inner links: acquisition, release and the two chains of pointers
    behave alike.  And the adapter recovers every live task from its link, with
    the address and the type it was allocated with, however many tasks of
    whatever types live beside it at other addresses. *)
Theorem fat_links_faithful {M PO} offset (linked : Z → M → bool) (ops : link_ops M) (arc_ops : PO)
    (tasks : list dyn_task) t :
  link_laws linked ops → NoDup (TaskAdapter_get_link <$> tasks) → t ∈ tasks →
  link_laws (FatLink_is_linked offset linked)
    (TaskAdapter_link_ops (TaskAdapter_new offset ops arc_ops)) ∧
  TaskAdapter_get_value (foldr allocate ∅ tasks) (TaskAdapter_get_link t) = Some t.
Proof.
  intros [Hres Hlk Href Hrel Hnext Hprev] Hnd Ht. split.
  - split; cbn; intros; unfold FatLink_is_linked in *; eauto.
    + rewrite Hnext. destruct (decide (p = q)) as [->|Hne].
      * rewrite decide_True by done. apply option_round_trip.
      * rewrite decide_False; [done|]. unfold to_link. lia.
    + rewrite Hprev. destruct (decide (p = q)) as [->|Hne].
      * rewrite decide_True by done. apply option_round_trip.
      * rewrite decide_False; [done|]. unfold to_link. lia.
  - unfold TaskAdapter_get_value.
    assert (foldr allocate ∅ tasks !! TaskAdapter_get_link t = Some (FatLink_new (dyn_type t))) as ->.
    { induction tasks as [|u tasks IH]; [by apply not_elem_of_nil in Ht|]. cbn in *.
      apply NoDup_cons in Hnd as [Hni Hnd]. unfold allocate at 1.
      apply elem_of_cons in Ht as [->|Ht]; [by rewrite lookup_insert_eq|].
      rewrite lookup_insert_ne; [by apply IH|]. intros Heq. apply Hni. rewrite Heq.
      apply list_elem_of_fmap. eauto. }
    cbn. unfold Task_get_value, TaskAdapter_get_link, Task_get_link. destruct t as [a ty]. cbn.
    do 2 f_equal. lia.
Qed.

(** ** An instance of the links *)

Module LinkRef.
(** Which links are linked, and the two pointers of each. *)
Record memory : Type := mkMemory {
  m_linked : gmap Z unit;
  m_next : gmap Z (option Z);
  m_prev : gmap Z (option Z);
}.

Definition linked (p : Z) (m : memory) : bool := bool_decide (m_linked m !! p = Some ()).

Definition ops : link_ops memory := {|
  acquire_link p m :=
    if linked p m then (false, m)
    else (true, mkMemory (<[p := ()]> (m_linked m)) (m_next m) (m_prev m));
  release_link p m := mkMemory (delete p (m_linked m)) (m_next m) (m_prev m);
  next p m := default None (m_next m !! p);
  prev p m := default None (m_prev m !! p);
  set_next p n m := mkMemory (m_linked m) (<[p := n]> (m_next m)) (m_prev m);
  set_prev p n m := mkMemory (m_linked m) (m_next m) (<[p := n]> (m_prev m));
|}.

Lemma ops_laws : link_laws linked ops.
Proof.
  split; cbn; intros.
  - by destruct (linked p m).
  - destruct (linked p m) eqn:Hl; [done|]. unfold linked. cbn. by rewrite lookup_insert_eq.
  - by destruct (linked p m).
  - unfold linked. cbn. by rewrite lookup_delete_eq.
  - case_decide as Heq; [subst; by rewrite lookup_insert_eq|]. by rewrite lookup_insert_ne.
  - case_decide as Heq; [subst; by rewrite lookup_insert_eq|]. by rewrite lookup_insert_ne.
Qed.
End LinkRef.

Lemma fat_links_faithful_witness :
  link_laws (FatLink_is_linked 8 LinkRef.linked) (TaskAdapter_link_ops (TaskAdapter_new 8 LinkRef.ops ())) ∧
  TaskAdapter_get_value
    (foldr allocate ∅ [mkDyn 1000 (mkTaskType 16 1); mkDyn 2000 (mkTaskType 24 2)]) 2024 =
  Some (mkDyn 2000 (mkTaskType 24 2)).
Proof.
  apply (fat_links_faithful 8 LinkRef.linked LinkRef.ops ()
    [mkDyn 1000 (mkTaskType 16 1); mkDyn 2000 (mkTaskType 24 2)] (mkDyn 2000 (mkTaskType 24 2))).
  - apply LinkRef.ops_laws.
  - apply (bool_decide_unpack _). vm_compute. exact I.
  - right. left.
Defined.
