(* ===== verification/Executor.v ===== *)
(** * Executor: the runtime, its workers and their queues
      (src/src/lib.rs; [schedule_global] of src/src/task.rs)

    The runtime owns the global queue, the workers and the queue of parked
    workers; a worker owns a local queue.  The intrusive list of
    [intrusive_collections] that is the global queue is a parameter
    ([TaskList]).  A turn of [run_forever] is split where it blocks or calls
    into a task: [next_task] chooses what to run, [park_begin] and [park_end]
    are the two sides of the wait on the condition variable. *)

From S2P Require Import Prelude SlotMap SlotMapConc JoinHandle.

(** ** The global queue *)

(** [intrusive_collections::LinkedList]; [push_back] panics on a linked object. *)
Class TaskList (G T : Type) : Type := {
  tl_new : G;
  tl_is_linked : T → G → bool;
  tl_push_back : T → G → outcome G;
  tl_pop_front : G → option T * G;
}.

Class TaskListLaws (G T : Type) `{EqDecision T, TaskList G T} : Type := {
  (** the tasks from front to back *)
  tl_view : G → list T;
  tl_new_view : tl_view tl_new = [];
  tl_is_linked_view t g : tl_is_linked t g = bool_decide (t ∈ tl_view g);
  tl_push_back_linked t g : t ∈ tl_view g → tl_push_back t g = Panic;
  tl_push_back_view t g :
    t ∉ tl_view g → ∃ g', tl_push_back t g = Done g' ∧ tl_view g' = tl_view g ++ [t];
  tl_pop_front_view g : ∃ g',
    tl_pop_front g = (hd_error (tl_view g), g') ∧ tl_view g' = tl (tl_view g);
}.

Module TaskListRef.
Section ref.
Context {T : Type} `{EqDecision T}.

#[export] Instance list_ops : TaskList (list T) T := {|
  tl_new := [];
  tl_is_linked t g := bool_decide (t ∈ g);
  tl_push_back t g := if decide (t ∈ g) then Panic else Done (g ++ [t]);
  tl_pop_front g := (hd_error g, tl g);
|}.

#[export] Program Instance list_laws : TaskListLaws (list T) T := {| tl_view := id |}.
Next Obligation. done. Qed.
Next Obligation. done. Qed.
Next Obligation. intros t g Hin. cbn in *. by rewrite decide_True. Qed.
Next Obligation. intros t g Hin. cbn in *. rewrite decide_False by done. eauto. Qed.
Next Obligation. intros g. eauto. Qed.
End ref.
End TaskListRef.

(** ** Definitions *)

(** [VecDeque]: its elements and its capacity.  A push into a full deque makes
    room; by how much is not specified. *)
Record VecDeque (T : Type) : Type := mkVecDeque { vd_items : list T; vd_capacity : nat }.
Arguments mkVecDeque {T}.
Arguments vd_items {T}.
Arguments vd_capacity {T}.

Definition vd_push_back {T} (grow : nat → nat) (t : T) (q : VecDeque T) : VecDeque T :=
  mkVecDeque (vd_items q ++ [t])
    (if decide (length (vd_items q) < vd_capacity q) then vd_capacity q else grow (vd_capacity q)).

Definition vd_pop_front {T} (q : VecDeque T) : option T * VecDeque T :=
  (hd_error (vd_items q), mkVecDeque (tl (vd_items q)) (vd_capacity q)).

(** [enum WorkerThreadWaker]. *)
Inductive WorkerThreadWaker : Type := Parked.

(** [notified] counts the notifications of the worker's condition variable. *)
Record Worker : Type := mkWorker {
  parker : option WorkerThreadWaker;
  notified : nat;
}.

Section runtime.
Context {G T : Type} `{EqDecision T, TaskList G T}.

(** [io_wakes] counts the calls of [io_handle.wake()]. *)
Record MTRuntime : Type := mkRuntime {
  global_queue : G;
  workers : option (list Worker);
  parked_workers : SyncSlotMap;
  io_wakes : nat;
}.

Record ExecutorHandle : Type := mkExecutor {
  worker_index : Z;
  local_queue : VecDeque T;
}.

Definition with_global (g : G) (rt : MTRuntime) : MTRuntime :=
  mkRuntime g (workers rt) (parked_workers rt) (io_wakes rt).
Definition with_workers (ws : list Worker) (rt : MTRuntime) : MTRuntime :=
  mkRuntime (global_queue rt) (Some ws) (parked_workers rt) (io_wakes rt).
Definition with_parked (m : SyncSlotMap) (rt : MTRuntime) : MTRuntime :=
  mkRuntime (global_queue rt) (workers rt) m (io_wakes rt).
Definition with_io_wake (rt : MTRuntime) : MTRuntime :=
  mkRuntime (global_queue rt) (workers rt) (parked_workers rt) (S (io_wakes rt)).
Definition with_local (q : VecDeque T) (e : ExecutorHandle) : ExecutorHandle :=
  mkExecutor (worker_index e) q.

(** [init_workers]: [n] workers, none of them parked.  [Threads] has the steps of
    the main thread and of the threads that it starts. *)
Definition init_workers (n : nat) (rt : MTRuntime) : MTRuntime :=
  with_workers (replicate n (mkWorker None 0)) rt.

Definition MTRuntime_new (n : nat) : MTRuntime :=
  init_workers n (mkRuntime tl_new None (SyncSlotMap_new n) 0).

(** [MTRuntime::thread_per_core]; [cores] is the result of
    [available_parallelism]. *)
Definition MTRuntime_thread_per_core {E} (cores : result nat E) : outcome MTRuntime :=
  match cores with Ok n => mret (MTRuntime_new n) | Err _ => Panic end.

(** The [loop] of [schedule_global] that looks for a worker to wake. *)
Definition wake_worker_turn (rt : MTRuntime) : outcome (ctl MTRuntime MTRuntime) :=
  '(r, m) ← SyncSlotMapLock_pop (parked_workers rt);
  let rt := with_parked m rt in
  match r with
  | ReadySlot_Ready index =>
      ws ← unwrap (workers rt);
      worker ← unwrap (ws !! index);
      match parker worker with
      | Some Parked =>
          mret (Break (with_workers (<[index := mkWorker None (S (notified worker))]> ws) rt))
      | None => mret (Continue rt)
      end
  | _ => mret (Break (with_io_wake rt))
  end.

(** [locked] says that another thread holds the lock of the parked workers. *)
Definition schedule_global (fuel : nat) (locked : bool) (task : T) (rt : MTRuntime)
    : outcome MTRuntime :=
  g ← if tl_is_linked task (global_queue rt) then mret (global_queue rt)
      else tl_push_back task (global_queue rt);
  let rt := with_global g rt in
  match SyncSlotMap_try_lock locked (parked_workers rt) with
  | Some _ => loop fuel wake_worker_turn rt
  | None => mret rt
  end.

Definition schedule_local (fuel : nat) (locked : bool) (grow : nat → nat) (task : T)
    (self : ExecutorHandle) (rt : MTRuntime) : outcome (ExecutorHandle * MTRuntime) :=
  let queue := local_queue self in
  if decide (length (vd_items queue) < vd_capacity queue) then
    mret (with_local (vd_push_back grow task queue) self, rt)
  else
    rt ← schedule_global fuel locked task rt;
    mret (self, rt).

Definition get_local_task (self : ExecutorHandle) : option T * ExecutorHandle :=
  let '(t, queue) := vd_pop_front (local_queue self) in
  (t, with_local queue self).

(** [for _ in 0..n { if let Some(next) = global.pop_front() { queue.push_back(next) } }] *)
Fixpoint move_tasks (n : nat) (grow : nat → nat) (global : G) (queue : VecDeque T)
    : G * VecDeque T :=
  match n with
  | O => (global, queue)
  | S n =>
      match tl_pop_front global with
      | (Some next, global) => move_tasks n grow global (vd_push_back grow next queue)
      | (None, global) => move_tasks n grow global queue
      end
  end.

Definition get_many_global_tasks (grow : nat → nat) (self : ExecutorHandle) (rt : MTRuntime)
    : option T * ExecutorHandle * MTRuntime :=
  let '(global, queue) := move_tasks 4 grow (global_queue rt) (local_queue self) in
  let '(t, queue) := vd_pop_front queue in
  (t, with_local queue self, with_global global rt).

(** The choice at the top of the loop of [run_forever], with the new counter. *)
Definition next_task (grow : nat → nat) (counter : Z) (self : ExecutorHandle) (rt : MTRuntime)
    : option T * Z * ExecutorHandle * MTRuntime :=
  let counter := usize_wrapping_add counter 1 in
  let '(task, self) :=
    if decide ((counter mod 31 ≠ 0)%Z ∨ 16 < length (vd_items (local_queue self)))
    then get_local_task self
    else (None, self) in
  match task with
  | Some task => (Some task, counter, self, rt)
  | None =>
      let '(task, self, rt) := get_many_global_tasks grow self rt in
      (task, counter, self, rt)
  end.

(** What the worker does next. *)
Inductive run_action : Type :=
| RunTask (t : T)
| PollIo
| Park.

(** [io_free] says whether [io_driver.try_lock()] succeeds. *)
Definition run_forever_turn (grow : nat → nat) (io_free : bool) (counter : Z)
    (self : ExecutorHandle) (rt : MTRuntime) : run_action * Z * ExecutorHandle * MTRuntime :=
  let '(task, counter, self, rt) := next_task grow counter self rt in
  (match task with
   | Some task => RunTask task
   | None => if io_free then PollIo else Park
   end, counter, self, rt).

(** Parking up to the wait, and what the worker does when the wait returns,
    because it was notified or spuriously. *)
Definition park_begin (index : nat) (rt : MTRuntime) : outcome MTRuntime :=
  ws ← unwrap (workers rt);
  worker ← unwrap (ws !! index);
  rt ← match parker worker with
       | None => m ← SyncSlotMap_push (parked_workers rt) index; mret (with_parked m rt)
       | Some _ => mret rt
       end;
  mret (with_workers (<[index := mkWorker (Some Parked) (notified worker)]> ws) rt).

Definition park_end (index : nat) (rt : MTRuntime) : outcome MTRuntime :=
  ws ← unwrap (workers rt);
  worker ← unwrap (ws !! index);
  mret (with_workers (<[index := mkWorker None (notified worker)]> ws) rt).

(** *** The current executor

    The thread-local [HANDLE]: the executor of this thread, with the identity of
    the runtime it belongs to ([Arc::ptr_eq]). *)
Definition current : Type := option (nat * ExecutorHandle).

(** [<Task as ArcWake>::wake_by_ref] and the end of [MTRuntime::spawn]: the local
    queue of a worker of runtime [id], or the global queue. *)
Definition schedule_on (fuel : nat) (locked : bool) (grow : nat → nat) (id : nat) (task : T)
    (h : current) (rt : MTRuntime) : outcome (current * MTRuntime) :=
  match h with
  | Some (id', exe) =>
      if decide (id' = id) then
        '(exe, rt) ← schedule_local fuel locked grow task exe rt;
        mret (Some (id', exe), rt)
      else
        rt ← schedule_global fuel locked task rt;
        mret (h, rt)
  | None =>
      rt ← schedule_global fuel locked task rt;
      mret (h, rt)
  end.

Definition wake_by_ref := schedule_on.
Definition MTRuntime_spawn := schedule_on.

(** [ExecutorHandle::spawn], with the task that [JoinHandle::new] allocated. *)
Definition ExecutorHandle_spawn (fuel : nat) (locked : bool) (grow : nat → nat) (task : T)
    (self : ExecutorHandle) (rt : MTRuntime) : outcome (ExecutorHandle * MTRuntime) :=
  schedule_local fuel locked grow task self rt.

(** The free function [spawn], which needs a current executor. *)
Definition spawn (fuel : nat) (locked : bool) (grow : nat → nat) (task : T) (h : current)
    (rt : MTRuntime) : outcome (current * MTRuntime) :=
  '(id, exe) ← unwrap h;
  '(exe, rt) ← ExecutorHandle_spawn fuel locked grow task exe rt;
  mret (Some (id, exe), rt).
End runtime.

Arguments MTRuntime : clear implicits.
Arguments ExecutorHandle : clear implicits.
Arguments run_action : clear implicits.
Arguments current : clear implicits.

(** *** Blocking on a future *)

Section block_on.
Context {F O P C T : Type} `{UserFuture F O P C}.

(** The [loop] of [block_on]: polls, and parks the thread while pending.  [Err]
    is a panic of the future, which unwinds through [block_on]. *)
Definition block_on_turn (cx : C) (f : F) : outcome (ctl F (result O P)) :=
  let '(r, f) := fut_poll cx f in
  match r with
  | Ok (Ready_ v) => mret (Break (Ok v))
  | Ok Pending => mret (Continue f)
  | Err panic => mret (Break (Err panic))
  end.

(** [cx] is what the future sees of the thread, the current executor included.
    The executor that [block_on] installs has no room for local tasks; the drop
    guard takes it away again, also when the future panics. *)
Definition block_on (fuel : nat) (cx : current T → C) (id : nat) (f : F) (h : current T)
    : outcome (result O P) * current T :=
  match h with
  | Some _ => (Panic, h)
  | None =>
      let fake_exec := mkExecutor usize_max (mkVecDeque [] 0) in
      (loop fuel (block_on_turn (cx (Some (id, fake_exec)))) f, None)
  end.
End block_on.


(** ** Choosing a task *)

Section queues.
Context {G T : Type} `{EqDecision T, TaskList G T, !TaskListLaws G T}.
Implicit Types (e : ExecutorHandle T) (rt : MTRuntime G).

Lemma move_tasks_spec n grow g (q : VecDeque T) :
  let '(g', q') := move_tasks n grow g q in
  tl_view g' = drop n (tl_view g) ∧ vd_items q' = vd_items q ++ take n (tl_view g) ∧
  (length (vd_items q) + n ≤ vd_capacity q → vd_capacity q' = vd_capacity q).
Proof.
  revert g q. induction n as [|n IH]; intros g q; cbn [move_tasks].
  { by rewrite drop_0, take_0, app_nil_r. }
  destruct (tl_pop_front_view g) as (g1 & Hp & Hv). rewrite Hp.
  destruct (tl_view g) as [|t ts] eqn:Hg; cbn [hd_error tl] in *.
  - specialize (IH g1 q). destruct (move_tasks n grow g1 q) as [g' q'].
    rewrite Hv, drop_nil, take_nil in IH. destruct IH as (? & ? & Hc).
    split_and!; [done|done|]. intros ?. apply Hc. lia.
  - specialize (IH g1 (vd_push_back grow t q)).
    destruct (move_tasks n grow g1 (vd_push_back grow t q)) as [g' q'].
    rewrite Hv in IH. destruct IH as (Hd & Hi & Hc). cbn [vd_push_back vd_items vd_capacity] in *.
    split_and!; [done|by rewrite Hi, <- app_assoc|].
    intros Hlen. rewrite decide_True in Hc by lia. apply Hc. rewrite length_app. cbn. lia.
Qed.

Lemma get_many_spec grow e rt :
  let '(t, e', rt') := get_many_global_tasks grow e rt in
  option_list t ++ vd_items (local_queue e') =
    vd_items (local_queue e) ++ take 4 (tl_view (global_queue rt)) ∧
  tl_view (global_queue rt') = drop 4 (tl_view (global_queue rt)) ∧
  rt' = with_global (global_queue rt') rt ∧
  (length (vd_items (local_queue e)) + 4 ≤ vd_capacity (local_queue e) →
   vd_capacity (local_queue e') = vd_capacity (local_queue e)).
Proof.
  unfold get_many_global_tasks.
  pose proof (move_tasks_spec 4 grow (global_queue rt) (local_queue e)) as Hm.
  destruct (move_tasks 4 grow (global_queue rt) (local_queue e)) as [g' q'].
  destruct Hm as (Hd & Hi & Hc). cbn. split_and!; [|done|done|done].
  rewrite <- Hi. by destruct (vd_items q').
Qed.

Lemma get_many_none grow e rt e' rt' :
  get_many_global_tasks grow e rt = (None, e', rt') →
  vd_items (local_queue e) = [] ∧ tl_view (global_queue rt) = [] ∧ tl_view (global_queue rt') = [].
Proof.
  intros Hgm. pose proof (get_many_spec grow e rt) as Hm. rewrite Hgm in Hm.
  destruct Hm as (Hi & Hg & _).
  assert (vd_items (local_queue e') = []) as Hn.
  { revert Hgm. unfold get_many_global_tasks. destruct (move_tasks 4 grow _ _) as [g' [[|x xs] cap]];
      cbn; intros; by simplify_eq. }
  cbn in Hi. rewrite Hn in Hi. symmetry in Hi. apply app_eq_nil in Hi as [Hl Hv].
  assert (tl_view (global_queue rt) = []) as Hnil.
  { destruct (tl_view (global_queue rt)); [done|]. by rewrite firstn_cons in Hv. }
  by rewrite Hg, Hnil.
Qed.

(** The global queue is looked at. *)
Definition asks_global (counter : Z) e : Prop :=
  (counter mod 31 = 0)%Z ∧ length (vd_items (local_queue e)) ≤ 16 ∨
  vd_items (local_queue e) = [].

Lemma next_task_cases grow counter e rt :
  let c := usize_wrapping_add counter 1 in
  (∃ t ts, vd_items (local_queue e) = t :: ts ∧ ~ asks_global c e ∧
     next_task grow counter e rt =
       (Some t, c, with_local (mkVecDeque ts (vd_capacity (local_queue e))) e, rt)) ∨
  (asks_global c e ∧
   next_task grow counter e rt =
     let '(t, e', rt') := get_many_global_tasks grow e rt in (t, c, e', rt')).
Proof.
  intros c. unfold next_task, asks_global. fold c. case_decide as Hd.
  - unfold get_local_task, vd_pop_front. destruct (vd_items (local_queue e)) as [|t ts] eqn:Hl; cbn.
    + right. split; [by right|].
      replace (with_local (mkVecDeque [] (vd_capacity (local_queue e))) e) with e; [done|].
      destruct e as [i [items cap]]. cbn in *. by subst.
    + left. exists t, ts. split_and!; [done| |done].
      intros [[? ?]|?]; [|done]. cbn in Hd. destruct Hd; lia.
  - right. split; [|done]. left. lia.
Qed.

(** A worker that finds no task leaves the global queue empty. *)
Lemma next_task_none grow counter e rt c e' rt' :
  next_task grow counter e rt = (None, c, e', rt') → tl_view (global_queue rt') = [].
Proof.
  destruct (next_task_cases grow counter e rt) as [(t & ts & _ & _ & ->)|[_ ->]]; [done|].
  destruct (get_many_global_tasks grow e rt) as [[t e1] rt1] eqn:Hgm.
  intros [= -> _ _ <-]. by destruct (get_many_none _ _ _ _ _ Hgm) as (_ & _ & ?).
Qed.
End queues.

(** The counter of a worker is a multiple of 31 at least every 31 turns. *)
Lemma counter_hits_31 c :
  (0 ≤ c < usize_bound → ∃ k, 1 ≤ k ≤ 31 ∧ usize_wrapping_add c k mod 31 = 0)%Z.
Proof.
  intros Hc. unfold usize_wrapping_add. pose proof (Z.mod_pos_bound c 31 ltac:(lia)) as Hm.
  destruct (decide (c + (31 - c mod 31) < usize_bound)%Z) as [Hlt|Hge].
  - exists (31 - c mod 31)%Z. split; [lia|]. rewrite (Z.mod_small _ usize_bound) by lia.
    pose proof (Z.div_mod c 31 ltac:(lia)).
    replace (c + (31 - c mod 31))%Z with ((c / 31 + 1) * 31)%Z by lia.
    apply Z.mod_mul. lia.
  - exists (usize_bound - c)%Z. split; [lia|].
    replace (c + (usize_bound - c))%Z with usize_bound by lia. by rewrite Z.mod_same.
Qed.

(** ** Properties of the queues *)

Section queue_properties.
Context {G T : Type} `{EqDecision T, TaskList G T, !TaskListLaws G T}.
Implicit Types (e : ExecutorHandle T) (rt : MTRuntime G).

(** A worker neither loses, duplicates nor reorders tasks when it chooses
    the next one: the chosen task, its local queue and the global queue put
    together are what the two queues held before; and it goes on to poll I/O or
    to park only when both were empty. *)
Theorem next_task_conserves grow counter e rt :
  let '(t, c, e', rt') := next_task grow counter e rt in
  option_list t ++ vd_items (local_queue e') ++ tl_view (global_queue rt') =
    vd_items (local_queue e) ++ tl_view (global_queue rt) ∧
  (t = None ↔ vd_items (local_queue e) = [] ∧ tl_view (global_queue rt) = []).
Proof.
  destruct (next_task_cases grow counter e rt) as [(t & ts & Hl & _ & ->)|[_ ->]].
  - cbn. rewrite Hl. split; [done|]. naive_solver.
  - pose proof (get_many_spec grow e rt) as Hm.
    destruct (get_many_global_tasks grow e rt) as [[t e'] rt'] eqn:Hgm.
    destruct Hm as (Hi & Hg & _). split.
    + by rewrite Hg, (app_assoc (option_list t)), Hi, <- app_assoc, take_drop.
    + destruct t as [t|].
      * split; [done|]. intros [Hl Hv]. rewrite Hl, Hv in Hi. done.
      * split; [|done]. intros _. by destruct (get_many_none _ _ _ _ _ Hgm) as (? & ? & _).
Qed.

(** C37: the local queue of a worker, allocated with room for 32 tasks, never
    grows: neither taking tasks from the global queue nor [schedule_local] makes
    it exceed its capacity, and the latter overflows into the global queue. *)
Theorem local_queue_never_grows fuel locked grow counter task e rt :
  let n := vd_capacity (local_queue e) in
  20 ≤ n → length (vd_items (local_queue e)) ≤ n →
  (let '(_, _, e', _) := next_task grow counter e rt in
   vd_capacity (local_queue e') = n ∧ length (vd_items (local_queue e')) ≤ n) ∧
  (∀ e' rt', schedule_local fuel locked grow task e rt = Done (e', rt') →
   vd_capacity (local_queue e') = n ∧ length (vd_items (local_queue e')) ≤ n ∧
   if decide (length (vd_items (local_queue e)) < n)
   then vd_items (local_queue e') = vd_items (local_queue e) ++ [task] ∧ rt' = rt
   else e' = e ∧ schedule_global fuel locked task rt = Done rt').
Proof.
  intros n Hn Hlen. split.
  - destruct (next_task_cases grow counter e rt) as [(t & ts & Hl & _ & ->)|[Hask ->]].
    { cbn. rewrite Hl in Hlen. cbn in Hlen. split; [done|lia]. }
    pose proof (get_many_spec grow e rt) as Hm.
    destruct (get_many_global_tasks grow e rt) as [[t e'] rt'].
    destruct Hm as (Hi & _ & _ & Hc).
    assert (length (vd_items (local_queue e)) ≤ 16) as Hshort.
    { destruct Hask as [[_ ?]|Hnil]; [done|]. rewrite Hnil. cbn. lia. }
    split; [apply Hc; unfold n in *; lia|].
    apply (f_equal length) in Hi. rewrite !length_app, length_take in Hi. lia.
  - intros e' rt' Hs. unfold schedule_local in Hs. fold n in Hs. case_decide as Hd.
    + injection Hs as <- <-. cbn. rewrite decide_True by done. rewrite length_app. cbn.
      split_and!; [done|lia|done|done].
    + apply outcome_bind_done in Hs as (rt1 & Hg & [= <- <-]). done.
Qed.

(** The global queue is served: from any value of the counter, wrap-around
    included, one of the next 31 turns looks at the global queue first, and if
    the worker then has at most 16 local tasks, the four oldest global tasks
    move to its local queue. *)
Theorem global_queue_served grow counter e rt :
  (0 ≤ counter < usize_bound)%Z →
  (∃ k, (1 ≤ k ≤ 31)%Z ∧ (usize_wrapping_add counter k mod 31 = 0)%Z) ∧
  ((usize_wrapping_add counter 1 mod 31 = 0)%Z → length (vd_items (local_queue e)) ≤ 16 →
   let '(t, _, e', rt') := next_task grow counter e rt in
   tl_view (global_queue rt') = drop 4 (tl_view (global_queue rt)) ∧
   option_list t ++ vd_items (local_queue e') =
     vd_items (local_queue e) ++ take 4 (tl_view (global_queue rt))).
Proof.
  intros Hc. split.
  - by apply counter_hits_31.
  - intros Hmod Hlen.
    destruct (next_task_cases grow counter e rt) as [(t & ts & _ & Hn & _)|[_ ->]].
    { destruct Hn. by left. }
    pose proof (get_many_spec grow e rt) as Hm.
    destruct (get_many_global_tasks grow e rt) as [[t e'] rt'].
    by destruct Hm as (? & ? & _).
Qed.
End queue_properties.

(** ** Waking and parking *)

Section parking.
Context {G T : Type} `{EqDecision T, TaskList G T, !TaskListLaws G T}.
Implicit Types (rt : MTRuntime G).

(** The workers that are marked as parked are exactly the queued ones.  [st] is
    the state of the queue of parked workers, which nobody is using. *)
Record parking_ok (cap : nat) (st : sys) (rt : MTRuntime G) (ws : list Worker) : Prop := {
  pk_reachable : reachable cap st;
  pk_quiescent : quiescent st;
  pk_map : parked_workers rt = map_of st;
  pk_workers : workers rt = Some ws;
  pk_len : length ws = cap;
  pk_parked : ∀ i w, ws !! i = Some w → (parker w = Some Parked ↔ i ∈ queue st);
}.

Lemma parker_cases (w : Worker) : parker w = None ∨ parker w = Some Parked.
Proof. destruct (parker w) as [[]|]; auto. Qed.

Lemma queue_in_range cap st i : reachable cap st → i ∈ queue st → i < cap.
Proof.
  intros Hr Hi. destruct (reachable_inv cap st Hr) as [chain Hinv].
  rewrite (queue_chain _ _ _ Hinv) in Hi. apply list_elem_of_filter in Hi as [Hne Hi].
  apply (inv_range _ _ _ Hinv) in Hi. lia.
Qed.

Lemma queue_nodup cap st : reachable cap st → NoDup (queue st).
Proof.
  intros Hr. destruct (reachable_inv cap st Hr) as [chain Hinv].
  rewrite (queue_chain _ _ _ Hinv). apply NoDup_filter, (inv_nodup _ _ _ Hinv).
Qed.

(** One turn of the search wakes the worker that parked first, or the driver. *)
Lemma wake_worker_spec cap st rt ws :
  parking_ok cap st rt ws →
  ∃ rt', wake_worker_turn rt = Done (Break rt') ∧ global_queue rt' = global_queue rt ∧
  match queue st with
  | [] => io_wakes rt' = S (io_wakes rt) ∧ ∃ st', parking_ok cap st' rt' ws ∧ queue st' = []
  | i :: q =>
      ∃ w st', ws !! i = Some w ∧ io_wakes rt' = io_wakes rt ∧
        parking_ok cap st' rt' (<[i := mkWorker None (S (notified w))]> ws) ∧ queue st' = q
  end.
Proof.
  intros [Hr [Hps Hpp] Hm Hw Hlen Hpk].
  destruct (pop_quiescent cap st (reachable_inv _ _ Hr) Hps) as [m Hpop].
  destruct (pop_alone_steps cap st _ m Hr Hps Hpp Hpop) as (st' & Hr' & Hq' & Hmap & Hqueue).
  unfold wake_worker_turn. rewrite Hm, Hpop. cbn [mbind outcome_bind].
  destruct (queue st) as [|i q] eqn:Hqs.
  - eexists. split; [done|]. split; [done|]. split; [done|]. exists st'.
    cbn in Hqueue. split; [|done].
    split; cbn; try done. intros j w Hj. rewrite Hqueue. by apply Hpk.
  - assert (i < cap) as Hi by (apply (queue_in_range cap st); [done|]; rewrite Hqs; left).
    destruct (lookup_lt_is_Some_2 ws i) as [w Hwi]; [lia|].
    assert (parker w = Some Parked) as Hp by (apply (Hpk i w Hwi); left).
    cbn [workers with_parked]. rewrite Hw. cbn [unwrap mbind outcome_bind].
    rewrite Hwi. cbn [unwrap mbind outcome_bind]. rewrite Hp.
    eexists. split; [done|]. split; [done|]. exists w, st'. cbn in Hqueue. rewrite drop_0 in Hqueue.
    split_and!; [done|done| |done]. split; cbn; try done.
    + by rewrite length_insert.
    + pose proof (queue_nodup cap st Hr) as Hnd. rewrite Hqs in Hnd.
      apply NoDup_cons in Hnd as [Hni Hnd]. rewrite Hqueue.
      intros j w' [(<- & <- & _)|[Hne Hj]]%list_lookup_insert_Some; [done|].
      rewrite (Hpk j w' Hj). set_solver.
Qed.

Lemma schedule_queue task g :
  ∃ g', (if tl_is_linked task g then mret g else tl_push_back task g) = Done g' ∧
    tl_view g' = if decide (task ∈ tl_view g) then tl_view g else tl_view g ++ [task].
Proof.
  rewrite tl_is_linked_view. case_decide as Hd.
  - rewrite bool_decide_true by done. eauto.
  - rewrite bool_decide_false by done. destruct (tl_push_back_view task g Hd) as (g' & -> & Hv). eauto.
Qed.

Lemma parking_ok_global cap st rt ws g :
  parking_ok cap st rt ws → parking_ok cap st (with_global g rt) ws.
Proof. by intros []. Qed.

(** C12: [schedule_global] puts the task at the end of the global queue unless it
    is queued already, without ever linking it twice.  If another thread holds
    the lock of the parked workers that is all it does: nobody is woken.
    Otherwise it wakes exactly one sleeper: the worker that parked first, which
    is unparked and notified once, or the I/O driver when no worker is parked.
    All this when nobody is in the middle of an operation of the queue of parked
    workers and the marks of the workers agree with it ([parking_ok], which a
    spurious return of the condition variable breaks). *)
Theorem schedule_global_wakes_one cap st rt ws fuel task :
  parking_ok cap st rt ws → 0 < fuel →
  let queued := if decide (task ∈ tl_view (global_queue rt)) then tl_view (global_queue rt)
                else tl_view (global_queue rt) ++ [task] in
  (∃ g, schedule_global fuel true task rt = Done (with_global g rt) ∧ tl_view g = queued) ∧
  (∃ rt', schedule_global fuel false task rt = Done rt' ∧ tl_view (global_queue rt') = queued ∧
   match queue st with
   | [] => io_wakes rt' = S (io_wakes rt) ∧ ∃ st', parking_ok cap st' rt' ws ∧ queue st' = []
   | i :: q =>
       ∃ w st', ws !! i = Some w ∧ io_wakes rt' = io_wakes rt ∧
         parking_ok cap st' rt' (<[i := mkWorker None (S (notified w))]> ws) ∧ queue st' = q
   end).
Proof.
  intros Hok Hfuel queued. destruct (schedule_queue task (global_queue rt)) as (g & Hg & Hv).
  unfold schedule_global. rewrite Hg. cbn [mbind outcome_bind]. split; [by exists g|].
  destruct (wake_worker_spec cap st (with_global g rt) ws) as (rt' & Ht & Hgl & Hcase);
    [by apply parking_ok_global|].
  exists rt'. rewrite (loop_break _ _ _ _ Ht) by done. split_and!; [done| |].
  - by rewrite Hgl.
  - destruct (queue st); done.
Qed.

(** Parking keeps the workers and the queue of parked workers in step: a
    worker that is awake parks by appending its index, and a worker that was
    notified finds its mark already taken away. *)
Theorem parking_preserves_invariant cap st rt ws i w :
  parking_ok cap st rt ws → ws !! i = Some w → parker w = None →
  (∃ rt' st', park_begin i rt = Done rt' ∧ queue st' = queue st ++ [i] ∧
     parking_ok cap st' rt' (<[i := mkWorker (Some Parked) (notified w)]> ws)) ∧
  (∃ rt', park_end i rt = Done rt' ∧ parking_ok cap st rt' ws).
Proof.
  intros [Hr Hq Hm Hw Hlen Hpk] Hwi Hp. destruct Hq as [Hps Hpp].
  assert (i < cap) as Hi by (apply lookup_lt_Some in Hwi; lia).
  assert (i ∉ queue st) as Hni by (rewrite <- (Hpk i w Hwi), Hp; done).
  unfold park_begin, park_end. rewrite Hw. cbn [unwrap mbind outcome_bind].
  rewrite Hwi. cbn [unwrap mbind outcome_bind]. rewrite Hp, Hm. split.
  - destruct (push_alone_steps cap st i Hr Hps Hpp Hi Hni) as (m & st' & Hpush & Hr' & Hq' & Hm' & Hqu).
    rewrite Hpush. cbn [mbind outcome_bind mret outcome_ret]. eexists _, st'. split; [done|].
    split; [done|]. split; cbn; try done; [by rewrite length_insert|]. rewrite Hqu.
    intros j w' [(<- & <- & _)|[Hne Hj]]%list_lookup_insert_Some; cbn.
    + split; [|done]. intros _. apply elem_of_app. right. by left.
    + rewrite (Hpk j w' Hj). set_solver.
  - eexists. split; [done|].
    replace (<[i := mkWorker None (notified w)]> ws) with ws.
    2: { symmetry. apply list_insert_id. rewrite Hwi. destruct w as [pk n]. cbn in *. by subst. }
    split; cbn; done.
Qed.

(** The search for a worker never ends when the only queued worker follows
    itself and is not parked. *)
Lemma wake_worker_spins cap i rt ws sh fuel :
  i < cap → parked_workers rt = mkSlotMap (mkExclusive i) sh →
  length (slots sh) = S cap → slots sh !! i = Some i →
  workers rt = Some ws → (∃ n, ws !! i = Some (mkWorker None n)) →
  loop fuel wake_worker_turn rt = OutOfFuel.
Proof.
  intros Hi Hm Hlen Hs Hw [n Hn].
  apply (loop_diverges _ (λ rt, parked_workers rt = mkSlotMap (mkExclusive i) sh ∧ workers rt = Some ws));
    [|done].
  clear rt Hm Hw. intros rt [Hm Hw]. unfold wake_worker_turn.
  rewrite Hm, (pop_self_loop cap) by done. cbn [mbind outcome_bind workers with_parked].
  rewrite Hw. cbn [unwrap mbind outcome_bind]. rewrite Hn. cbn [unwrap mbind outcome_bind parker].
  eexists. split; [done|]. by cbn.
Qed.

(** C20: one spurious wake-up breaks this.  Condition variables may return
    without a notification; the worker then clears its mark while its index is
    still queued and queues it a second time when it parks again.  The next
    [schedule_global] wakes it, and while it runs, every further
    [schedule_global] finds it in the queue again and again and never returns. *)
Theorem spurious_wakeup_livelock n i fuel task1 task2 fuel' :
  i < n → 0 < fuel →
  ∃ rt1 rt2 rt3 rt4,
    park_begin i (MTRuntime_new (G := G) (T := T) n) = Done rt1 ∧ park_end i rt1 = Done rt2 ∧
    park_begin i rt2 = Done rt3 ∧
    schedule_global fuel false task1 rt3 = Done rt4 ∧
    schedule_global fuel' false task2 rt4 = OutOfFuel.
Proof.
  intros Hi Hfuel. destruct (double_push n i Hi) as (m1 & sh & H1 & H2 & Hlen & Hc & Hs).
  set (ws0 := replicate n (mkWorker None 0)). set (awake := mkWorker None 0).
  set (asleep := mkWorker (Some Parked) 0).
  assert (ws0 !! i = Some awake) as Hw0 by (by apply lookup_replicate_2).
  assert (i < length ws0) as Hl0 by (unfold ws0; by rewrite length_replicate).
  exists (mkRuntime tl_new (Some (<[i := asleep]> ws0)) m1 0).
  exists (mkRuntime tl_new (Some (<[i := awake]> (<[i := asleep]> ws0))) m1 0).
  set (rt3 := mkRuntime tl_new
    (Some (<[i := asleep]> (<[i := awake]> (<[i := asleep]> ws0)))) (mkSlotMap (mkExclusive n) sh) 0).
  destruct (schedule_queue task1 (global_queue rt3)) as (g1 & Hg1 & _).
  exists rt3, (mkRuntime g1 (Some (<[i := mkWorker None 1]> (<[i := asleep]> (<[i := awake]>
    (<[i := asleep]> ws0))))) (mkSlotMap (mkExclusive i) sh) 0).
  split_and!.
  - unfold park_begin. cbn [MTRuntime_new init_workers with_workers workers parked_workers unwrap mbind outcome_bind].
    fold ws0. rewrite Hw0. cbn. by rewrite H1.
  - unfold park_end. cbn [workers unwrap mbind outcome_bind].
    by rewrite list_lookup_insert_eq.
  - unfold park_begin. cbn [workers parked_workers unwrap mbind outcome_bind].
    rewrite list_lookup_insert_eq by (by rewrite length_insert). cbn. by rewrite H2.
  - unfold schedule_global. rewrite Hg1. cbn [mbind outcome_bind].
    erewrite loop_break; [done| |done].
    unfold wake_worker_turn. cbn [parked_workers with_global rt3].
    rewrite (pop_stub_loop n sh i) by done. cbn [mbind outcome_bind workers with_parked with_global rt3 unwrap].
    rewrite list_lookup_insert_eq by (by rewrite !length_insert). done.
  - unfold schedule_global. cbn [global_queue].
    destruct (schedule_queue task2 g1) as (g2 & Hg2 & _). rewrite Hg2. cbn [mbind outcome_bind].
    eapply (wake_worker_spins n i); try done. exists 1.
    by rewrite list_lookup_insert_eq by (by rewrite !length_insert).
Qed.
End parking.

(** ** Examples *)

Import TaskListRef.

(** Three workers, of which 1 and then 0 parked. *)
Definition parked_pair : list Worker :=
  [mkWorker (Some Parked) 0; mkWorker (Some Parked) 0; mkWorker None 0].

Definition runtime_of_three : MTRuntime (list nat) :=
  mkRuntime [5] (Some parked_pair) (map_of two_of_three) 0.

Lemma runtime_of_three_ok : parking_ok 3 two_of_three runtime_of_three parked_pair.
Proof.
  split; try done.
  - apply two_of_three_reachable.
  - intros [|[|[|i]]] w Hw; cbn in Hw; simplify_eq; cbn.
    + split; [|done]. intros _. apply (bool_decide_unpack _). vm_compute. exact I.
    + split; [|done]. intros _. apply (bool_decide_unpack _). vm_compute. exact I.
    + split; [done|]. intros Hin%(bool_decide_pack _). vm_compute in Hin. done.
Qed.

Definition busy_worker : ExecutorHandle nat := mkExecutor 0%Z (mkVecDeque [1; 2] 32).

Lemma next_task_conserves_witness :
  next_task (T := nat) S 5%Z busy_worker runtime_of_three =
    (Some 1, 6%Z, mkExecutor 0%Z (mkVecDeque [2] 32), runtime_of_three) ∧
  option_list (Some 1) ++ [2] ++ [5] = [1; 2] ++ [5].
Proof.
  split; [reflexivity|].
  destruct (next_task_conserves (T := nat) S 5%Z busy_worker runtime_of_three) as [Heq _].
  exact Heq.
Defined.

Lemma local_queue_never_grows_witness :
  let '(_, _, e', _) := next_task (T := nat) S 30%Z busy_worker runtime_of_three in
  vd_capacity (local_queue e') = 32 ∧ length (vd_items (local_queue e')) ≤ 32.
Proof.
  apply (local_queue_never_grows 1 false S 30%Z 9 busy_worker runtime_of_three); cbn; lia.
Defined.

Lemma global_queue_served_witness :
  (∃ k, (1 ≤ k ≤ 31)%Z ∧ (usize_wrapping_add 30 k mod 31 = 0)%Z) ∧
  (let '(t, _, e', rt') := next_task (T := nat) S 30%Z busy_worker runtime_of_three in
   tl_view (global_queue rt') = [] ∧
   option_list t ++ vd_items (local_queue e') = [1; 2; 5]).
Proof.
  destruct (global_queue_served (T := nat) S 30%Z busy_worker runtime_of_three) as [Hk Hs].
  - split; [lia|reflexivity].
  - split; [exact Hk|]. apply Hs; [reflexivity|cbn; lia].
Defined.

Lemma schedule_global_wakes_one_witness :
  ∃ rt', schedule_global (T := nat) 1 false 6 runtime_of_three = Done rt' ∧
    tl_view (global_queue rt') = [5; 6] ∧
    ∃ w st', parked_pair !! 1 = Some w ∧ io_wakes rt' = 0 ∧
      parking_ok 3 st' rt' (<[1 := mkWorker None (S (notified w))]> parked_pair) ∧
      queue st' = [0].
Proof.
  destruct (schedule_global_wakes_one 3 two_of_three runtime_of_three parked_pair 1 6
    runtime_of_three_ok) as [_ Hw]; [lia|]. exact Hw.
Defined.

Lemma parking_preserves_invariant_witness :
  ∃ rt' st', park_begin 2 runtime_of_three = Done rt' ∧ queue st' = [1; 0; 2] ∧
    parking_ok 3 st' rt' (<[2 := mkWorker (Some Parked) 0]> parked_pair).
Proof.
  destruct (parking_preserves_invariant 3 two_of_three runtime_of_three parked_pair 2
    (mkWorker None 0) runtime_of_three_ok) as [Hp _]; [reflexivity|reflexivity|]. exact Hp.
Defined.

Lemma spurious_wakeup_livelock_witness :
  ∃ rt1 rt2 rt3 rt4,
    park_begin 1 (MTRuntime_new (G := list nat) (T := nat) 2) = Done rt1 ∧
    park_end 1 rt1 = Done rt2 ∧ park_begin 1 rt2 = Done rt3 ∧
    schedule_global (T := nat) 1 false 7 rt3 = Done rt4 ∧
    schedule_global (T := nat) 1000 false 8 rt4 = OutOfFuel.
Proof. apply (spurious_wakeup_livelock 2 1 1 7 8 1000); lia. Defined.
