(* ===== verification/Runtime.v ===== *)
(** * Runtime: a worker that runs spawned tasks
      (src/src/lib.rs, src/src/task.rs, src/src/join_handle.rs, put together)

    [Executor] says which task a worker takes next, [Task] what running it does.
    Here they are composed: a worker takes a task, polls its future, performs the
    wakes that the future asks for, and looks for the next one; a join handle
    reads the result.  One worker runs, the others have not been started. *)

From S2P Require Import Prelude SlotMap SlotMapConc JoinHandle Task Executor.

(** The wakers that a poll of the future calls on this thread, as the tasks they
    belong to.  A task is a number, and the context of a poll is the waker of the
    polled task. *)
Class FutureWakes (F : Type) : Type := fut_wakes : nat → F → list nat.

Section runtime.
Context {G F O P A W : Type}.
Context `{TaskList G nat, !TaskListLaws G nat, UserFuture F O P nat, FutureWakes F, AtomicWakerOps A W}.
Context (fuel : nat) (grow : nat → nat) (id : nat).

(** ** Definitions *)

(** The worker [rw_exec] of the runtime [rw_rt], with all tasks and the joiners that
    were woken. *)
Record rworld : Type := mkWorld {
  rw_tasks : gmap nat (Task F O P A);
  rw_exec : ExecutorHandle nat;
  rw_counter : Z;
  rw_rt : MTRuntime G;
  rw_woken : list W;
}.

(** Wakers called on the worker's thread: its executor is the current one. *)
Fixpoint wake_all (ts : list nat) (exe : ExecutorHandle nat) (rt : MTRuntime G)
    : outcome (ExecutorHandle nat * MTRuntime G) :=
  match ts with
  | [] => mret (exe, rt)
  | t :: ts =>
      '(h, rt) ← wake_by_ref fuel false grow id t (Some (id, exe)) rt;
      '(_, exe) ← unwrap h;
      wake_all ts exe rt
  end.

(** What [run] asks for at its end. *)
Fixpoint perform_all (t : nat) (es : list (effect W)) (rt : MTRuntime G) (woken : list W)
    : outcome (MTRuntime G * list W) :=
  match es with
  | [] => mret (rt, woken)
  | ScheduleGlobal :: es => rt ← schedule_global fuel false t rt; perform_all t es rt woken
  | WakeJoiner w :: es => perform_all t es rt (woken ++ [w])
  end.

(** The wakes of the poll inside [run]: none when the task is not claimed. *)
Definition wakes_of (t : nat) (task : Task F O P A) : list nat :=
  if decide (t_state task = IDLE) then
    match t_fut task with
    | JoinInner_Future f => fut_wakes t f
    | JoinInner_Return _ => []
    end
  else [].

(** [task.run()]. *)
Definition run_task (t : nat) (st : rworld) : outcome rworld :=
  task ← unwrap (rw_tasks st !! t);
  '(exe, rt) ← wake_all (wakes_of t task) (rw_exec st) (rw_rt st);
  let '(task, effects) := Task_run t task in
  '(rt, woken) ← perform_all t effects rt (rw_woken st);
  mret (mkWorld (<[t := task]> (rw_tasks st)) exe (rw_counter st) rt woken).

(** A turn of [run_forever]; without a task the worker goes on to poll the driver
    or to park. *)
Definition worker_turn (io_free : bool) (st : rworld) : outcome (run_action nat * rworld) :=
  let '(action, counter, exe, rt) :=
    run_forever_turn grow io_free (rw_counter st) (rw_exec st) (rw_rt st) in
  let st := mkWorld (rw_tasks st) exe counter rt (rw_woken st) in
  match action with
  | RunTask t => st ← run_task t st; mret (action, st)
  | _ => mret (action, st)
  end.

Fixpoint worker_turns (n : nat) (io_free : bool) (st : rworld) : outcome rworld :=
  match n with
  | 0 => mret st
  | S n => '(_, st) ← worker_turn io_free st; worker_turns n io_free st
  end.

(** [JoinHandle::new]: a task is allocated at a fresh [t], to which the queues and
    the handle refer. *)
Definition JoinHandle_new (t : nat) (future : F) (tasks : gmap nat (Task F O P A))
    : gmap nat (Task F O P A) :=
  <[t := Task_new future]> tasks.

(** [runtime.spawn(f)] on a thread outside of the runtime. *)
Definition spawn_outside (t : nat) (f : F) (st : rworld) : outcome rworld :=
  let tasks := JoinHandle_new t f (rw_tasks st) in
  '(_, rt) ← MTRuntime_spawn fuel false grow id t None (rw_rt st);
  mret (mkWorld tasks (rw_exec st) (rw_counter st) rt (rw_woken st)).

Fixpoint spawn_all (t : nat) (fs : list F) (st : rworld) : outcome rworld :=
  match fs with
  | [] => mret st
  | f :: fs => st ← spawn_outside t f st; spawn_all (S t) fs st
  end.

Definition new_world (n : nat) : rworld :=
  mkWorld ∅ (mkExecutor 0 (mkVecDeque [] 32)) 0 (MTRuntime_new n) [].

(** ** Futures that finish *)

(** [f] is pending [k] times, each time waking its own task, and then returns or
    panics. *)
Inductive finishes (t : nat) : F → nat → result O P → Prop :=
| finishes_ready f v f' :
    fut_poll t f = (Ok (Ready_ v), f') → fut_wakes t f = [] → finishes t f 0 (Ok v)
| finishes_panic f p f' :
    fut_poll t f = (Err p, f') → fut_wakes t f = [] → finishes t f 0 (Err p)
| finishes_later f f' k r :
    fut_poll t f = (Ok Pending, f') → fut_wakes t f = [t] → finishes t f' k r → finishes t f (S k) r.

(** What a join handle receives. *)
Definition joined (r : result O P) : result O (JoinError P) :=
  match r with Ok v => Ok v | Err p => Err (JoinError_Panic p) end.

(** A task that has [left] polls to go, or is complete. *)
Definition task_ok (t : nat) (r : result O P) (left : option nat) (task : Task F O P A) : Prop :=
  match left with
  | Some k => t_state task = IDLE ∧ ∃ f, t_fut task = JoinInner_Future f ∧ finishes t f k r
  | None => t_state task = COMPLETED ∧ t_fut task = JoinInner_Return (joined r)
  end.

Definition queued (st : rworld) : list nat :=
  vd_items (local_queue (rw_exec st)) ++ tl_view (global_queue (rw_rt st)).

(** No worker is parked, and the queue of parked workers is in order. *)
Definition none_parked (rt : MTRuntime G) : Prop :=
  ∃ cap m ws, parking_ok cap m rt ws ∧ queue m = [].

(** [left] says how many more polls than one each unfinished task needs: those are
    the queued tasks, each queued once. *)
Record world_ok (res : gmap nat (result O P)) (left : gmap nat nat) (st : rworld) : Prop := {
  wo_parked : none_parked (rw_rt st);
  wo_nodup : NoDup (queued st);
  wo_queued : ∀ t, t ∈ queued st ↔ is_Some (left !! t);
  wo_tasks : ∀ t r, res !! t = Some r →
    ∃ task, rw_tasks st !! t = Some task ∧ task_ok t r (left !! t) task;
  wo_left : ∀ t, is_Some (left !! t) → is_Some (res !! t);
}.

(** The turns that are left. *)
Definition polls_left (left : gmap nat nat) (q : list nat) : nat :=
  sum_list_with (λ t, S (default 0 (left !! t))) q.

(** ** Lemmas *)

Context (fuel_pos : 0 < fuel).

Lemma schedule_global_idle t rt :
  none_parked rt → t ∉ tl_view (global_queue rt) →
  ∃ rt', schedule_global fuel false t rt = Done rt' ∧ none_parked rt' ∧
    tl_view (global_queue rt') = tl_view (global_queue rt) ++ [t].
Proof using fuel_pos TaskListLaws0.
  intros (cap & m & ws & Hok & Hq) Ht. destruct (schedule_queue t (global_queue rt)) as (g & Hg & Hv).
  rewrite decide_False in Hv by done. unfold schedule_global. rewrite Hg. cbn [mbind outcome_bind].
  destruct (wake_worker_spec cap m (with_global g rt) ws) as (rt' & Hturn & Hgl & Hcase);
    [by apply parking_ok_global|]. rewrite Hq in Hcase. destruct Hcase as (_ & m' & Hok' & Hq').
  exists rt'. rewrite (loop_break _ _ _ _ Hturn) by done. split_and!; [done|by exists cap, m', ws|].
  by rewrite Hgl.
Qed.

(** A task that wakes itself is queued once more, locally if there is room. *)
Lemma wake_self t exe rt :
  none_parked rt → t ∉ tl_view (global_queue rt) →
  ∃ exe' rt', wake_all [t] exe rt = Done (exe', rt') ∧ none_parked rt' ∧
    vd_items (local_queue exe') ++ tl_view (global_queue rt') ≡ₚ
      t :: vd_items (local_queue exe) ++ tl_view (global_queue rt).
Proof using fuel_pos TaskListLaws0.
  intros Hp Ht. cbn [wake_all]. unfold wake_by_ref, schedule_on. rewrite decide_True by done.
  unfold schedule_local. case_decide.
  - do 2 eexists. split; [done|]. split; [done|]. cbn. rewrite <- app_assoc. cbn.
    symmetry. apply Permutation_middle.
  - destruct (schedule_global_idle t rt Hp Ht) as (rt' & -> & Hp' & Hv). do 2 eexists. split; [done|].
    split; [done|]. rewrite Hv, app_assoc. symmetry. apply Permutation_cons_append.
Qed.

(** Running a task that finishes. *)
Lemma run_task_step t r k task (st : rworld) :
  none_parked (rw_rt st) → t ∉ queued st → rw_tasks st !! t = Some task → task_ok t r (Some k) task →
  ∃ st' task', run_task t st = Done st' ∧ none_parked (rw_rt st') ∧
    rw_tasks st' = <[t := task']> (rw_tasks st) ∧
    match k with
    | 0 => queued st' = queued st ∧ task_ok t r None task'
    | S k => queued st' ≡ₚ t :: queued st ∧ task_ok t r (Some k) task'
    end.
Proof using fuel_pos TaskListLaws0.
  intros Hp Ht Hl [Hs (f & Hf & Hfin)]. unfold queued in Ht. rewrite not_elem_of_app in Ht. destruct Ht as [_ Ht].
  destruct task as [state a fut]. cbn [t_state t_fut] in Hs, Hf. subst state fut.
  unfold run_task. rewrite Hl. cbn [unwrap mbind outcome_bind]. unfold wakes_of. cbn [t_state t_fut].
  rewrite decide_True by done. unfold Task_run, try_update, run_claim. cbn [t_state t_fut with_state].
  rewrite !decide_True by done. cbn [JoinInner_poll t_fut].
  destruct Hfin as [f v f' Hpoll Hw|f p f' Hpoll Hw|f f' k r Hpoll Hw Hfin]; rewrite Hw, Hpoll.
  3: { destruct (wake_self t (rw_exec st) (rw_rt st) Hp Ht) as (exe & rt & -> & Hp' & Hq).
       cbn. do 2 eexists. split; [done|]. split; [done|]. split; [done|]. split; [exact Hq|].
       split; [done|]. by exists f'. }
  all: cbn [wake_all mbind outcome_bind]; unfold wake_joiner; cbn [t_waker with_state with_fut];
    destruct (aw_wake a) as [[w|] a']; cbn; do 2 eexists; by split_and!.
Qed.

Lemma next_task_rt counter exe (rt : MTRuntime G) :
  let '(_, _, _, rt') := next_task grow counter exe rt in rt' = with_global (global_queue rt') rt.
Proof using TaskListLaws0.
  destruct (next_task_cases grow counter exe rt) as [(t & ts & _ & _ & ->)|[_ ->]]; [by destruct rt|].
  pose proof (get_many_spec grow exe rt) as Hm.
  destruct (get_many_global_tasks grow exe rt) as [[t exe'] rt']. by destruct Hm as (_ & _ & ? & _).
Qed.

Lemma polls_left_ext left left' q :
  (∀ t, t ∈ q → left !! t = left' !! t) → polls_left left q = polls_left left' q.
Proof.
  unfold polls_left. induction q as [|t q IH]; intros Hq; [done|]. cbn.
  rewrite (Hq t) by (by left). f_equal. f_equal. apply IH. intros u Hu. apply Hq. by right.
Qed.

(** What is left after a poll of [t]. *)
Definition polled (t k : nat) (left : gmap nat nat) : gmap nat nat :=
  match k with 0 => delete t left | S k => <[t := k]> left end.

Lemma polled_ne t u k left : t ≠ u → polled t k left !! u = left !! u.
Proof. intros Hne. destruct k; cbn; [by rewrite lookup_delete_ne|by rewrite lookup_insert_ne]. Qed.

Lemma world_ok_polled res left (st st' : rworld) t k r task' q :
  world_ok res left st → queued st = t :: q → left !! t = Some k → res !! t = Some r →
  none_parked (rw_rt st') → rw_tasks st' = <[t := task']> (rw_tasks st) →
  match k with
  | 0 => queued st' = q ∧ task_ok t r None task'
  | S k => queued st' ≡ₚ t :: q ∧ task_ok t r (Some k) task'
  end →
  world_ok res (polled t k left) st' ∧
  polls_left left (queued st) = S (polls_left (polled t k left) (queued st')).
Proof.
  intros [_ Hnd Hq Htk Hl] Hst Hk Hr Hp' Htasks Hcase. rewrite Hst in *.
  apply NoDup_cons in Hnd as [Hni Hnd].
  assert (polls_left left q = polls_left (polled t k left) q) as Hsum.
  { apply polls_left_ext. intros u Hu. rewrite polled_ne; [done|]. by intros ->. }
  assert (∀ u, u ≠ t → u ∈ q ↔ is_Some (polled t k left !! u)) as Hq'.
  { intros u Hu. rewrite polled_ne, <- Hq by done. rewrite elem_of_cons. by split; [right|intros [?|?]]. }
  assert (task_ok t r (polled t k left !! t) task') as Hok'.
  { destruct k; destruct Hcase as [_ ?]; cbn; [by rewrite lookup_delete_eq|by rewrite lookup_insert_eq]. }
  split.
  - split; [done| | | |].
    + destruct k; destruct Hcase as [Hqs _]; rewrite Hqs; [done|]. by apply NoDup_cons.
    + intros u. destruct (decide (u = t)) as [->|Hu].
      * destruct k; destruct Hcase as [Hqs _]; rewrite Hqs; cbn.
        -- rewrite lookup_delete_eq. split; [done|]. by intros [].
        -- rewrite lookup_insert_eq. split; [by eexists|]. by left.
      * rewrite <- (Hq' u Hu). destruct k; destruct Hcase as [Hqs _]; rewrite Hqs; [done|].
        rewrite elem_of_cons. by split; [intros [?|?]|right].
    + intros u r' Hu. rewrite Htasks. destruct (decide (u = t)) as [->|Hne].
      * rewrite lookup_insert_eq. exists task'. split; [done|]. by simplify_eq.
      * rewrite lookup_insert_ne, polled_ne by done. by apply Htk.
    + intros u Hu. apply Hl. destruct (decide (u = t)) as [->|Hne]; [by eexists|].
      by rewrite polled_ne in Hu.
  - unfold polls_left in *. destruct k; destruct Hcase as [Hqs _]; rewrite Hqs; cbn in *;
      rewrite Hk, Hsum; [done|]. by rewrite lookup_insert_eq.
Qed.

(** The head of the two queues is run. *)
Lemma turn_step io_free res left (st : rworld) t q :
  world_ok res left st → queued st = t :: q →
  ∃ st' left', worker_turn io_free st = Done (RunTask t, st') ∧ world_ok res left' st' ∧
    polls_left left (queued st) = S (polls_left left' (queued st')).
Proof using fuel_pos TaskListLaws0.
  intros Hok Hst. unfold worker_turn, run_forever_turn.
  pose proof (next_task_conserves grow (rw_counter st) (rw_exec st) (rw_rt st)) as Hc.
  pose proof (next_task_rt (rw_counter st) (rw_exec st) (rw_rt st)) as Hrt.
  destruct (next_task grow (rw_counter st) (rw_exec st) (rw_rt st)) as [[[o c] exe] rt].
  destruct Hc as [Hc Hnone]. fold (queued st) in Hc. rewrite Hst in Hc.
  destruct o as [t'|].
  2: { destruct (proj1 Hnone eq_refl) as [Hl0 Hg0]. unfold queued in Hst. by rewrite Hl0, Hg0 in Hst. }
  cbn in Hc. injection Hc as -> Hc. set (st1 := mkWorld (rw_tasks st) exe c rt (rw_woken st)).
  assert (t ∉ queued st1) as Hni.
  { pose proof (wo_nodup _ _ _ Hok) as Hnd. rewrite Hst in Hnd. unfold queued. cbn. rewrite Hc.
    by apply NoDup_cons in Hnd as [? _]. }
  assert (is_Some (left !! t)) as [k Hk] by (apply (wo_queued _ _ _ Hok); rewrite Hst; left).
  destruct (wo_left _ _ _ Hok t ltac:(by eexists)) as [r Hr].
  destruct (wo_tasks _ _ _ Hok t r Hr) as (task & Htask & Htk). rewrite Hk in Htk.
  assert (none_parked (rw_rt st1)) as Hp1.
  { destruct (wo_parked _ _ _ Hok) as (cap & m & ws & Hpk & Hqm). cbn. rewrite Hrt. exists cap, m, ws.
    split; [by apply parking_ok_global|done]. }
  destruct (run_task_step t r k task st1 Hp1 Hni Htask Htk) as (st' & task' & Hrun & Hp' & Htasks & Hcase).
  change (queued st1) with (vd_items (local_queue exe) ++ tl_view (global_queue rt)) in Hcase. rewrite Hc in Hcase.
  rewrite Hrun. exists st', (polled t k left). split; [done|].
  exact (world_ok_polled res left st st' t k r task' q Hok Hst Hk Hr Hp' Htasks Hcase).
Qed.

Lemma turns_finish io_free res n left (st : rworld) :
  world_ok res left st → polls_left left (queued st) = n →
  ∃ st', worker_turns n io_free st = Done st' ∧ world_ok res ∅ st' ∧ queued st' = [].
Proof using fuel_pos TaskListLaws0.
  revert left st. induction n as [|n IH]; intros left st Hok Hn.
  - destruct (queued st) as [|t q] eqn:Hq; [|done]. exists st. split; [done|].
    assert (left = ∅) as <-; [|done]. apply map_eq. intros t. rewrite lookup_empty.
    destruct (left !! t) as [k|] eqn:Hk; [|done]. exfalso.
    assert (t ∈ queued st) as Ht by (apply (wo_queued _ _ _ Hok); by eexists).
    rewrite Hq in Ht. by apply not_elem_of_nil in Ht.
  - destruct (queued st) as [|t q] eqn:Hq; [done|].
    destruct (turn_step io_free res left st t q Hok Hq) as (st' & left' & Hturn & Hok' & Hsum).
    rewrite Hq, Hn in Hsum. injection Hsum as Hsum. cbn [worker_turns]. rewrite Hturn.
    cbn [mbind outcome_bind]. by apply (IH left').
Qed.

(** A worker without tasks. *)
Lemma turn_idle io_free (st : rworld) :
  queued st = [] → ∃ st', worker_turn io_free st = Done (if io_free then PollIo else Park, st').
Proof using TaskListLaws0.
  intros Hq. apply app_nil in Hq. unfold worker_turn, run_forever_turn.
  pose proof (next_task_conserves grow (rw_counter st) (rw_exec st) (rw_rt st)) as Hc.
  destruct (next_task grow (rw_counter st) (rw_exec st) (rw_rt st)) as [[[o c] exe] rt].
  destruct Hc as [_ Hnone]. rewrite (proj2 Hnone Hq). destruct io_free; by eexists.
Qed.

Lemma new_parking_ok n :
  parking_ok n (sys_init n) (MTRuntime_new n : MTRuntime G) (replicate n (mkWorker None 0)).
Proof using.
  split; cbn; try done.
  - apply rtc_refl.
  - by rewrite length_replicate.
  - intros i w [-> _]%lookup_replicate. cbn. split; [done|]. intros Hi. by apply not_elem_of_nil in Hi.
Qed.

Lemma new_none_parked n : none_parked (MTRuntime_new n).
Proof using. eexists _, _, _. split; [apply new_parking_ok|done]. Qed.

Lemma new_world_ok n : world_ok ∅ ∅ (new_world n).
Proof using TaskListLaws0.
  split; cbn.
  - apply new_none_parked.
  - rewrite tl_new_view. apply NoDup_nil_2.
  - intros t. rewrite tl_new_view, lookup_empty. split; [intros Ht; by apply not_elem_of_nil in Ht|by intros []].
  - intros t r. by rewrite lookup_empty.
  - intros t. rewrite lookup_empty. by intros [].
Qed.

Lemma spawn_ok res left (st : rworld) t f k r :
  world_ok res left st → res !! t = None → finishes t f k r →
  ∃ st', spawn_outside t f st = Done st' ∧ world_ok (<[t := r]> res) (<[t := k]> left) st' ∧
    polls_left (<[t := k]> left) (queued st') = polls_left left (queued st) + S k.
Proof using fuel_pos TaskListLaws0.
  intros [Hp Hnd Hq Htk Hl] Hr Hfin.
  assert (left !! t = None) as Hlt.
  { destruct (left !! t) eqn:Hlt; [|done]. destruct (Hl t) as [? ?]; [by eexists|]. congruence. }
  assert (t ∉ queued st) as Hni by (rewrite Hq, Hlt; by intros []).
  assert (t ∉ tl_view (global_queue (rw_rt st))) as Hg.
  { unfold queued in Hni. by rewrite not_elem_of_app in Hni; destruct Hni. }
  unfold spawn_outside, MTRuntime_spawn, schedule_on.
  destruct (schedule_global_idle t (rw_rt st) Hp Hg) as (rt & -> & Hp' & Hv). cbn [mbind outcome_bind].
  eexists. split; [done|]. unfold JoinHandle_new. set (st' := mkWorld _ _ _ rt _).
  assert (queued st' = queued st ++ [t]) as Hq' by (unfold queued; cbn; by rewrite Hv, app_assoc).
  split.
  - split; [done| | | |]; rewrite ?Hq'.
    + apply NoDup_app. split; [done|]. split; [|by apply NoDup_singleton].
      intros u Hu Hut. apply list_elem_of_singleton in Hut as ->. done.
    + intros u. rewrite elem_of_app, list_elem_of_singleton, Hq.
      destruct (decide (u = t)) as [->|Hu].
      * rewrite lookup_insert_eq. split; [by eexists|by right].
      * rewrite lookup_insert_ne by done. by split; [intros [?|?]|left].
    + intros u r'. cbn. destruct (decide (u = t)) as [->|Hu].
      * rewrite !lookup_insert_eq. intros [= <-]. eexists. split; [done|]. split; [done|]. by exists f.
      * rewrite !lookup_insert_ne by done. apply Htk.
    + intros u. destruct (decide (u = t)) as [->|Hu]; [rewrite !lookup_insert_eq; by eexists|].
      rewrite !lookup_insert_ne by done. apply Hl.
  - rewrite Hq'. unfold polls_left. rewrite sum_list_with_app. cbn. rewrite lookup_insert_eq. cbn.
    fold (polls_left (<[t := k]> left) (queued st)). fold (polls_left left (queued st)).
    rewrite (polls_left_ext (<[t := k]> left) left); [lia|]. intros u Hu. apply lookup_insert_ne. by intros ->.
Qed.

Lemma spawn_all_ok (jobs : list (F * nat * result O P)) t res left (st : rworld) :
  world_ok res left st → (∀ u, t ≤ u → res !! u = None) →
  (∀ i f k r, jobs !! i = Some (f, k, r) → finishes (t + i) f k r) →
  ∃ st' res' left', spawn_all t ((λ j, j.1.1) <$> jobs) st = Done st' ∧ world_ok res' left' st' ∧
    (∀ u, u < t → res' !! u = res !! u) ∧
    (∀ i f k r, jobs !! i = Some (f, k, r) → res' !! (t + i) = Some r) ∧
    polls_left left' (queued st') = polls_left left (queued st) + sum_list_with (λ j, S j.1.2) jobs.
Proof using fuel_pos TaskListLaws0.
  revert t res left st. induction jobs as [|[[f k] r] jobs IH]; intros t res left st Hok Hres Hfin.
  { exists st, res, left. split_and!; try done; cbn; lia. }
  destruct (spawn_ok res left st t f k r Hok (Hres t (Nat.le_refl t))) as (st1 & Hs1 & Hok1 & Hsum1).
  { specialize (Hfin 0 f k r eq_refl). by rewrite Nat.add_0_r in Hfin. }
  destruct (IH (S t) _ _ st1 Hok1) as (st' & res' & left' & Hs & Hok' & Hlow & Hr & Hsum).
  - intros u Hu. rewrite lookup_insert_ne by lia. apply Hres. lia.
  - intros i f' k' r' Hi. rewrite Nat.add_succ_l, <- Nat.add_succ_r. by apply Hfin.
  - exists st', res', left'. cbn [fmap list_fmap spawn_all fst]. rewrite Hs1. cbn [mbind outcome_bind]. split_and!; [done|done| | |].
    + intros u Hu. rewrite Hlow by lia. by rewrite lookup_insert_ne by lia.
    + intros [|i] f' k' r' Hi; cbn in Hi.
      * injection Hi as -> -> ->. rewrite Nat.add_0_r, Hlow by lia. apply lookup_insert_eq.
      * rewrite Nat.add_succ_r, <- Nat.add_succ_l. by apply (Hr i f' k').
    + cbn in *. lia.
Qed.

(** ** Properties *)

End runtime.

(** ** Example *)

Module RuntimeRef.
Import TaskListRef AtomicWakerRef.

(** A future is the number of times it is still pending; then it returns 7, or
    panics if the flag is set. *)
#[export] Instance yielding : UserFuture (nat * bool) nat nat nat := λ _ f,
  match f with
  | (0, false) => (Ok (Ready_ 7), f)
  | (0, true) => (Err 13, f)
  | (S k, b) => (Ok Pending, (k, b))
  end.
#[export] Instance yielding_wakes : FutureWakes (nat * bool) := λ t f,
  match f with (0, _) => [] | (S _, _) => [t] end.

Lemma yielding_finishes t k b : finishes t (k, b) k (if b : bool then Err 13 else Ok 7).
Proof.
  induction k as [|k IH]; [|by eapply finishes_later].
  destruct b; [by eapply finishes_panic|by eapply finishes_ready].
Qed.
End RuntimeRef.

Import TaskListRef AtomicWakerRef RuntimeRef.

