(* ===== verification/Programs.v ===== *)
(** * Programs: tasks that spawn and await each other

    The futures that [ForkJoin] and [Workers] run on the runtime: async blocks that
    spawn tasks, await their handles and yield.  [evals] says what such a program
    comes to; [own_ok] ties the unfinished tasks of a running system to it. *)

From S2P Require Import Prelude JoinHandle Task Runtime.

(** ** Programs *)

(** An async block: [return], [panic!], a [yield_now().await], [spawn(child)] with
    the handle as a number, and [handle.await]. *)
Inductive prog (O P : Type) : Type :=
| PReturn (r : result O P)
| PYield (k : prog O P)
| PSpawn (child : prog O P) (k : nat → prog O P)
| PAwait (h : nat) (k : result O (JoinError P) → prog O P).
Arguments PReturn {O P}.
Arguments PYield {O P}.
Arguments PSpawn {O P}.
Arguments PAwait {O P}.

(** What a poll of the future of a task gives, when the task is polled at all. *)
Definition answer (O P : Type) : Type := option (result (poll O) P * prog O P).

#[export] Instance prog_future {O P} : UserFuture (prog O P) O P (answer O P) := λ c p,
  match c with Some a => a | None => (Ok Pending, p) end.

(** The poll of a program that returns. *)
Definition returned {O P} (r : result O P) : result (poll O) P :=
  match r with Ok v => Ok (Ready_ v) | Err e => Err e end.

(** ** Sums over the entries of a map *)

Section sums.
Context {X : Type} (f : X → nat).
Implicit Types m : gmap nat X.

Definition map_sum (m : gmap nat X) : nat := map_fold (λ _ x n, f x + n) 0 m.

Lemma map_sum_empty : map_sum ∅ = 0.
Proof. apply map_fold_empty. Qed.

Lemma map_sum_insert m t x : m !! t = None → map_sum (<[t := x]> m) = f x + map_sum m.
Proof. intros Ht. apply (map_fold_insert_L (λ _ x n, f x + n)); [|done]. intros. lia. Qed.

Lemma map_sum_delete m t x : m !! t = Some x → map_sum m = f x + map_sum (delete t m).
Proof. intros Ht. apply (map_fold_delete_L (λ _ x n, f x + n)); [|done]. intros. lia. Qed.

Lemma map_sum_update m t x x' :
  m !! t = Some x → map_sum (<[t := x']> m) + f x = map_sum m + f x'.
Proof.
  intros Ht. rewrite <- insert_delete_eq, map_sum_insert by apply lookup_delete_eq.
  rewrite (map_sum_delete m t x) by done. lia.
Qed.
End sums.

(** ** Maps whose keys are the numbers below a bound *)

Lemma dom_update {X} (m : gmap nat X) h x x' n :
  m !! h = Some x → (∀ u, is_Some (m !! u) ↔ u < n) → ∀ u, is_Some (<[h := x']> m !! u) ↔ u < n.
Proof.
  intros Hh Hn u. rewrite <- Hn. destruct (decide (u = h)) as [->|];
    [rewrite lookup_insert_eq, Hh; split; eauto|by rewrite lookup_insert_ne].
Qed.

Lemma dom_succ {X} (m : gmap nat X) c x :
  (∀ u, is_Some (m !! u) ↔ u < c) → ∀ u, is_Some (<[c := x]> m !! u) ↔ u < S c.
Proof. intros Hm u. rewrite lookup_insert_is_Some', Hm. lia. Qed.

Lemma insert_is_Some {X} (m : gmap nat X) t x u :
  is_Some (m !! u) → is_Some (<[t := x]> m !! u).
Proof. rewrite lookup_insert_is_Some'. by right. Qed.

(** ** What a program means *)

Section meaning.
Context {O P : Type}.

(** [evals env p r n]: with the results [env] of the handles that it holds, [p] comes
    to [r]; [n] counts the steps of [p] and of everything it spawns.  A child
    holds no handles, a handle is awaited at most once, and the result does not
    depend on the numbers of the handles. *)
Inductive evals : gmap nat (result O P) → prog O P → result O P → nat → Prop :=
| ev_return env r : evals env (PReturn r) r 1
| ev_yield env k r n : evals env k r n → evals env (PYield k) r (S n)
| ev_spawn env child k rc r m n :
    evals ∅ child rc m → (∀ h, env !! h = None → evals (<[h := rc]> env) (k h) r n) →
    evals env (PSpawn child k) r (S (m + n))
| ev_await env h k rh r n :
    env !! h = Some rh → evals (delete h env) (k (joined rh)) r n → evals env (PAwait h k) r (S n).

Lemma evals_return_inv env r r' c : evals env (PReturn r) r' c → r' = r ∧ c = 1.
Proof. by inversion 1. Qed.

Lemma evals_yield_inv env k r c : evals env (PYield k) r c → ∃ n, c = S n ∧ evals env k r n.
Proof. inversion 1; subst; eauto. Qed.

Lemma evals_spawn_inv env child k r c :
  evals env (PSpawn child k) r c →
  ∃ rc m n, c = S (m + n) ∧ evals ∅ child rc m ∧
    ∀ h, env !! h = None → evals (<[h := rc]> env) (k h) r n.
Proof. inversion 1; subst; eauto 10. Qed.

Lemma evals_await_inv env h k r c :
  evals env (PAwait h k) r c →
  ∃ rh n, c = S n ∧ env !! h = Some rh ∧ evals (delete h env) (k (joined rh)) r n.
Proof. inversion 1; subst; eauto 10. Qed.

(** A program comes to one result, in one number of steps. *)
Lemma evals_deterministic env p r n :
  evals env p r n → ∀ r' n', evals env p r' n' → r' = r ∧ n' = n.
Proof.
  induction 1 as [|env k r n _ IH|env child k rc r m n _ IHc _ IHk|env h k rh r n Hh _ IH];
    intros r' n' Hev; inversion Hev; subst; [done| | |].
  - by destruct (IH r' n0) as [-> ->].
  - destruct (IHc rc0 m0) as [-> ->]; [done|]. set (h := fresh (dom env)).
    assert (env !! h = None) as Hfresh by (apply not_elem_of_dom, is_fresh).
    by destruct (IHk h Hfresh r' n0) as [-> ->]; [auto|].
  - simplify_eq. by destruct (IH r' n0) as [-> ->].
Qed.
End meaning.

(** ** Unfinished tasks *)

Section unfinished.
Context {O P X : Type}.

(** What is left of the program of a task, the results of the handles it holds, the
    result it comes to, the steps that are left, and what else is known of it. *)
Record info : Type := mkInfo {
  i_prog : prog O P;
  i_env : gmap nat (result O P);
  i_res : result O P;
  i_cost : nat;
  i_status : X;
}.
Implicit Types (res : gmap nat (result O P)) (live : gmap nat info).

(** Every unfinished task comes to its result, each handle in use belongs to one task
    and to a later one, and the results held for it are the true ones. *)
Record own_ok res live : Prop := {
  own_res t i : live !! t = Some i → res !! t = Some (i_res i);
  own_evals t i : live !! t = Some i → evals (i_env i) (i_prog i) (i_res i) (i_cost i);
  own_held t i h r : live !! t = Some i → i_env i !! h = Some r → t < h ∧ res !! h = Some r;
  own_unique t1 i1 t2 i2 h : live !! t1 = Some i1 → live !! t2 = Some i2 →
    is_Some (i_env i1 !! h) → is_Some (i_env i2 !! h) → t1 = t2;
}.

(** The handle of the first task is kept outside, any other by an unfinished task. *)
Definition held live (t : nat) : Prop :=
  t = 0 ∨ ∃ o i, live !! o = Some i ∧ is_Some (i_env i !! t).

(** A task that awaits [h] holds [h]. *)
Lemma own_awaits res live t i h k :
  own_ok res live → live !! t = Some i → i_prog i = PAwait h k →
  is_Some (i_env i !! h) ∧ t < h.
Proof.
  intros Hown Ht Hp. pose proof (own_evals _ _ Hown t i Ht) as Hev. rewrite Hp in Hev.
  apply evals_await_inv in Hev as (rh & n & _ & Hh & _). split; [by eexists|].
  by eapply (own_held _ _ Hown).
Qed.

(** The tasks of [live'] are those of [live], or some of them, and hold no more
    handles. *)
Definition covered live' live : Prop := ∀ t i', live' !! t = Some i' →
  ∃ i, live !! t = Some i ∧ i_res i' = i_res i ∧ i_env i' ⊆ i_env i.

Lemma covered_insert live t i i' :
  live !! t = Some i → i_res i' = i_res i → i_env i' ⊆ i_env i → covered (<[t := i']> live) live.
Proof. intros Ht Hr Hs u j [[<- <-]|[? Hu]]%lookup_insert_Some; eauto. Qed.

Lemma covered_delete live t : covered (delete t live) live.
Proof. intros u j [_ Hu]%lookup_delete_Some. eauto. Qed.

Lemma env_weaken (env' env : gmap nat (result O P)) h :
  env' ⊆ env → is_Some (env' !! h) → is_Some (env !! h).
Proof. intros Hs [r Hr]. exists r. by eapply lookup_weaken. Qed.

Lemma covered_held live' live t : covered live' live → held live' t → held live t.
Proof.
  intros Hc [?|(o & j & Hj & Hh)]; [by left|right]. destruct (Hc o j Hj) as (j0 & Hj0 & _ & Hs).
  eauto using env_weaken.
Qed.

Lemma own_covered res live live' :
  own_ok res live → covered live' live →
  (∀ t i, live' !! t = Some i → evals (i_env i) (i_prog i) (i_res i) (i_cost i)) →
  own_ok res live'.
Proof.
  intros [F1 F2 F3 F4] Hc Hev. split; [|done|..].
  - intros t i Ht. destruct (Hc t i Ht) as (j & Hj & -> & _). auto.
  - intros t i h r Ht Hh. destruct (Hc t i Ht) as (j & Hj & _ & Hs). by eapply F3, lookup_weaken.
  - intros t1 i1 t2 i2 h Ht1 Ht2 Hh1 Hh2. destruct (Hc t1 i1 Ht1) as (j1 & Hj1 & _ & Hs1).
    destruct (Hc t2 i2 Ht2) as (j2 & Hj2 & _ & Hs2). eauto using env_weaken.
Qed.

Lemma own_insert res live t i i' :
  own_ok res live → live !! t = Some i → i_res i' = i_res i → i_env i' ⊆ i_env i →
  evals (i_env i') (i_prog i') (i_res i') (i_cost i') → own_ok res (<[t := i']> live).
Proof.
  intros Hown Ht Hr Hs Hev. apply (own_covered _ _ _ Hown); [by eapply covered_insert|].
  intros u j [[<- <-]|[? Hu]]%lookup_insert_Some; [done|by apply (own_evals _ _ Hown u)].
Qed.

Lemma own_delete res live t : own_ok res live → own_ok res (delete t live).
Proof.
  intros Hown. apply (own_covered _ _ _ Hown (covered_delete live t)).
  intros u j [_ Hu]%lookup_delete_Some. by apply (own_evals _ _ Hown u).
Qed.

(** The tasks after [t] spawned [c]. *)
Section spawned.
Context (live : gmap nat info) (t c : nat) (i' j' : info).
Local Abbreviation live' := (<[c := j']> (<[t := i']> live)).

Lemma spawned_inv u j :
  live' !! u = Some j → (u = c ∧ j = j') ∨ (u = t ∧ j = i') ∨ (u ≠ c ∧ u ≠ t ∧ live !! u = Some j).
Proof.
  intros [[<- <-]|[? [[<- <-]|[? Hu]]%lookup_insert_Some]]%lookup_insert_Some; auto.
Qed.

Lemma spawned_other u j : live !! c = None → u ≠ t → live !! u = Some j → live' !! u = Some j.
Proof. intros Hlc Hut Hu. rewrite !lookup_insert_ne by congruence. done. Qed.

Lemma own_spawned res i rc :
  own_ok res live → live !! t = Some i → res !! c = None → t < c → i_env i !! c = None →
  i_res i' = i_res i → i_env i' = <[c := rc]> (i_env i) → i_res j' = rc → i_env j' = ∅ →
  evals (i_env i') (i_prog i') (i_res i') (i_cost i') →
  evals (i_env j') (i_prog j') (i_res j') (i_cost j') → own_ok (<[c := rc]> res) live'.
Proof.
  intros [F1 F2 F3 F4] Ht Hrc Htc Hec Hri Hei Hrj Hej Hi' Hj'.
  assert (∀ u j h r, live !! u = Some j → i_env j !! h = Some r → h ≠ c) as Hfresh.
  { intros u j h r Hu Hh ->. destruct (F3 u j c r Hu Hh). congruence. }
  assert (∀ u j h r, live' !! u = Some j → i_env j !! h = Some r →
    (h = c ∧ u = t ∧ r = rc) ∨
    (h ≠ c ∧ ∃ j0, live !! u = Some j0 ∧ i_env j0 !! h = Some r)) as Hown.
  { intros u j h r Hu Hh. destruct (spawned_inv u j Hu) as [[-> ->]|[[-> ->]|(? & ? & Hl)]];
      [by rewrite Hej, lookup_empty in Hh| |right; eauto].
    rewrite Hei in Hh. apply lookup_insert_Some in Hh as [[<- <-]|[? Hh]]; [by left|right; eauto]. }
  split.
  - intros u j Hu. destruct (spawned_inv u j Hu) as [[-> ->]|[[-> ->]|(? & ? & Hl)]];
      [rewrite lookup_insert_eq; by rewrite Hrj|..]; rewrite lookup_insert_ne by lia; [|auto].
    by rewrite (F1 t i Ht), Hri.
  - intros u j Hu. destruct (spawned_inv u j Hu) as [[-> ->]|[[-> ->]|(? & ? & Hl)]];
      [done..|by apply (F2 u)].
  - intros u j h r Hu Hh. destruct (Hown u j h r Hu Hh) as [(-> & -> & ->)|(Hne & j0 & Hj0 & Hh0)].
    + by rewrite lookup_insert_eq.
    + rewrite lookup_insert_ne by done. by apply (F3 u j0).
  - intros t1 i1 t2 i2 h Ht1 Ht2 [r1 Hh1] [r2 Hh2].
    destruct (Hown t1 i1 h r1 Ht1 Hh1) as [(Hc1 & -> & _)|(Hne & j1 & Hj1 & Hx1)],
      (Hown t2 i2 h r2 Ht2 Hh2) as [(Hc2 & -> & _)|(Hne2 & j2 & Hj2 & Hx2)]; try done.
    apply (F4 t1 j1 t2 j2 h); eauto.
Qed.

Lemma held_spawned i rc u :
  live !! t = Some i → i_env i' = <[c := rc]> (i_env i) → i_env j' = ∅ → u ≠ c →
  held live' u → held live u.
Proof.
  intros Ht Hi' Hj' Hu [?|(o & j & Hj & Hx)]; [by left|right].
  destruct (spawned_inv o j Hj) as [[-> ->]|[[-> ->]|(? & ? & Hl)]]; [| |eauto].
  - rewrite Hj', lookup_empty in Hx. by destruct Hx.
  - rewrite Hi', lookup_insert_ne in Hx by done. eauto.
Qed.
End spawned.
End unfinished.

Arguments info : clear implicits.

(** ** An example *)

Module ProgramsRef.

Definition or_100 (r : result nat (JoinError nat)) : nat :=
  match r with Ok v => v | Err _ => 100 end.

(** Yields twice. *)
Definition leaf : prog nat nat := PYield (PYield (PReturn (Ok 3))).

(** Spawns a task that panics, and recovers. *)
Definition recovers : prog nat nat :=
  PSpawn (PReturn (Err 9)) (λ c, PAwait c (λ v, PReturn (Ok (or_100 v)))).

(** Awaits its tasks in the other order. *)
Definition sum_up : prog nat nat :=
  PSpawn leaf (λ a, PSpawn recovers (λ b,
    PYield (PAwait b (λ vb, PAwait a (λ va, PReturn (Ok (or_100 va + or_100 vb))))))).

Lemma recovers_evals : evals ∅ recovers (Ok 100) 4.
Proof.
  apply (ev_spawn _ _ _ (Err 9) _ 1 2); [apply ev_return|]. intros h _.
  apply (ev_await _ _ _ (Err 9)); [apply lookup_insert_eq|apply ev_return].
Qed.

Lemma sum_up_evals : evals ∅ sum_up (Ok 103) 13.
Proof.
  apply (ev_spawn _ _ _ (Ok 3) _ 3 9); [do 2 apply ev_yield; apply ev_return|]. intros a _.
  apply (ev_spawn _ _ _ (Ok 100) _ 4 4); [apply recovers_evals|]. intros b Hb.
  apply ev_yield, (ev_await _ _ _ (Ok 100)); [apply lookup_insert_eq|].
  apply lookup_insert_None in Hb as [_ Hab].
  apply (ev_await _ _ _ (Ok 3)); [|apply ev_return].
  by rewrite delete_insert_eq, lookup_delete_ne, lookup_insert_eq.
Qed.
End ProgramsRef.
