(* ===== verification/ForkJoin.v ===== *)
(** * ForkJoin: tasks that spawn and await each other
      (src/src/lib.rs, src/src/task.rs, src/src/join_handle.rs, put together)

    [Runtime] runs tasks that do not know of each other.  Here the futures are
    programs that spawn tasks, await their handles and yield, and the poll of
    such a future acts on the runtime it runs on: it allocates tasks, queues
    them, takes outputs and registers wakers, and the end of a task wakes the one
    that awaits it.  One worker runs. *)

From S2P Require Import Prelude SlotMap SlotMapConc JoinHandle Task Executor Runtime Programs.

Section fork_join.
Context {G O P A : Type}.
Context `{TaskList G nat, !TaskListLaws G nat, AtomicWakerOps A nat, !AtomicWakerLaws A nat}.
Context (fuel : nat) (grow : nat → nat) (id : nat).

(** ** The runtime *)

Local Abbreviation tworld := (rworld (G := G) (F := prog O P) (O := O) (P := P) (A := A) (W := nat)).

(** The runtime, and the name of the next task. *)
Record pworld : Type := mkPWorld {
  pw_world : tworld;
  pw_next : nat;
}.

Definition tasks (st : pworld) : gmap nat (Task (prog O P) O P A) := rw_tasks (pw_world st).

Definition with_tasks (ts : gmap nat (Task (prog O P) O P A)) (st : pworld) : pworld :=
  let w := pw_world st in
  mkPWorld (mkWorld ts (rw_exec w) (rw_counter w) (rw_rt w) (rw_woken w)) (pw_next st).

Definition with_queues (exe : ExecutorHandle nat) (rt : MTRuntime G) (st : pworld) : pworld :=
  let w := pw_world st in
  mkPWorld (mkWorld (rw_tasks w) exe (rw_counter w) rt (rw_woken w)) (pw_next st).

(** The waker of task [t], called on the worker's thread. *)
Definition wake_here (t : nat) (st : pworld) : outcome pworld :=
  let w := pw_world st in
  '(h, rt) ← wake_by_ref fuel false grow id t (Some (id, rw_exec w)) (rw_rt w);
  '(_, exe) ← unwrap h;
  mret (with_queues exe rt st).

(** [spawn(child)] on the worker's thread: the new task and its handle. *)
Definition spawn_here (child : prog O P) (st : pworld) : outcome (nat * pworld) :=
  let w := pw_world st in
  let t := pw_next st in
  let ts := JoinHandle_new t child (rw_tasks w) in
  '(h, rt) ← spawn fuel false grow t (Some (id, rw_exec w)) (rw_rt w);
  '(_, exe) ← unwrap h;
  mret (t, mkPWorld (mkWorld ts exe (rw_counter w) rt (rw_woken w)) (S t)).

(** One poll of the future of task [t].  In the table the task is still idle and has
    the future it had before the poll; of the table a poll reads only the tasks that
    it awaits, and a task does not hold its own handle. *)
Fixpoint poll_prog (t : nat) (p : prog O P) (st : pworld)
    : outcome (result (poll O) P * prog O P * pworld) :=
  match p with
  | PReturn (Ok v) => mret (Ok (Ready_ v), p, st)
  | PReturn (Err e) => mret (Err e, p, st)
  | PYield k => st ← wake_here t st; mret (Ok Pending, k, st)
  | PSpawn child k => '(h, st) ← spawn_here child st; poll_prog t (k h) st
  | PAwait h k =>
      task ← unwrap (tasks st !! h);
      let '(task, out) := JoinHandle_poll task t in
      let st := with_tasks (<[h := task]> (tasks st)) st in
      match out with
      | Ready_ r => poll_prog t (k r) st
      | Pending => mret (Ok Pending, p, st)
      end
  end.

(** The poll inside [run]: only a task that can be claimed is polled. *)
Definition poll_task (t : nat) (task : Task (prog O P) O P A) (st : pworld)
    : outcome (answer O P * pworld) :=
  match t_fut task with
  | JoinInner_Future p =>
      if decide (t_state task = IDLE) then
        '(r, p, st) ← poll_prog t p st; mret (Some (r, p), st)
      else mret (None, st)
  | JoinInner_Return _ => mret (None, st)
  end.

Fixpoint perform_effects (t : nat) (es : list (effect nat)) (st : pworld) : outcome pworld :=
  match es with
  | [] => mret st
  | ScheduleGlobal :: es =>
      rt ← schedule_global fuel false t (rw_rt (pw_world st));
      perform_effects t es (with_queues (rw_exec (pw_world st)) rt st)
  | WakeJoiner w :: es => st ← wake_here w st; perform_effects t es st
  end.

(** [task.run()]. *)
Definition run_prog (t : nat) (st : pworld) : outcome pworld :=
  task ← unwrap (tasks st !! t);
  '(a, st) ← poll_task t task st;
  task ← unwrap (tasks st !! t);
  let '(task, effects) := Task_run a task in
  perform_effects t effects (with_tasks (<[t := task]> (tasks st)) st).

(** A turn of [run_forever]. *)
Definition prog_turn (io_free : bool) (st : pworld) : outcome (run_action nat * pworld) :=
  let w := pw_world st in
  let '(action, counter, exe, rt) :=
    run_forever_turn grow io_free (rw_counter w) (rw_exec w) (rw_rt w) in
  let st := mkPWorld (mkWorld (rw_tasks w) exe counter rt (rw_woken w)) (pw_next st) in
  match action with
  | RunTask t => st ← run_prog t st; mret (action, st)
  | _ => mret (action, st)
  end.

Fixpoint prog_turns (n : nat) (io_free : bool) (st : pworld) : outcome pworld :=
  match n with
  | 0 => mret st
  | S n => '(_, st) ← prog_turn io_free st; prog_turns n io_free st
  end.

(** [runtime.spawn(main)] from a thread outside of the runtime. *)
Definition spawn_main (workers : nat) (main : prog O P) : outcome pworld :=
  let w : tworld := new_world workers in
  '(_, rt) ← MTRuntime_spawn fuel false grow id 0 None (rw_rt w);
  mret (mkPWorld (mkWorld (JoinHandle_new 0 main ∅) (rw_exec w) (rw_counter w) rt (rw_woken w)) 1).

(** ** The invariant *)

(** Whether an unfinished task is in a queue, being polled, or registered with the
    task it awaits. *)
Inductive status : Type := Queued | Running | Waiting (h : nat).

Local Abbreviation info := (info O P status).

(** [res] has the results of all tasks and [live] the unfinished ones; the future of
    the task [act] is in the hands of the worker. *)
Record fj_inv (act : option nat) (res : gmap nat (result O P)) (live : gmap nat info)
    (st : pworld) : Prop := {
  fj_parked : none_parked (rw_rt (pw_world st));
  fj_nodup : NoDup (queued (pw_world st));
  fj_queued t : t ∈ queued (pw_world st) ↔ ∃ i, live !! t = Some i ∧ i_status i = Queued;
  fj_dom t : is_Some (res !! t) ↔ t < pw_next st;
  fj_next : 0 < pw_next st;
  fj_own : own_ok res live;
  fj_live t i : live !! t = Some i →
    ∃ task p, tasks st !! t = Some task ∧ t_state task = IDLE ∧
      t_fut task = JoinInner_Future p ∧ (act ≠ Some t → p = i_prog i);
  fj_done t task : tasks st !! t = Some task → live !! t = None →
    t_state task = COMPLETED ∧ (∃ v, t_fut task = JoinInner_Return v) ∧
    ∀ r, res !! t = Some r → held live t → t_fut task = JoinInner_Return (joined r);
  fj_tasks t : is_Some (tasks st !! t) ↔ t < pw_next st;
  fj_wakers h task t : tasks st !! h = Some task → aw_last (t_waker task) = Some t →
    ∃ i, live !! t = Some i ∧ i_status i = Waiting h;
  fj_waits t i h : live !! t = Some i → i_status i = Waiting h →
    (∃ k, i_prog i = PAwait h k) ∧ is_Some (live !! h) ∧
    ∃ task, tasks st !! h = Some task ∧ aw_last (t_waker task) = Some t;
  fj_running t i : live !! t = Some i → i_status i = Running → act = Some t;
}.

(** The work that is left. *)
Definition weight (i : info) : nat :=
  3 * i_cost i + match i_status i with Queued => 2 | Running => 1 | Waiting _ => 0 end.

Local Abbreviation total := (map_sum weight).

(** ** Scheduling *)

Context (fuel_pos : 0 < fuel).

Lemma schedule_local_idle t exe (rt : MTRuntime G) :
  none_parked rt → t ∉ tl_view (global_queue rt) →
  ∃ exe' rt', schedule_local fuel false grow t exe rt = Done (exe', rt') ∧ none_parked rt' ∧
    vd_items (local_queue exe') ++ tl_view (global_queue rt') ≡ₚ
      t :: vd_items (local_queue exe) ++ tl_view (global_queue rt).
Proof using fuel_pos TaskListLaws0.
  intros Hp Ht. unfold schedule_local. case_decide.
  - do 2 eexists. split; [done|]. split; [done|]. cbn. rewrite <- app_assoc. cbn.
    symmetry. apply Permutation_middle.
  - destruct (schedule_global_idle fuel fuel_pos t rt Hp Ht) as (rt' & -> & Hp' & Hv).
    do 2 eexists. split; [done|]. split; [done|]. rewrite Hv, app_assoc. symmetry.
    apply Permutation_cons_append.
Qed.

(** A waker puts its task into a queue. *)
Lemma wake_ok t st :
  none_parked (rw_rt (pw_world st)) → t ∉ queued (pw_world st) →
  ∃ exe rt, wake_here t st = Done (with_queues exe rt st) ∧ none_parked rt ∧
    queued (pw_world (with_queues exe rt st)) ≡ₚ t :: queued (pw_world st).
Proof using fuel_pos TaskListLaws0.
  intros Hp Hq. unfold queued in Hq. rewrite not_elem_of_app in Hq. destruct Hq as [_ Hq].
  destruct (schedule_local_idle t (rw_exec (pw_world st)) _ Hp Hq) as (exe & rt & Hs & Hp' & Hv).
  exists exe, rt. unfold wake_here, wake_by_ref, schedule_on. rewrite decide_True, Hs by done. by split.
Qed.

(** ** Steps of a task, and the invariant *)

Definition not_waiting (x : status) : Prop := ∀ h, x ≠ Waiting h.

(** Task [t] changes its queue or goes on in its program; it may give up handles. *)
Lemma fj_change act res live st st' t i i' :
  fj_inv act res live st → act = None ∨ act = Some t → live !! t = Some i →
  tasks st' = tasks st → pw_next st' = pw_next st →
  none_parked (rw_rt (pw_world st')) → NoDup (queued (pw_world st')) →
  (∀ u, u ≠ t → u ∈ queued (pw_world st') ↔ u ∈ queued (pw_world st)) →
  (t ∈ queued (pw_world st') ↔ i_status i' = Queued) →
  i_res i' = i_res i → i_env i' ⊆ i_env i →
  evals (i_env i') (i_prog i') (i_res i') (i_cost i') →
  not_waiting (i_status i) → not_waiting (i_status i') →
  fj_inv (Some t) res (<[t := i']> live) st'.
Proof.
  intros [F1 F2 F3 F4 F5 Fo F8 F9 F10 F13 F14 F15] Hact Ht Htk Hn Hp Hnd Hqo Hqt Hr Hsub Hev Hw Hw'.
  split; rewrite ?Htk, ?Hn; try done.
  - intros u. destruct (decide (u = t)) as [->|Hu].
    + rewrite Hqt, lookup_insert_eq. naive_solver.
    + by rewrite Hqo, lookup_insert_ne by done.
  - by eapply own_insert.
  - intros u j [[<- <-]|[? Hu]]%lookup_insert_Some.
    + destruct (F8 t i Ht) as (task & p & K1 & K2 & K3 & _). by exists task, p.
    + destruct (F8 u j Hu) as (task & p & K1 & K2 & K3 & K4). exists task, p. split_and!; [done..|].
      intros _. apply K4. destruct Hact; congruence.
  - intros u task Hu [Hl Hne]%lookup_insert_None. destruct (F9 u task Hu Hl) as (G1 & G2 & G3).
    split_and!; [done..|]. intros r Hres Hh. apply G3; [done|].
    by eapply covered_held, Hh; eapply covered_insert.
  - intros h task u Hh Hlast. destruct (F13 h task u Hh Hlast) as (j & Hj & Hst).
    exists j. split; [|done]. rewrite lookup_insert_ne; [done|]. intros ->. simplify_eq.
    by destruct (Hw h).
  - intros u j h [[<- <-]|[? Hu]]%lookup_insert_Some Hst; [by destruct (Hw' h)|].
    destruct (F14 u j h Hu Hst) as (G1 & G2 & G3). auto using insert_is_Some.
  - intros u j [[<- <-]|[? Hu]]%lookup_insert_Some Hst; [done|].
    pose proof (F15 u j Hu Hst). destruct Hact; congruence.
Qed.

(** The output of a finished task that nobody holds any more is taken. *)
Lemma fj_take act res live st h task task' :
  fj_inv act res live st → live !! h = None → h ≠ 0 →
  (∀ o i, live !! o = Some i → i_env i !! h = None) →
  tasks st !! h = Some task → t_state task' = t_state task → t_waker task' = t_waker task →
  (∃ v, t_fut task' = JoinInner_Return v) →
  fj_inv act res live (with_tasks (<[h := task']> (tasks st)) st).
Proof.
  intros [F1 F2 F3 F4 F5 Fo F8 F9 F10 F13 F14 F15] Hl H0' Hown Hh Hs Hw Hf.
  split; try done; cbn.
  - intros u j Hu. rewrite lookup_insert_ne by (intros ->; congruence). by apply F8.
  - intros u tk [[<- <-]|[? Hu]]%lookup_insert_Some Hlu; [|by apply F9].
    destruct (F9 h task Hh Hl) as (G1 & _ & _). split_and!; [by rewrite Hs|done|].
    intros r _ [?|(o & j & Hj & Hx)]; [done|]. rewrite (Hown o j Hj) in Hx. by destruct Hx.
  - intros u. rewrite <- F10. destruct (decide (u = h)) as [->|];
      [rewrite lookup_insert_eq, Hh; split; eauto|by rewrite lookup_insert_ne].
  - intros u tk t [[<- <-]|[? Hu]]%lookup_insert_Some Hlast; [|by apply (F13 u tk)].
    apply (F13 h task); [done|]. by rewrite <- Hw.
  - intros u j x Hu Hst. destruct (F14 u j x Hu Hst) as (G1 & G2 & tk & G3 & G4).
    split_and!; [done..|]. destruct (decide (x = h)) as [->|].
    + rewrite lookup_insert_eq. exists task'. split; [done|]. by simplify_eq; rewrite Hw.
    + rewrite lookup_insert_ne by done. eauto.
Qed.

(** Task [t] registers with the unfinished task [h] that it awaits. *)
Lemma fj_wait res live st t i h k task task' :
  fj_inv (Some t) res live st → live !! t = Some i → i_status i = Running →
  i_prog i = PAwait h k → is_Some (live !! h) → tasks st !! h = Some task →
  t_state task' = t_state task → t_fut task' = t_fut task → aw_last (t_waker task') = Some t →
  fj_inv (Some t) res
    (<[t := mkInfo (i_prog i) (i_env i) (i_res i) (i_cost i) (Waiting h)]> live)
    (with_tasks (<[h := task']> (tasks st)) st).
Proof.
  intros Hinv Ht Hrun Hp Hlh Hh Hs Hf Hlast. set (i' := mkInfo _ _ _ _ _).
  destruct (own_awaits _ _ _ _ _ _ (fj_own _ _ _ _ Hinv) Ht Hp) as [Hown Hth].
  pose proof Hinv as [F1 F2 F3 F4 F5 Fo F8 F9 F10 F13 F14 F15].
  assert (covered (<[t := i']> live) live) as Hcov by by eapply covered_insert.
  split; try done; cbn.
  - intros u. change (queued _) with (queued (pw_world st)). rewrite F3.
    destruct (decide (u = t)) as [->|]; [|by rewrite lookup_insert_ne].
    rewrite lookup_insert_eq, Ht. split; intros (j & [= <-] & Hst); cbn in *; congruence.
  - eapply own_insert; try done. exact (own_evals _ _ Fo t i Ht).
  - intros u j Hu. assert (∃ j0, live !! u = Some j0 ∧ i_prog j = i_prog j0) as (j0 & Hj0 & ->).
    { apply lookup_insert_Some in Hu as [[<- <-]|[_ Hu]]; eauto. }
    destruct (F8 u j0 Hj0) as (tk & p & K1 & K2 & K3 & K4). destruct (decide (u = h)) as [->|].
    + rewrite lookup_insert_eq. simplify_eq. exists task', p. by rewrite Hs, Hf.
    + rewrite lookup_insert_ne by done. by exists tk, p.
  - intros u tk [[<- <-]|[? Hu]]%lookup_insert_Some [Hl _]%lookup_insert_None.
    { rewrite Hl in Hlh. by destruct Hlh. }
    destruct (F9 u tk Hu Hl) as (G1 & G2 & G3). split_and!; [done..|]. intros r Hr Ho.
    by eapply G3, covered_held.
  - by eapply dom_update.
  - intros x tk u [[<- <-]|[? Hx]]%lookup_insert_Some Hl.
    + assert (u = t) as -> by congruence. rewrite lookup_insert_eq. by exists i'.
    + destruct (F13 x tk u Hx Hl) as (j & Hj & Hst). exists j. split; [|done].
      rewrite lookup_insert_ne; [done|]. intros ->. congruence.
  - intros u j x [[<- <-]|[Hut Hu]]%lookup_insert_Some Hst.
    + injection Hst as <-. split_and!; [by exists k|by apply insert_is_Some|].
      rewrite lookup_insert_eq. by exists task'.
    + destruct (F14 u j x Hu Hst) as ([k' Hk'] & G2 & tk & G3 & G4).
      split_and!; [by exists k'|by apply insert_is_Some|].
      rewrite lookup_insert_ne; [by exists tk|]. intros <-. destruct Hut.
      destruct (own_awaits _ _ _ _ _ _ (fj_own _ _ _ _ Hinv) Hu Hk') as [Hox _].
      by apply (own_unique _ _ Fo t i u j h).
  - intros u j [[<- <-]|[? Hu]]%lookup_insert_Some Hst; [done|by apply (F15 u j)].
Qed.

(** Task [t] spawns a child. *)
Lemma fj_spawn res live st st' t i child k rc m n :
  fj_inv (Some t) res live st → live !! t = Some i → i_status i = Running → evals ∅ child rc m →
  (∀ h, i_env i !! h = None → evals (<[h := rc]> (i_env i)) (k h) (i_res i) n) →
  let c := pw_next st in
  tasks st' = <[c := Task_new child]> (tasks st) → pw_next st' = S c →
  none_parked (rw_rt (pw_world st')) → queued (pw_world st') ≡ₚ c :: queued (pw_world st) →
  let i' := mkInfo (k c) (<[c := rc]> (i_env i)) (i_res i) n Running in
  let j' := mkInfo child ∅ rc m Queued in
  live !! c = None ∧ c ≠ t ∧
  fj_inv (Some t) (<[c := rc]> res) (<[c := j']> (<[t := i']> live)) st'.
Proof using AtomicWakerLaws0.
  clear fuel_pos. intros [F1 F2 F3 F4 F5 Fo F8 F9 F10 F13 F14 F15] Ht Hrun Hch Hk c Htk Hn Hp Hq i' j'.
  assert (res !! c = None) as Hrc.
  { destruct (res !! c) eqn:E; [|done]. assert (c < pw_next st) by (apply F4; eauto). lia. }
  assert (live !! c = None) as Hlc.
  { destruct (live !! c) eqn:E; [|done]. apply (own_res _ _ Fo) in E. congruence. }
  assert (t < c) as Htc by (apply F4; rewrite (own_res _ _ Fo t i Ht); eauto).
  assert (c ≠ t) as Hct by lia.
  assert (i_env i !! c = None) as Hec.
  { destruct (i_env i !! c) eqn:E; [|done]. destruct (own_held _ _ Fo t i c _ Ht E). congruence. }
  pose proof (spawned_inv live t c i' j') as Hback.
  pose proof (λ u j, spawned_other live t c i' j' u j Hlc) as Hfwd.
  split; [done|]. split; [done|]. split; rewrite ?Htk, ?Hn; try done.
  - rewrite Hq. apply NoDup_cons. split; [|done]. rewrite F3, Hlc. by intros (? & ? & ?).
  - intros u. rewrite Hq, elem_of_cons, F3. split.
    + intros [->|(j & Hj & Hst)]; [rewrite lookup_insert_eq; by exists j'|].
      exists j. split; [|done]. apply Hfwd; [|done]. intros ->. congruence.
    + intros (j & Hj & Hst). destruct (Hback u j Hj) as [[-> _]|[[-> ->]|(? & ? & ?)]];
        [by left|done|right; eauto].
  - by apply dom_succ.
  - lia.
  - by apply (own_spawned live t c i' j' res i rc Fo Ht Hrc Htc Hec); [..|apply Hk|].
  - intros u j Hu. destruct (Hback u j Hu) as [[-> ->]|[[-> ->]|(? & ? & Hl)]];
      [rewrite lookup_insert_eq; by exists (Task_new child), child|..];
      rewrite lookup_insert_ne by done; [|by apply F8].
    destruct (F8 t i Ht) as (tk & p & K1 & K2 & K3 & _). by exists tk, p.
  - intros u tk [[<- <-]|[? Hu]]%lookup_insert_Some [Hl1 Hl2]%lookup_insert_None; [done|].
    apply lookup_insert_None in Hl1 as [Hl1 _]. destruct (F9 u tk Hu Hl1) as (G1 & G2 & G3).
    split_and!; [done..|]. intros r' Hr' Ho. rewrite lookup_insert_ne in Hr' by done.
    apply G3; [done|]. by eapply (held_spawned live t c i' j' i rc).
  - by apply dom_succ.
  - intros h tk u [[<- <-]|[? Hh]]%lookup_insert_Some Hl.
    + cbn in Hl. by rewrite aw_last_new in Hl.
    + destruct (F13 h tk u Hh Hl) as (j & Hj & Hst). exists j. split; [|done].
      apply Hfwd; [|done]. intros ->. congruence.
  - intros u j h Hu Hst. destruct (Hback u j Hu) as [[-> ->]|[[-> ->]|(? & ? & Hl)]]; [done..|].
    destruct (F14 u j h Hl Hst) as (G1 & G2 & tk & G3 & G4).
    split_and!; [done|by do 2 apply insert_is_Some|].
    exists tk. split; [|done]. rewrite lookup_insert_ne; [done|]. intros <-.
    rewrite Hlc in G2. by destruct G2.
  - intros u j Hu Hst. destruct (Hback u j Hu) as [[-> ->]|[[-> ->]|(? & ? & Hl)]]; [done..|].
    by apply (F15 u j).
Qed.

(** The worker gives the future of [t] back. *)
Lemma fj_store res live st t i task task' :
  fj_inv (Some t) res live st → live !! t = Some i → tasks st !! t = Some task →
  i_status i ≠ Running → t_state task' = IDLE → t_fut task' = JoinInner_Future (i_prog i) →
  t_waker task' = t_waker task →
  fj_inv None res live (with_tasks (<[t := task']> (tasks st)) st).
Proof.
  intros [F1 F2 F3 F4 F5 Fo F8 F9 F10 F13 F14 F15] Ht Htk Hrun Hs Hf Hw.
  split; try done; cbn.
  - intros u j Hu. destruct (decide (u = t)) as [->|].
    + rewrite lookup_insert_eq. exists task', (i_prog i). by simplify_eq.
    + rewrite lookup_insert_ne by done. destruct (F8 u j Hu) as (tk & p & K1 & K2 & K3 & K4).
      exists tk, p. split_and!; [done..|]. intros _. apply K4. congruence.
  - intros u tk [[<- <-]|[? Hu]]%lookup_insert_Some Hl; [congruence|by apply F9].
  - by eapply dom_update.
  - intros u tk x [[<- <-]|[? Hu]]%lookup_insert_Some Hl; [|by apply (F13 u tk)].
    apply (F13 t task); [done|]. by rewrite <- Hw.
  - intros u j x Hu Hst. destruct (F14 u j x Hu Hst) as (G1 & G2 & tk & G3 & G4).
    split_and!; [done..|]. destruct (decide (x = t)) as [->|].
    + rewrite lookup_insert_eq. exists task'. split; [done|]. by simplify_eq; rewrite Hw.
    + rewrite lookup_insert_ne by done. eauto.
  - intros u j Hu Hst. pose proof (F15 u j Hu Hst). congruence.
Qed.

Lemma option_list_elem {X} (x : X) o : x ∈ option_list o ↔ o = Some x.
Proof.
  destruct o as [y|]; cbn; [rewrite list_elem_of_singleton|rewrite elem_of_nil]; naive_solver.
Qed.

(** The task that was registered is queued again. *)
Definition requeue (i : info) : info := mkInfo (i_prog i) (i_env i) (i_res i) (i_cost i) Queued.

Definition after_finish (t : nat) (o : option nat) (live : gmap nat info) : gmap nat info :=
  delete t (from_option (λ u, alter requeue u live) live o).

Lemma after_finish_lookup t o live u j :
  after_finish t o live !! u = Some j →
  u ≠ t ∧ ∃ j0, live !! u = Some j0 ∧ j = if decide (o = Some u) then requeue j0 else j0.
Proof.
  unfold after_finish. intros [Hne Hu]%lookup_delete_Some. split; [done|].
  destruct o as [w|]; cbn in Hu.
  - destruct (decide (u = w)) as [->|Huw].
    + rewrite lookup_alter_eq in Hu. destruct (live !! w) as [j0|] eqn:E; [|done].
      cbn in Hu. exists j0. split; [done|]. rewrite decide_True by done. congruence.
    + rewrite lookup_alter_ne in Hu by done. exists j. split; [done|].
      rewrite decide_False; [done|]. congruence.
  - exists j. split; [done|]. by rewrite decide_False.
Qed.

Lemma after_finish_some t o live u j0 :
  u ≠ t → live !! u = Some j0 →
  after_finish t o live !! u = Some (if decide (o = Some u) then requeue j0 else j0).
Proof.
  intros Hne Hu. unfold after_finish. apply lookup_delete_Some. split; [done|].
  destruct o as [w|]; cbn.
  - destruct (decide (u = w)) as [->|Huw].
    + rewrite lookup_alter_eq, Hu, decide_True by done. done.
    + rewrite lookup_alter_ne, Hu, decide_False by congruence. done.
  - by rewrite decide_False.
Qed.

Lemma covered_finished t o live : covered (after_finish t o live) live.
Proof.
  intros u j (_ & j0 & Hj0 & ->)%after_finish_lookup. exists j0. split; [done|]. by case_decide.
Qed.

Lemma own_finished res live t o : own_ok res live → own_ok res (after_finish t o live).
Proof.
  intros Hown. apply (own_covered _ _ _ Hown (covered_finished t o live)).
  intros u j (_ & j0 & Hj0 & ->)%after_finish_lookup. pose proof (own_evals _ _ Hown u j0 Hj0).
  by case_decide.
Qed.

(** The queued ones, when the joiner of [t] was waiting. *)
Lemma finished_queued live t i o u :
  live !! t = Some i → i_status i = Running →
  (∀ u, o = Some u → ∃ j, live !! u = Some j ∧ i_status j = Waiting t) →
  o = Some u ∨ (∃ j, live !! u = Some j ∧ i_status j = Queued) ↔
  ∃ j, after_finish t o live !! u = Some j ∧ i_status j = Queued.
Proof.
  intros Ht Hrun Ho. split.
  - intros [Hu|(j & Hj & Hst)].
    + destruct (Ho u Hu) as (j & Hj & Hst). eexists.
      split; [apply after_finish_some; [|done]|by rewrite decide_True]. intros ->. congruence.
    + eexists. split; [apply after_finish_some; [|done]|by case_decide]. intros ->. congruence.
  - intros (j & (_ & j0 & Hj0 & ->)%after_finish_lookup & Hst). case_decide; [by left|right; eauto].
Qed.

Lemma total_finish t o live i :
  live !! t = Some i → (∀ u, o = Some u → u ≠ t ∧ ∃ j, live !! u = Some j ∧ i_status j = Waiting t) →
  total (after_finish t o live) + weight i ≤ total live + 2.
Proof.
  intros Ht Ho. unfold after_finish. destruct o as [u|]; cbn [from_option].
  - destruct (Ho u eq_refl) as (Hne & j & Hj & Hst).
    assert (alter requeue u live !! t = Some i) as Ht' by by rewrite lookup_alter_ne.
    pose proof (map_sum_delete weight _ _ _ Ht') as Hd.
    assert (alter requeue u live = <[u := requeue j]> live) as Ha.
    { apply map_eq. intros x. destruct (decide (x = u)) as [->|].
      - by rewrite lookup_alter_eq, lookup_insert_eq, Hj.
      - by rewrite lookup_alter_ne, lookup_insert_ne. }
    pose proof (map_sum_update weight live u j (requeue j) Hj) as Hu. rewrite <- Ha in Hu.
    assert (weight (requeue j) = weight j + 2) by (unfold weight; cbn; rewrite Hst; lia). lia.
  - rewrite (map_sum_delete weight live t i Ht). lia.
Qed.

(** Task [t] is complete, and wakes the one that awaits it. *)
Lemma fj_finish res live st st' t i r task task' :
  fj_inv (Some t) res live st → live !! t = Some i → i_status i = Running → i_res i = r →
  tasks st !! t = Some task → tasks st' = <[t := task']> (tasks st) → pw_next st' = pw_next st →
  t_state task' = COMPLETED → t_fut task' = JoinInner_Return (joined r) →
  aw_last (t_waker task') = None → none_parked (rw_rt (pw_world st')) →
  queued (pw_world st') ≡ₚ option_list (aw_last (t_waker task)) ++ queued (pw_world st) →
  fj_inv None res (after_finish t (aw_last (t_waker task)) live) st'.
Proof.
  intros Hinv Ht Hrun Hr Htk Htk' Hn Hs Hf Hw Hp Hq.
  pose proof Hinv as [F1 F2 F3 F4 F5 Fo F8 F9 F10 F13 F14 F15].
  set (o := aw_last (t_waker task)) in *.
  assert (∀ u, o = Some u → ∃ j, live !! u = Some j ∧ i_status j = Waiting t) as Ho.
  { intros u Hu. by apply (F13 t task). }
  assert (∀ u, o = Some u → u ≠ t) as Hot.
  { intros u Hu ->. destruct (Ho t Hu) as (j & Hj & Hst). congruence. }
  split; rewrite ?Htk', ?Hn; try done.
  - rewrite Hq. destruct o as [u|] eqn:E; [|done]. cbn. apply NoDup_cons. split; [|done].
    rewrite F3. intros (j & Hj & Hst). destruct (Ho u eq_refl) as (j' & Hj' & Hst'). congruence.
  - intros u. rewrite Hq, elem_of_app, option_list_elem, F3. by eapply finished_queued.
  - by apply own_finished.
  - intros u j (Hne & j0 & Hj0 & Hj)%after_finish_lookup. rewrite lookup_insert_ne by done.
    assert (i_prog j = i_prog j0) as -> by (rewrite Hj; by case_decide).
    destruct (F8 u j0 Hj0) as (tk & p & K1 & K2 & K3 & K4). exists tk, p.
    split_and!; [done..|]. intros _. apply K4. congruence.
  - intros u tk [[<- <-]|[? Hu]]%lookup_insert_Some Hl.
    + split_and!; [done|by eexists|]. intros r' Hr' _. rewrite (own_res _ _ Fo t i Ht) in Hr'. congruence.
    + assert (live !! u = None) as Hlu.
      { destruct (live !! u) eqn:E; [|done]. by rewrite (after_finish_some t o live u i0) in Hl. }
      destruct (F9 u tk Hu Hlu) as (G1 & G2 & G3). split_and!; [done..|]. intros r' Hr' Ho'.
      by eapply G3, covered_held, Ho'; [|apply covered_finished].
  - by eapply dom_update.
  - intros x tk u [[<- <-]|[Hne Hx]]%lookup_insert_Some Hl; [congruence|].
    destruct (F13 x tk u Hx Hl) as (j & Hj & Hst). exists j. split; [|done].
    rewrite (after_finish_some t o live u j); [|intros ->; congruence|done].
    rewrite decide_False; [done|]. intros Hou. destruct (Ho u Hou) as (j' & Hj' & Hst'). congruence.
  - intros u j x Hu Hst. apply after_finish_lookup in Hu as (Hne & j0 & Hj0 & ->).
    case_decide as Hou; [done|]. destruct (F14 u j0 x Hj0 Hst) as (G1 & [jx Gx] & tk & G3 & G4).
    assert (x ≠ t) as Hxt by (intros ->; apply Hou; unfold o; congruence).
    split_and!; [done|by rewrite (after_finish_some t o live x jx)|].
    exists tk. split; [|done]. by rewrite lookup_insert_ne.
  - intros u j Hu Hst. apply after_finish_lookup in Hu as (Hne & j0 & Hj0 & ->).
    case_decide; [done|]. pose proof (F15 u j0 Hj0 Hst). congruence.
Qed.

(** ** A poll *)

(** How a poll of [t] leaves the system. *)
Record polled_ok (t : nat) (i : info) (res : gmap nat (result O P)) (live : gmap nat info)
    (out : result (poll O) P) (p : prog O P) (st : pworld) (res' : gmap nat (result O P))
    (live' : gmap nat info) (i' : info) : Prop := {
  po_inv : fj_inv (Some t) res' live' st;
  po_info : live' !! t = Some i';
  po_res : i_res i' = i_res i;
  po_grows : res ⊆ res';
  po_total : total live' ≤ total live;
  po_out :
    match out with
    | Ok Pending => i_prog i' = p ∧ i_status i' ≠ Running
    | Ok (Ready_ v) => i_res i' = Ok v ∧ i_status i' = Running ∧ i_cost i' = 1
    | Err e => i_res i' = Err e ∧ i_status i' = Running ∧ i_cost i' = 1
    end;
}.

Lemma running_unqueued act res live st t i :
  fj_inv act res live st → live !! t = Some i → i_status i = Running → t ∉ queued (pw_world st).
Proof.
  intros Hinv Ht Hrun Hq. apply (fj_queued _ _ _ _ Hinv) in Hq as (j & Hj & Hst). congruence.
Qed.

Lemma weight_running i : i_status i = Running → weight i = 3 * i_cost i + 1.
Proof. intros Hi. unfold weight. by rewrite Hi. Qed.

(** [yield_now().await]. *)
Lemma poll_yield res live st t i k :
  fj_inv (Some t) res live st → live !! t = Some i → i_status i = Running → i_prog i = PYield k →
  ∃ st' i', poll_prog t (PYield k) st = Done (Ok Pending, k, st') ∧
    polled_ok t i res live (Ok Pending) k st' res (<[t := i']> live) i'.
Proof using fuel_pos TaskListLaws0.
  intros Hinv Ht Hrun Hp. pose proof (running_unqueued _ _ _ _ _ _ Hinv Ht Hrun) as Hq.
  destruct (wake_ok t st (fj_parked _ _ _ _ Hinv) Hq) as (exe & rt & Hw & Hpk & Hperm).
  pose proof (own_evals _ _ (fj_own _ _ _ _ Hinv) t i Ht) as Hev. rewrite Hp in Hev.
  apply evals_yield_inv in Hev as (n & Hc & Hk).
  set (i' := mkInfo k (i_env i) (i_res i) n Queued).
  exists (with_queues exe rt st), i'. cbn [poll_prog]. rewrite Hw. split; [done|].
  split; [| |done|done| |done].
  - eapply (fj_change (Some t) res live st _ t i i'); try done; [by right| | | |by rewrite Hrun].
    + rewrite Hperm. apply NoDup_cons. split; [done|apply (fj_nodup _ _ _ _ Hinv)].
    + intros u Hu. rewrite Hperm, elem_of_cons. split; [by intros [?|?]|by right].
    + rewrite Hperm. split; [done|]. by left.
  - apply lookup_insert_eq.
  - pose proof (map_sum_update weight live t i i' Ht) as Ht'. rewrite (weight_running i Hrun), Hc in Ht'.
    assert (weight i' = 3 * n + 2) by done. lia.
Qed.

(** [handle.await] of a task that is not finished. *)
Lemma poll_await_pending res live st t i h k :
  fj_inv (Some t) res live st → live !! t = Some i → i_status i = Running →
  i_prog i = PAwait h k → is_Some (live !! h) →
  ∃ st' i', poll_prog t (PAwait h k) st = Done (Ok Pending, PAwait h k, st') ∧
    polled_ok t i res live (Ok Pending) (PAwait h k) st' res (<[t := i']> live) i'.
Proof using fuel_pos AtomicWakerLaws0.
  intros Hinv Ht Hrun Hp Hlh. destruct Hlh as [ih Hih].
  destruct (fj_live _ _ _ _ Hinv h ih Hih) as (task & p & Htk & Hs & Hf & _).
  set (i' := mkInfo (i_prog i) (i_env i) (i_res i) (i_cost i) (Waiting h)).
  set (task' := Task_register task t).
  assert (JoinHandle_poll task t = (task', Pending)) as Hjp.
  { unfold JoinHandle_poll, Task_take_output. rewrite Hf. cbn. by rewrite Hf. }
  exists (with_tasks (<[h := task']> (tasks st)) st), i'. split.
  { cbn [poll_prog]. rewrite Htk. cbn [unwrap mbind outcome_bind]. by rewrite Hjp. }
  split; [|by apply lookup_insert_eq|done|done| |done].
  - eapply fj_wait; try done. apply aw_last_register.
  - pose proof (map_sum_update weight live t i i' Ht) as Ht'. rewrite (weight_running i Hrun) in Ht'.
    assert (weight i' = 3 * i_cost i + 0) by done. lia.
Qed.

(** [handle.await] of a finished task: its result, which is taken. *)
Lemma poll_await_ready res live st t i h k :
  fj_inv (Some t) res live st → live !! t = Some i → i_status i = Running →
  i_prog i = PAwait h k → live !! h = None →
  ∃ st' rh i', poll_prog t (PAwait h k) st = poll_prog t (k (joined rh)) st' ∧
    i_prog i' = k (joined rh) ∧ i_status i' = Running ∧ i_res i' = i_res i ∧
    fj_inv (Some t) res (<[t := i']> live) st' ∧ total (<[t := i']> live) ≤ total live.
Proof using fuel_pos TaskListLaws0.
  intros Hinv Ht Hrun Hp Hlh.
  destruct (own_awaits _ _ _ _ _ _ (fj_own _ _ _ _ Hinv) Ht Hp) as [Hown Hth].
  pose proof (own_evals _ _ (fj_own _ _ _ _ Hinv) t i Ht) as Hev. rewrite Hp in Hev.
  apply evals_await_inv in Hev as (rh & n & Hc & Henv & Hk).
  destruct (own_held _ _ (fj_own _ _ _ _ Hinv) t i h rh Ht Henv) as [_ Hres].
  assert (is_Some (tasks st !! h)) as [task Htk].
  { apply (fj_tasks _ _ _ _ Hinv), (fj_dom _ _ _ _ Hinv). eauto. }
  destruct (fj_done _ _ _ _ Hinv h task Htk Hlh) as (_ & _ & Hout).
  assert (t_fut task = JoinInner_Return (joined rh)) as Hf by (apply Hout; [done|]; right; eauto).
  set (task' := with_fut (JoinInner_Return (Err JoinError_Aborted)) task).
  assert (JoinHandle_poll task t = (task', Ready_ (joined rh))) as Hjp.
  { unfold JoinHandle_poll, Task_take_output. by rewrite Hf. }
  set (i' := mkInfo (k (joined rh)) (delete h (i_env i)) (i_res i) n Running).
  exists (with_tasks (<[h := task']> (tasks st)) st), rh, i'.
  split; [|split_and!; [done..| |]].
  - cbn [poll_prog]. rewrite Htk. cbn [unwrap mbind outcome_bind]. by rewrite Hjp.
  - assert (fj_inv (Some t) res (<[t := i']> live) st) as Hinv'.
    { pose proof (running_unqueued _ _ _ _ _ _ Hinv Ht Hrun).
      apply (fj_change (Some t) res live st st t i i'); try done;
        [by right|apply Hinv|apply Hinv|apply delete_subseteq|by rewrite Hrun]. }
    apply (fj_take _ _ _ _ h task task' Hinv'); try done; [|lia| |by eexists].
    + rewrite lookup_insert_ne; [done|lia].
    + intros o j [[<- <-]|[Hne Hj]]%lookup_insert_Some; [apply lookup_delete_eq|].
      destruct (i_env j !! h) eqn:E; [|done]. destruct Hne.
      eapply (own_unique _ _ (fj_own _ _ _ _ Hinv) t i o j h); eauto.
  - pose proof (map_sum_update weight live t i i' Ht) as Ht'. rewrite (weight_running i Hrun), Hc in Ht'.
    assert (weight i' = 3 * n + 1) by done. lia.
Qed.

(** [spawn(child)]. *)
Lemma poll_spawn res live st t i child k :
  fj_inv (Some t) res live st → live !! t = Some i → i_status i = Running →
  i_prog i = PSpawn child k →
  ∃ st' h i' res' live', poll_prog t (PSpawn child k) st = poll_prog t (k h) st' ∧
    i_prog i' = k h ∧ i_status i' = Running ∧ i_res i' = i_res i ∧ live' !! t = Some i' ∧
    fj_inv (Some t) res' live' st' ∧ total live' ≤ total live ∧ res ⊆ res'.
Proof using fuel_pos TaskListLaws0 AtomicWakerLaws0.
  intros Hinv Ht Hrun Hp. pose proof (own_evals _ _ (fj_own _ _ _ _ Hinv) t i Ht) as Hev. rewrite Hp in Hev.
  apply evals_spawn_inv in Hev as (rc & m & n & Hc & Hch & Hk). set (c := pw_next st).
  assert (c ∉ queued (pw_world st)) as Hcq.
  { intros Hq. apply (fj_queued _ _ _ _ Hinv) in Hq as (j & Hj & _). apply (own_res _ _ (fj_own _ _ _ _ Hinv)) in Hj.
    assert (c < pw_next st) by (apply (fj_dom _ _ _ _ Hinv); eauto). unfold c in *. lia. }
  pose proof Hcq as Hcg. unfold queued in Hcg. rewrite not_elem_of_app in Hcg. destruct Hcg as [_ Hcg].
  destruct (schedule_local_idle c (rw_exec (pw_world st)) _ (fj_parked _ _ _ _ Hinv) Hcg)
    as (exe & rt & Hs & Hpk & Hperm).
  set (w := pw_world st) in *.
  set (st' := mkPWorld (mkWorld (JoinHandle_new c child (rw_tasks w)) exe (rw_counter w) rt
    (rw_woken w)) (S c)).
  assert (spawn_here child st = Done (c, st')) as Hsp.
  { unfold spawn_here, spawn. cbn [unwrap mbind outcome_bind]. unfold ExecutorHandle_spawn.
    fold w c. by rewrite Hs. }
  destruct (fj_spawn res live st st' t i child k rc m n Hinv Ht Hrun Hch Hk
    eq_refl eq_refl Hpk Hperm) as (Hlc & Hct & Hinv'). fold c in Hlc, Hct, Hinv'.
  set (i' := mkInfo (k c) (<[c := rc]> (i_env i)) (i_res i) n Running) in *.
  exists st', c, i'. do 2 eexists. split; [|split_and!; [done..| |exact Hinv'| |]].
  - cbn [poll_prog]. by rewrite Hsp.
  - rewrite lookup_insert_ne by done. apply lookup_insert_eq.
  - rewrite (map_sum_insert weight) by (by rewrite lookup_insert_ne).
    pose proof (map_sum_update weight live t i i' Ht) as Ht'. rewrite (weight_running i Hrun), Hc in Ht'.
    assert (weight i' = 3 * n + 1) by done. unfold weight at 1. cbn [i_cost i_status]. lia.
  - apply insert_subseteq. destruct (res !! c) eqn:E; [|done].
    assert (c < pw_next st) by (apply (fj_dom _ _ _ _ Hinv); eauto). unfold c in *. lia.
Qed.

Lemma poll_prog_ok p : ∀ res live st t i,
  fj_inv (Some t) res live st → live !! t = Some i → i_status i = Running → i_prog i = p →
  ∃ out p' st' res' live' i', poll_prog t p st = Done (out, p', st') ∧
    polled_ok t i res live out p' st' res' live' i'.
Proof using fuel_pos TaskListLaws0 AtomicWakerLaws0.
  induction p as [r|k IH|child _ k IH|h k IH]; intros res live st t i Hinv Ht Hrun Hp.
  - pose proof (own_evals _ _ (fj_own _ _ _ _ Hinv) t i Ht) as Hev. rewrite Hp in Hev.
    apply evals_return_inv in Hev as [Hr Hc].
    destruct r as [v|e]; do 6 eexists; (split; [reflexivity|]); by split.
  - destruct (poll_yield res live st t i k Hinv Ht Hrun Hp) as (st' & i' & Hpoll & Hok).
    do 6 eexists. by split.
  - destruct (poll_spawn res live st t i child k Hinv Ht Hrun Hp)
      as (st1 & h & i1 & res1 & live1 & Hpoll & Hp1 & Hr1 & Hres1 & Ht1 & Hinv1 & Htot & Hsub).
    destruct (IH h res1 live1 st1 t i1 Hinv1 Ht1 Hr1 Hp1)
      as (out & p' & st' & res' & live' & i' & Hrun' & [G1 G2 G3 G4 G5 G6]).
    do 6 eexists. rewrite Hpoll. split; [done|]. split; try done; [congruence|by etrans|lia].
  - destruct (live !! h) as [ih|] eqn:Hlh.
    + destruct (poll_await_pending res live st t i h k Hinv Ht Hrun Hp) as (st' & i' & Hpoll & Hok);
        [by eexists|]. do 6 eexists. by split.
    + destruct (poll_await_ready res live st t i h k Hinv Ht Hrun Hp Hlh)
        as (st1 & rh & i1 & Hpoll & Hp1 & Hr1 & Hres1 & Hinv1 & Htot).
      destruct (IH (joined rh) res _ st1 t i1 Hinv1 (lookup_insert_eq _ _ _) Hr1 Hp1)
        as (out & p' & st' & res' & live' & i' & Hrun' & [G1 G2 G3 G4 G5 G6]).
      do 6 eexists. rewrite Hpoll. split; [done|]. split; try done; [congruence|lia].
Qed.

(** ** A turn of the worker *)

(** What [run] does after a poll that was pending, and after the last one. *)
Lemma Task_run_pending (task : Task (prog O P) O P A) f p :
  t_state task = IDLE → t_fut task = JoinInner_Future f →
  Task_run (Some (Ok Pending, p)) task = (mkTask IDLE (t_waker task) (JoinInner_Future p), []).
Proof. destruct task as [s a fu]. cbn. intros -> ->. reflexivity. Qed.

Lemma Task_run_finished (task : Task (prog O P) O P A) f p r :
  t_state task = IDLE → t_fut task = JoinInner_Future f →
  Task_run (Some (returned r, p)) task =
  (mkTask COMPLETED (aw_wake (t_waker task)).2 (JoinInner_Return (joined r)),
   WakeJoiner <$> option_list (aw_last (t_waker task))).
Proof using AtomicWakerLaws0.
  destruct task as [s a fu]. cbn. intros -> ->. unfold Task_run, try_update, run_claim.
  rewrite <- aw_wake_last. destruct r as [v|e]; cbn; unfold wake_joiner; cbn;
    destruct (aw_wake a) as [[w|] a']; reflexivity.
Qed.

(** The joiner that [run] wakes is queued. *)
Lemma wake_joiner_ok t o st :
  none_parked (rw_rt (pw_world st)) → (∀ u, o = Some u → u ∉ queued (pw_world st)) →
  ∃ st', perform_effects t (WakeJoiner <$> option_list o) st = Done st' ∧
    tasks st' = tasks st ∧ pw_next st' = pw_next st ∧ none_parked (rw_rt (pw_world st')) ∧
    queued (pw_world st') ≡ₚ option_list o ++ queued (pw_world st).
Proof using fuel_pos TaskListLaws0.
  intros Hp Ho. destruct o as [u|]; [|by eexists].
  destruct (wake_ok u st Hp (Ho u eq_refl)) as (exe & rt & Hw & Hp' & Hq).
  exists (with_queues exe rt st). split; [|by split_and!].
  change ((st1 ← wake_here u st; perform_effects t [] st1) = Done (with_queues exe rt st)). by rewrite Hw.
Qed.

Lemma run_prog_ok res live st t i :
  fj_inv None res live st → live !! t = Some i → i_status i = Queued →
  (** the worker has taken [t] off the queue *)
  ∀ st1, tasks st1 = tasks st → pw_next st1 = pw_next st → none_parked (rw_rt (pw_world st1)) →
    queued (pw_world st) ≡ₚ t :: queued (pw_world st1) →
  ∃ st' res' live', run_prog t st1 = Done st' ∧ fj_inv None res' live' st' ∧
    res ⊆ res' ∧ total live' < total live.
Proof using fuel_pos TaskListLaws0 AtomicWakerLaws0.
  intros Hinv Ht Hst st1 Htk Hn Hpk Hperm.
  set (i1 := mkInfo (i_prog i) (i_env i) (i_res i) (i_cost i) Running).
  pose proof (fj_nodup _ _ _ _ Hinv) as Hnd. rewrite Hperm in Hnd. apply NoDup_cons in Hnd as [Htq Hnd].
  assert (fj_inv (Some t) res (<[t := i1]> live) st1) as Hinv1.
  { apply (fj_change None res live st st1 t i i1); try done; [by left| |exact (own_evals _ _ (fj_own _ _ _ _ Hinv) t i Ht)|by rewrite Hst].
    intros u Hu. rewrite Hperm, elem_of_cons. split; [by right|by intros [?|?]]. }
  assert (total (<[t := i1]> live) < total live) as Htot1.
  { pose proof (map_sum_update weight live t i i1 Ht) as Hu. assert (weight i1 = 3 * i_cost i + 1) by done.
    assert (weight i = 3 * i_cost i + 2) by (unfold weight; by rewrite Hst). lia. }
  destruct (poll_prog_ok (i_prog i) res _ st1 t i1 Hinv1 (lookup_insert_eq _ _ _) eq_refl eq_refl)
    as (out & p' & st2 & res' & live' & i2 & Hpoll & [G1 G2 G3 G4 G5 G6]).
  destruct (fj_live _ _ _ _ Hinv t i Ht) as (task & p & Htk1 & Hs & Hf & Hp).
  rewrite (Hp ltac:(done)) in Hf. clear p Hp.
  destruct (fj_live _ _ _ _ G1 t i2 G2) as (task2 & p2 & Htk2 & Hs2 & Hf2 & _).
  unfold run_prog. rewrite Htk, Htk1. cbn [unwrap mbind outcome_bind]. unfold poll_task.
  rewrite Hf, decide_True, Hpoll by done. cbn [mbind outcome_bind mret outcome_ret].
  rewrite Htk2. cbn [unwrap mbind outcome_bind].
  assert (out = Ok Pending ∨ out ≠ Ok Pending) as [->|Hready]
    by (destruct out as [[]|]; [by right|by left|by right]).
  - rewrite (Task_run_pending task2 p2) by done. cbn [perform_effects]. destruct G6 as [<- Hnr].
    eexists _, res', live'. split; [done|]. split; [by eapply fj_store|]. split; [done|lia].
  - assert (out = returned (i_res i2) ∧
      i_status i2 = Running ∧ i_cost i2 = 1) as (-> & Hrun2 & Hc2).
    { destruct out as [[v|]|e]; [|done|]; destruct G6 as (-> & ? & ?); done. }
    rewrite (Task_run_finished task2 p2) by done.
    set (task' := mkTask _ _ _). set (o := aw_last (t_waker task2)).
    assert (∀ u, o = Some u → u ≠ t ∧ ∃ j, live' !! u = Some j ∧ i_status j = Waiting t) as Ho.
    { intros u Hu. destruct (fj_wakers _ _ _ _ G1 t task2 u Htk2 Hu) as (j & Hj & Hstj).
      split; [|eauto]. intros ->. congruence. }
    set (st3 := with_tasks (<[t := task']> (tasks st2)) st2).
    destruct (wake_joiner_ok t o st3) as (st4 & He & K1 & K2 & K3 & K4);
      [exact (fj_parked _ _ _ _ G1)| |].
    { intros u Hu. change (queued (pw_world st3)) with (queued (pw_world st2)).
      rewrite (fj_queued _ _ _ _ G1). destruct (Ho u Hu) as (_ & j & Hj & Hstj).
      intros (j' & Hj' & Hq'). congruence. }
    exists st4, res', (after_finish t o live'). split; [done|]. split; [|split; [done|]].
    + eapply (fj_finish res' live' st2 st4 t i2 (i_res i2) task2 task'); try done. apply aw_wake_empties.
    + pose proof (total_finish t o live' i2 G2 Ho) as Hfin. rewrite (weight_running i2 Hrun2) in Hfin. lia.
Qed.
(** The head of the two queues is run. *)
Lemma prog_turn_ok io_free res live st t q :
  fj_inv None res live st → queued (pw_world st) = t :: q →
  ∃ st' res' live', prog_turn io_free st = Done (RunTask t, st') ∧ fj_inv None res' live' st' ∧
    res ⊆ res' ∧ total live' < total live.
Proof using fuel_pos TaskListLaws0 AtomicWakerLaws0.
  intros Hinv Hst. unfold prog_turn, run_forever_turn. set (w := pw_world st) in *.
  pose proof (next_task_conserves grow (rw_counter w) (rw_exec w) (rw_rt w)) as Hc.
  pose proof (next_task_rt grow (rw_counter w) (rw_exec w) (rw_rt w)) as Hrt.
  destruct (next_task grow (rw_counter w) (rw_exec w) (rw_rt w)) as [[[o c] exe] rt].
  destruct Hc as [Hc Hnone]. fold (queued w) in Hc. rewrite Hst in Hc. destruct o as [t'|].
  2: { destruct (proj1 Hnone eq_refl) as [Hl0 Hg0]. unfold queued in Hst. by rewrite Hl0, Hg0 in Hst. }
  cbn in Hc. injection Hc as -> Hc.
  set (st1 := mkPWorld (mkWorld (rw_tasks w) exe c rt (rw_woken w)) (pw_next st)).
  assert (∃ i, live !! t = Some i ∧ i_status i = Queued) as (i & Ht & Hi).
  { apply (fj_queued _ _ _ _ Hinv). fold w. rewrite Hst. by left. }
  destruct (run_prog_ok res live st t i Hinv Ht Hi st1) as (st' & res' & live' & Hrun & Hok); [done..| | |].
  - destruct (fj_parked _ _ _ _ Hinv) as (cap & m & ws & Hpk & Hqm). cbn. rewrite Hrt.
    exists cap, m, ws. split; [by apply parking_ok_global|done].
  - fold w. rewrite Hst. apply perm_skip. unfold queued. cbn. by rewrite Hc.
  - exists st', res', live'. cbn [snd fst]. by rewrite Hrun.
Qed.

(** An unfinished task that is not queued awaits a later one: when no task is queued,
    all are complete. *)
Lemma none_queued_none_live res live st :
  fj_inv None res live st → queued (pw_world st) = [] → live = ∅.
Proof.
  clear fuel_pos. intros Hinv Hq.
  assert (∀ n t i, pw_next st ≤ n + t → live !! t = Some i → False) as Hno.
  { induction n as [|n IH]; intros t i Hn Ht.
    all: assert (t < pw_next st) by (apply (fj_dom _ _ _ _ Hinv);
      rewrite (own_res _ _ (fj_own _ _ _ _ Hinv) t i Ht); by eexists).
    { lia. }
    destruct (i_status i) as [| |h] eqn:Hst.
    - assert (t ∈ queued (pw_world st)) as Hin by (apply (fj_queued _ _ _ _ Hinv); eauto).
      rewrite Hq in Hin. by apply not_elem_of_nil in Hin.
    - by pose proof (fj_running _ _ _ _ Hinv t i Ht Hst).
    - destruct (fj_waits _ _ _ _ Hinv t i h Ht Hst) as ([k Hk] & [j Hj] & _).
      destruct (own_awaits _ _ _ _ _ _ (fj_own _ _ _ _ Hinv) Ht Hk) as [_ Hlt].
      apply (IH h j); [lia|done]. }
  apply map_eq. intros t. rewrite lookup_empty. destruct (live !! t) as [i|] eqn:Ht; [|done].
  exfalso. apply (Hno (pw_next st) t i); [lia|done].
Qed.

(** Turn after turn, until no work is left. *)
Lemma prog_turns_ok io_free n : ∀ res live st,
  fj_inv None res live st → total live ≤ n →
  ∃ turns st' res', turns ≤ n ∧ prog_turns turns io_free st = Done st' ∧
    fj_inv None res' ∅ st' ∧ res ⊆ res' ∧ queued (pw_world st') = [].
Proof using fuel_pos TaskListLaws0 AtomicWakerLaws0.
  induction n as [|n IH]; intros res live st Hinv Hn;
    (destruct (queued (pw_world st)) as [|t q] eqn:Hq;
      [rewrite (none_queued_none_live res live st Hinv Hq) in Hinv; by exists 0, st, res; split; [lia|]|]);
    destruct (prog_turn_ok io_free res live st t q Hinv Hq) as (st1 & res1 & live1 & Ht & Hinv1 & Hs & Hlt).
  { lia. }
  destruct (IH res1 live1 st1 Hinv1) as (turns & st' & res' & Hle & Hrun & Hok & Hsub & Hq'); [lia|].
  exists (S turns), st', res'. split_and!; [lia| |done|by etrans|done]. cbn [prog_turns]. by rewrite Ht.
Qed.

Lemma spawn_main_ok n main r cost :
  evals ∅ main r cost →
  ∃ st, spawn_main n main = Done st ∧
    fj_inv None {[0 := r]} {[0 := mkInfo main ∅ r cost Queued]} st.
Proof using fuel_pos TaskListLaws0 AtomicWakerLaws0.
  intros Hev. unfold spawn_main, MTRuntime_spawn, schedule_on.
  pose proof (new_none_parked n : none_parked (rw_rt (new_world n : tworld))) as Hp.
  assert (queued (new_world n : tworld) = []) as Hnil.
  { unfold queued. cbn. apply tl_new_view. }
  assert (0 ∉ tl_view (global_queue (rw_rt (new_world n : tworld)))) as Hg.
  { unfold queued in Hnil. apply app_nil in Hnil as [_ ->]. by intros ?%elem_of_nil. }
  destruct (schedule_global_idle fuel fuel_pos 0 _ Hp Hg) as (rt & -> & Hp' & Hv).
  eexists. split; [done|]. set (st := mkPWorld _ _).
  assert (queued (pw_world st) = [0]) as Hq'.
  { unfold queued. cbn. rewrite Hv. cbn. by rewrite tl_new_view. }
  assert (∀ t task, tasks st !! t = Some task → t = 0 ∧ task = Task_new main) as Htk.
  { intros t task Ht. change (tasks st) with ({[0 := Task_new main]} : gmap nat (Task (prog O P) O P A)) in Ht.
    by apply lookup_singleton_Some in Ht as [<- <-]. }
  assert (∀ t, is_Some (tasks st !! t) ↔ t < 1) as Hdom.
  { intros t. split; [by intros [task [-> _]%Htk]; lia|]. intros Hlt. assert (t = 0) as -> by lia.
    by exists (Task_new main). }
  clear fuel_pos Hg Hp Hv. split; rewrite ?Hq'; try done.
  - apply NoDup_singleton.
  - intros t. rewrite list_elem_of_singleton. setoid_rewrite lookup_singleton_Some. naive_solver.
  - intros t. rewrite lookup_singleton_is_Some. cbn. lia.
  - cbn. lia.
  - split; try by intros t i [<- <-]%lookup_singleton_Some.
    + by intros t i h r' [<- <-]%lookup_singleton_Some.
    + by intros t1 i1 t2 i2 h [<- <-]%lookup_singleton_Some [<- <-]%lookup_singleton_Some.
  - intros t i [<- <-]%lookup_singleton_Some. by exists (Task_new main), main.
  - intros t task [-> _]%Htk. by rewrite lookup_singleton_eq.
  - intros h task t [-> ->]%Htk. cbn. by rewrite aw_last_new.
  - by intros t i h [<- <-]%lookup_singleton_Some.
  - by intros t i [<- <-]%lookup_singleton_Some.
Qed.
(** A worker without tasks. *)
Lemma prog_idle io_free st :
  queued (pw_world st) = [] →
  ∃ st', prog_turn io_free st = Done (if io_free then PollIo else Park, st').
Proof using TaskListLaws0.
  intros Hq. apply app_nil in Hq. unfold prog_turn, run_forever_turn. set (w := pw_world st) in *.
  pose proof (next_task_conserves grow (rw_counter w) (rw_exec w) (rw_rt w)) as Hc.
  destruct (next_task grow (rw_counter w) (rw_exec w) (rw_rt w)) as [[[o c] exe] rt].
  destruct Hc as [_ Hnone]. rewrite (proj2 Hnone Hq). destruct io_free; by eexists.
Qed.

(** ** Property *)

(** Programs that spawn and await each other run to their end.  A program that
    comes to the result [r] is spawned on a new runtime; a worker that takes one task
    after the other has, after at most three turns for each step of the program and
    of all it spawns, and two more, no task left in a queue.  By then every task that
    was spawned is complete, the handle of the first yields [r], or the panic, and the
    worker goes on to poll the driver or to park: no waker was lost between a task and
    the one that awaits it, and each task received the results of those it awaited. *)
Theorem fork_join_completes n io_free main r cost :
  evals ∅ main r cost →
  ∃ turns st, turns ≤ 3 * cost + 2 ∧
    (st ← spawn_main n main; prog_turns turns io_free st) = Done st ∧
    (∀ t task, tasks st !! t = Some task → t_state task = COMPLETED) ∧
    (∃ task, tasks st !! 0 = Some task ∧ ∀ w, (JoinHandle_poll task w).2 = Ready_ (joined r)) ∧
    ∃ st', prog_turn io_free st = Done (if io_free then PollIo else Park, st').
Proof using fuel_pos TaskListLaws0 AtomicWakerLaws0.
  intros Hev. destruct (spawn_main_ok n main r cost Hev) as (st0 & Hs & Hinv0).
  destruct (prog_turns_ok io_free (3 * cost + 2) _ _ st0 Hinv0) as
    (turns & st & res & Hle & Hrun & Hinv & Hsub & Hq).
  { rewrite <- insert_empty, (map_sum_insert weight) by apply lookup_empty. unfold weight.
    rewrite map_sum_empty. cbn. lia. }
  exists turns, st. rewrite Hs. split_and!; [done|exact Hrun| | |].
  - intros t task Ht. by apply (fj_done _ _ _ _ Hinv t task Ht), lookup_empty.
  - destruct (proj2 (fj_tasks _ _ _ _ Hinv 0) (fj_next _ _ _ _ Hinv)) as [task Ht].
    destruct (fj_done _ _ _ _ Hinv 0 task Ht (lookup_empty _)) as (_ & _ & Hret).
    exists task. split; [done|]. intros w. unfold JoinHandle_poll, Task_take_output.
    rewrite (Hret r); [done| |by left]. by eapply lookup_weaken, Hsub; rewrite lookup_singleton_eq.
  - by apply prog_idle.
Qed.
End fork_join.

(** ** Example *)

Import TaskListRef AtomicWakerRef ProgramsRef.

Lemma fork_join_completes_witness :
  evals ∅ sum_up (Ok 103) 13 ∧
  ∃ turns (st : pworld (G := list nat) (A := option nat)), turns ≤ 41 ∧
    (st ← spawn_main 1 S 0 2 sum_up; prog_turns 1 S 0 turns true st) = Done st ∧
    ∃ task, tasks st !! 0 = Some task ∧ (JoinHandle_poll task 0).2 = Ready_ (Ok 103).
Proof.
  split; [exact sum_up_evals|].
  destruct (fork_join_completes (G := list nat) (A := option nat) 1 S 0 Nat.lt_0_1 2 true sum_up
    (Ok 103) 13 sum_up_evals) as (turns & st & Hle & Hrun & _ & (task & Ht & Hj) & _).
  exists turns, st. split; [exact Hle|]. split; [exact Hrun|]. exists task. split; [exact Ht|apply Hj].
Defined.
