(* ===== verification/Workers.v ===== *)
(** * Workers: many workers, many tasks
      (src/src/lib.rs, src/src/task.rs, src/src/join_handle.rs, put together)

    [TaskConc] interleaves the threads around one task and [ForkJoin] runs the tasks
    of a program on one worker.  Here any number of workers run the tasks of a
    program together, and their steps interleave: a worker takes a task off its
    queues, goes through [run] as [Task.thread_step] has it, is inside the poll of
    the program, where it spawns tasks, polls join handles as
    [TaskConc.joiner_step] has it and yields, and puts tasks onto the queues as
    [Executor] has it.

    A worker that finds no task goes on as [run_forever] does: if the I/O driver is
    free it takes it and waits in [poll_timeout] until the driver is woken or an
    event comes, otherwise it parks and sleeps until it is notified.  The programs do
    no I/O, so an event only ends the wait.  Parking and the scheduling of a task are
    one step each here; [ExecutorConc] cuts them at every access. *)

From S2P Require Import Prelude SlotMap SlotMapConc JoinHandle Task TaskConc Executor Runtime Programs.

(** ** Definitions *)

Section workers.
Context {G O P A : Type}.
Context `{TaskList G nat, AtomicWakerOps A nat}.
Context (fuel : nat) (grow : nat → nat) (id : nat).

(** A task and the worker that holds the mutex of its future. *)
Record cell : Type := mkCell {
  c_task : Task (prog O P) O P A;
  c_lock : option nat;
}.

(** Where a worker is with a task: in [run], in the poll with what is left of the
    program and inside [JoinHandle::poll], or at the return of the poll. *)
Inductive stage : Type :=
| SRun (q : pc)
| SIn (p : prog O P) (j : joiner O P nat)
| SOut (r : result (poll O) P) (p : prog O P).

(** The tasks by name, the next name, and the workers that are busy with the task
    they are busy with. *)
Record pool : Type := mkPool {
  pl_cells : gmap nat cell;
  pl_next : nat;
  pl_busy : gmap nat (nat * stage);
}.

(** A worker that found no task: before [io_driver.try_lock()], in [poll_timeout],
    before it parks, and from the mark on until its wait returns. *)
Inductive nap : Type :=
| NIdle
| NPolling
| NParking
| NParked.

(** The pool with the queues: the executors of the workers, and the runtime; the
    workers that found no task; who holds the I/O driver; and how many of the
    wake-ups of the driver it has noticed. *)
Record wsys : Type := mkWsys {
  ws_pool : pool;
  ws_execs : list (ExecutorHandle nat);
  ws_rt : MTRuntime G;
  ws_naps : gmap nat nap;
  ws_driver : option nat;
  ws_seen : nat;
}.

(** *** A task as the steps of [Task] and [TaskConc] see it *)

Definition shared_of (c : cell) : shared (prog O P) O P A nat :=
  mkShared (c_task c) (c_lock c) false 0 [].

Definition cell_of (s : shared (prog O P) O P A nat) : cell := mkCell (sh_task s) (sh_lock s).

(** What a step asks of the queues. *)
Inductive command : Type :=
| CWake (t : nat)      (** the waker of [t] is called *)
| CSpawn (t : nat)     (** [spawn] of the new task [t] *)
| CGlobal (t : nat).   (** [schedule_global] *)

Definition commands_of (t : nat) (s : shared (prog O P) O P A nat) : list command :=
  (if sh_linked s then [CGlobal t] else []) ++ (CWake <$> sh_woken s).

(** *** A step of a busy worker *)

(** The cells, the next name, where the worker goes, and the commands. *)
Definition moved : Type := gmap nat cell * nat * option stage * list command.

(** A step of [run] of task [t], on its cell. *)
Definition run_step (cx : answer O P) (i t : nat) (q : pc) (s : pool) : option moved :=
  match pl_cells s !! t with
  | None => None
  | Some c =>
      match thread_step cx i q (shared_of c) with
      | None => None
      | Some (sh, q) =>
          Some (<[t := cell_of sh]> (pl_cells s), pl_next s, option_map SRun q, commands_of t sh)
      end
  end.

(** After a step of [JoinHandle::poll] in [p], which awaits and goes on with [k]. *)
Definition polled_to (p : prog O P) (k : result O (JoinError P) → prog O P) (j : joiner O P nat)
    : stage :=
  match j with
  | JoinDone r => SIn (k r) JoinIdle
  | JoinWaiting _ _ => SOut (Ok Pending) p
  | j => SIn p j
  end.

(** A step of the poll of the program [p] of task [t]. *)
Definition in_step (t : nat) (p : prog O P) (j : joiner O P nat) (s : pool) : option moved :=
  let stay x := Some (pl_cells s, pl_next s, Some x, []) in
  match p with
  | PReturn r => stay (SOut (returned r) p)
  | PYield k => Some (pl_cells s, pl_next s, Some (SOut (Ok Pending) k), [CWake t])
  | PSpawn child k =>
      let h := pl_next s in
      Some (<[h := mkCell (Task_new child) None]> (pl_cells s), S h,
            Some (SIn (k h) JoinIdle), [CSpawn h])
  | PAwait h k =>
      match j with
      | JoinIdle => stay (SIn p (JoinTake1 t))
      | _ =>
          match pl_cells s !! h with
          | None => None
          | Some c =>
              match joiner_step j (shared_of c) with
              | None => None
              | Some (sh, j) => Some (<[h := cell_of sh]> (pl_cells s), pl_next s, Some (polled_to p k j), [])
              end
          end
      end
  end.

Definition busy_step (i t : nat) (x : stage) (s : pool) : option moved :=
  match x with
  | SRun RunPoll =>
      match pl_cells s !! t with
      | Some (mkCell (mkTask _ _ (JoinInner_Future p)) _) =>
          Some (pl_cells s, pl_next s, Some (SIn p JoinIdle), [])
      | _ => run_step None i t RunPoll s
      end
  | SRun q => run_step None i t q s
  | SIn p j => in_step t p j s
  | SOut r p => run_step (Some (r, p)) i t RunPoll s
  end.

Definition go_to (i t : nat) (x : option stage) (T : gmap nat (nat * stage)) : gmap nat (nat * stage) :=
  match x with Some x => <[i := (t, x)]> T | None => delete i T end.

(** *** The queues *)

(** [locked]: another thread holds the lock of the parked workers. *)
Definition command_step (locked : bool) (m : command) (exe : ExecutorHandle nat) (rt : MTRuntime G)
    : outcome (ExecutorHandle nat * MTRuntime G) :=
  match m with
  | CWake t =>
      '(h, rt) ← wake_by_ref fuel locked grow id t (Some (id, exe)) rt;
      '(_, exe) ← unwrap h;
      mret (exe, rt)
  | CSpawn t =>
      '(h, rt) ← spawn fuel locked grow t (Some (id, exe)) rt;
      '(_, exe) ← unwrap h;
      mret (exe, rt)
  | CGlobal t => rt ← schedule_global fuel locked t rt; mret (exe, rt)
  end.

Fixpoint command_steps (locked : bool) (ms : list command) (exe : ExecutorHandle nat)
    (rt : MTRuntime G) : outcome (ExecutorHandle nat * MTRuntime G) :=
  match ms with
  | [] => mret (exe, rt)
  | m :: ms => '(exe, rt) ← command_step locked m exe rt; command_steps locked ms exe rt
  end.

(** *** A worker without a task *)

(** [worker.parker]. *)
Definition mark_of (i : nat) (rt : MTRuntime G) : option WorkerThreadWaker :=
  match workers rt with
  | Some ws => match ws !! i with Some w => parker w | None => None end
  | None => None
  end.

(** A wake-up of the driver that [poll_timeout] has not returned for. *)
Definition wake_pending (s : wsys) : bool := bool_decide (ws_seen s < io_wakes (ws_rt s)).

Definition with_nap (i : nat) (x : nap) (s : wsys) : wsys :=
  mkWsys (ws_pool s) (ws_execs s) (ws_rt s) (<[i := x]> (ws_naps s)) (ws_driver s) (ws_seen s).

(** Back to the top of the loop. *)
Definition end_nap (i : nat) (s : wsys) : wsys :=
  mkWsys (ws_pool s) (ws_execs s) (ws_rt s) (delete i (ws_naps s)) (ws_driver s) (ws_seen s).

Definition with_driver (o : option nat) (s : wsys) : wsys :=
  mkWsys (ws_pool s) (ws_execs s) (ws_rt s) (ws_naps s) o (ws_seen s).

Definition with_rt (rt : MTRuntime G) (s : wsys) : wsys :=
  mkWsys (ws_pool s) (ws_execs s) rt (ws_naps s) (ws_driver s) (ws_seen s).

Definition notice_wakes (s : wsys) : wsys :=
  mkWsys (ws_pool s) (ws_execs s) (ws_rt s) (ws_naps s) (ws_driver s) (io_wakes (ws_rt s)).

(** [event]: an I/O event came.  [spurious]: the wait of the condition variable
    returns without a notification.  [Done None]: the worker sleeps on. *)
Definition nap_step (event spurious : bool) (i : nat) (x : nap) (s : wsys) : outcome (option wsys) :=
  match x with
  | NIdle =>
      mret (Some match ws_driver s with
                 | None => with_driver (Some i) (with_nap i NPolling s)
                 | Some _ => with_nap i NParking s
                 end)
  | NPolling =>
      mret (if event || wake_pending s then Some (with_driver None (notice_wakes (end_nap i s)))
            else None)
  | NParking =>
      rt ← park_begin i (ws_rt s);
      mret (Some (with_rt rt (with_nap i NParked s)))
  | NParked =>
      match mark_of i (ws_rt s), spurious with
      | Some Parked, false => mret None
      | _, _ =>
          rt ← park_end i (ws_rt s);
          mret (Some (with_rt rt (end_nap i s)))
      end
  end.

(** *** A step of the system *)

(** Which worker steps, whether it finds the lock of the parked workers taken, the
    value of its counter when it looks for a task, and whether its wait ends for an
    I/O event or spuriously. *)
Record turn : Type := mkTurn {
  tn_worker : nat;
  tn_locked : bool;
  tn_counter : Z;
  tn_event : bool;
  tn_spurious : bool;
}.

(** The top of the loop: a task, or none. *)
Definition look_step (counter : Z) (i : nat) (exe : ExecutorHandle nat) (s : wsys) : wsys :=
  let pl := ws_pool s in
  let '(t, _, exe, rt) := next_task grow counter exe (ws_rt s) in
  let execs := <[i := exe]> (ws_execs s) in
  match t with
  | Some t =>
      let pl := mkPool (pl_cells pl) (pl_next pl) (<[i := (t, SRun RunClaim)]> (pl_busy pl)) in
      mkWsys pl execs rt (ws_naps s) (ws_driver s) (ws_seen s)
  | None => mkWsys pl execs rt (<[i := NIdle]> (ws_naps s)) (ws_driver s) (ws_seen s)
  end.

(** [Done None]: the worker sleeps, or waits for a mutex. *)
Definition wsys_step (l : turn) (s : wsys) : outcome (option wsys) :=
  let i := tn_worker l in
  let pl := ws_pool s in
  match ws_execs s !! i with
  | None => mret None
  | Some exe =>
      match pl_busy pl !! i with
      | None =>
          match ws_naps s !! i with
          | None => mret (Some (look_step (tn_counter l) i exe s))
          | Some x => nap_step (tn_event l) (tn_spurious l) i x s
          end
      | Some (t, x) =>
          match busy_step i t x pl with
          | None => mret None
          | Some (cells, next, x, ms) =>
              '(exe, rt) ← command_steps (tn_locked l) ms exe (ws_rt s);
              let pl := mkPool cells next (go_to i t x (pl_busy pl)) in
              mret (Some (mkWsys pl (<[i := exe]> (ws_execs s)) rt (ws_naps s) (ws_driver s) (ws_seen s)))
          end
      end
  end.

(** The steps of the turns, and how many of them did something. *)
Fixpoint wsys_run (ls : list turn) (s : wsys) : outcome (nat * wsys) :=
  match ls with
  | [] => mret (0, s)
  | l :: ls =>
      s' ← wsys_step l s;
      match s' with
      | None => wsys_run ls s
      | Some s => '(n, s) ← wsys_run ls s; mret (S n, s)
      end
  end.

(** [runtime.spawn(main)] on a runtime with [n] workers. *)
Definition wsys_start (n : nat) (main : prog O P) : outcome wsys :=
  '(_, rt) ← MTRuntime_spawn fuel false grow id 0 None (MTRuntime_new n);
  mret (mkWsys (mkPool {[0 := mkCell (Task_new main) None]} 1 ∅)
          ((λ i, mkExecutor (Z.of_nat i) (mkVecDeque [] 32)) <$> seq 0 n) rt ∅ None 0).

(** No worker can take a step of its own, whatever its counter: without an event and
    without a spurious return. *)
Definition at_rest (s : wsys) : Prop :=
  ∀ l, tn_event l = false → tn_spurious l = false → wsys_step l s = Done None.

(** The worker's wait has not ended. *)
Definition sleeps (i : nat) (s : wsys) : Prop :=
  match ws_naps s !! i with
  | Some NPolling => wake_pending s = false
  | Some NParked => mark_of i (ws_rt s) = Some Parked
  | _ => False
  end.
End workers.

Arguments cell : clear implicits.
Arguments stage : clear implicits.
Arguments pool : clear implicits.
Arguments wsys : clear implicits.
