(* ===== verification/WorkersInv.v ===== *)
(** * WorkersInv: the invariant of many workers and many tasks

    The invariant of [Workers], how it follows the moves of a worker, and the measure
    of the work that is left. *)

From S2P Require Import Prelude SlotMap SlotMapConc JoinHandle Task TaskConc Executor Runtime Programs Workers.

(** ** Stages *)

Section stages.
Context {O P : Type}.
Implicit Types (x : stage O P) (T : gmap nat (nat * stage O P)).

(** The worker owns the task: it won [IDLE -> RUNNING]. *)
Definition st_owner x : bool := match x with SRun q => owner q | _ => true end.

(** It holds the mutex of the future. *)
Definition st_holds x : bool := match x with SRun q => holds q | _ => true end.

(** It is about to poll the future, inside the poll, or has the result. *)
Definition st_fresh x : bool :=
  match x with
  | SRun RunLock | SRun RunPoll | SIn _ _ => true
  | SOut (Ok Pending) _ | SRun _ => false
  | SOut _ _ => true
  end.

(** The program is in the hands of the worker. *)
Definition st_inside x : bool := match x with SRun _ => false | _ => true end.

(** It will run the task, record a notification or queue the task. *)
Definition st_claims x : bool :=
  match x with SRun RunClaim | SRun RunReschedule => true | _ => false end.

(** It stored the result and will wake the joiner. *)
Definition st_publishes x : bool := match x with SRun q => publishing q | _ => false end.
Definition st_storing x : bool := match x with SRun RunStore => true | _ => false end.

(** A worker is at such a stage of task [t]. *)
Definition at_stage (f : stage O P → bool) (t : nat) T : Prop :=
  ∃ i x, T !! i = Some (t, x) ∧ f x = true.

Section moves.
Context (T : gmap nat (nat * stage O P)) (i t : nat) (x : stage O P) (Hi : T !! i = Some (t, x)).

Lemma go_to_lookup y j e :
  go_to i t y T !! j = Some e → (j = i ∧ ∃ x', y = Some x' ∧ e = (t, x')) ∨ (j ≠ i ∧ T !! j = Some e).
Proof using.
  clear Hi. destruct y as [x'|]; cbn.
  - intros [[<- <-]|[? ?]]%lookup_insert_Some; eauto 10.
  - intros [? ?]%lookup_delete_Some. auto.
Qed.

Lemma go_to_other y j e : j ≠ i → T !! j = Some e → go_to i t y T !! j = Some e.
Proof using. clear Hi. destruct y; cbn; intros; [by rewrite lookup_insert_ne|by rewrite lookup_delete_ne]. Qed.

Lemma go_to_here x' : go_to i t (Some x') T !! i = Some (t, x').
Proof using. apply lookup_insert_eq. Qed.

Lemma at_stage_ne f y u : u ≠ t → at_stage f u (go_to i t y T) ↔ at_stage f u T.
Proof using Hi.
  intros Hu. split; intros (j & z & Hj & Hz); exists j, z; (split; [|done]).
  - apply go_to_lookup in Hj as [(_ & x' & _ & [= -> _])|[_ Hj]]; [done|done].
  - apply go_to_other; [|done]. intros ->. congruence.
Qed.

Lemma at_stage_here f x' : f x' = true → at_stage f t (go_to i t (Some x') T).
Proof using. intros Hf. exists i, x'. split; [apply go_to_here|done]. Qed.

Lemma at_stage_keep f y :
  f x = false ∨ (∃ x', y = Some x' ∧ f x' = true) → at_stage f t T → at_stage f t (go_to i t y T).
Proof using Hi.
  intros Hf (j & z & Hj & Hz). destruct (decide (j = i)) as [->|Hne].
  - rewrite Hi in Hj. injection Hj as <-. destruct Hf as [?|(x' & -> & Hx')]; [congruence|].
    by apply at_stage_here.
  - exists j, z. split; [by apply go_to_other|done].
Qed.

Lemma at_stage_back f y :
  f x = true ∨ (∀ x', y = Some x' → f x' = false) → at_stage f t (go_to i t y T) → at_stage f t T.
Proof using Hi.
  intros Hf (j & z & Hj & Hz). apply go_to_lookup in Hj as [(-> & x' & -> & [= ->])|[_ Hj]].
  - destruct Hf as [?|Hf]; [by exists i, x|]. by rewrite (Hf x') in Hz.
  - by exists j, z.
Qed.
End moves.
End stages.

(** ** The invariant *)

Section invariant.
Context {O P A : Type} `{AtomicWakerOps A nat, !AtomicWakerLaws A nat}.
Local Abbreviation info := (info O P unit).
Implicit Types (c : cell O P A) (T : gmap nat (nat * stage O P)) (live : gmap nat info).

(** What a stage of a task says about the task. *)
Definition stage_ok (x : stage O P) (l : option info) : Prop :=
  match x with
  | SRun (RunLock | RunPoll | RunUnlock | RunRelease) => is_Some l
  | SRun (RunStore | RunUnlockReady | RunWake) => l = None
  | SRun (RunClaim | RunReschedule) => True
  | SRun _ => False
  | SIn p _ => ∃ i, l = Some i ∧ i_prog i = p
  | SOut (Ok Pending) p => ∃ i, l = Some i ∧ i_prog i = p
  | SOut (Ok (Ready_ v)) p => ∃ i, l = Some i ∧ i_prog i = PReturn (Ok v)
  | SOut (Err e) p => ∃ i, l = Some i ∧ i_prog i = PReturn (Err e)
  end.

Definition is_owned (s : Z) : Prop := s = RUNNING ∨ s = NOTIFIED.

(** The future of a task: the rest of the program unless a worker has it, or the
    result. *)
Definition future_ok (t : nat) c (l : option info) T : Prop :=
  match l with
  | Some i => t_state (c_task c) ≠ COMPLETED ∧
      ∃ p, t_fut (c_task c) = JoinInner_Future p ∧ (~ at_stage st_inside t T → p = i_prog i)
  | None => (t_state (c_task c) = COMPLETED ∨ at_stage st_storing t T) ∧
      ∃ v, t_fut (c_task c) = JoinInner_Return v
  end.

Record task_ok (t : nat) c (l : option info) T : Prop := {
  tk_state : t_state (c_task c) ∈ [IDLE; RUNNING; NOTIFIED; COMPLETED];
  tk_owned : is_owned (t_state (c_task c)) ↔ at_stage st_owner t T;
  tk_unique i j x x' : T !! i = Some (t, x) → T !! j = Some (t, x') →
    st_owner x = true → st_owner x' = true → i = j;
  tk_lock i : c_lock c = Some i ↔ ∃ x, T !! i = Some (t, x) ∧ st_holds x = true;
  tk_stage i x : T !! i = Some (t, x) → stage_ok x l;
  tk_future : future_ok t c l T;
}.

(** Task [h] will wake [t]. *)
Definition promised (cells : gmap nat (cell O P A)) live T (h t : nat) : Prop :=
  ∃ c, cells !! h = Some c ∧ aw_last (t_waker (c_task c)) = Some t ∧
    (is_Some (live !! h) ∨ at_stage st_publishes h T).

(** Someone is going to poll the task, or to queue it. *)
Definition woken (cells : gmap nat (cell O P A)) T (E : list nat) (t : nat) : Prop :=
  t ∈ E ∨ at_stage st_claims t T ∨ ∃ c, cells !! t = Some c ∧ t_state (c_task c) = NOTIFIED.

Definition attended (cells : gmap nat (cell O P A)) live T (E : list nat) (t : nat) (i : info) : Prop :=
  at_stage st_fresh t T ∨ woken cells T E t ∨
  ∃ h k, i_prog i = PAwait h k ∧ promised cells live T h t.

(** The poll of a handle, once it is registered. *)
Definition await_ok (cells : gmap nat (cell O P A)) live (t : nat) (p : prog O P)
    (j : joiner O P nat) : Prop :=
  j = JoinIdle ∨ ∃ h k, p = PAwait h k ∧
    (j = JoinTake1 t ∨ j = JoinRegister t ∨
     ∃ n, j = JoinTake2 t n ∧ ∀ c, cells !! h = Some c → is_Some (live !! h) →
       aw_last (t_waker (c_task c)) = Some t).

(** [E] has the tasks that are on a queue, [res] the results that the tasks come to
    and [live] the tasks that have not come to it. *)
Record pool_inv (res : gmap nat (result O P)) live (E : list nat) (s : pool O P A) : Prop := {
  pi_own : own_ok res live;
  pi_dom t : is_Some (res !! t) ↔ t < pl_next s;
  pi_next : 0 < pl_next s;
  pi_cells t : is_Some (pl_cells s !! t) ↔ t < pl_next s;
  pi_tasks t c : pl_cells s !! t = Some c → task_ok t c (live !! t) (pl_busy s);
  pi_results t c r : pl_cells s !! t = Some c → live !! t = None → res !! t = Some r →
    held live t → t_fut (c_task c) = JoinInner_Return (joined r);
  pi_queued t : t ∈ E → t < pl_next s;
  pi_busy i t x : pl_busy s !! i = Some (t, x) → t < pl_next s;
  pi_wakers h c t : pl_cells s !! h = Some c → aw_last (t_waker (c_task c)) = Some t → t < pl_next s;
  pi_awaits i t p j : pl_busy s !! i = Some (t, SIn p j) → await_ok (pl_cells s) live t p j;
  pi_attended t i : live !! t = Some i → attended (pl_cells s) live (pl_busy s) E t i;
}.

(** ** A task whose worker moves *)

Lemma task_ok_ne u c l T i t x y :
  T !! i = Some (t, x) → u ≠ t → task_ok u c l T → task_ok u c l (go_to i t y T).
Proof using.
  intros Hi Hu [F1 F2 F3 F4 F5 F6].
  assert (∀ j z, go_to i t y T !! j = Some (u, z) ↔ T !! j = Some (u, z)) as Hsame.
  { intros j z. split.
    - intros [(_ & x' & _ & [= -> _])|[_ Hj]]%go_to_lookup; done.
    - intros Hj. apply go_to_other; [|done]. intros ->. congruence. }
  split; [done| | | | |].
  - by rewrite (at_stage_ne T i t x Hi).
  - intros j j' z z'. rewrite !Hsame. apply F3.
  - intros j. rewrite F4. by setoid_rewrite Hsame.
  - intros j z. rewrite Hsame. apply F5.
  - unfold future_ok in *. destruct l as [j|]; [|by rewrite (at_stage_ne T i t x Hi)].
    destruct F6 as (G1 & p & G2 & G3). split; [done|]. exists p. split; [done|].
    by rewrite (at_stage_ne T i t x Hi).
Qed.

Definition next_is (f : stage O P → bool) (y : option (stage O P)) : bool := from_option f false y.

(** What a move of a worker of task [t] from [x] to [y] has to do to the task. *)
Record task_moves (t i : nat) (x : stage O P) (y : option (stage O P)) c c' (l l' : option info) T
    : Prop := {
  tm_state : t_state (c_task c') ∈ [IDLE; RUNNING; NOTIFIED; COMPLETED];
  tm_owner :
    if st_owner x then is_owned (t_state (c_task c')) ↔ next_is st_owner y = true
    else if next_is st_owner y then ~ is_owned (t_state (c_task c)) ∧ is_owned (t_state (c_task c'))
    else is_owned (t_state (c_task c')) ↔ is_owned (t_state (c_task c));
  tm_lock :
    if next_is st_holds y then (st_holds x = true ∨ c_lock c = None) ∧ c_lock c' = Some i
    else c_lock c' = if st_holds x then None else c_lock c;
  tm_stage : ∀ x', y = Some x' → stage_ok x' l';
  tm_live : l' = l ∨ (st_owner x = true ∧ is_Some l);
  tm_future : future_ok t c' l' (go_to i t y T);
}.

Lemma not_owner_stage x (l l' : option info) :
  st_owner x = false → is_Some l → stage_ok x l → stage_ok x l'.
Proof using. destruct x as [[]| |]; cbn; try done; intros _ [? ->]; done. Qed.

Lemma task_ok_move t i x y c c' l l' T :
  T !! i = Some (t, x) → task_ok t c l T → task_moves t i x y c c' l l' T →
  task_ok t c' l' (go_to i t y T).
Proof using.
  intros Hi [F1 F2 F3 F4 F5 F6] [M1 M2 M3 M4 M5 M6].
  assert (∀ j z, j ≠ i → T !! j = Some (t, z) → st_owner z = true →
    st_owner x = false ∧ next_is st_owner y = false) as Hother.
  { intros j z Hne Hj Hz. destruct (st_owner x) eqn:Hx; [by destruct Hne; apply (F3 j i z x)|].
    split; [done|]. destruct (next_is st_owner y) eqn:Hy; [|done]. destruct M2 as [Hn _].
    destruct Hn. apply F2. by exists j, z. }
  split; [done| | | | |done].
  - split.
    + intros Ho. destruct (next_is st_owner y) eqn:Hy.
      { destruct y as [x'|]; [|done]. by apply at_stage_here. }
      destruct (st_owner x) eqn:Hx; [by apply M2 in Ho|].
      apply (at_stage_keep T i t x Hi); [by left|]. by apply F2, M2.
    + intros (j & z & Hj & Hz). apply go_to_lookup in Hj as [(-> & x' & -> & [= ->])|[Hne Hj]].
      * cbn in M2. rewrite Hz in M2. destruct (st_owner x); [by apply M2|apply M2].
      * destruct (Hother j z Hne Hj Hz) as [Hx Hy]. rewrite Hx, Hy in M2. apply M2, F2. by exists j, z.
  - intros j j' z z' Hj Hj' Hz Hz'.
    apply go_to_lookup in Hj as [(-> & x1 & -> & [= ->])|[Hne Hj]],
      Hj' as [(-> & x2 & Hy2 & E2)|[Hne' Hj']].
    + done.
    + destruct (Hother j' z' Hne' Hj' Hz') as [_ Hy]. cbn in Hy. congruence.
    + destruct (Hother j z Hne Hj Hz) as [_ Hy]. subst y. injection E2 as ->. cbn in Hy. congruence.
    + by apply (F3 j j' z z').
  - intros j. split.
    + intros Hl. destruct (next_is st_holds y) eqn:Hy.
      { destruct M3 as [_ Hl']. assert (j = i) as -> by congruence. destruct y as [x'|]; [|done].
        exists x'. split; [apply go_to_here|done]. }
      destruct (st_holds x) eqn:Hx; [congruence|]. rewrite M3 in Hl. apply F4 in Hl as (z & Hj & Hz).
      exists z. split; [apply go_to_other|done]; [|done]. intros ->. congruence.
    + intros (z & Hj & Hz). apply go_to_lookup in Hj as [(-> & x' & -> & [= ->])|[Hne Hj]].
      * cbn in M3. rewrite Hz in M3. apply M3.
      * assert (c_lock c = Some j) as Hl by (apply F4; eauto).
        assert (st_holds x = false) as Hx.
        { destruct (st_holds x) eqn:Hx; [|done]. assert (c_lock c = Some i) by (apply F4; eauto). congruence. }
        rewrite Hx in M3. destruct (next_is st_holds y); [|congruence]. destruct M3 as [[?|?] _]; congruence.
  - intros j z Hj. apply go_to_lookup in Hj as [(-> & x' & -> & [= ->])|[Hne Hj]]; [by apply M4|].
    destruct M5 as [->|[Hx Hl]]; [by apply (F5 j)|].
    apply (not_owner_stage z l); [|done|by apply (F5 j)].
    destruct (st_owner z) eqn:Hz; [|done]. destruct (Hother j z Hne Hj Hz). congruence.
Qed.
(** ** The other tasks when a worker of [t] moves *)

Section frame.
Context (cells cells' : gmap nat (cell O P A)) (live live' : gmap nat info).
Context (T : gmap nat (nat * stage O P)) (E E' : list nat) (i t : nat) (x : stage O P).
Context (y : option (stage O P)) (Hi : T !! i = Some (t, x)) (HE : E ⊆ E').
Local Abbreviation T' := (go_to i t y T).

Lemma attended_other u j :
  u ≠ t →
  (∀ c, cells !! u = Some c → ∃ c', cells' !! u = Some c' ∧ t_state (c_task c') = t_state (c_task c)) →
  (∀ h k, i_prog j = PAwait h k → promised cells live T h u →
     u ∈ E' ∨ promised cells' live' T' h u) →
  attended cells live T E u j → attended cells' live' T' E' u j.
Proof using Hi HE.
  intros Hu Hc Hp [Hf|[[Hq|[Hs|(c & Hcu & Hn)]]|(h & k & Hk & Hh)]].
  - left. by apply (at_stage_ne T i t x Hi).
  - right; left; left. auto.
  - right; left; right; left. by apply (at_stage_ne T i t x Hi).
  - right; left; right; right. destruct (Hc c Hcu) as (c' & Hc' & Hs). exists c'. by rewrite Hs.
  - right. destruct (Hp h k Hk Hh) as [?|?]; [by left; left|right]. by exists h, k.
Qed.

Lemma promised_other h u :
  h ≠ t → live' !! h = live !! h → cells' !! h = cells !! h →
  promised cells live T h u → promised cells' live' T' h u.
Proof using Hi.
  intros Hh Hl Hc (c & Hch & Hw & Hp). exists c. rewrite Hc, Hl. split_and!; [done..|].
  by rewrite (at_stage_ne T i t x Hi).
Qed.

(** The poll of a handle by another worker. *)
Lemma await_other u p j :
  (∀ h k c', p = PAwait h k → cells' !! h = Some c' → is_Some (live' !! h) →
     ∃ c, cells !! h = Some c ∧ is_Some (live !! h) ∧
       aw_last (t_waker (c_task c')) = aw_last (t_waker (c_task c))) →
  await_ok cells live u p j → await_ok cells' live' u p j.
Proof using.
  clear Hi HE. intros Hc [->|(h & k & -> & Hj)]; [by left|right]. exists h, k. split; [done|].
  destruct Hj as [->|[->|(n & -> & Hw)]]; [by left|by right; left|right; right].
  exists n. split; [done|]. intros c' Hc' Hl.
  destruct (Hc h k c' eq_refl Hc' Hl) as (c & Hch & Hl' & ->). by apply Hw.
Qed.
End frame.

(** Two tasks do not await the same one. *)
Lemma one_awaits res live t u i j h k k' :
  own_ok res live → live !! t = Some i → live !! u = Some j →
  i_prog i = PAwait h k → i_prog j = PAwait h k' → t = u.
Proof using.
  intros Hown Ht Hu Hi Hj. destruct (own_awaits _ _ _ _ _ _ Hown Ht Hi) as [Hti _].
  destruct (own_awaits _ _ _ _ _ _ Hown Hu Hj) as [Huj _]. by apply (own_unique _ _ Hown t i u j h).
Qed.

(** A step on the cell of the worker's own task. *)
Lemma move_own res live live' E E' s i t x y c c' :
  pool_inv res live E s → pl_busy s !! i = Some (t, x) → pl_cells s !! t = Some c →
  task_moves t i x y c c' (live !! t) (live' !! t) (pl_busy s) →
  (∀ u, u ≠ t → live' !! u = live !! u) → covered live' live → own_ok res live' →
  E ⊆ E' → (∀ u, u ∈ E' → u < pl_next s) →
  (∀ u, aw_last (t_waker (c_task c')) = Some u → aw_last (t_waker (c_task c)) = Some u) →
  (is_Some (live' !! t) → aw_last (t_waker (c_task c')) = aw_last (t_waker (c_task c))) →
  (∀ r, live' !! t = None → res !! t = Some r → held live' t →
    t_fut (c_task c') = JoinInner_Return (joined r)) →
  let s' := mkPool (<[t := c']> (pl_cells s)) (pl_next s) (go_to i t y (pl_busy s)) in
  (∀ u, u ≠ t → promised (pl_cells s) live (pl_busy s) t u →
    u ∈ E' ∨ promised (pl_cells s') live' (pl_busy s') t u) →
  (∀ p j, y = Some (SIn p j) → await_ok (pl_cells s') live' t p j) →
  (∀ j, live' !! t = Some j → attended (pl_cells s') live' (pl_busy s') E' t j) →
  pool_inv res live' E' s'.
Proof using.
  intros Hinv Hi Hc Hm Hl Hcov Hown HE HE' Hw Hw' Hr s' Hp Hin Hatt.
  pose proof Hinv as [F1 F2 F3 F4 F5 F6 F7 F8 F9 F10 F11].
  assert (∀ u cu, u ≠ t → pl_cells s' !! u = Some cu → pl_cells s !! u = Some cu) as Hne.
  { intros u cu Hu Hcu. cbn in Hcu. by rewrite lookup_insert_ne in Hcu. }
  split; try done.
  - by eapply dom_update.
  - intros u cu Hcu. destruct (decide (u = t)) as [->|Hu].
    + cbn in Hcu. rewrite lookup_insert_eq in Hcu. injection Hcu as <-.
      by eapply task_ok_move; [done|by apply F5|].
    + rewrite (Hl u Hu). by eapply task_ok_ne; [done..|apply F5, Hne].
  - intros u cu r Hcu Hlu Hru Hh. destruct (decide (u = t)) as [->|Hu].
    + cbn in Hcu. rewrite lookup_insert_eq in Hcu. injection Hcu as <-. auto.
    + apply (F6 u); [by apply Hne|by rewrite <- Hl|done|by eapply covered_held].
  - intros j u z [(-> & x' & _ & [= -> _])|[_ Hj]]%go_to_lookup; eauto.
  - intros h ch u Hch Hlast. destruct (decide (h = t)) as [->|Hh]; [|by eapply F9; [apply Hne|]].
    cbn in Hch. rewrite lookup_insert_eq in Hch. injection Hch as <-. eauto.
  - intros j u p jn [(-> & x' & -> & [= -> <-])|[_ Hj]]%go_to_lookup; [by apply Hin|].
    eapply await_other, F10, Hj. intros h k ch _ Hch [ih Hlh].
    destruct (Hcov h ih Hlh) as (i0 & Hi0 & _). destruct (decide (h = t)) as [->|Hh].
    + cbn in Hch. rewrite lookup_insert_eq in Hch. injection Hch as <-. exists c.
      split_and!; [done|by eexists|]. apply Hw'. by eexists.
    + exists ch. split_and!; [by apply Hne|by eexists|done].
  - intros u j Hu. destruct (decide (u = t)) as [->|Hut]; [by apply Hatt|].
    rewrite (Hl u Hut) in Hu. eapply attended_other; [done|done|done| | |by apply F11].
    + intros cu Hcu. exists cu. split; [|done]. cbn. by rewrite lookup_insert_ne.
    + intros h k Hk Hpr. destruct (decide (h = t)) as [->|Hh]; [by apply Hp|right].
      eapply promised_other; [done|done|by apply Hl| |done]. cbn. by rewrite lookup_insert_ne.
Qed.
(** The task that a worker is busy with. *)
Lemma busy_task res live E s i t x :
  pool_inv res live E s → pl_busy s !! i = Some (t, x) →
  ∃ c, pl_cells s !! t = Some c ∧ task_ok t c (live !! t) (pl_busy s) ∧ stage_ok x (live !! t).
Proof using.
  intros Hinv Hi. destruct (proj2 (pi_cells _ _ _ _ Hinv t) (pi_busy _ _ _ _ Hinv i t x Hi)) as [c Hc].
  pose proof (pi_tasks _ _ _ _ Hinv t c Hc) as Hok. exists c. split_and!; [done..|].
  by apply (tk_stage _ _ _ _ Hok i).
Qed.

(** The cell of a task that another one awaits. *)
Lemma task_ok_cell t c c' (l : option info) T :
  task_ok t c l T → t_state (c_task c') = t_state (c_task c) → c_lock c' = c_lock c →
  t_fut (c_task c') = t_fut (c_task c) ∨ (l = None ∧ ∃ v, t_fut (c_task c') = JoinInner_Return v) →
  task_ok t c' l T.
Proof using.
  intros [F1 F2 F3 F4 F5 F6] Hs Hl Hf. split; rewrite ?Hs, ?Hl; try done.
  unfold future_ok in *. rewrite Hs. destruct Hf as [->|[-> Hv]]; [done|]. by destruct F6.
Qed.

(** A task whose cell is left alone stays unfinished. *)
Lemma moves_live t c (l l' : option info) T T' :
  task_ok t c l' T' → task_ok t c l T → is_Some l → is_Some l'.
Proof using.
  intros Hok' Hok [j ->]. pose proof (tk_future _ _ _ _ Hok') as Hf2. destruct l' as [j'|]; [by eexists|].
  destruct (tk_future _ _ _ _ Hok) as (_ & p & Hp & _), Hf2 as (_ & v & Hv). congruence.
Qed.

(** A step of the poll of a handle, on the cell of the task [h] that [t] awaits. *)
Lemma move_join res live live' E E' s i t it h k j y c c' ct :
  pool_inv res live E s → pl_busy s !! i = Some (t, SIn (PAwait h k) j) →
  live !! t = Some it → i_prog it = PAwait h k →
  pl_cells s !! t = Some ct → pl_cells s !! h = Some c →
  task_moves t i (SIn (PAwait h k) j) y ct ct (live !! t) (live' !! t) (pl_busy s) →
  t_state (c_task c') = t_state (c_task c) → c_lock c' = c_lock c →
  t_fut (c_task c') = t_fut (c_task c) ∨ (live !! h = None ∧ ∃ v, t_fut (c_task c') = JoinInner_Return v) →
  aw_last (t_waker (c_task c')) = aw_last (t_waker (c_task c)) ∨
    aw_last (t_waker (c_task c')) = Some t →
  (∀ u, u ≠ t → live' !! u = live !! u) → covered live' live → own_ok res live' →
  E ⊆ E' → (∀ u, u ∈ E' → u < pl_next s) →
  (∀ r, live !! h = None → res !! h = Some r → held live' h →
    t_fut (c_task c') = JoinInner_Return (joined r)) →
  let s' := mkPool (<[h := c']> (pl_cells s)) (pl_next s) (go_to i t y (pl_busy s)) in
  (∀ p j, y = Some (SIn p j) → await_ok (pl_cells s') live' t p j) →
  (∀ j, live' !! t = Some j → attended (pl_cells s') live' (pl_busy s') E' t j) →
  pool_inv res live' E' s'.
Proof using.
  intros Hinv Hi Ht Hpr Hct Hc Hm Hs Hlk Hf Hw Hl Hcov Hown HE HE' Hr s' Hin Hatt.
  pose proof Hinv as [F1 F2 F3 F4 F5 F6 F7 F8 F9 F10 F11].
  assert (h ≠ t) as Hht by (destruct (own_awaits _ _ _ _ _ _ F1 Ht Hpr); lia).
  assert (∀ u cu, pl_cells s' !! u = Some cu →
    (u = h ∧ cu = c') ∨ (u ≠ h ∧ pl_cells s !! u = Some cu)) as Hcells.
  { intros u cu Hcu. cbn in Hcu. apply lookup_insert_Some in Hcu as [[<- <-]|[? ?]]; auto. }
  assert (∀ u j k', u ≠ t → live !! u = Some j → i_prog j ≠ PAwait h k') as Hone.
  { intros u ju k' Hu Hj Hk'. destruct Hu. by eapply (one_awaits res live u t). }
  pose proof (task_ok_move _ _ _ _ _ _ _ _ _ Hi (F5 t ct Hct) Hm) as Hok.
  pose proof (moves_live _ _ _ _ _ _ Hok (F5 t ct Hct) (mk_is_Some _ _ Ht)) as Hlt'.
  split; try done.
  - by eapply dom_update.
  - intros u cu Hcu. destruct (decide (u = t)) as [->|Hu].
    + destruct (Hcells t cu Hcu) as [[? _]|[_ Hcu']]; [done|]. by simplify_eq.
    + rewrite (Hl u Hu). eapply task_ok_ne; [done..|].
      destruct (Hcells u cu Hcu) as [[-> ->]|[_ Hcu']]; [|by apply F5].
      by eapply task_ok_cell; [apply F5|..].
  - intros u cu r Hcu Hlu Hru Hh. destruct (Hcells u cu Hcu) as [[-> ->]|[_ Hcu']].
    + apply Hr; [by rewrite <- Hl|done..].
    + apply (F6 u); [done| |done|by eapply covered_held].
      destruct (decide (u = t)) as [->|Hu]; [|by rewrite <- Hl].
      rewrite Hlu in Hlt'. by destruct Hlt'.
  - intros j' u z [(-> & x' & _ & [= -> _])|[_ Hj]]%go_to_lookup; eauto.
  - intros u cu w Hcu Hlast. destruct (Hcells u cu Hcu) as [[-> ->]|[_ Hcu']]; [|by eapply F9].
    destruct Hw as [Hw|Hw]; rewrite Hw in Hlast; [by eapply F9|].
    injection Hlast as <-. by eapply F8.
  - intros j' u p jn [(-> & x' & -> & [= -> <-])|[Hne Hj]]%go_to_lookup; [by apply Hin|].
    eapply await_other, F10, Hj. intros h' k' ch -> Hch [ih Hlh].
    destruct (Hcov h' ih Hlh) as (i0 & Hi0 & _). destruct (Hcells h' ch Hch) as [[-> ->]|[_ Hch']];
      [exfalso|exists ch; split_and!; [done|by eexists|done]].
    destruct (busy_task _ _ _ _ _ _ _ Hinv Hj) as (cu & Hcu & Hoku & (ju & Hju & Hpu)).
    apply (Hone u ju k'); [|done|done]. intros ->. destruct Hne. simplify_eq.
    by apply (tk_unique _ _ _ _ Hoku j' i _ _ Hj Hi).
  - intros u ju Hu. destruct (decide (u = t)) as [->|Hut]; [by apply Hatt|].
    rewrite (Hl u Hut) in Hu. eapply attended_other; [done|done|done| | |by apply F11].
    + intros cu Hcu. cbn. destruct (decide (u = h)) as [->|Huh].
      * rewrite lookup_insert_eq. exists c'. by simplify_eq.
      * rewrite lookup_insert_ne by done. eauto.
    + intros h' k' Hk' Hp. right.
      assert (h' ≠ h) as Hhh by (intros ->; by destruct (Hone u ju k' Hut Hu)).
      destruct (decide (h' = t)) as [->|Hh't].
      * destruct Hp as (c0 & Hc0 & Hw0 & _). exists c0. cbn. rewrite lookup_insert_ne by done. auto.
      * eapply promised_other; [done|done|by apply Hl| |done]. cbn. by rewrite lookup_insert_ne.
Qed.
(** A new task, with the only worker that knows of it elsewhere. *)
Lemma task_ok_new t child (j : info) T :
  i_prog j = child → (∀ i x, T !! i ≠ Some (t, x)) →
  task_ok t (mkCell (Task_new child) None) (Some j) T.
Proof using.
  intros Hp HT. assert (∀ f, ~ at_stage f t T) as Hno by (by intros f (i & x & Hi & _); apply (HT i x)).
  split; cbn.
  - by left.
  - split; [by intros [?|?]|by intros ?%Hno].
  - intros i i' x x' Hi. by destruct (HT i x).
  - intros i. split; [done|]. intros (x & Hi & _). by destruct (HT i x).
  - intros i x Hi. by destruct (HT i x).
  - split; [done|]. exists child. by rewrite Hp.
Qed.

(** Task [t] spawns the child [h]. *)
Section spawn.
Context (res : gmap nat (result O P)) (live : gmap nat info) (E E' : list nat) (s : pool O P A).
Context (i t : nat) (it : info) (child : prog O P) (k : nat → prog O P) (jn : joiner O P nat).
Context (rc : result O P) (m n : nat) (ct : cell O P A) (Hinv : pool_inv res live E s).
Context (Hi : pl_busy s !! i = Some (t, SIn (PSpawn child k) jn)) (Ht : live !! t = Some it).
Context (Hct : pl_cells s !! t = Some ct) (Hch : evals ∅ child rc m).
Context (Hk : ∀ h, i_env it !! h = None → evals (<[h := rc]> (i_env it)) (k h) (i_res it) n).
Local Abbreviation h := (pl_next s).
Context (HE : E ⊆ E') (Hh : h ∈ E') (HE' : ∀ u, u ∈ E' → u ∈ E ∨ u = h).
Local Abbreviation i' := (mkInfo (k h) (<[h := rc]> (i_env it)) (i_res it) n tt).
Local Abbreviation j' := (mkInfo child ∅ rc m tt).
Local Abbreviation live' := (<[h := j']> (<[t := i']> live)).
Local Abbreviation cells' := (<[h := mkCell (Task_new child) None]> (pl_cells s)).
Local Abbreviation T' := (go_to i t (Some (SIn (k h) JoinIdle)) (pl_busy s)).

Lemma spawn_res : res !! h = None.
Proof using Hinv. apply eq_None_not_Some. rewrite (pi_dom _ _ _ _ Hinv). lia. Qed.

Lemma spawn_live : live !! h = None.
Proof using Hinv.
  apply eq_None_not_Some. intros [jh Hjh]. apply (own_res _ _ (pi_own _ _ _ _ Hinv)) in Hjh.
  by rewrite spawn_res in Hjh.
Qed.

Lemma spawn_lt : t < h.
Proof using Hinv Hi. by eapply (pi_busy _ _ _ _ Hinv). Qed.

Lemma spawn_ne : h ≠ t.
Proof using Hinv Hi. pose proof spawn_lt. lia. Qed.

Lemma spawn_not_held u j : live !! u = Some j → i_env j !! h = None.
Proof using Hinv.
  intros Hu. apply eq_None_not_Some. intros [r Hr].
  destruct (own_held _ _ (pi_own _ _ _ _ Hinv) u j h r Hu Hr) as [_ Hr']. by rewrite spawn_res in Hr'.
Qed.

Lemma spawn_cells u cu : u ≠ h → cells' !! u = Some cu → pl_cells s !! u = Some cu.
Proof using. intros Hu Hcu. by rewrite lookup_insert_ne in Hcu. Qed.

Lemma spawn_same u : u ≠ h → u ≠ t → live' !! u = live !! u.
Proof using. intros Hu1 Hu2. by rewrite !lookup_insert_ne. Qed.

Lemma spawn_here_live : live' !! t = Some i'.
Proof using Hinv Hi. rewrite lookup_insert_ne by apply spawn_ne. apply lookup_insert_eq. Qed.

Lemma spawn_tasks u cu : cells' !! u = Some cu → task_ok u cu (live' !! u) T'.
Proof using Hinv Hi Ht Hct.
  intros Hcu. destruct (decide (u = h)) as [->|Huh].
  - rewrite lookup_insert_eq in Hcu. injection Hcu as <-. rewrite lookup_insert_eq.
    apply task_ok_new; [done|].
    intros j x [(_ & x' & _ & [= Heq _])|[_ Hj]]%go_to_lookup; [by destruct spawn_ne|].
    apply (pi_busy _ _ _ _ Hinv) in Hj. lia.
  - apply spawn_cells in Hcu; [|done]. pose proof (pi_tasks _ _ _ _ Hinv u cu Hcu) as Hok.
    destruct (decide (u = t)) as [->|Hut]; [|rewrite spawn_same by done; by eapply task_ok_ne].
    rewrite spawn_here_live. eapply task_ok_move; [done..|]. rewrite Ht in *.
    destruct Hok as [F1 F2 F3 F4 F5 F6]. split; cbn; try done.
    + rewrite F2. split; [done|]. intros _. by exists i, (SIn (PSpawn child k) jn).
    + split; [by left|]. apply F4. by exists (SIn (PSpawn child k) jn).
    + intros x' [= <-]. by exists i'.
    + right. split; [done|]. by eexists.
    + destruct F6 as (G1 & p & G2 & _). split; [done|]. exists p. split; [done|].
      intros []. by apply at_stage_here.
Qed.

Lemma spawn_attended u j : live' !! u = Some j → attended cells' live' T' E' u j.
Proof using Hinv Hi HE Hh.
  intros Hu. destruct (decide (u = h)) as [->|Huh]; [right; left; by left|].
  destruct (decide (u = t)) as [->|Hut]; [left; by apply at_stage_here|].
  rewrite spawn_same in Hu by done.
  eapply attended_other; [done|done|done| | |by apply (pi_attended _ _ _ _ Hinv)].
  - intros cu Hcu. exists cu. by rewrite lookup_insert_ne.
  - intros h' k' _ Hp. right. assert (h' ≠ h) as Hhh.
    { intros ->. destruct Hp as (c & Hc & _). assert (h < h); [|lia]. apply (pi_cells _ _ _ _ Hinv). eauto. }
    destruct (decide (h' = t)) as [->|Hht].
    + destruct Hp as (c0 & Hc0 & Hw0 & _). exists c0. rewrite lookup_insert_ne by done.
      split_and!; [done..|left]. rewrite spawn_here_live. by eexists.
    + eapply promised_other; [done|done|by apply spawn_same| |done]. by rewrite lookup_insert_ne.
Qed.

Lemma move_spawn : pool_inv (<[h := rc]> res) live' E' (mkPool cells' (S h) T').
Proof using Hinv Hi Ht Hct Hch Hk HE Hh HE' AtomicWakerLaws0.
  pose proof Hinv as [F1 F2 F3 F4 F5 F6 F7 F8 F9 F10 F11]. pose proof spawn_lt as Hth.
  split; cbn [pl_cells pl_next pl_busy]; [|by apply dom_succ|lia|by apply dom_succ|exact spawn_tasks|..].
  - pose proof (spawn_not_held t it Ht).
    by apply (own_spawned live t h i' j' res it rc F1 Ht spawn_res Hth); [..|apply Hk|].
  - intros u cu r Hcu Hlu Hru Hhu. assert (u ≠ h) as Huh by (intros ->; by rewrite lookup_insert_eq in Hlu).
    assert (u ≠ t) as Hut by (intros ->; by rewrite spawn_here_live in Hlu).
    rewrite lookup_insert_ne in Hru by done. apply (F6 u); [by apply spawn_cells| |done|].
    + by rewrite spawn_same in Hlu.
    + by eapply (held_spawned live t h i' j' it rc).
  - intros u Hu. destruct (HE' u Hu) as [Hu'| ->]; [apply F7 in Hu'|]; lia.
  - intros j u x [(_ & x' & _ & [= -> _])|[_ Hj]]%go_to_lookup; [lia|]. apply F8 in Hj. lia.
  - intros u cu w Hcu Hlast. destruct (decide (u = h)) as [->|Huh].
    + rewrite lookup_insert_eq in Hcu. injection Hcu as <-. cbn in Hlast. by rewrite aw_last_new in Hlast.
    + assert (w < h) by (by eapply F9; [apply spawn_cells|]). lia.
  - intros j u p jn' [(-> & x' & [= <-] & [= -> -> ->])|[Hji Hj]]%go_to_lookup; [by left|].
    eapply await_other, F10, Hj. intros h' k' c' -> Hc' Hl'.
    destruct (busy_task _ _ _ _ _ _ _ Hinv Hj) as (cu & Hcu & _ & (ju & Hju & Hpu)).
    destruct (own_awaits _ _ _ _ _ _ F1 Hju Hpu) as [Hheld _].
    assert (h' ≠ h) as Hhh by (intros ->; rewrite (spawn_not_held u ju Hju) in Hheld; by destruct Hheld).
    exists c'. split_and!; [by apply spawn_cells| |done].
    destruct (decide (h' = t)) as [->|Hht]; [by eexists|]. by rewrite spawn_same in Hl'.
  - exact spawn_attended.
Qed.
End spawn.
(** A worker takes a task off a queue. *)
Lemma claim_lookup T i t j e :
  T !! i = None → <[i := (t, SRun RunClaim)]> T !! j = Some e →
  (j = i ∧ e = (t, SRun RunClaim)) ∨ (j ≠ i ∧ T !! j = Some e).
Proof using. intros Hi [[<- <-]|[? ?]]%lookup_insert_Some; auto. Qed.

Lemma claim_other T i t j e :
  T !! i = None → T !! j = Some e → <[i := (t, SRun RunClaim)]> T !! j = Some e.
Proof using. intros Hi Hj. rewrite lookup_insert_ne; [done|]. intros ->. congruence. Qed.

Lemma claim_at_stage T i t f u :
  T !! i = None → f (SRun RunClaim) = false →
  at_stage f u (<[i := (t, SRun RunClaim)]> T) ↔ at_stage f u T.
Proof using.
  intros Hi Hf. split; intros (j & x & Hj & Hx); exists j, x; (split; [|done]).
  - apply claim_lookup in Hj as [[_ [= _ ->]]|[_ Hj]]; [congruence|done|done].
  - by apply claim_other.
Qed.

Lemma task_ok_claim u c (l : option info) T i t :
  T !! i = None → task_ok u c l T → task_ok u c l (<[i := (t, SRun RunClaim)]> T).
Proof using.
  intros Hi [F1 F2 F3 F4 F5 F6]. split; [done| | | | |].
  - by rewrite claim_at_stage.
  - intros j j' x x' Hj Hj' Hx Hx'.
    apply claim_lookup in Hj as [[_ [= _ ->]]|[_ Hj]]; [done| |done].
    apply claim_lookup in Hj' as [[_ [= _ ->]]|[_ Hj']]; [done| |done]. by apply (F3 j j' x x').
  - intros j. rewrite F4. split; intros (x & Hj & Hx); exists x; (split; [|done]); [by apply claim_other|].
    apply claim_lookup in Hj as [[_ [= _ ->]]|[_ Hj]]; done.
  - intros j x Hj. apply claim_lookup in Hj as [[_ [= _ ->]]|[_ Hj]]; [done|by apply (F5 j)|done].
  - unfold future_ok in *. destruct l as [j|]; [|by rewrite claim_at_stage].
    destruct F6 as (G1 & p & G2 & G3). split; [done|]. exists p. by rewrite claim_at_stage.
Qed.

Lemma move_take res live E E' s i t :
  pool_inv res live E s → pl_busy s !! i = None → E ≡ₚ t :: E' →
  pool_inv res live E' (mkPool (pl_cells s) (pl_next s) (<[i := (t, SRun RunClaim)]> (pl_busy s))).
Proof using.
  intros [F1 F2 F3 F4 F5 F6 F7 F8 F9 F10 F11] Hi HE. split; cbn [pl_cells pl_next pl_busy]; try done.
  - intros u c Hc. by apply task_ok_claim, F5.
  - intros u Hu. apply F7. rewrite HE. by right.
  - intros j u x [[_ [= -> _]]|[_ Hj]]%claim_lookup; [|by eapply F8|done]. apply F7. rewrite HE. by left.
  - intros j u p jn [[_ [= _]]|[_ Hj]]%claim_lookup; [by eapply F10|done].
  - intros u j Hu. destruct (F11 u j Hu) as [Hf|[[Hq|[Hs|Hn]]|(h & k & Hk & c & Hc & Hw & Hp)]].
    + left. by rewrite claim_at_stage.
    + right; left. rewrite HE in Hq. apply elem_of_cons in Hq as [->|Hq]; [right; left|by left].
      exists i, (SRun RunClaim). split; [apply lookup_insert_eq|done].
    + right; left; right; left. destruct Hs as (j' & x & Hj' & Hx). exists j', x.
      split; [by apply claim_other|done].
    + right; left; by right; right.
    + right; right. exists h, k. split; [done|]. exists c. by rewrite claim_at_stage.
Qed.

(** ** The work that is left *)

Definition stage_weight (x : stage O P) : nat :=
  match x with
  | SRun RunStore => 26
  | SRun RunUnlockReady => 25
  | SRun RunWake | SRun RunReschedule => 24
  | SRun RunClaim => 22
  | SRun RunLock => 20
  | SRun RunPoll => 19
  | SIn _ JoinIdle => 18
  | SIn _ (JoinTake1 _) => 17
  | SIn _ (JoinRegister _) => 16
  | SIn _ _ => 15
  | SOut _ _ => 14
  | SRun RunUnlock => 13
  | SRun RunRelease => 12
  | SRun _ => 0
  end.

Lemma in_weight p j : 15 ≤ stage_weight (SIn p j) ≤ 18.
Proof using. destruct j; cbn; lia. Qed.

Definition cell_weight c : nat := if decide (t_state (c_task c) = NOTIFIED) then 14 else 0.

Definition info_weight (i : info) : nat := 24 * i_cost i.

Definition work live (E : list nat) (s : pool O P A) : nat :=
  map_sum info_weight live + 23 * length E +
  map_sum (λ e, stage_weight e.2) (pl_busy s) + map_sum cell_weight (pl_cells s).

Lemma go_to_sum T i t x y :
  T !! i = Some (t, x) →
  map_sum (λ e, stage_weight e.2) (go_to i t y T) + stage_weight x =
  map_sum (λ e, stage_weight e.2) T + from_option stage_weight 0 y.
Proof using.
  intros Hi. destruct y as [x'|]; cbn [go_to from_option].
  - apply (map_sum_update (λ e, stage_weight e.2) T i (t, x) (t, x') Hi).
  - rewrite (map_sum_delete (λ e, stage_weight e.2) T i (t, x) Hi). cbn. lia.
Qed.
End invariant.
