(* ===== verification/WorkersSteps.v ===== *)
(** * WorkersSteps: the steps of many workers

    Every step of a busy worker of [Workers] keeps the invariant and decreases the
    measure of [WorkersInv]; workers that cannot go on have finished. *)

From S2P Require Import Prelude SlotMap SlotMapConc JoinHandle Task TaskConc Executor Runtime Programs Workers WorkersInv.

(** ** Steps of a busy worker *)

Section steps.
Context {O P A : Type} `{AtomicWakerOps A nat, !AtomicWakerLaws A nat}.
Local Abbreviation info := (info O P unit).
Implicit Types (c : cell O P A) (T : gmap nat (nat * stage O P)) (live : gmap nat info).

Definition target (m : command) : nat := match m with CWake t | CSpawn t | CGlobal t => t end.

(** What commands do to the tasks that are on a queue. *)
Record fed (ms : list command) (E E' : list nat) : Prop := {
  fed_keeps : E ⊆ E';
  fed_targets m : m ∈ ms → target m ∈ E';
  fed_only u : u ∈ E' → u ∈ E ∨ ∃ m, m ∈ ms ∧ u = target m;
  fed_length : length E' ≤ length E + length ms;
}.

Lemma fed_nil E E' : fed [] E E' → E ⊆ E' ∧ (∀ u, u ∈ E' → u ∈ E) ∧ length E' ≤ length E.
Proof using.
  intros [F1 F2 F3 F4]. split_and!; [done| |cbn in F4; lia].
  intros u Hu. destruct (F3 u Hu) as [?|(m & Hm & _)]; [done|]. by apply not_elem_of_nil in Hm.
Qed.

Lemma fed_one m E E' :
  fed [m] E E' → E ⊆ E' ∧ target m ∈ E' ∧ (∀ u, u ∈ E' → u ∈ E ∨ u = target m) ∧
  length E' ≤ S (length E).
Proof using.
  intros [F1 F2 F3 F4]. split_and!; [done|apply F2; by left| |cbn in F4; lia].
  intros u Hu. destruct (F3 u Hu) as [?|(m' & Hm & ->)]; [by left|].
  apply list_elem_of_singleton in Hm as ->. by right.
Qed.

(** What a step of worker [i], busy with [t] at [x], achieves. *)
Definition step_ok res live E (s : pool O P A) (i t : nat) (mv : moved (O := O) (P := P) (A := A)) : Prop :=
  let '(cells, next, y, ms) := mv in
  ∀ E', fed ms E E' → ∃ res' live',
    let s' := mkPool cells next (go_to i t y (pl_busy s)) in
    pool_inv res' live' E' s' ∧ res ⊆ res' ∧ work live' E' s' < work live E s.

(** The worker's own task, when it stays attended to. *)
Lemma attended_self res live E E' s i t x y c c' j :
  pool_inv res live E s → pl_busy s !! i = Some (t, x) → pl_cells s !! t = Some c →
  live !! t = Some j → E ⊆ E' →
  st_fresh x = false → st_claims x = false →
  (t_state (c_task c) = NOTIFIED → t_state (c_task c') = NOTIFIED) →
  attended (<[t := c']> (pl_cells s)) live (go_to i t y (pl_busy s)) E' t j.
Proof using.
  intros Hinv Hi Hc Hj HE Hf Hcl Hn.
  destruct (pi_attended _ _ _ _ Hinv t j Hj) as [Hfr|[[Hq|[Hs|(c0 & Hc0 & Hn0)]]|(h & k & Hk & Hp)]].
  - left. apply (at_stage_keep _ _ _ _ Hi); [by left|done].
  - right; left; left. auto.
  - right; left; right; left. apply (at_stage_keep _ _ _ _ Hi); [by left|done].
  - right; left; right; right. exists c'. rewrite lookup_insert_eq. simplify_eq. auto.
  - destruct (own_awaits _ _ _ _ _ _ (pi_own _ _ _ _ Hinv) Hj Hk) as [_ Hlt].
    right; right. exists h, k. split; [done|].
    eapply (promised_other _ _ live); [done|lia|done| |done]. rewrite lookup_insert_ne; [done|lia].
Qed.

(** A step on the worker's own task that leaves what is left to do as it is. *)
Lemma step_same res live E s i t x y c c' ms :
  pool_inv res live E s → pl_busy s !! i = Some (t, x) → pl_cells s !! t = Some c →
  (∀ m, m ∈ ms → target m < pl_next s) →
  task_moves t i x y c c' (live !! t) (live !! t) (pl_busy s) →
  t_waker (c_task c') = t_waker (c_task c) →
  (live !! t = None → t_fut (c_task c') = t_fut (c_task c)) →
  (live !! t = None → st_publishes x = true → next_is st_publishes y = true) →
  (∀ p j, y = Some (SIn p j) → j = JoinIdle ∨ ∃ h k, p = PAwait h k ∧ j = JoinTake1 t) →
  (∀ j E', live !! t = Some j → fed ms E E' →
     attended (<[t := c']> (pl_cells s)) live (go_to i t y (pl_busy s)) E' t j) →
  23 * length ms + cell_weight c' + from_option stage_weight 0 y < cell_weight c + stage_weight x →
  step_ok res live E s i t (<[t := c']> (pl_cells s), pl_next s, y, ms).
Proof using.
  intros Hinv Hi Hc Hms Hm Hw Hf Hp Hin Hatt Hwt E' HE. exists res, live.
  split_and!; [|done|].
  - eapply (move_own _ live live); try done.
    + intros u j Hu. by exists j.
    + apply (pi_own _ _ _ _ Hinv).
    + apply (fed_keeps _ _ _ HE).
    + intros u Hu. destruct (fed_only _ _ _ HE u Hu) as [Hu'|(m & Hm' & ->)]; [|auto].
      by apply (pi_queued _ _ _ _ Hinv).
    + by rewrite Hw.
    + by rewrite Hw.
    + intros r Hl Hr Hh. rewrite Hf by done. by apply (pi_results _ _ _ _ Hinv t).
    + intros u Hu (c0 & Hc0 & Hl0 & Hp0). right. exists c'. cbn. rewrite lookup_insert_eq.
      simplify_eq. rewrite Hw. split_and!; [done..|]. destruct (live !! t) as [j|] eqn:Hl; [by left; eexists|].
      right. destruct Hp0 as [[]|Hp0]; [done|]. apply (at_stage_keep _ _ _ _ Hi); [|done].
      destruct (st_publishes x) eqn:Hx; [right|by left]. specialize (Hp eq_refl eq_refl).
      destruct y as [x'|]; [by exists x'|done].
    + intros p j Hy. destruct (Hin p j Hy) as [->|(h & k & -> & ->)]; [by left|right].
      exists h, k. auto.
    + intros j Hj. by apply Hatt.
  - unfold work. cbn [pl_busy pl_cells]. pose proof (go_to_sum _ _ _ _ y Hi) as Hb.
    pose proof (map_sum_update cell_weight _ _ _ c' Hc) as Hs.
    pose proof (fed_length _ _ _ HE) as Hlen. lia.
Qed.
(** A step that touches no cell, in a poll that has not begun to await. *)
Lemma step_stay res live E s i t x y c ms :
  pool_inv res live E s → pl_busy s !! i = Some (t, x) → pl_cells s !! t = Some c →
  (∀ m, m ∈ ms → target m < pl_next s) → is_Some (live !! t) →
  task_moves t i x y c c (live !! t) (live !! t) (pl_busy s) →
  (∀ p j, y = Some (SIn p j) → j = JoinIdle ∨ ∃ h k, p = PAwait h k ∧ j = JoinTake1 t) →
  next_is st_fresh y = true →
  23 * length ms + from_option stage_weight 0 y < stage_weight x →
  step_ok res live E s i t (pl_cells s, pl_next s, y, ms).
Proof using.
  intros Hinv Hi Hc Hms [j Hl] Hm Hin Hy Hwt. rewrite <- (insert_id (pl_cells s) t c Hc) at 1.
  eapply step_same; try done; [congruence| |lia].
  intros j' E' _ _. left. destruct y as [x'|]; [|done]. by apply at_stage_here.
Qed.

(** *** The steps of [run] *)

(** The future is left alone. *)
Lemma future_same t i x y c c' (l : option info) T :
  T !! i = Some (t, x) → future_ok t c l T → t_fut (c_task c') = t_fut (c_task c) →
  (is_Some l → t_state (c_task c') ≠ COMPLETED) →
  (l = None → t_state (c_task c') = COMPLETED ∨
     (st_storing x = false ∧ (t_state (c_task c) = COMPLETED → t_state (c_task c') = COMPLETED))) →
  st_inside x = false → future_ok t c' l (go_to i t y T).
Proof using.
  intros Hi Hf Hfut Hs Hn Hx. unfold future_ok in *. rewrite Hfut. destruct l as [j|].
  - destruct Hf as (_ & p & Hp & Hpr). split; [apply Hs; by eexists|]. exists p. split; [done|].
    intros Hno. apply Hpr. intros Hin. apply Hno. apply (at_stage_keep _ _ _ _ Hi); [by left|done].
  - destruct Hf as [Hf Hv]. split; [|done]. destruct (Hn eq_refl) as [?|[Hst Hs']]; [by left|].
    destruct Hf as [?|Hf]; [by left; apply Hs'|right]. apply (at_stage_keep _ _ _ _ Hi); [by left|done].
Qed.

Lemma owner_state t c (l : option info) T i x :
  task_ok t c l T → T !! i = Some (t, x) → st_owner x = true → is_owned (t_state (c_task c)).
Proof using. intros Hok Hi Hx. apply (tk_owned _ _ _ _ Hok). by exists i, x. Qed.

Lemma holder_lock t c (l : option info) T i x :
  task_ok t c l T → T !! i = Some (t, x) → st_holds x = true → c_lock c = Some i.
Proof using. intros Hok Hi Hx. apply (tk_lock _ _ _ _ Hok). eauto. Qed.

(** A task that is owned and not about to be stored is unfinished. *)
Lemma live_state t c (l : option info) T :
  task_ok t c l T → is_Some l → t_state (c_task c) ≠ COMPLETED.
Proof using. intros Hok [j ->]. apply (tk_future _ _ _ _ Hok). Qed.

Lemma state_cases t c (l : option info) T :
  task_ok t c l T →
  t_state (c_task c) = IDLE ∨ t_state (c_task c) = RUNNING ∨ t_state (c_task c) = NOTIFIED ∨
  t_state (c_task c) = COMPLETED.
Proof using.
  intros Hok. pose proof (tk_state _ _ _ _ Hok) as Hst. rewrite !elem_of_cons, elem_of_nil in Hst.
  naive_solver.
Qed.

Lemma idle_live t c (l : option info) T :
  task_ok t c l T → t_state (c_task c) = IDLE → is_Some l.
Proof using.
  intros Hok Hs. pose proof (tk_future _ _ _ _ Hok) as Hf. destruct l as [j|]; [by eexists|].
  destruct Hf as [[Hf|(j & x & Hj & Hx)] _]; [by rewrite Hs in Hf|].
  assert (st_owner x = true) as Ho by by destruct x as [[]| |].
  pose proof (owner_state _ _ _ _ j x Hok Hj Ho) as Hown. rewrite Hs in Hown. by destruct Hown.
Qed.

#[local] Arguments go_to : simpl never.

(** Comparisons of states. *)
Ltac weigh :=
  unfold cell_weight; cbn -[decide];
  repeat first [rewrite decide_True by (done || auto) | rewrite decide_False by (done || intros [?|?]; done)];
  cbn -[decide].

Section run.
Context (res : gmap nat (result O P)) (live : gmap nat info) (E : list nat) (s : pool O P A).
Context (i t : nat) (st : Z) (a : A) (f : JoinInner (prog O P) O P) (lk : option nat).
Local Abbreviation c := (mkCell (mkTask st a f) lk).
Context (Hinv : pool_inv res live E s) (Hc : pl_cells s !! t = Some c).

Lemma own_task_ok : task_ok t c (live !! t) (pl_busy s).
Proof using Hinv Hc. by apply (pi_tasks _ _ _ _ Hinv). Qed.

Ltac start_run :=
  unfold run_step; rewrite Hc;
  unfold shared_of, cell_of, commands_of, with_task, with_lock, with_state, with_fut, with_waker, try_update;
  cbn -[decide].

Lemma run_claim_step mv :
  pl_busy s !! i = Some (t, SRun RunClaim) → run_step None i t RunClaim s = Some mv →
  step_ok res live E s i t mv.
Proof using Hinv Hc.
  intros Hi. pose proof own_task_ok as Hok. pose proof (tk_future _ _ _ _ Hok) as Hfut.
  start_run.
  destruct (state_cases _ _ _ _ Hok) as [Hs|[Hs|[Hs|Hs]]]; cbn in Hs; rewrite Hs in *;
    weigh; intros [= <-].
  - pose proof (idle_live _ _ _ _ Hok eq_refl) as Hl.
    eapply step_same; try done; cbn; [by intros ? ?%elem_of_nil| | |weigh; lia].
    + split; cbn; try done; [by right; left|by split; [intros [?|?]|left]|by intros x' [= <-]|by left|].
      eapply future_same; [done|exact Hfut|done|done| |done]. intros Hn. rewrite Hn in Hl. by destruct Hl.
    + intros j E' _ _. left. by apply at_stage_here.
  - eapply step_same; try done; cbn; [by intros ? ?%elem_of_nil| | |weigh; lia].
    + split; cbn; try done; [by do 2 right; left|by split; [left|right]|by left|].
      eapply future_same; [done|exact Hfut|done|done|by right|done].
    + intros j E' _ _. right; left; right; right. eexists. by rewrite lookup_insert_eq.
  - eapply step_same; try done; cbn; [by intros ? ?%elem_of_nil| | |weigh; lia].
    + split; cbn; try done; [by do 2 right; left|by left|].
      eapply future_same; [done|exact Hfut|done|done|by right|done].
    + intros j E' _ _. right; left; right; right. eexists. by rewrite lookup_insert_eq.
  - assert (live !! t = None) as Hl.
    { apply eq_None_not_Some. intros Hl. by apply (live_state _ _ _ _ Hok Hl). }
    eapply step_same; try done; cbn; [by intros ? ?%elem_of_nil| | |weigh; lia].
    + split; cbn; try done; [by do 3 right; left|by left|].
      eapply future_same; [done|exact Hfut|done| |by left|done]. rewrite Hl. by intros [].
    + intros j E' Hj. congruence.
Qed.

(** The mutex is free when the poll is about to begin: whoever held it has given the
    task back or completed it. *)
Lemma run_lock_free : pl_busy s !! i = Some (t, SRun RunLock) → lk = None.
Proof using Hinv Hc.
  intros Hi. pose proof own_task_ok as Hok. destruct lk as [j|] eqn:Hlk; [|done].
  destruct (proj1 (tk_lock _ _ _ _ Hok j) eq_refl) as (x & Hj & Hx).
  pose proof (tk_stage _ _ _ _ Hok i _ Hi) as [l Hl]. pose proof (tk_stage _ _ _ _ Hok j x Hj) as Hsx.
  assert (st_owner x = true) as Ho.
  { destruct x as [[]| |]; cbn in Hx, Hsx |- *; try done. congruence. }
  pose proof (tk_unique _ _ _ _ Hok i j _ x Hi Hj eq_refl Ho) as <-. rewrite Hi in Hj. by injection Hj as <-.
Qed.

Lemma run_lock_step mv :
  pl_busy s !! i = Some (t, SRun RunLock) → run_step None i t RunLock s = Some mv →
  step_ok res live E s i t mv.
Proof using Hinv Hc.
  intros Hi. pose proof own_task_ok as Hok. pose proof (tk_stage _ _ _ _ Hok i _ Hi) as Hl.
  pose proof (live_state _ _ _ _ Hok Hl) as Hne. pose proof (owner_state _ _ _ _ _ _ Hok Hi eq_refl) as Ho.
  start_run. rewrite (run_lock_free Hi). intros [= <-].
  eapply step_same; try done; cbn; [by intros ? ?%elem_of_nil| | |weigh; lia].
  - split; cbn; [exact (tk_state _ _ _ _ Hok)|done|split; [by right; apply run_lock_free|done]| |by left|].
    + by intros x' [= <-].
    + eapply future_same; [done|exact (tk_future _ _ _ _ Hok)|done|done| |done].
      intros Hn. rewrite Hn in Hl. by destruct Hl.
  - intros j E' _ _. left. by apply at_stage_here.
Qed.

(** The poll begins. *)
Lemma run_poll_step mv :
  pl_busy s !! i = Some (t, SRun RunPoll) → busy_step i t (SRun RunPoll) s = Some mv →
  step_ok res live E s i t mv.
Proof using Hinv Hc.
  intros Hi. pose proof own_task_ok as Hok. pose proof (tk_stage _ _ _ _ Hok i _ Hi) as [j Hl].
  pose proof (owner_state _ _ _ _ _ _ Hok Hi eq_refl) as Ho.
  pose proof (tk_future _ _ _ _ Hok) as Hfut. rewrite Hl in Hfut. destruct Hfut as (Hne & p & Hp & Hpr).
  cbn in Hp. assert (p = i_prog j) as ->.
  { apply Hpr. intros (j' & x & Hj' & Hx).
    assert (st_owner x = true) as Hox by by destruct x as [[]| |].
    pose proof (tk_unique _ _ _ _ Hok i j' _ x Hi Hj' eq_refl Hox) as <-.
    rewrite Hi in Hj'. by injection Hj' as <-. }
  unfold busy_step. rewrite Hc, Hp. intros [= <-].
  eapply step_stay; try done; cbn; [by intros ? ?%elem_of_nil| | |lia].
  - rewrite Hl. split; cbn; [exact (tk_state _ _ _ _ Hok)|done| | |by left|].
    + split; [by left|]. exact (holder_lock _ _ _ _ _ _ Hok Hi eq_refl).
    + intros x' [= <-]. by exists j.
    + split; [done|]. exists (i_prog j). split; [done|]. done.
  - intros p' j' [= <- <-]. by left.
Qed.

Lemma run_store_step mv :
  pl_busy s !! i = Some (t, SRun RunStore) → run_step None i t RunStore s = Some mv →
  step_ok res live E s i t mv.
Proof using Hinv Hc.
  intros Hi. pose proof own_task_ok as Hok. pose proof (tk_stage _ _ _ _ Hok i _ Hi) as Hl. cbn in Hl.
  start_run. intros [= <-].
  eapply step_same; try done; cbn; [by intros ? ?%elem_of_nil| |by rewrite Hl|weigh; case_decide; lia].
  split; cbn; [by do 3 right; left|by split; [intros [?|?]|]| | |by left|].
  - split; [by left|]. exact (holder_lock _ _ _ _ _ _ Hok Hi eq_refl).
  - by intros x' [= <-].
  - eapply future_same; [done|exact (tk_future _ _ _ _ Hok)|done| |by left|done].
    rewrite Hl. by intros [].
Qed.

Lemma run_unlock_ready_step mv :
  pl_busy s !! i = Some (t, SRun RunUnlockReady) → run_step None i t RunUnlockReady s = Some mv →
  step_ok res live E s i t mv.
Proof using Hinv Hc.
  intros Hi. pose proof own_task_ok as Hok. pose proof (tk_stage _ _ _ _ Hok i _ Hi) as Hl. cbn in Hl.
  start_run. intros [= <-].
  eapply step_same; try done; cbn; [by intros ? ?%elem_of_nil| |by rewrite Hl|weigh; case_decide; lia].
  split; cbn; [exact (tk_state _ _ _ _ Hok)|done|done|by intros x' [= <-]|by left|].
  eapply future_same; [done|exact (tk_future _ _ _ _ Hok)|done| |by right|done].
  rewrite Hl. by intros [].
Qed.

Lemma run_unlock_step mv :
  pl_busy s !! i = Some (t, SRun RunUnlock) → run_step None i t RunUnlock s = Some mv →
  step_ok res live E s i t mv.
Proof using Hinv Hc.
  intros Hi. pose proof own_task_ok as Hok. pose proof (tk_stage _ _ _ _ Hok i _ Hi) as Hl. cbn in Hl.
  pose proof (owner_state _ _ _ _ _ _ Hok Hi eq_refl) as Ho.
  start_run. intros [= <-].
  eapply step_same; try done; cbn; [by intros ? ?%elem_of_nil| | |weigh; case_decide; lia].
  - split; cbn; [exact (tk_state _ _ _ _ Hok)|done|done|by intros x' [= <-]|by left|].
    eapply future_same; [done|exact (tk_future _ _ _ _ Hok)|done| |by right|done].
    intros _. exact (live_state _ _ _ _ Hok Hl).
  - intros j E' Hj HE. by eapply attended_self; [done..|apply (fed_keeps _ _ _ HE)| | |].
Qed.

Lemma run_release_step mv :
  pl_busy s !! i = Some (t, SRun RunRelease) → run_step None i t RunRelease s = Some mv →
  step_ok res live E s i t mv.
Proof using Hinv Hc.
  intros Hi. pose proof own_task_ok as Hok. pose proof (tk_stage _ _ _ _ Hok i _ Hi) as Hl. cbn in Hl.
  pose proof (tk_future _ _ _ _ Hok) as Hfut.
  start_run. unfold run_release.
  destruct (owner_state _ _ _ _ _ _ Hok Hi eq_refl) as [Hs|Hs]; cbn in Hs; rewrite Hs in *; weigh; intros [= <-].
  - eapply step_same; try done; cbn; [by intros ? ?%elem_of_nil| | |weigh; lia].
    + split; cbn; [by left|by split; [intros [?|?]|]|done|done|by left|].
      eapply future_same; [done|exact Hfut|done|done|by right|done].
    + intros j E' Hj HE. by eapply attended_self; [done..|apply (fed_keeps _ _ _ HE)| | |].
  - eapply step_same; try done; cbn; [by intros ? ?%elem_of_nil| | |weigh; lia].
    + split; cbn; [by left|by split; [intros [?|?]|]|done|by intros x' [= <-]|by left|].
      eapply future_same; [done|exact Hfut|done|done|by right|done].
    + intros j E' Hj HE. right; left; right; left. by apply at_stage_here.
Qed.

Lemma run_reschedule_step mv :
  pl_busy s !! i = Some (t, SRun RunReschedule) → run_step None i t RunReschedule s = Some mv →
  step_ok res live E s i t mv.
Proof using Hinv Hc.
  intros Hi. pose proof own_task_ok as Hok. start_run. intros [= <-].
  eapply step_same; try done; cbn; [| | |weigh; case_decide; lia].
  - intros m ->%list_elem_of_singleton. cbn. by eapply (pi_busy _ _ _ _ Hinv).
  - split; cbn; [exact (tk_state _ _ _ _ Hok)|done|done|done|by left|].
    eapply future_same; [done|exact (tk_future _ _ _ _ Hok)|done| |by right|done].
    exact (live_state _ _ _ _ Hok).
  - intros j E' Hj HE. right; left; left. by apply (fed_targets _ _ _ HE (CGlobal t)), list_elem_of_singleton.
Qed.
Lemma run_wake_step mv :
  pl_busy s !! i = Some (t, SRun RunWake) → run_step None i t RunWake s = Some mv →
  step_ok res live E s i t mv.
Proof using Hinv Hc AtomicWakerLaws0.
  intros Hi. pose proof own_task_ok as Hok. pose proof (tk_stage _ _ _ _ Hok i _ Hi) as Hl. cbn in Hl.
  pose proof (aw_wake_last a) as Hlast. pose proof (aw_wake_empties a) as Hempty.
  assert (∀ a', aw_last a' = None → ∀ ms, CWake <$> option_list (aw_last a) = ms →
    step_ok res live E s i t (<[t := mkCell (mkTask st a' f) lk]> (pl_cells s), pl_next s, None, ms)) as Hstep.
  { intros a' Ha' ms Hms E' HE. exists res, live. split_and!; [|done|].
    - eapply (move_own _ live live); try done; cbn.
      + split; cbn; [exact (tk_state _ _ _ _ Hok)|done|done|done|by left|].
        eapply future_same; [done|exact (tk_future _ _ _ _ Hok)|done| |by right|done].
        rewrite Hl. by intros [].
      + intros u j Hu. by exists j.
      + apply (pi_own _ _ _ _ Hinv).
      + apply (fed_keeps _ _ _ HE).
      + intros u Hu. destruct (fed_only _ _ _ HE u Hu) as [Hu'|(m & Hm & ->)]; [by apply (pi_queued _ _ _ _ Hinv)|].
        rewrite <- Hms in Hm. destruct (aw_last a) as [w|] eqn:Hw; [|by apply not_elem_of_nil in Hm].
        apply list_elem_of_singleton in Hm as ->. by eapply (pi_wakers _ _ _ _ Hinv t).
      + rewrite Ha'. done.
      + rewrite Hl. by intros [].
      + intros r _ Hr Hh. exact (pi_results _ _ _ _ Hinv t _ r Hc Hl Hr Hh).
      + intros u Hu (c0 & Hc0 & Hw0 & _). left. rewrite Hc in Hc0. injection Hc0 as <-. cbn in Hw0.
        apply (fed_targets _ _ _ HE (CWake u)). rewrite <- Hms, Hw0. by left.
      + intros j Hj. congruence.
    - unfold work. cbn [pl_busy pl_cells]. pose proof (go_to_sum _ _ _ _ None Hi) as Hb.
      pose proof (map_sum_update cell_weight _ _ _ (mkCell (mkTask st a' f) lk) Hc) as Hs.
      change (cell_weight (mkCell (mkTask st a' f) lk)) with (cell_weight c) in Hs.
      pose proof (fed_length _ _ _ HE) as Hlen. cbn in Hb.
      assert (length ms ≤ 1) by (rewrite <- Hms; destruct (aw_last a); cbn; lia). lia. }
  unfold run_step. rewrite Hc. cbn. unfold wake_joiner. cbn.
  destruct (aw_wake a) as [[w|] a']; cbn in Hlast, Hempty |- *; intros [= <-];
    (apply Hstep; [done|by rewrite <- Hlast]).
Qed.

(** *** The poll *)

(** The task stays in the hands of the worker. *)
Lemma in_moves j x' j' :
  pl_busy s !! i = Some (t, x') → st_inside x' = true →
  live !! t = Some j → ∀ y, st_inside y = true → stage_ok y (Some j') →
  task_moves t i x' (Some y) c c (live !! t) (Some j') (pl_busy s).
Proof using Hinv Hc.
  intros Hi Hx Hl y Hy Hst. pose proof own_task_ok as Hok.
  assert (st_owner x' = true ∧ st_holds x' = true) as [Hxo Hxh] by by destruct x'.
  assert (st_owner y = true ∧ st_holds y = true) as [Hyo Hyh] by by destruct y.
  pose proof (owner_state _ _ _ _ _ _ Hok Hi Hxo) as Ho.
  pose proof (holder_lock _ _ _ _ _ _ Hok Hi Hxh) as Hlk.
  split; cbn; rewrite ?Hxo, ?Hyo, ?Hyh; [exact (tk_state _ _ _ _ Hok)|done|by split; [left|]| | |].
  - by intros x'' [= <-].
  - right. split; [done|]. by eexists.
  - pose proof (tk_future _ _ _ _ Hok) as Hf. rewrite Hl in Hf. destruct Hf as (G1 & p & G2 & _).
    split; [done|]. exists p. split; [done|]. intros []. by apply at_stage_here.
Qed.

Lemma out_pending_step p mv :
  pl_busy s !! i = Some (t, SOut (Ok Pending) p) → run_step (Some (Ok Pending, p)) i t RunPoll s = Some mv →
  step_ok res live E s i t mv.
Proof using Hinv Hc.
  intros Hi. pose proof own_task_ok as Hok. destruct (tk_stage _ _ _ _ Hok i _ Hi) as (j & Hl & Hp).
  pose proof (owner_state _ _ _ _ _ _ Hok Hi eq_refl) as Ho.
  pose proof (tk_future _ _ _ _ Hok) as Hf. rewrite Hl in Hf. destruct Hf as (Hne & p0 & Hp0 & _).
  cbn in Hp0. start_run. rewrite Hp0. intros [= <-].
  eapply step_same; try done; cbn; [by intros ? ?%elem_of_nil| |congruence| |weigh; case_decide; lia].
  - rewrite Hl. split; cbn; [exact (tk_state _ _ _ _ Hok)|done| | |by left|].
    + split; [by left|]. exact (holder_lock _ _ _ _ _ _ Hok Hi eq_refl).
    + intros x' [= <-]. by eexists.
    + split; [done|]. by exists p.
  - intros j' E' Hj' HE. by eapply attended_self; [done..|apply (fed_keeps _ _ _ HE)| | |].
Qed.
Lemma work_step live' E' y n c' :
  pl_busy s !! i = Some (t, n) →
  work live' E' (mkPool (<[t := c']> (pl_cells s)) (pl_next s) (go_to i t y (pl_busy s))) +
    map_sum info_weight live + 23 * length E + stage_weight n + cell_weight c =
  work live E s + map_sum info_weight live' + 23 * length E' + from_option stage_weight 0 y +
    cell_weight c'.
Proof using Hc.
  intros Hi. unfold work. cbn [pl_busy pl_cells]. pose proof (go_to_sum _ _ _ _ y Hi) as Hb.
  pose proof (map_sum_update cell_weight _ _ _ c' Hc) as Hs. lia.
Qed.

(** The program has returned: the task is finished. *)
Lemma out_ready_step r p mv :
  pl_busy s !! i = Some (t, SOut (returned r) p) → run_step (Some (returned r, p)) i t RunPoll s = Some mv →
  step_ok res live E s i t mv.
Proof using Hinv Hc.
  intros Hi. pose proof own_task_ok as Hok. pose proof (pi_own _ _ _ _ Hinv) as Hown.
  assert (∃ j, live !! t = Some j ∧ i_prog j = PReturn r) as (j & Hl & Hp).
  { pose proof (tk_stage _ _ _ _ Hok i _ Hi) as Hst. by destruct r; destruct Hst as (j & ? & ?); exists j. }
  assert (i_res j = r ∧ i_cost j = 1) as [Hr Hcost].
  { pose proof (own_evals _ _ Hown t j Hl) as Hev. rewrite Hp in Hev. by apply evals_return_inv in Hev. }
  pose proof (owner_state _ _ _ _ _ _ Hok Hi eq_refl) as Ho.
  pose proof (tk_future _ _ _ _ Hok) as Hf. rewrite Hl in Hf. destruct Hf as (Hne & p0 & Hp0 & _). cbn in Hp0.
  set (c' := mkCell (mkTask st a (JoinInner_Return (joined r))) lk).
  intros Hrun. assert (mv = (<[t := c']> (pl_cells s), pl_next s, Some (SRun RunStore), [])) as ->.
  { revert Hrun. start_run. rewrite Hp0. destruct r; by intros [= <-]. }
  intros E' HE. apply fed_nil in HE as (HE1 & HE2 & HE3). exists res, (delete t live). split_and!; [|done|].
  - eapply (move_own _ live (delete t live)); try done; cbn.
    + rewrite Hl, lookup_delete_eq. split; cbn; [exact (tk_state _ _ _ _ Hok)|done| | | |].
      * split; [by left|]. exact (holder_lock _ _ _ _ _ _ Hok Hi eq_refl).
      * by intros x' [= <-].
      * right. split; [done|]. by eexists.
      * split; [right; by apply at_stage_here|]. by eexists.
    + intros u Hu. by rewrite lookup_delete_ne.
    + apply covered_delete.
    + by apply own_delete.
    + intros u Hu. by apply (pi_queued _ _ _ _ Hinv), HE2.
    + intros r' _ Hr' _. pose proof (own_res _ _ Hown t j Hl). congruence.
    + intros u Hu (c0 & Hc0 & Hw0 & _). right. exists c'. rewrite lookup_insert_eq.
      rewrite Hc in Hc0. injection Hc0 as <-. split_and!; [done..|right]. by apply at_stage_here.
    + intros j'. by rewrite lookup_delete_eq.
  - pose proof (work_step (delete t live) E' (Some (SRun RunStore)) _ c' Hi) as Hw.
    change (cell_weight c') with (cell_weight c) in Hw. cbn in Hw.
    pose proof (map_sum_delete info_weight live t j Hl) as Hd.
    unfold info_weight at 2 in Hd. rewrite Hcost in Hd. lia.
Qed.

Lemma in_return_step r jn mv :
  pl_busy s !! i = Some (t, SIn (PReturn r) jn) → in_step t (PReturn r) jn s = Some mv →
  step_ok res live E s i t mv.
Proof using Hinv Hc.
  intros Hi [= <-]. destruct (tk_stage _ _ _ _ own_task_ok i _ Hi) as (j & Hl & Hp).
  eapply step_stay; try done; [by intros ? ?%elem_of_nil| |by destruct r|].
  - pose proof (in_moves j _ j Hi eq_refl Hl (SOut (returned r) (PReturn r)) eq_refl) as Hm.
    rewrite Hl at 2. apply Hm. destruct r; by exists j.
  - destruct r, jn; cbn; lia.
Qed.

Lemma in_yield_step k jn mv :
  pl_busy s !! i = Some (t, SIn (PYield k) jn) → in_step t (PYield k) jn s = Some mv →
  step_ok res live E s i t mv.
Proof using Hinv Hc.
  intros Hi [= <-]. rewrite <- (insert_id (pl_cells s) t c Hc) at 1. intros E' HE.
  destruct (tk_stage _ _ _ _ own_task_ok i _ Hi) as (j & Hl & Hp).
  pose proof (pi_own _ _ _ _ Hinv) as Hown. pose proof (own_evals _ _ Hown t j Hl) as Hev.
  rewrite Hp in Hev. apply evals_yield_inv in Hev as (n & Hcost & Hev).
  apply fed_one in HE as (HE1 & HE2 & HE3 & HE4). cbn in HE2, HE3.
  set (j' := mkInfo k (i_env j) (i_res j) n tt : info). exists res, (<[t := j']> live).
  split_and!; [|done|].
  - eapply (move_own _ live (<[t := j']> live)); try done; cbn.
    + rewrite lookup_insert_eq. eapply in_moves; try done. by exists j'.
    + intros u Hu. by rewrite lookup_insert_ne.
    + by eapply covered_insert.
    + by eapply own_insert.
    + intros u Hu. destruct (HE3 u Hu) as [Hu'| ->]; [by apply (pi_queued _ _ _ _ Hinv)|].
      by eapply (pi_busy _ _ _ _ Hinv).
    + intros r'. by rewrite lookup_insert_eq.
    + intros u Hu (c0 & Hc0 & Hw0 & _). right. exists c0. rewrite (insert_id (pl_cells s) t c Hc).
      split_and!; [done..|left]. rewrite lookup_insert_eq. by eexists.
    + intros j0 _. right; left; by left.
  - pose proof (work_step (<[t := j']> live) E' (Some (SOut (Ok Pending) k)) _ c Hi) as Hw.
    pose proof (in_weight (O := O) (PYield k) jn). cbn [from_option] in Hw.
    change (stage_weight (SOut _ _)) with 14 in Hw. pose proof (map_sum_update info_weight live t j j' Hl) as Hd.
    unfold info_weight at 2 4 in Hd. rewrite Hcost in Hd. cbn [i_cost j'] in Hd. lia.
Qed.
Lemma in_spawn_step child k jn mv :
  pl_busy s !! i = Some (t, SIn (PSpawn child k) jn) → in_step t (PSpawn child k) jn s = Some mv →
  step_ok res live E s i t mv.
Proof using Hinv Hc AtomicWakerLaws0.
  intros Hi [= <-] E' HE. destruct (tk_stage _ _ _ _ own_task_ok i _ Hi) as (j & Hl & Hp).
  pose proof (own_evals _ _ (pi_own _ _ _ _ Hinv) t j Hl) as Hev. rewrite Hp in Hev.
  apply evals_spawn_inv in Hev as (rc & m & n & Hcost & Hch & Hk).
  assert (jn = JoinIdle) as -> by by destruct (pi_awaits _ _ _ _ Hinv i t _ jn Hi) as [?|(? & ? & ? & _)].
  apply fed_one in HE as (HE1 & HE2 & HE3 & HE4). cbn in HE2, HE3.
  pose proof (spawn_live _ _ _ _ Hinv) as Hlh. pose proof (spawn_ne _ _ _ _ _ _ _ _ _ Hinv Hi) as Hne.
  do 2 eexists. split_and!.
  - exact (move_spawn _ _ _ E' _ _ _ _ _ _ _ _ _ _ _ Hinv Hi Hl Hc Hch Hk HE1 HE2 HE3).
  - apply insert_subseteq. exact (spawn_res _ _ _ _ Hinv).
  - unfold work. cbn [pl_busy pl_cells]. pose proof (go_to_sum _ _ _ _ (Some (SIn (k (pl_next s)) JoinIdle)) Hi) as Hb.
    rewrite (map_sum_insert info_weight) by by rewrite lookup_insert_ne.
    rewrite (map_sum_insert cell_weight) by (apply eq_None_not_Some; rewrite (pi_cells _ _ _ _ Hinv); lia).
    pose proof (map_sum_update info_weight live t j
      (mkInfo (k (pl_next s)) (<[pl_next s := rc]> (i_env j)) (i_res j) n tt) Hl) as Hd. unfold info_weight at 2 4 in Hd.
    rewrite Hcost in Hd. cbn [from_option] in Hb. change (stage_weight (SIn _ JoinIdle)) with 18 in Hb.
    unfold info_weight at 1. cbn [i_cost] in *. change (cell_weight (mkCell (Task_new child) None)) with 0. lia.
Qed.

(** The poll of a handle begins. *)
Lemma in_await_step h k mv :
  pl_busy s !! i = Some (t, SIn (PAwait h k) JoinIdle) → in_step t (PAwait h k) JoinIdle s = Some mv →
  step_ok res live E s i t mv.
Proof using Hinv Hc.
  intros Hi [= <-]. destruct (tk_stage _ _ _ _ own_task_ok i _ Hi) as (j & Hl & Hp).
  eapply step_stay; try done; cbn; [by intros ? ?%elem_of_nil| | |lia].
  - rewrite Hl at 2. eapply in_moves; try done. by exists j.
  - intros p j' [= <- <-]. right. by exists h, k.
Qed.

(** A step of the poll of a handle that leaves what is left to do as it is. *)
Lemma step_join h k jn y ch ch' :
  pl_busy s !! i = Some (t, SIn (PAwait h k) jn) → pl_cells s !! h = Some ch →
  c_lock ch' = c_lock ch → t_state (c_task ch') = t_state (c_task ch) →
  t_fut (c_task ch') = t_fut (c_task ch) →
  aw_last (t_waker (c_task ch')) = aw_last (t_waker (c_task ch)) ∨
    aw_last (t_waker (c_task ch')) = Some t →
  st_inside y = true → (∀ j, live !! t = Some j → stage_ok y (Some j)) →
  (∀ p j, y = SIn p j → await_ok (<[h := ch']> (pl_cells s)) live t p j) →
  (∀ j, live !! t = Some j → st_fresh y = true ∨ promised (<[h := ch']> (pl_cells s)) live
     (go_to i t (Some y) (pl_busy s)) h t) →
  stage_weight y < stage_weight (SIn (PAwait h k) jn) →
  step_ok res live E s i t (<[h := ch']> (pl_cells s), pl_next s, Some y, []).
Proof using Hinv Hc.
  intros Hi Hh Hlk Hs Hf Hw Hin Hst Haw Hatt Hwt E' HE. apply fed_nil in HE as (HE1 & HE2 & HE3).
  destruct (tk_stage _ _ _ _ own_task_ok i _ Hi) as (j & Hl & Hp). exists res, live. split_and!; [|done|].
  - eapply (move_join _ live live); try done; cbn.
    + rewrite Hl at 2. eapply in_moves; try done. by apply Hst.
    + by left.
    + intros u ju Hu. by exists ju.
    + apply (pi_own _ _ _ _ Hinv).
    + intros u Hu. by apply (pi_queued _ _ _ _ Hinv), HE2.
    + intros r Hlh Hr Hheld. rewrite Hf. by apply (pi_results _ _ _ _ Hinv h).
    + intros p j' [= ->]. by apply Haw.
    + intros j' Hj'. destruct (Hatt j' Hj') as [Hfr|Hpr]; [left; by apply at_stage_here|].
      right; right. exists h, k. split; [congruence|done].
  - unfold work. cbn [pl_busy pl_cells]. pose proof (go_to_sum _ _ _ _ (Some y) Hi) as Hb.
    pose proof (map_sum_update cell_weight _ _ _ ch' Hh) as Hsum. cbn [from_option] in Hb.
    assert (cell_weight ch' = cell_weight ch) as Hcw by (unfold cell_weight; by rewrite Hs). lia.
Qed.
(** The handle yields the result of the task, which the program receives. *)
Lemma step_joined h k jn ch v :
  pl_busy s !! i = Some (t, SIn (PAwait h k) jn) → pl_cells s !! h = Some ch →
  t_fut (c_task ch) = JoinInner_Return v →
  let ch' := mkCell (with_fut (JoinInner_Return (Err JoinError_Aborted)) (c_task ch)) (c_lock ch) in
  step_ok res live E s i t (<[h := ch']> (pl_cells s), pl_next s, Some (SIn (k v) JoinIdle), []).
Proof using Hinv Hc.
  intros Hi Hh Hv ch' E' HE. apply fed_nil in HE as (HE1 & HE2 & HE3).
  destruct (tk_stage _ _ _ _ own_task_ok i _ Hi) as (j & Hl & Hp). pose proof (pi_own _ _ _ _ Hinv) as Hown.
  pose proof (own_evals _ _ Hown t j Hl) as Hev. rewrite Hp in Hev.
  apply evals_await_inv in Hev as (rh & n & Hcost & Hrh & Hev).
  destruct (own_held _ _ Hown t j h rh Hl Hrh) as [Hth Hres].
  assert (live !! h = None) as Hlh.
  { pose proof (tk_future _ _ _ _ (pi_tasks _ _ _ _ Hinv h ch Hh)) as Hf.
    destruct (live !! h); [|done]. destruct Hf as (_ & p & Hfp & _). congruence. }
  assert (v = joined rh) as ->.
  { enough (JoinInner_Return v = JoinInner_Return (joined rh) :> JoinInner (prog O P) O P) by congruence.
    rewrite <- Hv. apply (pi_results _ _ _ _ Hinv h); [done..|]. right. eauto. }
  set (j' := mkInfo (k (joined rh)) (delete h (i_env j)) (i_res j) n tt : info).
  exists res, (<[t := j']> live). split_and!; [|done|].
  - eapply (move_join _ live (<[t := j']> live)); try done; cbn.
    + rewrite lookup_insert_eq. eapply in_moves; try done. by exists j'.
    + right. split; [done|]. by eexists.
    + by left.
    + intros u Hu. by rewrite lookup_insert_ne.
    + eapply covered_insert; [done..|]. apply delete_subseteq.
    + eapply own_insert; [done..| |done]. apply delete_subseteq.
    + intros u Hu. by apply (pi_queued _ _ _ _ Hinv), HE2.
    + intros r _ _ [->|(o & jo & Ho & [ro Hro])]; [lia|].
      apply lookup_insert_Some in Ho as [[<- <-]|[Hot Ho]];
        [cbn in Hro; by rewrite lookup_delete_eq in Hro|].
      destruct Hot. apply (own_unique _ _ Hown t j o jo h); eauto.
    + intros p jn' [= <- <-]. by left.
    + intros j0 _. left. by apply at_stage_here.
  - unfold work. cbn [pl_busy pl_cells]. pose proof (in_weight (O := O) (PAwait h k) jn).
    pose proof (go_to_sum _ _ _ _ (Some (SIn (k (joined rh)) JoinIdle)) Hi) as Hb.
    cbn [from_option] in Hb. change (stage_weight (SIn _ JoinIdle)) with 18 in Hb.
    pose proof (map_sum_update cell_weight _ _ _ ch' Hh) as Hsum.
    change (cell_weight ch') with (cell_weight ch) in Hsum.
    pose proof (map_sum_update info_weight live t j j' Hl) as Hd.
    unfold info_weight at 2 4 in Hd. rewrite Hcost in Hd. cbn [i_cost j'] in Hd. lia.
Qed.

(** A handle that yields nothing belongs to an unfinished task. *)
Lemma future_live h ch p :
  pl_cells s !! h = Some ch → t_fut (c_task ch) = JoinInner_Future p → is_Some (live !! h).
Proof using Hinv.
  intros Hh Hp. pose proof (tk_future _ _ _ _ (pi_tasks _ _ _ _ Hinv h ch Hh)) as Hf.
  destruct (live !! h); [by eexists|]. destruct Hf as (_ & v & Hv). congruence.
Qed.

Lemma in_join_step h k jn mv :
  jn ≠ JoinIdle → pl_busy s !! i = Some (t, SIn (PAwait h k) jn) →
  in_step t (PAwait h k) jn s = Some mv → step_ok res live E s i t mv.
Proof using Hinv Hc AtomicWakerLaws0.
  intros Hjn Hi. destruct (tk_stage _ _ _ _ own_task_ok i _ Hi) as (j & Hl & Hp).
  destruct (pi_awaits _ _ _ _ Hinv i t _ jn Hi) as [?|(h' & k' & [= <- <-] & Hcase)]; [done|].
  unfold in_step. destruct (pl_cells s !! h) as [[[sh ah fh] lh]|] eqn:Hh; [|by destruct Hcase as [->|[->|(n & -> & _)]]].
  destruct Hcase as [->|[->|(n & -> & Haw)]]; cbn.
  - destruct lh; [done|]. destruct fh as [p|v]; cbn; intros [= <-].
    + eapply step_join; try done; cbn; [by left| | |by left|lia].
      * intros j' Hj'. exists j'. split; [done|congruence].
      * intros p' j' [= <- <-]. right. exists h, k. auto.
    + exact (step_joined h k _ _ v Hi Hh eq_refl).
  - intros [= <-]. eapply step_join; try done; cbn; [right; apply aw_last_register| | |by left|lia].
    + intros j' Hj'. exists j'. split; [done|congruence].
    + intros p' j' [= <- <-]. right. exists h, k. split; [done|]. do 2 right. eexists. split; [done|].
      intros c' Hc'. rewrite lookup_insert_eq in Hc'. injection Hc' as <-. intros _. apply aw_last_register.
  - destruct lh; [done|]. destruct fh as [p|v]; cbn; intros [= <-].
    + eapply step_join; try done; cbn; [by left| | |lia].
      * intros j' Hj'. exists j'. split; [done|congruence].
      * intros j' Hj'. right. eexists. rewrite lookup_insert_eq. split; [done|].
        pose proof (future_live h _ p Hh eq_refl) as Hlh. split; [by apply (Haw _ eq_refl Hlh)|by left].
    + exact (step_joined h k _ _ v Hi Hh eq_refl).
Qed.
End run.

(** Every step of a busy worker keeps the invariant and leaves less work. *)
Lemma busy_step_ok res live E s i t x mv :
  pool_inv res live E s → pl_busy s !! i = Some (t, x) → busy_step i t x s = Some mv →
  step_ok res live E s i t mv.
Proof using AtomicWakerLaws0.
  intros Hinv Hi Hstep. destruct (busy_task _ _ _ _ _ _ _ Hinv Hi) as ([[st a f] lk] & Hc & Hok & Hst).
  destruct x as [q|p jn|[[v|]|e] p].
  - destruct q; cbn in Hst; try done;
      eauto using run_claim_step, run_lock_step, run_poll_step, run_store_step,
        run_unlock_ready_step, run_wake_step, run_unlock_step, run_release_step, run_reschedule_step.
  - destruct p as [r|k|child k|h k]; cbn in Hstep;
      [by eapply in_return_step|by eapply in_yield_step|by eapply in_spawn_step|].
    destruct jn; [by eapply in_await_step|(eapply in_join_step; [exact Hinv|exact Hc| |exact Hi|exact Hstep]; done)..].
  - by eapply (out_ready_step _ _ _ _ _ _ _ _ _ _ Hinv Hc (Ok v)).
  - by eapply out_pending_step.
  - by eapply (out_ready_step _ _ _ _ _ _ _ _ _ _ Hinv Hc (Err e)).
Qed.
(** ** Workers that cannot go on *)

(** A worker waits only for the mutex of a task that its own one awaits. *)
Lemma busy_stuck res live E s i t x :
  pool_inv res live E s → pl_busy s !! i = Some (t, x) → busy_step i t x s = None →
  ∃ h k j y it, live !! t = Some it ∧ i_prog it = PAwait h k ∧ pl_busy s !! j = Some (h, y).
Proof using.
  intros Hinv Hi Hnone. destruct (busy_task _ _ _ _ _ _ _ Hinv Hi) as ([[st a f] lk] & Hc & Hok & Hst).
  destruct x as [q|p jn|[[v|]|e] p].
  - exfalso. destruct q; cbn in Hst; try done; revert Hnone; unfold busy_step, run_step; rewrite Hc; cbn; try done.
    + destruct (try_update _ _) as [[] ?]; done.
    + by rewrite (run_lock_free _ _ _ _ _ _ _ _ _ _ Hinv Hc Hi).
    + destruct f; cbn; done.
    + destruct (wake_joiner _); done.
    + destruct (try_update _ _) as [[] ?]; done.
  - destruct p as [r|k|child k|h k]; [done..|]. destruct Hst as (it & Hl & Hp).
    destruct (own_awaits _ _ _ _ _ _ (pi_own _ _ _ _ Hinv) Hl Hp) as [[rh Hrh] _].
    destruct (own_held _ _ (pi_own _ _ _ _ Hinv) t it h rh Hl Hrh) as [_ Hres].
    destruct (proj2 (pi_cells _ _ _ _ Hinv h)) as [ch Hh]; [apply (pi_dom _ _ _ _ Hinv); by eexists|].
    revert Hnone. unfold busy_step, in_step. rewrite Hh.
    assert (∃ j, jn ≠ JoinIdle → joiner_step jn (shared_of ch) = None → c_lock ch = Some j) as [j Hj].
    { destruct (c_lock ch) as [j|] eqn:Hlk; [by exists j|]. exists 0. intros Hjn.
      destruct (pi_awaits _ _ _ _ Hinv i t _ jn Hi) as [?|(? & ? & _ & [->|[->|(n & -> & _)]])]; [done|..];
        cbn; rewrite ?Hlk; try done; by destruct (Task_take_output _ _). }
    destruct (joiner_step jn (shared_of ch)) as [[sh jn']|] eqn:Hjs; [by destruct jn|].
    destruct jn; [done|..]; intros _;
      destruct (proj1 (tk_lock _ _ _ _ (pi_tasks _ _ _ _ Hinv h ch Hh) j) (Hj ltac:(done) eq_refl))
        as (y & Hy & _); by exists h, k, j, y, it.
  - exfalso. revert Hnone. unfold busy_step, run_step. rewrite Hc. cbn. by destruct (JoinInner_poll _ _).
  - exfalso. revert Hnone. unfold busy_step, run_step. rewrite Hc. cbn. by destruct (JoinInner_poll _ _).
  - exfalso. revert Hnone. unfold busy_step, run_step. rewrite Hc. cbn. by destruct (JoinInner_poll _ _).
Qed.

(** Later tasks have earlier names, so that not all busy workers wait. *)
Lemma all_stuck res live E s :
  pool_inv res live E s → (∀ i t x, pl_busy s !! i = Some (t, x) → busy_step i t x s = None) →
  pl_busy s = ∅.
Proof using.
  intros Hinv Hall. assert (∀ n i t x, pl_next s ≤ n + t → pl_busy s !! i ≠ Some (t, x)) as Hno.
  { induction n as [|n IH]; intros i t x Hn Hi; pose proof (pi_busy _ _ _ _ Hinv i t x Hi); [lia|].
    destruct (busy_stuck _ _ _ _ _ _ _ Hinv Hi (Hall i t x Hi)) as (h & k & j & y & it & Hl & Hp & Hy).
    destruct (own_awaits _ _ _ _ _ _ (pi_own _ _ _ _ Hinv) Hl Hp) as [_ Hlt].
    apply (IH j h y); [lia|done]. }
  apply map_eq. intros i. rewrite lookup_empty. destruct (pl_busy s !! i) as [[t x]|] eqn:Hi; [|done].
  exfalso. apply (Hno (pl_next s) i t x); [lia|done].
Qed.

(** When no worker is busy and no task is queued, all tasks are finished. *)
Lemma nothing_left res live s : pool_inv res live [] s → pl_busy s = ∅ → live = ∅.
Proof using.
  intros Hinv Hbusy. assert (∀ f t, ~ at_stage f t (pl_busy s)) as Hno.
  { intros f t (i & x & Hi & _). by rewrite Hbusy, lookup_empty in Hi. }
  assert (∀ n t i, pl_next s ≤ n + t → live !! t ≠ Some i) as Hlive.
  { assert (∀ t i, live !! t = Some i → t < pl_next s) as Hlt.
    { intros t i Ht. apply (pi_dom _ _ _ _ Hinv). rewrite (own_res _ _ (pi_own _ _ _ _ Hinv) t i Ht). by eexists. }
    induction n as [|n IH]; intros t i Hn Ht; pose proof (Hlt t i Ht); [lia|].
    destruct (pi_attended _ _ _ _ Hinv t i Ht) as [Hf|[[Hq|[Hs|(c & Hc & Hn')]]|(h & k & Hk & c & _ & _ & Hp)]].
    - by apply Hno in Hf.
    - by apply not_elem_of_nil in Hq.
    - by apply Hno in Hs.
    - apply (Hno st_owner t), (tk_owned _ _ _ _ (pi_tasks _ _ _ _ Hinv t c Hc)). by right.
    - destruct Hp as [[j Hj]|Hp]; [|by apply Hno in Hp].
      destruct (own_awaits _ _ _ _ _ _ (pi_own _ _ _ _ Hinv) Ht Hk) as [_ Hth].
      apply (IH h j); [lia|done]. }
  apply map_eq. intros t. rewrite lookup_empty. destruct (live !! t) as [i|] eqn:Ht; [|done].
  exfalso. apply (Hlive (pl_next s) t i); [lia|done].
Qed.

(** What is known of the tasks then. *)
Lemma finished res s :
  pool_inv res ∅ [] s → pl_busy s = ∅ →
  (∀ t c, pl_cells s !! t = Some c → t_state (c_task c) = COMPLETED) ∧
  ∃ c, pl_cells s !! 0 = Some c ∧ ∀ r, res !! 0 = Some r → t_fut (c_task c) = JoinInner_Return (joined r).
Proof using.
  intros Hinv Hbusy. split.
  - intros t c Hc. pose proof (tk_future _ _ _ _ (pi_tasks _ _ _ _ Hinv t c Hc)) as Hf.
    rewrite lookup_empty in Hf. destruct Hf as [[?|(i & x & Hi & _)] _]; [done|].
    by rewrite Hbusy, lookup_empty in Hi.
  - destruct (proj2 (pi_cells _ _ _ _ Hinv 0) (pi_next _ _ _ _ Hinv)) as [c Hc]. exists c. split; [done|].
    intros r Hr. apply (pi_results _ _ _ _ Hinv 0 c r Hc (lookup_empty _) Hr). by left.
Qed.
End steps.
