(* ===== verification/WorkersProps.v ===== *)
(** * WorkersProps: any number of workers run a program to its end

    The queues of [Executor] under the steps of [Workers], and the conclusions about
    every interleaving. *)

From S2P Require Import Prelude SlotMap SlotMapConc JoinHandle Task TaskConc Executor Runtime Programs Workers WorkersInv WorkersSteps.

(** ** The queues *)

Section feeding.
Context {G : Type} `{TaskList G nat, !TaskListLaws G nat}.
Implicit Types (rt : MTRuntime G) (exe : ExecutorHandle nat).

(** The tasks that a worker can take. *)
Definition in_reach exe rt : list nat := vd_items (local_queue exe) ++ tl_view (global_queue rt).

Lemma fed_global m t exe rt rt' :
  target m = t →
  tl_view (global_queue rt') =
    (if decide (t ∈ tl_view (global_queue rt)) then tl_view (global_queue rt)
     else tl_view (global_queue rt) ++ [t]) →
  fed [m] (in_reach exe rt) (in_reach exe rt').
Proof.
  intros <- Hv. unfold in_reach. rewrite Hv. split.
  - case_decide; set_solver.
  - intros m' ->%list_elem_of_singleton. case_decide; set_solver.
  - intros u. setoid_rewrite list_elem_of_singleton. case_decide; set_solver.
  - rewrite !length_app. case_decide; rewrite ?length_app; cbn; lia.
Qed.

(** The local queue has room. *)
Lemma fed_local grow m t exe rt :
  target m = t →
  fed [m] (in_reach exe rt) (in_reach (with_local (vd_push_back grow t (local_queue exe)) exe) rt).
Proof.
  intros <-. unfold in_reach. cbn. split.
  - set_solver.
  - intros m' ->%list_elem_of_singleton. set_solver.
  - intros u. setoid_rewrite list_elem_of_singleton. set_solver.
  - rewrite !length_app. cbn. lia.
Qed.

Lemma fed_trans ms ms' E1 E2 E3 : fed ms E1 E2 → fed ms' E2 E3 → fed (ms ++ ms') E1 E3.
Proof.
  intros [F1 F2 F3 F4] [G1 G2 G3 G4]. split.
  - by etrans.
  - intros m [Hm|Hm]%elem_of_app; [by apply G1, F2|by apply G2].
  - intros u [Hu|(m & Hm & ->)]%G3; [apply F3 in Hu as [?|(m & Hm & ->)]; [by left|]|]; right; exists m;
      rewrite elem_of_app; auto.
  - rewrite length_app. lia.
Qed.

(** All queues; the ones of other workers are out of reach. *)
Definition all_queued (execs : list (ExecutorHandle nat)) rt : list nat :=
  concat ((λ exe, vd_items (local_queue exe)) <$> execs) ++ tl_view (global_queue rt).

Lemma all_queued_split execs rt i exe :
  execs !! i = Some exe →
  ∃ rest, all_queued execs rt ≡ₚ rest ++ in_reach exe rt ∧
    ∀ exe' rt', all_queued (<[i := exe']> execs) rt' ≡ₚ rest ++ in_reach exe' rt'.
Proof.
  intros Hi. pose proof (lookup_lt_Some _ _ _ Hi) as Hlt.
  exists (concat ((λ exe, vd_items (local_queue exe)) <$> take i execs) ++
          concat ((λ exe, vd_items (local_queue exe)) <$> drop (S i) execs)).
  assert (∀ e l r rt', all_queued (l ++ e :: r) rt' ≡ₚ
    (concat ((λ exe, vd_items (local_queue exe)) <$> l) ++
     concat ((λ exe, vd_items (local_queue exe)) <$> r)) ++ in_reach e rt') as Hmid.
  { intros e l r rt'. unfold all_queued, in_reach. rewrite fmap_app, concat_app. cbn.
    rewrite !app_assoc. apply Permutation_app_tail. rewrite <- !app_assoc.
    apply Permutation_app_head, Permutation_app_comm. }
  split.
  - rewrite <- (take_drop_middle execs i exe Hi) at 1. apply Hmid.
  - intros exe' rt'. rewrite insert_take_drop by done. apply Hmid.
Qed.

Lemma fed_frame ms rest X Y E E' :
  fed ms X Y → E ≡ₚ rest ++ X → E' ≡ₚ rest ++ Y → fed ms E E'.
Proof.
  intros [F1 F2 F3 F4] HE HE'. split.
  - intros u. rewrite HE, HE', !elem_of_app. intros [?|?]; [by left|right; auto].
  - intros m Hm. rewrite HE', elem_of_app. auto.
  - intros u. rewrite HE, HE', !elem_of_app. intros [?|Hu]; [auto|]. apply F3 in Hu as [?|?]; auto.
  - rewrite HE, HE', !length_app. lia.
Qed.
End feeding.

(** ** Sleep *)

(** What a worker has left to do before it sleeps, or because its sleep has ended. *)
Definition nap_weight (o : option nap) (mark : option WorkerThreadWaker) : nat :=
  match o with
  | None => 3
  | Some NIdle => 2
  | Some NParking => 1
  | Some NPolling => 0
  | Some NParked => match mark with None => 4 | Some _ => 0 end
  end.

Definition total (n : nat) (f : nat → nat) : nat := sum_list (f <$> seq 0 n).

Lemma total_S n f : total (S n) f = total n f + f n.
Proof. unfold total. rewrite seq_S, fmap_app, sum_list_with_app. cbn. lia. Qed.

Lemma total_ext n f g : (∀ i, i < n → f i = g i) → total n f = total n g.
Proof.
  induction n as [|n IH]; intros Hfg; [done|]. rewrite !total_S, IH, Hfg; [done|lia|].
  intros i Hi. apply Hfg. lia.
Qed.

(** One summand changes. *)
Lemma total_update n f g i :
  i < n → (∀ j, j ≠ i → g j = f j) → total n g + f i = total n f + g i.
Proof.
  induction n as [|n IH]; intros Hi Hfg; [lia|]. rewrite !total_S.
  destruct (decide (i = n)) as [->|Hne].
  - rewrite (total_ext n g f); [lia|]. intros j Hj. apply Hfg. lia.
  - rewrite (Hfg n) by done. specialize (IH ltac:(lia) Hfg). lia.
Qed.

Section sleeping.
Context {G : Type} `{TaskList G nat, !TaskListLaws G nat}.
Implicit Types (rt : MTRuntime G) (naps : gmap nat nap).

(** The queue of parked workers is in order, and whoever is marked is asleep. *)
Definition parked_ok (n : nat) naps rt : Prop :=
  ∃ m ws, parking_ok n m rt ws ∧
    ∀ i w, ws !! i = Some w → parker w = Some Parked → naps !! i = Some NParked.

(** The steps of the workers without a task that are left; a wake-up of the driver
    that [seen] does not count is noticed by whoever polls it. *)
Definition naps_left (n : nat) naps (seen : nat) rt : nat :=
  total n (λ i, nap_weight (naps !! i) (mark_of i rt)) +
  (if bool_decide (seen < io_wakes rt) then 4 else 0).

Lemma mark_of_workers rt ws i w : workers rt = Some ws → ws !! i = Some w → mark_of i rt = parker w.
Proof. intros Hw Hi. unfold mark_of. by rewrite Hw, Hi. Qed.

(** A worker's mark and its nap change. *)
Lemma naps_left_update n naps naps' seen rt rt' i :
  i < n → io_wakes rt' = io_wakes rt →
  (∀ j, j ≠ i → naps' !! j = naps !! j ∧ mark_of j rt' = mark_of j rt) →
  naps_left n naps' seen rt' + nap_weight (naps !! i) (mark_of i rt) =
  naps_left n naps seen rt + nap_weight (naps' !! i) (mark_of i rt').
Proof.
  intros Hi Hio Hj. unfold naps_left. rewrite Hio.
  pose proof (total_update n (λ i, nap_weight (naps !! i) (mark_of i rt))
    (λ i, nap_weight (naps' !! i) (mark_of i rt')) i Hi) as Ht. cbv beta in Ht.
  rewrite <- Nat.add_assoc, (Nat.add_comm (if bool_decide _ then _ else _)), Nat.add_assoc, Ht; [lia|].
  intros j Hne. by destruct (Hj j Hne) as [-> ->].
Qed.

Lemma naps_left_insert n naps seen rt i x :
  i < n →
  naps_left n (<[i := x]> naps) seen rt + nap_weight (naps !! i) (mark_of i rt) =
  naps_left n naps seen rt + nap_weight (Some x) (mark_of i rt).
Proof.
  intros Hi. rewrite <- (lookup_insert_eq naps i x). apply naps_left_update; [done|done|].
  intros j Hne. by rewrite lookup_insert_ne.
Qed.

Lemma naps_left_delete n naps seen rt i :
  i < n →
  naps_left n (delete i naps) seen rt + nap_weight (naps !! i) (mark_of i rt) =
  naps_left n naps seen rt + 3.
Proof.
  intros Hi. change 3 with (nap_weight None (mark_of i rt)).
  rewrite <- (lookup_delete_eq naps i). apply naps_left_update; [done|done|].
  intros j Hne. by rewrite lookup_delete_ne.
Qed.

(** The wake-ups of the driver are noticed. *)
Lemma naps_left_noticed n naps seen rt :
  naps_left n naps (io_wakes rt) rt + (if bool_decide (seen < io_wakes rt) then 4 else 0) =
  naps_left n naps seen rt.
Proof. unfold naps_left. rewrite (bool_decide_false (io_wakes rt < io_wakes rt)) by lia. lia. Qed.

(** No worker is parked, and the driver is woken. *)
Lemma naps_left_woken n naps seen rt rt' m m' ws :
  parking_ok n m rt ws → parking_ok n m' rt' ws → io_wakes rt' = S (io_wakes rt) →
  naps_left n naps seen rt' ≤ naps_left n naps seen rt + 4.
Proof.
  intros Hok Hok' Hio. unfold naps_left.
  rewrite (total_ext n (λ i, nap_weight (naps !! i) (mark_of i rt'))
    (λ i, nap_weight (naps !! i) (mark_of i rt))); [repeat case_bool_decide; lia|].
  intros i _. unfold mark_of. by rewrite (pk_workers _ _ _ _ Hok), (pk_workers _ _ _ _ Hok').
Qed.

Context (fuel : nat) (fuel_pos : 0 < fuel).

(** [schedule_global] queues a task that is not linked already, and ends the sleep of
    at most one worker. *)
Lemma schedule_global_any locked t n naps rt :
  parked_ok n naps rt →
  ∃ rt', schedule_global fuel locked t rt = Done rt' ∧ parked_ok n naps rt' ∧
    tl_view (global_queue rt') =
      (if decide (t ∈ tl_view (global_queue rt)) then tl_view (global_queue rt)
       else tl_view (global_queue rt) ++ [t]) ∧
    ∀ seen, naps_left n naps seen rt' ≤ naps_left n naps seen rt + 4.
Proof using fuel_pos TaskListLaws0.
  intros Hpk. pose proof Hpk as (m & ws & Hok & Hnap).
  destruct (schedule_queue t (global_queue rt)) as (g & Hg & Hv).
  unfold schedule_global. rewrite Hg. cbn [mbind outcome_bind].
  pose proof (parking_ok_global _ _ _ _ g Hok) as Hok'. destruct locked; cbn.
  { eexists. split; [done|]. split_and!; [by exists m, ws|done|]. intros seen. clear fuel_pos.
    unfold naps_left, mark_of. cbn. lia. }
  destruct (wake_worker_spec n m (with_global g rt) ws Hok') as (rt' & Hturn & Hgl & Hcase).
  exists rt'. rewrite (loop_break _ _ _ _ Hturn) by done. split; [done|].
  destruct (queue m) as [|i q] eqn:Hq.
  - destruct Hcase as (Hio & m' & Hm' & _). split_and!; [by exists m', ws|by rewrite Hgl|].
    intros seen. by eapply naps_left_woken.
  - destruct Hcase as (w & m' & Hw & Hio & Hm' & _). split_and!.
    + eexists _, _. split; [exact Hm'|].
      intros j w' [(<- & <- & _)|[Hne Hj]]%list_lookup_insert_Some; [done|by apply Hnap].
    + by rewrite Hgl.
    + intros seen. assert (parker w = Some Parked) as Hp.
      { apply (pk_parked _ _ _ _ Hok i w Hw). rewrite Hq. by left. }
      pose proof (pk_workers _ _ _ _ Hok) as Hws. pose proof (pk_workers _ _ _ _ Hm') as Hws'.
      assert (i < n) as Hi by (rewrite <- (pk_len _ _ _ _ Hok); by eapply lookup_lt_Some).
      pose proof (naps_left_update n naps naps seen rt rt' i Hi Hio) as Hup.
      rewrite (mark_of_workers rt ws i w Hws Hw), (Hnap i w Hw Hp), Hp in Hup.
      unfold mark_of in Hup at 3. rewrite Hws', list_lookup_insert_eq in Hup by (by eapply lookup_lt_Some).
      cbn in Hup. clear fuel_pos. rewrite <- (Nat.add_0_r (naps_left n naps seen rt')), Hup; [lia|].
      intros j Hne. split; [done|]. unfold mark_of. by rewrite Hws, Hws', list_lookup_insert_ne.
Qed.
End sleeping.

Section queues.
Context {G : Type} `{TaskList G nat, !TaskListLaws G nat}.
Context (fuel : nat) (grow : nat → nat) (id : nat) (fuel_pos : 0 < fuel).
Context (n : nat) (naps : gmap nat nap).
Implicit Types (rt : MTRuntime G) (exe : ExecutorHandle nat).

(** What [k] commands do to the sleepers. *)
Definition wakes_few (k : nat) rt rt' : Prop :=
  parked_ok n naps rt' ∧ ∀ seen, naps_left n naps seen rt' ≤ naps_left n naps seen rt + 4 * k.

Lemma schedule_local_any locked m t exe rt :
  target m = t → parked_ok n naps rt →
  ∃ exe' rt', schedule_local fuel locked grow t exe rt = Done (exe', rt') ∧ wakes_few 1 rt rt' ∧
    fed [m] (in_reach exe rt) (in_reach exe' rt').
Proof using fuel_pos TaskListLaws0.
  intros Hm Hp. unfold schedule_local. case_decide.
  - do 2 eexists. split_and!; [done|split; [done|intros seen; clear fuel_pos; lia]|]. by apply fed_local.
  - destruct (schedule_global_any fuel fuel_pos locked t n naps rt Hp) as (rt' & -> & Hp' & Hv & Hn).
    do 2 eexists. split_and!; [done|by split|]. by eapply fed_global.
Qed.

Lemma command_step_ok locked m exe rt :
  parked_ok n naps rt →
  ∃ exe' rt', command_step fuel grow id locked m exe rt = Done (exe', rt') ∧ wakes_few 1 rt rt' ∧
    fed [m] (in_reach exe rt) (in_reach exe' rt').
Proof using fuel_pos TaskListLaws0.
  intros Hp. destruct m as [t|t|t]; cbn [command_step].
  - destruct (schedule_local_any locked (CWake t) t exe rt eq_refl Hp) as (exe' & rt' & Hs & Hp' & Hf).
    exists exe', rt'. unfold wake_by_ref, schedule_on. by rewrite decide_True, Hs.
  - destruct (schedule_local_any locked (CSpawn t) t exe rt eq_refl Hp) as (exe' & rt' & Hs & Hp' & Hf).
    exists exe', rt'. unfold spawn, ExecutorHandle_spawn. cbn. by rewrite Hs.
  - destruct (schedule_global_any fuel fuel_pos locked t n naps rt Hp) as (rt' & -> & Hp' & Hv & Hn).
    exists exe, rt'. split_and!; [done|by split|]. by eapply fed_global.
Qed.

Lemma command_steps_ok locked ms : ∀ exe rt,
  parked_ok n naps rt →
  ∃ exe' rt', command_steps fuel grow id locked ms exe rt = Done (exe', rt') ∧
    wakes_few (length ms) rt rt' ∧ fed ms (in_reach exe rt) (in_reach exe' rt').
Proof using fuel_pos TaskListLaws0.
  induction ms as [|m ms IH]; intros exe rt Hp.
  - exists exe, rt. split_and!; [done|split; [done|intros seen; clear fuel_pos; cbn; lia]|].
    split; [done|by intros ? ?%not_elem_of_nil|by left|clear fuel_pos; lia].
  - destruct (command_step_ok locked m exe rt Hp) as (exe1 & rt1 & Hs1 & [Hp1 Hn1] & Hf1).
    destruct (IH exe1 rt1 Hp1) as (exe' & rt' & Hs & [Hp' Hn] & Hf). exists exe', rt'. cbn [command_steps].
    rewrite Hs1. cbn [mbind outcome_bind]. split_and!; [done| |by apply (fed_trans [m] ms _ _ _ Hf1)].
    split; [done|]. intros seen. specialize (Hn1 seen). specialize (Hn seen). clear fuel_pos. cbn. lia.
Qed.
End queues.

(** ** The system *)

(** A step gives at most one command. *)
Lemma run_step_commands {O P A} `{AtomicWakerOps A nat} cx i t q (s : pool O P A) cells next y ms :
  run_step cx i t q s = Some (cells, next, y, ms) → length ms ≤ 1.
Proof.
  unfold run_step. destruct (pl_cells s !! t) as [c|]; [|done].
  destruct (thread_step cx i q (shared_of c)) as [[sh q']|] eqn:Hs; [|done].
  intros [= _ _ _ <-]. revert Hs. unfold thread_step, commands_of, wake_joiner, schedule.
  destruct q; cbn -[decide try_update];
    repeat match goal with
    | |- context [try_update ?f ?x] => destruct (try_update f x) as [[]]; cbn -[decide try_update]
    | |- context [match c_lock c with _ => _ end] => destruct (c_lock c); cbn -[decide try_update]
    | |- context [JoinInner_poll ?f ?x] => destruct (JoinInner_poll f x); cbn -[decide try_update]
    | |- context [aw_wake ?x] => destruct (aw_wake x) as [[] ?]; cbn -[decide try_update]
    end; intros [= <- _]; cbn; lia.
Qed.

Lemma busy_step_commands {O P A} `{AtomicWakerOps A nat} i t x (s : pool O P A) cells next y ms :
  busy_step i t x s = Some (cells, next, y, ms) → length ms ≤ 1.
Proof.
  assert (∀ p j, in_step t p j s = Some (cells, next, y, ms) → length ms ≤ 1) as Hin.
  { intros p j. unfold in_step. destruct p as [r|k|child k|h k]; [by intros [= _ _ _ <-]; cbn; lia..|].
    destruct j; [intros [= _ _ _ <-]; cbn; lia|destruct (pl_cells s !! h) as [c|]; [|done]..];
      destruct (joiner_step _ _) as [[sh j]|]; try done; intros [= _ _ _ <-]; cbn; lia. }
  unfold busy_step. destruct x as [q|p j|r p]; [|apply Hin|apply run_step_commands].
  destruct q; try apply run_step_commands.
  destruct (pl_cells s !! t) as [[[st a [p|v]] lk]|]; try apply run_step_commands.
  intros [= _ _ _ <-]. cbn. lia.
Qed.

Section system.
Context {G O P A : Type}.
Context `{TaskList G nat, !TaskListLaws G nat, AtomicWakerOps A nat, !AtomicWakerLaws A nat}.
Context (fuel : nat) (grow : nat → nat) (id : nat) (fuel_pos : 0 < fuel).
Local Abbreviation info := (info O P unit).
Implicit Types (s : wsys G O P A) (live : gmap nat info) (res : gmap nat (result O P)).

Local Abbreviation entries s := (all_queued (ws_execs s) (ws_rt s)).

(** A worker without a task has an empty queue, and when a task is in the global queue
    some worker is at work or on its way to the queues: only workers queue tasks, and
    they look at the queues again before they sleep. *)
Record wsys_inv res live s : Prop := {
  wi_pool : pool_inv res live (entries s) (ws_pool s);
  wi_parked : parked_ok (length (ws_execs s)) (ws_naps s) (ws_rt s);
  wi_workers i e : pl_busy (ws_pool s) !! i = Some e → i < length (ws_execs s);
  wi_busy i e : pl_busy (ws_pool s) !! i = Some e → ws_naps s !! i = None;
  wi_local i exe : ws_execs s !! i = Some exe → is_Some (ws_naps s !! i) →
    vd_items (local_queue exe) = [];
  wi_global : tl_view (global_queue (ws_rt s)) ≠ [] →
    ∃ i, i < length (ws_execs s) ∧ ws_naps s !! i = None;
}.

Definition left live s : nat :=
  5 * work live (entries s) (ws_pool s) +
  naps_left (length (ws_execs s)) (ws_naps s) (ws_seen s) (ws_rt s).

(** What a turn does: nothing, or a step that leaves less to do. *)
Definition turn_ok (event : bool) res live s (o : option (wsys G O P A)) : Prop :=
  match o with
  | None => True
  | Some s' => ∃ res' live', wsys_inv res' live' s' ∧ res ⊆ res' ∧
      left live' s' < left live s + (if event then 4 else 0) ∧
      length (ws_execs s') = length (ws_execs s)
  end.

(** The global queue does not matter to the sleepers. *)
Lemma global_naps n naps g (rt : MTRuntime G) :
  (parked_ok n naps rt → parked_ok n naps (with_global g rt)) ∧
  ∀ seen, naps_left n naps seen (with_global g rt) = naps_left n naps seen rt.
Proof using.
  clear fuel_pos. split; [|done]. intros (m & ws & Hok & Hnap). exists m, ws.
  split; [by apply parking_ok_global|done].
Qed.

(** A worker that looks for a task takes one, *)
Lemma look_takes event res live s i t exe exe' rt' :
  wsys_inv res live s → i < length (ws_execs s) → pl_busy (ws_pool s) !! i = None →
  ws_naps s !! i = None → rt' = with_global (global_queue rt') (ws_rt s) →
  ws_execs s !! i = Some exe → in_reach exe (ws_rt s) = t :: in_reach exe' rt' →
  turn_ok event res live s (Some (mkWsys
    (mkPool (pl_cells (ws_pool s)) (pl_next (ws_pool s)) (<[i := (t, SRun RunClaim)]> (pl_busy (ws_pool s))))
    (<[i := exe']> (ws_execs s)) rt' (ws_naps s) (ws_driver s) (ws_seen s))).
Proof using TaskListLaws0.
  clear fuel_pos. intros [Hpool Hpark Hw Hb Hl Hg] Hlt Hi Hni Hrt He Hc.
  destruct (all_queued_split _ (ws_rt s) i exe He) as (rest & Hsplit & Hset).
  destruct (global_naps (length (ws_execs s)) (ws_naps s) (global_queue rt') (ws_rt s)) as [Hpk Hnaps].
  assert (entries s ≡ₚ t :: all_queued (<[i := exe']> (ws_execs s)) rt') as HE.
  { rewrite Hsplit, Hset, Hc. symmetry. apply Permutation_middle. }
  exists res, live. split_and!; [|done| |apply length_insert].
  - split; cbn; rewrite ?length_insert.
    + by eapply move_take.
    + rewrite Hrt. by apply Hpk.
    + intros j e [[<- _]|[_ Hj]]%lookup_insert_Some; [done|by eapply Hw].
    + intros j e [[<- _]|[_ Hj]]%lookup_insert_Some; [done|by eapply Hb].
    + intros j e [(<- & _ & _)|[Hne Hj]]%list_lookup_insert_Some; [rewrite Hni; by intros []|by apply Hl].
    + intros _. by exists i.
  - unfold left, work. cbn [ws_pool ws_execs ws_rt ws_naps ws_seen pl_busy pl_cells].
    rewrite length_insert, (map_sum_insert _ _ _ _ Hi). cbn [snd stage_weight].
    rewrite <- Hrt in Hnaps. rewrite Hnaps.
    apply Permutation_length in HE. cbn [length] in HE. lia.
Qed.

(** or finds its queue and the global one empty. *)
Lemma look_in_vain event res live s i exe exe' rt' :
  wsys_inv res live s → i < length (ws_execs s) → pl_busy (ws_pool s) !! i = None →
  ws_naps s !! i = None → rt' = with_global (global_queue rt') (ws_rt s) →
  ws_execs s !! i = Some exe → in_reach exe (ws_rt s) = [] → in_reach exe' rt' = [] →
  turn_ok event res live s (Some (mkWsys (ws_pool s) (<[i := exe']> (ws_execs s)) rt'
    (<[i := NIdle]> (ws_naps s)) (ws_driver s) (ws_seen s))).
Proof using TaskListLaws0.
  clear fuel_pos. intros [Hpool Hpark Hw Hb Hl Hg] Hlt Hi Hni Hrt He [Hl0 Hg0]%app_nil [Hl1 Hg1]%app_nil.
  assert (all_queued (<[i := exe']> (ws_execs s)) rt' = entries s) as HE.
  { unfold all_queued. rewrite Hg0, Hg1, list_fmap_insert, Hl1. f_equal. f_equal. apply list_insert_id.
    by rewrite list_lookup_fmap, He, <- Hl0. }
  destruct (global_naps (length (ws_execs s)) (<[i := NIdle]> (ws_naps s)) (global_queue rt') (ws_rt s))
    as [Hpk Hnaps].
  exists res, live. split_and!; [|done| |apply length_insert].
  - split; cbn [ws_pool ws_execs ws_rt ws_naps ws_seen]; rewrite ?length_insert.
    + by rewrite HE.
    + rewrite Hrt. apply Hpk. destruct Hpark as (m & ws & Hok & Hnap). exists m, ws. split; [done|].
      intros j w Hj Hp. pose proof (Hnap j w Hj Hp). rewrite lookup_insert_ne; [done|].
      intros <-. congruence.
    + done.
    + intros j e Hj. rewrite lookup_insert_ne; [by eapply Hb|]. intros <-. congruence.
    + intros j e [(<- & <- & _)|[Hne Hj]]%list_lookup_insert_Some; [done|].
      rewrite lookup_insert_ne by done. by apply Hl.
    + intros Hne. by destruct Hne.
  - unfold left. cbn [ws_pool ws_execs ws_rt ws_naps ws_seen]. rewrite length_insert, HE.
    rewrite <- Hrt in Hnaps. rewrite Hnaps.
    pose proof (naps_left_insert (length (ws_execs s)) (ws_naps s) (ws_seen s) (ws_rt s) i NIdle Hlt) as Hn.
    rewrite Hni in Hn. cbn [nap_weight] in Hn. lia.
Qed.

Lemma look_ok event res live s i exe c :
  wsys_inv res live s → ws_execs s !! i = Some exe → pl_busy (ws_pool s) !! i = None →
  ws_naps s !! i = None → turn_ok event res live s (Some (look_step grow c i exe s)).
Proof using TaskListLaws0.
  clear fuel_pos. intros Hinv He Hi Hni. pose proof (lookup_lt_Some _ _ _ He) as Hlt.
  pose proof (next_task_conserves grow c exe (ws_rt s)) as Hc.
  pose proof (next_task_rt grow c exe (ws_rt s)) as Hrt.
  unfold look_step. destruct (next_task grow c exe (ws_rt s)) as [[[o c'] exe'] rt'].
  destruct Hc as [Hc Hnone]. destruct o as [t|].
  - by eapply look_takes.
  - destruct (proj1 Hnone eq_refl) as [Hl0 Hg0].
    assert (in_reach exe (ws_rt s) = []) as Hr by (unfold in_reach; by rewrite Hl0, Hg0).
    eapply look_in_vain; [done..|]. unfold in_reach in Hr. rewrite Hr in Hc.
    by apply app_nil in Hc as [_ Hc].
Qed.

(** A busy worker. *)
Lemma busy_ok event res live s i exe t x cells next y ms locked :
  wsys_inv res live s → ws_execs s !! i = Some exe → pl_busy (ws_pool s) !! i = Some (t, x) →
  busy_step i t x (ws_pool s) = Some (cells, next, y, ms) →
  ∃ exe' rt', command_steps fuel grow id locked ms exe (ws_rt s) = Done (exe', rt') ∧
    turn_ok event res live s (Some (mkWsys (mkPool cells next (go_to i t y (pl_busy (ws_pool s))))
      (<[i := exe']> (ws_execs s)) rt' (ws_naps s) (ws_driver s) (ws_seen s))).
Proof using fuel_pos TaskListLaws0 AtomicWakerLaws0.
  intros Hinv He Hi Hstep. pose proof Hinv as [Hpool Hpark Hw Hb Hl Hg].
  destruct (command_steps_ok fuel grow id fuel_pos _ _ locked ms exe (ws_rt s) Hpark)
    as (exe' & rt' & Hs & [Hp' Hn] & Hf).
  exists exe', rt'. split; [done|]. clear fuel_pos.
  destruct (all_queued_split _ (ws_rt s) i exe He) as (rest & Hsplit & Hset).
  pose proof (busy_step_commands _ _ _ _ _ _ _ _ Hstep) as Hms.
  pose proof (busy_step_ok _ _ _ _ _ _ _ _ Hpool Hi Hstep) as Hok.
  destruct (Hok (all_queued (<[i := exe']> (ws_execs s)) rt')) as (res' & live' & Hinv' & Hres & Hwork).
  { by eapply fed_frame. }
  exists res', live'. split_and!; [|done| |apply length_insert].
  - pose proof (lookup_lt_Some _ _ _ He) as Hlt. split; [done|..]; cbn; rewrite ?length_insert.
    + done.
    + intros j e [(-> & _)|[_ Hj]]%go_to_lookup; [done|by eapply Hw].
    + intros j e [(-> & _)|[_ Hj]]%go_to_lookup; by eapply Hb.
    + intros j e [(<- & _ & _)|[Hne Hj]]%list_lookup_insert_Some; [|by apply Hl].
      rewrite (Hb i _ Hi). by intros [].
    + intros _. exists i. split; [done|by eapply Hb].
  - specialize (Hn (ws_seen s)). unfold left. cbn [ws_pool ws_execs ws_rt ws_naps ws_seen] in *.
    rewrite length_insert. lia.
Qed.

(** A nap goes on or ends; the queues and the tasks are as before. *)
Lemma nap_frame res live s s' :
  wsys_inv res live s → ws_pool s' = ws_pool s → ws_execs s' = ws_execs s →
  global_queue (ws_rt s') = global_queue (ws_rt s) →
  (∀ j, is_Some (ws_naps s' !! j) → is_Some (ws_naps s !! j)) →
  parked_ok (length (ws_execs s)) (ws_naps s') (ws_rt s') → wsys_inv res live s'.
Proof using.
  clear fuel_pos. intros [Hpool Hpark Hw Hb Hl Hg] Ep Ee Eg Hn Hpk'.
  assert (∀ j, ws_naps s !! j = None → ws_naps s' !! j = None) as Hnone.
  { intros j Hj. apply eq_None_not_Some. intros [? ?]%Hn. congruence. }
  split; rewrite ?Ep, ?Ee; [|done|done|eauto| |].
  - unfold all_queued. rewrite Eg. exact Hpool.
  - intros j exe Hj Hs. eauto.
  - rewrite Eg. intros Hne. destruct (Hg Hne) as (i & Hi & Hni). eauto.
Qed.

Lemma parked_ok_insert n (naps : gmap nat nap) (rt : MTRuntime G) i x :
  parked_ok n naps rt → naps !! i ≠ Some NParked ∨ mark_of i rt = None →
  parked_ok n (<[i := x]> naps) rt ∧ parked_ok n (delete i naps) rt.
Proof using.
  clear fuel_pos. intros (m & ws & Hok & Hnap) Hi.
  assert (∀ j w, ws !! j = Some w → parker w = Some Parked → j ≠ i) as Hne.
  { intros j w Hj Hp ->. destruct Hi as [Hi|Hi]; [by destruct Hi; eapply Hnap|].
    rewrite (mark_of_workers _ _ _ _ (pk_workers _ _ _ _ Hok) Hj) in Hi. congruence. }
  split; exists m, ws; (split; [done|]); intros j w Hj Hp; pose proof (Hne j w Hj Hp);
    [rewrite lookup_insert_ne by done|rewrite lookup_delete_ne by done]; eauto.
Qed.

(** Parking leaves the global queue and the driver alone. *)
Lemma park_begin_same i (rt rt' : MTRuntime G) :
  park_begin i rt = Done rt' → global_queue rt' = global_queue rt ∧ io_wakes rt' = io_wakes rt.
Proof using.
  clear fuel_pos. unfold park_begin. intros (ws & _ & Hr)%outcome_bind_done.
  apply outcome_bind_done in Hr as (w & _ & Hr). apply outcome_bind_done in Hr as (rt1 & Hp & Hr).
  apply Done_inj in Hr as <-. cbn. destruct (parker w); [by apply Done_inj in Hp as <-|].
  apply outcome_bind_done in Hp as (m & _ & Hp). by apply Done_inj in Hp as <-.
Qed.

Lemma park_end_same i (rt rt' : MTRuntime G) :
  park_end i rt = Done rt' → global_queue rt' = global_queue rt ∧ io_wakes rt' = io_wakes rt.
Proof using.
  clear fuel_pos. unfold park_end. intros (ws & _ & Hr)%outcome_bind_done.
  apply outcome_bind_done in Hr as (w & _ & Hr). by apply Done_inj in Hr as <-.
Qed.

Lemma unmarked n (naps : gmap nat nap) (rt : MTRuntime G) i m ws :
  parking_ok n m rt ws → i < n → mark_of i rt = None → ∃ w, ws !! i = Some w ∧ parker w = None.
Proof using.
  clear fuel_pos. intros Hok Hi Hm.
  destruct (lookup_lt_is_Some_2 ws i) as [w Hw]; [by rewrite (pk_len _ _ _ _ Hok)|].
  exists w. split; [done|]. by rewrite (mark_of_workers _ _ _ _ (pk_workers _ _ _ _ Hok) Hw) in Hm.
Qed.

Lemma park_begin_ok n (naps : gmap nat nap) (rt : MTRuntime G) i :
  parked_ok n naps rt → i < n → mark_of i rt = None →
  ∃ rt', park_begin i rt = Done rt' ∧ parked_ok n (<[i := NParked]> naps) rt' ∧
    mark_of i rt' = Some Parked ∧ ∀ j, j ≠ i → mark_of j rt' = mark_of j rt.
Proof using.
  clear fuel_pos. intros (m & ws & Hok & Hnap) Hi Hm.
  destruct (unmarked n naps rt i m ws Hok Hi Hm) as (w & Hw & Hp).
  destruct (parking_preserves_invariant n m rt ws i w Hok Hw Hp) as [(rt' & m' & Hb & _ & Hok') _].
  pose proof (pk_workers _ _ _ _ Hok') as Hws'. pose proof (lookup_lt_Some _ _ _ Hw) as Hlt.
  exists rt'. split_and!; [done| | |].
  - eexists _, _. split; [exact Hok'|].
    intros j w' [(<- & _ & _)|[Hne Hj]]%list_lookup_insert_Some Hp'; [by rewrite lookup_insert_eq|].
    rewrite lookup_insert_ne by done. by eapply Hnap.
  - unfold mark_of. by rewrite Hws', list_lookup_insert_eq.
  - intros j Hne. unfold mark_of. by rewrite Hws', list_lookup_insert_ne, (pk_workers _ _ _ _ Hok).
Qed.

Lemma park_end_ok n (naps : gmap nat nap) (rt : MTRuntime G) i :
  parked_ok n naps rt → i < n → mark_of i rt = None →
  ∃ rt', park_end i rt = Done rt' ∧ parked_ok n naps rt' ∧ ∀ j, mark_of j rt' = mark_of j rt.
Proof using.
  clear fuel_pos. intros (m & ws & Hok & Hnap) Hi Hm.
  destruct (unmarked n naps rt i m ws Hok Hi Hm) as (w & Hw & Hp).
  destruct (parking_preserves_invariant n m rt ws i w Hok Hw Hp) as [_ (rt' & Hb & Hok')].
  exists rt'. split_and!; [done|by exists m, ws|]. intros j. unfold mark_of.
  by rewrite (pk_workers _ _ _ _ Hok), (pk_workers _ _ _ _ Hok').
Qed.

(** A worker is marked only while it is parked. *)
Lemma mark_parked n (naps : gmap nat nap) (rt : MTRuntime G) i :
  parked_ok n naps rt → naps !! i ≠ Some NParked → mark_of i rt = None.
Proof using.
  clear fuel_pos. intros (m & ws & Hok & Hnap) Hi. unfold mark_of. rewrite (pk_workers _ _ _ _ Hok).
  destruct (ws !! i) as [w|] eqn:Hw; [|done]. destruct (parker_cases w) as [?|Hp]; [done|].
  destruct Hi. by eapply Hnap.
Qed.

Lemma turn_nap (event : bool) res live s s' :
  wsys_inv res live s → ws_pool s' = ws_pool s → ws_execs s' = ws_execs s →
  global_queue (ws_rt s') = global_queue (ws_rt s) →
  (∀ j, is_Some (ws_naps s' !! j) → is_Some (ws_naps s !! j)) →
  parked_ok (length (ws_execs s)) (ws_naps s') (ws_rt s') →
  naps_left (length (ws_execs s)) (ws_naps s') (ws_seen s') (ws_rt s') <
    naps_left (length (ws_execs s)) (ws_naps s) (ws_seen s) (ws_rt s) + (if event then 4 else 0) →
  turn_ok event res live s (Some s').
Proof using.
  clear fuel_pos. intros Hinv Ep Ee Eg Hn Hpk Hlt. exists res, live.
  split_and!; [by eapply nap_frame|done| |by rewrite Ee].
  unfold left, all_queued. rewrite Ep, Ee, Eg. lia.
Qed.

Section naps.
Context (res : gmap nat (result O P)) (live : gmap nat info) (s : wsys G O P A) (i : nat).
Context (Hinv : wsys_inv res live s) (Hlt : i < length (ws_execs s)).

Lemma nap_insert_dom x y j :
  ws_naps s !! i = Some x → is_Some (<[i := y]> (ws_naps s) !! j) → is_Some (ws_naps s !! j).
Proof using.
  clear fuel_pos Hlt. intros Hx Hj. destruct (decide (i = j)) as [<-|Hne]; [by rewrite Hx|].
  by rewrite lookup_insert_ne in Hj.
Qed.

Lemma nap_delete_dom j : is_Some (delete i (ws_naps s) !! j) → is_Some (ws_naps s !! j).
Proof using. intros [x [_ Hj]%lookup_delete_Some]. by eexists. Qed.

Lemma nap_idle_ok event :
  ws_naps s !! i = Some NIdle →
  ∃ o, nap_step event false i NIdle s = Done o ∧ turn_ok event res live s o.
Proof using Hinv Hlt.
  clear fuel_pos. intros Hx. eexists. split; [done|]. pose proof (wi_parked _ _ _ Hinv) as Hpk.
  pose proof (naps_left_insert _ (ws_naps s) (ws_seen s) (ws_rt s) i NPolling Hlt) as Hn1.
  pose proof (naps_left_insert _ (ws_naps s) (ws_seen s) (ws_rt s) i NParking Hlt) as Hn2.
  rewrite Hx in Hn1, Hn2. cbn [nap_weight] in Hn1, Hn2.
  destruct (ws_driver s); apply turn_nap; try done; cbn [ws_naps ws_seen ws_rt with_driver with_nap];
    try (intros j; by eapply nap_insert_dom); try lia.
  all: apply parked_ok_insert; [done|left; congruence].
Qed.

Lemma nap_polling_ok event :
  ws_naps s !! i = Some NPolling →
  ∃ o, nap_step event false i NPolling s = Done o ∧ turn_ok event res live s o.
Proof using Hinv Hlt.
  clear fuel_pos. intros Hx. eexists. split; [done|]. pose proof (wi_parked _ _ _ Hinv) as Hpk.
  pose proof (naps_left_delete _ (ws_naps s) (io_wakes (ws_rt s)) (ws_rt s) i Hlt) as Hn.
  pose proof (naps_left_noticed (length (ws_execs s)) (ws_naps s) (ws_seen s) (ws_rt s)) as Hseen.
  rewrite Hx in Hn. cbn [nap_weight] in Hn. destruct (event || wake_pending s) eqn:Hor; [|done].
  apply turn_nap; try done; cbn [ws_naps ws_seen ws_rt with_driver notice_wakes end_nap].
  - exact nap_delete_dom.
  - apply (parked_ok_insert _ _ _ i NIdle); [done|left; congruence].
  - unfold wake_pending in Hor. destruct event; [lia|]. cbn [orb] in Hor. rewrite Hor in Hseen. lia.
Qed.

Lemma nap_parking_ok event :
  ws_naps s !! i = Some NParking →
  ∃ o, nap_step event false i NParking s = Done o ∧ turn_ok event res live s o.
Proof using Hinv Hlt.
  clear fuel_pos. intros Hx. pose proof (wi_parked _ _ _ Hinv) as Hpk.
  pose proof (mark_parked _ _ _ i Hpk ltac:(congruence)) as Hm.
  destruct (park_begin_ok _ _ _ i Hpk Hlt Hm) as (rt' & Hb & Hpk' & Hmi & Hmj).
  destruct (park_begin_same _ _ _ Hb) as [Hg Hio]. cbn [nap_step]. rewrite Hb.
  eexists. split; [done|]. apply turn_nap; try done; cbn [ws_naps ws_seen ws_rt with_rt with_nap].
  - intros j. by eapply nap_insert_dom.
  - pose proof (naps_left_update _ (ws_naps s) (<[i := NParked]> (ws_naps s)) (ws_seen s) (ws_rt s) rt'
      i Hlt Hio) as Hn.
    rewrite Hx, lookup_insert_eq, Hmi in Hn. cbn [nap_weight] in Hn.
    rewrite Nat.add_0_r in Hn. rewrite <- Hn; [lia|]. intros j Hne. split; [by rewrite lookup_insert_ne|auto].
Qed.

Lemma nap_parked_ok event :
  ws_naps s !! i = Some NParked →
  ∃ o, nap_step event false i NParked s = Done o ∧ turn_ok event res live s o.
Proof using Hinv Hlt.
  clear fuel_pos. intros Hx. pose proof (wi_parked _ _ _ Hinv) as Hpk. cbn [nap_step].
  destruct (mark_of i (ws_rt s)) as [[]|] eqn:Hm; [by eexists|].
  destruct (park_end_ok _ _ _ i Hpk Hlt Hm) as (rt' & He & Hpk' & Hmj).
  destruct (park_end_same _ _ _ He) as [Hg Hio]. rewrite He.
  eexists. split; [done|]. apply turn_nap; try done; cbn [ws_naps ws_seen ws_rt with_rt end_nap].
  - exact nap_delete_dom.
  - apply (parked_ok_insert _ _ _ i NIdle); [done|right; by rewrite Hmj].
  - pose proof (naps_left_update _ (ws_naps s) (delete i (ws_naps s)) (ws_seen s) (ws_rt s) rt'
      i Hlt Hio) as Hn.
    rewrite Hx, lookup_delete_eq, Hm in Hn. cbn [nap_weight] in Hn.
    assert (naps_left (length (ws_execs s)) (delete i (ws_naps s)) (ws_seen s) rt' + 4 =
      naps_left (length (ws_execs s)) (ws_naps s) (ws_seen s) (ws_rt s) + 3) as Hn'; [|lia].
    apply Hn. intros j Hne. split; [by rewrite lookup_delete_ne|auto].
Qed.
End naps.

Lemma wsys_step_ok res live s l :
  wsys_inv res live s → tn_spurious l = false →
  ∃ o, wsys_step fuel grow id l s = Done o ∧ turn_ok (tn_event l) res live s o.
Proof using fuel_pos TaskListLaws0 AtomicWakerLaws0.
  intros Hinv Hsp. unfold wsys_step. destruct (ws_execs s !! tn_worker l) as [exe|] eqn:He; [|by eexists].
  pose proof (lookup_lt_Some _ _ _ He) as Hlt.
  destruct (pl_busy (ws_pool s) !! tn_worker l) as [[t x]|] eqn:Hi.
  - destruct (busy_step _ _ _ _) as [[[[cells next] y] ms]|] eqn:Hstep; [|by eexists].
    destruct (busy_ok (tn_event l) _ _ _ _ _ _ _ _ _ _ _ (tn_locked l) Hinv He Hi Hstep)
      as (exe' & rt' & -> & Hok).
    eexists. split; [done|exact Hok].
  - rewrite Hsp. destruct (ws_naps s !! tn_worker l) as [x|] eqn:Hn.
    + destruct x; eauto using nap_idle_ok, nap_polling_ok, nap_parking_ok, nap_parked_ok.
    + eexists. split; [done|]. by apply look_ok.
Qed.

(** How many turns come with an event. *)
Definition events (ls : list turn) : nat := length (filter (λ l, tn_event l = true) ls).

Definition no_spurious (ls : list turn) : Prop := Forall (λ l, tn_spurious l = false) ls.

Lemma wsys_run_ok ls : ∀ res live s,
  wsys_inv res live s → no_spurious ls →
  ∃ n s' res' live', wsys_run fuel grow id ls s = Done (n, s') ∧ wsys_inv res' live' s' ∧ res ⊆ res' ∧
    n + left live' s' ≤ left live s + 4 * events ls ∧ length (ws_execs s') = length (ws_execs s).
Proof using fuel_pos TaskListLaws0 AtomicWakerLaws0.
  induction ls as [|l ls IH]; intros res live s Hinv Hsp.
  { exists 0, s, res, live. split_and!; [done|done|done|clear fuel_pos; lia|done]. }
  apply Forall_cons in Hsp as [Hl Hsp].
  assert (4 * events (l :: ls) = (if tn_event l then 4 else 0) + 4 * events ls) as Hev.
  { clear fuel_pos. unfold events. destruct (tn_event l) eqn:Ht.
    - rewrite filter_cons_True by done. cbn [length]. lia.
    - rewrite filter_cons_False by (by rewrite Ht). lia. }
  destruct (wsys_step_ok _ _ _ l Hinv Hl) as ([s1|] & Hs & Hok); cbn [wsys_run]; rewrite Hs; cbn [mbind outcome_bind].
  - destruct Hok as (res1 & live1 & Hinv1 & Hres1 & Hlt & Hlen1).
    destruct (IH res1 live1 s1 Hinv1 Hsp) as (n & s' & res' & live' & -> & Hinv' & Hres & Hle & Hlen).
    exists (S n), s', res', live'. split_and!; [done|done|by etrans|clear fuel_pos; lia|congruence].
  - destruct (IH res live s Hinv Hsp) as (n & s' & res' & live' & -> & Hinv' & Hres & Hle & Hlen).
    exists n, s', res', live'. split_and!; [done|done|done|clear fuel_pos; lia|done].
Qed.

(** ** The start and the end *)

Lemma locals_empty n k :
  concat ((λ exe : ExecutorHandle nat, vd_items (local_queue exe)) <$>
    ((λ i, mkExecutor (Z.of_nat i) (mkVecDeque [] 32)) <$> seq k n)) = [].
Proof using. clear fuel_pos. revert k. induction n as [|n IH]; intros k; [done|]. cbn. apply IH. Qed.

Lemma pool_inv_start main r cost :
  evals ∅ main r cost →
  pool_inv (A := A) {[0 := r]} {[0 := mkInfo main ∅ r cost tt]} [0]
    (mkPool {[0 := (mkCell (Task_new main) None : cell O P A)]} 1 ∅).
Proof using AtomicWakerLaws0.
  clear fuel_pos. intros Hev. split; cbn [pl_cells pl_next pl_busy].
  - split; try by intros t i [<- <-]%lookup_singleton_Some.
    + by intros t i h r' [<- <-]%lookup_singleton_Some.
    + by intros t1 i1 t2 i2 h [<- <-]%lookup_singleton_Some [<- <-]%lookup_singleton_Some.
  - intros t. rewrite lookup_singleton_is_Some. lia.
  - lia.
  - intros t. rewrite lookup_singleton_is_Some. lia.
  - intros t c [<- <-]%lookup_singleton_Some. rewrite lookup_singleton_eq. by apply task_ok_new.
  - intros t c r' [<- _]%lookup_singleton_Some. by rewrite lookup_singleton_eq.
  - intros t ->%list_elem_of_singleton. lia.
  - intros i t x. by rewrite lookup_empty.
  - intros h c t [_ <-]%lookup_singleton_Some. cbn. by rewrite aw_last_new.
  - intros i t p j. by rewrite lookup_empty.
  - intros t i [<- _]%lookup_singleton_Some. right; left; left. by apply list_elem_of_singleton.
Qed.

Lemma new_parked_ok n : parked_ok n ∅ (MTRuntime_new n : MTRuntime G).
Proof using.
  clear fuel_pos. eexists _, _. split; [apply new_parking_ok|]. by intros i w [-> _]%lookup_replicate.
Qed.

Lemma new_naps_left n : naps_left n ∅ 0 (MTRuntime_new n : MTRuntime G) = 3 * n.
Proof using.
  clear fuel_pos. unfold naps_left. rewrite bool_decide_false by (cbn; lia).
  rewrite (total_ext n _ (λ _, 3)) by (intros i _; by rewrite lookup_empty).
  induction n as [|n IH]; [done|]. rewrite total_S. lia.
Qed.

Lemma wsys_start_ok n main r cost :
  0 < n → evals ∅ main r cost →
  ∃ s, wsys_start fuel grow id n main = Done s ∧
    wsys_inv {[0 := r]} {[0 := mkInfo main ∅ r cost tt]} s ∧ length (ws_execs s) = n ∧
    left {[0 := mkInfo main ∅ r cost tt]} s ≤ 120 * cost + 3 * n + 119.
Proof using fuel_pos TaskListLaws0 AtomicWakerLaws0.
  intros Hn0 Hev. unfold wsys_start, MTRuntime_spawn, schedule_on.
  assert (tl_view (global_queue (MTRuntime_new (G := G) n)) = []) as Hnil by apply tl_new_view.
  destruct (schedule_global_any fuel fuel_pos false 0 n ∅ _ (new_parked_ok n)) as (rt & -> & Hp' & Hv & Hn).
  rewrite Hnil, decide_False in Hv by apply not_elem_of_nil. eexists. split; [done|].
  set (s := mkWsys _ _ _ _ _ _). clear fuel_pos. assert (entries s = [0]) as HE.
  { unfold all_queued. cbn [ws_execs ws_rt s]. by rewrite locals_empty, Hv. }
  assert (length (ws_execs s) = n) as Hlen by (cbn; by rewrite length_fmap, length_seq).
  assert (wsys_inv {[0 := r]} {[0 := mkInfo main ∅ r cost tt]} s) as Hinv.
  { split; rewrite ?Hlen.
    - rewrite HE. by apply pool_inv_start.
    - done.
    - intros i e. cbn. by rewrite lookup_empty.
    - intros i e. cbn. by rewrite lookup_empty.
    - intros i e _. cbn. rewrite lookup_empty. by intros [].
    - intros _. by exists 0. }
  split_and!; [done|done|]. unfold left. rewrite HE, Hlen. specialize (Hn 0). rewrite new_naps_left in Hn.
  unfold work. cbn [ws_pool ws_naps ws_seen ws_rt s pl_busy pl_cells length].
  rewrite <- (insert_empty 0 (mkInfo main ∅ r cost tt : info)),
     <- (insert_empty 0 (mkCell (Task_new main) None : cell O P A)).
  rewrite !map_sum_insert, !map_sum_empty by apply lookup_empty. unfold info_weight, cell_weight. cbn [i_cost].
  rewrite decide_False by done. lia.
Qed.

(** Where no worker can take a step, no worker is busy, no task is queued and every
    worker sleeps. *)
Lemma at_rest_idle res live s :
  wsys_inv res live s → at_rest fuel grow id s →
  pl_busy (ws_pool s) = ∅ ∧ entries s = [] ∧ ∀ i, i < length (ws_execs s) → sleeps i s.
Proof using fuel_pos TaskListLaws0 AtomicWakerLaws0.
  intros Hinv Hrest. assert (pl_busy (ws_pool s) = ∅) as Hbusy.
  { eapply all_stuck; [apply (wi_pool _ _ _ Hinv)|]. intros i t x Hi.
    destruct (lookup_lt_is_Some_2 (ws_execs s) i) as [exe He]; [by eapply (wi_workers _ _ _ Hinv)|].
    destruct (busy_step i t x (ws_pool s)) as [[[[cells next] y] ms]|] eqn:Hstep; [|done].
    destruct (busy_ok false _ _ _ _ _ _ _ _ _ _ _ false Hinv He Hi Hstep) as (exe' & rt' & Hs & _).
    specialize (Hrest (mkTurn i false 0 false false) eq_refl eq_refl). unfold wsys_step in Hrest.
    cbn [tn_worker tn_locked] in Hrest. rewrite He, Hi, Hstep, Hs in Hrest. done. }
  assert (∀ i, i < length (ws_execs s) → sleeps i s) as Hsleep.
  { clear fuel_pos. intros i Hlt. destruct (lookup_lt_is_Some_2 _ _ Hlt) as [exe He].
    specialize (Hrest (mkTurn i false 0 false false) eq_refl eq_refl). unfold wsys_step in Hrest.
    cbn [tn_worker tn_event tn_spurious] in Hrest. rewrite He, Hbusy, lookup_empty in Hrest.
    unfold sleeps. destruct (ws_naps s !! i) as [[]|]; cbn [nap_step] in Hrest; [done|..|done].
    - cbn [orb] in Hrest. by destruct (wake_pending s).
    - by destruct (park_begin i (ws_rt s)).
    - destruct (mark_of i (ws_rt s)) as [[]|]; [done|]. by destruct (park_end i (ws_rt s)). }
  assert (∀ i, i < length (ws_execs s) → is_Some (ws_naps s !! i)) as Hnap.
  { clear fuel_pos. intros i Hlt. specialize (Hsleep i Hlt). unfold sleeps in Hsleep. by destruct (ws_naps s !! i). }
  split_and!; [done| |done]. unfold all_queued.
  assert (tl_view (global_queue (ws_rt s)) = []) as ->.
  { destruct (tl_view (global_queue (ws_rt s))) eqn:Hg; [done|]. clear fuel_pos.
    destruct (wi_global _ _ _ Hinv) as (i & Hlt & Hn); [by rewrite Hg|].
    destruct (Hnap i Hlt). congruence. }
  rewrite app_nil_r. apply concat_nil_Forall, Forall_fmap, Forall_lookup. intros i exe He. cbn.
  apply (wi_local _ _ _ Hinv i exe He), Hnap. by eapply lookup_lt_Some.
Qed.

(** An executable test. *)
Definition all_sleep s : bool :=
  bool_decide (map_to_list (pl_busy (ws_pool s)) = []) &&
  forallb (λ i, match ws_naps s !! i with
                | Some NPolling => negb (wake_pending s)
                | Some NParked => match mark_of i (ws_rt s) with Some Parked => true | None => false end
                | _ => false
                end) (seq 0 (length (ws_execs s))).

Lemma all_sleep_at_rest s : all_sleep s = true → at_rest fuel grow id s.
Proof using.
  clear fuel_pos. unfold all_sleep. rewrite andb_true_iff, bool_decide_eq_true, forallb_forall.
  intros [Hb Hall] l Hev Hsp. apply map_to_list_empty_iff in Hb.
  unfold wsys_step. destruct (ws_execs s !! tn_worker l) as [exe|] eqn:He; [|done].
  apply lookup_lt_Some in He. specialize (Hall (tn_worker l) ltac:(apply in_seq; lia)).
  rewrite Hb, lookup_empty, Hev, Hsp. destruct (ws_naps s !! tn_worker l) as [[]|]; try done; cbn [nap_step].
  - cbn [orb]. by destruct (wake_pending s).
  - by destruct (mark_of _ _) as [[]|].
Qed.

(** C13: any number of workers run a program to its end, in every order of their
    steps, with their sleep.  A program that comes to the result [r] is spawned on a
    runtime with at least one worker; then the workers take turns in any order,
    where a turn is one access to a state word, a mutex or a waker, one operation on
    the queues, one step of the program, or one step towards or out of sleep: a worker
    without a task takes the I/O driver and polls it, or parks; it sleeps until the
    driver is woken or an event comes, or until it is notified.  A worker that sleeps
    or waits for a mutex passes.  No turn panics, and all turns together make a
    bounded number of steps, linear in the steps of the program, the workers and the
    I/O events that end a wait.  When no worker can make a step of its own any more,
    every worker sleeps, every task that was spawned is complete and the handle of the
    first one yields [r]: no wake-up between tasks on different workers is lost, the
    workers never wait for each other in a circle, and they do not all sleep while a
    task is queued, also when the lock of the parked workers is found taken.  All this
    when no wait of a condition variable returns spuriously, for programs whose tasks
    are queued by the workers only and do no I/O. *)
Theorem workers_run_to_completion n main r cost :
  0 < n → evals ∅ main r cost →
  ∃ s0, wsys_start fuel grow id n main = Done s0 ∧ ∀ ls, no_spurious ls → ∃ steps s,
    wsys_run fuel grow id ls s0 = Done (steps, s) ∧
    steps ≤ 120 * cost + 3 * n + 119 + 4 * events ls ∧
    (at_rest fuel grow id s →
      (∀ i, i < n → sleeps i s) ∧
      (∀ t c, pl_cells (ws_pool s) !! t = Some c → t_state (c_task c) = COMPLETED) ∧
      ∃ c, pl_cells (ws_pool s) !! 0 = Some c ∧
        ∀ w, (JoinHandle_poll (c_task c) w).2 = Ready_ (joined r)).
Proof using fuel_pos TaskListLaws0 AtomicWakerLaws0.
  intros Hn Hev. destruct (wsys_start_ok n main r cost Hn Hev) as (s0 & Hs0 & Hinv0 & Hlen0 & Hleft0).
  exists s0. split; [done|]. intros ls Hsp.
  destruct (wsys_run_ok ls _ _ s0 Hinv0 Hsp) as (steps & s & res & live & Hrun & Hinv & Hres & Hle & Hlen).
  exists steps, s. split; [done|]. split; [clear fuel_pos; lia|]. intros Hrest.
  destruct (at_rest_idle _ _ s Hinv Hrest) as (Hbusy & HE & Hsleep).
  pose proof (wi_pool _ _ _ Hinv) as Hpool. rewrite HE in Hpool.
  rewrite (nothing_left _ _ _ Hpool Hbusy) in Hpool.
  destruct (finished _ _ Hpool Hbusy) as [Hall (c & Hc & Hfut)].
  split; [intros i Hi; apply Hsleep; congruence|]. split; [done|]. exists c. split; [done|].
  intros w. unfold JoinHandle_poll, Task_take_output. rewrite (Hfut r); [done|].
  eapply lookup_weaken, Hres. apply lookup_singleton_eq.
Qed.

(** What the workers do on the way.  At every point of every interleaving without a
    spurious return at
    most one worker is inside the poll of a task, and a result that is stored for
    the first task is [r], whichever worker finished first. *)
Theorem workers_poll_exclusively n main r cost ls s0 steps s :
  0 < n → evals ∅ main r cost → wsys_start fuel grow id n main = Done s0 → no_spurious ls →
  wsys_run fuel grow id ls s0 = Done (steps, s) →
  (∀ i j t x y, pl_busy (ws_pool s) !! i = Some (t, x) → pl_busy (ws_pool s) !! j = Some (t, y) →
     st_inside x = true → st_inside y = true → i = j) ∧
  ∀ c v, pl_cells (ws_pool s) !! 0 = Some c → t_fut (c_task c) = JoinInner_Return v → v = joined r.
Proof using fuel_pos TaskListLaws0 AtomicWakerLaws0.
  intros Hn Hev Hs0 Hsp Hrun. destruct (wsys_start_ok n main r cost Hn Hev) as (s0' & Hs0' & Hinv0 & _).
  rewrite Hs0 in Hs0'. apply Done_inj in Hs0' as <-.
  destruct (wsys_run_ok ls _ _ s0 Hinv0 Hsp) as (steps' & s' & res & live & Hrun' & Hinv & Hres & _).
  rewrite Hrun in Hrun'. apply Done_inj, pair_equal_spec in Hrun' as [_ <-].
  pose proof (wi_pool _ _ _ Hinv) as Hpool. split.
  - intros i j t x y Hi Hj Hx Hy. destruct (busy_task _ _ _ _ _ _ _ Hpool Hi) as (c & Hc & Hok & _).
    apply (tk_unique _ _ _ _ Hok i j x y Hi Hj); [by destruct x|by destruct y].
  - intros c v Hc Hv. pose proof (tk_future _ _ _ _ (pi_tasks _ _ _ _ Hpool 0 c Hc)) as Hf.
    assert (live !! 0 = None) as Hl.
    { destruct (live !! 0); [|done]. destruct Hf as (_ & p & Hp & _). congruence. }
    enough (t_fut (c_task c) = JoinInner_Return (joined r)) by congruence.
    apply (pi_results _ _ _ _ Hpool 0 c r Hc Hl); [|by left].
    eapply lookup_weaken, Hres. apply lookup_singleton_eq.
Qed.
End system.

(** ** Example *)

Import TaskListRef AtomicWakerRef ProgramsRef.

(** Three workers in turn; now and then the lock of the parked workers is taken or an
    I/O event comes. *)
Definition in_turn (n : nat) : list turn :=
  (λ k, mkTurn (k mod 3) (bool_decide (k mod 5 = 0)) (Z.of_nat k) (bool_decide (k mod 100 = 0)) false)
    <$> seq 0 n.

Lemma in_turn_no_spurious n : no_spurious (in_turn n).
Proof. apply Forall_fmap, Forall_forall. done. Qed.

Definition whole_run : outcome (nat * wsys (list nat) nat nat (option nat)) :=
  s0 ← wsys_start 1 S 0 3 sum_up; wsys_run 1 S 0 (in_turn 400) s0.

Lemma whole_run_sleeps : match whole_run with Done (_, s) => all_sleep s | _ => false end = true.
Proof. vm_compute. reflexivity. Qed.

Lemma in_turn_sleeps s0 steps s :
  wsys_start 1 S 0 3 sum_up = Done s0 → wsys_run 1 S 0 (in_turn 400) s0 = Done (steps, s) →
  all_sleep s = true.
Proof.
  intros Hs0 Hrun. pose proof whole_run_sleeps as Hsleep.
  assert (whole_run = Done (steps, s)) as Heq by (unfold whole_run; rewrite Hs0; exact Hrun).
  by rewrite Heq in Hsleep.
Qed.

Lemma workers_run_to_completion_witness :
  ∃ (s0 s : wsys (list nat) nat nat (option nat)) steps, wsys_start 1 S 0 3 sum_up = Done s0 ∧
    wsys_run 1 S 0 (in_turn 400) s0 = Done (steps, s) ∧ steps ≤ 1704 ∧ sleeps 0 s ∧
    ∃ c, pl_cells (ws_pool s) !! 0 = Some c ∧ (JoinHandle_poll (c_task c) 0).2 = Ready_ (Ok 103).
Proof.
  destruct (workers_run_to_completion (G := list nat) (A := option nat) 1 S 0 Nat.lt_0_1 3 sum_up (Ok 103) 13
    ltac:(lia) sum_up_evals) as (s0 & Hs0 & Hall).
  destruct (Hall (in_turn 400) (in_turn_no_spurious 400)) as (steps & s & Hrun & Hle & Hend).
  exists s0, s, steps.
  split; [exact Hs0|]. split; [exact Hrun|]. split; [exact Hle|].
  pose proof (in_turn_sleeps s0 steps s Hs0 Hrun) as Hsleep.
  destruct (Hend (all_sleep_at_rest 1 S 0 s Hsleep)) as (Hsl & _ & c & Hc & Hj).
  split; [apply Hsl; lia|]. exists c. split; [exact Hc|apply Hj].
Defined.

(** In the middle of the same run. *)
Lemma workers_poll_exclusively_witness :
  ∃ (s0 s : wsys (list nat) nat nat (option nat)) steps, wsys_start 1 S 0 3 sum_up = Done s0 ∧
    wsys_run 1 S 0 (in_turn 60) s0 = Done (steps, s) ∧
    ∀ i j t x y, pl_busy (ws_pool s) !! i = Some (t, x) → pl_busy (ws_pool s) !! j = Some (t, y) →
      st_inside x = true → st_inside y = true → i = j.
Proof.
  destruct (wsys_start (G := list nat) (A := option nat) 1 S 0 3 sum_up) as [s0| |] eqn:Hs0; [|discriminate..].
  destruct (wsys_run 1 S 0 (in_turn 60) s0) as [[steps s]| |] eqn:Hrun.
  - exists s0, s, steps. split; [reflexivity|]. split; [exact Hrun|].
    exact (proj1 (workers_poll_exclusively 1 S 0 Nat.lt_0_1 3 sum_up (Ok 103) 13 (in_turn 60) s0 steps s
      ltac:(lia) sum_up_evals Hs0 (in_turn_no_spurious 60) Hrun)).
  - exfalso. revert Hrun. apply Done_inj in Hs0 as <-. vm_compute. discriminate.
  - exfalso. revert Hrun. apply Done_inj in Hs0 as <-. vm_compute. discriminate.
Defined.
