(* ===== verification/ExecutorConc.v ===== *)
(** * ExecutorConc: workers and schedulers under concurrency
      (src/src/lib.rs [run_forever]; src/src/task.rs [schedule_global])

    All workers of a runtime and any number of threads inside [schedule_global],
    interleaved at every access to shared state.  The queue of parked workers is
    the transition system of [SlotMapConc]: a worker that parks and a scheduler
    that looks for a sleeper take its steps, one atomic access at a time.

    A section under one of the mutexes [global_queue] and [parker] is one step
    when it touches nothing else that is shared.  A worker holds its [parker] from
    the beginning of parking up to the wait, which releases it; a scheduler that
    wants the lock then has to wait.  A wait of a condition variable may return
    spuriously (the action [ASpurious]).  The properties are about the runs
    without such a return ([xreachable]); [spurious_return_breaks_protocol] shows
    that one is enough to break the protocol of the queue of parked workers, and
    [Executor] what happens then. *)

From S2P Require Import Prelude SlotMap SlotMapConc JoinHandle Executor.

(** ** The transition system *)

Section system.
Context {G T : Type} `{EqDecision T, TaskList G T}.

(** The number of workers, and how a full deque grows. *)
Context (n : nat) (grow : nat → nat).

(** Where a worker is in [run_forever]. *)
Inductive worker_pc : Type :=
| WLoop                 (** at the top of the loop *)
| WRun (t : T)          (** in [task.run()] *)
| WIdle                 (** found no task, before [io_driver.try_lock()] *)
| WPoll                 (** in [poll_timeout], waiting for events *)
| WDeliver              (** in [poll_timeout], after the wait *)
| WPark                 (** before [worker.parker.lock()] *)
| WPushing              (** in [parked_workers.push] *)
| WMark                 (** before [*parking = Some(Parked)] and the wait *)
| WAsleep               (** waiting for a notification *)
| WNotified.            (** notified, before it takes the mutex again *)

Record wthread : Type := mkWThread {
  w_pc : worker_pc;
  w_exec : ExecutorHandle T;
  w_counter : Z;
  w_mark : option WorkerThreadWaker;
}.

(** Where a thread is in [schedule_global]. *)
Inductive sched_pc : Type :=
| SPush (t : T)         (** before the global queue *)
| STry                  (** before [parked_workers.try_lock()] *)
| SPop                  (** at the top of the loop *)
| SPopping              (** in [pop] *)
| SMark (i : nat)       (** popped [i], before [worker.parker.lock()] *)
| SWake                 (** before [io_handle.wake()] *)
| SRelease.             (** before the end of the lock guard *)

(** [x_io] and [x_lock] are the owners of [io_driver] and of the exclusive part of
    [parked_workers]; [x_flag] is the pending wake-up of the driver.  [x_skipped]
    is a history variable: some scheduler found the lock taken. *)
Record xstate : Type := mkX {
  x_map : sys;
  x_global : G;
  x_workers : list wthread;
  x_io : option nat;
  x_flag : bool;
  x_lock : option nat;
  x_scheds : gmap nat sched_pc;
  x_skipped : bool;
}.

Definition set_map (m : sys) (x : xstate) : xstate :=
  mkX m (x_global x) (x_workers x) (x_io x) (x_flag x) (x_lock x) (x_scheds x) (x_skipped x).
Definition set_global (g : G) (x : xstate) : xstate :=
  mkX (x_map x) g (x_workers x) (x_io x) (x_flag x) (x_lock x) (x_scheds x) (x_skipped x).
Definition set_worker (i : nat) (w : wthread) (x : xstate) : xstate :=
  mkX (x_map x) (x_global x) (<[i := w]> (x_workers x)) (x_io x) (x_flag x) (x_lock x)
    (x_scheds x) (x_skipped x).
Definition set_io (o : option nat) (x : xstate) : xstate :=
  mkX (x_map x) (x_global x) (x_workers x) o (x_flag x) (x_lock x) (x_scheds x) (x_skipped x).
Definition set_flag (b : bool) (x : xstate) : xstate :=
  mkX (x_map x) (x_global x) (x_workers x) (x_io x) b (x_lock x) (x_scheds x) (x_skipped x).
Definition set_lock (o : option nat) (x : xstate) : xstate :=
  mkX (x_map x) (x_global x) (x_workers x) (x_io x) (x_flag x) o (x_scheds x) (x_skipped x).
Definition set_scheds (ss : gmap nat sched_pc) (x : xstate) : xstate :=
  mkX (x_map x) (x_global x) (x_workers x) (x_io x) (x_flag x) (x_lock x) ss (x_skipped x).
Definition set_skipped (x : xstate) : xstate :=
  mkX (x_map x) (x_global x) (x_workers x) (x_io x) (x_flag x) (x_lock x) (x_scheds x) true.

Definition set_sched (s : nat) (pc : sched_pc) (x : xstate) : xstate :=
  set_scheds (<[s := pc]> (x_scheds x)) x.
Definition end_sched (s : nat) (x : xstate) : xstate := set_scheds (delete s (x_scheds x)) x.

Definition goto (pc : worker_pc) (w : wthread) : wthread :=
  mkWThread pc (w_exec w) (w_counter w) (w_mark w).
Definition remark (o : option WorkerThreadWaker) (w : wthread) : wthread :=
  mkWThread (w_pc w) (w_exec w) (w_counter w) o.

(** The beginning of a push and of a pop. *)
Definition begin_push (i : nat) (m : sys) : sys :=
  mkSys (s_excl m) (s_sh m) (<[i := PushStore i]> (s_pushers m)) (s_popper m) (s_pushed m) (s_popped m).
Definition set_popper (p : popper) (m : sys) : sys :=
  mkSys (s_excl m) (s_sh m) (s_pushers m) (Some p) (s_pushed m) (s_popped m).

(** The next access of a push of [i]. *)
Definition push_access (i : nat) (pc : push_pc) (m : sys) : option sys :=
  match push_step pc (s_sh m) with
  | Done (sh, next) => Some (after_push n i pc sh next m)
  | _ => None
  end.

(** One step of worker [i]; [None] when it is blocked.  [spurious] says that the
    wait of the condition variable returns without a notification; the worker
    goes on as if it was notified. *)
Definition worker_step (spurious : bool) (i : nat) (w : wthread) (x : xstate) : option xstate :=
  match w_pc w with
  | WLoop =>
      let '(t, counter, exec, rt) :=
        next_task grow (w_counter w) (w_exec w) (mkRuntime (x_global x) None (map_of (x_map x)) 0) in
      Some (set_worker i
              (mkWThread (match t with Some t => WRun t | None => WIdle end) exec counter (w_mark w))
              (set_global (global_queue rt) x))
  | WRun _ => Some (set_worker i (goto WLoop w) x)
  | WIdle =>
      match x_io x with
      | None => Some (set_worker i (goto WPoll w) (set_io (Some i) x))
      | Some _ => Some (set_worker i (goto WPark w) x)
      end
  | WPoll => if x_flag x then Some (set_worker i (goto WDeliver w) (set_flag false x)) else None
  | WDeliver => Some (set_worker i (goto WLoop w) (set_io None x))
  | WPark =>
      match w_mark w with
      | None => Some (set_worker i (goto WPushing w) (set_map (begin_push i (x_map x)) x))
      | Some _ => Some (set_worker i (goto WMark w) x)
      end
  | WPushing =>
      match s_pushers (x_map x) !! i with
      | Some pc => m ← push_access i pc (x_map x); Some (set_map m x)
      | None => Some (set_worker i (goto WMark w) x)
      end
  | WMark => Some (set_worker i (goto WAsleep (remark (Some Parked) w)) x)
  | WAsleep => if spurious then Some (set_worker i (goto WNotified w) x) else None
  | WNotified => Some (set_worker i (goto WLoop (remark None w)) x)
  end.

(** Worker [i] holds its own [parker]. *)
Definition holds_parker (pc : worker_pc) : bool :=
  match pc with WPushing | WMark => true | _ => false end.

Definition sched_step (s : nat) (pc : sched_pc) (x : xstate) : option xstate :=
  match pc with
  | SPush t =>
      match (if tl_is_linked t (x_global x) then mret (x_global x) else tl_push_back t (x_global x)) with
      | Done g => Some (set_sched s STry (set_global g x))
      | _ => None
      end
  | STry =>
      match x_lock x with
      | None => Some (set_sched s SPop (set_lock (Some s) x))
      | Some _ => Some (end_sched s (set_skipped x))
      end
  | SPop => Some (set_sched s SPopping (set_map (set_popper (Popping PopLoad) (x_map x)) x))
  | SPopping =>
      match s_popper (x_map x) with
      | Some (Popping pc) =>
          match pop_step n pc (s_excl (x_map x)) (s_sh (x_map x)) with
          | Done (e, next) =>
              let x := set_map (after_pop n e next (x_map x)) x in
              Some match next with
                   | PopDone (ReadySlot_Ready i) => set_sched s (SMark i) x
                   | PopDone _ => set_sched s SWake x
                   | _ => x
                   end
          | _ => None
          end
      | Some (PushingStub t) =>
          match s_pushers (x_map x) !! n with
          | Some pc => m ← push_access n pc (x_map x); Some (set_map m x)
          | None => Some (set_map (set_popper (Popping (PopPushed t)) (x_map x)) x)
          end
      | None => None
      end
  | SMark i =>
      w ← x_workers x !! i;
      if holds_parker (w_pc w) then None
      else
        match w_mark w with
        | Some Parked =>
            let w := remark None w in
            let w := match w_pc w with WAsleep => goto WNotified w | _ => w end in
            Some (set_sched s SRelease (set_worker i w x))
        | None => Some (set_sched s SPop x)
        end
  | SWake => Some (set_sched s SRelease (set_flag true x))
  | SRelease => Some (end_sched s (set_lock None x))
  end.

(** The actions: a thread of the system takes its step, or something happens
    outside of it: an I/O event ends the wait of the driver, a task that runs or
    that the driver wakes is put into the worker's own queue, a thread calls
    [schedule_global], or the wait of a sleeping worker returns spuriously. *)
Inductive action : Type :=
| AWorker (i : nat)
| ASched (s : nat)
| AEvent (i : nat)
| ALocal (i : nat) (t : T)
| ACall (s : nat) (t : T)
| ASpurious (i : nat).

Definition exec (a : action) (x : xstate) : option xstate :=
  match a with
  | AWorker i => w ← x_workers x !! i; worker_step false i w x
  | ASched s => pc ← x_scheds x !! s; sched_step s pc x
  | AEvent i =>
      w ← x_workers x !! i;
      match w_pc w with WPoll => Some (set_worker i (goto WDeliver w) x) | _ => None end
  | ALocal i t =>
      w ← x_workers x !! i;
      let q := local_queue (w_exec w) in
      match w_pc w with
      | WRun _ | WDeliver =>
          if decide (length (vd_items q) < vd_capacity q) then
            Some (set_worker i (mkWThread (w_pc w) (with_local (vd_push_back grow t q) (w_exec w))
                                  (w_counter w) (w_mark w)) x)
          else None
      | _ => None
      end
  | ACall s t =>
      match x_scheds x !! s with
      | None => Some (set_sched s (SPush t) x)
      | Some _ => None
      end
  | ASpurious i =>
      w ← x_workers x !! i;
      match w_pc w with WAsleep => worker_step true i w x | _ => None end
  end.

(** The steps of the threads of the system. *)
Definition internal (a : action) : Prop :=
  match a with AWorker _ | ASched _ => True | _ => False end.

(** A sleeping worker wakes up by a notification only. *)
Definition not_spurious (a : action) : bool :=
  match a with ASpurious _ => false | _ => true end.

Definition xstep (x x' : xstate) : Prop := ∃ a, not_spurious a = true ∧ exec a x = Some x'.

Definition new_worker (i : nat) : wthread :=
  mkWThread WLoop (mkExecutor (Z.of_nat i) (mkVecDeque [] 32)) 0%Z None.

Definition x_init : xstate :=
  mkX (sys_init n) tl_new (new_worker <$> seq 0 n) None false None ∅ false.

(** Reachable without a spurious return. *)
Definition xreachable (x : xstate) : Prop := rtc xstep x_init x.

(** A schedule that can be run. *)
Fixpoint run_actions (l : list action) (x : xstate) : option xstate :=
  match l with
  | [] => Some x
  | a :: l => x ← exec a x; run_actions l x
  end.
End system.

Arguments worker_pc : clear implicits.
Arguments wthread : clear implicits.
Arguments sched_pc : clear implicits.
Arguments xstate : clear implicits.
Arguments action : clear implicits.

(** ** The parking protocol

    The invariant about the queue of parked workers: it mentions the slot map
    [m], the workers [ws], the lock and the schedulers [ss]. *)

Section parking.
Context {T : Type} (n : nat).
Implicit Types (m : sys) (ws : list (wthread T)) (ss : gmap nat (sched_pc T)).

(** A worker from the beginning of its push until it is notified. *)
Definition parking (pc : worker_pc T) : Prop :=
  match pc with WPushing | WMark | WAsleep => True | _ => False end.

(** The scheduler owns the exclusive part of the slot map. *)
Definition holds_lock (pc : sched_pc T) : Prop :=
  match pc with SPush _ | STry => False | _ => True end.

Definition pc_is ws (i : nat) (P : worker_pc T → Prop) : Prop :=
  ∃ w, ws !! i = Some w ∧ P (w_pc w).

Record parking_inv m ws (lock : option nat) ss : Prop := {
  p_len : length ws = n;
  p_map : reachable n m;
  p_pushers : ∀ i pc, i < n → s_pushers m !! i = Some pc → pc_is ws i (eq WPushing);
  p_queue : ∀ i, i ∈ queue m → pc_is ws i parking;
  p_mark : ∀ i w, ws !! i = Some w → (w_mark w = Some Parked ↔ w_pc w = WAsleep);
  p_hand : ∀ s i, ss !! s = Some (SMark i) →
    (i ∉ queue m) ∧ s_pushers m !! i = None ∧ pc_is ws i parking;
  p_lock : ∀ s pc, ss !! s = Some pc → holds_lock pc → lock = Some s;
  p_popper : s_popper m ≠ None ↔ ∃ s, ss !! s = Some SPopping;
}.

Lemma pc_is_insert ws i j w P :
  pc_is (<[i := w]> ws) j P ↔
  (i = j ∧ i < length ws ∧ P (w_pc w)) ∨ (i ≠ j ∧ pc_is ws j P).
Proof.
  unfold pc_is. split.
  - intros (w' & [(<- & <- & Hl)|[Hne Hw']]%list_lookup_insert_Some & HP); [by left|right; eauto].
  - intros [(<- & Hl & HP)|(Hne & w' & Hw' & HP)].
    + exists w. by rewrite list_lookup_insert_eq.
    + exists w'. by rewrite list_lookup_insert_ne.
Qed.

(** The lock has one owner. *)
Lemma one_holder m ws lock ss s s' pc pc' :
  parking_inv m ws lock ss → ss !! s = Some pc → holds_lock pc →
  ss !! s' = Some pc' → holds_lock pc' → s = s'.
Proof.
  intros Hp H1 H2 H3 H4. pose proof (p_lock _ _ _ _ Hp _ _ H1 H2).
  pose proof (p_lock _ _ _ _ Hp _ _ H3 H4). congruence.
Qed.

(** A worker moves on: it may leave its parking only when its index is neither in
    the queue nor in the hand of a scheduler. *)
Lemma parking_worker m ws lock ss i w w' :
  parking_inv m ws lock ss → ws !! i = Some w →
  (w_mark w' = Some Parked ↔ w_pc w' = WAsleep) →
  (w_pc w = WPushing → i < n → s_pushers m !! i = None ∨ w_pc w' = WPushing) →
  (parking (w_pc w) → parking (w_pc w') ∨ (i ∉ queue m) ∧ ∀ s, ss !! s ≠ Some (SMark i)) →
  parking_inv m (<[i := w']> ws) lock ss.
Proof.
  intros [Hlen Hm Hps Hq Hmk Hh Hl Hpp] Hw Hmark Hpush Hpark.
  pose proof (lookup_lt_Some _ _ _ Hw) as Hi.
  assert (∀ j, pc_is ws j parking → j ∈ queue m ∨ (∃ s, ss !! s = Some (SMark j)) →
            pc_is (<[i := w']> ws) j parking) as Hkeep.
  { intros j Hj Hin. apply pc_is_insert. destruct (decide (i = j)) as [<-|]; [|by right].
    left. split_and!; [done|done|]. destruct Hj as (w1 & Hw1 & Hpk).
    rewrite Hw in Hw1. injection Hw1 as <-. destruct (Hpark Hpk) as [|[Hnq Hnh]]; [done|].
    destruct Hin as [?|[s ?]]; [done|]. by destruct (Hnh s). }
  split; try done.
  - by rewrite length_insert.
  - intros j pc Hj Hpc. destruct (Hps j pc Hj Hpc) as (w1 & Hw1 & Hpk).
    apply pc_is_insert. destruct (decide (i = j)) as [<-|]; [|right; by eauto].
    rewrite Hw in Hw1. injection Hw1 as <-.
    destruct (Hpush (eq_sym Hpk) Hj) as [Hn|Hn]; [by rewrite Hpc in Hn|by left].
  - intros j Hj. apply Hkeep; auto.
  - intros j w1 [(<- & <- & _)|[_ Hj]]%list_lookup_insert_Some; eauto.
  - intros s j Hs. destruct (Hh s j Hs) as (? & ? & ?). split_and!; [done|done|]. apply Hkeep; eauto.
Qed.

Lemma queue_after_push m i pc sh next :
  reachable n m → queue (after_push n i pc sh next m) = queue m ++ enqueued n pc.
Proof.
  intros Hr. destruct (enqueued n pc) as [|j [|]] eqn:He.
  - unfold queue, after_push. cbn. rewrite He, !app_nil_r. done.
  - unfold after_push. rewrite He. apply (queue_pushed n). by apply reachable_inv.
  - unfold enqueued in He. by destruct pc; [|case_decide|].
Qed.

Lemma parking_begin_push m ws lock ss i w :
  parking_inv m ws lock ss → ws !! i = Some w → w_pc w = WPark → w_mark w = None →
  parking_inv (begin_push i m) (<[i := goto WPushing w]> ws) lock ss.
Proof.
  intros Hp Hw Hpc Hmark. pose proof Hp as [Hlen Hm Hps Hq Hmk Hh Hl Hpp].
  pose proof (lookup_lt_Some _ _ _ Hw) as Hi. rewrite Hlen in Hi.
  assert (i ∉ queue m) as Hnq.
  { intros (w1 & Hw1 & Hpk)%Hq. rewrite Hw in Hw1. injection Hw1 as <-. by rewrite Hpc in Hpk. }
  assert (s_pushers m !! i = None) as Hnp.
  { destruct (s_pushers m !! i) as [pc|] eqn:Hpu; [|done].
    destruct (Hps i pc Hi Hpu) as (w1 & Hw1 & Hpk). rewrite Hw in Hw1. injection Hw1 as <-.
    by rewrite Hpc in Hpk. }
  destruct (parking_worker m ws lock ss i w (goto WPushing w) Hp Hw) as [Hlen' _ Hps' Hq' Hmk' Hh' _ _];
    [cbn; by rewrite Hmark|by rewrite Hpc|by rewrite Hpc|].
  split; try done.
  - unfold reachable in *. eapply rtc_r; [exact Hm|]. by apply step_push_begin.
  - cbn. intros j pc Hj [(<- & <-)|[Hne Hpu]]%lookup_insert_Some; [|by eapply Hps'].
    apply pc_is_insert. left. by rewrite Hlen.
  - intros s j Hsj. destruct (Hh' s j Hsj) as (Hnj & Hpj & Hpk). split_and!; [done| |done].
    cbn. rewrite lookup_insert_ne; [done|]. intros <-.
    destruct (Hh s i Hsj) as (_ & _ & w1 & Hw1 & Hpk1). rewrite Hw in Hw1. injection Hw1 as <-.
    by rewrite Hpc in Hpk1.
Qed.

(** An access of a push in progress, by a worker or by the consumer. *)
Lemma parking_push_access m m' ws lock ss i pc :
  parking_inv m ws lock ss → s_pushers m !! i = Some pc → push_access n i pc m = Some m' →
  parking_inv m' ws lock ss.
Proof.
  intros [Hlen Hm Hps Hq Hmk Hh Hl Hpp] Hpc Ha. unfold push_access in Ha.
  destruct (push_step pc (s_sh m)) as [[sh next]| |] eqn:Hs; [|done..]. injection Ha as <-.
  assert (∀ j, j ∈ enqueued n pc → j = i ∧ i < n) as Henq.
  { destruct (reachable_inv n m Hm) as [chain Hinv].
    destruct (inv_pushers _ _ _ Hinv _ _ Hpc) as [Hin Hk].
    intros j Hj. unfold enqueued in Hj. destruct pc as [|k|]; [set_solver| |set_solver].
    destruct Hk as [-> _]. case_decide; [set_solver|]. apply list_elem_of_singleton in Hj as ->. lia. }
  split; try done.
  - unfold reachable in *. eapply rtc_r; [exact Hm|]. by eapply step_push.
  - intros j pcj Hj Hpj. cbn in Hpj. apply (Hps j) with (if decide (i = j) then pc else pcj); [done|].
    destruct next as [pc'|].
    + apply lookup_insert_Some in Hpj as [[-> ->]|[? ?]]; [by rewrite decide_True|].
      by rewrite decide_False.
    + apply lookup_delete_Some in Hpj as [? ?]. by rewrite decide_False.
  - intros j. rewrite queue_after_push by done. intros [Hj|Hj]%elem_of_app; [by apply Hq|].
    destruct (Henq j Hj) as [-> Hi]. destruct (Hps i pc Hi Hpc) as (w & Hw & Hpw).
    exists w. split; [done|]. by rewrite <- Hpw.
  - intros s j Hsj. destruct (Hh s j Hsj) as (Hnq & Hnp & Hpk).
    assert (i ≠ j) by (intros ->; by rewrite Hpc in Hnp). split_and!; [| |done].
    + rewrite queue_after_push by done. intros [Hj|Hj]%elem_of_app; [done|]. by destruct (Henq j Hj).
    + cbn. destruct next; [by rewrite lookup_insert_ne|by rewrite lookup_delete_ne].
Qed.

(** A scheduler moves on without touching the slot map. *)
Lemma parking_sched m ws lock lock' ss s pc pc' :
  parking_inv m ws lock ss → ss !! s = Some pc → pc ≠ SPopping → pc' ≠ SPopping →
  (∀ i, pc' ≠ SMark i) → (holds_lock pc' → lock' = Some s) →
  (lock' = lock ∨ lock = None) →
  parking_inv m ws lock' (<[s := pc']> ss).
Proof.
  intros Hp Hs Hpc Hpc' Hnm Hlk Hlock. destruct Hp as [Hlen Hm Hps Hq Hmk Hh Hl Hpp]. split; try done.
  - intros s1 i [(<- & Heq)|[Hne Hs1]]%lookup_insert_Some; [by destruct (Hnm i)|by eapply Hh].
  - intros s1 pc1 [(<- & <-)|[Hne Hs1]]%lookup_insert_Some Hh1; [by apply Hlk|].
    pose proof (Hl s1 pc1 Hs1 Hh1) as Hl1. destruct Hlock; congruence.
  - rewrite Hpp. split.
    + intros (s1 & Hs1). exists s1. rewrite lookup_insert_ne; [done|]. intros ->. by rewrite Hs in Hs1; simplify_eq.
    + intros (s1 & [(<- & Heq)|[Hne Hs1]]%lookup_insert_Some); [by destruct Hpc'|eauto].
Qed.

Lemma parking_new_sched m ws lock ss s t :
  parking_inv m ws lock ss → ss !! s = None → parking_inv m ws lock (<[s := SPush t]> ss).
Proof.
  intros [Hlen Hm Hps Hq Hmk Hh Hl Hpp] Hs. split; try done.
  - intros s1 i [(<- & Heq)|[Hne Hs1]]%lookup_insert_Some; [done|by eapply Hh].
  - intros s1 pc1 [(<- & <-)|[Hne Hs1]]%lookup_insert_Some Hh1; [done|by eapply Hl].
  - rewrite Hpp. split.
    + intros (s1 & Hs1). exists s1. rewrite lookup_insert_ne; [done|]. intros ->. by rewrite Hs in Hs1.
    + intros (s1 & [(<- & Heq)|[Hne Hs1]]%lookup_insert_Some); [done|eauto].
Qed.

(** A scheduler returns, without the lock or giving it back. *)
Lemma parking_end_sched m ws lock lock' ss s pc :
  parking_inv m ws lock ss → ss !! s = Some pc → pc ≠ SPopping →
  (lock' = lock ∨ holds_lock pc) → parking_inv m ws lock' (delete s ss).
Proof.
  intros Hp Hs Hpc Hlock. pose proof Hp as [Hlen Hm Hps Hq Hmk Hh Hl Hpp]. split; try done.
  - intros s1 i [Hne Hs1]%lookup_delete_Some. by eapply Hh.
  - intros s1 pc1 [Hne Hs1]%lookup_delete_Some Hh1. destruct Hlock as [->|Hhs]; [by eapply Hl|].
    destruct Hne. by eapply one_holder.
  - rewrite Hpp. split.
    + intros (s1 & Hs1). exists s1. rewrite lookup_delete_ne; [done|]. intros ->. by rewrite Hs in Hs1; simplify_eq.
    + intros (s1 & [Hne Hs1]%lookup_delete_Some). eauto.
Qed.

Lemma parking_pop_begin m ws lock ss s :
  parking_inv m ws lock ss → ss !! s = Some SPop →
  parking_inv (set_popper (Popping PopLoad) m) ws lock (<[s := SPopping]> ss).
Proof.
  intros Hp Hs. pose proof Hp as [Hlen Hm Hps Hq Hmk Hh Hl Hpp].
  assert (s_popper m = None) as Hnone.
  { apply dec_stable. intros (s1 & Hs1)%Hpp. assert (s = s1) as <- by by eapply one_holder.
    by rewrite Hs in Hs1. }
  split; try done.
  - unfold reachable in *. eapply rtc_r; [exact Hm|]. by apply step_pop_begin.
  - intros s1 i [(<- & Heq)|[Hne Hs1]]%lookup_insert_Some; [done|by eapply Hh].
  - intros s1 pc1 [(<- & <-)|[Hne Hs1]]%lookup_insert_Some Hh1; [by eapply Hl|by eapply Hl].
  - cbn. split; [|done]. intros _. exists s. by rewrite lookup_insert_eq.
Qed.

(** The node at the tail is not being pushed. *)
Lemma tail_not_pushing m : reachable n m → s_pushers m !! tail (s_excl m) = None.
Proof.
  intros [chain Hinv]%reachable_inv. destruct (s_pushers m !! _) as [pc|] eqn:Hpc; [|done].
  pose proof (inv_tail _ _ _ Hinv) as Ht. pose proof (list_elem_of_lookup_2 _ _ _ Ht) as Hin.
  destruct (inv_pushers _ _ _ Hinv _ _ Hpc) as [_ Hk]. destruct pc as [| |a]; [naive_solver..|].
  destruct Hk as (_ & k & _ & Hk).
  pose proof (NoDup_lookup _ _ _ _ (inv_nodup _ _ _ Hinv) Ht Hk). done.
Qed.

(** What a [pop] returns was at the tail. *)
Lemma pop_ready_tail m pc e i :
  reachable n m → s_popper m = Some (Popping pc) →
  pop_step n pc (s_excl m) (s_sh m) = Done (e, PopDone (ReadySlot_Ready i)) → i = tail (s_excl m).
Proof.
  intros [chain Hinv]%reachable_inv Hpp Hs. pose proof (inv_popper _ _ _ Hinv) as Hok.
  unfold popper_ok in Hok. rewrite Hpp in Hok.
  destruct pc as [|t|t|t]; cbn [pop_step] in Hs;
    repeat first [case_decide|apply outcome_bind_done in Hs as (? & _ & Hs)];
    cbn [mret outcome_ret] in Hs; unfold mret, outcome_ret in Hs; simplify_eq; destruct_and?; done.
Qed.

Lemma queue_after_pop m e r :
  queue (after_pop n e (PopDone r) m) = drop (length (dequeued r)) (queue m).
Proof. unfold queue. cbn. by rewrite length_app, drop_drop. Qed.

(** An access of a [pop]: its result leaves the queue into the hand of the
    scheduler. *)
Lemma parking_pop m ws lock ss s pc e next :
  parking_inv m ws lock ss → ss !! s = Some SPopping → s_popper m = Some (Popping pc) →
  pop_step n pc (s_excl m) (s_sh m) = Done (e, next) →
  parking_inv (after_pop n e next m) ws lock
    match next with
    | PopDone (ReadySlot_Ready i) => <[s := SMark i]> ss
    | PopDone _ => <[s := SWake]> ss
    | _ => ss
    end.
Proof.
  intros Hp Hs Hpp Hstep. pose proof Hp as [Hlen Hm Hps Hq Hmk Hh Hl Hpo].
  assert (reachable n (after_pop n e next m)) as Hm'
    by (unfold reachable in *; eapply rtc_r; [exact Hm|]; by eapply step_pop).
  assert (lock = Some s) as Hlock by by eapply Hl.
  assert (∀ s1 i, ss !! s1 ≠ Some (SMark i)) as Hnohand.
  { intros s1 i Hs1. assert (s = s1) as <- by by eapply one_holder. by rewrite Hs in Hs1. }
  destruct next as [pc'|tl|r].
  - split; try done. cbn. split; [|done]. eauto.
  - split; try done.
    + cbn. intros i pci Hi. rewrite lookup_insert_ne by lia. by apply Hps.
    + intros s1 i Hs1. by destruct (Hnohand s1 i).
    + cbn. split; [|done]. eauto.
  - destruct (inv_pop n m pc e (PopDone r) (reachable_inv n m Hm) Hpp Hstep) as [_ Hres].
    set (pc' := match r with ReadySlot_Ready i => SMark i | _ => SWake end : sched_pc T).
    assert (parking_inv (after_pop n e (PopDone r) m) ws lock (<[s := pc']> ss)) as Hdone.
    { split; try done.
      - intros i Hi. apply Hq. rewrite queue_after_pop in Hi. apply list_elem_of_In in Hi.
        apply list_elem_of_In. rewrite <- (take_drop (length (dequeued r)) (queue m)). apply in_or_app. by right.
      - intros s1 i [(<- & Heq)|[Hne Hs1]]%lookup_insert_Some; [|by destruct (Hnohand s1 i)].
        unfold pc' in Heq. destruct r as [i'| |]; [|done..]. injection Heq as ->.
        destruct Hres as [q Hqm]. rewrite queue_after_pop. cbn [dequeued length]. rewrite Hqm. cbn.
        rewrite drop_0. pose proof (queue_nodup n m Hm) as Hnd. rewrite Hqm in Hnd.
        apply NoDup_cons in Hnd as [Hni _]. split_and!; [done| |apply Hq; rewrite Hqm; by left].
        rewrite (pop_ready_tail m pc e i Hm Hpp Hstep). by apply tail_not_pushing.
      - intros s1 pc1 [(<- & <-)|[Hne Hs1]]%lookup_insert_Some Hh1; [done|by eapply Hl].
      - cbn. split; [done|]. intros (s1 & [(<- & Heq)|[Hne Hs1]]%lookup_insert_Some).
        + unfold pc' in Heq. by destruct r.
        + destruct Hne. by eapply one_holder. }
    unfold pc' in Hdone. by destruct r.
Qed.

Lemma parking_pop_pushed m ws lock ss s t :
  parking_inv m ws lock ss → ss !! s = Some SPopping → s_popper m = Some (PushingStub t) →
  s_pushers m !! n = None → parking_inv (set_popper (Popping (PopPushed t)) m) ws lock ss.
Proof.
  intros Hp Hs Hpp Hn. pose proof Hp as [Hlen Hm Hps Hq Hmk Hh Hl Hpo]. split; try done.
  - unfold reachable in *. eapply rtc_r; [exact Hm|]. by apply step_pop_pushed.
  - cbn. split; [|done]. eauto.
Qed.

(** A scheduler with an index in its hand finds that worker asleep. *)
Lemma parking_hand m ws lock ss s i :
  parking_inv m ws lock ss → ss !! s = Some (SMark i) →
  ∃ w, ws !! i = Some w ∧ parking (w_pc w) ∧
    (holds_parker (w_pc w) = false → w_pc w = WAsleep ∧ w_mark w = Some Parked).
Proof.
  intros Hp Hs. destruct (p_hand _ _ _ _ Hp s i Hs) as (_ & _ & w & Hw & Hpk).
  exists w. split_and!; [done|done|]. pose proof (p_mark _ _ _ _ Hp i w Hw) as Hmk.
  destruct (w_pc w); try done. intros _. split; [done|]. by apply Hmk.
Qed.

Lemma parking_notify m ws lock ss s i w :
  parking_inv m ws lock ss → ss !! s = Some (SMark i) → ws !! i = Some w →
  parking_inv m (<[i := goto WNotified (remark None w)]> ws) lock (<[s := SRelease]> ss).
Proof.
  intros Hp Hs Hw. destruct (p_hand _ _ _ _ Hp s i Hs) as (Hnq & Hnp & _).
  assert (lock = Some s) as Hlock by by eapply (p_lock _ _ _ _ Hp).
  apply parking_worker with w; [|done|done|by left|].
  - eapply parking_sched; [exact Hp|exact Hs|done..|by left].
  - intros _. right. split; [done|].
    intros s1 [(<- & Heq)|[Hne Hs1]]%lookup_insert_Some; [done|]. destruct Hne.
    by eapply one_holder.
Qed.
End parking.

(** ** Invariants of the whole system *)

Section invariants.
Context {G T : Type} `{EqDecision T, TaskList G T, !TaskListLaws G T}.
Context (n : nat) (grow : nat → nat).
Implicit Types (x : xstate G T) (w : wthread T).

Definition x_parking x : Prop :=
  parking_inv n (x_map x) (x_workers x) (x_lock x) (x_scheds x).

(** The worker goes through the top of the loop before it can sleep. *)
Definition looking (pc : worker_pc T) : Prop :=
  match pc with WLoop | WRun _ | WDeliver | WNotified => True | _ => False end.

(** The worker is about to poll the driver or polls it. *)
Definition polling (pc : worker_pc T) : Prop :=
  match pc with WIdle | WPoll => True | _ => False end.

(** The worker owns the driver. *)
Definition driving (pc : worker_pc T) : Prop :=
  match pc with WPoll | WDeliver => True | _ => False end.

(** The scheduler put its task into the queue and has not woken anybody yet. *)
Definition searching (pc : sched_pc T) : Prop :=
  match pc with SPush _ | SRelease => False | _ => True end.

(** A worker that is not on its way to sleep. *)
Definition awake (pc : worker_pc T) : Prop := looking pc ∨ polling pc.

(** The driver has one owner, and some worker is awake. *)
Definition driver_inv (io : option nat) (ws : list (wthread T)) : Prop :=
  (∀ i, io = Some i ↔ pc_is ws i driving) ∧ ∃ i, pc_is ws i awake.

Definition x_driver x : Prop := driver_inv (x_io x) (x_workers x).

(** Someone will look at the global queue. *)
Definition attended (ws : list (wthread T)) (flag : bool) (ss : gmap nat (sched_pc T)) : Prop :=
  (∃ i, pc_is ws i looking) ∨ flag = true ∨ ∃ s pc, ss !! s = Some pc ∧ searching pc.

Definition x_served x : Prop :=
  tl_view (x_global x) ≠ [] →
  x_skipped x = true ∨ attended (x_workers x) (x_flag x) (x_scheds x).

Lemma x_parking_init : x_parking (x_init n).
Proof.
  split; cbn; try done.
  - by rewrite length_fmap, length_seq.
  - apply rtc_refl.
  - intros i Hi. by apply not_elem_of_nil in Hi.
  - intros i w Hw. apply list_lookup_fmap_Some in Hw as (j & -> & _). done.
  - split; [done|]. intros (s & Hs). by rewrite lookup_empty in Hs.
Qed.

Lemma x_parking_worker i w x x' :
  x_parking x → x_workers x !! i = Some w → worker_step n grow false i w x = Some x' → x_parking x'.
Proof.
  intros Hp Hw Hs. pose proof (p_mark _ _ _ _ _ Hp i w Hw) as Hmk. unfold worker_step in Hs.
  assert (∀ w', w_mark w' = w_mark w → w_pc w ≠ WAsleep → w_pc w' ≠ WAsleep → (parking (w_pc w) → False) →
    parking_inv n (x_map x) (<[i := w']> (x_workers x)) (x_lock x) (x_scheds x)) as Hmove.
  { intros w' Hm' Hna Hna' Hnp. apply parking_worker with w; [done|done| | |by intros ?%Hnp].
    - rewrite Hm', Hmk. done.
    - intros Hpu. destruct Hnp. by rewrite Hpu. }
  unfold x_parking. destruct (w_pc w) eqn:Hpc.
  - destruct (next_task _ _ _ _) as [[[t c] e] rt]. injection Hs as <-. cbn.
    apply Hmove; rewrite ?Hpc; cbn; by try destruct t.
  - injection Hs as <-. by apply Hmove; rewrite ?Hpc.
  - destruct (x_io x); injection Hs as <-; by apply Hmove; rewrite ?Hpc.
  - destruct (x_flag x); [|done]. injection Hs as <-. by apply Hmove; rewrite ?Hpc.
  - injection Hs as <-. by apply Hmove; rewrite ?Hpc.
  - destruct (w_mark w) as [[]|] eqn:Hmark; [naive_solver|]. injection Hs as <-. cbn.
    by apply parking_begin_push.
  - destruct (s_pushers (x_map x) !! i) as [pc|] eqn:Hpu.
    + destruct (push_access n i pc (x_map x)) as [m|] eqn:Ha; [|done]. injection Hs as <-. cbn.
      by eapply parking_push_access.
    + injection Hs as <-. cbn. apply parking_worker with w; [done|done|cbn; naive_solver|by left|by left].
  - injection Hs as <-. cbn. apply parking_worker with w; [done|done|done|by rewrite Hpc|by left].
  - done.
  - injection Hs as <-. by apply parking_worker with w; [done|done|done|rewrite Hpc..].
Qed.

Lemma x_parking_sched s pc x x' :
  x_parking x → x_scheds x !! s = Some pc → sched_step n s pc x = Some x' → x_parking x'.
Proof.
  intros Hp Hs Hst. unfold sched_step in Hst. unfold x_parking.
  assert (holds_lock pc → x_lock x = Some s) as Hlk by by apply (p_lock _ _ _ _ _ Hp).
  destruct pc as [t| | | |i| |].
  - destruct (if tl_is_linked t (x_global x) then _ else _) as [g| |]; [|done..]. injection Hst as <-. cbn.
    eapply parking_sched; [exact Hp|exact Hs|done..|by left].
  - destruct (x_lock x) as [s0|] eqn:Hl; injection Hst as <-; cbn.
    + rewrite Hl. eapply parking_end_sched; [unfold x_parking in Hp; by rewrite Hl in Hp|exact Hs|done|by left].
    + eapply parking_sched; [exact Hp|exact Hs|done..|by right].
  - injection Hst as <-. cbn. by apply parking_pop_begin.
  - destruct (s_popper (x_map x)) as [[pc|t]|] eqn:Hpp; [| |done].
    + destruct (pop_step n pc _ _) as [[e next]| |] eqn:Hpop; [|done..]. injection Hst as <-.
      pose proof (parking_pop n _ _ _ _ s pc e next Hp Hs Hpp Hpop) as Hp'.
      destruct next as [|t|[i| |]]; exact Hp'.
    + destruct (s_pushers (x_map x) !! n) as [pc|] eqn:Hpu.
      * destruct (push_access n n pc (x_map x)) as [m|] eqn:Ha; [|done]. injection Hst as <-.
        by eapply parking_push_access.
      * injection Hst as <-. by eapply parking_pop_pushed.
  - destruct (parking_hand n _ _ _ _ s i Hp Hs) as (w & Hw & _ & Hsleep). rewrite Hw in Hst. cbn in Hst.
    destruct (holds_parker (w_pc w)); [done|]. destruct (Hsleep eq_refl) as [Hpc Hmk].
    rewrite Hmk, Hpc in Hst. injection Hst as <-. cbn. by apply parking_notify.
  - injection Hst as <-. cbn. eapply parking_sched; [exact Hp|exact Hs|done|done|done|by auto|by left].
  - injection Hst as <-. cbn. eapply parking_end_sched; [exact Hp|exact Hs|done|by right].
Qed.

Lemma x_parking_step x x' : x_parking x → xstep n grow x x' → x_parking x'.
Proof.
  intros Hp (a & Hns & Ha). destruct a as [i|s|i|i t|s t|i]; [..|done]; cbn in Ha.
  - destruct (x_workers x !! i) as [w|] eqn:Hw; [|done]. by eapply x_parking_worker.
  - destruct (x_scheds x !! s) as [pc|] eqn:Hs; [|done]. by eapply x_parking_sched.
  - destruct (x_workers x !! i) as [w|] eqn:Hw; [|done]. cbn in Ha.
    destruct (w_pc w) eqn:Hpc; try done. injection Ha as <-.
    pose proof (p_mark _ _ _ _ _ Hp i w Hw) as Hmk.
    apply parking_worker with w; [done|done|cbn; by rewrite Hmk, Hpc|by rewrite Hpc|by rewrite Hpc].
  - destruct (x_workers x !! i) as [w|] eqn:Hw; [|done]. cbn in Ha.
    pose proof (p_mark _ _ _ _ _ Hp i w Hw) as Hmk.
    destruct (w_pc w) eqn:Hpc; try done; (case_decide; [|done]); injection Ha as <-;
      (apply parking_worker with w; [done|done|cbn; by rewrite Hmk, ?Hpc|by rewrite Hpc|by rewrite Hpc]).
  - destruct (x_scheds x !! s) eqn:Hs; [done|]. injection Ha as <-. by apply parking_new_sched.
Qed.

Lemma x_reachable_parking x : xreachable n grow x → x_parking x.
Proof. apply (rtc_ind_r x_parking); [apply x_parking_init|]. eauto using x_parking_step. Qed.

Lemma driving_awake pc : driving pc → awake pc.
Proof. destruct pc; try done; intros _; [by right|by left]. Qed.

(** A worker moves on and keeps or does not have the driver. *)
Lemma driver_worker io ws i w w' :
  driver_inv io ws → ws !! i = Some w → (driving (w_pc w') ↔ driving (w_pc w)) →
  (awake (w_pc w') ∨ (awake (w_pc w) → io ≠ None ∧ io ≠ Some i)) →
  driver_inv io (<[i := w']> ws).
Proof.
  intros [Hio [j Hj]] Hw Hd Ha. pose proof (lookup_lt_Some _ _ _ Hw) as Hi. split.
  - intros k. rewrite pc_is_insert, Hio. destruct (decide (i = k)) as [<-|]; [|naive_solver].
    split; [intros (w1 & Hw1 & Hd1)|intros [(_ & _ & Hd1)|[? _]]; [|done]].
    + left. rewrite Hw in Hw1. injection Hw1 as <-. split_and!; [done|done|by apply Hd].
    + exists w. split; [done|]. by apply Hd.
  - destruct (decide (i = j)) as [<-|Hne]; [|exists j; apply pc_is_insert; by right].
    destruct Ha as [Ha|Ha]; [exists i; apply pc_is_insert; by left|].
    destruct Hj as (w1 & Hw1 & Hj). rewrite Hw in Hw1. injection Hw1 as <-.
    destruct (Ha Hj) as [Hn Hni]. destruct io as [k|]; [|done].
    exists k. apply pc_is_insert. right. split; [congruence|].
    destruct (proj1 (Hio k) eq_refl) as (w2 & Hw2 & Hd2). exists w2. split; [done|]. by apply driving_awake.
Qed.

(** A worker takes the free driver. *)
Lemma driver_take ws i w w' :
  driver_inv None ws → ws !! i = Some w → driving (w_pc w') → driver_inv (Some i) (<[i := w']> ws).
Proof.
  intros [Hio _] Hw Hd. pose proof (lookup_lt_Some _ _ _ Hw) as Hi. split.
  - intros k. rewrite pc_is_insert. split; [intros [= <-]; by left|].
    intros [(<- & _)|[_ Hk]]; [done|]. by apply Hio in Hk.
  - exists i. apply pc_is_insert. left. split_and!; [done|done|by apply driving_awake].
Qed.

(** A worker gives the driver back. *)
Lemma driver_release io ws i w w' :
  driver_inv io ws → ws !! i = Some w → driving (w_pc w) → ¬ driving (w_pc w') → awake (w_pc w') →
  driver_inv None (<[i := w']> ws).
Proof.
  intros [Hio _] Hw Hd Hnd Ha. pose proof (lookup_lt_Some _ _ _ Hw) as Hi. split.
  - intros k. rewrite pc_is_insert. split; [done|]. intros [(<- & _ & ?)|[Hne Hk]]; [done|].
    apply Hio in Hk. assert (io = Some i) as Hio' by (apply Hio; by exists w). congruence.
  - exists i. apply pc_is_insert. by left.
Qed.

Lemma x_driver_init : 0 < n → x_driver (x_init n).
Proof.
  intros Hn. split; cbn.
  - intros i. split; [done|]. intros (w & Hw & Hd).
    apply list_lookup_fmap_Some in Hw as (j & -> & _). done.
  - exists 0. exists (new_worker 0). split; [|by left].
    rewrite list_lookup_fmap, lookup_seq_lt by done. done.
Qed.

Lemma x_driver_worker i w x x' :
  x_driver x → x_workers x !! i = Some w → worker_step n grow false i w x = Some x' → x_driver x'.
Proof.
  intros Hd Hw Hs. unfold worker_step in Hs. unfold x_driver.
  assert (∀ w', (driving (w_pc w') ↔ driving (w_pc w)) → (awake (w_pc w') ∨ (awake (w_pc w) → False)) →
    driver_inv (x_io x) (<[i := w']> (x_workers x))) as Hmove.
  { intros w' Hdr Ha. apply driver_worker with w; [done..|]. destruct Ha as [|Ha]; [by left|right; by intros ?%Ha]. }
  assert ((awake (w_pc w) → False) → ∀ w', (driving (w_pc w') → False) →
    driver_inv (x_io x) (<[i := w']> (x_workers x))) as Hsleep.
  { intros Ha w' Hnd. apply Hmove; [|by right]. split; [done|]. intros ?%driving_awake. by destruct Ha. }
  destruct (w_pc w) eqn:Hpc.
  - destruct (next_task _ _ _ _) as [[[t c] e] rt]. injection Hs as <-. apply Hmove; [by destruct t|].
    left. destruct t; [by left|by right].
  - injection Hs as <-. apply Hmove; [done|by left; left].
  - destruct (x_io x) as [j|] eqn:Hio; injection Hs as <-; cbn.
    + rewrite Hio. apply driver_worker with w; [unfold x_driver in Hd; by rewrite Hio in Hd|done|by rewrite Hpc|].
      right. intros _. split; [done|]. intros [= ->]. destruct Hd as [Hd _].
      destruct (proj1 (Hd i) Hio) as (w1 & Hw1 & Hd1). rewrite Hw in Hw1. injection Hw1 as <-.
      by rewrite Hpc in Hd1.
    + apply driver_take with w; [unfold x_driver in Hd; by rewrite Hio in Hd|done|done].
  - destruct (x_flag x); [|done]. injection Hs as <-. apply Hmove; [done|by left; left].
  - injection Hs as <-. cbn.
    apply driver_release with (x_io x) w; [done|done|by rewrite Hpc|by intros ?|by left].
  - assert (awake WPark → False) as Ha by by intros [|].
    destruct (w_mark w); injection Hs as <-; by apply (Hsleep Ha).
  - assert (awake WPushing → False) as Ha by by intros [|].
    destruct (s_pushers (x_map x) !! i) as [pc|]; [|injection Hs as <-; by apply (Hsleep Ha)].
    destruct (push_access n i pc (x_map x)); [|done]. by injection Hs as <-.
  - assert (awake WMark → False) as Ha by by intros [|]. injection Hs as <-. by apply (Hsleep Ha).
  - done.
  - injection Hs as <-. apply Hmove; [done|by left; left].
Qed.

Lemma x_driver_step x x' : x_parking x → x_driver x → xstep n grow x x' → x_driver x'.
Proof.
  intros Hp Hd (a & Hns & Ha). destruct a as [i|s|i|i t|s t|i]; [..|done]; cbn in Ha.
  - destruct (x_workers x !! i) as [w|] eqn:Hw; [|done]. by eapply x_driver_worker.
  - destruct (x_scheds x !! s) as [pc|] eqn:Hs; [|done]. cbn in Ha. destruct pc as [t| | | |i| |]; cbn in Ha.
    + destruct (if tl_is_linked t (x_global x) then _ else _); [|done..]. by injection Ha as <-.
    + destruct (x_lock x); by injection Ha as <-.
    + by injection Ha as <-.
    + destruct (s_popper (x_map x)) as [[pc|t]|]; [| |done].
      * destruct (pop_step n pc _ _) as [[e next]| |]; [|done..]. injection Ha as <-.
        by destruct next as [| |[| |]].
      * destruct (s_pushers (x_map x) !! n) as [pc|]; [|by injection Ha as <-].
        destruct (push_access n n pc (x_map x)); [|done]. by injection Ha as <-.
    + destruct (parking_hand n _ _ _ _ s i Hp Hs) as (w & Hw & _ & Hsleep). rewrite Hw in Ha. cbn in Ha.
      destruct (holds_parker (w_pc w)); [done|]. destruct (Hsleep eq_refl) as [Hpc Hmk].
      rewrite Hmk, Hpc in Ha. injection Ha as <-. apply driver_worker with w; [done|done|by rewrite Hpc|by left; left].
    + by injection Ha as <-.
    + by injection Ha as <-.
  - destruct (x_workers x !! i) as [w|] eqn:Hw; [|done]. cbn in Ha.
    destruct (w_pc w) eqn:Hpc; try done. injection Ha as <-.
    apply driver_worker with w; [done|done|by rewrite Hpc|by left; left].
  - destruct (x_workers x !! i) as [w|] eqn:Hw; [|done]. cbn in Ha.
    destruct (w_pc w) eqn:Hpc; try done; (case_decide; [|done]); injection Ha as <-;
      (apply driver_worker with w; [done|done|cbn; by rewrite Hpc|left; by left]).
  - destruct (x_scheds x !! s) eqn:Hs; [done|]. by injection Ha as <-.
Qed.

Lemma attended_worker ws flag ss i w w' :
  ws !! i = Some w → (looking (w_pc w) → looking (w_pc w')) →
  attended ws flag ss → attended (<[i := w']> ws) flag ss.
Proof.
  intros Hw Hl [[j Hj]|Hrest]; [|by right]. left. exists j. apply pc_is_insert.
  destruct (decide (i = j)) as [<-|]; [|by right]. left.
  destruct Hj as (w1 & Hw1 & Hj). rewrite Hw in Hw1. injection Hw1 as <-.
  split_and!; [done|by eapply lookup_lt_Some|by apply Hl].
Qed.

Lemma attended_looking ws flag ss i w w' :
  ws !! i = Some w → looking (w_pc w') → attended (<[i := w']> ws) flag ss.
Proof.
  intros Hw Hl. left. exists i. apply pc_is_insert. left.
  split_and!; [done|by eapply lookup_lt_Some|done].
Qed.

Lemma attended_sched ws flag ss s pc : searching pc → attended ws flag (<[s := pc]> ss).
Proof. intros Hs. right. right. exists s, pc. by rewrite lookup_insert_eq. Qed.

(** A scheduler that is not searching comes or goes. *)
Lemma attended_scheds ws flag ss ss' :
  (∀ s pc, ss !! s = Some pc → searching pc → ss' !! s = Some pc) →
  attended ws flag ss → attended ws flag ss'.
Proof.
  intros Hss [?|[?|(s & pc & Hs & Hp)]]; [by left|by right; left|]. right. right. eauto.
Qed.

Lemma x_served_worker i w x x' :
  x_served x → x_workers x !! i = Some w → worker_step n grow false i w x = Some x' → x_served x'.
Proof.
  intros Hsv Hw Hs. unfold worker_step in Hs. unfold x_served in *.
  assert (∀ w', (looking (w_pc w) → looking (w_pc w')) → tl_view (x_global x) ≠ [] →
    x_skipped x = true ∨ attended (<[i := w']> (x_workers x)) (x_flag x) (x_scheds x)) as Hmove.
  { intros w' Hl [?|Ha]%Hsv; [by left|right]. by apply attended_worker with w. }
  destruct (w_pc w) eqn:Hpc.
  - destruct (next_task _ _ _ _) as [[[[t|] c] e] rt] eqn:Hnt; injection Hs as <-; cbn.
    + intros _. right. by apply attended_looking with w.
    + by rewrite (next_task_none _ _ _ _ _ _ _ Hnt).
  - injection Hs as <-. by apply Hmove.
  - destruct (x_io x); injection Hs as <-; by apply Hmove.
  - destruct (x_flag x); [|done]. injection Hs as <-. intros _. right. by apply attended_looking with w.
  - injection Hs as <-. by apply Hmove.
  - destruct (w_mark w); injection Hs as <-; by apply Hmove.
  - destruct (s_pushers (x_map x) !! i) as [pc|]; [|injection Hs as <-; by apply Hmove].
    destruct (push_access n i pc (x_map x)); [|done]. by injection Hs as <-.
  - injection Hs as <-. by apply Hmove.
  - done.
  - injection Hs as <-. by apply Hmove.
Qed.

Lemma x_served_sched s pc x x' :
  x_parking x → x_served x → x_scheds x !! s = Some pc → sched_step n s pc x = Some x' → x_served x'.
Proof.
  intros Hp Hsv Hs Hst. unfold x_served in *. destruct pc as [t| | | |i| |]; cbn in Hst.
  - destruct (if tl_is_linked t (x_global x) then _ else _); [|done..]. injection Hst as <-.
    intros _. right. by apply attended_sched.
  - destruct (x_lock x); injection Hst as <-; intros _; [by left|right]. by apply attended_sched.
  - injection Hst as <-. intros _. right. by apply attended_sched.
  - assert (∀ (g : list T) skipped ws flag, g ≠ [] → skipped = true ∨ attended ws flag (x_scheds x)) as Hstill.
    { intros. right. right. right. by exists s, SPopping. }
    destruct (s_popper (x_map x)) as [[pc|t]|]; [| |done].
    + destruct (pop_step n pc _ _) as [[e next]| |]; [|done..]. injection Hst as <-.
      destruct next as [| |[| |]]; [apply Hstill..| | |];
        intros _; right; by apply attended_sched.
    + destruct (s_pushers (x_map x) !! n) as [pc|]; [|injection Hst as <-; apply Hstill].
      destruct (push_access n n pc (x_map x)); [|done]. injection Hst as <-. apply Hstill.
  - destruct (parking_hand n _ _ _ _ s i Hp Hs) as (w & Hw & _ & Hsleep). rewrite Hw in Hst. cbn in Hst.
    destruct (holds_parker (w_pc w)); [done|]. destruct (Hsleep eq_refl) as [Hpc Hmk].
    rewrite Hmk, Hpc in Hst. injection Hst as <-. intros _. right. by apply attended_looking with w.
  - injection Hst as <-. intros _. right. by right; left.
  - injection Hst as <-. intros [?|Ha]%Hsv; [by left|right].
    apply (attended_scheds _ _ (x_scheds x)); [|done]. intros s1 pc1 Hs1 Hse. cbn.
    rewrite lookup_delete_ne; [done|]. intros <-. rewrite Hs in Hs1. by injection Hs1 as <-.
Qed.

Lemma x_served_step x x' : x_parking x → x_served x → xstep n grow x x' → x_served x'.
Proof.
  intros Hp Hsv (a & Hns & Ha). destruct a as [i|s|i|i t|s t|i]; [..|done]; cbn in Ha.
  - destruct (x_workers x !! i) as [w|] eqn:Hw; [|done]. by eapply x_served_worker.
  - destruct (x_scheds x !! s) as [pc|] eqn:Hs; [|done]. by eapply x_served_sched.
  - destruct (x_workers x !! i) as [w|] eqn:Hw; [|done]. cbn in Ha.
    destruct (w_pc w) eqn:Hpc; try done. injection Ha as <-. intros _. right. by apply attended_looking with w.
  - destruct (x_workers x !! i) as [w|] eqn:Hw; [|done]. cbn in Ha.
    destruct (w_pc w) eqn:Hpc; try done; (case_decide; [|done]); injection Ha as <-;
      intros _; right; by apply attended_looking with w.
  - destruct (x_scheds x !! s) eqn:Hs; [done|]. injection Ha as <-. intros [?|Ha]%Hsv; [by left|right].
    apply (attended_scheds _ _ (x_scheds x)); [|done]. intros s1 pc1 Hs1 Hse. cbn.
    rewrite lookup_insert_ne; [done|]. intros <-. by rewrite Hs in Hs1.
Qed.

Lemma x_reachable_inv x : 0 < n → xreachable n grow x → x_parking x ∧ x_driver x ∧ x_served x.
Proof.
  intros Hn. apply (rtc_ind_r (λ x, x_parking x ∧ x_driver x ∧ x_served x)).
  - split_and!; [apply x_parking_init|by apply x_driver_init|]. intros Hne. destruct Hne. apply tl_new_view.
  - intros y z _ Hst (Hp & Hd & Hsv).
    split_and!; [by eapply x_parking_step|by eapply x_driver_step|by eapply x_served_step].
Qed.

(** *** Whoever attends to the queue can go on *)

Lemma push_access_some m i pc :
  reachable n m → s_pushers m !! i = Some pc → is_Some (push_access n i pc m).
Proof.
  intros Hm Hpc. unfold push_access.
  destruct (push_step_done n m i pc (reachable_inv n m Hm) Hpc) as [[sh next] ->]. by eexists.
Qed.

Lemma worker_steps i w x :
  x_parking x → x_workers x !! i = Some w → w_pc w ≠ WAsleep →
  (w_pc w = WPoll → x_flag x = true) → is_Some (exec n grow (AWorker i) x).
Proof.
  intros Hp Hw Hna Hflag. cbn. rewrite Hw. cbn. unfold worker_step. destruct (w_pc w); try done; try (by eexists).
  - destruct (next_task _ _ _ _) as [[[t c] e] rt]. by eexists.
  - destruct (x_io x); by eexists.
  - rewrite Hflag by done. by eexists.
  - destruct (w_mark w); by eexists.
  - destruct (s_pushers (x_map x) !! i) as [pc|] eqn:Hpu; [|by eexists].
    destruct (push_access_some _ _ _ (p_map _ _ _ _ _ Hp) Hpu) as [m ->]. by eexists.
Qed.

(** A scheduler that searches can go on, or waits for a worker that can. *)
Lemma sched_progress s pc x :
  x_parking x → x_scheds x !! s = Some pc → searching pc →
  ∃ a, internal a ∧ is_Some (exec n grow a x).
Proof.
  intros Hp Hs Hse. destruct pc as [t| | | |i| |]; try done.
  4: { destruct (parking_hand n _ _ _ _ s i Hp Hs) as (w & Hw & Hpk & Hsleep).
       destruct (holds_parker (w_pc w)) eqn:Hh.
       - exists (AWorker i). split; [done|]. by apply (worker_steps i w); [..|destruct (w_pc w)|destruct (w_pc w)].
       - exists (ASched s). split; [done|]. cbn. rewrite Hs. cbn. rewrite Hw. cbn. rewrite Hh.
         destruct (Hsleep eq_refl) as [-> ->]. by eexists. }
  all: exists (ASched s); split; [done|]; cbn; rewrite Hs; cbn; try (by eexists).
  - destruct (x_lock x); by eexists.
  - pose proof (proj2 (p_popper _ _ _ _ _ Hp) (ex_intro _ s Hs)) as Hpp.
    pose proof (p_map _ _ _ _ _ Hp) as Hm.
    destruct (s_popper (x_map x)) as [[pc|t]|] eqn:Hpo; [| |done].
    + destruct (pop_step_done n _ pc (reachable_inv n _ Hm) Hpo) as [[e next] ->]. by eexists.
    + destruct (s_pushers (x_map x) !! n) as [pc|] eqn:Hpu; [|by eexists].
      destruct (push_access_some _ _ _ Hm Hpu) as [m ->]. by eexists.
Qed.
End invariants.

(** ** Properties *)

Section properties.
Context {G T : Type} `{EqDecision T, TaskList G T, !TaskListLaws G T}.
Context (n : nat) (grow : nat → nat).
Implicit Types (x : xstate G T).


(** C15: a task in the global queue is attended to, as long as no scheduler found
    the lock of the parked workers taken and no wait returned spuriously: some
    worker is on its way to the top of its loop, or the driver has a pending
    wake-up and a worker that polls it or is about to, or some scheduler is still
    looking for a sleeper; and the system is not stuck. *)
Theorem executor_serves_global_queue x :
  0 < n → xreachable n grow x → x_skipped x = false → tl_view (x_global x) ≠ [] →
  ((∃ i, pc_is (x_workers x) i looking) ∨
   (x_flag x = true ∧ ∃ i, pc_is (x_workers x) i polling) ∨
   (∃ s pc, x_scheds x !! s = Some pc ∧ searching pc)) ∧
  ∃ a x', internal a ∧ exec n grow a x = Some x'.
Proof.
  intros Hn Hr Hsk Hne. destruct (x_reachable_inv n grow x Hn Hr) as (Hp & [_ [i Hi]] & Hsv).
  destruct (Hsv Hne) as [?|Ha]; [congruence|].
  assert (∀ i w, x_workers x !! i = Some w → awake (w_pc w) → looking (w_pc w) ∨ x_flag x = true →
    ∃ a x', internal a ∧ exec n grow a x = Some x') as Hgo.
  { intros j w Hw Haw Hor.
    destruct (worker_steps n grow j w x Hp Hw) as [x' Hx'];
      [by destruct (w_pc w), Haw|by intros Hpc; rewrite Hpc in Hor; destruct Hor|].
    by exists (AWorker j), x'. }
  destruct Ha as [(j & w & Hw & Hl)|[Hf|(s & pc & Hs & Hse)]].
  - split; [left; by exists j, w|]. by apply (Hgo j w); [|left|left].
  - destruct Hi as (w & Hw & Haw). split; [|by apply (Hgo i w); [| |right]].
    destruct Haw as [Hl|Hpo]; [left; by exists i, w|right; left; split; [done|]; by exists i, w].
  - split; [right; right; by exists s, pc|].
    destruct (sched_progress n grow s pc x Hp Hs Hse) as (a & Hia & x' & Hx'). by exists a, x'.
Qed.
End properties.

(** ** A lost wake-up *)

Import TaskListRef.

Definition steps_of (i k : nat) : list (action nat) := replicate k (AWorker i).
Definition calls_of (s k : nat) : list (action nat) := replicate k (ASched s).

(** Two workers: 0 polls the driver, 1 sleeps.  Scheduler 0 queues task 10, wakes
    worker 1 and is held up before it releases the lock.  Worker 1 runs the task and
    goes back to sleep.  Scheduler 1 queues task 20 and finds the lock taken. *)
Definition both_asleep : list (action nat) := steps_of 0 2 ++ steps_of 1 8.
Definition first_task : list (action nat) := ACall 0 10 :: calls_of 0 12 ++ steps_of 1 11.
Definition second_task : list (action nat) := ACall 1 20 :: calls_of 1 2 ++ calls_of 0 1.

Lemma run_reachable {G T} `{EqDecision T, TaskList G T} n grow l (x x' : xstate G T) :
  forallb not_spurious l = true → run_actions n grow l x = Some x' → rtc (xstep n grow) x x'.
Proof.
  revert x. induction l as [|a l IH]; intros x Hl Hr; cbn in Hl, Hr; [by injection Hr as <-|].
  apply andb_prop in Hl as [Hna Hl].
  destruct (exec n grow a x) as [x1|] eqn:Ha; [|done]. eapply rtc_l; [by exists a|]. by apply IH.
Qed.

(** C17: the rule that a scheduler which finds the lock taken need not wake anybody
    loses a wake-up.  There is a reachable state with a task in the global queue in
    which every call of [schedule_global] has returned, one worker waits for I/O
    without a pending wake-up, the other one sleeps, and no thread can take a
    step. *)
Theorem executor_loses_wakeup :
  ∃ x : xstate (list nat) nat,
    xreachable 2 S x ∧ x_global x = [20] ∧ x_scheds x = ∅ ∧
    ∀ a, internal a → exec 2 S a x = None.
Proof.
  destruct (run_actions 2 S (both_asleep ++ first_task ++ second_task) (x_init (G := list nat) (T := nat) 2))
    as [x|] eqn:Hrun; [|by vm_compute in Hrun].
  exists x. split; [by eapply run_reachable; [|exact Hrun]; vm_compute|].
  vm_compute in Hrun. injection Hrun as <-. split_and!; [done|done|].
  by intros [[|[|i]]|s| | | |] Hi.
Qed.

(** One spurious return breaks the protocol: worker 1 wakes up although its index
    is queued, finds no task, sees no mark and pushes its index again. *)
Theorem spurious_return_breaks_protocol :
  ∃ x : xstate (list nat) nat,
    run_actions 2 S (both_asleep ++ ASpurious 1 :: steps_of 1 4) (x_init 2) = Some x ∧
    queue (x_map x) = [1] ∧ s_pushers (x_map x) !! 1 = Some (PushStore 1).
Proof. eexists. split; [vm_compute; reflexivity|]. split; vm_compute; reflexivity. Qed.

Definition one_queued : xstate (list nat) nat :=
  default (x_init 2) (run_actions 2 S (both_asleep ++ [ACall 0 10; ASched 0]) (x_init 2)).

Lemma one_queued_reachable : xreachable 2 S one_queued.
Proof.
  apply (run_reachable 2 S (both_asleep ++ [ACall 0 10; ASched 0])); vm_compute; reflexivity.
Qed.


Lemma executor_serves_global_queue_witness :
  ∃ a x', internal a ∧ exec 2 S a one_queued = Some x'.
Proof.
  destruct (executor_serves_global_queue 2 S one_queued) as [_ Hgo].
  - lia.
  - apply one_queued_reachable.
  - vm_compute. reflexivity.
  - vm_compute. discriminate.
  - exact Hgo.
Defined.
