(* ===== verification/Threads.v ===== *)
(** * Threads: starting the workers, and blocking on a future (src/src/lib.rs)

    [std::thread::park] blocks until the thread's token is set and takes it;
    [unpark] sets it, so that it does not matter which of the two comes first.
    [init_workers] and [block_on] rely on this: [Startup] has the main thread
    and the new workers interleaved, [BlockOn] the blocked thread and whoever wakes
    it. *)

From S2P Require Import Prelude SlotMap SlotMapConc JoinHandle Executor.

(** ** Starting the workers *)

Module Startup.

(** The closure of a new thread: before [workers.get()], in [park], in
    [run_forever]. *)
Inductive thread_pc : Type :=
| TCheck
| TPark
| TRun.

(** [init_workers]: its first loop, [workers.set], its second loop. *)
Inductive main_pc : Type :=
| MSpawn
| MSet
| MUnpark (i : nat)
| MReturn.

(** A thread with its token. *)
Record thread : Type := mkThread { th_pc : thread_pc; th_token : bool }.

(** [s_vec] is the local [workers] of [init_workers], [s_workers] the [OnceLock]. *)
Record state : Type := mkState {
  s_main : main_pc;
  s_vec : list Worker;
  s_workers : option (list Worker);
  s_threads : list thread;
}.

Inductive action : Type :=
| AMain
| AThread (i : nat)
| ASpurious (i : nat).

Section startup.
Context (n : nat).

Definition init_workers_step (st : state) : option state :=
  match s_main st with
  | MSpawn =>
      if decide (length (s_vec st) < n) then
        Some (mkState MSpawn (s_vec st ++ [mkWorker None 0]) (s_workers st)
                (s_threads st ++ [mkThread TCheck false]))
      else Some (mkState MSet (s_vec st) (s_workers st) (s_threads st))
  | MSet =>
      match s_workers st with
      | None => Some (mkState (MUnpark 0) [] (Some (s_vec st)) (s_threads st))
      | Some _ => None
      end
  | MUnpark i =>
      ws ← s_workers st;
      if decide (i < length ws) then
        th ← s_threads st !! i;
        Some (mkState (MUnpark (S i)) (s_vec st) (s_workers st)
                (<[i := mkThread (th_pc th) true]> (s_threads st)))
      else Some (mkState MReturn (s_vec st) (s_workers st) (s_threads st))
  | MReturn => None
  end.

Definition worker_thread_step (i : nat) (th : thread) (st : state) : option state :=
  let goto th := mkState (s_main st) (s_vec st) (s_workers st) (<[i := th]> (s_threads st)) in
  match th_pc th with
  | TCheck =>
      match s_workers st with
      | None => Some (goto (mkThread TPark (th_token th)))
      | Some _ => Some (goto (mkThread TRun (th_token th)))
      end
  | TPark => if th_token th then Some (goto (mkThread TCheck false)) else None
  | TRun => None
  end.

(** [park] may also return without a token. *)
Definition step (a : action) (st : state) : option state :=
  match a with
  | AMain => init_workers_step st
  | AThread i => th ← s_threads st !! i; worker_thread_step i th st
  | ASpurious i =>
      th ← s_threads st !! i;
      match th_pc th with
      | TPark => Some (mkState (s_main st) (s_vec st) (s_workers st)
                         (<[i := mkThread TCheck (th_token th)]> (s_threads st)))
      | _ => None
      end
  end.

Definition start : state := mkState MSpawn [] None [].

Definition reaches (st : state) : Prop := rtc (λ s s', ∃ a, step a s = Some s') start st.

(** ** The invariant *)

(** The threads that [unpark] was called for. *)
Definition unparked (pc : main_pc) : nat :=
  match pc with MSpawn | MSet => 0 | MUnpark i => i | MReturn => n end.

Record start_inv (st : state) : Prop := {
  si_vec : match s_main st with
           | MSpawn => length (s_vec st) ≤ n ∧ length (s_threads st) = length (s_vec st)
           | MSet => length (s_vec st) = n ∧ length (s_threads st) = n
           | _ => length (s_threads st) = n
           end;
  si_new : Forall (eq (mkWorker None 0)) (s_vec st);
  si_workers : match s_main st with
               | MSpawn | MSet => s_workers st = None
               | _ => s_workers st = Some (replicate n (mkWorker None 0))
               end;
  si_main : unparked (s_main st) ≤ n;
  (** a thread that parks has a token once it was unparked *)
  si_token : ∀ i th, s_threads st !! i = Some th → i < unparked (s_main st) →
    th_pc th = TPark → th_token th = true;
  si_run : ∀ i th, s_threads st !! i = Some th → th_pc th = TRun → s_workers st ≠ None;
}.

Lemma start_inv_start : start_inv start.
Proof. split; cbn; try done; [lia|lia|by intros i th; rewrite lookup_nil..]. Qed.

Lemma start_inv_main st st' : start_inv st → init_workers_step st = Some st' → start_inv st'.
Proof.
  intros [Hv Hnew Hw Hm Ht Hr] Hs. unfold init_workers_step in Hs.
  destruct (s_main st) as [| |i|] eqn:Hpc; [| | |done].
  - case_decide as Hlt; injection Hs as <-; (split; cbn; try done).
    + rewrite !length_app. cbn. lia.
    + apply Forall_app. by repeat constructor.
    + lia.
    + intros i th Hi Hpi. apply lookup_app_Some in Hi as [Hi|[_ Hi]]; [by eapply Hr|].
      by apply list_lookup_singleton_Some in Hi as [_ <-].
    + lia.
  - rewrite Hw in Hs. injection Hs as <-. destruct Hv as [Hlv Hlt]. split; cbn; try done.
    f_equal. symmetry. by apply replicate_as_Forall_2.
  - rewrite Hw in Hs. cbn in Hs. rewrite length_replicate in Hs. cbn in Hm.
    case_decide as Hlt;
      [destruct (s_threads st !! i) as [th|] eqn:Hi; [|done]|]; injection Hs as <-; (split; cbn; try done).
    + by rewrite length_insert.
    + intros j th1 [(<- & <- & _)|[Hne Hj]]%list_lookup_insert_Some Hlj Hpj; [done|].
      apply (Ht j th1); [done|cbn; lia|done].
    + intros j th Hj _ Hpj. apply (Ht j th); [done| |done]. cbn. apply lookup_lt_Some in Hj. lia.
Qed.

Lemma start_inv_thread st i th th' :
  start_inv st → s_threads st !! i = Some th →
  (th_pc th' = TPark → i < unparked (s_main st) → False) →
  (th_pc th' = TRun → s_workers st ≠ None) →
  start_inv (mkState (s_main st) (s_vec st) (s_workers st) (<[i := th']> (s_threads st))).
Proof.
  intros [Hv Hnew Hw Hm Ht Hr] Hi Hpark Hrun. split; cbn; try done.
  - by rewrite length_insert.
  - intros j th1 [(<- & <- & _)|[_ Hj]]%list_lookup_insert_Some Hlj Hpj; [by destruct Hpark|by eapply Ht].
  - intros j th1 [(<- & <- & _)|[_ Hj]]%list_lookup_insert_Some Hpj; [by apply Hrun|by eapply Hr].
Qed.

(** Nothing was unparked before the workers were set. *)
Lemma unparked_set st i : start_inv st → i < unparked (s_main st) → s_workers st ≠ None.
Proof. intros [_ _ Hw _ _ _] Hi. destruct (s_main st); cbn in Hi; [lia..|by rewrite Hw|by rewrite Hw]. Qed.

Lemma start_inv_step st a st' : start_inv st → step a st = Some st' → start_inv st'.
Proof.
  intros Hinv Hs. destruct a as [|i|i]; cbn in Hs.
  - by eapply start_inv_main.
  - destruct (s_threads st !! i) as [th|] eqn:Hi; [|done]. cbn in Hs. unfold worker_thread_step in Hs.
    destruct (th_pc th); [| |done].
    + destruct (s_workers st) eqn:Hw; injection Hs as <-;
        rewrite <- Hw; (apply start_inv_thread with th; [done|done|cbn|cbn]); try done.
      * by rewrite Hw.
      * intros _ Hlt. by apply (unparked_set st i Hinv Hlt).
    + destruct (th_token th); [|done]. injection Hs as <-. by apply start_inv_thread with th.
  - destruct (s_threads st !! i) as [th|] eqn:Hi; [|done]. cbn in Hs.
    destruct (th_pc th); try done. injection Hs as <-. by apply start_inv_thread with th.
Qed.

Lemma reaches_inv st : reaches st → start_inv st.
Proof.
  apply (rtc_ind_r start_inv); [apply start_inv_start|]. intros y z _ [a Ha] Hy. by eapply start_inv_step.
Qed.

(** ** Termination *)

Definition main_left (st : state) : nat :=
  match s_main st with
  | MSpawn => (n - length (s_vec st)) + n + 3
  | MSet => n + 2
  | MUnpark i => (n - i) + 1
  | MReturn => 0
  end.

Definition thread_left (th : thread) : nat :=
  (match th_pc th with TCheck => 2 | TPark => 1 | TRun => 0 end) + (if th_token th then 2 else 0).

(** The steps that are left, spurious returns of [park] apart. *)
Definition steps_left (st : state) : nat :=
  3 * main_left st + sum_list_with thread_left (s_threads st).

Lemma steps_left_decrease st a st' :
  start_inv st → (∀ i, a ≠ ASpurious i) → step a st = Some st' → steps_left st' < steps_left st.
Proof.
  intros [Hv Hnew Hw Hm Ht Hr] Hns Hs. unfold steps_left. destruct a as [|i|i]; cbn in Hs.
  - unfold init_workers_step in Hs. unfold main_left. destruct (s_main st) as [| |i|] eqn:Hpc; [| | |done].
    + case_decide; injection Hs as <-; cbn -[Nat.mul]; [|lia].
      rewrite sum_list_with_app, length_app. cbn. lia.
    + rewrite Hw in Hs. injection Hs as <-. cbn. lia.
    + rewrite Hw in Hs. cbn in Hs. rewrite length_replicate in Hs. case_decide; [|injection Hs as <-; cbn -[Nat.mul]; lia].
      destruct (s_threads st !! i) as [th|] eqn:Hth; [|done]. injection Hs as <-. cbn -[Nat.mul].
      pose proof (sum_list_with_insert thread_left i th (mkThread (th_pc th) true) (s_threads st) Hth) as Hsum.
      unfold thread_left in Hsum at 2 4. cbn in Hsum. destruct (th_token th); lia.
  - destruct (s_threads st !! i) as [th|] eqn:Hi; [|done]. cbn in Hs. unfold worker_thread_step in Hs.
    assert (∀ th', thread_left th' < thread_left th →
      sum_list_with thread_left (<[i := th']> (s_threads st)) < sum_list_with thread_left (s_threads st)) as Hlt.
    { intros th' Hlt. pose proof (sum_list_with_insert thread_left i th th' _ Hi). lia. }
    unfold thread_left in Hlt at 2. destruct (th_pc th) eqn:Hpc; [| |done].
    + destruct (s_workers st); injection Hs as <-; apply Nat.add_lt_mono_l, Hlt; cbn; lia.
    + destruct (th_token th); [|done]. injection Hs as <-. apply Nat.add_lt_mono_l, Hlt. cbn. lia.
  - by destruct (Hns i).
Qed.
End startup.

(** ** Properties *)

(** C18: starting the runtime works whatever the order of the threads.  No thread
    enters [run_forever] before the workers are published, all [n] of them and none
    parked; every step but a spurious return of [park] brings the start-up closer to
    its end; and where no thread can step, [init_workers] has returned and all
    workers are in [run_forever]: none is left parked. *)
Theorem startup_reaches_run_forever n st :
  reaches n st →
  (∀ i th, s_threads st !! i = Some th → th_pc th = TRun →
     s_workers st = Some (replicate n (mkWorker None 0))) ∧
  (∀ a st', (∀ i, a ≠ ASpurious i) → step n a st = Some st' → steps_left n st' < steps_left n st) ∧
  ((∀ a, (∀ i, a ≠ ASpurious i) → step n a st = None) →
     s_main st = MReturn ∧ length (s_threads st) = n ∧
     ∀ i th, s_threads st !! i = Some th → th_pc th = TRun).
Proof.
  intros Hinv%reaches_inv. split_and!.
  - intros i th Hi Hpc. pose proof (si_run _ _ Hinv i th Hi Hpc) as Hne.
    pose proof (si_workers _ _ Hinv) as Hw. by destruct (s_main st); rewrite Hw in Hne |- *.
  - intros a st' Hns Hs. by eapply steps_left_decrease.
  - intros Hstuck. destruct Hinv as [Hv Hnew Hw Hm Ht Hr].
    assert (s_main st = MReturn) as Hret.
    { pose proof (Hstuck AMain ltac:(done)) as Hmain. cbn in Hmain. unfold init_workers_step in Hmain.
      destruct (s_main st) as [| |j|]; [case_decide|rewrite Hw in Hmain|rewrite Hw in Hmain|]; try done.
      cbn in Hmain. rewrite length_replicate in Hmain. case_decide; [|done].
      destruct (lookup_lt_is_Some_2 (s_threads st) j) as [th Hth]; [lia|]. by rewrite Hth in Hmain. }
    rewrite Hret in Hv, Hw, Ht. split_and!; [done|done|]. intros i th Hi.
    pose proof (Hstuck (AThread i) ltac:(done)) as Hth. cbn in Hth. rewrite Hi in Hth. cbn in Hth.
    unfold worker_thread_step in Hth. rewrite Hw in Hth. destruct (th_pc th) eqn:Hpc; [done| |done].
    apply lookup_lt_Some in Hi as Hlt. rewrite (Ht i th Hi) in Hth; [done|cbn; lia|done].
Qed.

(** Two workers; the first one parks before the workers are set. *)
Definition started : state :=
  mkState MReturn [] (Some [mkWorker None 0; mkWorker None 0]) [mkThread TRun false; mkThread TRun true].

Lemma started_reaches : reaches 2 started.
Proof.
  assert (∀ l st, foldl (λ o a, o ≫= step 2 a) (Some st) l = Some started →
    rtc (λ s s', ∃ a, step 2 a s = Some s') st started) as Hrun.
  { induction l as [|a l IH]; intros st Hl; cbn in Hl; [by injection Hl as ->|].
    destruct (step 2 a st) as [st1|] eqn:Ha; [eapply rtc_l; [by exists a|]; by apply IH|].
    exfalso. clear -Hl. by induction l. }
  apply (Hrun [AMain; AThread 0; AMain; AMain; AMain; AThread 1; AMain; AThread 0; AThread 0; AMain; AMain]).
  vm_compute. reflexivity.
Qed.

Lemma startup_reaches_run_forever_witness :
  s_workers started = Some (replicate 2 (mkWorker None 0)) ∧
  ∀ i th, s_threads started !! i = Some th → th_pc th = TRun.
Proof.
  destruct (startup_reaches_run_forever 2 started started_reaches) as (Hrun & _ & Hend). split.
  - exact (Hrun 0 (mkThread TRun false) eq_refl eq_refl).
  - apply Hend. intros [|[|[|i]]|i] Hns; try reflexivity. by destruct (Hns i).
Defined.
End Startup.


(** ** Blocking on a future *)

Module BlockOn.

(** A future that shares [E] with the rest of the program, which acts on it by
    [A]: [sf_env] says whether an action wakes the waker of the last poll. *)
Class SharedFuture (E A F O P : Type) : Type := {
  sf_poll : E → F → result (poll O) P * F * E;
  sf_env : A → E → E * bool;
}.

(** The contract of [Future::poll]: when it returns [Pending], the future stays
    pending until the waker is woken. *)
Class WakingFuture E A F O P `{SharedFuture E A F O P} : Type := {
  sf_waiting : E → F → Prop;
  sf_poll_waits : ∀ e f f' e', sf_poll e f = (Ok Pending, f', e') → sf_waiting e' f';
  sf_env_waits : ∀ a e f e', sf_waiting e f → sf_env a e = (e', false) → sf_waiting e' f;
  sf_waiting_pending : ∀ e f, sf_waiting e f → (sf_poll e f).1.1 = Ok Pending;
}.

(** The loop of [block_on]: about to poll, in [park], left (with the value of the
    future or unwinding). *)
Inductive block_pc (F O P : Type) : Type :=
| BPoll (f : F)
| BPark (f : F)
| BDone (r : result O P).
Arguments BPoll {F O P} f.
Arguments BPark {F O P} f.
Arguments BDone {F O P} r.

(** [b_wakers]: calls of [ThreadWaker::wake_by_ref] that have not yet reached
    [unpark]. *)
Record state (E F O P : Type) : Type := mkState {
  b_pc : block_pc F O P;
  b_env : E;
  b_wakers : nat;
  b_token : bool;
}.
Arguments mkState {E F O P} b_pc b_env b_wakers b_token.
Arguments b_pc {E F O P}.
Arguments b_env {E F O P}.
Arguments b_wakers {E F O P}.
Arguments b_token {E F O P}.

Inductive action (A : Type) : Type :=
| AThread
| ASpurious
| AEnv (a : A)
| AWake.
Arguments AThread {A}.
Arguments ASpurious {A}.
Arguments AEnv {A} a.
Arguments AWake {A}.

Section block_on.
Context {E A F O P : Type} `{WakingFuture E A F O P}.
Implicit Types st : state E F O P.

(** One turn of the loop is a poll and a [park]. *)
Definition block_on_step st : option (state E F O P) :=
  match b_pc st with
  | BPoll f =>
      let '(r, f, e) := sf_poll (b_env st) f in
      Some match r with
           | Ok (Ready_ v) => mkState (BDone (Ok v)) e (b_wakers st) (b_token st)
           | Ok Pending => mkState (BPark f) e (b_wakers st) (b_token st)
           | Err panic => mkState (BDone (Err panic)) e (b_wakers st) (b_token st)
           end
  | BPark f => if b_token st then Some (mkState (BPoll f) (b_env st) (b_wakers st) false) else None
  | BDone _ => None
  end.

(** [<ThreadWaker as Wake>::wake_by_ref]. *)
Definition ThreadWaker_wake_by_ref st : option (state E F O P) :=
  match b_wakers st with
  | S k => Some (mkState (b_pc st) (b_env st) k true)
  | 0 => None
  end.

Definition step (a : action A) st : option (state E F O P) :=
  match a with
  | AThread => block_on_step st
  | ASpurious =>
      match b_pc st with
      | BPark f => Some (mkState (BPoll f) (b_env st) (b_wakers st) (b_token st))
      | _ => None
      end
  | AEnv a =>
      let '(e, wakes) := sf_env a (b_env st) in
      Some (mkState (b_pc st) e (if wakes : bool then S (b_wakers st) else b_wakers st) (b_token st))
  | AWake => ThreadWaker_wake_by_ref st
  end.

(** The thread's token is not known when [block_on] starts. *)
Definition start (f : F) (e : E) (token : bool) : state E F O P := mkState (BPoll f) e 0 token.

Definition reaches (f : F) (e : E) (token : bool) : state E F O P → Prop :=
  rtc (λ s s', ∃ a, step a s = Some s') (start f e token).

Definition awake st : Prop :=
  match b_pc st with
  | BPark f => b_token st = true ∨ 0 < b_wakers st ∨ sf_waiting (b_env st) f
  | _ => True
  end.

Lemma awake_step a st st' : awake st → step a st = Some st' → awake st'.
Proof.
  destruct st as [p e k tok]. unfold awake. intros Hst Hs. destruct a as [| |a|]; cbn in *.
  - unfold block_on_step in Hs. cbn in Hs. destruct p as [f|f|r]; [| |done].
    + destruct (sf_poll e f) as [[[[v|]|panic] f'] e'] eqn:Hp; injection Hs as <-; cbn; [done| |done].
      right; right. by eapply sf_poll_waits.
    + destruct tok; [|done]. by injection Hs as <-.
  - destruct p; try done. by injection Hs as <-.
  - destruct (sf_env a e) as [e' wakes] eqn:Ha. injection Hs as <-. destruct p as [f|f|r]; cbn; [done| |done].
    destruct wakes; [right; left; lia|]. destruct Hst as [?|[?|?]]; [auto|auto|].
    right; right. by eapply sf_env_waits.
  - unfold ThreadWaker_wake_by_ref in Hs. cbn in Hs. destruct k; [done|]. injection Hs as <-. cbn. by destruct p; [|left|].
Qed.

Lemma reaches_awake f e token st : reaches f e token st → awake st.
Proof. apply (rtc_ind_r awake); [done|]. intros y z _ [a Ha] Hy. by eapply awake_step. Qed.

(** C19: [block_on] loses no wake-up.  For a future that keeps the contract of
    [Future::poll], in whatever order the thread polls and parks and others act on
    what it shares with the future and call its waker: where neither the thread can
    step nor a [wake] is under way, [block_on] has left its loop or the future is
    still pending.  So the thread never sleeps on a future that is ready. *)
Theorem block_on_sleeps_only_while_pending (f : F) (e : E) (token : bool) st :
  reaches f e token st →
  step AThread st = None → step AWake st = None →
  match b_pc st with
  | BPoll _ => False
  | BPark f => (sf_poll (b_env st) f).1.1 = Ok Pending
  | BDone _ => True
  end.
Proof.
  intros Hst%reaches_awake Ht Hw. destruct st as [p env k tok].
  unfold awake, block_on_step, ThreadWaker_wake_by_ref in *. cbn in *. unfold block_on_step, ThreadWaker_wake_by_ref in *. cbn in *.
  destruct p as [f1|f1|r]; [|destruct tok; [done|]|done].
  - by destruct (sf_poll env f1) as [[??]?].
  - destruct k; [|done]. apply sf_waiting_pending. destruct Hst as [?|[?|?]]; [done|lia|done].
Qed.
End block_on.

(** A one-shot channel: whether the receiver's waker is stored, and the value. *)
Local Instance channel : SharedFuture (bool * option nat) nat unit nat () := {
  sf_poll e f := match e.2 with Some v => (Ok (Ready_ v), f, e) | None => (Ok Pending, f, (true, None)) end;
  sf_env v e := ((false, Some v), e.1);
}.

Local Program Instance channel_wakes : WakingFuture (bool * option nat) nat unit nat () := {
  sf_waiting e _ := e = (true, None);
}.
Next Obligation. intros [reg [v|]] f f' e' Hp; by simplify_eq/=. Qed.
Next Obligation. intros a e f e' -> Hs. by simplify_eq/=. Qed.
Next Obligation. by intros e f ->. Qed.

(** The receiver parks, a spurious return makes it poll again, and it parks; had
    the value been sent, it would return it. *)
Lemma block_on_sleeps_only_while_pending_witness :
  let parked := mkState (BPark ()) (true, None) 0 false in
  let returned := mkState (BDone (Ok 7)) (false, Some 7) 0 false in
  reaches () (false, None) false parked ∧ reaches () (false, None) false returned ∧
  (sf_poll (true, None) ()).1.1 = Ok Pending.
Proof.
  assert (reaches () (false, None) false (mkState (BPark ()) (true, None) 0 false)) as Hp.
  { by apply rtc_once; exists AThread. }
  split_and!; [done| |exact (block_on_sleeps_only_while_pending _ _ _ _ Hp eq_refl eq_refl)].
  unfold reaches in *. etransitivity; [exact Hp|]. eapply rtc_l; [by exists ASpurious|]. eapply rtc_l; [by exists AThread|].
  eapply rtc_l; [by exists (AEnv 7)|]. eapply rtc_l; [by exists AWake|]. eapply rtc_l; [by exists AThread|].
  by apply rtc_once; exists AThread.
Defined.

(** *** The whole function *)

Section whole.
Context {F O P C T : Type} `{UserFuture F O P C}.

(** The future after [k] polls. *)
Definition polled (cx : C) (k : nat) (f : F) : F := Nat.iter k (λ f, (fut_poll cx f).2) f.

Lemma polled_succ cx k f : polled cx k (fut_poll cx f).2 = polled cx (S k) f.
Proof. unfold polled. by rewrite Nat.iter_succ_r. Qed.

Lemma block_on_turns (cx : C) fuel k (f : F) :
  (∀ i, i < k → (fut_poll cx (polled cx i f)).1 = Ok Pending) →
  loop (k + fuel) (block_on_turn cx) f = loop fuel (block_on_turn cx) (polled cx k f).
Proof.
  revert f. induction k as [|k IH]; intros f Hk; [done|]. cbn [Nat.add].
  assert (block_on_turn cx f = Done (Continue (fut_poll cx f).2)) as Hturn.
  { specialize (Hk 0 ltac:(lia)). unfold block_on_turn. cbn in Hk.
    destruct (fut_poll cx f) as [r f']. cbn in *. by rewrite Hk. }
  rewrite (loop_continue _ _ _ _ Hturn), IH, polled_succ; [done|].
  intros i Hi. rewrite polled_succ. apply Hk. lia.
Qed.

(** Outside of a runtime, [block_on] polls the future until a poll does not
    return [Pending], returns that value or passes the panic on, and leaves the
    thread without a current executor either way; within a runtime it panics and
    leaves the current executor as it was. *)
Theorem block_on_first_ready (cx : current T → C) id (f : F) k (r : result O P) fuel :
  let here := cx (Some (id, mkExecutor usize_max (mkVecDeque [] 0))) in
  (∀ i, i < k → (fut_poll here (polled here i f)).1 = Ok Pending) →
  (fut_poll here (polled here k f)).1 = match r with Ok v => Ok (Ready_ v) | Err panic => Err panic end →
  k < fuel →
  block_on fuel cx id f None = (Done r, None) ∧
  ∀ e, block_on fuel cx id f (Some e) = (Panic, Some e).
Proof.
  intros here Hk Hr Hfuel. split; [|done]. unfold block_on. fold here. f_equal.
  replace fuel with (k + (fuel - k)) by lia. rewrite block_on_turns by done.
  apply loop_break; [|lia]. unfold block_on_turn. destruct (fut_poll here _) as [r' f']. cbn in Hr. subst r'.
  by destruct r.
Qed.
End whole.

(** A future that is ready at its third poll and panics at its fourth. *)
Local Instance countdown : UserFuture nat nat nat unit :=
  λ _ n, match n with
         | 2 => (Ok (Ready_ 42), 3)
         | 3 => (Err 500, 3)
         | _ => (Ok Pending, S n)
         end.

Lemma block_on_first_ready_witness :
  block_on 3 (λ _, ()) 1 0 (None : current nat) = (Done (Ok 42), None) ∧
  block_on 1 (λ _, ()) 1 3 (None : current nat) = (Done (Err 500), None).
Proof.
  split.
  - apply (block_on_first_ready (T := nat) (λ _, ()) 1 0 2 (Ok 42)); [|reflexivity|lia].
    intros [|[|i]] Hi; [reflexivity|reflexivity|lia].
  - apply (block_on_first_ready (T := nat) (λ _, ()) 1 3 0 (Err 500)); [lia|reflexivity|lia].
Defined.
End BlockOn.
