(* ===== verification/IoDriver.v ===== *)
(** * IoDriver: the event loop of the I/O driver (src/src/io/mod.rs)

    [IODriver] polls the operating system and delivers events to the resources
    in the slab; [Handle] registers resources.  The mio registry, poll and
    waker and the [sharded_slab] pool are not part of the repository: they are
    the classes [Mio] and [Pool], with the documented behaviour of the pool in
    [PoolLaws]. *)

From Stdlib Require Import String.
From S2P Require Import Prelude Bits Ready PinList ScheduledIo.

Local Open Scope Z_scope.

(** ** I/O errors *)

(** The kinds of [std::io::ErrorKind] that the program names. *)
Inductive ErrorKind : Type :=
| Interrupted
| WouldBlock
| OutOfMemory
| InvalidInput
| Other
| AnotherKind (n : nat).

#[export] Instance ErrorKind_eq_dec : EqDecision ErrorKind.
Proof. solve_decision. Defined.

Record io_error : Type := mkIoError { err_kind : ErrorKind; err_message : string }.

Abbreviation io_result A := (result A io_error).

(** [ErrorKind::into()]. *)
Definition error_of_kind (k : ErrorKind) : io_error := mkIoError k "".

(** ** Interfaces *)

(** [mio::Poll], [mio::Registry] and [mio::Waker]. *)
Class Mio (Q R K S Ev I : Type) : Type := {
  mio_poll_new : io_result Q;
  mio_poll : option Z → Q → io_result unit * list Ev * Q;
  mio_registry : Q → R;
  mio_try_clone : R → io_result R;
  mio_waker_new : R → Z → io_result K;
  mio_waker_wake : K → io_result unit * K;
  mio_register : S → Z → I → R → io_result unit * S * R;
  mio_deregister : S → R → io_result unit * S * R;
}.

(** [<SlabConfig as sharded_slab::Config>::RESERVED_BITS]: the bits of a key that the
    pool leaves to its user. *)
Definition RESERVED_BITS : Z := 8.

(** [sharded_slab::Pool]: slots by key; a reference to a slot gives shared access
    to its atomics and its mutex, so writing through it changes the slot. *)
Class Pool (Po V : Type) : Type := {
  pool_used_bits : Z;
  pool_new : Po;
  pool_create : Po → option (Z * Po);
  pool_get : Z → Po → option V;
  pool_write : Z → V → Po → Po;
  pool_clear : Z → Po → Po;
}.

Section pool_laws.
Context {Po L C W I : Type} `{PinListOps L C W I, !Pool Po (ScheduledIo L W)}.

Definition pool_address (key : Z) : Z := key mod 2 ^ pool_used_bits.

Class PoolLaws : Type := {
  (** the occupied slots, by the part of the key that the pool uses *)
  pool_view : Po → gmap Z (ScheduledIo L W);
  pool_bits : 0 < pool_used_bits ≤ 64 - RESERVED_BITS;
  pool_new_view : pool_view pool_new = ∅;
  (** a new entry has a key of its own; its slot is new or was cleared *)
  pool_create_view p k p' :
    pool_create p = Some (k, p') →
    0 ≤ k < 2 ^ pool_used_bits ∧ pool_view p !! k = None ∧
    ∃ v, pool_view p' = <[k := v]> (pool_view p) ∧
         (v = ScheduledIo_default ∨ ∃ old, ScheduledIo_clear old = Done v);
  (** the bits of a key that the pool does not use are the user's *)
  pool_get_view k p : pool_get k p = pool_view p !! pool_address k;
  pool_write_view k v p :
    is_Some (pool_get k p) → pool_view (pool_write k v p) = <[pool_address k := v]> (pool_view p);
  pool_clear_view k p : pool_view (pool_clear k p) = delete (pool_address k) (pool_view p);
}.
End pool_laws.
Arguments PoolLaws Po L C W I {_ _}.

(** ** Definitions *)

Definition WAKE_TOKEN : Z := usize_max.

Section driver.
Context {Q R K S Ev L C W I Po : Type}.
Context `{Mio Q R K S Ev I, MioEvent Ev, PinListOps L C W I, MioInterest I, !Pool Po (ScheduledIo L W)}.

Record IODriver : Type := mkIODriver {
  drv_events : list Ev;
  drv_poll : Q;
  drv_tick : Z;
}.

Record Handle : Type := mkHandle {
  h_registry : R;
  h_slab : Po;
  h_waker : K;
}.

Definition with_slab (p : Po) (h : Handle) : Handle := mkHandle (h_registry h) p (h_waker h).

(** [Result::unwrap]. *)
Definition unwrap_io {A} (r : io_result A) : outcome A :=
  match r with Ok a => Done a | Err _ => Panic end.

Definition IODriver_new : outcome (IODriver * Handle) :=
  poll ← unwrap_io mio_poll_new;
  let driver := mkIODriver [] poll 0 in
  let registry := mio_registry (drv_poll driver) in
  clone ← unwrap_io (mio_try_clone registry);
  waker ← unwrap_io (mio_waker_new registry WAKE_TOKEN);
  mret (driver, mkHandle clone pool_new waker).

(** The body of [for event in events.iter()]: the slab and the wakers woken. *)
Definition handle_event (fuel : nat) (freebsd : bool) (tick : Z) (slab : Po) (event : Ev)
    : outcome (Po * list W) :=
  let token := event_token event in
  if decide (token = WAKE_TOKEN) then mret (slab, [])
  else
    match pool_get token slab with
    | Some waker =>
        let ready := Ready_from_mio freebsd event in
        waker ← ScheduledIo_set_readiness fuel quiet waker (Tick_Set tick)
                  (λ curr, Ready_bitor curr ready);
        '(waker, woken) ← ScheduledIo_wake fuel waker ready;
        mret (pool_write token waker slab, woken)
    | None => mret (slab, [])
    end.

Fixpoint handle_events (fuel : nat) (freebsd : bool) (tick : Z) (slab : Po) (events : list Ev)
    : outcome (Po * list W) :=
  match events with
  | [] => mret (slab, [])
  | event :: events =>
      '(slab, woken) ← handle_event fuel freebsd tick slab event;
      '(slab, woken') ← handle_events fuel freebsd tick slab events;
      mret (slab, woken ++ woken')
  end.

Definition IODriver_poll_timeout (fuel : nat) (freebsd : bool) (self : IODriver)
    (handle : Handle) (timeout : option Z) : outcome (IODriver * Handle * list W) :=
  let tick := u8_wrapping_add (drv_tick self) 1 in
  let '(r, events, poll) := mio_poll timeout (drv_poll self) in
  _ ← match r with
      | Ok _ => mret ()
      | Err e => if decide (err_kind e = Interrupted) then mret () else Panic
      end;
  '(slab, woken) ← handle_events fuel freebsd tick (h_slab handle) events;
  mret (mkIODriver events poll tick, with_slab slab handle, woken).

Definition Handle_slab_entry (self : Handle) : option (Z * Handle) :=
  '(key, slab) ← pool_create (h_slab self);
  Some (key, with_slab slab self).

(** The local constants of [add_source]. *)
Definition ADDRESS : outcome Pack := Pack_least_significant pool_used_bits.
Definition TOKEN_GENERATION : outcome Pack := address ← ADDRESS; Pack_then address 7.

(** [GENERATION.pack(entry.generation(), ADDRESS.pack(entry.key(), 0))] *)
Definition source_token (entry : ScheduledIo L W) (key : Z) : outcome Z :=
  address ← ADDRESS;
  generation_pack ← TOKEN_GENERATION;
  generation ← ScheduledIo_generation entry;
  base ← Pack_pack address key 0;
  Pack_pack generation_pack generation base.

Definition Handle_add_source (self : Handle) (source : S) (interest : I)
    : outcome (io_result Z * S * Handle) :=
  match Handle_slab_entry self with
  | None =>
      mret (Err (mkIoError OutOfMemory "could not allocate slot for IO entry"), source, self)
  | Some (key, self) =>
      entry ← unwrap (pool_get key (h_slab self));
      token ← source_token entry key;
      let '(r, source, registry) := mio_register source token interest (h_registry self) in
      let self := mkHandle registry (h_slab self) (h_waker self) in
      match r with
      | Ok _ => mret (Ok key, source, self)
      | Err e => mret (Err e, source, self)
      end
  end.

Definition Handle_deregister_source (self : Handle) (source : S)
    : io_result unit * S * Handle :=
  let '(r, source, registry) := mio_deregister source (h_registry self) in
  (r, source, mkHandle registry (h_slab self) (h_waker self)).

(** [self.waker.wake().unwrap()]. *)
Definition Handle_wake (self : Handle) : outcome Handle :=
  let '(r, waker) := mio_waker_wake (h_waker self) in
  _ ← unwrap_io r;
  mret (mkHandle (h_registry self) (h_slab self) waker).
End driver.

Arguments IODriver : clear implicits.
Arguments Handle : clear implicits.

(** ** Tokens *)

Section token.
Context {L C W I Po : Type} `{PinListOps L C W I, !Pool Po (ScheduledIo L W), !PoolLaws Po L C W I}.

(** Two adjacent fields are a sum. *)
Lemma adjacent_fields u g k :
  0 ≤ u → 0 ≤ g < 2 ^ 7 → 0 ≤ k < 2 ^ u →
  field_set 7 u g (field_set u 0 k 0) = k + g * 2 ^ u.
Proof.
  intros Hu Hg Hk. unfold field_set. rewrite Z.ldiff_0_l, Z.lor_0_l, Z.shiftl_0_r.
  assert (Z.ldiff k (Z.shiftl (Z.ones 7) u) = k) as ->.
  { bitwise i. all: by rewrite (testbit_small k u) by lia. }
  assert (Z.land k (Z.shiftl g u) = 0) as Hd.
  { bitwise i. destruct (decide (i < u)).
    - rewrite (Z.testbit_neg_r g) by lia. apply andb_false_r.
    - by rewrite (testbit_small k u) by lia. }
  rewrite <- Z.lxor_lor, <- Z.add_nocarry_lxor by done. by rewrite Z.shiftl_mul_pow2.
Qed.

Abbreviation U := (pool_used_bits (Po := Po) (V := ScheduledIo L W)).

Lemma below_used_bits x : 0 ≤ x < 2 ^ U → usize_ok x.
Proof using PoolLaws0.
  intros Hx. pose proof (pool_bits (Po := Po) (L := L) (W := W)) as Hu. unfold RESERVED_BITS in Hu.
  unfold usize_ok, usize_bound, word_width. pose proof (Z.pow_lt_mono_r 2 U 64). lia.
Qed.

Lemma source_token_spec (entry : ScheduledIo L W) key :
  0 ≤ key < 2 ^ U →
  source_token (Po := Po) entry key = Done (key + word_generation (sio_readiness entry) * 2 ^ U).
Proof using PoolLaws0.
  intros Hk. pose proof (pool_bits (Po := Po) (L := L) (W := W)) as Hu. unfold RESERVED_BITS in Hu.
  pose proof (word_generation_range (sio_readiness entry)) as Hgen.
  assert (usize_ok key) by (by apply below_used_bits).
  assert (usize_ok (word_generation (sio_readiness entry)))
    by (unfold usize_ok, usize_bound, word_width; lia).
  unfold source_token, TOKEN_GENERATION, ADDRESS, ScheduledIo_generation.
  destruct (least_significant_wf U) as (a & Ha & Hwa); [unfold word_width; lia|].
  rewrite Ha. cbn [mbind outcome_bind].
  destruct (then_wf a _ 0 7 Hwa) as (g & Hg & Hwg); [lia|unfold word_width; lia|].
  rewrite Hg, unpack_GENERATION. cbn [mbind outcome_bind].
  rewrite (pack_spec a _ _ Hwa) by (done || unfold word_width; lia).
  rewrite bool_decide_true by lia. cbn [mbind outcome_bind]. rewrite Z.add_0_l in Hwg.
  rewrite (pack_spec g _ _ Hwg).
  - rewrite bool_decide_true by lia. rewrite adjacent_fields by lia. done.
  - unfold word_width; lia.
  - done.
  - apply field_set_range; [lia|lia|unfold word_width; lia|lia|done].
Qed.

(** What the pool makes of a token. *)
Lemma token_address g key : 0 ≤ key < 2 ^ U → pool_address (key + g * 2 ^ U) = key.
Proof using PoolLaws0.
  intros Hk. unfold pool_address. rewrite Z.mod_add by lia. by apply Z.mod_small.
Qed.

Lemma token_range g key : 0 ≤ g < 128 → 0 ≤ key < 2 ^ U → 0 ≤ key + g * 2 ^ U < 2 ^ 63.
Proof using PoolLaws0.
  intros Hg Hk. pose proof (pool_bits (Po := Po) (L := L) (W := W)) as Hu. unfold RESERVED_BITS in Hu.
  assert (2 ^ U ≤ 2 ^ 56) by (apply Z.pow_le_mono_r; lia).
  assert (2 ^ 63 = 128 * 2 ^ 56) as -> by done. nia.
Qed.

(** A new slot holds a word that the program stores. *)
Lemma fresh_slot_ok (v : ScheduledIo L W) :
  v = ScheduledIo_default ∨ (∃ old, ScheduledIo_clear old = Done v) → word_ok (sio_readiness v).
Proof.
  intros [->|[old Hv]]; [apply word_ok_0|]. rewrite clear_spec in Hv. apply Done_inj in Hv as <-.
  cbn. apply word_of_ok; [done..|]. by apply Z.mod_pos_bound.
Qed.
End token.

(** ** Delivery of events *)

Section delivery.
Context {Q R K S Ev L C W I Po : Type}.
Context `{Mio Q R K S Ev I, MioEvent Ev, PinListOps L C W I, !PinListLaws L C W I, MioInterest I,
  !Pool Po (ScheduledIo L W), !PoolLaws Po L C W I}.
Context (fuel : nat) (freebsd : bool) (tick : Z).

(** The events for the slot at [a]. *)
Definition events_for (a : Z) (events : list Ev) : list Ev :=
  filter (λ ev, event_token ev ≠ WAKE_TOKEN ∧ pool_address (Po := Po) (event_token ev) = a) events.

(** What an event does to the word of its resource. *)
Definition deliver (m : Z) (ev : Ev) : Z :=
  word_update (Tick_Set tick) (λ curr, Ready_bitor curr (Ready_from_mio freebsd ev)) m.

Definition all_interested (ev : Ev) (v : ScheduledIo L W) : Prop :=
  Forall (satisfied (Ready_from_mio freebsd ev)) (linked (pl_view (wt_list (sio_waiters v)))) ∧
  (length (linked (pl_view (wt_list (sio_waiters v)))) < fuel)%nat.

(** Does the event concern the direction? *)
Definition event_has (d : Direction) (ev : Ev) : bool :=
  match d with
  | Read => Ready_is_readable (Ready_from_mio freebsd ev)
  | Write_ => Ready_is_writable (Ready_from_mio freebsd ev)
  end.

(** The slot waker of a direction is taken and woken by the first event of that
    direction; events of the other direction leave it. *)
Definition slot_delivered (d : Direction) (events : list Ev) (v v' : ScheduledIo L W)
    (woken : list W) : Prop :=
  if existsb (event_has d) events then
    slot_of d (sio_waiters v') = None ∧
    ∀ w, slot_of d (sio_waiters v) = Some w → w ∈ woken
  else slot_of d (sio_waiters v') = slot_of d (sio_waiters v).

(** Everybody who waits at a resource: the two slots and the list. *)
Definition wakers_of (v : ScheduledIo L W) : list W :=
  option_list (wt_reader (sio_waiters v)) ++ option_list (wt_writer (sio_waiters v)) ++
  (waiter_waker <$> linked (pl_view (wt_list (sio_waiters v)))).

(** [v'] is [v] after [events]; [woken] holds the waiters of the list of [v] and
    the slot wakers that the events concern. *)
Definition delivered (events : list Ev) (v v' : ScheduledIo L W) (woken : list W) : Prop :=
  sio_readiness v' = foldl deliver (sio_readiness v) events ∧
  (∀ d, slot_delivered d events v v' woken) ∧
  (events ≠ [] →
     linked (pl_view (wt_list (sio_waiters v'))) = [] ∧
     ∀ x, x ∈ linked (pl_view (wt_list (sio_waiters v))) → waiter_waker x ∈ woken) ∧
  (events = [] → v' = v).

(** Every slot of the slab gets its events, and nobody is woken who did not wait at
    a resource with an event. *)
Definition slab_delivered (events : list Ev) (p p' : Po) (woken : list W) : Prop :=
  (∀ a, match pool_view p !! a with
        | None => pool_view p' !! a = None
        | Some v => ∃ v', pool_view p' !! a = Some v' ∧ delivered (events_for a events) v v' woken
        end) ∧
  (∀ w, w ∈ woken →
     ∃ a v, pool_view p !! a = Some v ∧ events_for a events ≠ [] ∧ w ∈ wakers_of v).

(** The slots after [wake]. *)
Lemma slot_delivered_wake ev v v' l' :
  sio_waiters v' = mkWaiters l'
    (if Ready_is_readable (Ready_from_mio freebsd ev) then None else wt_reader (sio_waiters v))
    (if Ready_is_writable (Ready_from_mio freebsd ev) then None else wt_writer (sio_waiters v)) →
  ∀ d ws, slot_delivered d [ev] v v' (slot_wakers (Ready_from_mio freebsd ev) (sio_waiters v) ++ ws).
Proof using Type.
  intros Hv d ws. unfold slot_delivered, slot_wakers. rewrite Hv.
  destruct d; cbn; [destruct (Ready_is_readable _)|destruct (Ready_is_writable _)]; cbn; try done;
    (split; [done|]); intros w ->; apply elem_of_app; left; apply elem_of_app;
    [left|right]; apply list_elem_of_singleton; done.
Qed.

Lemma slot_wakers_of ready (v : ScheduledIo L W) w :
  w ∈ slot_wakers ready (sio_waiters v) ++
      (waiter_waker <$> linked (pl_view (wt_list (sio_waiters v)))) → w ∈ wakers_of v.
Proof using Type.
  unfold slot_wakers, wakers_of. rewrite !elem_of_app.
  destruct (Ready_is_readable ready), (Ready_is_writable ready); set_solver.
Qed.

Lemma handle_event_hit p ev v :
  0 ≤ tick < 256 → event_token ev ≠ WAKE_TOKEN → pool_get (event_token ev) p = Some v →
  all_interested ev v →
  ∃ v' woken, handle_event fuel freebsd tick p ev = Done (pool_write (event_token ev) v' p, woken) ∧
    delivered [ev] v v' woken ∧ ∀ w, w ∈ woken → w ∈ wakers_of v.
Proof using Type*.
  intros Ht Htok Hget [Hall Hlen]. unfold handle_event. rewrite decide_False, Hget by done.
  unfold ScheduledIo_set_readiness.
  rewrite set_readiness_quiet by first [apply flag_update_or, Ready_wf_from_mio|done|lia].
  cbn [mbind outcome_bind mret outcome_ret].
  destruct (wake_all (Ready_from_mio freebsd ev) fuel
    (with_readiness (deliver (sio_readiness v) ev) v) Hall Hlen) as (l' & Hv & Hw).
  change (word_update (Tick_Set tick) _ (sio_readiness v)) with (deliver (sio_readiness v) ev).
  rewrite Hw. cbn [mbind outcome_bind mret outcome_ret]. do 2 eexists. split; [done|].
  split; [split_and!|]; [done|intros d; by apply (slot_delivered_wake ev v _ l')| |done|apply slot_wakers_of].
  intros _. cbn. rewrite Hv. split; [done|].
  intros x Hx. apply elem_of_app. right. apply list_elem_of_fmap. eauto.
Qed.

Lemma handle_event_miss p ev :
  event_token ev = WAKE_TOKEN ∨ pool_get (event_token ev) p = None →
  handle_event fuel freebsd tick p ev = Done (p, []).
Proof.
  intros Hm. unfold handle_event. case_decide; [done|]. destruct Hm as [?| ->]; done.
Qed.

Lemma slot_delivered_app d evs1 evs2 v1 v2 v3 woken1 woken2 :
  slot_delivered d evs1 v1 v2 woken1 → slot_delivered d evs2 v2 v3 woken2 →
  slot_delivered d (evs1 ++ evs2) v1 v3 (woken1 ++ woken2).
Proof using Type.
  unfold slot_delivered. rewrite existsb_app.
  destruct (existsb (event_has d) evs1), (existsb (event_has d) evs2); cbn.
  - intros [_ Hw] [Hn _]. split; [done|]. intros w ?%Hw. apply elem_of_app. by left.
  - intros [Hn Hw] ->. split; [done|]. intros w ?%Hw. apply elem_of_app. by left.
  - intros <- [Hn Hw]. split; [done|]. intros w ?%Hw. apply elem_of_app. by right.
  - by intros <- <-.
Qed.

Lemma delivered_app evs1 evs2 v1 v2 v3 woken1 woken2 :
  delivered evs1 v1 v2 woken1 → delivered evs2 v2 v3 woken2 →
  delivered (evs1 ++ evs2) v1 v3 (woken1 ++ woken2).
Proof using Type*.
  intros (Hr1 & Hs1 & Hw1 & He1) (Hr2 & Hs2 & Hw2 & He2). split_and!.
  - by rewrite foldl_app, Hr2, Hr1.
  - intros d. by eapply slot_delivered_app.
  - intros Hne. destruct (decide (evs1 = [])) as [->|Hne1].
    + destruct Hw2 as [Hl Hin]; [done|]. split; [done|]. rewrite He1 in Hin by done.
      set_solver.
    + destruct (Hw1 Hne1) as [Hl1 Hin1]. split; [|set_solver].
      destruct (decide (evs2 = [])) as [->|Hne2]; [by rewrite He2|]. by apply Hw2.
  - intros [-> ->]%app_eq_nil. rewrite He2, He1; done.
Qed.

Lemma delivered_nil v woken : delivered [] v v woken.
Proof. by split_and!. Qed.

(** Nobody starts to wait while events are delivered. *)
Lemma delivered_wakers evs v v' woken w :
  delivered evs v v' woken → w ∈ wakers_of v' → w ∈ wakers_of v.
Proof using Type.
  intros (_ & Hs & Hl & He) Hw. destruct (decide (evs = [])) as [Hn|Hn]; [by rewrite <- (He Hn)|].
  unfold wakers_of in *. rewrite !elem_of_app in *.
  destruct (Hl Hn) as [Hnil _]. rewrite Hnil in Hw.
  pose proof (Hs Read) as Hr. pose proof (Hs Write_) as Hwr. unfold slot_delivered in Hr, Hwr.
  cbn [slot_of] in *. destruct Hw as [Hw|[Hw|Hw]]; [left|right; left|by apply elem_of_nil in Hw].
  - destruct (existsb _ _) in Hr; [destruct Hr as [Hr _]|]; rewrite Hr in Hw; [|done].
    by apply elem_of_nil in Hw.
  - destruct (existsb _ _) in Hwr; [destruct Hwr as [Hwr _]|]; rewrite Hwr in Hw; [|done].
    by apply elem_of_nil in Hw.
Qed.

(** A slot without events keeps its value. *)
Lemma slot_untouched p a woken :
  match pool_view p !! a with
  | None => pool_view p !! a = None
  | Some v => ∃ v', pool_view p !! a = Some v' ∧ delivered [] v v' woken
  end.
Proof. destruct (pool_view p !! a) eqn:Ha; [|done]. eauto using delivered_nil. Qed.

Lemma slab_delivered_nil p : slab_delivered [] p p [].
Proof. split; [intros a; apply slot_untouched|]. by intros w Hw%elem_of_nil. Qed.

(** An event that reaches no resource. *)
Lemma slab_delivered_miss p ev :
  event_token ev = WAKE_TOKEN ∨ pool_get (event_token ev) p = None → slab_delivered [ev] p p [].
Proof using Type*.
  intros Hm. split; [|by intros w Hw%elem_of_nil]. intros a. unfold events_for.
  destruct (pool_view p !! a) as [v|] eqn:Ha; [|done]. exists v. split; [done|].
  rewrite filter_cons_False; [apply delivered_nil|]. intros [Hne <-].
  destruct Hm as [?|Hg]; [done|]. rewrite pool_get_view in Hg. congruence.
Qed.

(** One event, as a delivery to the whole slab. *)
Lemma handle_event_slab p ev :
  0 ≤ tick < 256 →
  (∀ v, event_token ev ≠ WAKE_TOKEN → pool_get (event_token ev) p = Some v → all_interested ev v) →
  ∃ p' woken, handle_event fuel freebsd tick p ev = Done (p', woken) ∧
    slab_delivered [ev] p p' woken.
Proof using Type*.
  intros Ht Hall. destruct (decide (event_token ev = WAKE_TOKEN)) as [Hw|Hw].
  { exists p, []. split; [apply handle_event_miss|apply slab_delivered_miss]; by left. }
  destruct (pool_get (event_token ev) p) as [v|] eqn:Hg.
  2: { exists p, []. split; [apply handle_event_miss|apply slab_delivered_miss]; by right. }
  destruct (handle_event_hit p ev v Ht Hw Hg) as (v' & woken & Hd & Hdel & Hwk); [by apply Hall|].
  exists (pool_write (event_token ev) v' p), woken. split; [done|].
  pose proof Hg as Hv. rewrite pool_get_view in Hv. split.
  - intros a. rewrite pool_write_view by (by rewrite Hg). unfold events_for.
    destruct (decide (pool_address (Po := Po) (event_token ev) = a)) as [<-|Hne].
    + rewrite Hv, lookup_insert_eq, filter_cons_True by done. eauto.
    + rewrite lookup_insert_ne, filter_cons_False by (done || intros [? ?]; done).
      apply slot_untouched.
  - intros w Hin%Hwk. do 2 eexists. split; [exact Hv|]. unfold events_for.
    by rewrite filter_cons_True.
Qed.

Lemma slab_delivered_app evs1 evs2 p1 p2 p3 woken1 woken2 :
  slab_delivered evs1 p1 p2 woken1 → slab_delivered evs2 p2 p3 woken2 →
  slab_delivered (evs1 ++ evs2) p1 p3 (woken1 ++ woken2).
Proof using Type*.
  intros [H12 Hw1] [H23 Hw2]. split.
  - intros a. specialize (H12 a). specialize (H23 a). unfold events_for in *.
    rewrite filter_app. destruct (pool_view p1 !! a) as [v1|].
    + destruct H12 as (v2 & Hv2 & H12). rewrite Hv2 in H23. destruct H23 as (v3 & Hv3 & H23).
      exists v3. split; [done|]. by eapply delivered_app.
    + by rewrite H12 in H23.
  - intros w [(a & v & Hv & Hne & Hin)%Hw1|(a & v2 & Hv2 & Hne & Hin)%Hw2]%elem_of_app.
    + exists a, v. split_and!; [done| |done]. unfold events_for in *. rewrite filter_app.
      by intros [? ?]%app_eq_nil.
    + specialize (H12 a). destruct (pool_view p1 !! a) as [v1|] eqn:Hv1; [|congruence].
      destruct H12 as (v2' & Hv2' & Hd). assert (v2' = v2) as -> by congruence.
      exists a, v1. split_and!; [done| |by eapply delivered_wakers]. unfold events_for in *.
      rewrite filter_app. by intros [? ?]%app_eq_nil.
Qed.

(** Resources that got an event have nobody left in their lists. *)
Lemma all_interested_after evs p p' woken ev v :
  (0 < fuel)%nat → slab_delivered evs p p' woken →
  (∀ v, pool_get (event_token ev) p = Some v → all_interested ev v) →
  pool_get (event_token ev) p' = Some v → all_interested ev v.
Proof using Type*.
  intros Hfuel [Hdel _] Hall Hg. rewrite pool_get_view in Hg.
  specialize (Hdel (pool_address (event_token ev))).
  destruct (pool_view p !! pool_address (event_token ev)) as [v0|] eqn:Hv0; [|congruence].
  destruct Hdel as (v' & Hv' & _ & _ & Hw & He). assert (v' = v) as -> by congruence.
  destruct (decide (events_for (pool_address (event_token ev)) evs = [])) as [Hn|Hn].
  - rewrite (He Hn). apply Hall. by rewrite pool_get_view.
  - destruct (Hw Hn) as [Hl _]. unfold all_interested. rewrite Hl. split; [constructor|done].
Qed.

Lemma handle_events_slab evs : ∀ p,
  0 ≤ tick < 256 → (0 < fuel)%nat →
  (∀ ev v, ev ∈ evs → event_token ev ≠ WAKE_TOKEN →
     pool_get (event_token ev) p = Some v → all_interested ev v) →
  ∃ p' woken, handle_events fuel freebsd tick p evs = Done (p', woken) ∧
    slab_delivered evs p p' woken.
Proof using Type*.
  induction evs as [|ev evs IH]; intros p Ht Hfuel Hall; cbn [handle_events].
  - exists p, []. split; [done|apply slab_delivered_nil].
  - destruct (handle_event_slab p ev Ht) as (p1 & woken1 & Hd1 & Hs1).
    { intros v. apply Hall. left. }
    destruct (IH p1 Ht Hfuel) as (p2 & woken2 & Hd2 & Hs2).
    { intros ev' v Hin Hne Hg. eapply all_interested_after; [done|done| |done].
      intros v0 Hg0. apply Hall; [by right|done|done]. }
    exists p2, (woken1 ++ woken2). rewrite Hd1. cbn [mbind outcome_bind]. rewrite Hd2.
    split; [done|]. by apply (slab_delivered_app [ev] evs p p1 p2).
Qed.
End delivery.

(** ** Properties *)

Section properties.
Context {Q R K S Ev L C W I Po : Type}.
Context `{Mio Q R K S Ev I, MioEvent Ev, PinListOps L C W I, !PinListLaws L C W I, MioInterest I,
  !Pool Po (ScheduledIo L W), !PoolLaws Po L C W I}.
Implicit Types (drv : IODriver Q Ev) (h : Handle R K Po).

(** C26: one turn of the driver, when every waiter in the list of a resource with
    an event is interested in that event ([all_interested]; otherwise [wake] does
    not return, see [wake_livelock]).  The tick advances modulo 256; an interrupted
    poll counts as a success and any other failure panics; then every event
    reaches the resource that its token names: the flags of all its events are
    added to its word with the new tick, the waiters of its list are woken and
    taken off the list, the reader and the writer waker are taken and woken
    exactly when an event of their direction came, resources without events are
    left alone, and nobody is woken who did not wait at a resource with an event. *)
Theorem poll_timeout_delivers fuel bsd drv h timeout r evs q :
  mio_poll timeout (drv_poll drv) = (r, evs, q) → (0 < fuel)%nat →
  (∀ ev v, ev ∈ evs → event_token ev ≠ WAKE_TOKEN →
     pool_get (event_token ev) (h_slab h) = Some v → all_interested fuel bsd ev v) →
  match r with
  | Err e => err_kind e ≠ Interrupted → IODriver_poll_timeout fuel bsd drv h timeout = Panic
  | Ok _ => True
  end ∧
  (match r with Err e => err_kind e = Interrupted | Ok _ => True end →
   ∃ p woken,
     IODriver_poll_timeout fuel bsd drv h timeout =
       Done (mkIODriver evs q ((drv_tick drv + 1) mod 256), with_slab p h, woken) ∧
     slab_delivered bsd ((drv_tick drv + 1) mod 256) evs (h_slab h) p woken).
Proof.
  intros Hpoll Hfuel Hall. unfold IODriver_poll_timeout. rewrite Hpoll. split.
  - destruct r as [|e]; [done|]. intros Hk. by rewrite decide_False.
  - intros Hr.
    assert ((match r with
             | Ok _ => mret ()
             | Err e => if decide (err_kind e = Interrupted) then mret () else Panic
             end : outcome ()) = Done ()) as ->.
    { destruct r as [|e]; [done|]. by rewrite decide_True. }
    cbn [mbind outcome_bind].
    destruct (handle_events_slab fuel bsd ((drv_tick drv + 1) mod 256) evs (h_slab h))
      as (p & woken & Hd & Hs); [by apply Z.mod_pos_bound|done|done|].
    exists p, woken. unfold u8_wrapping_add. rewrite Hd. done.
Qed.

(** A successful allocation: the slot is new, and this is what is registered. *)
Lemma add_source_run h (source : S) (interest : I) key p :
  pool_create (h_slab h) = Some (key, p) →
  ∃ v, 0 ≤ key < 2 ^ pool_used_bits (Po := Po) ∧ pool_view (h_slab h) !! key = None ∧
    pool_view p = <[key := v]> (pool_view (h_slab h)) ∧ word_ok (sio_readiness v) ∧
    let '(r, source', registry') :=
      mio_register source (key + word_generation (sio_readiness v) * 2 ^ pool_used_bits (Po := Po))
        interest (h_registry h) in
    Handle_add_source h source interest =
    Done (match r with Ok _ => Ok key | Err e => Err e end, source', mkHandle registry' p (h_waker h)).
Proof.
  intros Hc. unfold Handle_add_source, Handle_slab_entry. rewrite Hc. cbn [mbind option_bind].
  destruct (pool_create_view _ _ _ Hc) as (Hk & Hn & v & Hv & Hfresh).
  assert (pool_get key p = Some v) as Hget.
  { rewrite pool_get_view, Hv. unfold pool_address. rewrite Z.mod_small by done.
    apply lookup_insert_eq. }
  exists v. split_and!; [lia|lia|done|done|by apply fresh_slot_ok|].
  cbn [h_slab with_slab h_registry h_waker]. rewrite Hget. cbn [unwrap mbind outcome_bind].
  rewrite source_token_spec by done. cbn [mbind outcome_bind].
  destruct (mio_register _ _ _ _) as [[r source'] registry']. by destruct r.
Qed.

(** C36: [add_source] allocates a slot with an admissible word and registers the
    source under a token from which both parts can be read back: the pool finds
    the slot by it, its upper part is the slot's generation, and it is never
    the token that wakes the driver.  Without a free slot the registry is not
    touched.  The slot stays allocated when the registry refuses the source. *)
Theorem add_source_registers h (source : S) (interest : I) :
  match pool_create (h_slab h) with
  | None =>
      Handle_add_source h source interest =
      Done (Err (mkIoError OutOfMemory "could not allocate slot for IO entry"), source, h)
  | Some (key, p) =>
      ∃ v token, pool_get key p = Some v ∧ word_ok (sio_readiness v) ∧
        pool_get token p = Some v ∧
        token `div` 2 ^ pool_used_bits (Po := Po) = word_generation (sio_readiness v) ∧
        0 ≤ token < 2 ^ 63 ∧ token ≠ WAKE_TOKEN ∧
        let '(r, source', registry') := mio_register source token interest (h_registry h) in
        Handle_add_source h source interest =
        Done (match r with Ok _ => Ok key | Err e => Err e end, source',
              mkHandle registry' p (h_waker h))
  end.
Proof.
  destruct (pool_create (h_slab h)) as [[key p]|] eqn:Hc.
  2: by unfold Handle_add_source, Handle_slab_entry; rewrite Hc.
  destruct (add_source_run h source interest key p Hc) as (v & Hk & _ & Hv & Hok & Hrun).
  pose proof (word_generation_range (sio_readiness v)) as Hg.
  exists v, (key + word_generation (sio_readiness v) * 2 ^ pool_used_bits (Po := Po)).
  destruct (token_range (Po := Po) (word_generation (sio_readiness v)) key Hg Hk) as [Hlo Hhi].
  split_and!; [|done| | |done|done| |exact Hrun].
  - rewrite pool_get_view, Hv. unfold pool_address. rewrite Z.mod_small by done.
    apply lookup_insert_eq.
  - rewrite pool_get_view, token_address by done. rewrite Hv. apply lookup_insert_eq.
  - rewrite Z.div_add by lia. rewrite Z.div_small by done. lia.
  - unfold WAKE_TOKEN, usize_max, usize_bound, word_width. lia.
Qed.
End properties.

(** ** Reference instances *)

Module DriverRef.
Import MioRef PinListRef.

Abbreviation resource := (ScheduledIo (pin_view nat MioRef.interest) nat).

(** A pool that never reuses a slot. *)
Record pool : Type := mkPool { pool_next : Z; pool_slots : gmap Z resource }.

#[export] Instance pool_ops : Pool pool resource := {|
  pool_used_bits := 56;
  pool_new := mkPool 0 ∅;
  pool_create p :=
    if decide (0 ≤ pool_next p < 2 ^ 56 ∧ pool_slots p !! pool_next p = None)
    then Some (pool_next p, mkPool (pool_next p + 1)
                              (<[pool_next p := ScheduledIo_default]> (pool_slots p)))
    else None;
  pool_get k p := pool_slots p !! (k mod 2 ^ 56);
  pool_write k v p := mkPool (pool_next p) (<[k mod 2 ^ 56 := v]> (pool_slots p));
  pool_clear k p := mkPool (pool_next p) (delete (k mod 2 ^ 56) (pool_slots p));
|}.

#[export] Program Instance pool_laws :
  PoolLaws pool (pin_view nat MioRef.interest) _ nat MioRef.interest :=
  {| pool_view := pool_slots |}.
Next Obligation. done. Qed.
Next Obligation. done. Qed.
Next Obligation.
  intros p k p' Hc. cbn in Hc. case_decide as Hd; [|done]. injection Hc as <- <-.
  destruct Hd as [Hr Hn]. split; [exact Hr|]. split; [exact Hn|]. eexists. split; [done|]. by left.
Qed.
Next Obligation. done. Qed.
Next Obligation. done. Qed.
Next Obligation. done. Qed.

(** A poll that returns prepared batches of events, and a registry that records
    what is registered. *)
#[export] Instance mio_ops :
  Mio (list (list MioRef.event)) (list (nat * Z)) nat nat MioRef.event MioRef.interest := {|
  mio_poll_new := Ok [];
  mio_poll _ q := (Ok (), default [] (head q), tail q);
  mio_registry _ := [];
  mio_try_clone r := Ok r;
  mio_waker_new _ _ := Ok 0%nat;
  mio_waker_wake k := (Ok (), S k);
  mio_register s token _ r := (Ok (), s, (s, token) :: r);
  mio_deregister s r := (Ok (), s, filter (λ x, x.1 ≠ s) r);
|}.

(** A driver with one readable event for slot 0, where a reader waits. *)
Definition driver : IODriver (list (list MioRef.event)) MioRef.event :=
  mkIODriver [] [[mkEvent 0 1]] 255.

Definition reader : resource :=
  mkScheduledIo 0 (mkWaiters (mkView [mkWaiter 5 105 INTEREST_READABLE] ∅) (Some 7) None)%nat.

Definition handle : Handle (list (nat * Z)) nat pool := mkHandle [] (mkPool 1 {[0 := reader]}) 0%nat.
End DriverRef.

Import MioRef PinListRef DriverRef.

Lemma poll_timeout_delivers_witness :
  ∃ p woken,
    IODriver_poll_timeout 3 false driver handle None =
      Done (mkIODriver [mkEvent 0 1] [] ((255 + 1) mod 256), with_slab p handle, woken) ∧
    slab_delivered false ((255 + 1) mod 256) [mkEvent 0 1] (h_slab handle) p woken.
Proof.
  destruct (poll_timeout_delivers 3 false driver handle None (Ok ()) [mkEvent 0 1] [])
    as [_ Hok].
  - reflexivity.
  - lia.
  - intros ev v ->%list_elem_of_singleton _ Hg. injection Hg as <-.
    split; [apply Forall_singleton; vm_compute; reflexivity|].
    vm_compute. lia.
  - exact (Hok I).
Defined.

Lemma add_source_registers_witness :
  ∃ v token, pool_get 1 (mkPool 2 {[1 := ScheduledIo_default; 0 := reader]}) = Some v ∧
    word_ok (sio_readiness v) ∧
    pool_get token (mkPool 2 {[1 := ScheduledIo_default; 0 := reader]}) = Some v ∧
    token `div` 2 ^ 56 = word_generation (sio_readiness v) ∧
    0 ≤ token < 2 ^ 63 ∧ token ≠ WAKE_TOKEN ∧
    Handle_add_source handle 9%nat INTEREST_READABLE =
    Done (Ok 1, 9%nat, mkHandle [(9%nat, token)] (mkPool 2 {[1 := ScheduledIo_default; 0 := reader]}) 0%nat).
Proof. exact (add_source_registers handle 9%nat INTEREST_READABLE). Defined.
