(* ===== verification/Registration.v ===== *)
(** * Registration: an I/O resource and its readiness streams
      (src/src/io/registration.rs)

    A [Registration] is the key of a slot of the driver's slab.  Its operations
    work on the shared [Handle].  The closures that perform the system call are
    parameters: a call sees and changes the closure's own state, and returns the
    slab as the driver, which runs meanwhile on another thread, leaves it.
    Between two accesses of one operation nobody else writes the word. *)

From Stdlib Require Import String.
From S2P Require Import Prelude Bits Ready PinList ScheduledIo IoDriver.

Local Open Scope Z_scope.

(** ** Definitions *)

Definition gone : io_error := mkIoError Other "error".

Section registration.
Context {Q R K S Ev L C W I Po : Type}.
Context `{Mio Q R K S Ev I, PinListOps L C W I, MioInterest I, !Pool Po (ScheduledIo L W)}.

Record Registration : Type := mkRegistration { reg_key : Z }.

Definition Registration_new_with_interest_and_handle (io : S) (interest : I)
    (handle : Handle R K Po) : outcome (io_result Registration * S * Handle R K Po) :=
  '(r, io, handle) ← Handle_add_source handle io interest;
  mret (match r with Ok key => Ok (mkRegistration key) | Err e => Err e end, io, handle).

Definition Registration_deregister (self : Registration) (io : S) (handle : Handle R K Po)
    : io_result unit * S * Handle R K Po :=
  Handle_deregister_source handle io.

(** [impl Drop]. *)
Definition Registration_drop (self : Registration) (slab : Po) : Po :=
  pool_clear (reg_key self) slab.

(** [self.handle.slab.get(self.key).unwrap()]. *)
Definition slot (self : Registration) (slab : Po) : outcome (ScheduledIo L W) :=
  unwrap (pool_get (reg_key self) slab).

Definition Registration_clear_readiness (fuel : nat) (self : Registration) (event : ReadyEvent)
    (slab : Po) : outcome Po :=
  sio ← slot self slab;
  sio ← ScheduledIo_clear_readiness fuel quiet sio event;
  mret (pool_write (reg_key self) sio slab).

Definition Registration_poll_ready (will_wake : W → W → bool) (self : Registration) (cx : W)
    (direction : Direction) (slab : Po) : outcome (poll (io_result ReadyEvent) * Po) :=
  sio ← slot self slab;
  '(p, sio) ← ScheduledIo_poll_readiness will_wake (sio_readiness sio) (sio_readiness sio)
                sio cx direction;
  let slab := pool_write (reg_key self) sio slab in
  match p with
  | Pending => mret (Pending, slab)
  | Ready_ ev =>
      if ev_is_shutdown ev then mret (Ready_ (Err gone), slab) else mret (Ready_ (Ok ev), slab)
  end.

Definition Registration_poll_read_ready will_wake self cx (slab : Po) :=
  Registration_poll_ready will_wake self cx Read slab.

Definition Registration_poll_write_ready will_wake self cx (slab : Po) :=
  Registration_poll_ready will_wake self cx Write_ slab.

Section io.
(** The closure: its state, and one call of it. *)
Context {X A : Type} (f : X → Po → io_result A * X * Po).

(** The body of the [loop] of [poll_io]. *)
Definition poll_io_turn (fuel : nat) (will_wake : W → W → bool) (self : Registration) (cx : W)
    (direction : Direction) (st : X * Po)
    : outcome (ctl (X * Po) (poll (io_result A) * X * Po)) :=
  let '(x, slab) := st in
  '(p, slab) ← Registration_poll_ready will_wake self cx direction slab;
  match p with
  | Pending => mret (Break (Pending, x, slab))
  | Ready_ (Err e) => mret (Break (Ready_ (Err e), x, slab))
  | Ready_ (Ok ev) =>
      let '(r, x, slab) := f x slab in
      match r with
      | Ok ret => mret (Break (Ready_ (Ok ret), x, slab))
      | Err e =>
          if decide (err_kind e = WouldBlock) then
            slab ← Registration_clear_readiness fuel self ev slab;
            mret (Continue (x, slab))
          else mret (Break (Ready_ (Err e), x, slab))
      end
  end.

Definition Registration_poll_io (fuel : nat) (will_wake : W → W → bool) (self : Registration)
    (cx : W) (direction : Direction) (x : X) (slab : Po) : outcome (poll (io_result A) * X * Po) :=
  loop fuel (poll_io_turn fuel will_wake self cx direction) (x, slab).

Definition Registration_poll_read_io fuel will_wake self cx x (slab : Po) :=
  Registration_poll_io fuel will_wake self cx Read x slab.

Definition Registration_poll_write_io fuel will_wake self cx x (slab : Po) :=
  Registration_poll_io fuel will_wake self cx Write_ x slab.

Definition Registration_try_io (fuel : nat) (self : Registration) (interest : I) (x : X) (slab : Po)
    : outcome (io_result A * X * Po) :=
  sio ← slot self slab;
  ev ← ScheduledIo_ready_event sio interest;
  if Ready_is_empty (ev_ready ev) then mret (Err (error_of_kind WouldBlock), x, slab)
  else
    let '(r, x, slab) := f x slab in
    match r with
    | Err e =>
        if decide (err_kind e = WouldBlock) then
          slab ← Registration_clear_readiness fuel self ev slab;
          mret (Err (error_of_kind WouldBlock), x, slab)
        else mret (Err e, x, slab)
    | Ok a => mret (Ok a, x, slab)
    end.

(** One poll of the future of [readiness]: the inner [Readiness] and the check
    of its event. *)
Definition Registration_readiness_poll (fuel : nat) (self : Registration) (cx : W)
    (fut : Readiness I) (slab : Po) : outcome (poll (io_result ReadyEvent) * Readiness I * Po) :=
  sio ← slot self slab;
  '(p, fut, sio) ← Readiness_poll fuel (λ _, sio_readiness sio) cx fut sio;
  let slab := pool_write (reg_key self) sio slab in
  match p with
  | Pending => mret (Pending, fut, slab)
  | Ready_ ev =>
      if ev_is_shutdown ev then mret (Ready_ (Err gone), fut, slab)
      else mret (Ready_ (Ok ev), fut, slab)
  end.

(** [super::Readiness { .., state: Init, waiter: Node::new() }]. *)
Definition readiness_future (interest : I) (n : node) : Readiness I :=
  mkReadiness State_Init interest n.

(** The [loop] of [async_io] between two suspensions: [n] names the node of the
    next [Readiness]. *)
Definition async_io_turn (fuel : nat) (self : Registration) (cx : W) (interest : I)
    (st : Readiness I * node * X * Po)
    : outcome (ctl (Readiness I * node * X * Po) (poll (io_result A) * (Readiness I * node) * X * Po)) :=
  let '(fut, n, x, slab) := st in
  '(p, fut, slab) ← Registration_readiness_poll fuel self cx fut slab;
  match p with
  | Pending => mret (Break (Pending, (fut, n), x, slab))
  | Ready_ (Err e) => mret (Break (Ready_ (Err e), (fut, n), x, slab))
  | Ready_ (Ok event) =>
      let '(r, x, slab) := f x slab in
      match r with
      | Err e =>
          if decide (err_kind e = WouldBlock) then
            slab ← Registration_clear_readiness fuel self event slab;
            mret (Continue (readiness_future interest n, n + 1, x, slab)%nat)
          else mret (Break (Ready_ (Err e), (fut, n), x, slab))
      | Ok a => mret (Break (Ready_ (Ok a), (fut, n), x, slab))
      end
  end.

(** One poll of the future of [async_io]. *)
Definition Registration_async_io_poll (fuel : nat) (self : Registration) (cx : W) (interest : I)
    (fut : Readiness I) (n : node) (x : X) (slab : Po)
    : outcome (poll (io_result A) * (Readiness I * node) * X * Po) :=
  loop fuel (async_io_turn fuel self cx interest) (fut, n, x, slab).
End io.
End registration.

(** ** Lemmas *)

(** The sixteen flag sets. *)
Lemma ready_cases (f : Ready → bool) :
  forallb f (mkReady <$> seqZ 0 16) = true → ∀ r, Ready_wf r → f r = true.
Proof.
  intros Hall [x] Hr. unfold Ready_wf in Hr. cbn in Hr.
  rewrite forallb_forall in Hall. apply Hall. apply list_elem_of_In.
  apply list_elem_of_fmap. exists x. split; [done|]. apply elem_of_seqZ. lia.
Qed.

Definition Direction_closed (d : Direction) : Ready :=
  match d with Read => Ready_READ_CLOSED | Write_ => Ready_WRITE_CLOSED end.

Definition other_direction (d : Direction) : Direction :=
  match d with Read => Write_ | Write_ => Read end.

(** The resource is not closed in a direction. *)
Definition direction_open (d : Direction) (m : Z) : Prop :=
  Ready_is_empty (Ready_bitand (Direction_closed d) (word_ready m)) = true.

(** What [clear_readiness] subtracts for an event of direction [d]. *)
Definition consumed (d : Direction) (r : Ready) : Ready :=
  Ready_sub (Ready_sub (Ready_bitand (Direction_mask d) r) Ready_READ_CLOSED) Ready_WRITE_CLOSED.

Lemma consumed_flags d r :
  Ready_wf r →
  (Ready_is_empty (Ready_bitand (Direction_closed d) r) = true →
   Ready_is_empty (Ready_bitand (Direction_mask d) (Ready_sub r (consumed d r))) = true) ∧
  Ready_bitand (Direction_mask (other_direction d)) (Ready_sub r (consumed d r)) =
    Ready_bitand (Direction_mask (other_direction d)) r ∧
  Ready_bitand (Direction_closed d) (Ready_sub r (consumed d r)) =
    Ready_bitand (Direction_closed d) r.
Proof.
  intros Hr. pose proof (ready_cases (λ r,
    implb (Ready_is_empty (Ready_bitand (Direction_closed d) r))
      (Ready_is_empty (Ready_bitand (Direction_mask d) (Ready_sub r (consumed d r)))) &&
    bool_decide (Ready_bitand (Direction_mask (other_direction d)) (Ready_sub r (consumed d r)) =
      Ready_bitand (Direction_mask (other_direction d)) r) &&
    bool_decide (Ready_bitand (Direction_closed d) (Ready_sub r (consumed d r)) =
      Ready_bitand (Direction_closed d) r))) as Hall.
  destruct (andb_prop _ _ (Hall ltac:(destruct d; vm_compute; reflexivity) r Hr))
    as [[H1 H2]%andb_prop H3].
  split_and!; [|by apply bool_decide_eq_true in H2|by apply bool_decide_eq_true in H3].
  intros Ho. by rewrite Ho in H1.
Qed.

Section specification.
Context {L C W I Po : Type}.
Context `{PinListOps L C W I, MioInterest I, !Pool Po (ScheduledIo L W), !PoolLaws Po L C W I}.
Implicit Types (v : ScheduledIo L W) (p : Po) (self : Registration).

(** The slot after its direction's waker was stored. *)
Definition registered (ww : W → W → bool) (cx : W) (d : Direction) (v : ScheduledIo L W)
    : ScheduledIo L W :=
  with_waiters (with_slot d (store_waker ww cx (slot_of d (sio_waiters v))) (sio_waiters v)) v.

(** The word after an event of direction [d] read from it was consumed. *)
Definition consume (d : Direction) (m : Z) : Z :=
  word_update (Tick_Clear (word_tick m)) (λ curr, Ready_sub curr (consumed d (word_ready m))) m.

(** [p'] is [p] with the slot of the registration replaced. *)
Definition updated self p v p' : Prop :=
  pool_view p' = <[pool_address (reg_key self) := v]> (pool_view p).

Lemma updated_get self p v p' : updated self p v p' → pool_get (reg_key self) p' = Some v.
Proof. intros Hu. rewrite pool_get_view, Hu. apply lookup_insert_eq. Qed.

Lemma updated_write self p v : is_Some (pool_get (reg_key self) p) →
  updated self p v (pool_write (reg_key self) v p).
Proof. apply pool_write_view. Qed.

Lemma updated_again self p v1 p1 v2 :
  updated self p v1 p1 → updated self p v2 (pool_write (reg_key self) v2 p1).
Proof.
  intros Hu. unfold updated. rewrite pool_write_view by (rewrite (updated_get _ _ _ _ Hu); by eexists).
  rewrite Hu. apply insert_insert_eq.
Qed.

Lemma slot_spec self p v : pool_get (reg_key self) p = Some v → slot self p = Done v.
Proof. unfold slot. by intros ->. Qed.

(** [poll_ready] never reports [gone], since no word has its shutdown bit set. *)
Lemma poll_ready_spec ww self cx d p v :
  pool_get (reg_key self) p = Some v → word_ok (sio_readiness v) →
  Registration_poll_ready ww self cx d p = Done
    (if Ready_is_empty (flags_for d (sio_readiness v)) then
       (Pending, pool_write (reg_key self) (registered ww cx d v) p)
     else (Ready_ (Ok (event_at (flags_for d (sio_readiness v)) (sio_readiness v))),
           pool_write (reg_key self) v p)).
Proof.
  intros Hg Hok. unfold Registration_poll_ready. rewrite (slot_spec _ _ _ Hg).
  cbn [mbind outcome_bind]. rewrite poll_readiness_spec by done. cbn [mbind outcome_bind].
  by destruct (Ready_is_empty _).
Qed.

Lemma clear_readiness_spec fuel self d m p v :
  (0 < fuel)%nat → pool_get (reg_key self) p = Some v →
  Registration_clear_readiness fuel self (event_at (flags_for d m) m) p =
  Done (pool_write (reg_key self) (with_readiness
    (word_update (Tick_Clear (word_tick m)) (λ curr, Ready_sub curr (consumed d (word_ready m)))
       (sio_readiness v)) v) p).
Proof.
  intros Hf Hg. unfold Registration_clear_readiness. rewrite (slot_spec _ _ _ Hg).
  cbn [mbind outcome_bind]. unfold ScheduledIo_clear_readiness, ScheduledIo_set_readiness.
  cbn [ev_ready ev_tick event_at]. rewrite set_readiness_quiet; [done|apply flag_update_sub| |done].
  apply word_tick_range.
Qed.

(** What consuming an event does to the flags. *)
Lemma consume_flags d m :
  word_ok m →
  word_ok (consume d m) ∧
  (direction_open d m → Ready_is_empty (flags_for d (consume d m)) = true) ∧
  flags_for (other_direction d) (consume d m) = flags_for (other_direction d) m.
Proof.
  intros Hm. unfold consume, flags_for, direction_open.
  pose proof (word_tick_range m) as Ht.
  pose proof (word_update_fields (Tick_Clear (word_tick m))
    (λ curr, Ready_sub curr (consumed d (word_ready m))) m (flag_update_sub _) Ht) as Hfields.
  cbn [tick_stale] in Hfields. rewrite bool_decide_false in Hfields by tauto.
  destruct Hfields as (Hr & _).
  destruct (consumed_flags d (word_ready m)) as (Hopen & Hother & _); [apply Ready_wf_from_usize|].
  split_and!; [|by rewrite Hr|by rewrite Hr].
  apply word_update_ok; [apply flag_update_sub|apply word_tick_range|done].
Qed.

Lemma consume_open d m : direction_open d (consume d m) ↔ direction_open d m.
Proof.
  unfold direction_open, consume. pose proof (word_tick_range m) as Ht.
  pose proof (word_update_fields (Tick_Clear (word_tick m))
    (λ curr, Ready_sub curr (consumed d (word_ready m))) m (flag_update_sub _) Ht) as Hfields.
  cbn [tick_stale] in Hfields. rewrite bool_decide_false in Hfields by tauto.
  destruct Hfields as (Hr & _). rewrite Hr.
  by destruct (consumed_flags d (word_ready m) (Ready_wf_from_usize m)) as (_ & _ & ->).
Qed.

Lemma closed_not_empty d m :
  ~ direction_open d m → Ready_is_empty (flags_for d m) = false.
Proof.
  unfold direction_open, flags_for. intros Hc.
  destruct (Ready_is_empty (Ready_bitand (Direction_mask d) (word_ready m))) eqn:He; [|done].
  destruct Hc. revert He.
  pose proof (ready_cases (λ r, implb (Ready_is_empty (Ready_bitand (Direction_mask d) r))
    (Ready_is_empty (Ready_bitand (Direction_closed d) r)))
    ltac:(destruct d; vm_compute; reflexivity) (word_ready m) (Ready_wf_from_usize m)) as Hall.
  intros He. cbv beta in Hall. by rewrite He in Hall.
Qed.

Lemma ready_event_spec v (interest : I) :
  word_ok (sio_readiness v) →
  ScheduledIo_ready_event v interest =
  Done (event_at (Ready_bitand (interest_mask interest) (word_ready (sio_readiness v)))
          (sio_readiness v)).
Proof.
  intros Hok. unfold ScheduledIo_ready_event. autorewrite with arc_word. cbn.
  autorewrite with arc_word. cbn. rewrite (shutdown_false _ Hok). autorewrite with arc_word. done.
Qed.

Lemma interest_mask_direction `{!MioInterestLaws I} (interest : I) d :
  interest = match d with Read => INTEREST_READABLE | Write_ => INTEREST_WRITABLE end →
  interest_mask interest = Direction_mask d.
Proof.
  intros ->. unfold interest_mask. destruct d; [by rewrite decide_True|].
  rewrite decide_False, decide_True; [done|done|]. intros Heq.
  pose proof READABLE_is_readable as Hr. rewrite <- Heq, WRITABLE_is_readable in Hr. done.
Qed.

Section io.
Context {X A : Type} (f : X → Po → io_result A * X * Po).

(** The driver does nothing while the closure runs. *)
Definition undisturbed : Prop := ∀ x p, (f x p).2 = p.

(** One turn of [poll_io] on a resource that is ready. *)
Lemma poll_io_turn_ready fuel ww self cx d x p v :
  undisturbed → pool_get (reg_key self) p = Some v → word_ok (sio_readiness v) → (0 < fuel)%nat →
  Ready_is_empty (flags_for d (sio_readiness v)) = false →
  let '(r, x', _) := f x (pool_write (reg_key self) v p) in
  poll_io_turn f fuel ww self cx d (x, p) = Done
    match r with
    | Err e =>
        if decide (err_kind e = WouldBlock) then
          Continue (x', pool_write (reg_key self)
            (with_readiness (consume d (sio_readiness v)) v) (pool_write (reg_key self) v p))
        else Break (Ready_ (Err e), x', pool_write (reg_key self) v p)
    | Ok a => Break (Ready_ (Ok a), x', pool_write (reg_key self) v p)
    end.
Proof.
  intros Hq Hg Hok Hfuel He. pose proof (Hq x (pool_write (reg_key self) v p)) as Hp.
  destruct (f x (pool_write (reg_key self) v p)) as [[r x'] p'] eqn:Hf. cbn in Hp. subst p'.
  unfold poll_io_turn. rewrite (poll_ready_spec _ _ _ _ _ _ Hg Hok), He. cbn [mbind outcome_bind].
  rewrite Hf. destruct r as [a|e]; [done|]. case_decide; [|done].
  rewrite (clear_readiness_spec _ _ _ _ _ v) by
    (done || (eapply updated_get, updated_write; by rewrite Hg)).
  done.
Qed.

Lemma poll_io_turn_pending fuel ww self cx d x p v :
  pool_get (reg_key self) p = Some v → word_ok (sio_readiness v) →
  Ready_is_empty (flags_for d (sio_readiness v)) = true →
  poll_io_turn f fuel ww self cx d (x, p) =
  Done (Break (Pending, x, pool_write (reg_key self) (registered ww cx d v) p)).
Proof.
  intros Hg Hok He. unfold poll_io_turn. rewrite (poll_ready_spec _ _ _ _ _ _ Hg Hok), He. done.
Qed.
End io.
End specification.

(** ** Properties *)

Section properties.
Context {L C W I Po : Type}.
Context `{PinListOps L C W I, MioInterest I, !Pool Po (ScheduledIo L W), !PoolLaws Po L C W I}.
Context {X A : Type} (f : X → Po → io_result A * X * Po).
Implicit Types (v : ScheduledIo L W) (p : Po) (self : Registration).

(** C27: [poll_io] on a direction that is not closed, when the driver does not run
    while the closure does ([undisturbed]; [poll_io_keeps_newer_event] is the case
    of an event meanwhile).  A resource that is not
    ready gives [Pending] without a call of the closure, and its waker is
    stored.  Otherwise the closure is called exactly once: its result or its
    error is returned and the slot is unchanged, except that [WouldBlock] takes
    the readiness of this direction away, leaves the other direction's in
    place, and ends in [Pending] with the waker stored. *)
Theorem poll_io_open_direction fuel ww self cx d x p v :
  undisturbed f → pool_get (reg_key self) p = Some v → word_ok (sio_readiness v) →
  direction_open d (sio_readiness v) → (1 < fuel)%nat →
  ∃ r x' p' v', Registration_poll_io f fuel ww self cx d x p = Done (r, x', p') ∧
    updated self p v' p' ∧
    if Ready_is_empty (flags_for d (sio_readiness v)) then
      r = Pending ∧ x' = x ∧ v' = registered ww cx d v
    else
      ∃ p1, updated self p v p1 ∧ (f x p1).1.2 = x' ∧
      match (f x p1).1.1 with
      | Ok a => r = Ready_ (Ok a) ∧ v' = v
      | Err e =>
          if decide (err_kind e = WouldBlock) then
            r = Pending ∧
            v' = registered ww cx d (with_readiness (consume d (sio_readiness v)) v) ∧
            Ready_is_empty (flags_for d (sio_readiness v')) = true ∧
            flags_for (other_direction d) (sio_readiness v') =
              flags_for (other_direction d) (sio_readiness v)
          else r = Ready_ (Err e) ∧ v' = v
      end.
Proof.
  intros Hq Hg Hok Hopen Hfuel. unfold Registration_poll_io.
  destruct (Ready_is_empty (flags_for d (sio_readiness v))) eqn:He.
  - rewrite (loop_break _ _ _ _ (poll_io_turn_pending f fuel ww self cx d x p v Hg Hok He)) by lia.
    do 4 eexists. split; [done|]. split; [by apply updated_write; rewrite Hg|done].
  - pose proof (poll_io_turn_ready f fuel ww self cx d x p v Hq Hg Hok ltac:(lia) He) as Ht.
    assert (updated self p v (pool_write (reg_key self) v p)) as Hp1 by (by apply updated_write; rewrite Hg).
    destruct (f x (pool_write (reg_key self) v p)) as [[r x'] p1] eqn:Hf.
    destruct r as [a|e]; [|case_decide as Hw].
    + rewrite (loop_break _ _ _ _ Ht) by lia. do 4 eexists. split; [done|]. split; [exact Hp1|].
      exists (pool_write (reg_key self) v p). by rewrite Hf.
    + destruct fuel as [|fuel]; [lia|]. rewrite (loop_continue _ _ _ _ Ht).
      set (v1 := with_readiness (consume d (sio_readiness v)) v).
      destruct (consume_flags d (sio_readiness v) Hok) as (Hok1 & He1 & Hother).
      pose proof (updated_again self p v _ v1 Hp1) as Hp2.
      rewrite (loop_break _ _ _ _ (poll_io_turn_pending f (S fuel) ww self cx d x' _ v1
        (updated_get _ _ _ _ Hp2) Hok1 (He1 Hopen))) by lia.
      do 4 eexists. split; [done|]. split; [by eapply updated_again|].
      exists (pool_write (reg_key self) v p). split; [exact Hp1|]. rewrite Hf. split; [done|].
      cbn. rewrite decide_True by done. split_and!; [done|done|by apply He1|done].
    + rewrite (loop_break _ _ _ _ Ht) by lia. do 4 eexists. split; [done|]. split; [exact Hp1|].
      exists (pool_write (reg_key self) v p). rewrite Hf. cbn. by rewrite decide_False.
Qed.

(** Readiness that arrives while the closure runs is not lost: when the
    closure found [WouldBlock] but the driver delivered an event of a newer tick
    meanwhile, [poll_io] calls the closure again instead of going to sleep. *)
Theorem poll_io_keeps_newer_event fuel ww self cx d x p v x1 p2 v2 e a x2 :
  pool_get (reg_key self) p = Some v → word_ok (sio_readiness v) → (1 < fuel)%nat →
  Ready_is_empty (flags_for d (sio_readiness v)) = false →
  f x (pool_write (reg_key self) v p) = (Err e, x1, p2) → err_kind e = WouldBlock →
  pool_get (reg_key self) p2 = Some v2 → word_ok (sio_readiness v2) →
  word_tick (sio_readiness v2) ≠ word_tick (sio_readiness v) →
  Ready_is_empty (flags_for d (sio_readiness v2)) = false →
  (∀ p3, f x1 p3 = (Ok a, x2, p3)) →
  ∃ p', Registration_poll_io f fuel ww self cx d x p = Done (Ready_ (Ok a), x2, p') ∧
    updated self p2 v2 p'.
Proof.
  intros Hg Hok Hfuel He Hf1 Hw Hg2 Hok2 Htick He2 Hf2. unfold Registration_poll_io.
  destruct fuel as [|fuel]; [lia|].
  assert (poll_io_turn f (S fuel) ww self cx d (x, p) =
          Done (Continue (x1, pool_write (reg_key self) v2 p2))) as Ht.
  { unfold poll_io_turn. rewrite (poll_ready_spec _ _ _ _ _ _ Hg Hok), He.
    cbn [mbind outcome_bind]. rewrite Hf1, decide_True by done.
    rewrite (clear_readiness_spec _ _ _ _ _ v2) by (done || lia).
    cbn [mbind outcome_bind word_update]. rewrite bool_decide_false by done. by destruct v2. }
  rewrite (loop_continue _ _ _ _ Ht).
  assert (updated self p2 v2 (pool_write (reg_key self) v2 p2)) as Hp3
    by (by apply updated_write; rewrite Hg2).
  assert (poll_io_turn f (S fuel) ww self cx d (x1, pool_write (reg_key self) v2 p2) =
          Done (Break (Ready_ (Ok a), x2,
            pool_write (reg_key self) v2 (pool_write (reg_key self) v2 p2)))) as Ht2.
  { unfold poll_io_turn. rewrite (poll_ready_spec _ _ _ _ _ _ (updated_get _ _ _ _ Hp3) Hok2), He2.
    cbn [mbind outcome_bind]. by rewrite Hf2. }
  rewrite (loop_break _ _ _ _ Ht2) by lia. eexists. split; [done|]. by eapply updated_again.
Qed.

(** A closed direction stays ready: if the closure keeps answering
    [WouldBlock] there, [poll_io] calls it again and again and never returns. *)
Theorem poll_io_closed_direction_spins fuel ww self cx d x p v :
  undisturbed f → (∀ x p, ∃ e, (f x p).1.1 = Err e ∧ err_kind e = WouldBlock) →
  pool_get (reg_key self) p = Some v → word_ok (sio_readiness v) →
  ~ direction_open d (sio_readiness v) →
  Registration_poll_io f fuel ww self cx d x p = OutOfFuel.
Proof.
  intros Hq Hblock Hg Hok Hclosed. unfold Registration_poll_io. destruct fuel as [|fuel]; [done|].
  apply (loop_diverges _ (λ st, ∃ v, pool_get (reg_key self) st.2 = Some v ∧
    word_ok (sio_readiness v) ∧ ~ direction_open d (sio_readiness v))); [|by exists v].
  clear x p v Hg Hok Hclosed. intros [x p] (v & Hg & Hok & Hclosed). cbn in Hg.
  pose proof (closed_not_empty d _ Hclosed) as He.
  pose proof (poll_io_turn_ready f (S fuel) ww self cx d x p v Hq Hg Hok ltac:(lia) He) as Ht.
  destruct (Hblock x (pool_write (reg_key self) v p)) as (e & Hfe & Hw).
  destruct (f x (pool_write (reg_key self) v p)) as [[r x'] p1]. cbn in Hfe. subst r.
  rewrite decide_True in Ht by done. eexists. split; [exact Ht|].
  exists (with_readiness (consume d (sio_readiness v)) v). cbn.
  destruct (consume_flags d (sio_readiness v) Hok) as (Hok1 & _ & _).
  split_and!; [|done|intros Ho; apply Hclosed; by apply consume_open].
  eapply updated_get, updated_again, updated_write. by rewrite Hg.
Qed.

(** [try_io] never waits.  Without readiness for the interest it answers
    [WouldBlock] and does not call the closure; an interest that is neither
    exactly readable nor exactly writable is never ready.  Otherwise it calls
    the closure once and hands its answer on, taking the readiness away when
    that answer is [WouldBlock]. *)
Theorem try_io_spec `{!MioInterestLaws I} fuel self (interest : I) x p v :
  undisturbed f → pool_get (reg_key self) p = Some v → word_ok (sio_readiness v) → (0 < fuel)%nat →
  (interest ≠ INTEREST_READABLE → interest ≠ INTEREST_WRITABLE →
   Registration_try_io f fuel self interest x p = Done (Err (error_of_kind WouldBlock), x, p)) ∧
  (∀ d, interest = match d with Read => INTEREST_READABLE | Write_ => INTEREST_WRITABLE end →
   let '(r, x', _) := f x p in
   if Ready_is_empty (flags_for d (sio_readiness v)) then
     Registration_try_io f fuel self interest x p = Done (Err (error_of_kind WouldBlock), x, p)
   else
     match r with
     | Ok a => Registration_try_io f fuel self interest x p = Done (Ok a, x', p)
     | Err e =>
         if decide (err_kind e = WouldBlock) then
           ∃ p', Registration_try_io f fuel self interest x p =
                   Done (Err (error_of_kind WouldBlock), x', p') ∧
                 updated self p (with_readiness (consume d (sio_readiness v)) v) p'
         else Registration_try_io f fuel self interest x p = Done (Err e, x', p)
     end).
Proof.
  intros Hq Hg Hok Hfuel. split.
  - intros Hr Hw. unfold Registration_try_io. rewrite (slot_spec _ _ _ Hg). cbn [mbind outcome_bind].
    rewrite ready_event_spec by done. cbn [mbind outcome_bind ev_ready event_at].
    unfold interest_mask. by rewrite decide_False, decide_False by done.
  - intros d Hi. pose proof (Hq x p) as Hp. destruct (f x p) as [[r x'] p1] eqn:Hf.
    cbn in Hp. subst p1. unfold Registration_try_io. rewrite (slot_spec _ _ _ Hg).
    cbn [mbind outcome_bind]. rewrite ready_event_spec by done.
    rewrite (interest_mask_direction _ d Hi).
    change (Ready_bitand (Direction_mask d) (word_ready (sio_readiness v)))
      with (flags_for d (sio_readiness v)).
    cbn [mbind outcome_bind ev_ready event_at].
    destruct (Ready_is_empty (flags_for d (sio_readiness v))) eqn:He; [done|].
    rewrite Hf. destruct r as [a|e]; [done|]. case_decide; [|done].
    rewrite (clear_readiness_spec _ _ _ _ _ v) by done. eexists. split; [done|].
    apply updated_write. by rewrite Hg.
Qed.
End properties.

(** ** Examples *)

Module RegistrationRef.
Import MioRef PinListRef DriverRef.

(** A closure that answers from a script and then would block. *)
Definition script (x : list (io_result Z)) (p : pool) : io_result Z * list (io_result Z) * pool :=
  (default (Err (error_of_kind WouldBlock)) (head x), tail x, p).

(** A slot whose word has the given flags and tick. *)
Definition slot_with (flags tick : Z) : resource :=
  mkScheduledIo (word_of (mkReady flags) tick 0) (mkWaiters (mkView [] ∅) None None).

Definition slab_with (flags tick : Z) : pool := mkPool 1 {[0 := slot_with flags tick]}.

Definition self : Registration := mkRegistration 0.

(** A closure that first blocks while the driver delivers tick 6, then succeeds. *)
Definition disturbed (x : nat) (p : pool) : io_result Z * nat * pool :=
  match x with
  | O => (Err (error_of_kind WouldBlock), 1%nat, slab_with 1 6)
  | _ => (Ok 42, 2%nat, p)
  end.

Lemma slot_with_ok flags tick :
  0 ≤ flags < 16 → 0 ≤ tick < 256 → word_ok (sio_readiness (slot_with flags tick)).
Proof. intros ? ?. by apply word_of_ok. Qed.
End RegistrationRef.

Import MioRef PinListRef DriverRef RegistrationRef.

Lemma poll_io_open_direction_witness :
  ∃ p' v', Registration_poll_io script 2 (λ _ _, false) self 8%nat Read [] (slab_with 3 5) =
             Done (Pending, [], p') ∧
    updated self (slab_with 3 5) v' p' ∧
    Ready_is_empty (flags_for Read (sio_readiness v')) = true.
Proof.
  destruct (poll_io_open_direction script 2 (λ _ _, false) self 8%nat Read [] (slab_with 3 5)
    (slot_with 3 5)) as (r & x' & p' & v' & Hrun & Hup & Hcase).
  - intros x p. reflexivity.
  - reflexivity.
  - apply slot_with_ok; lia.
  - vm_compute. reflexivity.
  - lia.
  - exists p', v'. rewrite Hrun. destruct Hcase as (p1 & _ & Hx & -> & _ & He & _).
    split_and!; [by rewrite <- Hx|exact Hup|exact He].
Defined.

Lemma poll_io_keeps_newer_event_witness :
  ∃ p', Registration_poll_io disturbed 2 (λ _ _, false) self 8%nat Read 0%nat (slab_with 1 5) =
          Done (Ready_ (Ok 42), 2%nat, p') ∧
    updated self (slab_with 1 6) (slot_with 1 6) p'.
Proof.
  apply (poll_io_keeps_newer_event disturbed 2 (λ _ _, false) self 8%nat Read 0%nat (slab_with 1 5)
    (slot_with 1 5) 1%nat (slab_with 1 6) (slot_with 1 6) (error_of_kind WouldBlock) 42 2%nat).
  all: try (apply slot_with_ok; lia).
  all: try lia; try (vm_compute; reflexivity).
  - vm_compute. discriminate.
Defined.

Lemma poll_io_closed_direction_spins_witness :
  Registration_poll_io (λ (x : unit) p, (Err (error_of_kind WouldBlock) : io_result Z, x, p))
    1000 (λ _ _, false) self 8%nat Read () (slab_with 4 5) = OutOfFuel.
Proof.
  apply (poll_io_closed_direction_spins
    (λ (x : unit) p, (Err (error_of_kind WouldBlock) : io_result Z, x, p))
    1000 (λ _ _, false) self 8%nat Read () (slab_with 4 5) (slot_with 4 5)).
  - intros x p. reflexivity.
  - intros x p. eexists. split; reflexivity.
  - reflexivity.
  - apply slot_with_ok; lia.
  - vm_compute. discriminate.
Defined.

Lemma try_io_spec_witness :
  Registration_try_io script 1 self (mkInterest true true) [Ok 3] (slab_with 3 5) =
    Done (Err (error_of_kind WouldBlock), [Ok 3], slab_with 3 5) ∧
  Registration_try_io script 1 self INTEREST_WRITABLE [Ok 3] (slab_with 3 5) =
    Done (Ok 3, [], slab_with 3 5).
Proof.
  split.
  - apply (try_io_spec script 1 self (mkInterest true true) [Ok 3] (slab_with 3 5) (slot_with 3 5)).
    + intros x p. reflexivity.
    + reflexivity.
    + apply slot_with_ok; lia.
    + lia.
    + discriminate.
    + discriminate.
  - apply (try_io_spec script 1 self INTEREST_WRITABLE [Ok 3] (slab_with 3 5) (slot_with 3 5))
      with (d := Write_).
    + intros x p. reflexivity.
    + reflexivity.
    + apply slot_with_ok; lia.
    + lia.
    + reflexivity.
Defined.
