(* ===== verification/AsyncIo.v ===== *)
(** * AsyncIo: properties of the async operations of a registration
      (src/src/io/registration.rs, [readiness] and [async_io])

    The definitions are in [Registration]; this file shows what one poll of the
    future of [async_io] does, from its start or after its waiter was notified. *)

From S2P Require Import Prelude Bits Ready PinList ScheduledIo IoDriver Registration.

Local Open Scope Z_scope.

Section async_io.
Context {L C W I Po : Type}.
Context `{PinListOps L C W I, !PinListLaws L C W I, MioInterest I, !MioInterestLaws I,
  !Pool Po (ScheduledIo L W), !PoolLaws Po L C W I}.
Context (self : Registration) (cx : W) (d : Direction) (interest : I).
Implicit Types (v : ScheduledIo L W) (p : Po) (fut : Readiness I).

(** The interest of a direction. *)
Definition interest_of (d : Direction) (i : I) : Prop :=
  i = match d with Read => INTEREST_READABLE | Write_ => INTEREST_WRITABLE end.

Definition waiters_of v : list (waiter W I) := linked (pl_view (wt_list (sio_waiters v))).

(** The future was not polled yet, or its waiter was taken off the list. *)
Definition resumable fut v : Prop :=
  rd_interest fut = interest ∧
  match rd_state fut with
  | State_Init => ¬ node_linked (rd_waiter fut) v
  | State_Waiting => node_removed (rd_waiter fut) v
  | State_Done => False
  end.

(** A fresh future is ready when the flags say so; a notified one is ready. *)
Definition resolves fut v : bool :=
  match rd_state fut with
  | State_Init => negb (Ready_is_empty (flags_for d (sio_readiness v)))
  | _ => true
  end.

Lemma flags_of_direction m : interest_of d interest → flags_of interest m = flags_for d m.
Proof using MioInterestLaws0.
  intros ->. unfold flags_of, flags_for, Ready_intersection, Ready_bitand, Ready_from_interest.
  destruct d; cbn [ready_0]; rewrite Z.land_comm;
    rewrite ?READABLE_is_readable, ?READABLE_is_writable, ?WRITABLE_is_readable, ?WRITABLE_is_writable;
    by vm_compute (ready_0 (Ready_bitor _ _)); vm_compute (ready_0 (Direction_mask _)).
Qed.

(** The inner future is ready: the event it gives, and what it leaves behind. *)
Lemma readiness_poll_resolves fuel p v fut :
  interest_of d interest → pool_get (reg_key self) p = Some v → word_ok (sio_readiness v) →
  (1 < fuel)%nat → resumable fut v → resolves fut v = true →
  ∃ fut' p1 v1,
    Registration_readiness_poll fuel self cx fut p =
      Done (Ready_ (Ok (event_at (flags_for d (sio_readiness v)) (sio_readiness v))), fut', p1) ∧
    updated self p v1 p1 ∧ sio_readiness v1 = sio_readiness v ∧ waiters_of v1 = waiters_of v.
Proof.
  intros Hd Hg Hok Hfuel [Hi Hst] Hres. unfold Registration_readiness_poll.
  rewrite (slot_spec _ _ _ Hg). cbn [mbind outcome_bind]. unfold resolves in Hres.
  destruct (rd_state fut) eqn:Hs; [| |done].
  - apply negb_true_iff in Hres.
    pose proof (Readiness_turn_init (λ _, sio_readiness v) cx 0 fut v (λ _, Hok) Hs) as Ht.
    rewrite Hi, flags_of_direction, Hres in Ht by done. unfold Readiness_poll.
    rewrite (loop_break _ _ _ _ Ht) by lia. cbn. do 3 eexists. split; [done|].
    split; [by apply updated_write; rewrite Hg|done].
  - destruct (Readiness_poll_notified fuel (λ _, sio_readiness v) cx fut v (λ _, Hok) Hs Hst Hfuel)
      as (l' & Hv & ->).
    rewrite Hi, flags_of_direction by done. cbn. do 3 eexists. split; [done|].
    split; [by apply updated_write; rewrite Hg|]. split; [done|]. unfold waiters_of. cbn. by rewrite Hv.
Qed.

(** The inner future is not ready: its waiter is in the list. *)
Lemma readiness_poll_waits fuel p v n :
  interest_of d interest → pool_get (reg_key self) p = Some v → word_ok (sio_readiness v) →
  (1 < fuel)%nat → ¬ node_linked n v → Ready_is_empty (flags_for d (sio_readiness v)) = true →
  ∃ p1 v1,
    Registration_readiness_poll fuel self cx (readiness_future interest n) p =
      Done (Pending, mkReadiness State_Waiting interest n, p1) ∧
    updated self p v1 p1 ∧ sio_readiness v1 = sio_readiness v ∧
    waiters_of v1 = mkWaiter n cx interest :: waiters_of v.
Proof.
  intros Hd Hg Hok Hfuel Hn He. unfold Registration_readiness_poll.
  rewrite (slot_spec _ _ _ Hg). cbn [mbind outcome_bind].
  destruct (Readiness_poll_registers fuel (λ _, sio_readiness v) cx (readiness_future interest n) v)
    as (l' & Hv & ->); [done|done|done|done|cbn; by rewrite flags_of_direction..|].
  cbn. do 2 eexists. split; [done|]. split; [by apply updated_write; rewrite Hg|].
  split; [done|]. unfold waiters_of. cbn. by rewrite Hv.
Qed.

Context {X A : Type} (f : X → Po → io_result A * X * Po).

Lemma async_io_turn_waits fuel p v n n' x :
  interest_of d interest → pool_get (reg_key self) p = Some v → word_ok (sio_readiness v) →
  (1 < fuel)%nat → ¬ node_linked n v → Ready_is_empty (flags_for d (sio_readiness v)) = true →
  ∃ p1 v1,
    async_io_turn f fuel self cx interest (readiness_future interest n, n', x, p) =
      Done (Break (Pending, (mkReadiness State_Waiting interest n, n'), x, p1)) ∧
    updated self p v1 p1 ∧ sio_readiness v1 = sio_readiness v ∧
    waiters_of v1 = mkWaiter n cx interest :: waiters_of v.
Proof.
  intros. destruct (readiness_poll_waits fuel p v n) as (p1 & v1 & Hrun & Hrest); [done..|].
  exists p1, v1. unfold async_io_turn. by rewrite Hrun.
Qed.

(** A turn that calls the operation. *)
Lemma async_io_turn_calls fuel p v fut n x :
  undisturbed f → interest_of d interest → pool_get (reg_key self) p = Some v →
  word_ok (sio_readiness v) → (1 < fuel)%nat → resumable fut v → resolves fut v = true →
  ∃ fut1 p1 v1, updated self p v1 p1 ∧ sio_readiness v1 = sio_readiness v ∧
    waiters_of v1 = waiters_of v ∧
    async_io_turn f fuel self cx interest (fut, n, x, p) = Done
      match (f x p1).1.1 with
      | Err e =>
          if decide (err_kind e = WouldBlock) then
            Continue (readiness_future interest n, n + 1, (f x p1).1.2,
              pool_write (reg_key self) (with_readiness (consume d (sio_readiness v)) v1) p1)%nat
          else Break (Ready_ (Err e), (fut1, n), (f x p1).1.2, p1)
      | Ok a => Break (Ready_ (Ok a), (fut1, n), (f x p1).1.2, p1)
      end.
Proof.
  intros Hq Hd Hg Hok Hfuel Hres Hr.
  destruct (readiness_poll_resolves fuel p v fut) as (fut1 & p1 & v1 & Hrun & Hup & Hm & Hl); [done..|].
  exists fut1, p1, v1. split_and!; [done..|]. unfold async_io_turn. rewrite Hrun. cbn [mbind outcome_bind].
  pose proof (Hq x p1) as Hp. destruct (f x p1) as [[r x'] p1'] eqn:Hf. cbn in Hp. subst p1'.
  destruct r as [a|e]; [done|]. cbn. case_decide; [|done].
  rewrite (clear_readiness_spec _ _ _ _ _ v1) by (lia || by apply (updated_get _ _ _ _ Hup)).
  by rewrite Hm.
Qed.

(** One poll of [async_io] on a direction that is not closed, at its start or
    after its waiter was notified.  If a fresh future finds nothing ready, its
    waiter enters the list and the operation is not called.  Otherwise it is
    called exactly once and its answer returned, with the readiness word and the
    list of waiters as they were; except that [WouldBlock] takes the readiness of
    this direction away and leaves a new waiter for the task at the front of the
    list, [Pending]. *)
Lemma async_io_poll_spec fuel p v fut n x :
  undisturbed f → interest_of d interest → pool_get (reg_key self) p = Some v →
  word_ok (sio_readiness v) → direction_open d (sio_readiness v) → (1 < fuel)%nat →
  resumable fut v → ¬ node_linked n v →
  ∃ r fut' n' x' p' v',
    Registration_async_io_poll f fuel self cx interest fut n x p = Done (r, (fut', n'), x', p') ∧
    updated self p v' p' ∧
    if resolves fut v then
      ∃ p1 v1, updated self p v1 p1 ∧ sio_readiness v1 = sio_readiness v ∧
        waiters_of v1 = waiters_of v ∧ (f x p1).1.2 = x' ∧
      match (f x p1).1.1 with
      | Err e =>
          if decide (err_kind e = WouldBlock) then
            r = Pending ∧ rd_state fut' = State_Waiting ∧
            sio_readiness v' = consume d (sio_readiness v) ∧
            Ready_is_empty (flags_for d (sio_readiness v')) = true ∧
            waiters_of v' = mkWaiter n cx interest :: waiters_of v
          else r = Ready_ (Err e) ∧ sio_readiness v' = sio_readiness v ∧ waiters_of v' = waiters_of v
      | Ok a => r = Ready_ (Ok a) ∧ sio_readiness v' = sio_readiness v ∧ waiters_of v' = waiters_of v
      end
    else
      r = Pending ∧ x' = x ∧ rd_state fut' = State_Waiting ∧
      sio_readiness v' = sio_readiness v ∧
      waiters_of v' = mkWaiter (rd_waiter fut) cx interest :: waiters_of v.
Proof.
  intros Hq Hd Hg Hok Hopen Hfuel Hres Hn. unfold Registration_async_io_poll.
  destruct (resolves fut v) eqn:Hr.
  2:{ destruct fut as [[] i w]; destruct Hres as [Hi Hw]; cbn in Hi, Hw, Hr; [|done..]. subst i.
      apply negb_false_iff in Hr.
      destruct (async_io_turn_waits fuel p v w n x) as (p1 & v1 & Ht & Hup & Hm & Hl); [done..|].
      unfold readiness_future in Ht. rewrite (loop_break _ _ _ _ Ht) by lia. do 6 eexists.
      split; [done|]. split; [exact Hup|done]. }
  destruct (async_io_turn_calls fuel p v fut n x) as (fut1 & p1 & v1 & Hup & Hm & Hl & Ht); [done..|].
  destruct (f x p1) as [[[a|e] x'] p1'] eqn:Hf; cbn [fst snd] in Ht; [|case_decide as Hw].
  - rewrite (loop_break _ _ _ _ Ht) by lia. do 6 eexists. split; [done|]. split; [exact Hup|].
    exists p1, v1. by rewrite Hf.
  - destruct fuel as [|fuel]; [lia|]. rewrite (loop_continue _ _ _ _ Ht).
    destruct (consume_flags d (sio_readiness v) Hok) as (Hok1 & He1 & _).
    set (v2 := with_readiness (consume d (sio_readiness v)) v1).
    pose proof (updated_again self p v1 _ v2 Hup) as Hup2.
    assert (¬ node_linked n v2) as Hn2.
    { unfold node_linked, view_nodes. change (linked _) with (waiters_of v1). by rewrite Hl. }
    destruct (async_io_turn_waits (S fuel) _ v2 n (n + 1)%nat x' Hd (updated_get _ _ _ _ Hup2) Hok1
      Hfuel Hn2 (He1 Hopen)) as (p3 & v3 & Ht3 & Hup3 & Hm3 & Hl3).
    rewrite (loop_break _ _ _ _ Ht3) by lia. do 6 eexists. split; [done|].
    split; [unfold updated in *; rewrite Hup3, Hup2; apply insert_insert_eq|].
    exists p1, v1. rewrite Hf. cbn. rewrite decide_True, Hm3, Hl3 by done.
    split_and!; [done..|by apply He1|]. by rewrite <- Hl.
  - rewrite (loop_break _ _ _ _ Ht) by lia. do 6 eexists. split; [done|]. split; [exact Hup|].
    exists p1, v1. rewrite Hf. cbn. by rewrite decide_False.
Qed.
End async_io.

Import MioRef PinListRef DriverRef RegistrationRef.

(** A readable slot whose operation would block: one call, then the task waits. *)
Example async_io_poll_example :
  ∃ r fut' n' x' p' v',
    Registration_async_io_poll script 2 self 8%nat INTEREST_READABLE
      (readiness_future INTEREST_READABLE 0%nat) 1%nat [] (slab_with 3 5) =
      Done (r, (fut', n'), x', p') ∧
    r = Pending ∧ sio_readiness v' = consume Read (sio_readiness (slot_with 3 5)) ∧
    waiters_of v' = [mkWaiter 1%nat 8%nat INTEREST_READABLE].
Proof.
  destruct (async_io_poll_spec self 8%nat Read INTEREST_READABLE script 2 (slab_with 3 5)
    (slot_with 3 5) (readiness_future INTEREST_READABLE 0%nat) 1%nat [])
    as (r & fut' & n' & x' & p' & v' & Hrun & _ & Hcase).
  - intros x p. reflexivity.
  - reflexivity.
  - reflexivity.
  - apply slot_with_ok; lia.
  - vm_compute. reflexivity.
  - lia.
  - split; [reflexivity|]. apply not_elem_of_nil.
  - apply not_elem_of_nil.
  - exists r, fut', n', x', p', v'. rewrite Hrun.
    destruct Hcase as (p1 & v1 & _ & _ & _ & _ & -> & _ & Hm & _ & Hl). by split_and!.
Qed.
