(* ===== verification/IoConc.v ===== *)
(** * IoConc: one I/O resource between the driver, its users and the kernel
      (src/src/io/mod.rs, src/src/io/registration.rs)

    The steps of [ScheduledIo] and [Registration], taken apart: a step is one
    access to the readiness word, one acquisition of the lock of the waiters, one
    access under that lock, one system call or one wake-up.  The last access of
    a critical section also releases the lock.  The driver, any number of users
    and the kernel take their steps in any order.

    The kernel is edge-triggered: when the resource becomes ready in a direction,
    it posts an event once.  It may post events without a reason, and what became
    ready can be drained by others. *)

From stdpp Require Import functions.
From S2P Require Import Prelude Bits Ready PinList ScheduledIo IoDriver Registration AsyncIo.

Local Open Scope Z_scope.

(** ** Definitions *)

#[export] Instance Direction_eq_dec : EqDecision Direction.
Proof. solve_decision. Defined.

(** Who uses the resource: [poll_io], which has one slot per direction; the
    futures of [async_io], by the node of their [Readiness]; callers of [try_io]. *)
Inductive user : Type :=
| PollIo (d : Direction)
| AsyncIo (n : node)
| TryIo (n : nat).

#[export] Instance user_eq_dec : EqDecision user.
Proof. solve_decision. Defined.

Inductive io_thread : Type := TDriver | TUser (u : user).

#[export] Instance io_thread_eq_dec : EqDecision io_thread.
Proof. solve_decision. Defined.

(** Where a user is.  [UAsleep] has returned [Pending]; [UCall], [UClearLoad] and
    [UClearCas] hold the event they were given. *)
Inductive user_pc : Type :=
| UIdle
| ULoad
| UWantLock
| UStore
| ULoadLocked
| UPush
| UWantRelock
| URecheck
| ULoadDone
| UAsleep
| UCall (ev : ReadyEvent)
| UClearLoad (ev : ReadyEvent)
| UClearCas (ev : ReadyEvent) (current : Z).

(** [u_task] is the task of the latest poll, and stands for its waker; [u_woken]
    says whether that task was woken since. *)
Record user_state : Type := mkUser {
  u_pc : user_pc;
  u_task : nat;
  u_woken : bool;
}.

(** The array of wakers that [wake] fills, and whether it goes on afterwards. *)
Inductive driver_pc (C : Type) : Type :=
| DTurn
| DLoad (ready : Ready)
| DCas (ready : Ready) (current : Z)
| DLock (ready : Ready)
| DTake (ready : Ready)
| DScan (ready : Ready) (cursor : C) (wakers : list nat)
| DWake (ready : Ready) (wakers : list nat) (again : bool)
| DRelock (ready : Ready).
Arguments DTurn {C}.
Arguments DLoad {C}.
Arguments DCas {C}.
Arguments DLock {C}.
Arguments DTake {C}.
Arguments DScan {C}.
Arguments DWake {C}.
Arguments DRelock {C}.

(** The whole system.  [io_ready] is what a call would find, [io_pending] the event
    that the kernel has posted and the driver not yet fetched. *)
Record io (L C : Type) : Type := mkIo {
  io_res : ScheduledIo L nat;
  io_lock : option io_thread;
  io_tick : Z;
  io_driver : driver_pc C;
  io_ready : Direction → bool;
  io_pending : Ready;
  io_users : user → user_state;
}.
Arguments mkIo {L C}.
Arguments io_res {L C}.
Arguments io_lock {L C}.
Arguments io_tick {L C}.
Arguments io_driver {L C}.
Arguments io_ready {L C}.
Arguments io_pending {L C}.
Arguments io_users {L C}.

(** The flags that concern a direction. *)
Definition has (d : Direction) (r : Ready) : bool :=
  negb (Ready_is_empty (Ready_bitand (Direction_mask d) r)).

Section io.
Context {L C I : Type} `{PinListOps L C nat I, MioInterest I}.
Context (will_wake : nat → nat → bool).
(** The direction of each future and each call. *)
Context (dir : nat → Direction).
Implicit Types (s : io L C) (u : user).

Definition interest_for (d : Direction) : I :=
  match d with Read => INTEREST_READABLE | Write_ => INTEREST_WRITABLE end.

Definition user_dir (u : user) : Direction :=
  match u with PollIo d => d | AsyncIo n | TryIo n => dir n end.

(** *** Updates of the system *)

Definition with_pc (u : user) (pc : user_pc) s : io L C :=
  mkIo (io_res s) (io_lock s) (io_tick s) (io_driver s) (io_ready s) (io_pending s)
    (<[u := mkUser pc (u_task (io_users s u)) (u_woken (io_users s u))]> (io_users s)).
Definition with_driver (pc : driver_pc C) s : io L C :=
  mkIo (io_res s) (io_lock s) (io_tick s) pc (io_ready s) (io_pending s) (io_users s).
Definition with_word (m : Z) s : io L C :=
  mkIo (with_readiness m (io_res s)) (io_lock s) (io_tick s) (io_driver s) (io_ready s)
    (io_pending s) (io_users s).
Definition with_wait (w : Waiters L nat) s : io L C :=
  mkIo (with_waiters w (io_res s)) (io_lock s) (io_tick s) (io_driver s) (io_ready s)
    (io_pending s) (io_users s).
Definition with_lock (o : option io_thread) s : io L C :=
  mkIo (io_res s) o (io_tick s) (io_driver s) (io_ready s) (io_pending s) (io_users s).
Definition with_tick (t : Z) s : io L C :=
  mkIo (io_res s) (io_lock s) t (io_driver s) (io_ready s) (io_pending s) (io_users s).
Definition with_kernel (ready : Direction → bool) (pending : Ready) s : io L C :=
  mkIo (io_res s) (io_lock s) (io_tick s) (io_driver s) ready pending (io_users s).

Definition word s : Z := sio_readiness (io_res s).
Definition waiters s : Waiters L nat := sio_waiters (io_res s).

(** [self.waiters.lock()], which waits while the lock is taken. *)
Definition acquire (t : io_thread) s : option (io L C) :=
  match io_lock s with None => Some (with_lock (Some t) s) | Some _ => None end.
Definition release s : io L C := with_lock None s.

(** The waker of task [t] is called: everything that [t] polls will be polled again. *)
Definition notify (t : nat) s : io L C :=
  mkIo (io_res s) (io_lock s) (io_tick s) (io_driver s) (io_ready s) (io_pending s)
    (λ u, let x := io_users s u in
          mkUser (u_pc x) (u_task x) (u_woken x || bool_decide (u_task x = t))).

(** *** The users *)

(** The flags of a word that a user looks at: [direction.mask() & ..] in
    [poll_readiness], [ready.intersection(interest)] in the future, and
    [mask(interest) & ..] in [ready_event]. *)
Definition observed (u : user) (m : Z) : Ready :=
  match u with
  | PollIo d => flags_for d m
  | AsyncIo n => flags_of (interest_for (dir n)) m
  | TryIo n => Ready_bitand (interest_mask (interest_for (dir n))) (word_ready m)
  end.

Definition is_shut (m : Z) : bool := bool_decide (word_shutdown m ≠ 0).

Definition load_event (u : user) (m : Z) : ReadyEvent :=
  mkReadyEvent (word_tick m) (observed u m) (is_shut m).

(** The event of the second load, under the lock, where a shutdown counts as
    every flag. *)
Definition locked_event (u : user) (m : Z) : ReadyEvent :=
  if is_shut m then
    mkReadyEvent (word_tick m)
      (match u with
       | PollIo d => Direction_mask d
       | AsyncIo n | TryIo n => Ready_intersection Ready_ALL (interest_for (dir n))
       end) true
  else load_event u m.

Definition not_ready (ev : ReadyEvent) : bool :=
  Ready_is_empty (ev_ready ev) && negb (ev_is_shutdown ev).

(** [if ev.is_shutdown { return Err(gone()) }], and then the call. *)
Definition with_event (ev : ReadyEvent) : user_pc :=
  if ev_is_shutdown ev then UIdle else UCall ev.

(** [poll_readiness]. *)
Definition poll_readiness_step (d : Direction) s : option (io L C) :=
  let u := PollIo d in
  match u_pc (io_users s u) with
  | ULoad =>
      let ev := load_event u (word s) in
      Some (with_pc u (if not_ready ev then UWantLock else with_event ev) s)
  | UWantLock => with_pc u UStore <$> acquire (TUser u) s
  | UStore =>
      let w := waiters s in
      let slot := store_waker will_wake (u_task (io_users s u)) (slot_of d w) in
      Some (with_pc u ULoadLocked (with_wait (with_slot d slot w) s))
  | ULoadLocked =>
      let ev := locked_event u (word s) in
      Some (with_pc u (if not_ready ev then UAsleep else with_event ev) (release s))
  | _ => None
  end.

(** [Readiness::poll]: [State::Init] up to [UPush], [State::Waiting] from
    [UWantRelock] on, [State::Done] at [ULoadDone]. *)
Definition readiness_step (n : node) s : option (io L C) :=
  let u := AsyncIo n in
  let interest := interest_for (dir n) in
  let w := waiters s in
  match u_pc (io_users s u) with
  | ULoad =>
      let ev := load_event u (word s) in
      Some (with_pc u (if not_ready ev then UWantLock else with_event ev) s)
  | UWantLock => with_pc u ULoadLocked <$> acquire (TUser u) s
  | ULoadLocked =>
      let ev := locked_event u (word s) in
      Some (if not_ready ev then with_pc u UPush s
            else with_pc u (with_event ev) (release s))
  | UPush =>
      let l := pl_push_front n (u_task (io_users s u)) interest (wt_list w) in
      Some (with_pc u UWantRelock (release (with_wait (with_list l w) s)))
  | UWantRelock => with_pc u URecheck <$> acquire (TUser u) s
  | URecheck =>
      if pl_initialized n (wt_list w) then
        match pl_protected n (wt_list w) with
        | Some _ =>
            let l := pl_set_protected n (u_task (io_users s u)) (wt_list w) in
            Some (with_pc u UAsleep (release (with_wait (with_list l w) s)))
        | None =>
            l ← pl_take_removed n (wt_list w);
            Some (with_pc u ULoadDone (release (with_wait (with_list l w) s)))
        end
      else Some (with_pc u ULoadDone (release s))
  | ULoadDone => Some (with_pc u (with_event (load_event u (word s))) s)
  | _ => None
  end.

(** [try_io] up to its call: [ready_event], and the early return. *)
Definition try_io_step (n : nat) s : option (io L C) :=
  let u := TryIo n in
  match u_pc (io_users s u) with
  | ULoad =>
      let ev := load_event u (word s) in
      Some (with_pc u (if Ready_is_empty (ev_ready ev) then UIdle else UCall ev) s)
  | _ => None
  end.

(** The system call.  It fails with [WouldBlock] exactly when the resource is not
    ready; otherwise its result ends the operation, and it may have drained the
    resource. *)
Definition call_step (u : user) (ev : ReadyEvent) (drained : bool) s : io L C :=
  if io_ready s (user_dir u) then
    with_pc u UIdle (with_kernel (<[user_dir u := negb drained]> (io_ready s)) (io_pending s) s)
  else with_pc u (UClearLoad ev) s.

(** After [clear_readiness]: [try_io] returns, the others turn around. *)
Definition after_clear (u : user) : user_pc :=
  match u with TryIo _ => UIdle | _ => ULoad end.

Definition event_mask (ev : ReadyEvent) : Ready :=
  Ready_sub (Ready_sub (ev_ready ev) Ready_READ_CLOSED) Ready_WRITE_CLOSED.

(** The compare-exchange of [clear_readiness]. *)
Definition clear_step (u : user) (ev : ReadyEvent) (current : Z) s : option (io L C) :=
  match set_readiness_attempt (Tick_Clear (ev_tick ev))
          (λ curr, Ready_sub curr (event_mask ev)) current with
  | Done None => Some (with_pc u (after_clear u) s)
  | Done (Some next) =>
      if bool_decide (word s = current) then Some (with_pc u (after_clear u) (with_word next s))
      else Some (with_pc u (UClearCas ev (word s)) s)
  | _ => None
  end.

Definition user_step (u : user) (drained : bool) s : option (io L C) :=
  match u_pc (io_users s u) with
  | UCall ev => Some (call_step u ev drained s)
  | UClearLoad ev => Some (with_pc u (UClearCas ev (word s)) s)
  | UClearCas ev current => clear_step u ev current s
  | _ =>
      match u with
      | PollIo d => poll_readiness_step d s
      | AsyncIo n => readiness_step n s
      | TryIo n => try_io_step n s
      end
  end.

(** Task [t] polls: it starts an operation, or goes on with one that was pending. *)
Definition poll_step (u : user) (t : nat) s : option (io L C) :=
  let start pc := Some (mkIo (io_res s) (io_lock s) (io_tick s) (io_driver s) (io_ready s)
                          (io_pending s) (<[u := mkUser pc t false]> (io_users s))) in
  match u_pc (io_users s u), u with
  | UIdle, _ => start ULoad
  | UAsleep, AsyncIo _ => start UWantRelock
  | UAsleep, _ => start ULoad
  | _, _ => None
  end.

(** *** The driver *)

(** A turn of [poll_timeout] that fetches the event of this resource, or not. *)
Definition turn_step (fetch : bool) s : option (io L C) :=
  let s := with_tick (u8_wrapping_add (io_tick s) 1) s in
  if fetch then
    if Ready_is_empty (io_pending s) then None
    else Some (with_driver (DLoad (io_pending s)) (with_kernel (io_ready s) Ready_EMPTY s))
  else Some s.

(** The compare-exchange of [set_readiness(Tick::Set(..), |curr| curr | ready)]. *)
Definition store_step (ready : Ready) (current : Z) s : option (io L C) :=
  match set_readiness_attempt (Tick_Set (io_tick s)) (λ curr, Ready_bitor curr ready) current with
  | Done None => Some (with_driver (DLock ready) s)
  | Done (Some next) =>
      if bool_decide (word s = current) then Some (with_driver (DLock ready) (with_word next s))
      else Some (with_driver (DCas ready (word s)) s)
  | _ => None
  end.

(** [wake]: the two slots, *)
Definition take_step (ready : Ready) s : option (io L C) :=
  let w := waiters s in
  let readable := Ready_is_readable ready in
  let writable := Ready_is_writable ready in
  match (wakers ← if readable then take_slot (wt_reader w) [] else mret [];
         if writable then take_slot (wt_writer w) wakers else mret wakers) with
  | Done wakers =>
      let w' := mkWaiters (wt_list w) (if readable then None else wt_reader w)
                          (if writable then None else wt_writer w) in
      Some (with_driver (DScan ready (pl_cursor_front_mut (wt_list w)) wakers) (with_wait w' s))
  | _ => None
  end.

(** the list under the cursor, *)
Definition scan_step (ready : Ready) (cursor : C) (wakers : list nat) s : option (io L C) :=
  match wake_turn ready (cursor, wakers) with
  | Done (Continue (cursor, wakers)) => Some (with_driver (DScan ready cursor wakers) s)
  | Done (Break (exit, cursor, wakers)) =>
      let again := match exit with WakersFull => true | BreakOuter => false end in
      Some (with_driver (DWake ready wakers again)
              (release (with_wait (with_list (pl_cursor_end cursor) (waiters s)) s)))
  | _ => None
  end.

(** and the wake-ups without the lock. *)
Definition wake_step (ready : Ready) (wakers : list nat) (again : bool) s : io L C :=
  match wakers with
  | t :: ws => with_driver (DWake ready ws again) (notify t s)
  | [] => with_driver (if again then DRelock ready else DTurn) s
  end.

Definition driver_step (fetch : bool) s : option (io L C) :=
  match io_driver s with
  | DTurn => turn_step fetch s
  | DLoad ready => Some (with_driver (DCas ready (word s)) s)
  | DCas ready current => store_step ready current s
  | DLock ready => with_driver (DTake ready) <$> acquire TDriver s
  | DTake ready => take_step ready s
  | DScan ready cursor wakers => scan_step ready cursor wakers s
  | DWake ready wakers again => Some (wake_step ready wakers again s)
  | DRelock ready =>
      with_driver (DScan ready (pl_cursor_front_mut (wt_list (waiters s))) [])
        <$> acquire TDriver s
  end.

(** *** The kernel *)

Inductive kernel_action : Type :=
| KArrive (e : Ready)
| KSpurious (e : Ready)
| KDrain (d : Direction).

Definition kernel_step (k : kernel_action) s : option (io L C) :=
  match k with
  | KArrive e =>
      if bool_decide (0 ≤ ready_0 e < 16) then
        Some (with_kernel (λ d, io_ready s d || has d e) (Ready_bitor (io_pending s) e) s)
      else None
  | KSpurious e =>
      if bool_decide (0 ≤ ready_0 e < 16) then
        Some (with_kernel (io_ready s) (Ready_bitor (io_pending s) e) s)
      else None
  | KDrain d => Some (with_kernel (<[d := false]> (io_ready s)) (io_pending s) s)
  end.

(** *** The system *)

Inductive io_label : Type :=
| LUser (u : user) (drained : bool)
| LPoll (u : user) (t : nat)
| LDriver (fetch : bool)
| LKernel (k : kernel_action).

Definition io_exec (l : io_label) s : option (io L C) :=
  match l with
  | LUser u drained => user_step u drained s
  | LPoll u t => poll_step u t s
  | LDriver fetch => driver_step fetch s
  | LKernel k => kernel_step k s
  end.

Definition io_step s s' : Prop := ∃ l, io_exec l s = Some s'.

(** A newly registered resource: nobody has used it yet. *)
Definition io_init : io L C :=
  mkIo ScheduledIo_default None 0 DTurn (λ _, false) Ready_EMPTY (λ _, mkUser UIdle 0 false).
End io.
