(* ===== verification/IoConcSteps.v ===== *)
(** * IoConcSteps: without interference the steps compute the functions

    [IoConc] takes the operations of [ScheduledIo] apart.  Here their steps are put
    together again: taken one after the other, with nobody in between, they
    compute [poll_readiness], the poll of [Readiness], [clear_readiness], and what
    the driver does for an event. *)

From stdpp Require Import functions.
From S2P Require Import Prelude Bits Ready PinList ScheduledIo IoConc.

Local Open Scope Z_scope.

Section steps.
Context {L C I : Type} `{PinListOps L C nat I, MioInterest I}.
Context (will_wake : nat → nat → bool) (dir : nat → Direction).
Implicit Types (s : io L C) (u : user).

(** One step of user [u], and one of the driver. *)
Definition uses u s s' : Prop := ∃ b, user_step (I := I) will_wake dir u b s = Some s'.
Definition driver_moves s s' : Prop := ∃ b, driver_step (I := I) b s = Some s'.

Lemma with_pc_at u pc s : u_pc (io_users (with_pc u pc s) u) = pc.
Proof. cbn. by rewrite fn_lookup_insert. Qed.

Lemma with_pc_task u pc s : u_task (io_users (with_pc u pc s) u) = u_task (io_users s u).
Proof. cbn. by rewrite fn_lookup_insert. Qed.

(** Look up the user who moved. *)
Ltac at_user := cbn; rewrite ?fn_lookup_insert; cbn; rewrite ?fn_lookup_insert; done.

(** *** [poll_readiness] *)

(** Where a poll that ends with [p] leaves its user. *)
Definition pc_after (p : poll ReadyEvent) : user_pc :=
  match p with Ready_ ev => with_event ev | Pending => UAsleep end.

(** A user that is not at its call or its clearing is inside its poll. *)
Lemma use_poll d s s1 s' :
  poll_readiness_step (I := I) will_wake dir d s = Some s1 →
  rtc (uses (PollIo d)) s1 s' → rtc (uses (PollIo d)) s s'.
Proof.
  intros Hstep. apply rtc_l. exists false. unfold user_step. revert Hstep.
  unfold poll_readiness_step. by destruct (u_pc (io_users s (PollIo d))).
Qed.

Lemma use_future n s s1 s' :
  readiness_step (I := I) dir n s = Some s1 →
  rtc (uses (AsyncIo n)) s1 s' → rtc (uses (AsyncIo n)) s s'.
Proof.
  intros Hstep. apply rtc_l. exists false. unfold user_step. revert Hstep.
  unfold readiness_step. by destruct (u_pc (io_users s (AsyncIo n))).
Qed.

(** The critical section of [poll_readiness]. *)
Lemma poll_readiness_locked s d :
  let u := PollIo d in
  u_pc (io_users s u) = UWantLock → io_lock s = None →
  let slot := store_waker will_wake (u_task (io_users s u)) (slot_of d (waiters s)) in
  let ev := locked_event (I := I) dir u (word s) in
  ∃ s', rtc (uses u) s s' ∧ io_lock s' = None ∧
    io_res s' = with_waiters (with_slot d slot (waiters s)) (io_res s) ∧
    u_pc (io_users s' u) = if not_ready ev then UAsleep else with_event ev.
Proof.
  intros u Hpc Hl slot ev.
  set (s1 := with_pc u UStore (with_lock (Some (TUser u)) s)).
  set (s2 := with_pc u ULoadLocked (with_wait (with_slot d slot (waiters s)) s1)).
  exists (with_pc u (if not_ready ev then UAsleep else with_event ev) (release s2)).
  split; [|by rewrite with_pc_at].
  apply (use_poll d s s1).
  { unfold poll_readiness_step. fold u. rewrite Hpc. unfold acquire. by rewrite Hl. }
  apply (use_poll d s1 s2).
  { unfold poll_readiness_step. fold u. unfold s1 at 1. rewrite with_pc_at.
    unfold s1 at 1. by rewrite with_pc_task. }
  eapply (use_poll d s2); [|apply rtc_refl].
  unfold poll_readiness_step. fold u. unfold s2 at 1. by rewrite with_pc_at.
Qed.

Lemma poll_readiness_steps s d p res :
  u_pc (io_users s (PollIo d)) = ULoad → io_lock s = None →
  ScheduledIo_poll_readiness will_wake (word s) (word s) (io_res s)
    (u_task (io_users s (PollIo d))) d = Done (p, res) →
  ∃ s', rtc (uses (PollIo d)) s s' ∧ io_res s' = res ∧ io_lock s' = None ∧
    u_pc (io_users s' (PollIo d)) = pc_after p.
Proof.
  intros Hpc Hl Hrun. set (u := PollIo d) in *. unfold ScheduledIo_poll_readiness in Hrun.
  autorewrite with arc_word in Hrun. cbn [mbind outcome_bind mret outcome_ret] in Hrun.
  autorewrite with arc_word in Hrun. cbn [mbind outcome_bind mret outcome_ret] in Hrun.
  set (ev := load_event (I := I) dir u (word s)).
  set (s1 := with_pc u (if not_ready ev then UWantLock else with_event ev) s).
  assert (poll_readiness_step (I := I) will_wake dir d s = Some s1) as Hst1.
  { unfold poll_readiness_step. fold u. by rewrite Hpc. }
  change (Ready_is_empty (Ready_bitand (Direction_mask d) (Ready_from_usize (word s))) &&
    negb (bool_decide (word_shutdown (word s) ≠ 0))) with (not_ready ev) in Hrun.
  destruct (not_ready ev) eqn:Hr.
  - destruct (poll_readiness_locked s1 d) as (s' & Hs' & Hl' & Hres & Hpc');
      [by apply with_pc_at|done|].
    fold u in Hpc', Hres. exists s'. split; [by eapply use_poll|]. rewrite Hres, Hpc'.
    autorewrite with arc_word in Hrun. cbn [mbind outcome_bind mret outcome_ret] in Hrun.
    revert Hr Hrun. unfold locked_event, is_shut. change (word s1) with (word s).
    unfold s1. rewrite with_pc_task. autorewrite with arc_word. unfold not_ready, ev, load_event, is_shut.
    cbn [ev_ready ev_is_shutdown observed u].
    change (Ready_bitand (Direction_mask d) (Ready_from_usize (word s)))
      with (flags_for d (word s)).
    intros [He ->%negb_true_iff]%andb_prop. cbn [ev_ready ev_is_shutdown]. rewrite He. cbn.
    by intros [= <- <-].
  - exists s1. split; [by eapply use_poll; [|apply rtc_refl]|].
    apply Done_inj, pair_equal_spec in Hrun as [<- <-]. unfold s1. by rewrite with_pc_at.
Qed.

(** *** The [Readiness] future *)

Definition pc_of (st : State) : user_pc :=
  match st with State_Init => ULoad | State_Waiting => UWantRelock | State_Done => ULoadDone end.

Section future.
Context (s : io L C) (n : node) (this : Readiness I).
Local Abbreviation u := (AsyncIo n).
Context (Hn : rd_waiter this = n) (Hi : rd_interest this = interest_for (dir n)).
Context (Hl : io_lock s = None).
Local Abbreviation ev := (load_event (I := I) dir u (word s)).

(** What the steps of a turn that ended with [c] achieve. *)
Definition turn_done (c : ctl (nat * Readiness I * ScheduledIo L nat)
    (poll ReadyEvent * Readiness I * ScheduledIo L nat)) s' : Prop :=
  io_lock s' = None ∧ word s' = word s ∧ u_task (io_users s' u) = u_task (io_users s u) ∧
  match c with
  | Continue (_, this', res) =>
      io_res s' = res ∧ u_pc (io_users s' u) = pc_of (rd_state this') ∧
      rd_waiter this' = n ∧ rd_interest this' = interest_for (dir n)
  | Break (p, _, res) => io_res s' = res ∧ u_pc (io_users s' u) = pc_after p
  end.

Lemma init_turn_steps k c :
  rd_state this = State_Init → u_pc (io_users s u) = ULoad →
  Readiness_turn (λ _, word s) (u_task (io_users s u)) (k, this, io_res s) = Done c →
  ∃ s', rtc (uses u) s s' ∧ turn_done c s'.
Proof using Hn Hi Hl.
  intros Hst Hpc Hrun. unfold Readiness_turn in Hrun. rewrite Hn, Hi, Hst in Hrun.
  autorewrite with arc_word in Hrun. cbn [mbind outcome_bind mret outcome_ret] in Hrun.
  autorewrite with arc_word in Hrun. cbn [mbind outcome_bind mret outcome_ret] in Hrun.
  set (s1 := with_pc u (if not_ready ev then UWantLock else with_event ev) s).
  assert (readiness_step (I := I) dir n s = Some s1) as Hst1.
  { unfold readiness_step. by rewrite Hpc. }
  change (bool_decide (word_shutdown (word s) ≠ 0)) with (is_shut (word s)) in Hrun.
  destruct (not_ready ev) eqn:Hr.
  - unfold not_ready in Hr. cbn [ev_ready ev_is_shutdown load_event] in Hr.
    apply andb_prop in Hr as [He Hs%negb_true_iff].
    rewrite Hs in Hrun. pose proof He as He'. unfold observed, flags_of, word_ready in He'.
    rewrite He' in Hrun. cbn [negb orb] in Hrun. apply Done_inj in Hrun as <-.
    set (s2 := with_pc u ULoadLocked (with_lock (Some (TUser u)) s1)).
    set (s3 := with_pc u UPush s2).
    exists (with_pc u UWantRelock (release (with_wait (with_list (pl_push_front n
      (u_task (io_users s u)) (interest_for (dir n)) (wt_list (waiters s))) (waiters s)) s3))).
    split.
    + apply (use_future n s s1); [done|]. apply (use_future n s1 s2).
      { unfold readiness_step, s1. rewrite with_pc_at. unfold acquire. cbn. by rewrite Hl. }
      apply (use_future n s2 s3).
      { unfold readiness_step, s2 at 1. rewrite with_pc_at.
        assert (not_ready (locked_event (I := I) dir u (word s2)) = true) as ->; [|done].
        unfold locked_event. change (word s2) with (word s). rewrite Hs. unfold not_ready.
        cbn [ev_ready ev_is_shutdown load_event]. by rewrite He, Hs. }
      eapply use_future; [|apply rtc_refl].
      unfold readiness_step, s3 at 1. rewrite with_pc_at. do 2 f_equal. unfold s3, s2, s1.
      at_user.
    + split_and!; try done; unfold s3, s2, s1; at_user.
  - exists s1. split; [by eapply use_future; [|apply rtc_refl]|].
    assert (c = Break (Ready_ ev, with_state State_Done this, io_res s)) as ->.
    { unfold not_ready in Hr. cbn [ev_ready ev_is_shutdown load_event] in Hr.
      apply andb_false_iff in Hr. unfold load_event. destruct Hr as [He|Hs%negb_false_iff].
      - unfold observed, flags_of, word_ready in *. rewrite He in Hrun.
        by apply Done_inj in Hrun as <-.
      - rewrite Hs, orb_true_r in Hrun. rewrite Hs. by apply Done_inj in Hrun as <-. }
    split_and!; try done; unfold s1; at_user.
Qed.

Lemma waiting_turn_steps k c :
  rd_state this = State_Waiting → u_pc (io_users s u) = UWantRelock →
  Readiness_turn (λ _, word s) (u_task (io_users s u)) (k, this, io_res s) = Done c →
  ∃ s', rtc (uses u) s s' ∧ turn_done c s'.
Proof using Hn Hi Hl.
  intros Hst Hpc Hrun. unfold Readiness_turn in Hrun. rewrite Hn, Hi, Hst in Hrun.
  set (s1 := with_pc u URecheck (with_lock (Some (TUser u)) s)).
  assert (readiness_step (I := I) dir n s = Some s1) as Hst1.
  { unfold readiness_step. rewrite Hpc. unfold acquire. by rewrite Hl. }
  assert (∀ s2, readiness_step (I := I) dir n s1 = Some s2 → turn_done c s2 →
    ∃ s', rtc (uses u) s s' ∧ turn_done c s') as Hgo.
  { intros s2 Hst2 Hd. exists s2. split; [|done].
    eapply use_future; [done|]. eapply use_future; [done|]. apply rtc_refl. }
  unfold readiness_step in Hgo. unfold s1 in Hgo at 1. rewrite with_pc_at in Hgo.
  change (waiters s1) with (sio_waiters (io_res s)) in Hgo.
  replace (u_task (io_users s1 u)) with (u_task (io_users s u)) in Hgo
    by (unfold s1; by rewrite with_pc_task).
  destruct (pl_initialized n _); [destruct (pl_protected n _)|].
  - apply Done_inj in Hrun as <-. eapply Hgo; [done|].
    split_and!; try done; unfold s1; at_user.
  - destruct (pl_take_removed n _) as [l|]; [|done]. apply Done_inj in Hrun as <-.
    eapply Hgo; [done|].
    split_and!; try done; unfold s1; at_user.
  - apply Done_inj in Hrun as <-. eapply Hgo; [done|].
    split_and!; try done; unfold s1; at_user.
Qed.

Lemma done_turn_steps k c :
  rd_state this = State_Done → u_pc (io_users s u) = ULoadDone →
  Readiness_turn (λ _, word s) (u_task (io_users s u)) (k, this, io_res s) = Done c →
  ∃ s', rtc (uses u) s s' ∧ turn_done c s'.
Proof using Hn Hi Hl.
  intros Hst Hpc Hrun. unfold Readiness_turn in Hrun. rewrite Hi, Hst in Hrun.
  autorewrite with arc_word in Hrun. cbn [mbind outcome_bind mret outcome_ret] in Hrun.
  autorewrite with arc_word in Hrun. cbn [mbind outcome_bind mret outcome_ret] in Hrun.
  apply Done_inj in Hrun as <-. exists (with_pc u (with_event ev) s). split.
  - eapply use_future; [|apply rtc_refl]. unfold readiness_step. by rewrite Hpc.
  - split_and!; try done; at_user.
Qed.
End future.

Lemma readiness_poll_steps fuel n : ∀ s (this : Readiness I) k p this' res,
  rd_waiter this = n → rd_interest this = interest_for (dir n) → io_lock s = None →
  u_pc (io_users s (AsyncIo n)) = pc_of (rd_state this) →
  loop fuel (Readiness_turn (λ _, word s) (u_task (io_users s (AsyncIo n)))) (k, this, io_res s) =
    Done (p, this', res) →
  ∃ s', rtc (uses (AsyncIo n)) s s' ∧ io_res s' = res ∧ io_lock s' = None ∧
    u_pc (io_users s' (AsyncIo n)) = pc_after p.
Proof.
  induction fuel as [|fuel IH]; intros s this k p this' res Hn Hi Hl Hpc Hrun; [done|].
  cbn [loop] in Hrun.
  destruct (Readiness_turn (λ _, word s) (u_task (io_users s (AsyncIo n))) (k, this, io_res s))
    as [c| |] eqn:Ht; [|done..].
  assert (∃ s1, rtc (uses (AsyncIo n)) s s1 ∧ turn_done s n c s1) as (s1 & Hs1 & Hl1 & Hw1 & Ht1 & Hc).
  { destruct (rd_state this) eqn:Hst;
      [by eapply init_turn_steps|by eapply waiting_turn_steps|by eapply done_turn_steps]. }
  destruct c as [[[k1 this1] res1]|[[p1 this1] res1]]; cbn in Hrun.
  - destruct Hc as (<- & Hpc1 & Hn1 & Hi1).
    destruct (IH s1 this1 k1 p this' res) as (s2 & Hs2 & Hrest); [done..|by rewrite Hw1, Ht1|].
    exists s2. split; [by etrans|done].
  - injection Hrun as -> -> ->. destruct Hc as [<- ?]. eauto.
Qed.

(** *** [clear_readiness] *)

Lemma with_readiness_id (res : ScheduledIo L nat) : with_readiness (sio_readiness res) res = res.
Proof. by destruct res. Qed.

(** A quiet [set_readiness] is decided in its first turn. *)
Lemma set_readiness_first fuel tick f (res res' : ScheduledIo L nat) :
  ScheduledIo_set_readiness fuel quiet res tick f = Done res' →
  ∃ o, set_readiness_attempt tick f (sio_readiness res) = Done o ∧
    res' = from_option (λ m, with_readiness m res) res o.
Proof.
  intros Hrun. unfold ScheduledIo_set_readiness, set_readiness_word in Hrun.
  destruct fuel as [|fuel]; [done|]. cbn [loop] in Hrun.
  destruct (set_readiness_turn quiet tick f _) as [t| |] eqn:Ht; [|done..].
  unfold set_readiness_turn, quiet in Ht.
  destruct (set_readiness_attempt tick f _) as [[m|]| |]; cbn in Ht; [| |done..].
  - rewrite bool_decide_true in Ht by done. apply Done_inj in Ht as <-.
    apply Done_inj in Hrun as <-. by exists (Some m).
  - apply Done_inj in Ht as <-. apply Done_inj in Hrun as <-. exists None.
    by rewrite with_readiness_id.
Qed.

Lemma clear_readiness_steps s u ev fuel res :
  u_pc (io_users s u) = UClearLoad ev →
  ScheduledIo_clear_readiness fuel quiet (io_res s) ev = Done res →
  ∃ s', rtc (uses u) s s' ∧ io_res s' = res ∧ io_lock s' = io_lock s ∧
    u_pc (io_users s' u) = after_clear u.
Proof.
  intros Hpc Hrun. apply set_readiness_first in Hrun as (o & Ho & ->).
  set (s1 := with_pc u (UClearCas ev (word s)) s).
  exists (with_pc u (after_clear u) (from_option (λ m, with_word m s1) s1 o)). split_and!.
  - eapply rtc_l; [exists false; unfold user_step; by rewrite Hpc|]. apply rtc_once. exists false.
    unfold user_step. fold s1. unfold s1 at 1. rewrite with_pc_at. unfold clear_step, event_mask.
    change (word s) with (sio_readiness (io_res s)) at 1. rewrite Ho.
    destruct o as [m|]; [|done]. by rewrite bool_decide_true.
  - by destruct o.
  - by destruct o.
  - by rewrite with_pc_at.
Qed.

(** *** The driver *)

(** A user whose task may have been woken. *)
Definition woken_by (log : list nat) (x : user_state) : user_state :=
  mkUser (u_pc x) (u_task x) (u_woken x || bool_decide (u_task x ∈ log)).

Lemma woken_by_nil x : woken_by [] x = x.
Proof.
  destruct x as [pc t w]. unfold woken_by. cbn. rewrite bool_decide_false by apply not_elem_of_nil.
  by rewrite orb_false_r.
Qed.

Lemma woken_by_app l1 l2 x : woken_by l2 (woken_by l1 x) = woken_by (l1 ++ l2) x.
Proof.
  unfold woken_by. cbn. f_equal. rewrite <- orb_assoc. f_equal.
  destruct (decide (u_task x ∈ l1)), (decide (u_task x ∈ l2));
    rewrite ?(bool_decide_true (u_task x ∈ l1)), ?(bool_decide_true (u_task x ∈ l2)),
      ?(bool_decide_false (u_task x ∈ l1)), ?(bool_decide_false (u_task x ∈ l2)) by done;
    symmetry; first [apply bool_decide_true|apply bool_decide_false]; rewrite elem_of_app; tauto.
Qed.

(** [s'] is [s] after wake-ups. *)
Definition woke (log : list nat) s s' : Prop :=
  io_res s' = io_res s ∧ io_lock s' = io_lock s ∧ io_tick s' = io_tick s ∧
  io_ready s' = io_ready s ∧ io_pending s' = io_pending s ∧
  ∀ u, io_users s' u = woken_by log (io_users s u).

Lemma wake_steps e again ws : ∀ s,
  io_driver s = DWake e ws again →
  ∃ s', rtc driver_moves s s' ∧ woke ws s s' ∧
    io_driver s' = if again then DRelock e else DTurn.
Proof.
  induction ws as [|t ws IH]; intros s Hd.
  - eexists. split_and!.
    + apply rtc_once. exists false. unfold driver_step. rewrite Hd. done.
    + split_and!; try done. intros u. by rewrite woken_by_nil.
    + done.
  - set (s1 := with_driver (DWake e ws again) (notify t s)).
    destruct (IH s1 eq_refl) as (s' & Hs' & (H1 & H2 & H3 & H4 & H5 & H6) & Hd').
    exists s'. split_and!; try done.
    + eapply rtc_l; [|done]. exists false. unfold driver_step. by rewrite Hd.
    + split_and!; try done. intros u. rewrite H6. cbn.
      replace (mkUser _ _ _) with (woken_by [t] (io_users s u)); [by rewrite woken_by_app|].
      unfold woken_by. f_equal. f_equal. apply bool_decide_ext. by rewrite list_elem_of_singleton.
Qed.

Lemma scan_steps e fuel : ∀ s c wk exit c' wk',
  io_driver s = DScan e c wk → loop fuel (wake_turn e) (c, wk) = Done (exit, c', wk') →
  rtc driver_moves s (with_driver (DWake e wk' (match exit with WakersFull => true | _ => false end))
    (release (with_wait (with_list (pl_cursor_end c') (waiters s)) s))).
Proof.
  induction fuel as [|fuel IH]; intros s c wk exit c' wk' Hd Hrun; [done|]. cbn [loop] in Hrun.
  destruct (wake_turn e (c, wk)) as [[[c1 wk1]|[[exit1 c1] wk1]]| |] eqn:Ht; [| |done..]; cbn in Hrun.
  - eapply rtc_l; [|exact (IH (with_driver (DScan e c1 wk1) s) _ _ _ _ _ eq_refl Hrun)].
    exists false. unfold driver_step. rewrite Hd. unfold scan_step. by rewrite Ht.
  - injection Hrun as -> -> ->. apply rtc_once. exists false. unfold driver_step. rewrite Hd.
    unfold scan_step. by rewrite Ht.
Qed.

(** The loop over the list: what is left in the array is woken last. *)
Lemma outer_steps e fuel fuel' : ∀ s wk woken l' wk' woken',
  io_driver s = DScan e (pl_cursor_front_mut (wt_list (waiters s))) wk →
  loop fuel' (wake_outer fuel e) (wt_list (waiters s), wk, woken) = Done (l', wk', woken') →
  ∃ log s', woken' ++ wk' = woken ++ log ∧ rtc driver_moves s s' ∧ io_driver s' = DTurn ∧
    woke log (release (with_wait (with_list l' (waiters s)) s)) s'.
Proof.
  induction fuel' as [|fuel' IH]; intros s wk woken l' wk' woken' Hd Hrun; [done|].
  cbn [loop] in Hrun.
  destruct (wake_outer fuel e (wt_list (waiters s), wk, woken)) as [r| |] eqn:Ho; [|done..].
  unfold wake_outer in Ho.
  destruct (loop fuel (wake_turn e) (pl_cursor_front_mut (wt_list (waiters s)), wk))
    as [[[exit c1] wk1]| |] eqn:Ht; [|done..].
  cbn [mbind outcome_bind] in Ho, Hrun. pose proof (scan_steps e fuel s _ _ _ _ _ Hd Ht) as Hscan.
  set (again := match exit with WakersFull => true | _ => false end) in Hscan.
  set (s1 := with_driver _ _) in Hscan.
  destruct (wake_steps e again wk1 s1 eq_refl) as (s2 & Hwake & Hw2 & Hd2).
  destruct exit; apply Done_inj in Ho as <-.
  - destruct Hw2 as (H1 & H2 & H3 & H4 & H5 & H6).
    assert (waiters s2 = with_list (pl_cursor_end c1) (waiters s)) as Hwt.
    { unfold waiters. by rewrite H1. }
    set (s3 := with_driver (DScan e (pl_cursor_front_mut (wt_list (waiters s2))) [])
                 (with_lock (Some TDriver) s2)).
    destruct (IH s3 [] (woken ++ wk1) l' wk' woken' eq_refl) as (log & s4 & Hlog & Hrun4 & Hd4 & Hw4).
    { change (waiters s3) with (waiters s2). by rewrite Hwt. }
    exists (wk1 ++ log), s4. split_and!; [by rewrite app_assoc| |done|].
    + etrans; [exact Hscan|]. etrans; [exact Hwake|]. eapply rtc_l; [|exact Hrun4].
      exists false. unfold driver_step. rewrite Hd2. unfold acquire. by rewrite H2.
    + destruct Hw4 as (G1 & G2 & G3 & G4 & G5 & G6). split_and!.
      * rewrite G1. cbn. change (waiters s3) with (waiters s2). rewrite Hwt, H1. done.
      * by rewrite G2.
      * by rewrite G3.
      * by rewrite G4.
      * by rewrite G5.
      * intros u. rewrite G6. cbn. rewrite H6. cbn. by rewrite woken_by_app.
  - injection Hrun as <- <- <-. exists wk1, s2. split_and!; [done|by etrans|done|exact Hw2].
Qed.

Lemma take_step_wake s e wakers :
  let w := waiters s in
  (wakers ← if Ready_is_readable e then take_slot (wt_reader w) [] else mret [];
   if Ready_is_writable e then take_slot (wt_writer w) wakers else mret wakers) = Done wakers →
  take_step (I := I) e s = Some (with_driver (DScan e (pl_cursor_front_mut (wt_list w)) wakers)
    (with_wait (mkWaiters (wt_list w) (if Ready_is_readable e then None else wt_reader w)
                                      (if Ready_is_writable e then None else wt_writer w)) s)).
Proof. intros w Hw. unfold take_step. fold w. by rewrite Hw. Qed.

(** The driver's part of [wake], from the lock on. *)
Lemma wake_all_steps s e fuel res woken :
  io_driver s = DLock e → io_lock s = None →
  ScheduledIo_wake fuel (io_res s) e = Done (res, woken) →
  ∃ s', rtc driver_moves s s' ∧ io_driver s' = DTurn ∧ io_res s' = res ∧ io_lock s' = None ∧
    ∀ u, io_users s' u = woken_by woken (io_users s u).
Proof.
  intros Hd Hl Hrun. unfold ScheduledIo_wake in Hrun. fold (waiters s) in Hrun.
  set (w := waiters s) in *.
  apply outcome_bind_done in Hrun as (wk0 & H1 & Hrun).
  apply outcome_bind_done in Hrun as (wk & H2 & Hrun).
  apply outcome_bind_done in Hrun as ([[l' wk'] woken'] & H3 & Hrun).
  apply Done_inj, pair_equal_spec in Hrun as [<- <-].
  set (s1 := with_driver (DTake e) (with_lock (Some TDriver) s)).
  pose proof (take_step_wake s1 e wk) as Htake. cbv zeta in Htake.
  change (waiters s1) with w in Htake. rewrite H1 in Htake. specialize (Htake H2).
  set (w' := mkWaiters _ _ _) in Htake. set (s2 := with_driver _ _) in Htake.
  destruct (outer_steps e fuel fuel s2 wk [] l' wk' woken' eq_refl H3)
    as (log & s' & Hlog & Hrun & Hd' & Hres & Hlock & _ & _ & _ & Hu).
  exists s'. split_and!; [|done|by rewrite Hres|done|].
  - eapply rtc_l; [|eapply rtc_l; [|exact Hrun]]; exists false; unfold driver_step.
    + rewrite Hd. unfold acquire. by rewrite Hl.
    + exact Htake.
  - intros u. rewrite Hu, Hlog. done.
Qed.

(** C23: Without interference, the steps of the users compute the functions of the
    program: from a free lock, the steps of a poll for a direction lead to the
    resource and the answer of [poll_readiness], those of a future to the
    resource and the answer of the poll of [Readiness] in the same state, and those
    that clear an event to the resource that [clear_readiness] leaves. *)
Theorem io_user_steps_compute s :
  io_lock s = None →
  (∀ d p res,
     u_pc (io_users s (PollIo d)) = ULoad →
     ScheduledIo_poll_readiness will_wake (word s) (word s) (io_res s)
       (u_task (io_users s (PollIo d))) d = Done (p, res) →
     ∃ s', rtc (uses (PollIo d)) s s' ∧ io_res s' = res ∧ io_lock s' = None ∧
       u_pc (io_users s' (PollIo d)) = pc_after p) ∧
  (∀ n (this : Readiness I) fuel p this' res,
     rd_waiter this = n → rd_interest this = interest_for (dir n) →
     u_pc (io_users s (AsyncIo n)) = pc_of (rd_state this) →
     Readiness_poll fuel (λ _, word s) (u_task (io_users s (AsyncIo n))) this (io_res s) =
       Done (p, this', res) →
     ∃ s', rtc (uses (AsyncIo n)) s s' ∧ io_res s' = res ∧ io_lock s' = None ∧
       u_pc (io_users s' (AsyncIo n)) = pc_after p) ∧
  (∀ u ev fuel res,
     u_pc (io_users s u) = UClearLoad ev →
     ScheduledIo_clear_readiness fuel quiet (io_res s) ev = Done res →
     ∃ s', rtc (uses u) s s' ∧ io_res s' = res ∧ io_lock s' = None ∧
       u_pc (io_users s' u) = after_clear u).
Proof.
  intros Hl. split_and!.
  - intros d p res Hpc Hrun. by apply poll_readiness_steps.
  - intros n this fuel p this' res Hn Hi Hpc Hrun. by eapply readiness_poll_steps.
  - intros u ev fuel res Hpc Hrun. rewrite <- Hl. by eapply clear_readiness_steps.
Qed.

(** C24: Without interference, the steps of the driver compute what [poll_timeout]
    does with an event: [set_readiness] followed by [wake], with the same resource
    in the end and the same tasks woken, also when the array of wakers has to be
    emptied several times on the way. *)
Theorem io_driver_steps_compute s e fuel res res' woken :
  io_driver s = DLoad e → io_lock s = None →
  ScheduledIo_set_readiness fuel quiet (io_res s) (Tick_Set (io_tick s))
    (λ curr, Ready_bitor curr e) = Done res →
  ScheduledIo_wake fuel res e = Done (res', woken) →
  ∃ s', rtc driver_moves s s' ∧ io_driver s' = DTurn ∧ io_res s' = res' ∧ io_lock s' = None ∧
    ∀ u, io_users s' u = woken_by woken (io_users s u).
Proof.
  intros Hd Hl Hset Hwake. apply set_readiness_first in Hset as (o & Ho & ->).
  set (s1 := with_driver (DLock e) (from_option (λ m, with_word m s) s o)).
  destruct (wake_all_steps s1 e fuel res' woken) as (s' & Hrun & Hrest).
  - done.
  - by destruct o.
  - by destruct o.
  - exists s'. split; [|by destruct o].
    eapply rtc_l; [exists false; unfold driver_step; by rewrite Hd|].
    eapply rtc_l; [|exact Hrun]. exists false. unfold driver_step. cbn [io_driver with_driver].
    unfold store_step. change (io_tick (with_driver _ s)) with (io_tick s).
    change (word s) with (sio_readiness (io_res s)) at 1. rewrite Ho.
    destruct o as [m|]; [|done]. by rewrite bool_decide_true.
Qed.
End steps.

(** ** Examples *)

Module IoStepsRef.
Import MioRef PinListRef.

Local Abbreviation rlist := (pin_view nat interest).
Local Abbreviation rcursor := (list (waiter nat interest) * pin_view nat interest)%type.

(** Task 5 starts to poll for reading while the driver has an event in its hands. *)
Definition start : io rlist rcursor :=
  mkIo ScheduledIo_default None 9 (DLoad Ready_READABLE) (λ _, true) Ready_EMPTY
    (λ _, mkUser ULoad 5 false).

Lemma io_user_steps_compute_witness :
  ∃ s', rtc (uses (I := interest) Nat.eqb (λ _, Read) (PollIo Read)) start s' ∧
    u_pc (io_users s' (PollIo Read)) = UAsleep ∧ wt_reader (waiters s') = Some 5%nat.
Proof.
  destruct (io_user_steps_compute (I := interest) Nat.eqb (λ _, Read) start eq_refl)
    as [Hpoll _].
  destruct (Hpoll Read Pending _ eq_refl eq_refl) as (s' & Hrun & Hres & _ & Hpc).
  exists s'. split_and!; [exact Hrun|exact Hpc|]. unfold waiters. rewrite Hres. reflexivity.
Defined.

(** The same with that task asleep in the reader's slot. *)
Definition delivery : io rlist rcursor :=
  mkIo (mkScheduledIo 0 (mkWaiters pl_new (Some 5%nat) None)) None 9 (DLoad Ready_READABLE)
    (λ _, true) Ready_EMPTY (λ _, mkUser UAsleep 5 false).

Lemma io_driver_steps_compute_witness :
  ∃ s', rtc (driver_moves (I := interest)) delivery s' ∧ io_driver s' = DTurn ∧
    u_woken (io_users s' (PollIo Read)) = true.
Proof.
  destruct (io_driver_steps_compute (I := interest) delivery Ready_READABLE 1
    (mkScheduledIo (word_of Ready_READABLE 9 0) (mkWaiters pl_new (Some 5%nat) None))
    (mkScheduledIo (word_of Ready_READABLE 9 0) (mkWaiters pl_new None None)) [5%nat])
    as (s' & Hrun & Hd & _ & _ & Hu).
  - reflexivity.
  - reflexivity.
  - vm_compute. reflexivity.
  - vm_compute. reflexivity.
  - exists s'. split_and!; [exact Hrun|exact Hd|]. rewrite Hu. reflexivity.
Defined.
End IoStepsRef.
