(* ===== verification/IoConcProps.v ===== *)
(** * IoConcProps: readiness is not lost between driver, users and kernel

    The invariant of [IoConc], part by part, and what follows from it. *)

From stdpp Require Import functions.
From S2P Require Import Prelude Bits Ready PinList ScheduledIo IoDriver Registration AsyncIo.
From S2P Require Import IoConc IoConcSteps.

Local Open Scope Z_scope.

(** ** The flags of the two directions *)

(** A fact about two flag sets, by trying all of them. *)
Lemma ready_cases2 (f : Ready → Ready → bool) :
  forallb (λ a, forallb (f a) (mkReady <$> seqZ 0 16)) (mkReady <$> seqZ 0 16) = true →
  ∀ a b, Ready_wf a → Ready_wf b → f a b = true.
Proof.
  intros Hall a b Ha Hb. apply (ready_cases (f a)); [|done].
  exact (ready_cases (λ a, forallb (f a) (mkReady <$> seqZ 0 16)) Hall a Ha).
Qed.

Lemma has_or d a b : Ready_wf a → Ready_wf b → has d (Ready_bitor a b) = has d a || has d b.
Proof.
  intros. apply eqb_prop.
  apply (ready_cases2 (λ a b, eqb (has d (Ready_bitor a b)) (has d a || has d b)));
    [by destruct d; vm_compute|done..].
Qed.

Lemma has_empty d : has d Ready_EMPTY = false.
Proof. by destruct d. Qed.

Lemma has_slot d e : Ready_wf e →
  (match d with Read => Ready_is_readable e | Write_ => Ready_is_writable e end) = has d e.
Proof.
  intros. apply eqb_prop. apply (ready_cases (λ e, eqb
    (match d with Read => Ready_is_readable e | Write_ => Ready_is_writable e end) (has d e)));
    [by destruct d; vm_compute|done].
Qed.

(** What [clear_readiness] removes for an event of direction [d]. *)
Lemma has_clear d d' a b : Ready_wf a → Ready_wf b →
  has d' (Ready_sub a (consumed d b)) = true → has d' a = true.
Proof.
  intros Ha Hb. apply implb_true_iff.
  apply (ready_cases2 (λ a b, implb (has d' (Ready_sub a (consumed d b))) (has d' a)));
    [by destruct d, d'; vm_compute|done..].
Qed.

Lemma has_clear_other d d' a b : Ready_wf a → Ready_wf b → d' ≠ d →
  has d' (Ready_sub a (consumed d b)) = has d' a.
Proof.
  intros Ha Hb Hd. apply eqb_prop.
  apply (ready_cases2 (λ a b, eqb (has d' (Ready_sub a (consumed d b))) (has d' a)));
    [by destruct d, d'; vm_compute|done..].
Qed.

Lemma has_nonempty d r : has d r = true → Ready_is_empty r = false.
Proof.
  unfold Ready_is_empty. case_bool_decide as He; [|done]. rewrite He. by rewrite has_empty.
Qed.

Lemma Ready_wf_empty : Ready_wf Ready_EMPTY.
Proof. done. Qed.

Lemma Ready_wf_word m : Ready_wf (word_ready m).
Proof. apply Ready_wf_from_usize. Qed.

#[export] Hint Resolve Ready_wf_empty Ready_wf_word : arc.

(** ** Views of the list *)

Section views.
Context {I : Type}.

(** Nothing that concerns node [n] differs. *)
Definition node_same (n : node) (v v' : pin_view nat I) : Prop :=
  (∀ w i, mkWaiter n w i ∈ linked v' ↔ mkWaiter n w i ∈ linked v) ∧
  (n ∈ removed v' ↔ n ∈ removed v).

Lemma node_same_refl n v : node_same n v v.
Proof. done. Qed.

Lemma elem_of_nodes n (v : pin_view nat I) :
  n ∈ view_nodes v ↔ ∃ w i, mkWaiter n w i ∈ linked v.
Proof.
  unfold view_nodes. rewrite list_elem_of_fmap. split.
  - intros ([n' w i] & -> & Hx). eauto.
  - intros (w & i & Hx). by exists (mkWaiter n w i).
Qed.

Lemma node_same_nodes n v v' : node_same n v v' → n ∈ view_nodes v' ↔ n ∈ view_nodes v.
Proof. intros [Hl _]. rewrite !elem_of_nodes. by setoid_rewrite Hl. Qed.

Lemma node_same_push n m w i (v : pin_view nat I) :
  n ≠ m → node_same n v (mkView (mkWaiter m w i :: linked v) (removed v ∖ {[m]})).
Proof.
  intros Hne. split; cbn.
  - intros w' i'. rewrite elem_of_cons. split; [|by right]. by intros [[= ->]|?].
  - set_solver.
Qed.

Lemma node_same_removed n m (v : pin_view nat I) :
  n ≠ m → node_same n v (mkView (linked v) (removed v ∖ {[m]})).
Proof. intros Hne. split; [done|]. cbn. set_solver. Qed.

Lemma node_same_set n m w (v : pin_view nat I) :
  n ≠ m → node_same n v (mkView (set_waker m w <$> linked v) (removed v)).
Proof.
  intros Hne. split; [|done]. cbn. intros w' i'. rewrite list_elem_of_fmap. split.
  - intros ([n0 w0 i0] & He & Hx). unfold set_waker in He. cbn in He.
    case_decide; simplify_eq. done.
  - intros Hx. eexists. split; [|exact Hx]. unfold set_waker. cbn. by rewrite decide_False.
Qed.

Lemma set_waker_nodes m w (xs : list (waiter nat I)) :
  waiter_node <$> (set_waker m w <$> xs) = waiter_node <$> xs.
Proof.
  rewrite <- list_fmap_compose. apply list_fmap_ext. intros ? [n w' i] _. cbn. unfold set_waker. cbn.
  by case_decide.
Qed.

Lemma set_waker_elem n t w i (xs : list (waiter nat I)) :
  mkWaiter n w i ∈ xs → mkWaiter n t i ∈ set_waker n t <$> xs.
Proof.
  intros Hx. apply list_elem_of_fmap. eexists. split; [|exact Hx]. unfold set_waker. cbn.
  by rewrite decide_True.
Qed.

End views.

Section io.
Context {L C I : Type}.
Context `{PinListOps L C nat I, !PinListLaws L C nat I, MioInterest I, !MioInterestLaws I}.
Context (will_wake : nat → nat → bool) (dir : nat → Direction).
Implicit Types (s : io L C) (u : user) (x : user_state) (d : Direction).

Lemma satisfies_has d e :
  Ready_wf e → Ready_satisfies e (interest_for (I := I) d) = has d e.
Proof using MioInterestLaws0.
  intros He. unfold Ready_satisfies, has, Ready_is_empty, Ready_bitand. f_equal.
  apply bool_decide_ext. rewrite Z.land_comm. unfold interest_for, Ready_from_interest, Ready_EMPTY.
  destruct d; rewrite ?READABLE_is_readable, ?READABLE_is_writable, ?WRITABLE_is_readable,
    ?WRITABLE_is_writable; (split; intros Hx; [by f_equal|by injection Hx]).
Qed.

(** ** What the users observe *)

Lemma observed_flags u m : observed (I := I) dir u m = flags_for (user_dir dir u) m.
Proof using MioInterestLaws0.
  destruct u as [d|n|n]; cbn; [done|by apply flags_of_direction|].
  by rewrite (interest_mask_direction _ (dir n)).
Qed.

Lemma load_event_spec u m :
  word_ok m → load_event (I := I) dir u m = event_at (flags_for (user_dir dir u) m) m.
Proof using MioInterestLaws0.
  intros Hm. unfold load_event, is_shut. by rewrite observed_flags, shutdown_false.
Qed.

Lemma locked_event_spec u m :
  word_ok m → locked_event (I := I) dir u m = event_at (flags_for (user_dir dir u) m) m.
Proof using MioInterestLaws0.
  intros Hm. unfold locked_event. rewrite load_event_spec by done. unfold is_shut.
  by rewrite shutdown_false.
Qed.

Lemma not_ready_spec d m : not_ready (event_at (flags_for d m) m) = negb (has d (word_ready m)).
Proof. unfold not_ready, has. cbn. by rewrite andb_true_r, negb_involutive. Qed.

(** ** The invariant *)

(** *** Where the driver is *)

Definition driver_event (pc : driver_pc C) : option Ready :=
  match pc with
  | DTurn => None
  | DLoad e | DCas e _ | DLock e | DTake e | DScan e _ _ | DWake e _ _ | DRelock e => Some e
  end.

(** It has an event for [d] that is not in the word yet. *)
Definition storing (d : Direction) (pc : driver_pc C) : Prop :=
  match pc with DLoad e | DCas e _ => has d e = true | _ => False end.

(** The event is in the word, and it has still to take the slots, *)
Definition taking (d : Direction) (pc : driver_pc C) : Prop :=
  match pc with DLock e | DTake e => has d e = true | _ => False end.

(** or to empty the list. *)
Definition scanning (d : Direction) (pc : driver_pc C) : Prop :=
  match pc with
  | DLock e | DTake e | DScan e _ _ | DWake e _ true | DRelock e => has d e = true
  | _ => False
  end.

(** The wakers it is about to call. *)
Definition driver_wakers (pc : driver_pc C) : list nat :=
  match pc with DScan _ _ wakers | DWake _ wakers _ => wakers | _ => [] end.

Definition driver_locks (pc : driver_pc C) : bool :=
  match pc with DTake _ | DScan _ _ _ => true | _ => false end.

(** *** Where a user is *)

Definition user_locks (pc : user_pc) : bool :=
  match pc with UStore | ULoadLocked | UPush | URecheck => true | _ => false end.

(** The places that each kind of user visits. *)
Definition pc_kind (u : user) (pc : user_pc) : bool :=
  match pc, u with
  | (UIdle | ULoad | UCall _ | UClearLoad _ | UClearCas _ _), _ => true
  | (UWantLock | ULoadLocked | UAsleep), (PollIo _ | AsyncIo _) => true
  | UStore, PollIo _ => true
  | (UPush | UWantRelock | URecheck | ULoadDone), AsyncIo _ => true
  | _, _ => false
  end.

(** The event that a user holds, and the one that it is clearing. *)
Definition held (pc : user_pc) : option ReadyEvent :=
  match pc with UCall ev | UClearLoad ev | UClearCas ev _ => Some ev | _ => None end.
Definition clearing (pc : user_pc) : option ReadyEvent :=
  match pc with UClearLoad ev | UClearCas ev _ => Some ev | _ => None end.

(** An event of direction [d] is on its way to the word. *)
Definition coming (d : Direction) (pending : Ready) (pc : driver_pc C) : Prop :=
  has d pending = true ∨ storing d pc.

(** [poll_io]: while the task sleeps, its waker is in the slot or in the driver's
    hands, and the slot waits for the driver if the word is ready. *)
Definition slot_ok (d : Direction) (x : user_state) (slot : option nat) (flag : bool)
    (drv : driver_pc C) : Prop :=
  match u_pc x with
  | ULoadLocked => slot = Some (u_task x)
  | UAsleep =>
      u_woken x = false →
      (slot = Some (u_task x) ∧ (flag = true → taking d drv)) ∨ u_task x ∈ driver_wakers drv
  | _ => True
  end.

(** A waiter of node [n] is in the list with a waker in [P], or was taken off it. *)
Definition listed (n : node) (P : nat → Prop) (Q : Prop) (v : pin_view nat I) (flag : bool)
    (drv : driver_pc C) : Prop :=
  (∃ w, (mkWaiter n w (interest_for (dir n)) ∈ linked v) ∧ P w ∧
        (flag = true → scanning (dir n) drv)) ∨
  ((n ∉ view_nodes v) ∧ (n ∈ removed v) ∧ Q).

(** [async_io]: likewise, with the node in the list. *)
Definition node_ok (n : node) (x : user_state) (v : pin_view nat I) (flag : bool)
    (drv : driver_pc C) : Prop :=
  match u_pc x with
  | UPush => (n ∉ view_nodes v) ∧ (flag = true → scanning (dir n) drv)
  | UWantRelock | URecheck => listed n (λ _, True) True v flag drv
  | UAsleep =>
      listed n (λ w, u_woken x = false → w = u_task x)
        (u_woken x = false → u_task x ∈ driver_wakers drv) v flag drv
  | _ => n ∉ view_nodes v
  end.

(** The list, also while the driver's cursor is on it. *)
Definition list_of s : L :=
  match io_driver s with DScan _ cursor _ => pl_cursor_end cursor | _ => wt_list (waiters s) end.
Definition view s : pin_view nat I := pl_view (list_of s).

Definition flag (d : Direction) s : bool := has d (word_ready (word s)).

Record user_ok s (u : user) (x : user_state) : Prop := {
  uo_lock : io_lock s = Some (TUser u) ↔ user_locks (u_pc x) = true;
  uo_kind : pc_kind u (u_pc x) = true;
  uo_event ev : held (u_pc x) = Some ev → ∃ m, ev = event_at (flags_for (user_dir dir u) m) m;
  uo_clear ev : clearing (u_pc x) = Some ev → io_ready s (user_dir dir u) = true →
    coming (user_dir dir u) (io_pending s) (io_driver s) ∨ word_tick (word s) ≠ ev_tick ev;
  uo_slot d : u = PollIo d → slot_ok d x (slot_of d (waiters s)) (flag d s) (io_driver s);
  uo_node n : u = AsyncIo n → node_ok n x (view s) (flag (dir n) s) (io_driver s);
}.

Record shared_ok s : Prop := {
  sh_word : word_ok (word s);
  sh_tick : 0 ≤ io_tick s < 256;
  sh_pending : Ready_wf (io_pending s);
  sh_event e : driver_event (io_driver s) = Some e → Ready_wf e;
  sh_lock : io_lock s = Some TDriver ↔ driver_locks (io_driver s) = true;
  sh_ready d : io_ready s d = true →
    coming d (io_pending s) (io_driver s) ∨ flag d s = true;
  sh_nodup : NoDup (view_nodes (view s));
  sh_scan e c wk : io_driver s = DScan e c wk →
    fst (pl_cview c) = [] ∧ (length wk ≤ WAKERS_CAP)%nat;
}.

Record io_inv s : Prop := {
  inv_shared : shared_ok s;
  inv_users u : user_ok s u (io_users s u);
}.

(** The driver is about to store a tick with which a user is clearing. *)
Definition tick_reused s : Prop :=
  ∃ e cur u ev, io_driver s = DCas e cur ∧ clearing (u_pc (io_users s u)) = Some ev ∧
    ev_tick ev = io_tick s.

Definition fresh_step s s' : Prop := io_step will_wake dir s s' ∧ ~ tick_reused s.

Lemma io_init_inv : io_inv io_init.
Proof.
  split; [split|intros u; split]; cbn; try done; try by vm_compute.
  - unfold view, list_of. cbn. rewrite pl_new_view. constructor.
  - intros n ->. unfold node_ok, view, list_of. cbn. rewrite pl_new_view. apply not_elem_of_nil.
Qed.

(** ** Framing *)

Lemma listed_same n P Q v v' f drv :
  node_same n v v' → listed n P Q v f drv → listed n P Q v' f drv.
Proof.
  intros Hs. pose proof (node_same_nodes _ _ _ Hs) as Hn. destruct Hs as [Hl Hr].
  unfold listed. setoid_rewrite Hl. by rewrite Hn, Hr.
Qed.

Lemma node_ok_same n x v v' f drv :
  node_same n v v' → node_ok n x v f drv → node_ok n x v' f drv.
Proof.
  intros Hs. pose proof (node_same_nodes _ _ _ Hs) as Hn. unfold node_ok.
  destruct (u_pc x); rewrite ?Hn; eauto using listed_same.
Qed.

Lemma user_ok_frame s s' u x :
  word s' = word s → io_ready s' = io_ready s → io_pending s' = io_pending s →
  io_driver s' = io_driver s →
  (io_lock s' = Some (TUser u) ↔ io_lock s = Some (TUser u)) →
  (∀ d, u = PollIo d → slot_of d (waiters s') = slot_of d (waiters s)) →
  (∀ n, u = AsyncIo n → node_same n (view s) (view s')) →
  user_ok s u x → user_ok s' u x.
Proof.
  intros Hw Hr Hp Hd Hl Hslot Hnode [H1 H2 H3 H4 H5 H6]. unfold flag in *.
  split; unfold flag; rewrite ?Hw, ?Hr, ?Hp, ?Hd, ?Hl; try done.
  - intros d Hu. rewrite (Hslot d Hu). by apply H5.
  - intros n Hu. eapply node_ok_same; [by apply Hnode|by apply H6].
Qed.

Lemma user_ok_lock s u x o :
  (o = Some (TUser u) ↔ io_lock s = Some (TUser u)) →
  user_ok s u x → user_ok (with_lock o s) u x.
Proof. intros Ho. apply user_ok_frame; auto using node_same_refl. Qed.

Lemma shared_ok_lock s o :
  (o = Some TDriver ↔ io_lock s = Some TDriver) → shared_ok s → shared_ok (with_lock o s).
Proof. intros Ho []. split; cbn; try done. by rewrite Ho. Qed.

(** The state after a step of user [u] is fine when [u] and what is shared are. *)
Lemma inv_with_pc s u pc :
  shared_ok s → (∀ v, v ≠ u → user_ok s v (io_users s v)) →
  user_ok s u (mkUser pc (u_task (io_users s u)) (u_woken (io_users s u))) →
  io_inv (with_pc u pc s).
Proof.
  intros Hsh Hother Hu. split; [by destruct Hsh; split|].
  intros v. apply (user_ok_frame s); auto using node_same_refl. cbn.
  destruct (decide (v = u)) as [->|Hv]; [by rewrite fn_lookup_insert|].
  rewrite fn_lookup_insert_ne by done. by apply Hother.
Qed.

(** Places without the lock and without a waiter. *)
Definition outside (pc : user_pc) : bool :=
  match pc with
  | UStore | ULoadLocked | UPush | UWantRelock | URecheck | UAsleep => false
  | _ => true
  end.

Lemma user_ok_outside s u x :
  outside (u_pc x) = true → io_lock s ≠ Some (TUser u) → pc_kind u (u_pc x) = true →
  (∀ ev, held (u_pc x) = Some ev → ∃ m, ev = event_at (flags_for (user_dir dir u) m) m) →
  (∀ ev, clearing (u_pc x) = Some ev → io_ready s (user_dir dir u) = true →
    coming (user_dir dir u) (io_pending s) (io_driver s) ∨ word_tick (word s) ≠ ev_tick ev) →
  (∀ n, u = AsyncIo n → n ∉ view_nodes (view s)) →
  user_ok s u x.
Proof.
  intros Ho Hl Hk He Hc Hn. split; try done.
  - split; [done|]. by destruct (u_pc x).
  - intros d _. unfold slot_ok. by destruct (u_pc x).
  - intros n Hu. specialize (Hn n Hu). unfold node_ok. by destruct (u_pc x).
Qed.

(** Users that are not in the list. *)
Lemma unlisted s u x n :
  user_ok s u x → u = AsyncIo n → outside (u_pc x) = true ∨ u_pc x = ULoadLocked →
  n ∉ view_nodes (view s).
Proof.
  intros Hu Hn Ho. pose proof (uo_node _ _ _ Hu n Hn) as Hok. unfold node_ok in Hok.
  destruct Ho as [Ho|Ho]; [|by rewrite Ho in Hok]. by destruct (u_pc x).
Qed.

Lemma outside_unlocked s u x :
  user_ok s u x → outside (u_pc x) = true → io_lock s ≠ Some (TUser u).
Proof. intros Hu Ho Hl. apply (uo_lock _ _ _ Hu) in Hl. by destruct (u_pc x). Qed.

Lemma inv_move s u pc :
  io_inv s → user_ok s u (mkUser pc (u_task (io_users s u)) (u_woken (io_users s u))) →
  io_inv (with_pc u pc s).
Proof. intros [Hsh Hus] Hu. by apply inv_with_pc. Qed.

(** A user moves between two such places. *)
Lemma inv_move_outside s u pc :
  io_inv s → outside (u_pc (io_users s u)) = true → outside pc = true → pc_kind u pc = true →
  (∀ ev, held pc = Some ev → ∃ m, ev = event_at (flags_for (user_dir dir u) m) m) →
  (∀ ev, clearing pc = Some ev → io_ready s (user_dir dir u) = true →
    coming (user_dir dir u) (io_pending s) (io_driver s) ∨ word_tick (word s) ≠ ev_tick ev) →
  io_inv (with_pc u pc s).
Proof.
  intros Hinv Ho Ho' Hk He Hc. pose proof (inv_users _ Hinv u) as Hu.
  apply inv_move; [done|]. apply user_ok_outside; try done.
  - by eapply outside_unlocked.
  - intros n Hn. eapply unlisted; eauto.
Qed.

(** *** Changes of the word and of the kernel *)

Lemma slot_ok_flag d x slot f f' drv :
  (f' = true → f = true) → slot_ok d x slot f drv → slot_ok d x slot f' drv.
Proof. unfold slot_ok. destruct (u_pc x); naive_solver. Qed.

Lemma listed_impl n (P P' : nat → Prop) (Q Q' : Prop) v f f' drv drv' :
  (∀ w, P w → P' w) → (Q → Q') →
  ((f = true → scanning (dir n) drv) → f' = true → scanning (dir n) drv') →
  listed n P Q v f drv → listed n P' Q' v f' drv'.
Proof.
  intros HP HQ Hs [(w & Hw & Hp & Hf)|(? & ? & ?)]; [left; exists w|right]; auto.
Qed.

Lemma node_ok_flag n x v f f' drv :
  (f' = true → f = true) → node_ok n x v f drv → node_ok n x v f' drv.
Proof.
  intros Hf. unfold node_ok. destruct (u_pc x); try done.
  - intros [? Hs]. auto.
  - apply listed_impl; auto.
  - apply listed_impl; auto.
  - apply listed_impl; auto.
Qed.

Lemma user_ok_word s m u x :
  word_tick m = word_tick (word s) → (∀ d, has d (word_ready m) = true → flag d s = true) →
  user_ok s u x → user_ok (with_word m s) u x.
Proof.
  intros Ht Hf [H1 H2 H3 H4 H5 H6]. split; try done; cbn.
  - intros ev Hev Hr. unfold word in *. cbn. rewrite Ht. by apply H4.
  - intros d Hu. by apply slot_ok_flag with (flag d s), H5; auto.
  - intros n Hu. by apply node_ok_flag with (flag (dir n) s), H6; auto.
Qed.

Lemma user_ok_kernel s r p u x :
  (∀ d, r d = true → io_ready s d = true ∨ has d p = true) →
  (∀ d, has d (io_pending s) = true → has d p = true) →
  user_ok s u x → user_ok (with_kernel r p s) u x.
Proof.
  intros Hr Hp [H1 H2 H3 H4 H5 H6]. split; try done. cbn. intros ev Hev Hd. unfold coming.
  destruct (Hr _ Hd) as [Hd'|Hd']; [|tauto].
  destruct (H4 ev Hev Hd') as [[Hc|Hc]|Hc]; auto.
Qed.

Lemma shared_ok_kernel s r p :
  Ready_wf p → (∀ d, r d = true → io_ready s d = true ∨ has d p = true) →
  (∀ d, has d (io_pending s) = true → has d p = true) →
  shared_ok s → shared_ok (with_kernel r p s).
Proof.
  intros Hwf Hr Hp [H1 H2 H3 H4 H5 H6 H7 H8]. split; try done. cbn. intros d Hd. unfold coming.
  destruct (Hr _ Hd) as [Hd'|Hd']; [|tauto].
  destruct (H6 d Hd') as [[Hc|Hc]|Hc]; auto.
Qed.

(** ** The users keep the invariant *)

Lemma inv_load s u :
  io_inv s → u_pc (io_users s u) = ULoad → pc_kind u UWantLock = true →
  io_inv (with_pc u (let ev := load_event (I := I) dir u (word s) in
                     if not_ready ev then UWantLock else with_event ev) s).
Proof using MioInterestLaws0.
  intros Hinv Hpc Hk. cbn. pose proof (sh_word _ (inv_shared _ Hinv)) as Hw.
  rewrite load_event_spec by done.
  destruct (not_ready _); apply inv_move_outside; rewrite ?Hpc; try done.
  cbn. intros ev [= <-]. eauto.
Qed.

Lemma clearing_held pc ev : clearing pc = Some ev → held pc = Some ev.
Proof. by destruct pc. Qed.

(** The compare-exchange of a user succeeds: the flags of its direction are gone,
    but no event was missed. *)
Lemma inv_clear s u ev :
  io_inv s → clearing (u_pc (io_users s u)) = Some ev → word_tick (word s) = ev_tick ev →
  io_inv (with_pc u (after_clear u) (with_word
    (word_update (Tick_Clear (ev_tick ev)) (λ curr, Ready_sub curr (event_mask ev)) (word s)) s)).
Proof.
  intros Hinv Hev Ht. pose proof (inv_users _ Hinv u) as Hu.
  destruct (inv_shared _ Hinv) as [S1 S2 S3 S4 S5 S6 S7 S8].
  destruct (uo_event _ _ _ Hu ev) as [m0 Em].
  { by apply clearing_held. }
  set (f := λ curr, Ready_sub curr (event_mask ev)).
  set (m := word_update _ _ _).
  assert (f = λ curr, Ready_sub curr (consumed (user_dir dir u) (word_ready m0))) as Ef.
  { unfold f. by rewrite Em. }
  pose proof (word_tick_range m0) as Hm0. pose proof (uo_clear _ _ _ Hu ev Hev) as Hc.
  assert (word_ready m = f (word_ready (word s)) ∧ word_tick m = word_tick (word s)) as [Hf Hmt].
  { pose proof (word_update_fields (Tick_Clear (ev_tick ev)) f (word s) (flag_update_sub _)
      ltac:(by rewrite Em)) as Hw.
    cbn [tick_stale] in Hw. rewrite (bool_decide_false _ (λ Hne, Hne Ht)) in Hw.
    destruct Hw as (Hw1 & Hw2 & _). split; [exact Hw1|]. rewrite Ht. exact Hw2. }
  assert (∀ d, has d (word_ready m) = true → flag d s = true) as Hmono.
  { intros d. rewrite Hf, Ef. apply has_clear; auto with arc. }
  assert (word_ok m).
  { apply word_update_ok; [apply flag_update_sub| |done]. by rewrite Em. }
  apply inv_with_pc.
  - split; try done. intros d Hd. change (flag d (with_word m s)) with (has d (word_ready m)). rewrite Hf, Ef.
    destruct (decide (d = user_dir dir u)) as [->|Hne].
    + left. destruct (Hc Hd) as [?|?]; [done|congruence].
    + rewrite has_clear_other by auto with arc. by apply S6.
  - intros v _. apply user_ok_word; [done..|]. apply (inv_users _ Hinv).
  - apply user_ok_outside.
    + by destruct u.
    + eapply (outside_unlocked s); [exact Hu|]. by destruct (u_pc (io_users s u)).
    + by destruct u.
    + by destruct u.
    + by destruct u.
    + intros n Hn. eapply (unlisted s); [exact Hu|done|left]. by destruct (u_pc (io_users s u)).
Qed.

Lemma inv_clear_step s s' u ev cur :
  io_inv s → u_pc (io_users s u) = UClearCas ev cur → clear_step u ev cur s = Some s' → io_inv s'.
Proof.
  intros Hinv Hpc Hstep. pose proof (inv_users _ Hinv u) as Hu.
  destruct (uo_event _ _ _ Hu ev) as [m0 Em]; [by rewrite Hpc|].
  assert (0 ≤ ev_tick ev < 256) by (rewrite Em; apply word_tick_range).
  unfold clear_step in Hstep. rewrite set_readiness_attempt_spec in Hstep by (auto with arc).
  assert (∀ pc, outside pc = true → pc_kind u pc = true → held pc = None ∨ held pc = Some ev →
    io_inv (with_pc u pc s)) as Hmove.
  { intros pc Ho Hk Hh. apply inv_move_outside; try done; [by rewrite Hpc|..].
    - destruct Hh as [->| ->]; [done|]. intros ev' [= <-]. eauto.
    - intros ev' Hev'%clearing_held. assert (ev' = ev) as -> by (destruct Hh; congruence).
      apply (uo_clear _ _ _ Hu). by rewrite Hpc. }
  case_bool_decide as Ht; [case_bool_decide as Hw|]; simplify_eq.
  - apply inv_clear; [done|by rewrite Hpc|done].
  - apply Hmove; auto.
  - apply Hmove; by destruct u; auto.
Qed.

Lemma inv_call_step s u ev b :
  io_inv s → u_pc (io_users s u) = UCall ev → io_inv (call_step dir u ev b s).
Proof.
  intros Hinv Hpc. pose proof (inv_users _ Hinv u) as Hu. unfold call_step.
  destruct (io_ready s (user_dir dir u)) eqn:Hr.
  - assert (∀ d, (<[user_dir dir u := negb b]> (io_ready s)) d = true →
      io_ready s d = true ∨ has d (io_pending s) = true) as Hk.
    { intros d Hd. left. destruct (decide (d = user_dir dir u)) as [->|]; [done|].
      by rewrite fn_lookup_insert_ne in Hd. }
    apply inv_move_outside; try done; [|cbn; by rewrite Hpc]. split.
    + apply shared_ok_kernel; try done; apply Hinv.
    + intros v. apply user_ok_kernel; try done. apply Hinv.
  - apply inv_move_outside; try done; [by rewrite Hpc|..].
    + intros ev' [= <-]. apply (uo_event _ _ _ Hu). by rewrite Hpc.
    + intros ev' _. by rewrite Hr.
Qed.

(** *** Under the lock *)

Lemma locked_driver s u :
  shared_ok s → io_lock s = Some (TUser u) → driver_locks (io_driver s) = false.
Proof.
  intros Hsh Hl. apply not_true_is_false. intros Hd. apply (sh_lock _ Hsh) in Hd. congruence.
Qed.

Lemma list_of_unlocked s : driver_locks (io_driver s) = false → list_of s = wt_list (waiters s).
Proof. unfold list_of. by destruct (io_driver s). Qed.

(** A user takes the lock. *)
Lemma inv_acquire s s1 u pc :
  io_inv s → acquire (TUser u) s = Some s1 →
  user_ok s1 u (mkUser pc (u_task (io_users s u)) (u_woken (io_users s u))) →
  io_inv (with_pc u pc s1).
Proof.
  unfold acquire. intros [Hsh Hus] Ha Hu. destruct (io_lock s) eqn:Hl; simplify_eq.
  apply inv_with_pc; [|intros v Hv|done].
  - apply shared_ok_lock; [|done]. by rewrite Hl.
  - apply user_ok_lock; [|by apply Hus]. rewrite Hl. split; congruence.
Qed.

(** A user that holds the lock changes the waiters, and may release it. *)
Lemma inv_locked s s1 u pc :
  io_inv s → io_lock s = Some (TUser u) →
  word s1 = word s → io_tick s1 = io_tick s → io_ready s1 = io_ready s →
  io_pending s1 = io_pending s → io_driver s1 = io_driver s → io_users s1 = io_users s →
  (io_lock s1 = None ∨ io_lock s1 = Some (TUser u)) →
  NoDup (view_nodes (pl_view (wt_list (waiters s1)))) →
  (∀ d, u ≠ PollIo d → slot_of d (waiters s1) = slot_of d (waiters s)) →
  (∀ n, u ≠ AsyncIo n →
     node_same n (pl_view (wt_list (waiters s))) (pl_view (wt_list (waiters s1)))) →
  user_ok s1 u (mkUser pc (u_task (io_users s u)) (u_woken (io_users s u))) →
  io_inv (with_pc u pc s1).
Proof.
  intros [Hsh Hus] Hl Hw Ht Hr Hp Hd Hu Hl1 Hnd Hslot Hnode Hok.
  pose proof (locked_driver _ _ Hsh Hl) as Hdl.
  assert (view s = pl_view (wt_list (waiters s))) as Hv by (unfold view; by rewrite list_of_unlocked).
  assert (view s1 = pl_view (wt_list (waiters s1))) as Hv1.
  { unfold view. by rewrite list_of_unlocked by by rewrite Hd. }
  apply inv_with_pc.
  - destruct Hsh as [S1 S2 S3 S4 S5 S6 S7 S8].
    split; unfold flag; rewrite ?Hw, ?Ht, ?Hr, ?Hp, ?Hd, ?Hv1; try done.
    rewrite Hdl. destruct Hl1 as [->| ->]; done.
  - intros v Hne. rewrite Hu. apply (user_ok_frame s); try done.
    + rewrite Hl. destruct Hl1 as [->| ->]; split; congruence.
    + intros d ->. apply Hslot. congruence.
    + intros n ->. rewrite Hv, Hv1. apply Hnode. congruence.
  - by rewrite Hu.
Qed.

(** *** [poll_readiness] *)

Context (will_wake_sound : ∀ a b, will_wake a b = true → a = b).

Lemma slot_of_with_slot d d' o (w : Waiters L nat) :
  slot_of d (with_slot d' o w) = if decide (d = d') then o else slot_of d w.
Proof. by destruct d, d'. Qed.

Lemma store_waker_task t slot : store_waker will_wake t slot = Some t.
Proof using will_wake_sound.
  destruct (store_waker_spec will_wake t slot) as (w & -> & [->|Hw]); [done|].
  by rewrite (will_wake_sound _ _ Hw).
Qed.

(** A user that leaves the critical section with an event in its hands, as it came. *)
Lemma inv_locked_call s u :
  io_inv s → u_pc (io_users s u) = ULoadLocked →
  io_inv (with_pc u (UCall (event_at (flags_for (user_dir dir u) (word s)) (word s))) (release s)).
Proof.
  intros Hinv Hpc. pose proof (inv_users _ Hinv u) as Hu.
  assert (io_lock s = Some (TUser u)) as Hl by (apply (uo_lock _ _ _ Hu); by rewrite Hpc).
  pose proof (locked_driver _ _ (inv_shared _ Hinv) Hl) as Hdl.
  apply (inv_locked s); try done; [by left| |].
  - pose proof (sh_nodup _ (inv_shared _ Hinv)) as Hnd. unfold view in Hnd.
    by rewrite list_of_unlocked in Hnd.
  - apply user_ok_outside; try done.
    + cbn. intros ev [= <-]. eauto.
    + intros n Hn. eapply (unlisted s); [exact Hu|done|by right].
Qed.

Lemma inv_poll_readiness_step s s' d :
  io_inv s → poll_readiness_step (I := I) will_wake dir d s = Some s' → io_inv s'.
Proof using MioInterestLaws0 will_wake_sound.
  intros Hinv Hstep. set (u := PollIo d). pose proof (inv_users _ Hinv u) as Hu.
  pose proof (sh_word _ (inv_shared _ Hinv)) as Hw. unfold poll_readiness_step in Hstep.
  fold u in Hstep. destruct (u_pc (io_users s u)) eqn:Hpc; try done.
  - injection Hstep as <-. by apply inv_load.
  - destruct (acquire (TUser u) s) as [s1|] eqn:Ha; [|done]. injection Hstep as <-.
    apply (inv_acquire s); [done..|]. unfold acquire in Ha.
    destruct (io_lock s); [done|]. injection Ha as <-. by split.
  - injection Hstep as <-.
    assert (io_lock s = Some (TUser u)) as Hl by (apply (uo_lock _ _ _ Hu); by rewrite Hpc).
    pose proof (sh_nodup _ (inv_shared _ Hinv)) as Hnd. unfold view in Hnd.
    rewrite list_of_unlocked in Hnd by (by eapply locked_driver; [apply Hinv|]).
    assert (∀ o, wt_list (with_slot d o (waiters s)) = wt_list (waiters s)) as Hwl
      by (by destruct d).
    apply (inv_locked s); try done; cbn.
    + by right.
    + by rewrite Hwl.
    + intros d' Hd'. rewrite slot_of_with_slot, decide_False; [done|]. by intros ->.
    + intros n _. by rewrite Hwl.
    + split; try done. cbn. intros d' [= <-]. unfold slot_ok. cbn.
      by rewrite slot_of_with_slot, decide_True, store_waker_task.
  - apply (inj Some) in Hstep as <-.
    rewrite locked_event_spec, not_ready_spec by done. cbn [user_dir u].
    destruct (has d (word_ready (word s))) eqn:Hf; cbn [negb]; [by apply (inv_locked_call s u)|].
    assert (io_lock s = Some (TUser u)) as Hl by (apply (uo_lock _ _ _ Hu); by rewrite Hpc).
    pose proof (sh_nodup _ (inv_shared _ Hinv)) as Hnd. unfold view in Hnd.
    rewrite list_of_unlocked in Hnd by (by eapply locked_driver; [apply Hinv|]).
    pose proof (uo_slot _ _ _ Hu d eq_refl) as Hs. unfold slot_ok in Hs. rewrite Hpc in Hs.
    apply (inv_locked s); try done; [by left|].
    split; try done. cbn. intros d' [= <-] _. left. split; [done|].
    unfold flag. change (word (release s)) with (word s). by rewrite Hf.
Qed.

(** *** The [Readiness] future *)

Section readiness_step.
Context (s : io L C) (n : node).
Local Abbreviation u := (AsyncIo n).
Context (Hinv : io_inv s).

Lemma inv_push :
  u_pc (io_users s u) = UPush →
  io_inv (with_pc u UWantRelock (release (with_wait (with_list (pl_push_front n
    (u_task (io_users s u)) (interest_for (dir n)) (wt_list (waiters s))) (waiters s)) s))).
Proof using Hinv.
  intros Hpc. pose proof (inv_users _ Hinv u) as Hu.
  assert (io_lock s = Some (TUser u)) as Hl by (apply (uo_lock _ _ _ Hu); by rewrite Hpc).
  pose proof (locked_driver _ _ (inv_shared _ Hinv) Hl) as Hdl.
  pose proof (sh_nodup _ (inv_shared _ Hinv)) as Hnd.
  pose proof (uo_node _ _ _ Hu n eq_refl) as Hn. unfold node_ok in Hn. rewrite Hpc in Hn.
  unfold view in Hnd, Hn. rewrite list_of_unlocked in Hnd, Hn by done. destruct Hn as [Hn Hf].
  apply (inv_locked s); try done; cbn; rewrite ?pl_push_front_view.
  - by left.
  - by constructor.
  - intros n' Hn'. apply node_same_push. congruence.
  - split; try done. cbn. intros n' [= <-]. unfold node_ok, view. cbn.
    rewrite list_of_unlocked by done. cbn. rewrite pl_push_front_view. left. eexists.
    split; [by left|]. by split.
Qed.

Lemma inv_recheck_linked :
  u_pc (io_users s u) = URecheck → n ∈ view_nodes (pl_view (wt_list (waiters s))) →
  io_inv (with_pc u UAsleep (release (with_wait (with_list (pl_set_protected n
    (u_task (io_users s u)) (wt_list (waiters s))) (waiters s)) s))).
Proof using Hinv.
  intros Hpc Hin. pose proof (inv_users _ Hinv u) as Hu.
  assert (io_lock s = Some (TUser u)) as Hl by (apply (uo_lock _ _ _ Hu); by rewrite Hpc).
  pose proof (locked_driver _ _ (inv_shared _ Hinv) Hl) as Hdl.
  pose proof (sh_nodup _ (inv_shared _ Hinv)) as Hnd.
  pose proof (uo_node _ _ _ Hu n eq_refl) as Hn. unfold node_ok in Hn. rewrite Hpc in Hn.
  unfold view in Hnd, Hn. rewrite list_of_unlocked in Hnd, Hn by done.
  destruct Hn as [(w & Hw & _ & Hf)|(Hout & _)]; [|done].
  apply (inv_locked s); try done; cbn; rewrite ?pl_set_protected_view.
  - by left.
  - unfold view_nodes. cbn. by rewrite set_waker_nodes.
  - intros n' Hn'. apply node_same_set. congruence.
  - split; try done. cbn. intros n' [= <-]. unfold node_ok, view. cbn.
    rewrite list_of_unlocked by done. cbn. rewrite pl_set_protected_view. left. eexists.
    split; [by eapply set_waker_elem|]. by split.
Qed.

Lemma inv_recheck_removed l' :
  u_pc (io_users s u) = URecheck → n ∉ view_nodes (pl_view (wt_list (waiters s))) →
  pl_view l' = mkView (linked (pl_view (wt_list (waiters s))))
                      (removed (pl_view (wt_list (waiters s))) ∖ {[n]}) →
  io_inv (with_pc u ULoadDone (release (with_wait (with_list l' (waiters s)) s))).
Proof using Hinv.
  intros Hpc Hout Hv. pose proof (inv_users _ Hinv u) as Hu.
  assert (io_lock s = Some (TUser u)) as Hl by (apply (uo_lock _ _ _ Hu); by rewrite Hpc).
  pose proof (locked_driver _ _ (inv_shared _ Hinv) Hl) as Hdl.
  pose proof (sh_nodup _ (inv_shared _ Hinv)) as Hnd.
  unfold view in Hnd. rewrite list_of_unlocked in Hnd by done.
  apply (inv_locked s); try done; cbn; rewrite ?Hv.
  - by left.
  - done.
  - intros n' Hn'. apply node_same_removed. congruence.
  - apply user_ok_outside; try done. intros n' [= <-]. unfold view.
    rewrite list_of_unlocked by done. cbn. by rewrite Hv.
Qed.

(** Whether the node of a future that rechecks is linked. *)
Lemma recheck_cases :
  u_pc (io_users s u) = URecheck →
  let v := pl_view (wt_list (waiters s)) in
  n ∈ view_nodes v ∨ ((n ∉ view_nodes v) ∧ n ∈ removed v).
Proof using Hinv.
  intros Hpc. pose proof (inv_users _ Hinv u) as Hu.
  assert (io_lock s = Some (TUser u)) as Hl by (apply (uo_lock _ _ _ Hu); by rewrite Hpc).
  pose proof (locked_driver _ _ (inv_shared _ Hinv) Hl) as Hdl.
  pose proof (uo_node _ _ _ Hu n eq_refl) as Hn. unfold node_ok in Hn. rewrite Hpc in Hn.
  unfold view in Hn. rewrite list_of_unlocked in Hn by done.
  destruct Hn as [(w & Hw & _)|(Hout & Hr & _)]; [left|by right]. apply elem_of_nodes. eauto.
Qed.

Lemma inv_readiness_step s' :
  readiness_step (I := I) dir n s = Some s' → io_inv s'.
Proof using Hinv MioInterestLaws0.
  intros Hstep. pose proof (inv_users _ Hinv u) as Hu.
  pose proof (sh_word _ (inv_shared _ Hinv)) as Hw. unfold readiness_step in Hstep.
  destruct (u_pc (io_users s u)) eqn:Hpc; try done.
  - injection Hstep as <-. by apply inv_load.
  - destruct (acquire (TUser u) s) as [s1|] eqn:Ha; [|done]. injection Hstep as <-.
    apply (inv_acquire s); [done..|]. unfold acquire in Ha.
    destruct (io_lock s); [done|]. injection Ha as <-. split; try done.
    intros n' [= <-]. eapply (unlisted s); [done|done|]. rewrite Hpc. by left.
  - apply (inj Some) in Hstep as <-. rewrite locked_event_spec, not_ready_spec by done.
    destruct (has _ (word_ready (word s))) eqn:Hf; cbn [negb]; [by apply (inv_locked_call s u)|].
    apply inv_move; [done|].
    assert (io_lock s = Some (TUser u)) as Hl by (apply (uo_lock _ _ _ Hu); by rewrite Hpc).
    split; try done. intros n' [= <-]. split.
    + eapply (unlisted s); [done|done|by right].
    + unfold flag. cbn [user_dir] in Hf. by rewrite Hf.
  - apply (inj Some) in Hstep as <-. by apply inv_push.
  - destruct (acquire (TUser u) s) as [s1|] eqn:Ha; [|done]. injection Hstep as <-.
    apply (inv_acquire s); [done..|]. unfold acquire in Ha.
    destruct (io_lock s); [done|]. injection Ha as <-. split; try done.
    intros n' [= <-]. pose proof (uo_node _ _ _ Hu n eq_refl) as Hn.
    unfold node_ok in Hn. by rewrite Hpc in Hn.
  - destruct (recheck_cases Hpc) as [Hin|[Hout Hr]].
    + rewrite pl_initialized_view, bool_decide_true, pl_protected_view in Hstep by by left.
      destruct (view_find_linked _ _ Hin) as [y Hy]. rewrite Hy in Hstep. cbn in Hstep.
      apply (inj Some) in Hstep as <-. by apply inv_recheck_linked.
    + rewrite pl_initialized_view, bool_decide_true, pl_protected_view in Hstep by by right.
      rewrite view_find_none in Hstep by done. cbn in Hstep.
      destruct (pl_take_removed_some _ _ Hr Hout) as (l' & Hl' & Hv). rewrite Hl' in Hstep.
      apply (inj Some) in Hstep as <-. by apply inv_recheck_removed.
  - apply (inj Some) in Hstep as <-. rewrite load_event_spec by done.
    apply inv_move_outside; rewrite ?Hpc; try done. cbn. intros ev [= <-]. eauto.
Qed.
End readiness_step.

Lemma inv_try_io_step s s' n :
  io_inv s → try_io_step (I := I) dir n s = Some s' → io_inv s'.
Proof using MioInterestLaws0.
  intros Hinv Hstep. pose proof (sh_word _ (inv_shared _ Hinv)) as Hw.
  unfold try_io_step in Hstep. destruct (u_pc (io_users s (TryIo n))) eqn:Hpc; try done.
  apply (inj Some) in Hstep as <-. rewrite load_event_spec by done.
  destruct (Ready_is_empty _); apply inv_move_outside; rewrite ?Hpc; try done.
  cbn. intros ev [= <-]. eauto.
Qed.

Lemma inv_user_step s s' u b :
  io_inv s → user_step (I := I) will_wake dir u b s = Some s' → io_inv s'.
Proof using MioInterestLaws0 will_wake_sound.
  intros Hinv Hstep. pose proof (inv_users _ Hinv u) as Hu. unfold user_step in Hstep.
  assert (match u with
          | PollIo d => poll_readiness_step (I := I) will_wake dir d s
          | AsyncIo n => readiness_step (I := I) dir n s
          | TryIo n => try_io_step (I := I) dir n s
          end = Some s' → io_inv s') as Hother.
  { destruct u; [by apply inv_poll_readiness_step|by apply inv_readiness_step|by apply inv_try_io_step]. }
  destruct (u_pc (io_users s u)) eqn:Hpc; try by apply Hother.
  - apply (inj Some) in Hstep as <-. by apply inv_call_step.
  - apply (inj Some) in Hstep as <-. apply inv_move_outside; try done; [by rewrite Hpc|..].
    + intros ev' [= <-]. apply (uo_event _ _ _ Hu). by rewrite Hpc.
    + intros ev' [= <-]. apply (uo_clear _ _ _ Hu). by rewrite Hpc.
  - by eapply inv_clear_step.
Qed.

(** *** Polls and the kernel *)

Lemma inv_poll_step s s' u t : io_inv s → poll_step u t s = Some s' → io_inv s'.
Proof.
  intros Hinv Hstep. pose proof (inv_users _ Hinv u) as Hu.
  assert (∀ pc, user_ok s u (mkUser pc t false) →
    io_inv (mkIo (io_res s) (io_lock s) (io_tick s) (io_driver s) (io_ready s) (io_pending s)
              (<[u := mkUser pc t false]> (io_users s)))) as Hset.
  { intros pc Hok. split; [by destruct (inv_shared _ Hinv); split|].
    intros v. apply (user_ok_frame s); auto using node_same_refl. cbn.
    destruct (decide (v = u)) as [->|Hv]; [by rewrite fn_lookup_insert|].
    rewrite fn_lookup_insert_ne by done. apply Hinv. }
  assert (io_lock s = Some (TUser u) → u_pc (io_users s u) ≠ UIdle ∧ u_pc (io_users s u) ≠ UAsleep)
    as Hl by (intros Hl%(uo_lock _ _ _ Hu); by destruct (u_pc (io_users s u))).
  unfold poll_step in Hstep. destruct (u_pc (io_users s u)) eqn:Hpc; try done.
  - apply (inj Some) in Hstep as <-. apply Hset, user_ok_outside; try done.
    + intros Hx. by apply Hl in Hx as [? ?].
    + intros n Hn. eapply (unlisted s); [done|done|]. rewrite Hpc. by left.
  - assert (io_lock s ≠ Some (TUser u)) as Hl' by (intros Hx; by apply Hl in Hx as [? ?]).
    destruct u as [d|n|n]; apply (inj Some) in Hstep as <-; apply Hset.
    + by apply user_ok_outside.
    + pose proof (uo_node _ _ _ Hu n eq_refl) as Hn. unfold node_ok in Hn. rewrite Hpc in Hn.
      split; try done. intros n' [= <-]. unfold node_ok. cbn. revert Hn. by apply listed_impl.
    + by apply user_ok_outside.
Qed.

Lemma inv_kernel_step s s' k : io_inv s → kernel_step k s = Some s' → io_inv s'.
Proof.
  intros [Hsh Hus] Hstep. pose proof (sh_pending _ Hsh) as Hp.
  assert (∀ r p, Ready_wf p → (∀ d, r d = true → io_ready s d = true ∨ has d p = true) →
    (∀ d, has d (io_pending s) = true → has d p = true) → io_inv (with_kernel r p s)) as Hset.
  { intros r p ???. split; [by apply shared_ok_kernel|]. intros v. apply user_ok_kernel; auto. }
  destruct k as [e|e|d]; cbn in Hstep; try (case_bool_decide as He; [|done]);
    apply (inj Some) in Hstep as <-; apply Hset.
  - auto with arc.
  - intros d. rewrite has_or by done. destruct (io_ready s d), (has d e); auto with bool.
  - intros d Hd. by rewrite has_or, Hd.
  - auto with arc.
  - auto.
  - intros d Hd. by rewrite has_or, Hd.
  - done.
  - intros d' Hd'. left. destruct (decide (d' = d)) as [->|]; [by rewrite fn_lookup_insert in Hd'|].
    by rewrite fn_lookup_insert_ne in Hd'.
  - done.
Qed.

(** ** The driver keeps the invariant *)

Lemma slot_ok_driver d x slot f drv drv' :
  (taking d drv → taking d drv') → (∀ t, t ∈ driver_wakers drv → t ∈ driver_wakers drv') →
  slot_ok d x slot f drv → slot_ok d x slot f drv'.
Proof.
  intros Ht Hw. unfold slot_ok. destruct (u_pc x); try done.
  intros Hs Hx. destruct (Hs Hx) as [[? ?]|?]; [left|right]; auto.
Qed.

Lemma node_ok_driver n x v f drv drv' :
  (scanning (dir n) drv → scanning (dir n) drv') →
  (∀ t, t ∈ driver_wakers drv → t ∈ driver_wakers drv') →
  node_ok n x v f drv → node_ok n x v f drv'.
Proof.
  intros Hs Hw. unfold node_ok. destruct (u_pc x); try done.
  - intros [? ?]; auto.
  - apply listed_impl; auto.
  - apply listed_impl; auto.
  - apply listed_impl; auto.
Qed.

(** The driver moves on and drops nothing. *)
Lemma user_ok_driver s s' u x :
  word s' = word s → io_ready s' = io_ready s → view s' = view s →
  (∀ d, slot_of d (waiters s') = slot_of d (waiters s)) →
  (io_lock s' = Some (TUser u) ↔ io_lock s = Some (TUser u)) →
  (∀ d, coming d (io_pending s) (io_driver s) → coming d (io_pending s') (io_driver s')) →
  (∀ d, taking d (io_driver s) → taking d (io_driver s')) →
  (∀ d, scanning d (io_driver s) → scanning d (io_driver s')) →
  (∀ t, t ∈ driver_wakers (io_driver s) → t ∈ driver_wakers (io_driver s')) →
  user_ok s u x → user_ok s' u x.
Proof.
  intros Hw Hr Hv Hwt Hl Hc Ht Hs Hwk [H1 H2 H3 H4 H5 H6]. unfold flag in *.
  split; unfold flag; rewrite ?Hw, ?Hr, ?Hl, ?Hv; try done.
  - intros ev Hev Hd. destruct (H4 ev Hev Hd); auto.
  - intros d Hu. rewrite Hwt. eapply slot_ok_driver; [| |by apply H5]; auto.
  - intros n Hu. eapply node_ok_driver; [| |by apply H6]; auto.
Qed.

Lemma shared_ok_driver s s' :
  word s' = word s → 0 ≤ io_tick s' < 256 → io_ready s' = io_ready s →
  view s' = view s → Ready_wf (io_pending s') →
  (∀ e, driver_event (io_driver s') = Some e → Ready_wf e) →
  (io_lock s' = Some TDriver ↔ driver_locks (io_driver s') = true) →
  (∀ d, coming d (io_pending s) (io_driver s) → coming d (io_pending s') (io_driver s')) →
  (∀ e c wk, io_driver s' = DScan e c wk →
     fst (pl_cview c) = [] ∧ (length wk ≤ WAKERS_CAP)%nat) →
  shared_ok s → shared_ok s'.
Proof.
  intros Hw Ht Hr Hv Hp He Hl Hc Hs [S1 S2 S3 S4 S5 S6 S7 S8]. unfold flag in *.
  split; unfold flag; rewrite ?Hw, ?Hr, ?Hv; try done.
  intros d Hd. destruct (S6 d Hd); auto.
Qed.

(** The cursor at the front of the list. *)
Lemma view_front l : pl_view (pl_cursor_end (pl_cursor_front_mut l)) = pl_view l.
Proof. rewrite pl_cursor_end_view, pl_cursor_front_view. cbn. by destruct (pl_view l). Qed.

(** *** Storing the event *)

Lemma inv_turn_step s s' b : io_inv s → io_driver s = DTurn → turn_step b s = Some s' → io_inv s'.
Proof.
  intros [Hsh Hus] Hd Hstep. unfold turn_step in Hstep.
  assert (0 ≤ u8_wrapping_add (io_tick s) 1 < 256) as Ht by by apply Z.mod_pos_bound.
  assert (io_lock s ≠ Some TDriver) as Hl.
  { rewrite (sh_lock _ Hsh), Hd. done. }
  destruct b; [destruct (Ready_is_empty _); [done|]|]; apply (inj Some) in Hstep as <-.
  - assert (∀ d, coming d (io_pending s) (io_driver s) → has d (io_pending s) = true) as Hc.
    { intros d [?|?]; [done|by rewrite Hd in *]. }
    split.
    + apply (shared_ok_driver s); try done; cbn.
      * unfold view, list_of. cbn. by rewrite Hd.
      * intros e [= <-]. apply (sh_pending _ Hsh).
      * intros d Hx. right. by apply Hc.
    + intros v. apply (user_ok_driver s); try done; cbn.
      * unfold view, list_of. cbn. by rewrite Hd.
      * intros d Hx. right. by apply Hc.
      * by rewrite Hd.
      * by rewrite Hd.
      * by rewrite Hd.
  - split.
    + by destruct Hsh; split.
    + intros v. by apply (user_ok_frame s); auto using node_same_refl.
Qed.

(** The driver's exchange succeeds: the flags are in the word, under a tick that no
    user is clearing with. *)
Lemma inv_store s e cur :
  io_inv s → ~ tick_reused s → io_driver s = DCas e cur →
  io_inv (with_driver (DLock e) (with_word
    (word_update (Tick_Set (io_tick s)) (λ curr, Ready_bitor curr e) (word s)) s)).
Proof.
  intros [Hsh Hus] Hfresh Hd. set (m := word_update _ _ _).
  pose proof (sh_event _ Hsh e ltac:(by rewrite Hd)) as He.
  destruct Hsh as [S1 S2 S3 S4 S5 S6 S7 S8].
  destruct (word_update_fields (Tick_Set (io_tick s)) (λ curr, Ready_bitor curr e) (word s)
    (flag_update_or _ He) S2) as (Hr & Ht & _). fold m in Hr, Ht.
  change (word_tick m = io_tick s) in Ht.
  assert (word_ok m) as Hm by (apply word_update_ok; auto with arc). clearbody m.
  assert (∀ d, has d (word_ready m) = flag d s || has d e) as Hf.
  { intros d. rewrite Hr, has_or by auto with arc. done. }
  assert (view (with_driver (DLock e) (with_word m s)) = view s) as Hv.
  { unfold view, list_of. cbn. by rewrite Hd. }
  split.
  - split; try done; cbn.
    + intros e' [= <-]. done.
    + rewrite Hd in S5. done.
    + intros d Hrd. unfold flag. change (word _) with m. rewrite Hf.
      destruct (S6 d Hrd) as [[Hc|Hc]|Hc]; [by left; left|right|right].
      * rewrite Hd in Hc. cbn in Hc. rewrite Hc. apply orb_true_r.
      * by rewrite Hc.
    + by rewrite Hv.
  - intros u. destruct (Hus u) as [H1 H2 H3 H4 H5 H6]. split; try done; cbn.
    + intros ev Hev Hrd. right. unfold word. cbn. rewrite Ht. intros Heq.
      apply Hfresh. by exists e, cur, u, ev.
    + intros d Hu. unfold flag. change (word _) with m. rewrite Hf.
      specialize (H5 d Hu). rewrite Hd in H5. unfold slot_ok in *. destruct (u_pc _); try done.
      intros Hx. destruct (H5 Hx) as [[Hs Hfl]|Hin]; [left|by apply not_elem_of_nil in Hin].
      split; [done|]. intros [Hy|Hy]%orb_prop; [by destruct (Hfl Hy)|done].
    + intros n Hu. rewrite Hv. unfold flag. change (word _) with m. rewrite Hf.
      specialize (H6 n Hu). rewrite Hd in H6. unfold node_ok in *.
      assert ((flag (dir n) s = true → scanning (dir n) (DCas e cur)) →
        flag (dir n) s || has (dir n) e = true → scanning (dir n) (DLock e : driver_pc C)) as Hsc.
      { intros Hs [Hx|Hx]%orb_prop; [by destruct (Hs Hx)|done]. }
      destruct (u_pc _); try done.
      * destruct H6 as [? ?]. auto.
      * revert H6. by apply listed_impl.
      * revert H6. by apply listed_impl.
      * revert H6. apply listed_impl; auto.
Qed.

Lemma inv_store_step s s' e cur :
  io_inv s → ~ tick_reused s → io_driver s = DCas e cur → store_step e cur s = Some s' → io_inv s'.
Proof.
  intros Hinv Hfresh Hd Hstep. pose proof (inv_shared _ Hinv) as Hsh.
  pose proof (sh_event _ Hsh e ltac:(by rewrite Hd)) as He. pose proof (sh_tick _ Hsh) as Ht.
  unfold store_step in Hstep. rewrite set_readiness_attempt_spec in Hstep by auto with arc.
  case_bool_decide as Hw; apply (inj Some) in Hstep as <-.
  - rewrite <- Hw. by eapply inv_store.
  - assert (view (with_driver (DCas e (word s)) s) = view s) as Hv.
    { unfold view, list_of. cbn. by rewrite Hd. }
    split.
    + apply (shared_ok_driver s); try done; try apply Hsh; cbn.
      * intros e' [= <-]. done.
      * rewrite (sh_lock _ Hsh). by rewrite Hd.
      * intros d. by rewrite Hd.
    + intros u. apply (user_ok_driver s); try done; try apply Hinv; intros d; cbn; by rewrite Hd.
Qed.

(** *** Taking the wakers *)

(** The driver takes the lock, and looks at the list in the same order or not at all. *)
Lemma inv_driver_acquire s s1 e drv :
  io_inv s → acquire TDriver s = Some s1 →
  driver_event (io_driver s) = Some e → driver_event drv = Some e →
  driver_locks (io_driver s) = false → driver_locks drv = true →
  (∀ d, taking d (io_driver s) → taking d drv) →
  (∀ d, scanning d (io_driver s) → scanning d drv) →
  (∀ d, storing d (io_driver s) → False) → driver_wakers (io_driver s) = [] →
  (drv = DTake e ∨ drv = DScan e (pl_cursor_front_mut (wt_list (waiters s))) []) →
  io_inv (with_driver drv s1).
Proof.
  intros [Hsh Hus] Ha He He' Hdl Hdl' Ht Hs Hst Hwk Hdrv. unfold acquire in Ha.
  destruct (io_lock s) eqn:Hl; [done|]. apply (inj Some) in Ha as <-.
  assert (view (with_driver drv (with_lock (Some TDriver) s)) = view s) as Hv.
  { unfold view. rewrite (list_of_unlocked s) by done. unfold list_of. cbn.
    destruct Hdrv as [->| ->]; [done|]. apply view_front. }
  assert (∀ d, coming d (io_pending s) (io_driver s) → coming d (io_pending s) drv) as Hc.
  { intros d [Hx|Hx]; [by left|by destruct (Hst d)]. }
  split.
  - apply (shared_ok_driver s); try done; try apply Hsh; cbn.
    + intros e' ?. apply (sh_event _ Hsh). congruence.
    + intros e' c wk ->. destruct Hdrv as [?|?]; simplify_eq.
      rewrite pl_cursor_front_view. cbn. split; [done|]. lia.
  - intros u. apply (user_ok_driver s); try done; try apply Hus; cbn.
    + rewrite Hl. split; congruence.
    + rewrite Hwk. intros t []%not_elem_of_nil.
Qed.

Lemma take_slots e s :
  Ready_wf e →
  (wakers ← if Ready_is_readable e then take_slot (wt_reader (waiters s)) [] else mret [];
   if Ready_is_writable e then take_slot (wt_writer (waiters s)) wakers else mret wakers) =
  Done (slot_wakers e (waiters s)) ∧
  ∀ d t, slot_of d (waiters s) = Some t → has d e = true → t ∈ slot_wakers e (waiters s).
Proof.
  intros He. split.
  - unfold slot_wakers. by destruct (Ready_is_readable e), (Ready_is_writable e),
      (wt_reader (waiters s)), (wt_writer (waiters s)).
  - intros d t Hs Hh. rewrite <- has_slot in Hh by done. unfold slot_wakers.
    apply elem_of_app. destruct d; cbn in Hs; [left|right]; rewrite Hh, Hs; by left.
Qed.

Lemma inv_take_step s s' e :
  io_inv s → io_driver s = DTake e → take_step e s = Some s' → io_inv s'.
Proof.
  intros [Hsh Hus] Hd Hstep. pose proof (sh_event _ Hsh e ltac:(by rewrite Hd)) as He.
  destruct (take_slots e s He) as [Ht Hin]. unfold take_step in Hstep. rewrite Ht in Hstep.
  apply (inj Some) in Hstep as <-. set (w' := mkWaiters _ _ _).
  set (drv := DScan e _ _). set (s' := with_driver drv (with_wait w' s)).
  assert (view s' = view s) as Hv.
  { unfold view, list_of. cbn. rewrite Hd. apply view_front. }
  assert (∀ d, slot_of d w' = if has d e then None else slot_of d (waiters s)) as Hsl.
  { intros d. rewrite <- has_slot by done. by destruct d. }
  assert (io_lock s = Some TDriver) as Hl by (apply (sh_lock _ Hsh); by rewrite Hd).
  split.
  - apply (shared_ok_driver s); try done; try apply Hsh; cbn.
    + intros e' [= <-]. done.
    + intros d. by rewrite Hd.
    + intros e' c wk [= <- <- <-]. rewrite pl_cursor_front_view. split; [done|].
      pose proof (slot_wakers_len e (waiters s)). unfold WAKERS_CAP. lia.
  - intros u. destruct (Hus u) as [H1 H2 H3 H4 H5 H6]. split; try done.
    + intros ev Hev Hr. destruct (H4 ev Hev Hr) as [[?|?]|?]; [by left; left| |by right].
      by rewrite Hd in *.
    + intros d Hu. specialize (H5 d Hu). rewrite Hd in H5. cbn. rewrite Hsl.
      unfold slot_ok in *. destruct (u_pc _) eqn:Hpc; try done.
      { rewrite Hl in H1. destruct H1 as [_ H1]. by specialize (H1 eq_refl). }
      intros Hx. destruct (H5 Hx) as [[Hs Hfl]|Hw]; [|by apply not_elem_of_nil in Hw].
      destruct (has d e) eqn:Hde; [right; by eapply Hin|left]. split; [done|].
      intros Hf. specialize (Hfl Hf). cbn in Hfl. congruence.
    + intros n Hu. rewrite Hv. specialize (H6 n Hu). rewrite Hd in H6. revert H6.
      apply node_ok_driver; [done|]. intros t []%not_elem_of_nil.
Qed.

Lemma listed_pop n (P : nat → Prop) (Q Q' : Prop) v (x : waiter nat I) xs f drv drv' :
  NoDup (view_nodes v) → linked v = x :: xs →
  (P (waiter_waker x) → Q') → (Q → Q') → (scanning (dir n) drv → scanning (dir n) drv') →
  listed n P Q v f drv →
  listed n P Q' (mkView xs ({[waiter_node x]} ∪ removed v)) f drv'.
Proof.
  intros Hnd Hl HP HQ Hs Hlist. unfold view_nodes in Hnd. rewrite Hl in Hnd. cbn in Hnd.
  apply NoDup_cons in Hnd as [Hx Hnd].
  destruct Hlist as [(w & Hw & Hp & Hf)|(Hout & Hr & Hq)].
  - rewrite Hl in Hw. apply elem_of_cons in Hw as [Heq|Hw].
    + right. subst x. split_and!; [done|set_solver|auto].
    + left. exists w. auto.
  - right. split_and!; [|set_solver|auto]. unfold view_nodes in *. rewrite Hl in Hout. cbn in *.
    by apply not_elem_of_cons in Hout as [? ?].
Qed.

(** The waiter at the front is interested: its waker moves into the array. *)
Lemma inv_scan_pop s e c wk c' (x : waiter nat I) xs :
  io_inv s → io_driver s = DScan e c wk → (length wk < WAKERS_CAP)%nat →
  linked (snd (pl_cview c)) = x :: xs →
  pl_cview c' = (fst (pl_cview c), mkView xs ({[waiter_node x]} ∪ removed (snd (pl_cview c)))) →
  io_inv (with_driver (DScan e c' (wk ++ [waiter_waker x])) s).
Proof.
  intros [Hsh Hus] Hd Hlen Hl Hc'. destruct (sh_scan _ Hsh _ _ _ Hd) as [Hb _].
  assert (view s = snd (pl_cview c)) as Hv.
  { unfold view, list_of. rewrite Hd, pl_cursor_end_view, Hb. by destruct (snd (pl_cview c)). }
  set (s' := with_driver _ s).
  assert (view s' = mkView xs ({[waiter_node x]} ∪ removed (view s))) as Hv'.
  { unfold view at 1, list_of. cbn. by rewrite pl_cursor_end_view, Hc', Hb, Hv. }
  rewrite <- Hv in Hl. destruct Hsh as [S1 S2 S3 S4 S5 S6 S7 S8]. rewrite Hd in *.
  split; [split; try done|intros u; destruct (Hus u) as [H1 H2 H3 H4 H5 H6]; split; try done].
  - rewrite Hv'. unfold view_nodes in *. rewrite Hl in S7. by apply NoDup_cons in S7 as [_ ?].
  - cbn. intros ??? [= <- <- <-]. rewrite Hc', length_app. cbn. split; [done|lia].
  - intros ev Hev Hr. destruct (H4 ev Hev Hr) as [[?|?]|?]; [by left; left| |by right].
    by rewrite Hd in *.
  - intros d Hu. specialize (H5 d Hu). rewrite Hd in H5. revert H5.
    apply slot_ok_driver; [done|]. cbn. intros t ?. apply elem_of_app. by left.
  - intros n Hu. specialize (H6 n Hu). rewrite Hd in H6. rewrite Hv'.
    assert (waiter_waker x ∈ wk ++ [waiter_waker x]) by (apply elem_of_app; right; by left).
    assert (n ∉ view_nodes (view s) → n ∉ view_nodes (mkView (I := I) xs
      ({[waiter_node x]} ∪ removed (view s)))) as Hsub.
    { unfold view_nodes. rewrite Hl. cbn. by intros [? ?]%not_elem_of_cons. }
    unfold node_ok in *. destruct (u_pc _); auto.
    + destruct H6. auto.
    + revert H6. by apply listed_pop.
    + revert H6. by apply listed_pop.
    + revert H6. apply listed_pop; auto.
      * intros Hw Hx. specialize (Hw Hx). cbn in *. by rewrite <- Hw.
      * intros Hq Hx. cbn. apply elem_of_app. left. by apply Hq.
Qed.

(** The driver leaves the list: the array is full, or nobody is left. *)
Lemma inv_scan_leave s e c wk again :
  io_inv s → io_driver s = DScan e c wk →
  (again = true ∨ linked (snd (pl_cview c)) = []) →
  io_inv (with_driver (DWake e wk again)
    (release (with_wait (with_list (pl_cursor_end c) (waiters s)) s))).
Proof.
  intros [Hsh Hus] Hd Hend. destruct (sh_scan _ Hsh _ _ _ Hd) as [Hb _].
  assert (view s = snd (pl_cview c)) as Hv.
  { unfold view, list_of. rewrite Hd, pl_cursor_end_view, Hb. by destruct (snd (pl_cview c)). }
  set (s' := with_driver _ _).
  assert (view s' = view s) as Hv'.
  { unfold view, list_of. by rewrite Hd. }
  assert (io_lock s = Some TDriver) as Hl by (apply (sh_lock _ Hsh); by rewrite Hd).
  split.
  - apply (shared_ok_driver s); try done; try apply Hsh; cbn.
    + intros e' [= <-]. apply (sh_event _ Hsh). by rewrite Hd.
    + intros d. by rewrite Hd.
  - intros u. destruct Hend as [->|Hempty].
    + apply (user_ok_driver s); try done; cbn; rewrite ?Hd; try done. by rewrite Hl.
    + destruct (Hus u) as [H1 H2 H3 H4 H5 H6]. rewrite Hl in H1. split; try done.
      * cbn. split; [done|]. intros Hx. by apply H1 in Hx.
      * intros ev Hev Hr. destruct (H4 ev Hev Hr) as [[?|?]|?]; [by left; left| |by right].
        by rewrite Hd in *.
      * intros d Hu. specialize (H5 d Hu). rewrite Hd in H5. cbn.
        replace (slot_of d _) with (slot_of d (waiters s)) by by destruct d.
        revert H5. by apply slot_ok_driver.
      * intros n Hu. specialize (H6 n Hu). rewrite Hd in H6. rewrite Hv'. unfold node_ok in *.
        assert (∀ P Q f drv drv', listed n P Q (view s) f drv → listed n P Q (view s) f drv') as Hre.
        { intros P Q f drv drv' [(w & Hw & _)|Hr]; [|by right]. rewrite Hv, Hempty in Hw.
          by apply not_elem_of_nil in Hw. }
        destruct (u_pc _); eauto. destruct H1 as [_ H1]. by specialize (H1 eq_refl).
Qed.

Lemma inv_scan_step s s' e c wk :
  io_inv s → io_driver s = DScan e c wk → scan_step e c wk s = Some s' → io_inv s'.
Proof.
  intros Hinv Hd Hstep. destruct (sh_scan _ (inv_shared _ Hinv) _ _ _ Hd) as [Hb Hlen].
  unfold scan_step in Hstep.
  destruct (decide (length wk = WAKERS_CAP)) as [Hfull|Hfull].
  - rewrite wake_turn_full in Hstep by done. apply (inj Some) in Hstep as <-.
    apply inv_scan_leave; auto.
  - assert (length wk < WAKERS_CAP)%nat as Hlt by lia.
    destruct (linked (snd (pl_cview c))) as [|x xs] eqn:Hl.
    + rewrite wake_turn_end in Hstep by done. apply (inj Some) in Hstep as <-.
      apply inv_scan_leave; auto.
    + destruct (decide (Ready_satisfies e (waiter_interest x) = true)) as [Hs|Hs].
      * destruct (wake_turn_satisfied e c wk x xs Hlt Hl Hs) as (c' & Ht & Hc').
        rewrite Ht in Hstep. apply (inj Some) in Hstep as <-. by eapply inv_scan_pop.
      * rewrite (wake_turn_unsatisfied e c wk x xs) in Hstep by done.
        apply (inj Some) in Hstep as <-. rewrite <- Hd. by destruct s.
Qed.

(** *** Waking *)

Lemma inv_wake_step s e wk again :
  io_inv s → io_driver s = DWake e wk again → io_inv (wake_step e wk again s).
Proof.
  intros [Hsh Hus] Hd. destruct wk as [|t wk]; cbn.
  - set (drv := if again then DRelock e else DTurn).
    assert (view (with_driver drv s) = view s) as Hv.
    { unfold view, list_of. cbn. rewrite Hd. by destruct again. }
    split.
    + apply (shared_ok_driver s); try done; try apply Hsh; cbn.
      * intros e' He'. apply (sh_event _ Hsh). rewrite Hd. by destruct again.
      * rewrite (sh_lock _ Hsh), Hd. by destruct again.
      * intros d. rewrite Hd. by destruct again.
      * by destruct again.
    + intros u. apply (user_ok_driver s); try done; try apply Hus; intros d; cbn; rewrite Hd;
        by destruct again.
  - destruct Hsh as [S1 S2 S3 S4 S5 S6 S7 S8]. rewrite Hd in *.
    set (s' := with_driver _ _).
    assert (view s' = view s) as Hv by (unfold view, list_of; by rewrite Hd).
    split; [split; try done|]; cbn.
    + by rewrite Hv.
    + intros u. destruct (Hus u) as [H1 H2 H3 H4 H5 H6]. split; try done.
      * intros ev Hev Hr. destruct (H4 ev Hev Hr) as [[?|?]|?]; [by left; left| |by right].
        by rewrite Hd in *.
      * intros d Hu. specialize (H5 d Hu). rewrite Hd in H5. unfold slot_ok in *. cbn.
        destruct (u_pc _); try done. intros [Hx Hne%bool_decide_eq_false]%orb_false_elim.
        destruct (H5 Hx) as [?|[?|?]%elem_of_cons]; [by left|done|by right].
      * intros n Hu. specialize (H6 n Hu). rewrite Hd, Hv in *. unfold node_ok in *. cbn.
        destruct (u_pc _); try done. revert H6. apply listed_impl; [| |done].
        -- intros w Hw [Hx _]%orb_false_elim. auto.
        -- intros Hq [Hx Hne%bool_decide_eq_false]%orb_false_elim.
           specialize (Hq Hx). by apply elem_of_cons in Hq as [?|?].
Qed.

Lemma inv_driver_step s s' b :
  io_inv s → ~ tick_reused s → driver_step (I := I) b s = Some s' → io_inv s'.
Proof.
  intros Hinv Hfresh Hstep. unfold driver_step in Hstep.
  destruct (io_driver s) as [|e|e cur|e|e|e c wk|e wk again|e] eqn:Hd.
  - by eapply inv_turn_step.
  - apply (inj Some) in Hstep as <-. pose proof (inv_shared _ Hinv) as Hsh. split.
    + apply (shared_ok_driver s); try done; try apply Hsh; cbn.
      * unfold view, list_of. cbn. by rewrite Hd.
      * intros e' [= <-]. apply (sh_event _ Hsh). by rewrite Hd.
      * rewrite (sh_lock _ Hsh). by rewrite Hd.
      * intros d. by rewrite Hd.
    + intros u. apply (user_ok_driver s); try done; try apply Hinv; try (intros d; cbn; by rewrite Hd).
      unfold view, list_of. cbn. by rewrite Hd.
  - by eapply inv_store_step.
  - destruct (acquire TDriver s) as [s1|] eqn:Ha; [|done]. apply (inj Some) in Hstep as <-.
    apply (inv_driver_acquire s s1 e); rewrite ?Hd; auto.
  - by eapply inv_take_step.
  - by eapply inv_scan_step.
  - apply (inj Some) in Hstep as <-. by apply inv_wake_step.
  - destruct (acquire TDriver s) as [s1|] eqn:Ha; [|done]. apply (inj Some) in Hstep as <-.
    apply (inv_driver_acquire s s1 e); rewrite ?Hd; auto.
Qed.

Lemma inv_fresh_step s s' : io_inv s → fresh_step s s' → io_inv s'.
Proof using MioInterestLaws0 will_wake_sound PinListLaws0.
  intros Hinv [[[u b|u t|b|k] Hstep] Hfresh]; cbn in Hstep;
    eauto using inv_user_step, inv_poll_step, inv_driver_step, inv_kernel_step.
Qed.

Lemma inv_fresh_steps s : rtc fresh_step io_init s → io_inv s.
Proof using MioInterestLaws0 will_wake_sound PinListLaws0.
  intros Hrun. remember io_init as s0 eqn:E. pose proof io_init_inv as Hinit. rewrite <- E in Hinit.
  clear E. induction Hrun; eauto using inv_fresh_step.
Qed.

(** ** No readiness is lost *)

(** The driver has an event for [d] in its hands, or the waker of task [t]. *)
Definition delivering (d : Direction) (t : nat) (drv : driver_pc C) : Prop :=
  storing d drv ∨ scanning d drv ∨ t ∈ driver_wakers drv.

Lemma taking_scanning d (drv : driver_pc C) : taking d drv → scanning d drv.
Proof. by destruct drv. Qed.

Lemma inv_asleep s u :
  io_inv s → u_pc (io_users s u) = UAsleep → u_woken (io_users s u) = false →
  io_ready s (user_dir dir u) = true →
  has (user_dir dir u) (io_pending s) = true ∨
  delivering (user_dir dir u) (u_task (io_users s u)) (io_driver s).
Proof.
  intros Hinv Hpc Hw Hr. pose proof (inv_users _ Hinv u) as Hu. unfold delivering.
  destruct (sh_ready _ (inv_shared _ Hinv) _ Hr) as [[?|?]|Hf]; [by left|by right; left|right; right].
  destruct u as [d|n|n]; [| |by pose proof (uo_kind _ _ _ Hu) as Hk; rewrite Hpc in Hk].
  - pose proof (uo_slot _ _ _ Hu d eq_refl) as Hs. unfold slot_ok in Hs. rewrite Hpc in Hs.
    destruct (Hs Hw) as [[_ Ht]|?]; [left|by right]. by apply taking_scanning, Ht.
  - pose proof (uo_node _ _ _ Hu n eq_refl) as Hn. unfold node_ok in Hn. rewrite Hpc in Hn.
    destruct Hn as [(w & _ & _ & Hs)|(_ & _ & Hq)]; [left|right]; auto.
Qed.

(** C2: However the steps of the driver, of any number of users and of the kernel
    interleave: as long as the driver does not store a tick with which a user is
    clearing at that moment, a task that sleeps on a resource that became ready
    has been woken, or the event is still to be fetched from the kernel, or the
    driver is on its way to wake the task.  The optimistic load, the load under
    the lock, the order of storing flags and taking wakers, and the ticks
    together make sure of that. *)
Theorem io_no_lost_readiness s u :
  rtc fresh_step io_init s → u_pc (io_users s u) = UAsleep →
  io_ready s (user_dir dir u) = true →
  u_woken (io_users s u) = true ∨
  has (user_dir dir u) (io_pending s) = true ∨
  delivering (user_dir dir u) (u_task (io_users s u)) (io_driver s).
Proof using MioInterestLaws0 will_wake_sound PinListLaws0.
  intros Hrun Hpc Hr. destruct (u_woken (io_users s u)) eqn:Hw; [by left|right].
  apply inv_asleep; [by apply inv_fresh_steps|done..].
Qed.

(** A step is there, or the lock is not. *)
Lemma acquire_or_wait t s (k : io L C → io L C) :
  is_Some (io_lock s) ∨ is_Some (k <$> acquire t s).
Proof. unfold acquire. destruct (io_lock s); eauto. Qed.

Lemma user_enabled s u b :
  io_inv s → u_pc (io_users s u) ≠ UIdle → u_pc (io_users s u) ≠ UAsleep →
  ((u_pc (io_users s u) = UWantLock ∨ u_pc (io_users s u) = UWantRelock) ∧ is_Some (io_lock s)) ∨
  is_Some (user_step (I := I) will_wake dir u b s).
Proof.
  intros Hinv Hidle Hasleep. pose proof (inv_users _ Hinv u) as Hu.
  pose proof (uo_kind _ _ _ Hu) as Hk. unfold user_step.
  destruct (u_pc (io_users s u)) as [| | | | | | | | | |ev|ev|ev cur] eqn:Hpc;
    [done|destruct u; try done..| | |];
    unfold poll_readiness_step, readiness_step, try_io_step; rewrite ?Hpc; eauto;
    try (destruct (acquire_or_wait (TUser (PollIo d)) s (with_pc (PollIo d) UStore)); by eauto).
  - destruct (acquire_or_wait (TUser (AsyncIo n)) s (with_pc (AsyncIo n) ULoadLocked)); eauto.
  - destruct (acquire_or_wait (TUser (AsyncIo n)) s (with_pc (AsyncIo n) URecheck)); eauto.
  - right. destruct (recheck_cases s n Hinv Hpc) as [Hin|[Hout Hr]].
    + rewrite pl_initialized_view, bool_decide_true, pl_protected_view by by left.
      destruct (view_find_linked _ _ Hin) as [y ->]. cbn. eauto.
    + rewrite pl_initialized_view, bool_decide_true, pl_protected_view by by right.
      rewrite view_find_none by done. cbn.
      destruct (pl_take_removed_some _ _ Hr Hout) as (l' & -> & _). cbn. eauto.
  - right. destruct (uo_event _ _ _ Hu ev) as [m0 Em]; [by rewrite Hpc|]. unfold clear_step.
    rewrite set_readiness_attempt_spec by (auto with arc; rewrite Em; apply word_tick_range).
    case_bool_decide; [case_bool_decide|]; eauto.
Qed.

Lemma driver_enabled s :
  io_inv s →
  ((∃ e, io_driver s = DLock e ∨ io_driver s = DRelock e) ∧ is_Some (io_lock s)) ∨
  is_Some (driver_step (I := I) false s).
Proof.
  intros Hinv. pose proof (inv_shared _ Hinv) as Hsh. unfold driver_step.
  destruct (io_driver s) as [|e|e cur|e|e|e c wk|e wk again|e] eqn:Hd; eauto.
  all: pose proof (sh_event _ Hsh e ltac:(by rewrite Hd)) as He.
  - right. unfold store_step. pose proof (sh_tick _ Hsh).
    rewrite set_readiness_attempt_spec by auto with arc. case_bool_decide; eauto.
  - destruct (acquire_or_wait TDriver s (with_driver (DTake e))); eauto.
  - right. unfold take_step. destruct (take_slots e s He) as [-> _]. eauto.
  - right. destruct (sh_scan _ Hsh _ _ _ Hd) as [_ Hlen]. unfold scan_step.
    destruct (decide (length wk = WAKERS_CAP)) as [Hfull|Hfull];
      [by rewrite wake_turn_full by done; eauto|].
    destruct (linked (snd (pl_cview c))) as [|x xs] eqn:Hl;
      [rewrite wake_turn_end by (done || lia); eauto|].
    destruct (decide (Ready_satisfies e (waiter_interest x) = true)) as [Hs|Hs].
    + destruct (wake_turn_satisfied e c wk x xs) as (c' & -> & _); [lia|done..|]. eauto.
    + rewrite (wake_turn_unsatisfied e c wk x xs) by (done || lia). eauto.
  - destruct (acquire_or_wait TDriver s
      (with_driver (DScan e (pl_cursor_front_mut (wt_list (waiters s))) []))); eauto.
Qed.

(** *** The lock is given back *)

Lemma user_releases s u :
  io_inv s → io_lock s = Some (TUser u) →
  ∃ s', rtc (uses (I := I) will_wake dir u) s s' ∧ io_lock s' = None.
Proof.
  intros Hinv Hl. pose proof (inv_users _ Hinv u) as Hu.
  pose proof (proj1 (uo_lock _ _ _ Hu) Hl) as Hlk. pose proof (uo_kind _ _ _ Hu) as Hk.
  destruct (u_pc (io_users s u)) eqn:Hpc; try done; destruct u as [d|n|n]; try done.
  - eexists. split; [eapply rtc_l; [|apply rtc_once]; exists false;
      unfold user_step, poll_readiness_step; rewrite ?with_pc_at, ?Hpc; done|done].
  - eexists. split; [eapply rtc_once; exists false; unfold user_step, poll_readiness_step;
      rewrite Hpc; done|done].
  - destruct (not_ready (locked_event dir (AsyncIo n) (word s))) eqn:Hn.
    + eexists. split; [eapply rtc_l; [|apply rtc_once]; exists false;
        unfold user_step, readiness_step; rewrite ?with_pc_at, ?Hpc, ?Hn; done|done].
    + eexists. split; [eapply rtc_once; exists false; unfold user_step, readiness_step;
        rewrite Hpc, Hn; done|done].
  - eexists. split; [eapply rtc_once; exists false; unfold user_step, readiness_step;
      rewrite Hpc; done|done].
  - destruct (user_enabled s (AsyncIo n) false Hinv) as [[[?|?] _]|[s' Hs]]; [by rewrite Hpc|by rewrite Hpc|congruence..|].
    exists s'. split; [apply rtc_once; by exists false|]. revert Hs.
    unfold user_step, readiness_step. rewrite Hpc. destruct (pl_initialized _ _); [|by intros [= <-]].
    destruct (pl_protected _ _); [by intros [= <-]|].
    destruct (pl_take_removed _ _); cbn; [by intros [= <-]|done].
Qed.

(** Everybody in the list is interested in the event that the driver delivers. *)
Definition scan_interested s : Prop :=
  ∀ e (x : waiter nat I), driver_event (io_driver s) = Some e → x ∈ linked (view s) → satisfied e x.

Lemma scan_releases s e c wk :
  io_inv s → io_driver s = DScan e c wk → scan_interested s →
  ∃ s', rtc (driver_moves (I := I)) s s' ∧ io_lock s' = None.
Proof.
  remember (WAKERS_CAP - length wk)%nat as k eqn:Hk. revert s c wk Hk.
  induction k as [k IH] using lt_wf_ind; intros s c wk -> Hinv Hd Hint.
  destruct (sh_scan _ (inv_shared _ Hinv) _ _ _ Hd) as [Hb Hlen].
  assert (driver_step (I := I) false s = scan_step e c wk s) as Hst by (unfold driver_step; by rewrite Hd).
  assert (view s = snd (pl_cview c)) as Hv.
  { unfold view, list_of. rewrite Hd, pl_cursor_end_view, Hb. by destruct (snd (pl_cview c)). }
  unfold scan_step in Hst. destruct (decide (length wk = WAKERS_CAP)) as [Hfull|Hfull].
  { rewrite wake_turn_full in Hst by done.
    eexists. split; [apply rtc_once; exists false; exact Hst|done]. }
  destruct (linked (snd (pl_cview c))) as [|x xs] eqn:Hlk.
  { rewrite wake_turn_end in Hst by (done || lia).
    eexists. split; [apply rtc_once; exists false; exact Hst|done]. }
  assert (satisfied e x) as Hs.
  { apply Hint; [by rewrite Hd|rewrite Hv, Hlk; by left]. }
  destruct (wake_turn_satisfied e c wk x xs) as (c' & Hw & Hc'); [lia|done..|].
  rewrite Hw in Hst. set (s1 := with_driver _ _) in Hst.
  assert (linked (view s1) = xs) as Hv'.
  { unfold view, list_of. cbn. by rewrite pl_cursor_end_view, Hc', Hb. }
  destruct (IH (WAKERS_CAP - length (wk ++ [waiter_waker x]))%nat) with (s := s1) (c := c')
    (wk := wk ++ [waiter_waker x]) as (s' & Hrun & Hl'); [|done| |done| |].
  - rewrite length_app. cbn [length]. lia.
  - apply (inv_driver_step s s1 false); [done| |exact Hst].
    intros (e' & cur & u & ev & Hc & _). congruence.
  - intros e' y He' Hy. rewrite Hv' in Hy. apply Hint; [|rewrite Hv, Hlk; by right].
    rewrite Hd. exact He'.
  - exists s'. split; [|done]. eapply rtc_l; [|exact Hrun]. by exists false.
Qed.

Lemma driver_releases s :
  io_inv s → io_lock s = Some TDriver → scan_interested s →
  ∃ s', rtc (driver_moves (I := I)) s s' ∧ io_lock s' = None.
Proof.
  intros Hinv Hl Hint. pose proof (inv_shared _ Hinv) as Hsh.
  pose proof (proj1 (sh_lock _ Hsh) Hl) as Hlk.
  destruct (io_driver s) as [|e|e cur|e|e|e c wk|e wk again|e] eqn:Hd; try done.
  2: by eapply scan_releases.
  pose proof (sh_event _ Hsh e ltac:(by rewrite Hd)) as He.
  assert (driver_step (I := I) false s = take_step e s) as Hst by (unfold driver_step; by rewrite Hd).
  unfold take_step in Hst. destruct (take_slots e s He) as [Htake _]. rewrite Htake in Hst.
  set (s1 := with_driver _ _) in Hst.
  assert (view s1 = view s) as Hv by (unfold view, list_of; rewrite Hd; apply view_front).
  destruct (scan_releases s1 e (pl_cursor_front_mut (wt_list (waiters s))) (slot_wakers e (waiters s)))
    as (s' & Hrun & Hl').
  - apply (inv_driver_step s s1 false); [done| |exact Hst].
    intros (e' & cur & u & ev & Hc & _). congruence.
  - done.
  - intros e' x He' Hx. rewrite Hv in Hx. apply Hint; [|done]. rewrite Hd. exact He'.
  - exists s'. split; [|done]. eapply rtc_l; [|exact Hrun]. by exists false.
Qed.

(** C21: The lock of the waiters is always given back, so nobody waits for it in
    vain, and nothing panics.  In every state that the system reaches without
    reusing a tick ([fresh_step]): a user that holds the lock gives it back by its
    own next steps; so does the driver, if everybody in the list is interested in
    the event that it delivers (otherwise it keeps the lock for ever, see
    [wake_livelock]); and while the lock is free the driver and every user in the
    middle of an operation have a next step. *)
Theorem io_lock_given_back s :
  rtc fresh_step io_init s →
  (∀ u, io_lock s = Some (TUser u) →
     ∃ s', rtc (uses (I := I) will_wake dir u) s s' ∧ io_lock s' = None) ∧
  (io_lock s = Some TDriver → scan_interested s →
     ∃ s', rtc (driver_moves (I := I)) s s' ∧ io_lock s' = None) ∧
  (io_lock s = None →
     is_Some (driver_step (I := I) false s) ∧
     ∀ u b, u_pc (io_users s u) ≠ UIdle → u_pc (io_users s u) ≠ UAsleep →
       is_Some (user_step (I := I) will_wake dir u b s)).
Proof using MioInterestLaws0 will_wake_sound PinListLaws0.
  intros Hinv%inv_fresh_steps. split_and!.
  - intros u. by apply user_releases.
  - by apply driver_releases.
  - intros Hfree. split.
    + destruct (driver_enabled s Hinv) as [[_ [t Ht]]|?]; [congruence|done].
    + intros u b Hi Ha. destruct (user_enabled s u b Hinv Hi Ha) as [[_ [t Ht]]|?]; [congruence|done].
Qed.

(** ** The driver delivers *)

(** Everybody in the list is interested in what the driver brings. *)
Definition interested s : Prop :=
  ∀ (x : waiter nat I) e, x ∈ linked (view s) →
    driver_event (io_driver s) = Some e ∨ (e = io_pending s ∧ Ready_is_empty e = false) →
    Ready_satisfies e (waiter_interest x) = true.

(** No user is clearing with a tick that the driver is about to store. *)
Definition ticks_ahead s : Prop :=
  ∀ u ev, clearing (u_pc (io_users s u)) = Some ev →
    ev_tick ev ≠ io_tick s ∧
    (Ready_is_empty (io_pending s) = false → ev_tick ev ≠ u8_wrapping_add (io_tick s) 1).

(** The steps that the driver has left. *)
Definition driver_left s : nat :=
  let n := length (linked (view s)) in
  (if Ready_is_empty (io_pending s) then 0 else 4 * n + 20) +
  match io_driver s with
  | DTurn => 0
  | DLoad _ => 4 * n + 12
  | DCas _ cur => 4 * n + 10 + (if bool_decide (word s = cur) then 0 else 1)
  | DLock _ => 4 * n + 9
  | DTake _ => 4 * n + 8
  | DScan _ _ wk => 4 * n + 2 * length wk + 3
  | DWake _ wk again => 4 * n + length wk + (if again then 5 else 2)
  | DRelock _ => 4 * n + 4
  end%nat.

Lemma ticks_ahead_fresh s : ticks_ahead s → ~ tick_reused s.
Proof. intros Ht (e & cur & u & ev & _ & Hc & He). by destruct (Ht u ev Hc). Qed.

(** What the driver needs for its next step, and what it does for [u]. *)
Record on_duty s : Prop := {
  od_inv : io_inv s;
  od_lock u : io_lock s ≠ Some (TUser u);
  od_interested : interested s;
  od_ticks : ticks_ahead s;
}.

(** A step of the driver other than fetching leaves the kernel, the tick and the
    places of the users as they are, and the list does not grow. *)
Lemma on_duty_step s s' b :
  on_duty s → driver_step (I := I) b s = Some s' →
  (∀ u, io_lock s' = Some (TUser u) → io_lock s = Some (TUser u)) →
  linked (view s') ⊆ linked (view s) →
  io_tick s' = io_tick s → io_pending s' = io_pending s →
  (∀ u, u_pc (io_users s' u) = u_pc (io_users s u)) →
  (driver_event (io_driver s') = None ∨ driver_event (io_driver s') = driver_event (io_driver s)) →
  on_duty s'.
Proof.
  intros [Hinv Hl Hint Ht] Hstep Hlock Hsub Htick Hp Hu He. split.
  - eapply inv_driver_step; eauto using ticks_ahead_fresh.
  - intros u Hx. by apply Hlock, Hl in Hx.
  - intros x e Hx Hcase. apply Hint; [by apply Hsub|]. rewrite Hp in Hcase.
    destruct Hcase as [Hcase|?]; [|by right]. left. destruct He; congruence.
  - intros u ev. rewrite Hu, Htick, Hp. apply Ht.
Qed.

(** A step forward: nothing is asked of the users, and less is left to do. *)
Definition progress s s' : Prop :=
  on_duty s' ∧ io_ready s' = io_ready s ∧ (driver_left s' < driver_left s)%nat ∧
  ∀ u, u_pc (io_users s' u) = u_pc (io_users s u) ∧ u_task (io_users s' u) = u_task (io_users s u).

Lemma driver_fetches s :
  on_duty s → io_driver s = DTurn → Ready_is_empty (io_pending s) = false →
  ∃ s', driver_step (I := I) true s = Some s' ∧ progress s s'.
Proof.
  intros Hod Hd Hp. pose proof Hod as [Hinv Hl Hint Ht]. unfold driver_step. rewrite Hd.
  unfold turn_step. cbn [io_pending with_tick]. rewrite Hp. eexists. split; [done|].
  set (s' := with_driver _ _).
  assert (view s' = view s) as Hv by (unfold view, list_of; by rewrite Hd).
  split_and!; [split| | |]; try done.
  - apply (inv_driver_step s _ true); [done|by apply ticks_ahead_fresh|].
    unfold driver_step, turn_step. rewrite Hd. cbn [io_pending with_tick]. by rewrite Hp.
  - intros x e Hx Hcase. rewrite Hv in Hx. apply Hint; [done|right]. cbn in Hcase.
    destruct Hcase as [[= <-]|[-> ?]]; done.
  - intros u ev Hev. destruct (Ht u ev Hev) as [_ Hn]. split; [by apply Hn|done].
  - unfold driver_left. rewrite Hv, Hd, Hp. change (Ready_is_empty (io_pending s')) with true. cbn. lia.
Qed.

Lemma driver_stores s e cur :
  on_duty s → io_driver s = DCas e cur →
  ∃ s', driver_step (I := I) false s = Some s' ∧ progress s s'.
Proof.
  intros Hod Hd. pose proof Hod as [Hinv Hl Hint Ht].
  pose proof (inv_shared _ Hinv) as Hsh. pose proof (sh_tick _ Hsh).
  pose proof (sh_event _ Hsh e ltac:(by rewrite Hd)) as He.
  assert (driver_step (I := I) false s = store_step e cur s) as Hst by (unfold driver_step; by rewrite Hd).
  unfold store_step in Hst. rewrite set_readiness_attempt_spec in Hst by auto with arc.
  case_bool_decide as Hw; eexists; (split; [done|]); set (s' := with_driver _ _) in *;
    assert (view s' = view s) as Hv by (unfold view, list_of; by rewrite Hd);
    (split_and!; [apply (on_duty_step s s' false); rewrite ?Hv, ?Hd; by auto|done| |done]);
    unfold driver_left; rewrite Hv, Hd; cbn; [rewrite bool_decide_true by done|];
    [lia|rewrite bool_decide_true, bool_decide_false by done; lia].
Qed.

Lemma driver_scans s e c wk :
  on_duty s → io_driver s = DScan e c wk →
  ∃ s', driver_step (I := I) false s = Some s' ∧ progress s s'.
Proof.
  intros Hod Hd. pose proof Hod as [Hinv Hl Hint Ht]. pose proof (inv_shared _ Hinv) as Hsh.
  destruct (sh_scan _ Hsh _ _ _ Hd) as [Hb Hlen].
  assert (driver_step (I := I) false s = scan_step e c wk s) as Hst by (unfold driver_step; by rewrite Hd).
  assert (view s = snd (pl_cview c)) as Hv.
  { unfold view, list_of. rewrite Hd, pl_cursor_end_view, Hb. by destruct (snd (pl_cview c)). }
  unfold scan_step in Hst. destruct (decide (length wk = WAKERS_CAP)) as [Hfull|Hfull].
  - rewrite wake_turn_full in Hst by done. eexists; (split; [done|]). set (s' := with_driver _ _) in *.
    assert (view s' = view s) as Hv' by (unfold view, list_of; by rewrite Hd).
    split_and!; [apply (on_duty_step s s' false); rewrite ?Hv', ?Hd; by auto|done| |done].
    unfold driver_left. rewrite Hv', Hd. cbn. rewrite Hfull. unfold WAKERS_CAP. lia.
  - destruct (linked (snd (pl_cview c))) as [|x xs] eqn:Hlk.
    + rewrite wake_turn_end in Hst by (done || lia). eexists; (split; [done|]).
      set (s' := with_driver _ _) in *.
      assert (view s' = view s) as Hv' by (unfold view, list_of; by rewrite Hd).
      split_and!; [apply (on_duty_step s s' false); rewrite ?Hv', ?Hd; by auto|done| |done].
      unfold driver_left. rewrite Hv', Hd. cbn. lia.
    + assert (satisfied e x) as Hs.
      { apply Hint; [rewrite Hv, Hlk; by left|left; by rewrite Hd]. }
      destruct (wake_turn_satisfied e c wk x xs) as (c' & Hw & Hc'); [lia|done..|].
      rewrite Hw in Hst. eexists; (split; [done|]). set (s' := with_driver _ _) in *.
      assert (linked (view s') = xs) as Hv'.
      { unfold view, list_of. cbn. by rewrite pl_cursor_end_view, Hc', Hb. }
      split_and!; [apply (on_duty_step s s' false); rewrite ?Hv', ?Hd; auto|done| |done].
      * intros y Hy. rewrite Hv, Hlk. by right.
      * unfold driver_left. rewrite Hv', Hv, Hlk, Hd. cbn. rewrite length_app. cbn.
        destruct (Ready_is_empty (io_pending s)); lia.
Qed.

Lemma unlocked s : on_duty s → driver_locks (io_driver s) = false → io_lock s = None.
Proof.
  intros Hod Hd. destruct (io_lock s) as [[|u]|] eqn:Hl; [| |done].
  - apply (sh_lock _ (inv_shared _ (od_inv _ Hod))) in Hl. congruence.
  - by destruct (od_lock _ Hod u).
Qed.

Lemma driver_locks_on s :
  on_duty s → (∃ e, io_driver s = DLock e ∨ io_driver s = DRelock e) →
  ∃ s', driver_step (I := I) false s = Some s' ∧ progress s s'.
Proof.
  intros Hod (e & Hd).
  pose proof (unlocked s Hod ltac:(by destruct Hd as [->| ->])) as Hl.
  destruct Hd as [Hd|Hd].
  - assert (driver_step (I := I) false s =
      Some (with_driver (DTake e) (with_lock (Some TDriver) s))) as Hst
      by (unfold driver_step, acquire; by rewrite Hd, Hl).
    eexists. split; [done|]. set (s' := with_driver _ _) in *.
    assert (view s' = view s) as Hv by (unfold view, list_of; by rewrite Hd).
    split_and!; [apply (on_duty_step s s' false); rewrite ?Hv, ?Hd; by auto|done| |done].
    unfold driver_left. rewrite Hv, Hd. cbn. lia.
  - assert (driver_step (I := I) false s =
      Some (with_driver (DScan e (pl_cursor_front_mut (wt_list (waiters s))) [])
        (with_lock (Some TDriver) s))) as Hst
      by (unfold driver_step, acquire; by rewrite Hd, Hl).
    eexists. split; [done|]. set (s' := with_driver _ _) in *.
    assert (view s' = view s) as Hv by (unfold view, list_of; rewrite Hd; apply view_front).
    split_and!; [apply (on_duty_step s s' false); rewrite ?Hv, ?Hd; by auto|done| |done].
    unfold driver_left. rewrite Hv, Hd. cbn. lia.
Qed.

Lemma driver_takes s e :
  on_duty s → io_driver s = DTake e →
  ∃ s', driver_step (I := I) false s = Some s' ∧ progress s s'.
Proof.
  intros Hod Hd. pose proof (inv_shared _ (od_inv _ Hod)) as Hsh.
  pose proof (sh_event _ Hsh e ltac:(by rewrite Hd)) as He.
  assert (driver_step (I := I) false s = take_step e s) as Hst by (unfold driver_step; by rewrite Hd).
  unfold take_step in Hst. destruct (take_slots e s He) as [Htake _]. rewrite Htake in Hst.
  eexists. split; [done|]. set (s' := with_driver _ _) in *.
  assert (view s' = view s) as Hv by (unfold view, list_of; rewrite Hd; apply view_front).
  split_and!; [apply (on_duty_step s s' false); rewrite ?Hv, ?Hd; by auto|done| |done].
  pose proof (slot_wakers_len e (waiters s)). unfold driver_left. rewrite Hv, Hd. cbn. lia.
Qed.

Lemma driver_wakes s e wk again :
  on_duty s → io_driver s = DWake e wk again →
  ∃ s', driver_step (I := I) false s = Some s' ∧ progress s s'.
Proof.
  intros Hod Hd.
  assert (driver_step (I := I) false s = Some (wake_step e wk again s)) as Hst
    by (unfold driver_step; by rewrite Hd).
  eexists. split; [done|]. destruct wk as [|t wk]; cbn [wake_step] in *; set (s' := with_driver _ _) in *.
  - assert (view s' = view s) as Hv by (unfold view, list_of; rewrite Hd; by destruct again).
    split_and!; [apply (on_duty_step s s' false); rewrite ?Hv, ?Hd; auto; by destruct again; auto
                |done| |done].
    unfold driver_left. rewrite Hv, Hd. cbn. destruct again; lia.
  - assert (view s' = view s) as Hv by (unfold view, list_of; by rewrite Hd).
    split_and!; [apply (on_duty_step s s' false); rewrite ?Hv, ?Hd; by auto|done| |done].
    unfold driver_left. rewrite Hv, Hd. cbn. lia.
Qed.

Lemma driver_progress s :
  on_duty s → io_driver s ≠ DTurn ∨ Ready_is_empty (io_pending s) = false →
  ∃ b s', driver_step (I := I) b s = Some s' ∧ progress s s'.
Proof.
  intros Hod Hor. destruct (io_driver s) as [|e|e cur|e|e|e c wk|e wk again|e] eqn:Hd.
  - exists true. apply driver_fetches; [done..|]. by destruct Hor.
  - assert (driver_step (I := I) false s = Some (with_driver (DCas e (word s)) s)) as Hst
      by (unfold driver_step; by rewrite Hd).
    exists false. eexists. split; [done|]. set (s' := with_driver _ _) in *.
    assert (view s' = view s) as Hv by (unfold view, list_of; by rewrite Hd).
    split_and!; [apply (on_duty_step s s' false); rewrite ?Hv, ?Hd; by auto|done| |done].
    unfold driver_left. rewrite Hv, Hd. cbn. rewrite bool_decide_true by done. lia.
  - exists false. by eapply driver_stores.
  - exists false. apply driver_locks_on; eauto.
  - exists false. by eapply driver_takes.
  - exists false. by eapply driver_scans.
  - exists false. by eapply driver_wakes.
  - exists false. apply driver_locks_on; eauto.
Qed.

Lemma driver_wakes_asleep s u :
  on_duty s → u_pc (io_users s u) = UAsleep → io_ready s (user_dir dir u) = true →
  ∃ s', rtc (driver_moves (I := I)) s s' ∧ u_woken (io_users s' u) = true.
Proof.
  remember (driver_left s) as k eqn:Hk. revert s Hk.
  induction k as [k IH] using lt_wf_ind; intros s -> Hod Hpc Hr.
  destruct (u_woken (io_users s u)) eqn:Hw; [by exists s|].
  destruct (driver_progress s Hod) as (b & s1 & Hst & Hod1 & Hr1 & Hlt & Hu).
  { destruct (inv_asleep s u (od_inv _ Hod) Hpc Hw Hr) as [Hp|Hd];
      [right; by eapply has_nonempty|left].
    intros Hturn. rewrite Hturn in Hd. destruct Hd as [[]|[[]|[]%not_elem_of_nil]]. }
  destruct (Hu u) as [Hpc1 _].
  destruct (IH _ Hlt s1 eq_refl Hod1) as (s2 & Hrun & Hw2); [by rewrite Hpc1|by rewrite Hr1|].
  exists s2. split; [|done]. eapply rtc_l; [|done]. by exists b.
Qed.

(** C3: A task that sleeps on a resource that is ready is woken by the driver's
    next steps alone, whatever state the other users are in: it is enough that
    no user is inside the critical section, that everybody in the list of
    waiters is interested in the event (see [wake_livelock] for what happens
    otherwise), and that nobody is clearing with one of the ticks that the
    driver will store. *)
Theorem io_driver_wakes s u :
  rtc fresh_step io_init s →
  (∀ v, io_lock s ≠ Some (TUser v)) → interested s → ticks_ahead s →
  u_pc (io_users s u) = UAsleep → io_ready s (user_dir dir u) = true →
  ∃ s', rtc (driver_moves (I := I)) s s' ∧ u_woken (io_users s' u) = true.
Proof using MioInterestLaws0 will_wake_sound PinListLaws0.
  intros Hrun Hl Hint Ht. apply driver_wakes_asleep. split; [by apply inv_fresh_steps|done..].
Qed.
End io.

(** ** Examples *)

Module IoRef.
Import MioRef PinListRef.

Local Abbreviation rlist := (pin_view nat interest).
Local Abbreviation rcursor := (list (waiter nat interest) * pin_view nat interest)%type.
Local Abbreviation sys := (io rlist rcursor).

(** Futures 0 to 9 read, the others write. *)
Definition dir (n : nat) : Direction := if decide (n < 10)%nat then Read else Write_.

Definition exec : io_label → sys → option sys := io_exec (I := interest) Nat.eqb dir.

Definition run (ls : list io_label) (s : sys) : option sys :=
  foldl (λ o l, s ← o; exec l s) (Some s) ls.

(** A run in which the driver never stands before its exchange. *)
Fixpoint run_parked (ls : list io_label) (s : sys) : option sys :=
  match ls with
  | [] => Some s
  | l :: ls =>
      match io_driver s with
      | DCas _ _ => None
      | _ => s' ← exec l s; run_parked ls s'
      end
  end.

Lemma run_app l ls s : run (l :: ls) s = (s' ← exec l s; run ls s').
Proof.
  unfold run. cbn. destruct (exec l s) as [s'|]; [done|]. cbn. induction ls; cbn; auto.
Qed.

Lemma run_steps ls : ∀ s s', run ls s = Some s' → rtc (io_step (I := interest) Nat.eqb dir) s s'.
Proof.
  induction ls as [|l ls IH]; intros s s' Hrun; [by injection Hrun as <-|].
  rewrite run_app in Hrun. destruct (exec l s) as [s1|] eqn:Hl; [|done].
  eapply rtc_l; [by exists l|]. by apply IH.
Qed.

Lemma run_parked_steps ls : ∀ s s', run_parked ls s = Some s' →
  rtc (fresh_step (I := interest) Nat.eqb dir) s s'.
Proof.
  induction ls as [|l ls IH]; intros s s' Hrun; [by injection Hrun as <-|]. cbn in Hrun.
  destruct (exec l s) as [s1|] eqn:Hl.
  - eapply rtc_l; [split; [by exists l|]|apply IH; by destruct (io_driver s)].
    intros (e & cur & u & ev & Hd & _). by rewrite Hd in Hrun.
  - by destruct (io_driver s).
Qed.

Lemma eqb_sound (a b : nat) : Nat.eqb a b = true → a = b.
Proof. apply Nat.eqb_eq. Qed.

(** Task 7 polls for reading, finds nothing and sleeps; then data arrives. *)
Definition sleeping : list io_label :=
  LPoll (PollIo Read) 7 :: replicate 4 (LUser (PollIo Read) false) ++
  [LKernel (KArrive Ready_READABLE)].

Definition asleep : sys := default io_init (run_parked sleeping io_init).

Lemma asleep_reached : rtc (fresh_step (I := interest) Nat.eqb dir) io_init asleep.
Proof. apply (run_parked_steps sleeping). vm_compute. reflexivity. Qed.

Lemma io_no_lost_readiness_witness :
  u_woken (io_users asleep (PollIo Read)) = true ∨
  has Read (io_pending asleep) = true ∨
  delivering Read (u_task (io_users asleep (PollIo Read))) (io_driver asleep).
Proof.
  apply (io_no_lost_readiness Nat.eqb dir eqb_sound asleep (PollIo Read) asleep_reached);
    vm_compute; reflexivity.
Defined.

(** Before task 7 sleeps it holds the lock and gives it back. *)
Definition storing : sys := default io_init (run_parked (take 3 sleeping) io_init).

Lemma storing_reached : rtc (fresh_step (I := interest) Nat.eqb dir) io_init storing.
Proof. apply (run_parked_steps (take 3 sleeping)). vm_compute. reflexivity. Qed.

Lemma io_lock_given_back_witness :
  ∃ s', rtc (uses (I := interest) Nat.eqb dir (PollIo Read)) storing s' ∧ io_lock s' = None.
Proof.
  destruct (io_lock_given_back Nat.eqb dir eqb_sound storing storing_reached) as [Hu _].
  apply Hu. vm_compute. reflexivity.
Defined.

Lemma io_driver_wakes_witness :
  ∃ s', rtc (driver_moves (I := interest)) asleep s' ∧ u_woken (io_users s' (PollIo Read)) = true.
Proof.
  apply (io_driver_wakes Nat.eqb dir eqb_sound asleep (PollIo Read) asleep_reached).
  - intros v. vm_compute. discriminate.
  - intros x e Hx. vm_compute in Hx. inversion Hx.
  - intros u ev. destruct u as [[]|n|n]; vm_compute; discriminate.
  - vm_compute. reflexivity.
  - vm_compute. reflexivity.
Defined.

(** Task 7 reads all data, and while it is about to clear the event of turn 1 the
    driver makes 256 turns; the last one, whose tick is 1 again, stores a new
    event. *)
Definition driver_event_run : list io_label := LDriver true :: replicate 6 (LDriver false).

Definition stale_clear : list io_label :=
  LKernel (KArrive Ready_READABLE) :: driver_event_run ++
  [LPoll (PollIo Read) 7; LUser (PollIo Read) false;
   LKernel (KDrain Read); LUser (PollIo Read) false] ++
  replicate 255 (LDriver false) ++
  LKernel (KArrive Ready_READABLE) :: driver_event_run ++
  replicate 6 (LUser (PollIo Read) false).

(** C22: The tick of an event has eight bits and wraps around.  If the driver makes
    256 turns while a user is between a call that would block and the clearing of
    its event, and the last of these turns brings a new event, then the user
    clears the new event: the system reaches a state in which data is there, the
    kernel has nothing more to report, the driver is idle, the word shows no
    readiness, and the task sleeps without having been woken. *)
Theorem tick_reuse_loses_event :
  ∃ s : sys, rtc (io_step (I := interest) Nat.eqb dir) io_init s ∧
    io_ready s Read = true ∧ io_pending s = Ready_EMPTY ∧ io_driver s = DTurn ∧
    Ready_is_empty (flags_for Read (word s)) = true ∧
    u_pc (io_users s (PollIo Read)) = UAsleep ∧ u_woken (io_users s (PollIo Read)) = false.
Proof.
  exists (default io_init (run stale_clear io_init)). split.
  - apply (run_steps stale_clear). vm_compute. reflexivity.
  - vm_compute. done.
Qed.
End IoRef.
