(* ===== verification/PollEvented.v ===== *)
(** * PollEvented: an I/O object with its registration
      (src/src/io/poll_evented.rs)

    [PollEvented] pairs an object of the operating system with its
    registration.  Reads and writes on the object are parameters, like the
    closures of [Registration]. *)

From Stdlib Require Import String.
From S2P Require Import Prelude Bits Ready PinList ScheduledIo IoDriver Registration.

Local Open Scope Z_scope.

(** ** Definitions *)

Section poll_evented.
Context {Q R K E Ev L C W I Po : Type}.
Context `{Mio Q R K E Ev I, PinListOps L C W I, MioInterest I, !Pool Po (ScheduledIo L W)}.

Record PollEvented : Type := mkPollEvented {
  pe_io : option E;
  pe_registration : Registration;
}.

Definition PollEvented_registration (self : PollEvented) : Registration := pe_registration self.

Definition PollEvented_new_with_interest_and_handle (io : E) (interest : I)
    (handle : Handle R K Po) : outcome (io_result PollEvented * Handle R K Po) :=
  '(r, io, handle) ← Registration_new_with_interest_and_handle io interest handle;
  mret (match r with
        | Ok registration => Ok (mkPollEvented (Some io) registration)
        | Err e => Err e
        end, handle).

(** The thread-local [HANDLE] is [None] outside of a runtime; [unwrap] panics. *)
Definition PollEvented_new_with_interest (io : E) (interest : I)
    (current : option (Handle R K Po)) : outcome (io_result PollEvented * Handle R K Po) :=
  handle ← unwrap current;
  PollEvented_new_with_interest_and_handle io interest handle.

Definition PollEvented_new (io : E) (current : option (Handle R K Po))
    : outcome (io_result PollEvented * Handle R K Po) :=
  PollEvented_new_with_interest io (interest_add INTEREST_READABLE INTEREST_WRITABLE) current.

(** [impl Deref]. *)
Definition PollEvented_deref (self : PollEvented) : outcome E := unwrap (pe_io self).

Section io.
(** One call of [read] or [write] on the object: the answer, the state of the
    outside world and the slab as the driver leaves it. *)
Context {X : Type} (call : E → X → Po → io_result Z * X * Po).

(** The body of the [loop] of [poll_read]. *)
Definition poll_read_turn (fuel : nat) (will_wake : W → W → bool) (self : PollEvented) (cx : W)
    (st : X * Po) : outcome (ctl (X * Po) (poll (io_result Z) * X * Po)) :=
  let '(x, slab) := st in
  '(p, slab) ← Registration_poll_read_ready will_wake (pe_registration self) cx slab;
  match p with
  | Pending => mret (Break (Pending, x, slab))
  | Ready_ (Err e) => mret (Break (Ready_ (Err e), x, slab))
  | Ready_ (Ok evt) =>
      io ← unwrap (pe_io self);
      let '(r, x, slab) := call io x slab in
      match r with
      | Ok n => mret (Break (Ready_ (Ok n), x, slab))
      | Err e =>
          if decide (err_kind e = WouldBlock) then
            slab ← Registration_clear_readiness fuel (pe_registration self) evt slab;
            mret (Continue (x, slab))
          else mret (Break (Ready_ (Err e), x, slab))
      end
  end.

Definition PollEvented_poll_read (fuel : nat) (will_wake : W → W → bool) (self : PollEvented)
    (cx : W) (x : X) (slab : Po) : outcome (poll (io_result Z) * X * Po) :=
  loop fuel (poll_read_turn fuel will_wake self cx) (x, slab).

(** The body of the [loop] of [poll_write]; [windows] stands for [cfg!(windows)]
    and [len] for [buf.len()]. *)
Definition poll_write_turn (fuel : nat) (will_wake : W → W → bool) (windows : bool) (len : Z)
    (self : PollEvented) (cx : W) (st : X * Po)
    : outcome (ctl (X * Po) (poll (io_result Z) * X * Po)) :=
  let '(x, slab) := st in
  '(p, slab) ← Registration_poll_write_ready will_wake (pe_registration self) cx slab;
  match p with
  | Pending => mret (Break (Pending, x, slab))
  | Ready_ (Err e) => mret (Break (Ready_ (Err e), x, slab))
  | Ready_ (Ok evt) =>
      io ← unwrap (pe_io self);
      let '(r, x, slab) := call io x slab in
      match r with
      | Ok n =>
          slab ← if bool_decide (0 < n) && (negb windows && bool_decide (n < len))
                 then Registration_clear_readiness fuel (pe_registration self) evt slab
                 else mret slab;
          mret (Break (Ready_ (Ok n), x, slab))
      | Err e =>
          if decide (err_kind e = WouldBlock) then
            slab ← Registration_clear_readiness fuel (pe_registration self) evt slab;
            mret (Continue (x, slab))
          else mret (Break (Ready_ (Err e), x, slab))
      end
  end.

Definition PollEvented_poll_write (fuel : nat) (will_wake : W → W → bool) (windows : bool) (len : Z)
    (self : PollEvented) (cx : W) (x : X) (slab : Po) : outcome (poll (io_result Z) * X * Po) :=
  loop fuel (poll_write_turn fuel will_wake windows len self cx) (x, slab).

(** [write_vectored] goes through [poll_write_io]; its closure unwraps [io], so
    without an object it panics once the resource is ready. *)
Definition PollEvented_poll_write_vectored (fuel : nat) (will_wake : W → W → bool)
    (self : PollEvented) (cx : W) (x : X) (slab : Po) : outcome (poll (io_result Z) * X * Po) :=
  match pe_io self with
  | Some io => Registration_poll_write_io (call io) fuel will_wake (pe_registration self) cx x slab
  | None =>
      '(p, slab) ← Registration_poll_write_ready will_wake (pe_registration self) cx slab;
      match p with
      | Pending => mret (Pending, x, slab)
      | Ready_ (Err e) => mret (Ready_ (Err e), x, slab)
      | Ready_ (Ok _) => Panic
      end
  end.
End io.

(** [impl Drop]: the object is deregistered, errors are ignored, then the
    registration is dropped with the struct. *)
Definition PollEvented_drop (self : PollEvented) (handle : Handle R K Po) : Handle R K Po :=
  let handle :=
    match pe_io self with
    | Some io => (Registration_deregister (pe_registration self) io handle).2
    | None => handle
    end in
  with_slab (Registration_drop (pe_registration self) (h_slab handle)) handle.
End poll_evented.

Arguments PollEvented : clear implicits.

(** ** Properties *)

Section properties.
Context {E L C W I Po X : Type}.
Context `{PinListOps L C W I, MioInterest I, !Pool Po (ScheduledIo L W), !PoolLaws Po L C W I}.
Context (call : E → X → Po → io_result Z * X * Po).
Implicit Types (self : PollEvented E) (v : ScheduledIo L W) (p : Po).

Lemma poll_read_is_poll_io fuel ww self cx x p io :
  pe_io self = Some io →
  PollEvented_poll_read call fuel ww self cx x p =
  Registration_poll_io (call io) fuel ww (pe_registration self) cx Read x p.
Proof.
  intros Hio. unfold PollEvented_poll_read, Registration_poll_io.
  apply loop_ext. intros [x' p']. unfold poll_read_turn, poll_io_turn, Registration_poll_read_ready.
  destruct (Registration_poll_ready _ _ _ _ _) as [[[[ev|e]|] p1]| |]; cbn [mbind outcome_bind]; [|done..].
  rewrite Hio. cbn [unwrap mbind outcome_bind]. by destruct (call io x' p1) as [[[n|e] x1] p2].
Qed.

(** [poll_read] is [poll_io] for the read direction, and a [poll_write] that
    transfers [n] of [len] bytes on a writable object returns [n]; on Unix a
    short write also takes the write readiness away, a full one keeps it. *)
Theorem poll_evented_read_write fuel ww windows len self cx x p v io n x' :
  pe_io self = Some io → pool_get (reg_key (pe_registration self)) p = Some v →
  word_ok (sio_readiness v) → (0 < fuel)%nat →
  Ready_is_empty (flags_for Write_ (sio_readiness v)) = false →
  (∀ p1, call io x p1 = (Ok n, x', p1)) → 0 ≤ n ≤ len →
  PollEvented_poll_read call fuel ww self cx x p =
    Registration_poll_io (call io) fuel ww (pe_registration self) cx Read x p ∧
  ∃ p' v', PollEvented_poll_write call fuel ww windows len self cx x p = Done (Ready_ (Ok n), x', p') ∧
    updated (pe_registration self) p v' p' ∧
    v' = if bool_decide (0 < n < len) && negb windows
         then with_readiness (consume Write_ (sio_readiness v)) v else v.
Proof.
  intros Hio Hg Hok Hfuel He Hcall Hn. split; [by apply poll_read_is_poll_io|].
  assert (updated (pe_registration self) p v (pool_write (reg_key (pe_registration self)) v p)) as Hp1
    by (by apply updated_write; rewrite Hg).
  set (p1 := pool_write (reg_key (pe_registration self)) v p) in *.
  assert (bool_decide (0 < n) && (negb windows && bool_decide (n < len)) =
          bool_decide (0 < n < len) && negb windows) as Hcond
    by (destruct windows; repeat case_bool_decide; (done || lia)).
  assert (∃ p', poll_write_turn call fuel ww windows len self cx (x, p) =
            Done (Break (Ready_ (Ok n), x', p')) ∧
          updated (pe_registration self) p
            (if bool_decide (0 < n < len) && negb windows
             then with_readiness (consume Write_ (sio_readiness v)) v else v) p') as (p' & Ht & Hup).
  { unfold poll_write_turn, Registration_poll_write_ready.
    rewrite (poll_ready_spec _ _ _ _ _ _ Hg Hok), He. cbn [mbind outcome_bind].
    rewrite Hio. cbn [unwrap mbind outcome_bind]. fold p1. rewrite Hcall, Hcond.
    destruct (bool_decide (0 < n < len) && negb windows); [|by exists p1].
    rewrite (clear_readiness_spec _ _ _ _ _ v) by (done || by apply (updated_get _ _ _ _ Hp1)).
    eexists. split; [done|]. by eapply updated_again. }
  unfold PollEvented_poll_write. rewrite (loop_break _ _ _ _ Ht) by done. eauto.
Qed.
End properties.

Import MioRef PinListRef DriverRef RegistrationRef.

Lemma poll_evented_read_write_witness :
  let self := mkPollEvented (Some 3%nat) RegistrationRef.self in
  let call := λ (_ : nat) (x : Z) (p : pool), (Ok x : io_result Z, 0, p) in
  PollEvented_poll_read call 1 (λ _ _, false) self 8%nat 5 (slab_with 2 5) =
    Registration_poll_io (call 3%nat) 1 (λ _ _, false) RegistrationRef.self 8%nat Read 5 (slab_with 2 5) ∧
  ∃ p' v', PollEvented_poll_write call 1 (λ _ _, false) false 9 self 8%nat 5 (slab_with 2 5) =
             Done (Ready_ (Ok 5), 0, p') ∧
    updated RegistrationRef.self (slab_with 2 5) v' p' ∧
    v' = with_readiness (consume Write_ (sio_readiness (slot_with 2 5))) (slot_with 2 5).
Proof.
  apply (poll_evented_read_write (λ (_ : nat) (x : Z) (p : pool), (Ok x : io_result Z, 0, p))
    1 (λ _ _, false) false 9 (mkPollEvented (Some 3%nat) RegistrationRef.self) 8%nat 5 (slab_with 2 5)
    (slot_with 2 5) 3%nat 5 0).
  - reflexivity.
  - reflexivity.
  - apply slot_with_ok; lia.
  - lia.
  - vm_compute. reflexivity.
  - intros p1. reflexivity.
  - lia.
Defined.
