(* ===== verification/Net.v ===== *)
(** * Net: socket addresses (src/src/net/addr.rs, src/src/net/lookup_host.rs)

    [ToSocketAddrs] turns an argument into the list of addresses that its
    iterator yields.  The functions that bind, and the one that connects a UDP
    socket, try those addresses in order with [try_each]; [TcpStream::connect], which
    can suspend in the middle, has a loop of its own in [Tcp]. *)

From Stdlib Require Import String.
From S2P Require Import Prelude IoDriver.

Local Open Scope Z_scope.

(** ** Addresses *)

(** [std::net]: an IPv4 address is 32 bits, an IPv6 address 128. *)
Record Ipv4Addr : Type := mkIpv4 { ipv4_bits : Z }.
Record Ipv6Addr : Type := mkIpv6 { ipv6_bits : Z }.

Inductive IpAddr : Type :=
| IpAddr_V4 (ip : Ipv4Addr)
| IpAddr_V6 (ip : Ipv6Addr).

Record SocketAddrV4 : Type := mkV4 { v4_ip : Ipv4Addr; v4_port : Z }.
Record SocketAddrV6 : Type := mkV6 { v6_ip : Ipv6Addr; v6_port : Z; v6_flowinfo : Z; v6_scope_id : Z }.

Inductive SocketAddr : Type :=
| SocketAddr_V4 (a : SocketAddrV4)
| SocketAddr_V6 (a : SocketAddrV6).

#[export] Instance Ipv4Addr_eq_dec : EqDecision Ipv4Addr.
Proof. solve_decision. Defined.
#[export] Instance Ipv6Addr_eq_dec : EqDecision Ipv6Addr.
Proof. solve_decision. Defined.
#[export] Instance SocketAddrV4_eq_dec : EqDecision SocketAddrV4.
Proof. solve_decision. Defined.
#[export] Instance SocketAddrV6_eq_dec : EqDecision SocketAddrV6.
Proof. solve_decision. Defined.
#[export] Instance SocketAddr_eq_dec : EqDecision SocketAddr.
Proof. solve_decision. Defined.

(** [SocketAddr::from((IpAddr, u16))]. *)
Definition SocketAddr_from (a : IpAddr * Z) : SocketAddr :=
  match a with
  | (IpAddr_V4 ip, port) => SocketAddr_V4 (mkV4 ip port)
  | (IpAddr_V6 ip, port) => SocketAddr_V6 (mkV6 ip port 0 0)
  end.

(** [to_socket_addrs]: what the iterator yields, in order. *)
Class ToSocketAddrs (A : Type) : Type := to_socket_addrs : A → io_result (list SocketAddr).

#[export] Instance SocketAddr_to_socket_addrs : ToSocketAddrs SocketAddr := λ self, Ok [self].

#[export] Instance SocketAddrV4_to_socket_addrs : ToSocketAddrs SocketAddrV4 := λ self,
  to_socket_addrs (SocketAddr_V4 self).

#[export] Instance SocketAddrV6_to_socket_addrs : ToSocketAddrs SocketAddrV6 := λ self,
  to_socket_addrs (SocketAddr_V6 self).

#[export] Instance IpAddr_to_socket_addrs : ToSocketAddrs (IpAddr * Z) := λ self,
  Ok [SocketAddr_from self].

#[export] Instance Ipv4Addr_to_socket_addrs : ToSocketAddrs (Ipv4Addr * Z) := λ self,
  let '(ip, port) := self in to_socket_addrs (mkV4 ip port).

#[export] Instance Ipv6Addr_to_socket_addrs : ToSocketAddrs (Ipv6Addr * Z) := λ self,
  let '(ip, port) := self in to_socket_addrs (mkV6 ip port 0 0).

#[export] Instance slice_to_socket_addrs : ToSocketAddrs (list SocketAddr) := λ self, Ok self.

(** [enum OneOrMore] and its [Iterator]. *)
Inductive OneOrMore : Type :=
| One (i : option SocketAddr)
| More (i : list SocketAddr).

Definition OneOrMore_next (self : OneOrMore) : option SocketAddr * OneOrMore :=
  match self with
  | One i => (i, One None)
  | More i => (head i, More (tail i))
  end.

Definition OneOrMore_size_hint (self : OneOrMore) : Z * option Z :=
  match self with
  | One i => let n := match i with Some _ => 1 | None => 0 end in (n, Some n)
  | More i => (Z.of_nat (length i), Some (Z.of_nat (length i)))
  end.

(** [lookup_host]. *)
Definition lookup_host {A} `{ToSocketAddrs A} (host : A) : io_result (list SocketAddr) :=
  to_socket_addrs host.

(** ** Trying addresses *)

Definition no_address : io_error := mkIoError InvalidInput "could not resolve to any address".

Section try_each.
Context {X B : Type} (attempt : SocketAddr → X → outcome (io_result B * X)).

(** [for addr in addrs { match attempt(addr) { Ok(b) => return Ok(b), Err(e) =>
    last_err = Some(e) } } Err(last_err.unwrap_or_else(..))] *)
Fixpoint try_each (addrs : list SocketAddr) (last_err : option io_error) (x : X)
    : outcome (io_result B * X) :=
  match addrs with
  | [] => mret (Err (default no_address last_err), x)
  | addr :: addrs =>
      '(r, x) ← attempt addr x;
      match r with
      | Ok b => mret (Ok b, x)
      | Err e => try_each addrs (Some e) x
      end
  end.
End try_each.

(** ** Properties *)

(** Attempts that failed one after the other: their errors, and the world
    afterwards. *)
Inductive all_fail {A X : Type} (fails : A → X → io_error → X → Prop)
    : list A → X → list io_error → X → Prop :=
| fail_nil x : all_fail fails [] x [] x
| fail_cons a l x e x1 es x2 :
    fails a x e x1 → all_fail fails l x1 es x2 → all_fail fails (a :: l) x (e :: es) x2.

Section properties.
Context {X B : Type} (attempt : SocketAddr → X → outcome (io_result B * X)).

(** How [try_each] gets to its result: the first attempts fail, and the next one,
    if there is one, succeeds. *)
Lemma try_each_run :
  (∀ a x, ∃ r, attempt a x = Done r) →
  ∀ addrs errs x, ∃ new x1 r x', try_each attempt addrs (last errs) x = Done (r, x') ∧
    all_fail (λ a x e x', attempt a x = Done (Err e, x')) (take (length new) addrs) x new x1 ∧
    match drop (length new) addrs with
    | [] => r = Err (default no_address (last (errs ++ new))) ∧ x' = x1
    | a :: _ => attempt a x1 = Done (r, x') ∧ ∃ b, r = Ok b
    end.
Proof.
  intros Htotal. induction addrs as [|a addrs IH]; intros errs x; cbn [try_each].
  { exists [], x. do 2 eexists. rewrite app_nil_r. split_and!; [done|apply fail_nil|done..]. }
  destruct (Htotal a x) as [[[b|e] x1] Ha]; rewrite Ha; cbn [mbind outcome_bind].
  - exists [], x, (Ok b), x1. split; [done|]. split; [apply fail_nil|]. split; [done|by eexists].
  - destruct (IH (errs ++ [e]) x1) as (new & x2 & r & x' & Hrun & Hf & Hr).
    rewrite last_snoc in Hrun. rewrite <- app_assoc in Hr.
    exists (e :: new), x2, r, x'. split_and!; [done| |done]. by eapply fail_cons.
Qed.
End properties.

Definition local (port : Z) : SocketAddr := SocketAddr_V4 (mkV4 (mkIpv4 2130706433) port).
