(* ===== verification/Text.v ===== *)
(** * Text: strings as bytes, and numbers written in a base

    A string of the program is the list of its bytes.  Numbers are read digit by
    digit ([of_be]) and written without leading zeros ([show_num]), as the integer
    types of Rust are by [Display] and [LowerHex]. *)

From Stdlib Require Import String Ascii.
From S2P Require Import Prelude.

Local Open Scope Z_scope.

Definition str : Type := list Z.

Definition str_of (s : string) : str := (λ c, Z.of_N (N_of_ascii c)) <$> list_ascii_of_string s.

(** ** Numbers in a base, the most significant digit first *)

Definition of_be (base : Z) (ds : list Z) : Z := foldl (λ acc d, acc * base + d) 0 ds.

Fixpoint to_be (n : nat) (base x : Z) : list Z :=
  match n with
  | O => []
  | S n => to_be n base (x / base) ++ [x mod base]
  end.

(** [char::to_digit]. *)
Definition to_digit (radix c : Z) : option Z :=
  let d := if decide (48 ≤ c ≤ 57) then c - 48
           else if decide (97 ≤ c ≤ 122) then c - 97 + 10
           else if decide (65 ≤ c ≤ 90) then c - 65 + 10 else radix in
  if decide (d < radix) then Some d else None.

(** The digits of a number below [radix ^ S n], without leading zeros. *)
Fixpoint show_digits (n : nat) (radix x : Z) : list Z :=
  match n with
  | O => [x]
  | S n => if decide (x < radix) then [x] else show_digits n radix (x / radix) ++ [x mod radix]
  end.

Definition digit_char (d : Z) : Z := if decide (d < 10) then 48 + d else 87 + d.

Definition show_num (n : nat) (radix x : Z) : str := digit_char <$> show_digits n radix x.

(** ** Lemmas *)

Definition is_digit (radix d : Z) : Prop := 0 ≤ d < radix.

Lemma of_be_app base l1 l2 :
  of_be base (l1 ++ l2) = of_be base l1 * base ^ Z.of_nat (length l2) + of_be base l2.
Proof.
  unfold of_be. rewrite foldl_app. generalize (foldl (λ acc d, acc * base + d) 0 l1) as a.
  assert (∀ l a, foldl (λ acc d, acc * base + d) a l =
    a * base ^ Z.of_nat (length l) + foldl (λ acc d, acc * base + d) 0 l) as Hgen; [|by intros a].
  induction l as [|d l IH]; intros a; cbn [foldl length]; [cbn; lia|].
  rewrite IH, (IH (0 * base + d)), Nat2Z.inj_succ, Z.pow_succ_r by lia. lia.
Qed.

Lemma to_be_spec n base x :
  0 < base → 0 ≤ x < base ^ Z.of_nat n →
  of_be base (to_be n base x) = x ∧ length (to_be n base x) = n ∧ Forall (is_digit base) (to_be n base x).
Proof.
  intros Hb. revert x. induction n as [|n IH]; intros x Hx; cbn [to_be].
  { cbn in *. split_and!; [unfold of_be; cbn; lia|done|constructor]. }
  rewrite Nat2Z.inj_succ, Z.pow_succ_r in Hx by lia.
  destruct (IH (x / base)) as (Hv & Hl & Hd).
  { split; [by apply Z.div_pos; lia|apply Z.div_lt_upper_bound; lia]. }
  pose proof (Z.mod_pos_bound x base Hb). split_and!.
  - rewrite of_be_app, Hv. unfold of_be. cbn. pose proof (Z.div_mod x base). lia.
  - rewrite length_app, Hl. cbn. lia.
  - apply Forall_app; split; [done|by apply Forall_singleton].
Qed.

Lemma to_be_of_be base l :
  0 < base → Forall (is_digit base) l → to_be (length l) base (of_be base l) = l.
Proof.
  intros Hb. induction l as [|d l IH] using rev_ind; intros Hl; [done|].
  apply Forall_app in Hl as [Hl Hd]. apply Forall_cons in Hd as [[??] _].
  rewrite length_app, Nat.add_1_r. cbn [to_be]. rewrite of_be_app. cbn [length].
  replace (of_be base [d]) with d by (unfold of_be; cbn; lia). rewrite Z.pow_1_r.
  rewrite Z.div_add_l, Z.div_small, Z.add_0_r by lia. rewrite IH by done.
  by rewrite Z.add_comm, Z.mod_add, Z.mod_small by lia.
Qed.

Lemma of_be_bound base l :
  0 < base → Forall (is_digit base) l → 0 ≤ of_be base l < base ^ Z.of_nat (length l).
Proof.
  intros Hb. induction l as [|d l IH] using rev_ind; intros Hl; [cbn; lia|].
  apply Forall_app in Hl as [Hl Hd]. apply Forall_cons in Hd as [[??] _].
  rewrite of_be_app, length_app, Nat.add_1_r, Nat2Z.inj_succ, Z.pow_succ_r by lia.
  specialize (IH Hl). unfold of_be at 2 4. cbn. nia.
Qed.

Lemma show_digits_spec n radix x :
  1 < radix → 0 ≤ x < radix ^ Z.of_nat (S n) →
  let l := show_digits n radix x in
  of_be radix l = x ∧ (1 ≤ length l ≤ S n)%nat ∧ Forall (is_digit radix) l ∧
  (head l = Some 0 → length l = 1%nat).
Proof.
  intros Hr. revert x. induction n as [|n IH]; intros x Hx l; subst l; cbn [show_digits].
  { cbn in Hx. unfold of_be. cbn. split_and!; [lia|lia|lia| |done]. apply Forall_singleton. red. lia. }
  case_decide as Hlt.
  { unfold of_be. cbn. split_and!; [lia|lia|lia| |done]. apply Forall_singleton. red. lia. }
  rewrite Nat2Z.inj_succ, Z.pow_succ_r in Hx by lia.
  destruct (IH (x / radix)) as (Hv & Hl & Hd & H0).
  { split; [by apply Z.div_pos; lia|apply Z.div_lt_upper_bound; lia]. }
  pose proof (Z.mod_pos_bound x radix). split_and!.
  - rewrite of_be_app, Hv. unfold of_be. cbn. pose proof (Z.div_mod x radix). lia.
  - rewrite length_app. cbn. lia.
  - rewrite length_app. cbn. lia.
  - apply Forall_app; split; [done|]. apply Forall_singleton. red. lia.
  - intros Hhd. exfalso. assert (1 ≤ x / radix) by (apply Z.div_le_lower_bound; lia).
    destruct (show_digits n radix (x / radix)) as [|d ds]; [cbn in Hl; lia|]. cbn in Hhd. injection Hhd as ->.
    destruct ds; [unfold of_be in Hv; cbn in Hv; lia|]. specialize (H0 eq_refl). done.
Qed.

Lemma to_digit_char radix d : is_digit radix d → radix ≤ 36 → to_digit radix (digit_char d) = Some d.
Proof.
  unfold is_digit, to_digit, digit_char. intros [??] ?.
  repeat case_decide; try lia; f_equal; lia.
Qed.

Lemma show_num_length n radix x :
  1 < radix → 0 ≤ x < radix ^ Z.of_nat (S n) → (length (show_num n radix x) ≤ S n)%nat.
Proof. intros Hr Hx. unfold show_num. rewrite length_fmap. by destruct (show_digits_spec n radix x Hr Hx) as (_ & [_ ?] & _). Qed.
