(* ===== verification/AddrParse.v ===== *)
(** * AddrParse: socket addresses in strings (src/src/net/addr.rs)

    The instances of [ToSocketAddrs] for [str], [String], [(&str, u16)] and
    [(String, u16)] parse the string and fall back to the resolver.  The parser is
    that of [std::net]; it is written out here, and [AddrProps] shows that it reads
    back what [Display] writes.  The resolver of the operating system
    ([getaddrinfo]) is a parameter. *)

From Stdlib Require Import String.
From S2P Require Import Prelude Text IoDriver Net.

Local Open Scope Z_scope.

(** ** The parser of [std::net] *)

(** [read_atomically]: a parser that fails leaves the input as it was. *)
Definition parser (A : Type) : Type := str → option (A * str).

Definition p_ret {A} (a : A) : parser A := λ s, Some (a, s).
Definition p_bind {A B} (p : parser A) (k : A → parser B) : parser B := λ s,
  match p s with Some (a, s) => k a s | None => None end.
Local Notation "'do' x <- p ; k" := (p_bind p (λ x, k))
  (at level 100, x pattern, p at level 99, k at level 200, right associativity).

Definition read_given_char (c : Z) : parser unit := λ s,
  match s with
  | c' :: s' => if decide (c' = c) then Some ((), s') else None
  | [] => None
  end.

Definition read_separator {A} (sep : Z) (index : nat) (inner : parser A) : parser A :=
  if decide (0 < index)%nat then do _ <- read_given_char sep; inner else inner.

(** The loop of [read_number] for at most [max_digits] digits. *)
Fixpoint read_digits (radix : Z) (max_digits count : nat) (result : Z) (s : str)
    : option (nat * Z * str) :=
  match s with
  | [] => Some (count, result, s)
  | c :: s' =>
      match to_digit radix c with
      | None => Some (count, result, s)
      | Some d =>
          if decide (max_digits < S count)%nat then None
          else read_digits radix max_digits (S count) (result * radix + d) s'
      end
  end.

(** The loop without a limit: checked arithmetic in the type whose maximum is
    [tmax]. *)
Fixpoint read_digits_checked (radix tmax : Z) (count : nat) (result : Z) (s : str)
    : option (nat * Z * str) :=
  match s with
  | [] => Some (count, result, s)
  | c :: s' =>
      match to_digit radix c with
      | None => Some (count, result, s)
      | Some d =>
          if decide (tmax < result * radix + d) then None
          else read_digits_checked radix tmax (S count) (result * radix + d) s'
      end
  end.

Definition read_number (radix : Z) (max_digits : option nat) (allow_zero_prefix : bool) (tmax : Z)
    : parser Z := λ s,
  let has_leading_zero := bool_decide (head s = Some 48) in
  match
    match max_digits with
    | Some m => read_digits radix m 0 0 s
    | None => read_digits_checked radix tmax 0 0 s
    end
  with
  | None => None
  | Some (count, result, s) =>
      if decide (count = 0%nat) then None
      else if negb allow_zero_prefix && has_leading_zero && bool_decide (1 < count)%nat then None
      else if decide (tmax < result) then None
      else Some (result, s)
  end.

Definition u8_max : Z := 255.
Definition u16_max : Z := 65535.
Definition u32_max : Z := 4294967295.

Fixpoint read_octets (n i : nat) : parser (list Z) :=
  match n with
  | O => p_ret []
  | S n =>
      do x <- read_separator 46 i (read_number 10 (Some 3%nat) false u8_max);
      do xs <- read_octets n (S i);
      p_ret (x :: xs)
  end.

Definition read_ipv4_addr : parser Ipv4Addr :=
  do xs <- read_octets 4 0; p_ret (mkIpv4 (of_be 256 xs)).

(** [read_groups]: the groups that it stored, and whether an IPv4 address was the
    last of them; [k] is what is left of [limit]. *)
Fixpoint read_groups (k i : nat) (s : str) : list Z * bool * str :=
  match k with
  | O => ([], false, s)
  | S k =>
      match (if decide (0 < k)%nat then read_separator 58 i read_ipv4_addr s else None) with
      | Some (ip, s) => (to_be 2 65536 (ipv4_bits ip), true, s)
      | None =>
          match read_separator 58 i (read_number 16 (Some 4%nat) true u16_max) s with
          | Some (g, s) =>
              let '(gs, v4, s) := read_groups k (S i) s in (g :: gs, v4, s)
          | None => ([], false, s)
          end
      end
  end.

Definition read_ipv6_addr : parser Ipv6Addr := λ s,
  let '(hd, head_ipv4, s) := read_groups 8 0 s in
  if decide (length hd = 8%nat) then Some (mkIpv6 (of_be 65536 hd), s)
  else if head_ipv4 : bool then None
  else
    (do _ <- read_given_char 58;
     do _ <- read_given_char 58;
     λ s,
       let limit := (8 - (length hd + 1))%nat in
       let '(tl, _, s) := read_groups limit 0 s in
       let zeros := replicate (8 - length hd - length tl) 0 in
       Some (mkIpv6 (of_be 65536 (hd ++ zeros ++ tl)), s)) s.

Definition read_port : parser Z :=
  do _ <- read_given_char 58; read_number 10 None true u16_max.

Definition read_scope_id : parser Z :=
  do _ <- read_given_char 37; read_number 10 None true u32_max.

Definition read_socket_addr_v4 : parser SocketAddrV4 :=
  do ip <- read_ipv4_addr; do port <- read_port; p_ret (mkV4 ip port).

Definition read_socket_addr_v6 : parser SocketAddrV6 :=
  do _ <- read_given_char 91;
  do ip <- read_ipv6_addr;
  do scope_id <- (λ s, match read_scope_id s with Some (x, s) => Some (x, s) | None => Some (0, s) end);
  do _ <- read_given_char 93;
  do port <- read_port;
  p_ret (mkV6 ip port 0 scope_id).

Definition read_socket_addr : parser SocketAddr := λ s,
  match read_socket_addr_v4 s with
  | Some (a, s) => Some (SocketAddr_V4 a, s)
  | None => match read_socket_addr_v6 s with Some (a, s) => Some (SocketAddr_V6 a, s) | None => None end
  end.

(** [Parser::parse_with]: the whole input has to be read. *)
Definition parse_with {A} (p : parser A) (s : str) : option A :=
  match p s with Some (a, []) => Some a | _ => None end.

(** The [FromStr] instances. *)
Definition parse_Ipv4Addr (s : str) : option Ipv4Addr :=
  if decide (15 < length s)%nat then None else parse_with read_ipv4_addr s.
Definition parse_Ipv6Addr (s : str) : option Ipv6Addr := parse_with read_ipv6_addr s.
Definition parse_SocketAddr (s : str) : option SocketAddr := parse_with read_socket_addr s.

(** [u16::from_str]: a leading [+] is allowed. *)
Fixpoint parse_digits (result : Z) (s : str) : option Z :=
  match s with
  | [] => Some result
  | c :: s =>
      match to_digit 10 c with
      | None => None
      | Some d => if decide (u16_max < result * 10 + d) then None else parse_digits (result * 10 + d) s
      end
  end.

Definition parse_u16 (s : str) : option Z :=
  match s with
  | [] | [43] | [45] => None
  | 43 :: s => parse_digits 0 s
  | s => parse_digits 0 s
  end.

(** [str::rsplit_once]. *)
Fixpoint rsplit_once (sep : Z) (s : str) : option (str * str) :=
  match s with
  | [] => None
  | c :: s =>
      match rsplit_once sep s with
      | Some (before, after) => Some (c :: before, after)
      | None => if decide (c = sep) then Some ([], s) else None
      end
  end.

(** ** The instances *)

Definition invalid_socket_address : io_error := mkIoError InvalidInput "invalid socket address".
Definition invalid_port : io_error := mkIoError InvalidInput "invalid port value".

Section resolver.
Context (resolve : str → Z → io_result (list SocketAddr)).

(** [std::net::ToSocketAddrs] for [str] and [(&str, u16)]. *)
Definition std_str_to_socket_addrs (s : str) : io_result (list SocketAddr) :=
  match parse_SocketAddr s with
  | Some addr => Ok [addr]
  | None =>
      match rsplit_once 58 s with
      | None => Err invalid_socket_address
      | Some (host, port_str) =>
          match parse_u16 port_str with
          | None => Err invalid_port
          | Some port => resolve host port
          end
      end
  end.

Definition std_host_port_to_socket_addrs (self : str * Z) : io_result (list SocketAddr) :=
  let '(host, port) := self in
  match parse_Ipv4Addr host with
  | Some addr => Ok [SocketAddr_V4 (mkV4 addr port)]
  | None =>
      match parse_Ipv6Addr host with
      | Some addr => Ok [SocketAddr_V6 (mkV6 addr port 0 0)]
      | None => resolve host port
      end
  end.

Definition result_map {A B E} (f : A → B) (r : result A E) : result B E :=
  match r with Ok a => Ok (f a) | Err e => Err e end.

(** [<str as ToSocketAddrsPriv>::to_socket_addrs]. *)
Definition str_to_socket_addrs (self : str) : io_result OneOrMore :=
  match parse_SocketAddr self with
  | Some addr => Ok (One (Some addr))
  | None => result_map More (std_str_to_socket_addrs self)
  end.

(** [<(&str, u16) as ToSocketAddrsPriv>::to_socket_addrs]. *)
Definition host_port_to_socket_addrs (self : str * Z) : io_result OneOrMore :=
  let '(host, port) := self in
  match parse_Ipv4Addr host with
  | Some addr => Ok (One (Some (SocketAddr_V4 (mkV4 addr port))))
  | None =>
      match parse_Ipv6Addr host with
      | Some addr => Ok (One (Some (SocketAddr_V6 (mkV6 addr port 0 0))))
      | None => result_map More (std_host_port_to_socket_addrs (host, port))
      end
  end.

(** The instances for [String] and [(String, u16)] borrow the string. *)
Definition string_to_socket_addrs (self : str) : io_result OneOrMore := str_to_socket_addrs self.
Definition string_port_to_socket_addrs (self : str * Z) : io_result OneOrMore :=
  host_port_to_socket_addrs (self.1, self.2).
End resolver.

(** What the iterator yields: [next] until it returns [None]. *)
Fixpoint OneOrMore_collect (n : nat) (self : OneOrMore) : list SocketAddr :=
  match n with
  | O => []
  | S n => match OneOrMore_next self with
           | (Some a, self) => a :: OneOrMore_collect n self
           | (None, _) => []
           end
  end.

(** All that the iterator yields. *)
Definition yields (i : OneOrMore) : list SocketAddr :=
  OneOrMore_collect (Z.to_nat (OneOrMore_size_hint i).1) i.

(** The strings among the arguments that the other modules take. *)
Definition str_ToSocketAddrs (resolve : str → Z → io_result (list SocketAddr)) : ToSocketAddrs str :=
  λ self, result_map yields (str_to_socket_addrs resolve self).
