(* ===== verification/AddrProps.v ===== *)
(** * AddrProps: socket addresses read back (src/src/net/addr.rs)

    [Display] of the addresses as [std::net] has it, and the round trip: the string
    of an address is parsed to that address, so that the instances of
    [ToSocketAddrs] for strings do not ask the resolver. *)

From Stdlib Require Import String.
From S2P Require Import Prelude Text IoDriver Net AddrParse.

Local Open Scope Z_scope.

(** ** [Display] *)

Definition show_u8 : Z → str := show_num 2 10.
Definition show_u16 : Z → str := show_num 4 10.
Definition show_u32 : Z → str := show_num 9 10.
Definition show_hex : Z → str := show_num 3 16.

(** [sep] between the items. *)
Fixpoint join (sep : Z) (l : list str) : str :=
  match l with
  | [] => []
  | [s] => s
  | s :: l => s ++ sep :: join sep l
  end.

Definition octets (ip : Ipv4Addr) : list Z := to_be 4 256 (ipv4_bits ip).
Definition segments (ip : Ipv6Addr) : list Z := to_be 8 65536 (ipv6_bits ip).

Definition show_Ipv4Addr (ip : Ipv4Addr) : str := join 46 (show_u8 <$> octets ip).

(** The longest run of zeros: where it starts and how long it is. *)
Definition span_step (acc : nat * (nat * nat) * (nat * nat)) (segment : Z)
    : nat * (nat * nat) * (nat * nat) :=
  let '(i, longest, current) := acc in
  if decide (segment = 0) then
    let current := ((if decide (current.2 = 0%nat) then i else current.1), S current.2) in
    (S i, (if decide (longest.2 < current.2)%nat then current else longest), current)
  else (S i, longest, (0%nat, 0%nat)).

Definition longest_zeroes (segs : list Z) : nat * nat :=
  let '(_, longest, _) := foldl span_step (0%nat, (0, 0)%nat, (0, 0)%nat) segs in longest.

Definition fmt_subslice (chunk : list Z) : str := join 58 (show_hex <$> chunk).

Definition show_Ipv6Addr (ip : Ipv6Addr) : str :=
  let segs := segments ip in
  if decide (take 6 segs = [0; 0; 0; 0; 0; 65535]) then
    str_of "::ffff:" ++ show_Ipv4Addr (mkIpv4 (of_be 65536 (drop 6 segs)))
  else
    let '(start, len) := longest_zeroes segs in
    if decide (1 < len)%nat then
      fmt_subslice (take start segs) ++ 58 :: 58 :: fmt_subslice (drop (start + len) segs)
    else fmt_subslice segs.

Definition show_SocketAddr (a : SocketAddr) : str :=
  match a with
  | SocketAddr_V4 a => show_Ipv4Addr (v4_ip a) ++ 58 :: show_u16 (v4_port a)
  | SocketAddr_V6 a =>
      91 :: show_Ipv6Addr (v6_ip a) ++
        (if decide (v6_scope_id a = 0) then [] else 37 :: show_u32 (v6_scope_id a)) ++
        93 :: 58 :: show_u16 (v6_port a)
  end.

(** The values fit their types. *)
Definition addr_ok (a : SocketAddr) : Prop :=
  match a with
  | SocketAddr_V4 a => 0 ≤ ipv4_bits (v4_ip a) < 2 ^ 32 ∧ 0 ≤ v4_port a ≤ u16_max
  | SocketAddr_V6 a =>
      0 ≤ ipv6_bits (v6_ip a) < 2 ^ 128 ∧ 0 ≤ v6_port a ≤ u16_max ∧
      0 ≤ v6_flowinfo a ≤ u32_max ∧ 0 ≤ v6_scope_id a ≤ u32_max
  end.

(** What [Display] shows of an address: all of it but the flow information. *)
Definition without_flowinfo (a : SocketAddr) : SocketAddr :=
  match a with
  | SocketAddr_V4 a => SocketAddr_V4 a
  | SocketAddr_V6 a => SocketAddr_V6 (mkV6 (v6_ip a) (v6_port a) 0 (v6_scope_id a))
  end.

(** ** Reading what was printed *)

(** No digit follows. *)
Definition stops (radix : Z) (s : str) : Prop :=
  match s with [] => True | c :: _ => to_digit radix c = None end.

Lemma read_digits_show radix max_digits count r l s :
  Forall (is_digit radix) l → radix ≤ 36 → stops radix s → (count + length l ≤ max_digits)%nat →
  read_digits radix max_digits count r ((digit_char <$> l) ++ s) =
    Some ((count + length l)%nat, foldl (λ acc d, acc * radix + d) r l, s).
Proof.
  intros Hl Hr Hs. revert count r. induction Hl as [|d l Hd Hl IH]; intros count r Hc; cbn [length] in *.
  - rewrite Nat.add_0_r. cbn. destruct s as [|c s]; [done|]. cbn in *. by rewrite Hs.
  - cbn. rewrite to_digit_char by done. rewrite decide_False by lia.
    rewrite IH by lia. by rewrite Nat.add_succ_r.
Qed.

Lemma foldl_digits_mono radix r l :
  1 < radix → 0 ≤ r → Forall (is_digit radix) l → r ≤ foldl (λ acc d, acc * radix + d) r l.
Proof.
  intros Hr Hr0 Hl. revert r Hr0. induction Hl as [|d l [??] Hl IH]; intros r Hr0; cbn; [lia|].
  specialize (IH (r * radix + d) ltac:(nia)). nia.
Qed.

Lemma read_digits_checked_show radix tmax count r l s :
  Forall (is_digit radix) l → 1 < radix ≤ 36 → stops radix s → 0 ≤ r →
  foldl (λ acc d, acc * radix + d) r l ≤ tmax →
  read_digits_checked radix tmax count r ((digit_char <$> l) ++ s) =
    Some ((count + length l)%nat, foldl (λ acc d, acc * radix + d) r l, s).
Proof.
  intros Hl Hr Hs. revert count r. induction Hl as [|d l Hd Hl IH]; intros count r Hr0 Hmax; cbn [length] in *.
  - rewrite Nat.add_0_r. cbn. destruct s as [|c s]; [done|]. cbn in *. by rewrite Hs.
  - cbn in *. rewrite to_digit_char by (done || lia). red in Hd.
    assert (0 ≤ r * radix + d) by nia.
    pose proof (foldl_digits_mono radix (r * radix + d) l ltac:(lia) ltac:(lia) Hl).
    rewrite decide_False by lia. rewrite IH by lia. by rewrite Nat.add_succ_r.
Qed.

Lemma read_number_show n radix max_digits zero tmax x s :
  1 < radix ≤ 36 → 0 ≤ x < radix ^ Z.of_nat (S n) → x ≤ tmax → stops radix s →
  max_digits = Some (S n) ∨ max_digits = None →
  read_number radix max_digits zero tmax (show_num n radix x ++ s) = Some (x, s).
Proof.
  intros Hr Hx Hmax Hs Hm. destruct (show_digits_spec n radix x ltac:(lia) Hx) as (Hv & Hl & Hd & H0).
  unfold read_number, show_num. unfold of_be in Hv.
  assert (match max_digits with
          | Some m => read_digits radix m 0 0 ((digit_char <$> show_digits n radix x) ++ s)
          | None => read_digits_checked radix tmax 0 0 ((digit_char <$> show_digits n radix x) ++ s)
          end = Some (length (show_digits n radix x), x, s)) as ->.
  { destruct Hm as [-> | ->].
    - rewrite read_digits_show by (done || lia). by rewrite Hv.
    - rewrite read_digits_checked_show by (done || lia). by rewrite Hv. }
  rewrite decide_False by lia. rewrite (decide_False (P := tmax < x)) by lia.
  destruct (negb zero); cbn [andb]; [|done]. case_bool_decide as Hz; cbn [andb]; [|done].
  rewrite bool_decide_eq_false_2; [done|].
  rewrite H0; [lia|]. destruct (show_digits n radix x) as [|d ds]; [cbn in Hl; lia|].
  cbn in Hz |- *. apply Forall_cons in Hd as [[??] _]. injection Hz as Hz. unfold digit_char in Hz.
  case_decide; [f_equal; lia|lia].
Qed.

(** *** IPv4 *)

Definition each (sep : Z) (show : Z → str) (xs : list Z) : str := concat ((λ x, sep :: show x) <$> xs).

Lemma join_cons sep show x xs : join sep (show <$> (x :: xs)) = show x ++ each sep show xs.
Proof.
  revert x. induction xs as [|y xs IH]; intros x; [cbn; by rewrite app_nil_r|].
  specialize (IH y). cbn in *. by rewrite IH.
Qed.

Lemma stops_each radix sep show xs s : to_digit radix sep = None → stops radix s → stops radix (each sep show xs ++ s).
Proof. by destruct xs. Qed.

Lemma each_cons sep show x xs s : each sep show (x :: xs) ++ s = sep :: show x ++ each sep show xs ++ s.
Proof. unfold each. cbn. by rewrite <- app_assoc. Qed.

Lemma read_given_char_cons c s : read_given_char c (c :: s) = Some ((), s).
Proof. unfold read_given_char. by rewrite decide_True. Qed.

Lemma read_separator_cons {A} sep i (p : parser A) s : read_separator sep (S i) p (sep :: s) = p s.
Proof. unfold read_separator, p_bind. by rewrite decide_True, read_given_char_cons by lia. Qed.

Lemma read_separator_0 {A} sep (p : parser A) : read_separator sep 0 p = p.
Proof. done. Qed.

Lemma read_u8_show x s :
  is_digit 256 x → stops 10 s → read_number 10 (Some 3%nat) false u8_max (show_u8 x ++ s) = Some (x, s).
Proof. intros [??] ?. apply read_number_show; unfold u8_max; auto; lia. Qed.

Lemma read_hex_show x s :
  is_digit 65536 x → stops 16 s → read_number 16 (Some 4%nat) true u16_max (show_hex x ++ s) = Some (x, s).
Proof. intros [??] ?. apply read_number_show; unfold u16_max; auto; lia. Qed.

Lemma read_octets_each xs i s :
  Forall (is_digit 256) xs → stops 10 s →
  read_octets (length xs) (S i) (each 46 show_u8 xs ++ s) = Some (xs, s).
Proof.
  intros Hxs Hs. revert i. induction Hxs as [|x xs Hx Hxs IH]; intros i; [done|].
  cbn [length read_octets]. unfold p_bind. rewrite each_cons, read_separator_cons.
  rewrite read_u8_show by (try apply stops_each; done). by rewrite IH.
Qed.

Lemma read_ipv4_show ip s :
  0 ≤ ipv4_bits ip < 2 ^ 32 → stops 10 s → read_ipv4_addr (show_Ipv4Addr ip ++ s) = Some (ip, s).
Proof.
  intros Hip Hs. destruct (to_be_spec 4 256 (ipv4_bits ip) ltac:(lia) ltac:(done)) as (Hv & Hl & Hd).
  unfold show_Ipv4Addr, octets. unfold read_ipv4_addr, p_bind at 1.
  destruct (to_be 4 256 (ipv4_bits ip)) as [|x xs] eqn:Hxs; [done|]. cbn [length] in Hl. injection Hl as Hl.
  apply Forall_cons in Hd as [Hx Hd]. rewrite join_cons, <- app_assoc.
  cbn [read_octets]. unfold p_bind at 1.
  rewrite read_separator_0, read_u8_show by (try apply stops_each; done).
  pose proof (read_octets_each xs 0 s Hd Hs) as Hr. rewrite Hl in Hr. cbn [read_octets] in Hr.
  unfold p_bind at 1. rewrite Hr. unfold p_ret. rewrite Hv. by destruct ip.
Qed.

(** *** IPv6 *)

(** A group ends before [s], and no IPv4 address goes on there. *)
Definition group_end (s : str) : Prop := stops 16 s ∧ head s ≠ Some 46.

(** No further group follows. *)
Definition no_group (s : str) : Prop := ∀ s', s = 58 :: s' → group_end s'.

Lemma read_digits_no_dot max_digits count r l s c r' s' :
  Forall (is_digit 16) l → group_end s →
  read_digits 10 max_digits count r ((digit_char <$> l) ++ s) = Some (c, r', s') → head s' ≠ Some 46.
Proof.
  intros Hl [Hs Hdot]. revert count r. induction Hl as [|d l Hd Hl IH]; intros count r; cbn.
  - destruct s as [|c0 s]; cbn in *; [by intros [= <- <- <-]|].
    assert (to_digit 10 c0 = None) as ->; [|by intros [= <- <- <-]].
    unfold to_digit in *. repeat case_decide; try done; lia.
  - destruct (to_digit 10 (digit_char d)); [case_decide; [done|apply IH]|].
    intros [= <- <- <-]. cbn. unfold digit_char. red in Hd. case_decide; intros [=]; lia.
Qed.

Lemma read_separator_none {A} sep i (p : parser A) s : head s ≠ Some sep → read_separator sep (S i) p s = None.
Proof.
  intros Hs. unfold read_separator, p_bind, read_given_char. rewrite decide_True by lia.
  destruct s as [|c s]; [done|]. rewrite decide_False; [done|]. cbn in Hs. congruence.
Qed.

Lemma read_ipv4_none l s :
  Forall (is_digit 16) l → group_end s → read_ipv4_addr ((digit_char <$> l) ++ s) = None.
Proof.
  intros Hl Hs. unfold read_ipv4_addr, p_bind at 1. change (read_octets 4 0) with
    (p_bind (read_number 10 (Some 3%nat) false u8_max)
       (λ x, p_bind (read_octets 3 1) (λ xs, p_ret (x :: xs)))).
  unfold p_bind at 1, read_number at 1.
  destruct (read_digits 10 3 0 0 _) as [[[c r] s']|] eqn:Hd; [|done].
  apply read_digits_no_dot in Hd; [|done|done].
  assert (read_octets 3 1 s' = None) as Hn.
  { cbn [read_octets]. unfold p_bind at 1. by rewrite read_separator_none. }
  destruct (decide (c = 0%nat)); [done|]. destruct (_ && _ && _)%bool; [done|].
  destruct (decide (u8_max < r)); [done|]. unfold p_bind. by rewrite Hn.
Qed.

Lemma show_hex_digits g : is_digit 65536 g → ∃ l, show_hex g = digit_char <$> l ∧ Forall (is_digit 16) l.
Proof. intros Hg. eexists; split; [done|]. by apply (show_digits_spec 3 16 g ltac:(lia) Hg). Qed.

Lemma read_number_none s : stops 16 s → read_number 16 (Some 4%nat) true u16_max s = None.
Proof. destruct s as [|c s]; cbn; [done|]. intros Hs. unfold read_number. cbn. by rewrite Hs. Qed.

Lemma group_end_each gs s : group_end s → group_end (each 58 show_hex gs ++ s).
Proof. by destruct gs. Qed.

(** One group, with the separator that was read before it. *)
Lemma read_group k i g s s' :
  is_digit 65536 g → group_end s →
  (∀ A (p : parser A), read_separator 58 i p s' = p (show_hex g ++ s)) →
  read_groups (S k) i s' = let '(gs, v4, s) := read_groups k (S i) s in (g :: gs, v4, s).
Proof.
  intros Hg Hs Hsep. assert (read_ipv4_addr (show_hex g ++ s) = None) as Hv4.
  { destruct (show_hex_digits g Hg) as (l & -> & Hd). by apply read_ipv4_none. }
  cbn [read_groups]. rewrite !Hsep, Hv4, read_hex_show by (done || apply Hs).
  by destruct (decide (0 < k)%nat).
Qed.

(** What follows ends the groups. *)
Lemma read_groups_none k i s :
  (i = 0%nat → group_end s) → (0 < i → no_group s)%nat → read_groups k i s = ([], false, s).
Proof.
  intros H0 Hi. destruct k as [|k]; [done|]. cbn [read_groups].
  assert (∀ s', group_end s' → read_ipv4_addr s' = None) as Hv4 by (by intros s'; apply (read_ipv4_none [])).
  destruct i as [|i].
  - specialize (H0 eq_refl). rewrite !read_separator_0, Hv4, read_number_none by (done || apply H0). by destruct (decide (0 < k)%nat).
  - specialize (Hi ltac:(lia)). destruct s as [|c s].
    { rewrite !read_separator_none by done. by destruct (decide (0 < k)%nat). }
    destruct (decide (c = 58)) as [->|Hc].
    + destruct (Hi s eq_refl) as [??]. rewrite !read_separator_cons, Hv4, read_number_none by done.
      by destruct (decide (0 < k)%nat).
    + rewrite !read_separator_none by (cbn; congruence). by destruct (decide (0 < k)%nat).
Qed.

Lemma read_groups_each k i gs s :
  Forall (is_digit 65536) gs → group_end s → (length gs ≤ k)%nat → (length gs < k → no_group s)%nat →
  read_groups k (S i) (each 58 show_hex gs ++ s) = (gs, false, s).
Proof.
  intros Hgs Hs. revert k i. induction Hgs as [|g gs Hg Hgs IH]; intros k i Hk Hn; cbn [length] in *.
  - destruct k; [done|]. apply read_groups_none; [done|]. intros _. apply Hn. lia.
  - destruct k as [|k]; [lia|].
    rewrite (read_group k _ g (each 58 show_hex gs ++ s)), IH; [done|lia|..|done|by apply group_end_each|].
    + intros ?. apply Hn. lia.
    + intros A p. by rewrite each_cons, read_separator_cons.
Qed.

Lemma read_groups_show k gs s :
  Forall (is_digit 65536) gs → group_end s → (length gs ≤ k)%nat → no_group s ∨ length gs = k ∨ gs = [] →
  read_groups k 0 (fmt_subslice gs ++ s) = (gs, false, s).
Proof.
  intros Hgs Hs Hk Hn. unfold fmt_subslice. destruct gs as [|g gs]; [by apply read_groups_none; [|lia]|].
  rewrite join_cons, <- app_assoc. apply Forall_cons in Hgs as [Hg Hgs]. cbn [length] in *.
  destruct k as [|k]; [lia|].
  rewrite (read_group k _ g (each 58 show_hex gs ++ s)), read_groups_each; [done|done|done|lia|..|done|by apply group_end_each|done].
  destruct Hn as [?|[?|?]]; [done|lia|done].
Qed.

(** *** Runs of zeros *)

Definition zero_run (l : list Z) (span : nat * nat) : Prop :=
  ∀ j, (span.1 ≤ j < span.1 + span.2)%nat → l !! j = Some 0.

Lemma zero_run_snoc l x span : zero_run l span → zero_run (l ++ [x]) span.
Proof. intros Hr j Hj. by apply lookup_app_l_Some, Hr. Qed.

Lemma span_steps l :
  let '(i, longest, current) := foldl span_step (0%nat, (0, 0)%nat, (0, 0)%nat) l in
  i = length l ∧ zero_run l longest ∧ zero_run l current ∧
  (current.2 ≠ 0 → current.1 + current.2 = length l)%nat.
Proof.
  induction l as [|x l IH] using rev_ind.
  { unfold zero_run. cbn. split_and!; [done|lia|lia|done]. }
  rewrite foldl_app. destruct (foldl span_step _ l) as [[i longest] current].
  destruct IH as (-> & Hl & Hc & Hend). cbn [foldl]. unfold span_step.
  rewrite length_app, Nat.add_1_r. case_decide as Hx; subst.
  - set (cur := (if decide (current.2 = 0%nat) then length l else current.1, S current.2)).
    assert (zero_run (l ++ [0]) cur) as Hcur.
    { intros j. subst cur. cbn. intros Hj. destruct (decide (j = length l)) as [->|Hne].
      - by rewrite lookup_app_r, Nat.sub_diag by lia.
      - apply lookup_app_l_Some, Hc. case_decide; lia. }
    split_and!; [done|case_decide; [done|by apply zero_run_snoc]|done|].
    subst cur. cbn. intros _. case_decide; lia.
  - split_and!; [done|by apply zero_run_snoc|intros j; cbn; lia|done].
Qed.

Lemma longest_zeroes_run l : zero_run l (longest_zeroes l).
Proof.
  unfold longest_zeroes. pose proof (span_steps l) as Hs.
  by destruct (foldl span_step _ l) as [[??]?]; destruct Hs as (_ & ? & _).
Qed.

Lemma zero_run_split l start len :
  (0 < len)%nat → zero_run l (start, len) →
  l = take start l ++ replicate len 0 ++ drop (start + len) l ∧ (start + len ≤ length l)%nat.
Proof.
  intros Hlen Hr. assert (start + len ≤ length l)%nat as Hle.
  { pose proof (lookup_lt_Some _ _ _ (Hr (start + len - 1)%nat ltac:(cbn; lia))). lia. }
  split; [|done]. rewrite <- (take_drop start l) at 1. f_equal.
  rewrite <- (take_drop len (drop start l)) at 1. rewrite drop_drop. f_equal.
  apply list_eq_same_length with len; [by rewrite length_replicate|rewrite length_take, length_drop; lia|].
  intros j x y Hj Hx Hy. apply lookup_replicate in Hy as [-> _].
  rewrite lookup_take_lt, lookup_drop in Hx by lia. rewrite (Hr (start + j)%nat) in Hx by (cbn; lia). congruence.
Qed.

(** *** Whole addresses *)

(** What follows an IPv6 address: nothing, a scope or the closing bracket. *)
Definition ip_end (s : str) : Prop := s = [] ∨ head s = Some 37 ∨ head s = Some 93.

Lemma ip_end_ends s : ip_end s → group_end s ∧ no_group s ∧ stops 10 s.
Proof.
  unfold ip_end, group_end, no_group. intros [->|Hs]; [done|].
  destruct s as [|c s]; [by destruct Hs|]. cbn in *. destruct Hs as [[= ->]|[= ->]]; split_and!; done.
Qed.

Lemma read_ipv6_compressed l1 n l2 s :
  Forall (is_digit 65536) l1 → Forall (is_digit 65536) l2 → (0 < n)%nat → (length l1 + n + length l2 = 8)%nat →
  group_end s → no_group s →
  read_ipv6_addr (fmt_subslice l1 ++ 58 :: 58 :: fmt_subslice l2 ++ s) =
    Some (mkIpv6 (of_be 65536 (l1 ++ replicate n 0 ++ l2)), s).
Proof.
  intros H1 H2 Hn Hlen Hs Hng. unfold read_ipv6_addr.
  rewrite read_groups_show; [|done|done|lia|by left; intros s' [= <-]]. rewrite decide_False by lia.
  unfold p_bind. rewrite !read_given_char_cons, read_groups_show by (done || lia || auto).
  by replace (8 - length l1 - length l2)%nat with n by lia.
Qed.

Lemma read_ipv6_mapped v4 s :
  0 ≤ ipv4_bits v4 < 2 ^ 32 → stops 10 s →
  read_ipv6_addr (str_of "::ffff:" ++ show_Ipv4Addr v4 ++ s) =
    Some (mkIpv6 (of_be 65536 ([0; 0; 0; 0; 0; 65535] ++ to_be 2 65536 (ipv4_bits v4))), s).
Proof.
  intros Hv4 Hs. change (str_of "::ffff:") with (58 :: 58 :: show_hex 65535 ++ [58]).
  cbn [app]. rewrite <- app_assoc. cbn [app]. unfold read_ipv6_addr.
  rewrite (read_groups_none 8 0) by (done || lia). rewrite decide_False by done.
  unfold p_bind. rewrite !read_given_char_cons.
  change (8 - (length [] + 1))%nat with 7%nat.
  rewrite (read_group 6 0 65535 (58 :: show_Ipv4Addr v4 ++ s)) by done. cbn [read_groups].
  rewrite decide_True, read_separator_cons, read_ipv4_show by (done || lia).
  destruct (to_be_spec 2 65536 (ipv4_bits v4) ltac:(lia) Hv4) as (_ & Hl & _). cbn [length]. by rewrite Hl.
Qed.

Lemma read_ipv6_show ip s :
  0 ≤ ipv6_bits ip < 2 ^ 128 → ip_end s → read_ipv6_addr (show_Ipv6Addr ip ++ s) = Some (ip, s).
Proof.
  intros Hip Hs. destruct (ip_end_ends s Hs) as (Hge & Hng & H10).
  destruct (to_be_spec 8 65536 (ipv6_bits ip) ltac:(lia) ltac:(done)) as (Hv & Hl & Hd).
  fold (segments ip) in Hv, Hl, Hd. unfold show_Ipv6Addr. case_decide as Hmapped.
  - rewrite <- (take_drop 6 (segments ip)), Hmapped in Hv. rewrite <- app_assoc.
    apply (Forall_drop _ 6) in Hd. assert (length (drop 6 (segments ip)) = 2%nat) as Hl2.
    { rewrite length_drop. lia. }
    pose proof (to_be_of_be 65536 _ ltac:(lia) Hd) as Hbe. pose proof (of_be_bound 65536 _ ltac:(lia) Hd) as Hb.
    rewrite Hl2 in Hbe, Hb. rewrite read_ipv6_mapped by done. cbn [ipv4_bits]. rewrite Hbe, Hv. by destruct ip.
  - pose proof (longest_zeroes_run (segments ip)) as Hrun.
    destruct (longest_zeroes (segments ip)) as [start len]. case_decide as Hlen.
    + apply zero_run_split in Hrun as [Hsplit Hle]; [|lia].
      rewrite <- app_assoc. cbn [app].
      rewrite (read_ipv6_compressed _ len), <- Hsplit, Hv; [by destruct ip|..]; try done.
      * by apply Forall_take.
      * by apply Forall_drop.
      * lia.
      * rewrite length_take, length_drop. lia.
    + unfold read_ipv6_addr. rewrite read_groups_show by (done || lia || auto).
      rewrite decide_True, Hv by done. by destruct ip.
Qed.

Lemma read_port_show port s :
  0 ≤ port ≤ u16_max → stops 10 s → read_port (58 :: show_u16 port ++ s) = Some (port, s).
Proof.
  unfold u16_max. intros Hp Hs. unfold read_port, p_bind. rewrite read_given_char_cons.
  apply read_number_show; unfold u16_max; auto; lia.
Qed.

Lemma read_scope_show id s :
  0 ≤ id ≤ u32_max → stops 10 s → read_scope_id (37 :: show_u32 id ++ s) = Some (id, s).
Proof.
  unfold u32_max. intros Hp Hs. unfold read_scope_id, p_bind. rewrite read_given_char_cons.
  apply read_number_show; unfold u32_max; auto; lia.
Qed.

Lemma parse_show_v4 a : addr_ok (SocketAddr_V4 a) → parse_SocketAddr (show_SocketAddr (SocketAddr_V4 a)) = Some (SocketAddr_V4 a).
Proof.
  intros [Hip Hport]. unfold parse_SocketAddr, parse_with, read_socket_addr, read_socket_addr_v4, p_bind.
  cbn [show_SocketAddr]. rewrite read_ipv4_show by done. rewrite <- (app_nil_r (show_u16 _)), read_port_show by done.
  by destruct a.
Qed.

Lemma parse_show_v6 a :
  addr_ok (SocketAddr_V6 a) →
  parse_SocketAddr (show_SocketAddr (SocketAddr_V6 a)) = Some (without_flowinfo (SocketAddr_V6 a)).
Proof.
  intros (Hip & Hport & Hflow & Hscope). unfold parse_SocketAddr, parse_with, read_socket_addr.
  assert (∀ s, read_socket_addr_v4 (91 :: s) = None) as Hv4.
  { intros s. unfold read_socket_addr_v4, p_bind at 1.
    assert (read_ipv4_addr (91 :: s) = None) as ->; [by apply (read_ipv4_none [])|done]. }
  unfold show_SocketAddr. rewrite Hv4. unfold read_socket_addr_v6, p_bind. rewrite read_given_char_cons.
  destruct a as [ip port flow scope]. cbn [v6_ip v6_port v6_flowinfo v6_scope_id without_flowinfo] in *.
  rewrite <- (app_nil_r (show_u16 _)). case_decide as H0.
  - subst. rewrite read_ipv6_show by (done || by right; right). cbn [app].
    assert (∀ s, read_scope_id (93 :: s) = None) as -> by done. by rewrite read_given_char_cons, read_port_show.
  - rewrite read_ipv6_show by (done || by right; left). cbn [app].
    by rewrite read_scope_show, read_given_char_cons, read_port_show.
Qed.

Lemma show_Ipv4Addr_length ip : 0 ≤ ipv4_bits ip < 2 ^ 32 → (length (show_Ipv4Addr ip) ≤ 15)%nat.
Proof.
  intros Hip. destruct (to_be_spec 4 256 (ipv4_bits ip) ltac:(lia) Hip) as (_ & Hl & Hd).
  assert (∀ x, is_digit 256 x → (length (show_u8 x) ≤ 3)%nat) as H3.
  { intros x [??]. apply show_num_length; lia. }
  unfold show_Ipv4Addr, octets. destruct (to_be 4 256 _) as [|a [|b [|c [|d [|]]]]]; try done.
  rewrite !Forall_cons in Hd. destruct Hd as (Ha & Hb & Hc & Hd & _). apply H3 in Ha, Hb, Hc, Hd.
  cbn [fmap list_fmap join]. repeat (rewrite length_app; cbn [length]). lia.
Qed.

Lemma parse_Ipv4_show ip : 0 ≤ ipv4_bits ip < 2 ^ 32 → parse_Ipv4Addr (show_Ipv4Addr ip) = Some ip.
Proof.
  intros Hip. unfold parse_Ipv4Addr, parse_with. pose proof (show_Ipv4Addr_length ip Hip).
  rewrite decide_False by lia. by rewrite <- (app_nil_r (show_Ipv4Addr ip)), read_ipv4_show.
Qed.

(** An IPv6 address is not taken for an IPv4 address: its first group ends with a
    colon. *)
Lemma fmt_subslice_not_v4 gs s :
  Forall (is_digit 65536) gs → group_end s → read_ipv4_addr (fmt_subslice gs ++ s) = None.
Proof.
  intros Hgs Hs. unfold fmt_subslice. destruct gs as [|g gs]; [by apply (read_ipv4_none [])|].
  rewrite join_cons, <- app_assoc. apply Forall_cons in Hgs as [Hg _].
  destruct (show_hex_digits g Hg) as (l & -> & Hd). apply read_ipv4_none; [done|by apply group_end_each].
Qed.

Lemma parse_Ipv4_show_v6 ip : 0 ≤ ipv6_bits ip < 2 ^ 128 → parse_Ipv4Addr (show_Ipv6Addr ip) = None.
Proof.
  intros Hip. destruct (to_be_spec 8 65536 (ipv6_bits ip) ltac:(lia) Hip) as (_ & _ & Hd).
  fold (segments ip) in Hd. assert (read_ipv4_addr (show_Ipv6Addr ip) = None) as Hn.
  { unfold show_Ipv6Addr. case_decide; [by apply (read_ipv4_none [])|].
    destruct (longest_zeroes (segments ip)) as [start len]. case_decide.
    - apply fmt_subslice_not_v4; [by apply Forall_take|done].
    - rewrite <- (app_nil_r (fmt_subslice _)). by apply fmt_subslice_not_v4. }
  unfold parse_Ipv4Addr, parse_with. rewrite Hn. by case_decide.
Qed.

(** ** Properties *)

(** C30: what [Display] writes of an address is read back without the resolver,
    whatever that does.  Given as a string, an IPv4 address is that address and an
    IPv6 address, compressed, IPv4-mapped and scoped ones included, is that
    address with its flow information 0, for [Display] does not write it.  Given
    as a host with a port beside it, the printed IP address is read back with that
    port, and for IPv6 with flow information and scope 0. *)
Theorem printed_address_needs_no_lookup resolve a :
  addr_ok a →
  string_to_socket_addrs resolve (show_SocketAddr a) = Ok (One (Some (without_flowinfo a))) ∧
  string_port_to_socket_addrs resolve
    match a with
    | SocketAddr_V4 a => (show_Ipv4Addr (v4_ip a), v4_port a)
    | SocketAddr_V6 a => (show_Ipv6Addr (v6_ip a), v6_port a)
    end =
  Ok (One (Some match a with
                | SocketAddr_V4 a => SocketAddr_V4 a
                | SocketAddr_V6 a => SocketAddr_V6 (mkV6 (v6_ip a) (v6_port a) 0 0)
                end)).
Proof.
  intros Ha. unfold string_to_socket_addrs, string_port_to_socket_addrs, str_to_socket_addrs,
    host_port_to_socket_addrs. destruct a as [a|a].
  - rewrite parse_show_v4 by done. destruct Ha as [Hip _]. cbn [fst snd]. rewrite parse_Ipv4_show by done.
    by destruct a.
  - rewrite parse_show_v6 by done. destruct Ha as [Hip _]. cbn [fst snd]. rewrite parse_Ipv4_show_v6 by done.
    unfold parse_Ipv6Addr, parse_with. by rewrite <- (app_nil_r (show_Ipv6Addr _)), read_ipv6_show by (done || by left).
Qed.

(** [[fe80::1%3]:443] *)
Lemma printed_address_needs_no_lookup_witness :
  let a := SocketAddr_V6 (mkV6 (mkIpv6 (0xfe80 * 2 ^ 112 + 1)) 443 0 3) in
  let resolve := λ _ _, Err no_address in
  show_SocketAddr a = str_of "[fe80::1%3]:443" ∧
  string_to_socket_addrs resolve (str_of "[fe80::1%3]:443") = Ok (One (Some a)).
Proof.
  intros a resolve. assert (show_SocketAddr a = str_of "[fe80::1%3]:443") as Ha by (vm_compute; reflexivity).
  split; [done|]. rewrite <- Ha. apply (printed_address_needs_no_lookup resolve a). unfold addr_ok. cbn. unfold u16_max, u32_max. lia.
Defined.

Lemma collect_more n l : (length l ≤ n)%nat → OneOrMore_collect n (More l) = l.
Proof.
  revert l. induction n as [|n IH]; intros [|a l] Hn; cbn in *; [done|lia|done|]. rewrite IH; [done|lia].
Qed.

(** Trying the parser before the resolver changes nothing: for every string and
    for every host with its port, the addresses are those of the standard
    library's [ToSocketAddrs], its errors for a missing or wrong port included;
    and the size hint of the iterator is exact. *)
Theorem string_addresses_agree_with_std resolve s port i n :
  result_map yields (str_to_socket_addrs resolve s) = std_str_to_socket_addrs resolve s ∧
  result_map yields (host_port_to_socket_addrs resolve (s, port)) = std_host_port_to_socket_addrs resolve (s, port) ∧
  OneOrMore_collect (length (yields i) + n) i = yields i ∧
  OneOrMore_size_hint i = (Z.of_nat (length (yields i)), Some (Z.of_nat (length (yields i)))).
Proof.
  assert (∀ l, yields (More l) = l) as Hmore.
  { intros l. unfold yields. cbn. apply collect_more. lia. }
  assert (∀ r : io_result (list SocketAddr), result_map yields (result_map More r) = r) as Hmap.
  { intros [l|e]; cbn; [by rewrite Hmore|done]. }
  split_and!.
  - unfold str_to_socket_addrs. destruct (parse_SocketAddr s) as [a|] eqn:Hp; [|apply Hmap].
    unfold std_str_to_socket_addrs. by rewrite Hp.
  - unfold host_port_to_socket_addrs.
    destruct (parse_Ipv4Addr s) as [a|] eqn:H4; [|destruct (parse_Ipv6Addr s) as [a|] eqn:H6; [|apply Hmap]].
    + unfold std_host_port_to_socket_addrs. by rewrite H4.
    + unfold std_host_port_to_socket_addrs. by rewrite H4, H6.
  - destruct i as [[a|]|l]; [by destruct n|by destruct n|]. rewrite Hmore. apply collect_more. lia.
  - by destruct i as [[a|]|l]; [..|rewrite Hmore].
Qed.
