(* ===== verification/Tcp.v ===== *)
(** * Tcp: streams and listeners
      (src/src/net/tcp/stream.rs, src/src/net/tcp/listener.rs)

    A [TcpStream] or [TcpListener] is a [PollEvented] of a mio socket.  The calls
    of the sockets are the class [MioTcp]: they answer and change the outside
    world [X]; a call that runs as a closure of [Registration] also returns the
    slab as the driver leaves it.  A call that fills a buffer changes it in place,
    so its state is the pair of the buffer and the world.

    The socket is present in a [PollEvented] from its construction until its
    drop, so dereferencing it does not panic; the operations dereference first. *)

From Stdlib Require Import String.
From S2P Require Import Prelude Bits Ready PinList ScheduledIo IoDriver Registration AsyncIo PollEvented Net.

Local Open Scope Z_scope.

(** ** Interface *)

(** [std::net::Shutdown]. *)
Inductive Shutdown : Type := Shutdown_Read | Shutdown_Write | Shutdown_Both.

(** [mio::net::TcpStream] and [mio::net::TcpListener]; [Std] holds the blocking
    sockets of the standard library. *)
Class MioTcp (E Std X Po : Type) : Type := {
  tcp_connect : SocketAddr → X → io_result E * X;
  tcp_bind : SocketAddr → X → io_result E * X;
  tcp_from_std : Std → E;
  tcp_local_addr : E → X → io_result SocketAddr;
  tcp_peer_addr : E → X → io_result SocketAddr;
  tcp_take_error : E → X → io_result (option io_error) * X;
  tcp_shutdown : E → Shutdown → X → io_result unit * X;
  tcp_accept : E → X → Po → io_result (E * SocketAddr) * X * Po;
  tcp_peek : E → list Z * X → Po → io_result Z * (list Z * X) * Po;
  tcp_read : E → list Z * X → Po → io_result Z * (list Z * X) * Po;
  tcp_read_vectored : E → list (list Z) * X → Po → io_result Z * (list (list Z) * X) * Po;
  tcp_write : list Z → E → X → Po → io_result Z * X * Po;
  tcp_write_vectored : list (list Z) → E → X → Po → io_result Z * X * Po;
  (** [TcpStream::try_io] of mio runs the closure *)
  tcp_try_io : ∀ A, E → (X → Po → io_result A * X * Po) → X → Po → io_result A * X * Po;
}.

(** ** Definitions *)

(** What a poll of an async function does: it suspends with the variables that it
    needs to go on, or returns. *)
Inductive awaited (S A : Type) : Type :=
| Suspended (s : S)
| Returned (a : A).
Arguments Suspended {S A}.
Arguments Returned {S A}.

Section tcp.
Context {Q R K E Ev L C W I Po X Std : Type}.
Context `{Mio Q R K E Ev I, PinListOps L C W I, MioInterest I, !Pool Po (ScheduledIo L W),
  !MioTcp E Std X Po}.

Record TcpStream : Type := mkTcpStream { ts_io : PollEvented E }.
Record TcpListener : Type := mkTcpListener { tl_io : PollEvented E }.

Abbreviation world := (X * Handle R K Po)%type.

(** [self.io.registration()]. *)
Abbreviation ts_registration self := (pe_registration (ts_io self)).

(** *** Construction; the current runtime is the one of the handle *)

Definition TcpStream_new (connected : E) (handle : Handle R K Po)
    : outcome (io_result TcpStream * Handle R K Po) :=
  '(r, handle) ← PollEvented_new connected (Some handle);
  mret (match r with Ok io => Ok (mkTcpStream io) | Err e => Err e end, handle).

Definition TcpStream_from_std (stream : Std) (handle : Handle R K Po)
    : outcome (io_result TcpStream * Handle R K Po) :=
  let io := tcp_from_std stream in
  '(r, handle) ← PollEvented_new io (Some handle);
  mret (match r with Ok io => Ok (mkTcpStream io) | Err e => Err e end, handle).

Definition TcpStream_try_from (stream : Std) (handle : Handle R K Po)
    : outcome (io_result TcpStream * Handle R K Po) :=
  TcpStream_from_std stream handle.

(** The stream goes out of scope. *)
Definition TcpStream_drop (self : TcpStream) (handle : Handle R K Po) : Handle R K Po :=
  PollEvented_drop (ts_io self) handle.

(** *** Connecting

    [connect_mio] suspends at one place, waiting for the stream to be
    writable; [connect_mio_resume] is its code from there on.  On the error paths
    the local [stream] is dropped. *)

Definition connect_mio_resume (will_wake : W → W → bool) (stream : TcpStream) (cx : W) (st : world)
    : outcome (awaited TcpStream (io_result TcpStream) * world) :=
  let '(x, handle) := st in
  '(p, slab) ← Registration_poll_write_ready will_wake (ts_registration stream) cx (h_slab handle);
  let handle := with_slab slab handle in
  match p with
  | Pending => mret (Suspended stream, (x, handle))
  | Ready_ (Err e) => mret (Returned (Err e), (x, TcpStream_drop stream handle))
  | Ready_ (Ok _) =>
      io ← PollEvented_deref (ts_io stream);
      let '(r, x) := tcp_take_error io x in
      match r with
      | Err e => mret (Returned (Err e), (x, TcpStream_drop stream handle))
      | Ok (Some e) => mret (Returned (Err e), (x, TcpStream_drop stream handle))
      | Ok None => mret (Returned (Ok stream), (x, handle))
      end
  end.

Definition TcpStream_connect_mio (will_wake : W → W → bool) (sys : E) (cx : W) (st : world)
    : outcome (awaited TcpStream (io_result TcpStream) * world) :=
  let '(x, handle) := st in
  '(r, handle) ← TcpStream_new sys handle;
  match r with
  | Err e => mret (Returned (Err e), (x, handle))
  | Ok stream => connect_mio_resume will_wake stream cx (x, handle)
  end.

Definition TcpStream_connect_addr (will_wake : W → W → bool) (addr : SocketAddr) (cx : W) (st : world)
    : outcome (awaited TcpStream (io_result TcpStream) * world) :=
  let '(x, handle) := st in
  let '(r, x) := tcp_connect addr x in
  match r with
  | Err e => mret (Returned (Err e), (x, handle))
  | Ok sys => TcpStream_connect_mio will_wake sys cx (x, handle)
  end.

(** The future of [connect]: not started, suspended in the attempt of one address
    with the ones that remain, or finished. *)
Inductive connect_future (A : Type) : Type :=
| Connect_start (addr : A)
| Connect_waiting (stream : TcpStream) (addrs : list SocketAddr) (last_err : option io_error)
| Connect_returned.
Arguments Connect_start {A}.
Arguments Connect_waiting {A}.
Arguments Connect_returned {A}.

(** The [for] loop of [connect] from the next address on. *)
Fixpoint connect_addrs {A} (will_wake : W → W → bool) (cx : W) (addrs : list SocketAddr)
    (last_err : option io_error) (st : world)
    : outcome (poll (io_result TcpStream) * connect_future A * world) :=
  match addrs with
  | [] => mret (Ready_ (Err (default no_address last_err)), Connect_returned, st)
  | addr :: addrs =>
      '(p, st) ← TcpStream_connect_addr will_wake addr cx st;
      match p with
      | Suspended stream => mret (Pending, Connect_waiting stream addrs last_err, st)
      | Returned (Ok stream) => mret (Ready_ (Ok stream), Connect_returned, st)
      | Returned (Err e) => connect_addrs will_wake cx addrs (Some e) st
      end
  end.

(** One poll of the future of [connect]; polling it after it returned panics. *)
Definition TcpStream_connect {A} `{ToSocketAddrs A} (will_wake : W → W → bool) (cx : W)
    (fut : connect_future A) (st : world)
    : outcome (poll (io_result TcpStream) * connect_future A * world) :=
  match fut with
  | Connect_start addr =>
      match to_socket_addrs addr with
      | Err e => mret (Ready_ (Err e), Connect_returned, st)
      | Ok addrs => connect_addrs will_wake cx addrs None st
      end
  | Connect_waiting stream addrs last_err =>
      '(p, st) ← connect_mio_resume will_wake stream cx st;
      match p with
      | Suspended stream => mret (Pending, Connect_waiting stream addrs last_err, st)
      | Returned (Ok stream) => mret (Ready_ (Ok stream), Connect_returned, st)
      | Returned (Err e) => connect_addrs will_wake cx addrs (Some e) st
      end
  | Connect_returned => Panic
  end.

(** *** Accessors *)

Definition TcpStream_local_addr (self : TcpStream) (x : X) : outcome (io_result SocketAddr) :=
  io ← PollEvented_deref (ts_io self); mret (tcp_local_addr io x).

Definition TcpStream_peer_addr (self : TcpStream) (x : X) : outcome (io_result SocketAddr) :=
  io ← PollEvented_deref (ts_io self); mret (tcp_peer_addr io x).

Definition TcpStream_take_error (self : TcpStream) (x : X)
    : outcome (io_result (option io_error) * X) :=
  io ← PollEvented_deref (ts_io self); mret (tcp_take_error io x).

Definition TcpStream_shutdown_std (self : TcpStream) (how : Shutdown) (x : X)
    : outcome (io_result unit * X) :=
  io ← PollEvented_deref (ts_io self); mret (tcp_shutdown io how x).

(** *** Waiting for readiness *)

(** [Poll::map_ok(|_| ())]. *)
Definition map_ok_unit {A} (p : poll (io_result A)) : poll (io_result unit) :=
  match p with
  | Ready_ (Ok _) => Ready_ (Ok ())
  | Ready_ (Err e) => Ready_ (Err e)
  | Pending => Pending
  end.

Definition TcpStream_poll_read_ready (will_wake : W → W → bool) (self : TcpStream) (cx : W) (slab : Po)
    : outcome (poll (io_result unit) * Po) :=
  '(p, slab) ← Registration_poll_read_ready will_wake (ts_registration self) cx slab;
  mret (map_ok_unit p, slab).

Definition TcpStream_poll_write_ready (will_wake : W → W → bool) (self : TcpStream) (cx : W) (slab : Po)
    : outcome (poll (io_result unit) * Po) :=
  '(p, slab) ← Registration_poll_write_ready will_wake (ts_registration self) cx slab;
  mret (map_ok_unit p, slab).

(** *** Reading *)

(** The body of the [loop] of [poll_peek]; the state holds the buffer. *)
Definition poll_peek_turn (fuel : nat) (will_wake : W → W → bool) (self : TcpStream) (cx : W)
    (st : list Z * X * Po)
    : outcome (ctl (list Z * X * Po) (poll (io_result Z) * (list Z * X) * Po)) :=
  let '(bx, slab) := st in
  '(p, slab) ← Registration_poll_read_ready will_wake (ts_registration self) cx slab;
  match p with
  | Pending => mret (Break (Pending, bx, slab))
  | Ready_ (Err e) => mret (Break (Ready_ (Err e), bx, slab))
  | Ready_ (Ok ev) =>
      io ← PollEvented_deref (ts_io self);
      let '(r, bx, slab) := tcp_peek io bx slab in
      match r with
      | Ok ret => mret (Break (Ready_ (Ok ret), bx, slab))
      | Err e =>
          if decide (err_kind e = WouldBlock) then
            slab ← Registration_clear_readiness fuel (ts_registration self) ev slab;
            mret (Continue (bx, slab))
          else mret (Break (Ready_ (Err e), bx, slab))
      end
  end.

Definition TcpStream_poll_peek (fuel : nat) (will_wake : W → W → bool) (self : TcpStream) (cx : W)
    (buf : list Z) (x : X) (slab : Po) : outcome (poll (io_result Z) * (list Z * X) * Po) :=
  loop fuel (poll_peek_turn fuel will_wake self cx) (buf, x, slab).

(** One poll of the future of [peek]. *)
Definition TcpStream_peek (fuel : nat) (self : TcpStream) (cx : W) (fut : Readiness I) (n : node)
    (buf : list Z) (x : X) (slab : Po)
    : outcome (poll (io_result Z) * (Readiness I * node) * (list Z * X) * Po) :=
  io ← PollEvented_deref (ts_io self);
  Registration_async_io_poll (tcp_peek io) fuel (ts_registration self) cx INTEREST_READABLE
    fut n (buf, x) slab.

Definition TcpStream_try_read (fuel : nat) (self : TcpStream) (buf : list Z) (x : X) (slab : Po)
    : outcome (io_result Z * (list Z * X) * Po) :=
  io ← PollEvented_deref (ts_io self);
  Registration_try_io (tcp_read io) fuel (ts_registration self) INTEREST_READABLE (buf, x) slab.

Definition TcpStream_try_read_vectored (fuel : nat) (self : TcpStream) (bufs : list (list Z)) (x : X)
    (slab : Po) : outcome (io_result Z * (list (list Z) * X) * Po) :=
  io ← PollEvented_deref (ts_io self);
  Registration_try_io (tcp_read_vectored io) fuel (ts_registration self) INTEREST_READABLE
    (bufs, x) slab.

Definition TcpStream_poll_read_priv (fuel : nat) (will_wake : W → W → bool) (self : TcpStream) (cx : W)
    (buf : list Z) (x : X) (slab : Po) : outcome (poll (io_result Z) * (list Z * X) * Po) :=
  PollEvented_poll_read tcp_read fuel will_wake (ts_io self) cx (buf, x) slab.

(** [impl AsyncRead]. *)
Definition TcpStream_poll_read (fuel : nat) (will_wake : W → W → bool) (self : TcpStream) (cx : W)
    (buf : list Z) (x : X) (slab : Po) : outcome (poll (io_result Z) * (list Z * X) * Po) :=
  TcpStream_poll_read_priv fuel will_wake self cx buf x slab.

(** *** Writing *)

Definition TcpStream_try_write (fuel : nat) (self : TcpStream) (buf : list Z) (x : X) (slab : Po)
    : outcome (io_result Z * X * Po) :=
  io ← PollEvented_deref (ts_io self);
  Registration_try_io (tcp_write buf io) fuel (ts_registration self) INTEREST_WRITABLE x slab.

Definition TcpStream_try_write_vectored (fuel : nat) (self : TcpStream) (bufs : list (list Z)) (x : X)
    (slab : Po) : outcome (io_result Z * X * Po) :=
  io ← PollEvented_deref (ts_io self);
  Registration_try_io (tcp_write_vectored bufs io) fuel (ts_registration self) INTEREST_WRITABLE x slab.

Definition TcpStream_poll_write_priv (fuel : nat) (will_wake : W → W → bool) (windows : bool)
    (self : TcpStream) (cx : W) (buf : list Z) (x : X) (slab : Po)
    : outcome (poll (io_result Z) * X * Po) :=
  PollEvented_poll_write (tcp_write buf) fuel will_wake windows (Z.of_nat (length buf)) (ts_io self)
    cx x slab.

Definition TcpStream_poll_write_vectored_priv (fuel : nat) (will_wake : W → W → bool)
    (self : TcpStream) (cx : W) (bufs : list (list Z)) (x : X) (slab : Po)
    : outcome (poll (io_result Z) * X * Po) :=
  PollEvented_poll_write_vectored (tcp_write_vectored bufs) fuel will_wake (ts_io self) cx x slab.

(** [impl AsyncWrite]. *)
Definition TcpStream_poll_write (fuel : nat) (will_wake : W → W → bool) (windows : bool)
    (self : TcpStream) (cx : W) (buf : list Z) (x : X) (slab : Po)
    : outcome (poll (io_result Z) * X * Po) :=
  TcpStream_poll_write_priv fuel will_wake windows self cx buf x slab.

Definition TcpStream_poll_write_vectored (fuel : nat) (will_wake : W → W → bool)
    (self : TcpStream) (cx : W) (bufs : list (list Z)) (x : X) (slab : Po)
    : outcome (poll (io_result Z) * X * Po) :=
  TcpStream_poll_write_vectored_priv fuel will_wake self cx bufs x slab.

Definition TcpStream_poll_flush (self : TcpStream) : poll (io_result unit) := Ready_ (Ok ()).

Definition TcpStream_poll_close (self : TcpStream) (x : X) : outcome (poll (io_result unit) * X) :=
  '(r, x) ← TcpStream_shutdown_std self Shutdown_Write x;
  match r with
  | Err e => mret (Ready_ (Err e), x)
  | Ok _ => mret (Ready_ (Ok ()), x)
  end.

Definition TcpStream_try_io {A} (fuel : nat) (self : TcpStream) (interest : I)
    (f : X → Po → io_result A * X * Po) (x : X) (slab : Po) : outcome (io_result A * X * Po) :=
  io ← PollEvented_deref (ts_io self);
  Registration_try_io (tcp_try_io A io f) fuel (ts_registration self) interest x slab.

(** *** Listeners *)

Definition TcpListener_new (listener : E) (handle : Handle R K Po)
    : outcome (io_result TcpListener * Handle R K Po) :=
  '(r, handle) ← PollEvented_new listener (Some handle);
  mret (match r with Ok io => Ok (mkTcpListener io) | Err e => Err e end, handle).

Definition TcpListener_try_from (stream : Std) (handle : Handle R K Po)
    : outcome (io_result TcpListener * Handle R K Po) :=
  TcpListener_new (tcp_from_std stream) handle.

Definition TcpListener_bind_addr (addr : SocketAddr) (st : world)
    : outcome (io_result TcpListener * world) :=
  let '(x, handle) := st in
  let '(r, x) := tcp_bind addr x in
  match r with
  | Err e => mret (Err e, (x, handle))
  | Ok listener =>
      '(r, handle) ← TcpListener_new listener handle;
      mret (r, (x, handle))
  end.

Definition TcpListener_bind {A} `{ToSocketAddrs A} (addr : A) (st : world)
    : outcome (io_result TcpListener * world) :=
  match to_socket_addrs addr with
  | Err e => mret (Err e, st)
  | Ok addrs => try_each TcpListener_bind_addr addrs None st
  end.

Definition TcpListener_local_addr (self : TcpListener) (x : X) : outcome (io_result SocketAddr) :=
  io ← PollEvented_deref (tl_io self); mret (tcp_local_addr io x).

(** One poll of the future of [accept]: the [async_io] future it awaits, and the
    construction of the stream once that resolves. *)
Definition TcpListener_accept (fuel : nat) (self : TcpListener) (cx : W) (fut : Readiness I) (n : node)
    (st : world)
    : outcome (poll (io_result (TcpStream * SocketAddr)) * (Readiness I * node) * world) :=
  let '(x, handle) := st in
  io ← PollEvented_deref (tl_io self);
  '(p, fn, x, slab) ← Registration_async_io_poll (tcp_accept io) fuel (pe_registration (tl_io self)) cx
                        INTEREST_READABLE fut n x (h_slab handle);
  let handle := with_slab slab handle in
  match p with
  | Pending => mret (Pending, fn, (x, handle))
  | Ready_ (Err e) => mret (Ready_ (Err e), fn, (x, handle))
  | Ready_ (Ok (mio, addr)) =>
      '(r, handle) ← TcpStream_new mio handle;
      match r with
      | Err e => mret (Ready_ (Err e), fn, (x, handle))
      | Ok stream => mret (Ready_ (Ok (stream, addr)), fn, (x, handle))
      end
  end.
End tcp.

Arguments TcpStream : clear implicits.
Arguments TcpListener : clear implicits.
Arguments connect_future : clear implicits.
Arguments Connect_start {E A}.
Arguments Connect_waiting {E A}.
Arguments Connect_returned {E A}.

(** ** Connecting: the slots, the wake-ups and the order of the attempts *)

Section connect.
Context {Q R K E Ev L C W I Po X Std : Type}.
Context `{Mio Q R K E Ev I, PinListOps L C W I, MioInterest I, !Pool Po (ScheduledIo L W),
  !PoolLaws Po L C W I, !MioTcp E Std X Po}.
Context (will_wake : W → W → bool) (cx : W).
Implicit Types (V : gmap Z (ScheduledIo L W)) (s : TcpStream E) (h : Handle R K Po).

(** The address of the slot of a stream. *)
Definition stream_address s : Z := pool_address (Po := Po) (reg_key (pe_registration (ts_io s))).

(** The slab holds the slots of [V] and one more, which belongs to the stream. *)
Definition owns V s h (v : ScheduledIo L W) : Prop :=
  is_Some (pe_io (ts_io s)) ∧ V !! stream_address s = None ∧
  pool_view (h_slab h) = <[stream_address s := v]> V ∧ word_ok (sio_readiness v).

(** A waker that wakes the polling task is stored for the write direction. *)
Definition will_be_woken (v : ScheduledIo L W) : Prop :=
  ∃ w, slot_of Write_ (sio_waiters v) = Some w ∧ (w = cx ∨ will_wake w cx = true).

Lemma owns_get V s h v : owns V s h v → pool_get (reg_key (pe_registration (ts_io s))) (h_slab h) = Some v.
Proof. intros (_ & _ & Hv & _). rewrite pool_get_view, Hv. apply lookup_insert_eq. Qed.

Lemma owns_write V s h v v' :
  owns V s h v → word_ok (sio_readiness v') →
  owns V s (with_slab (pool_write (reg_key (pe_registration (ts_io s))) v' (h_slab h)) h) v'.
Proof.
  intros Ho Hok. pose proof (owns_get _ _ _ _ Ho) as Hg. destruct Ho as (Hio & Hn & Hv & _).
  split_and!; [done|done| |done]. cbn. rewrite pool_write_view by by rewrite Hg.
  rewrite Hv. apply insert_insert_eq.
Qed.

Lemma owns_drop V s h v : owns V s h v → pool_view (h_slab (TcpStream_drop s h)) = V.
Proof.
  intros ([io Hio] & Hn & Hv & _). unfold TcpStream_drop, PollEvented_drop, Registration_drop.
  rewrite Hio. unfold Registration_deregister, Handle_deregister_source.
  destruct (mio_deregister io (h_registry h)) as [[r io'] reg]. cbn.
  rewrite pool_clear_view, Hv. by rewrite delete_insert_id.
Qed.

(** The registry accepts every source. *)
Definition registry_accepts : Prop :=
  ∀ (io : E) token (i : I) (r : R), (mio_register io token i r).1.1 = Ok ().

(** The registry refuses this source with this error. *)
Definition registry_refuses (io : E) h (e : io_error) : Prop :=
  ∃ token, (mio_register io token (interest_add INTEREST_READABLE INTEREST_WRITABLE)
              (h_registry h)).1.1 = Err e.

(** One slot more, which no stream owns. *)
Definition slot_lost V V' : Prop := ∃ a v, V !! a = None ∧ V' = <[a := v]> V.

(** How a stream can fail to be made: without a free slot nothing changes; when
    the registry refuses the source, its slot stays allocated. *)
Definition not_made (io : E) h (e : io_error) h' : Prop :=
  (h' = h ∧ pool_create (h_slab h) = None) ∨
  (registry_refuses io h e ∧ slot_lost (pool_view (h_slab h)) (pool_view (h_slab h'))).

Lemma stream_new_cases io h :
  ∃ r h', TcpStream_new io h = Done (r, h') ∧
  match r with
  | Ok s => ∃ v, owns (pool_view (h_slab h)) s h' v
  | Err e => not_made io h e h'
  end.
Proof.
  unfold TcpStream_new, PollEvented_new, PollEvented_new_with_interest. cbn [unwrap].
  unfold PollEvented_new_with_interest_and_handle, Registration_new_with_interest_and_handle.
  cbn [mbind outcome_bind].
  destruct (pool_create (h_slab h)) as [[key p]|] eqn:Hc.
  - destruct (add_source_run h io (interest_add INTEREST_READABLE INTEREST_WRITABLE) key p Hc)
      as (v & Hk & Hn & Hv & Hok & Hrun).
    destruct (mio_register _ _ _ _) as [[[[]|e] io'] reg] eqn:Hreg; rewrite Hrun; cbn;
      do 2 eexists; (split; [done|]).
    + exists v. unfold owns, stream_address, pool_address. cbn.
      rewrite Z.mod_small by done. split_and!; [by eexists|done|exact Hv|done..].
    + right. split; [eexists; by rewrite Hreg|]. by exists key, v.
  - unfold Handle_add_source, Handle_slab_entry. rewrite Hc. cbn.
    do 2 eexists. split; [done|]. by left.
Qed.

Lemma slot_lost_subseteq V V' : slot_lost V V' → V ⊆ V' ∧ size V' = S (size V).
Proof.
  intros (a & v & Hn & ->). split; [by apply insert_subseteq|by apply map_size_insert_None].
Qed.

Lemma accepts_not_refused io h e : registry_accepts → ¬ registry_refuses io h e.
Proof. intros Hacc [token Hr]. by rewrite Hacc in Hr. Qed.

(** The slots after an attempt that failed. *)
Definition maybe_lost V V' : Prop := V' = V ∨ (¬ registry_accepts ∧ slot_lost V V').

(** What one step of an attempt leaves behind; [failed] holds of the slots when it
    failed. *)
Definition attempt_post V (failed : gmap Z (ScheduledIo L W) → Prop)
    (p : awaited (TcpStream E) (io_result (TcpStream E))) (st : X * Handle R K Po) : Prop :=
  match p with
  | Suspended s => ∃ v, owns V s st.2 v ∧ will_be_woken v
  | Returned (Ok s) => ∃ v, owns V s st.2 v
  | Returned (Err _) => failed (pool_view (h_slab st.2))
  end.

Lemma connect_mio_resume_post V s v x h :
  owns V s h v →
  ∃ p st, connect_mio_resume will_wake s cx (x, h) = Done (p, st) ∧ attempt_post V (eq V) p st.
Proof.
  intros Ho. pose proof (owns_get _ _ _ _ Ho) as Hg. pose proof Ho as ([io Hio] & _ & _ & Hok).
  unfold connect_mio_resume, Registration_poll_write_ready.
  rewrite (poll_ready_spec _ _ _ _ _ _ Hg Hok). cbn [mbind outcome_bind].
  destruct (Ready_is_empty (flags_for Write_ (sio_readiness v))).
  - do 2 eexists. split; [done|]. exists (registered will_wake cx Write_ v).
    split; [by apply (owns_write _ _ _ v)|]. apply store_waker_spec.
  - pose proof (owns_write _ _ _ _ v Ho Hok) as Hw.
    unfold PollEvented_deref. rewrite Hio. cbn [unwrap mbind outcome_bind].
    destruct (tcp_take_error io x) as [[[e|]|e] x']; do 2 eexists; (split; [done|]); cbn.
    + symmetry. by apply (owns_drop _ _ _ v).
    + by exists v.
    + symmetry. by apply (owns_drop _ _ _ v).
Qed.

Lemma connect_addr_post addr x h :
  ∃ p st, TcpStream_connect_addr will_wake addr cx (x, h) = Done (p, st) ∧
    attempt_post (pool_view (h_slab h)) (maybe_lost (pool_view (h_slab h))) p st.
Proof.
  unfold TcpStream_connect_addr. destruct (tcp_connect addr x) as [[sys|e] x'].
  2: { do 2 eexists. split; [done|]. by left. }
  unfold TcpStream_connect_mio.
  destruct (stream_new_cases sys h) as ([s|e] & h' & -> & Hcase); cbn [mbind outcome_bind].
  - destruct Hcase as [v Ho].
    destruct (connect_mio_resume_post _ s v x' h' Ho) as (p & st & -> & Hp). do 2 eexists.
    split; [done|]. destruct p as [|[]]; cbn in *; [done..|]. by left.
  - do 2 eexists. split; [done|]. destruct Hcase as [[-> _]|[Href Hlost]]; [by left|].
    right. split; [|done]. intros Hacc. by eapply accepts_not_refused.
Qed.

(** The future of [connect] and the slab fit together: [V] are the slots of
    everything else. *)
Definition connect_inv {A} V (fut : connect_future E A) (st : X * Handle R K Po) : Prop :=
  match fut with
  | Connect_start _ => pool_view (h_slab st.2) = V
  | Connect_waiting s _ _ => ∃ v, owns V s st.2 v
  | Connect_returned => False
  end.

(** The addresses that remain to be tried. *)
Definition remaining {A} `{ToSocketAddrs A} (fut : connect_future E A) : list SocketAddr :=
  match fut with
  | Connect_start addr => match to_socket_addrs addr with Ok addrs => addrs | Err _ => [] end
  | Connect_waiting _ addrs _ => addrs
  | Connect_returned => []
  end.

(** [V'] are the slots that do not belong to the stream of the result: those of
    [V], and one more for some of the [n] attempts if the registry refused them. *)
Definition connect_post {A} `{ToSocketAddrs A} V (n : nat) (p : poll (io_result (TcpStream E)))
    (fut : connect_future E A) (st : X * Handle R K Po) : Prop :=
  ∃ V', V ⊆ V' ∧ (size V' + length (remaining fut) ≤ size V + n)%nat ∧ (registry_accepts → V' = V) ∧
  match p with
  | Pending => connect_inv V' fut st ∧
      ∃ s addrs last_err v, fut = Connect_waiting s addrs last_err ∧ owns V' s st.2 v ∧ will_be_woken v
  | Ready_ (Ok s) => ∃ v, owns V' s st.2 v
  | Ready_ (Err _) => pool_view (h_slab st.2) = V'
  end.

Lemma connect_post_lost {A} `{ToSocketAddrs A} V V1 n p (fut : connect_future E A) st :
  maybe_lost V V1 →
  connect_post V1 n p fut st → connect_post V (S n) p fut st.
Proof.
  intros Hlost (V' & Hsub & Hsize & Hacc & Hp). exists V'.
  destruct Hlost as [->|[Hna [Hs Hn]%slot_lost_subseteq]].
  - split_and!; [done|lia|done|done].
  - split_and!; [by etrans|lia|done|done].
Qed.

Lemma connect_addrs_post {A} `{ToSocketAddrs A} addrs : ∀ last_err x h,
  ∃ p fut st, connect_addrs (A := A) will_wake cx addrs last_err (x, h) = Done (p, fut, st) ∧
    connect_post (pool_view (h_slab h)) (length addrs) p fut st.
Proof.
  induction addrs as [|addr addrs IH]; intros last_err x h.
  { do 3 eexists. split; [done|]. eexists. split_and!; [done|by cbn; lia|done|done]. }
  cbn [connect_addrs].
  destruct (connect_addr_post addr x h) as (p & [x' h'] & -> & Hpost). cbn [mbind outcome_bind].
  destruct p as [s|[s|e]]; cbn in Hpost.
  - destruct Hpost as (v & Ho & Hw). do 3 eexists. split; [done|]. eexists.
    split_and!; [done|by cbn; lia|done|by exists v|]. naive_solver.
  - do 3 eexists. split; [done|]. eexists. split_and!; [done|by cbn; lia|done|done].
  - destruct (IH (Some e) x' h') as (p & fut & st & -> & Hp). do 3 eexists. split; [done|].
    by eapply connect_post_lost.
Qed.

(** C28: [connect] owns at most one slot of the slab.  Every poll of its future
    returns; while it is [Pending] it holds the slot of the one stream it waits
    for, and a waker for the task is stored there; when it yields a stream, that
    stream owns its slot.  The other slots are the ones from before the poll and,
    only if the registry refused a source, one lost slot for each refused
    attempt, at most one per address that was tried; with a registry that accepts
    every source no slot is lost, also after any number of failed attempts. *)
Theorem connect_owns_one_slot {A} `{ToSocketAddrs A} V (fut : connect_future E A) st :
  connect_inv V fut st →
  ∃ p fut' st', TcpStream_connect will_wake cx fut st = Done (p, fut', st') ∧
    connect_post V (length (remaining fut)) p fut' st'.
Proof.
  intros Hinv. destruct st as [x h]. destruct fut as [addr|s addrs last_err|]; cbn in Hinv; [| |done].
  - subst V. cbn [TcpStream_connect remaining].
    destruct (to_socket_addrs addr) as [addrs|e].
    + apply connect_addrs_post.
    + do 3 eexists. split; [done|]. eexists. split_and!; [done|by cbn; lia|done|done].
  - destruct Hinv as (v & Ho). cbn [TcpStream_connect remaining].
    destruct (connect_mio_resume_post V s v x h Ho) as (p & [x' h'] & -> & Hpost). cbn [mbind outcome_bind].
    destruct p as [s'|[s'|e]]; cbn in Hpost.
    + destruct Hpost as (v' & Ho' & Hw). do 3 eexists. split; [done|]. eexists.
      split_and!; [done|by cbn; lia|done|by exists v'|]. naive_solver.
    + do 3 eexists. split; [done|]. eexists. split_and!; [done|by cbn; lia|done|done].
    + rewrite Hpost. apply connect_addrs_post.
Qed.

(** *** The attempts of a future: the one it waits for, then the addresses left *)

Inductive attempt : Type :=
| Begin (addr : SocketAddr)
| Resume (s : TcpStream E).

Definition run_attempt (a : attempt) (st : X * Handle R K Po)
    : outcome (awaited (TcpStream E) (io_result (TcpStream E)) * (X * Handle R K Po)) :=
  match a with
  | Begin addr => TcpStream_connect_addr will_wake addr cx st
  | Resume s => connect_mio_resume will_wake s cx st
  end.

Definition attempt_fails (a : attempt) (st : X * Handle R K Po) (e : io_error)
    (st' : X * Handle R K Po) : Prop :=
  run_attempt a st = Done (Returned (Err e), st').

Definition attempts {A} `{ToSocketAddrs A} (fut : connect_future E A) : list attempt :=
  match fut with
  | Connect_waiting s addrs _ => Resume s :: (Begin <$> addrs)
  | _ => Begin <$> remaining fut
  end.

(** The future connects to [addrs], and the attempts of the first of them failed
    with [errs]. *)
Definition connect_at {A} `{ToSocketAddrs A} (addrs : list SocketAddr) (errs : list io_error)
    (fut : connect_future E A) : Prop :=
  match fut with
  | Connect_start a => to_socket_addrs a = Ok addrs ∧ errs = []
  | Connect_waiting s later last_err =>
      last_err = last errs ∧ (length errs < length addrs)%nat ∧ later = drop (S (length errs)) addrs
  | Connect_returned => False
  end.

(** How a poll ends, when [new] are the errors of the attempts that failed in it
    and [st1] is the world after those. *)
Definition poll_ends {A} `{ToSocketAddrs A} (addrs : list SocketAddr) (errs : list io_error)
    (left : list attempt) (st1 : X * Handle R K Po)
    (p : poll (io_result (TcpStream E))) (fut : connect_future E A) (st : X * Handle R K Po) : Prop :=
  match left with
  | [] => st = st1 ∧ length errs = length addrs ∧ p = Ready_ (Err (default no_address (last errs)))
  | a :: _ =>
      ∃ q, run_attempt a st1 = Done (q, st) ∧
      match q with
      | Suspended _ => p = Pending ∧ connect_at addrs errs fut
      | Returned (Ok s) => p = Ready_ (Ok s)
      | Returned (Err _) => False
      end
  end.

Lemma connect_addrs_order {A} `{ToSocketAddrs A} addrs later : ∀ errs st,
  later = drop (length errs) addrs → (length errs ≤ length addrs)%nat →
  ∃ new st1 p fut st',
    connect_addrs (A := A) will_wake cx later (last errs) st = Done (p, fut, st') ∧
    all_fail attempt_fails (take (length new) (Begin <$> later)) st new st1 ∧
    poll_ends addrs (errs ++ new) (drop (length new) (Begin <$> later)) st1 p fut st'.
Proof.
  induction later as [|a later IH]; intros errs st Hlater Hle; cbn [connect_addrs].
  { exists [], st. do 3 eexists. split_and!; [done|apply fail_nil|]. cbn.
    apply (f_equal length) in Hlater. rewrite length_drop in Hlater. cbn in Hlater.
    rewrite app_nil_r. split_and!; [done|lia|done]. }
  assert (later = drop (S (length errs)) addrs ∧ length errs < length addrs)%nat as [Htail Hlt].
  { pose proof (f_equal length Hlater) as Hlen. rewrite length_drop in Hlen. cbn in Hlen.
    split; [|lia]. by rewrite <- Nat.add_1_r, <- drop_drop, <- Hlater. }
  destruct st as [x h]. destruct (connect_addr_post a x h) as (q & st2 & Ha & _).
  destruct q as [s|[s|e]].
  1,2: exists [], (x, h); rewrite Ha; cbn; do 3 eexists; (split_and!; [done|apply fail_nil|]);
    rewrite app_nil_r; eexists; (split; [exact Ha|]); done.
  destruct (IH (errs ++ [e]) st2) as (new & st1 & p & fut & st' & Hrun & Hf & Hend).
  { rewrite length_app, Nat.add_1_r. done. }
  { rewrite length_app. cbn. lia. }
  rewrite last_snoc in Hrun. rewrite <- app_assoc in Hend.
  exists (e :: new), st1, p, fut, st'. rewrite Ha. cbn [mbind outcome_bind].
  split_and!; [done|by eapply fail_cons|done].
Qed.

(** C40: [connect] tries the addresses in order and stops at the first that works.
    At every poll, when the attempts of the first addresses have failed with
    [errs]: the attempt it waits for and the next ones fail, in order, with
    errors [new]; then either an attempt yields a stream, which is returned, or
    one suspends, and the future waits for it with the addresses behind it and the
    errors remembered, in both cases without any attempt of a later address; or
    no address is left, and the error of the very last attempt is returned,
    [InvalidInput] if the list was empty. *)
Theorem connect_tries_in_order {A} `{ToSocketAddrs A} V addrs errs (fut : connect_future E A) st :
  connect_inv V fut st → connect_at addrs errs fut →
  ∃ new st1 p fut' st',
    TcpStream_connect will_wake cx fut st = Done (p, fut', st') ∧
    all_fail attempt_fails (take (length new) (attempts fut)) st new st1 ∧
    poll_ends addrs (errs ++ new) (drop (length new) (attempts fut)) st1 p fut' st'.
Proof.
  intros Hinv Hat. destruct fut as [addr|s later last_err|]; [| |done].
  - destruct Hat as [Hok ->]. unfold attempts, remaining. cbn [TcpStream_connect]. rewrite Hok.
    apply (connect_addrs_order addrs addrs []); [done|cbn; lia].
  - destruct Hat as (-> & Hlt & Hlater). destruct Hinv as [v Ho]. destruct st as [x h].
    cbn [TcpStream_connect attempts].
    destruct (connect_mio_resume_post V s v x h Ho) as (q & st2 & Hs & _).
    rewrite Hs. cbn [mbind outcome_bind]. destruct q as [s'|[s'|e]].
    1,2: exists [], (x, h); do 3 eexists; (split_and!; [done|apply fail_nil|]);
      rewrite app_nil_r; eexists; (split; [exact Hs|]); done.
    destruct (connect_addrs_order (A := A) addrs later (errs ++ [e]) st2)
      as (new & st1 & p & fut & st' & Hrun & Hf & Hend).
    { by rewrite length_app, Nat.add_1_r. }
    { rewrite length_app. cbn. lia. }
    rewrite last_snoc in Hrun. rewrite <- app_assoc in Hend.
    exists (e :: new), st1, p, fut, st'. split_and!; [done|by eapply fail_cons|done].
Qed.

Lemma listener_bind_addr_returns addr st :
  ∃ r, TcpListener_bind_addr addr st = Done r.
Proof.
  destruct st as [x h]. unfold TcpListener_bind_addr, TcpListener_new.
  destruct (tcp_bind addr x) as [[io|e] x']; [|by eexists].
  destruct (stream_new_cases io h) as (r & h' & Hnew & _). unfold TcpStream_new in Hnew.
  apply outcome_bind_done in Hnew as ([r' h''] & -> & _). by eexists.
Qed.

(** [TcpListener::bind] always returns: an address that does not resolve is an
    error; otherwise the addresses are bound in order until one works, and the
    later ones are not touched; when none works, the error of the last one is
    returned, [InvalidInput] if there was none. *)
Theorem listener_bind_in_order {A} `{ToSocketAddrs A} (addr : A) st :
  ∃ r st', TcpListener_bind addr st = Done (r, st') ∧
  match to_socket_addrs addr with
  | Err e => r = Err e ∧ st' = st
  | Ok addrs =>
      ∃ errs st1,
        all_fail (λ a st e st', TcpListener_bind_addr a st = Done (Err e, st'))
          (take (length errs) addrs) st errs st1 ∧
        match drop (length errs) addrs with
        | [] => r = Err (default no_address (last errs)) ∧ st' = st1
        | a :: _ => TcpListener_bind_addr a st1 = Done (r, st') ∧ ∃ l, r = Ok l
        end
  end.
Proof.
  unfold TcpListener_bind. destruct (to_socket_addrs addr) as [addrs|e]; [|by do 2 eexists].
  destruct (try_each_run TcpListener_bind_addr listener_bind_addr_returns addrs [] st)
    as (new & st1 & r & st' & Hrun & Hf & Hr).
  exists r, st'. split; [exact Hrun|]. by exists new, st1.
Qed.
End connect.

(** ** Accepting *)

Section accept.
Context {Q R K E Ev L C W I Po X Std : Type}.
Context `{Mio Q R K E Ev I, PinListOps L C W I, !PinListLaws L C W I, MioInterest I, !MioInterestLaws I,
  !Pool Po (ScheduledIo L W), !PoolLaws Po L C W I, !MioTcp E Std X Po}.
Context (cx : W).
Implicit Types (v : ScheduledIo L W) (h : Handle R K Po) (l : TcpListener E).

End accept.

(** ** Example *)

Module TcpRef.
Import MioRef PinListRef DriverRef.

(** Connecting to port 80 is refused at once, and a connection that was started
    turns out to have failed; the world counts the calls. *)
#[export] Instance tcp_ops : MioTcp nat unit nat pool := {|
  tcp_connect a x :=
    match a with
    | SocketAddr_V4 v => if decide (v4_port v = 80) then (Err (error_of_kind Other), S x)
                         else (Ok x, S x)
    | SocketAddr_V6 _ => (Err (error_of_kind InvalidInput), S x)
    end;
  tcp_bind _ x := (Ok x, S x);
  tcp_from_std _ := 0%nat;
  tcp_local_addr _ _ := Ok (local 1);
  tcp_peer_addr _ _ := Ok (local 2);
  tcp_take_error _ x := (Ok (Some (error_of_kind Other)), S x);
  tcp_shutdown _ _ x := (Ok (), S x);
  tcp_accept _ x p := (Ok (x, local 2), S x, p);
  tcp_peek _ bx p := (Ok 0, bx, p);
  tcp_read _ bx p := (Ok 0, bx, p);
  tcp_read_vectored _ bx p := (Ok 0, bx, p);
  tcp_write buf _ x p := (Ok (Z.of_nat (length buf)), x, p);
  tcp_write_vectored _ _ x p := (Ok 0, x, p);
  tcp_try_io _ _ f x p := f x p;
|}.

(** A connection that is being made on a slot that became writable. *)
Definition connecting : TcpStream nat := mkTcpStream (mkPollEvented (Some 3%nat) RegistrationRef.self).

Definition connecting_world : nat * Handle (list (nat * Z)) nat pool :=
  (0%nat, mkHandle [(3%nat, 0)] (RegistrationRef.slab_with 2 5) 0%nat).
End TcpRef.

Import MioRef PinListRef DriverRef RegistrationRef TcpRef.

(** The connection failed: its slot is given back, the next address is refused and
    the last one waits in a slot of its own. *)
Lemma connect_owns_one_slot_witness :
  ∃ p fut st,
    TcpStream_connect (λ _ _, false) 8%nat
      (Connect_waiting connecting [local 80; local 81] None : connect_future nat (list SocketAddr))
      connecting_world = Done (p, fut, st) ∧
    p = Pending ∧ connect_post (λ _ _, false) 8%nat ∅ 2 p fut st.
Proof.
  destruct (connect_owns_one_slot (λ _ _, false) 8%nat ∅
    (Connect_waiting connecting [local 80; local 81] None : connect_future nat (list SocketAddr))
    connecting_world) as (p & fut & st & Hrun & Hpost).
  - exists (slot_with 2 5). split_and!; [by eexists|reflexivity|reflexivity|]. apply slot_with_ok; lia.
  - exists p, fut, st. split; [exact Hrun|]. split; [|exact Hpost].
    revert Hrun. vm_compute. by intros [= <- _ _].
Defined.

(** The connection that was started failed and so does the next address; the
    error of that last attempt is the one that is returned. *)
Lemma connect_tries_in_order_witness :
  ∃ new st1 p fut st,
    TcpStream_connect (λ _ _, false) 8%nat
      (Connect_waiting connecting [local 80] None : connect_future nat (list SocketAddr))
      connecting_world = Done (p, fut, st) ∧
    all_fail (attempt_fails (λ _ _, false) 8%nat)
      (take (length new) [Resume connecting; Begin (local 80)]) connecting_world new st1 ∧
    poll_ends (λ _ _, false) 8%nat [local 79; local 80] new
      (drop (length new) [Resume connecting; Begin (local 80)]) st1 p fut st.
Proof.
  apply (connect_tries_in_order (λ _ _, false) 8%nat ∅ [local 79; local 80] []
    (Connect_waiting connecting [local 80] None : connect_future nat (list SocketAddr))
    connecting_world).
  - exists (slot_with 2 5). split_and!; [by eexists|reflexivity|reflexivity|]. apply slot_with_ok; lia.
  - split_and!; [reflexivity|cbn; lia|reflexivity].
Defined.

(** A connection is waiting: the stream gets a slot of its own, and the listener
    stays readable. *)
Definition listening : TcpListener nat := mkTcpListener (mkPollEvented (Some 3%nat) RegistrationRef.self).

