(* ===== verification/Udp.v ===== *)
(** * Udp: datagram sockets (src/src/net/udp.rs)

    A [UdpSocket] is a [PollEvented] of a mio socket.  The calls of the socket are
    the class [MioUdp], with the conventions of [MioTcp]: the outside world [X], the
    buffer of a receiving call in the state of its closure, and the slab as the
    driver leaves it. *)

From Stdlib Require Import String.
From S2P Require Import Prelude Bits Ready PinList ScheduledIo IoDriver Registration PollEvented AsyncIo Net Tcp.

Local Open Scope Z_scope.

(** ** Interface *)

(** [mio::net::UdpSocket]. *)
Class MioUdp (E Std X Po : Type) : Type := {
  udp_bind : SocketAddr → X → io_result E * X;
  udp_from_std : Std → E;
  udp_connect : E → SocketAddr → X → io_result unit * X;
  udp_local_addr : E → X → io_result SocketAddr;
  udp_peer_addr : E → X → io_result SocketAddr;
  udp_send : list Z → E → X → Po → io_result Z * X * Po;
  udp_send_to : list Z → SocketAddr → E → X → Po → io_result Z * X * Po;
  udp_recv : E → list Z * X → Po → io_result Z * (list Z * X) * Po;
  udp_recv_from : E → list Z * X → Po → io_result (Z * SocketAddr) * (list Z * X) * Po;
  udp_peek_from : E → list Z * X → Po → io_result (Z * SocketAddr) * (list Z * X) * Po;
  udp_try_io : ∀ A, E → (X → Po → io_result A * X * Po) → X → Po → io_result A * X * Po;
}.

(** ** Definitions *)

Section udp.
Context {Q R K E Ev L C W I Po X Std : Type}.
Context `{Mio Q R K E Ev I, PinListOps L C W I, MioInterest I, !Pool Po (ScheduledIo L W),
  !MioUdp E Std X Po}.

Record UdpSocket : Type := mkUdpSocket { us_io : PollEvented E }.

Abbreviation world := (X * Handle R K Po)%type.
Abbreviation us_registration self := (pe_registration (us_io self)).

(** *** Construction *)

Definition UdpSocket_new (socket : E) (handle : Handle R K Po)
    : outcome (io_result UdpSocket * Handle R K Po) :=
  '(r, handle) ← PollEvented_new socket (Some handle);
  mret (match r with Ok io => Ok (mkUdpSocket io) | Err e => Err e end, handle).

Definition UdpSocket_bind_addr (addr : SocketAddr) (st : world)
    : outcome (io_result UdpSocket * world) :=
  let '(x, handle) := st in
  let '(r, x) := udp_bind addr x in
  match r with
  | Err e => mret (Err e, (x, handle))
  | Ok sys =>
      '(r, handle) ← UdpSocket_new sys handle;
      mret (r, (x, handle))
  end.

Definition UdpSocket_bind {A} `{ToSocketAddrs A} (addr : A) (st : world)
    : outcome (io_result UdpSocket * world) :=
  match to_socket_addrs addr with
  | Err e => mret (Err e, st)
  | Ok addrs => try_each UdpSocket_bind_addr addrs None st
  end.

Definition UdpSocket_from_std (socket : Std) (handle : Handle R K Po)
    : outcome (io_result UdpSocket * Handle R K Po) :=
  let io := udp_from_std socket in
  UdpSocket_new io handle.

Definition UdpSocket_try_from (stream : Std) (handle : Handle R K Po)
    : outcome (io_result UdpSocket * Handle R K Po) :=
  UdpSocket_from_std stream handle.

Definition UdpSocket_local_addr (self : UdpSocket) (x : X) : outcome (io_result SocketAddr) :=
  io ← PollEvented_deref (us_io self); mret (udp_local_addr io x).

Definition UdpSocket_peer_addr (self : UdpSocket) (x : X) : outcome (io_result SocketAddr) :=
  io ← PollEvented_deref (us_io self); mret (udp_peer_addr io x).

Definition UdpSocket_connect {A} `{ToSocketAddrs A} (self : UdpSocket) (addr : A) (x : X)
    : outcome (io_result unit * X) :=
  match to_socket_addrs addr with
  | Err e => mret (Err e, x)
  | Ok addrs =>
      try_each (λ addr x,
        io ← PollEvented_deref (us_io self);
        let '(r, x) := udp_connect io addr x in
        mret (match r with Ok _ => Ok () | Err e => Err e end, x)) addrs None x
  end.

(** *** Sending *)

Definition UdpSocket_poll_send_ready (will_wake : W → W → bool) (self : UdpSocket) (cx : W) (slab : Po)
    : outcome (poll (io_result unit) * Po) :=
  '(p, slab) ← Registration_poll_write_ready will_wake (us_registration self) cx slab;
  mret (map_ok_unit p, slab).

(** The polls of async functions take the state of the [async_io] future. *)
Definition UdpSocket_send (fuel : nat) (self : UdpSocket) (cx : W) (fut : Readiness I) (n : node)
    (buf : list Z) (x : X) (slab : Po) : outcome (poll (io_result Z) * (Readiness I * node) * X * Po) :=
  io ← PollEvented_deref (us_io self);
  Registration_async_io_poll (udp_send buf io) fuel (us_registration self) cx INTEREST_WRITABLE
    fut n x slab.

Definition UdpSocket_poll_send (fuel : nat) (will_wake : W → W → bool) (self : UdpSocket) (cx : W)
    (buf : list Z) (x : X) (slab : Po) : outcome (poll (io_result Z) * X * Po) :=
  io ← PollEvented_deref (us_io self);
  Registration_poll_write_io (udp_send buf io) fuel will_wake (us_registration self) cx x slab.

Definition UdpSocket_try_send (fuel : nat) (self : UdpSocket) (buf : list Z) (x : X) (slab : Po)
    : outcome (io_result Z * X * Po) :=
  io ← PollEvented_deref (us_io self);
  Registration_try_io (udp_send buf io) fuel (us_registration self) INTEREST_WRITABLE x slab.

Definition UdpSocket_send_to_addr (fuel : nat) (self : UdpSocket) (cx : W) (fut : Readiness I) (n : node)
    (buf : list Z) (target : SocketAddr) (x : X) (slab : Po)
    : outcome (poll (io_result Z) * (Readiness I * node) * X * Po) :=
  io ← PollEvented_deref (us_io self);
  Registration_async_io_poll (udp_send_to buf target io) fuel (us_registration self) cx
    INTEREST_WRITABLE fut n x slab.

(** The future of [send_to]: not started, or awaiting [send_to_addr]. *)
Inductive send_to_future (A : Type) : Type :=
| SendTo_start (target : A) (n : node)
| SendTo_waiting (target : SocketAddr) (fut : Readiness I) (n : node)
| SendTo_returned.
Arguments SendTo_start {A}.
Arguments SendTo_waiting {A}.
Arguments SendTo_returned {A}.

Definition no_target : io_error := mkIoError InvalidInput "no addresses to send data to".

Definition send_to_resume {A} (fuel : nat) (self : UdpSocket) (cx : W) (buf : list Z)
    (target : SocketAddr) (fut : Readiness I) (n : node) (x : X) (slab : Po)
    : outcome (poll (io_result Z) * send_to_future A * X * Po) :=
  '(p, (fut, n), x, slab) ← UdpSocket_send_to_addr fuel self cx fut n buf target x slab;
  mret (p, match p with Pending => SendTo_waiting target fut n | Ready_ _ => SendTo_returned end, x, slab).

Definition UdpSocket_send_to {A} `{ToSocketAddrs A} (fuel : nat) (self : UdpSocket) (cx : W)
    (buf : list Z) (fut : send_to_future A) (x : X) (slab : Po)
    : outcome (poll (io_result Z) * send_to_future A * X * Po) :=
  match fut with
  | SendTo_start target n =>
      match to_socket_addrs target with
      | Err e => mret (Ready_ (Err e), SendTo_returned, x, slab)
      | Ok addrs =>
          match head addrs with
          | Some target =>
              send_to_resume fuel self cx buf target (readiness_future INTEREST_WRITABLE n) (S n) x slab
          | None => mret (Ready_ (Err no_target), SendTo_returned, x, slab)
          end
      end
  | SendTo_waiting target fut n => send_to_resume fuel self cx buf target fut n x slab
  | SendTo_returned => Panic
  end.

Definition UdpSocket_poll_send_to (fuel : nat) (will_wake : W → W → bool) (self : UdpSocket) (cx : W)
    (buf : list Z) (target : SocketAddr) (x : X) (slab : Po) : outcome (poll (io_result Z) * X * Po) :=
  io ← PollEvented_deref (us_io self);
  Registration_poll_write_io (udp_send_to buf target io) fuel will_wake (us_registration self) cx x slab.

Definition UdpSocket_try_send_to (fuel : nat) (self : UdpSocket) (buf : list Z) (target : SocketAddr)
    (x : X) (slab : Po) : outcome (io_result Z * X * Po) :=
  io ← PollEvented_deref (us_io self);
  Registration_try_io (udp_send_to buf target io) fuel (us_registration self) INTEREST_WRITABLE x slab.

(** *** Receiving *)

Definition UdpSocket_poll_recv_ready (will_wake : W → W → bool) (self : UdpSocket) (cx : W) (slab : Po)
    : outcome (poll (io_result unit) * Po) :=
  '(p, slab) ← Registration_poll_read_ready will_wake (us_registration self) cx slab;
  mret (map_ok_unit p, slab).

Definition UdpSocket_recv (fuel : nat) (self : UdpSocket) (cx : W) (fut : Readiness I) (n : node)
    (buf : list Z) (x : X) (slab : Po)
    : outcome (poll (io_result Z) * (Readiness I * node) * (list Z * X) * Po) :=
  io ← PollEvented_deref (us_io self);
  Registration_async_io_poll (udp_recv io) fuel (us_registration self) cx INTEREST_READABLE
    fut n (buf, x) slab.

Definition UdpSocket_poll_recv (fuel : nat) (will_wake : W → W → bool) (self : UdpSocket) (cx : W)
    (buf : list Z) (x : X) (slab : Po) : outcome (poll (io_result Z) * (list Z * X) * Po) :=
  io ← PollEvented_deref (us_io self);
  Registration_poll_read_io (udp_recv io) fuel will_wake (us_registration self) cx (buf, x) slab.

Definition UdpSocket_try_recv (fuel : nat) (self : UdpSocket) (buf : list Z) (x : X) (slab : Po)
    : outcome (io_result Z * (list Z * X) * Po) :=
  io ← PollEvented_deref (us_io self);
  Registration_try_io (udp_recv io) fuel (us_registration self) INTEREST_READABLE (buf, x) slab.

Definition UdpSocket_recv_from (fuel : nat) (self : UdpSocket) (cx : W) (fut : Readiness I) (n : node)
    (buf : list Z) (x : X) (slab : Po)
    : outcome (poll (io_result (Z * SocketAddr)) * (Readiness I * node) * (list Z * X) * Po) :=
  io ← PollEvented_deref (us_io self);
  Registration_async_io_poll (udp_recv_from io) fuel (us_registration self) cx INTEREST_READABLE
    fut n (buf, x) slab.

Definition UdpSocket_poll_recv_from (fuel : nat) (will_wake : W → W → bool) (self : UdpSocket) (cx : W)
    (buf : list Z) (x : X) (slab : Po)
    : outcome (poll (io_result (Z * SocketAddr)) * (list Z * X) * Po) :=
  io ← PollEvented_deref (us_io self);
  Registration_poll_read_io (udp_recv_from io) fuel will_wake (us_registration self) cx (buf, x) slab.

Definition UdpSocket_try_recv_from (fuel : nat) (self : UdpSocket) (buf : list Z) (x : X) (slab : Po)
    : outcome (io_result (Z * SocketAddr) * (list Z * X) * Po) :=
  io ← PollEvented_deref (us_io self);
  Registration_try_io (udp_recv_from io) fuel (us_registration self) INTEREST_READABLE (buf, x) slab.

Definition UdpSocket_peek_from (fuel : nat) (self : UdpSocket) (cx : W) (fut : Readiness I) (n : node)
    (buf : list Z) (x : X) (slab : Po)
    : outcome (poll (io_result (Z * SocketAddr)) * (Readiness I * node) * (list Z * X) * Po) :=
  io ← PollEvented_deref (us_io self);
  Registration_async_io_poll (udp_peek_from io) fuel (us_registration self) cx INTEREST_READABLE
    fut n (buf, x) slab.

Definition UdpSocket_poll_peek_from (fuel : nat) (will_wake : W → W → bool) (self : UdpSocket) (cx : W)
    (buf : list Z) (x : X) (slab : Po)
    : outcome (poll (io_result (Z * SocketAddr)) * (list Z * X) * Po) :=
  io ← PollEvented_deref (us_io self);
  Registration_poll_read_io (udp_peek_from io) fuel will_wake (us_registration self) cx (buf, x) slab.

Definition UdpSocket_try_io {A} (fuel : nat) (self : UdpSocket) (interest : I)
    (f : X → Po → io_result A * X * Po) (x : X) (slab : Po) : outcome (io_result A * X * Po) :=
  io ← PollEvented_deref (us_io self);
  Registration_try_io (udp_try_io A io f) fuel (us_registration self) interest x slab.
End udp.

Arguments UdpSocket : clear implicits.

(** ** The three ways to send agree *)

Section agree.
Context {E L C W I Po X Std : Type}.
Context `{PinListOps L C W I, !PinListLaws L C W I, MioInterest I, !MioInterestLaws I,
  !Pool Po (ScheduledIo L W), !PoolLaws Po L C W I, !MioUdp E Std X Po}.
Implicit Types (v : ScheduledIo L W) (p : Po) (self : UdpSocket E).

(** An answer that is passed on to the caller. *)
Definition final {A} (r : io_result A) : Prop :=
  match r with Ok _ => True | Err e => err_kind e ≠ WouldBlock end.

Lemma try_io_final {A} (f : X → Po → io_result A * X * Po) fuel (reg : Registration) x p v r x' :
  undisturbed f → (f x p).1 = (r, x') → final r → pool_get (reg_key reg) p = Some v →
  word_ok (sio_readiness v) → Ready_is_empty (flags_for Write_ (sio_readiness v)) = false →
  Registration_try_io f fuel reg INTEREST_WRITABLE x p = Done (r, x', p).
Proof.
  intros Hq Hf Hr Hg Hok He. pose proof (Hq x p) as Hp. destruct (f x p) as [[r1 x1] p1] eqn:Hfx.
  cbn in Hf, Hp. injection Hf as -> ->. subst p1. unfold Registration_try_io.
  rewrite (slot_spec _ _ _ Hg). cbn [mbind outcome_bind]. rewrite ready_event_spec by done.
  rewrite (interest_mask_direction _ Write_) by done.
  change (Ready_bitand (Direction_mask Write_) _) with (flags_for Write_ (sio_readiness v)).
  cbn [mbind outcome_bind ev_ready event_at]. rewrite He, Hfx.
  destruct r; [done|]. by rewrite decide_False.
Qed.

(** On a writable socket the three ways to send give the same answer: if the
    socket takes the datagram or fails with an error other than [WouldBlock],
    [try_send] returns that answer, and [poll_send] and the first poll of [send]
    are ready with it; each sends once and leaves the readiness in place. *)
Theorem udp_send_interfaces_agree fuel ww self cx buf x p v io n n' r x' :
  pe_io (us_io self) = Some io →
  pool_get (reg_key (pe_registration (us_io self))) p = Some v → word_ok (sio_readiness v) →
  Ready_is_empty (flags_for Write_ (sio_readiness v)) = false → (1 < fuel)%nat →
  ¬ node_linked n v → undisturbed (udp_send buf io) →
  (∀ p', (udp_send buf io x p').1 = (r, x')) → final r →
  UdpSocket_try_send fuel self buf x p = Done (r, x', p) ∧
  (∃ p1, UdpSocket_poll_send fuel ww self cx buf x p = Done (Ready_ r, x', p1) ∧
     updated (pe_registration (us_io self)) p v p1) ∧
  (∃ fut p2 v2, UdpSocket_send fuel self cx (readiness_future INTEREST_WRITABLE n) n' buf x p =
       Done (Ready_ r, fut, x', p2) ∧
     updated (pe_registration (us_io self)) p v2 p2 ∧ sio_readiness v2 = sio_readiness v).
Proof.
  intros Hio Hg Hok He Hfuel Hn Hq Hf Hr. unfold UdpSocket_try_send, UdpSocket_poll_send, UdpSocket_send.
  unfold PollEvented_deref. rewrite Hio. cbn [unwrap mbind outcome_bind]. split_and!.
  - by apply try_io_final with v.
  - pose proof (poll_io_turn_ready (udp_send buf io) fuel ww (pe_registration (us_io self)) cx Write_ x p v
      Hq Hg Hok ltac:(lia) He) as Ht.
    pose proof (Hf (pool_write (reg_key (pe_registration (us_io self))) v p)) as Hfp.
    destruct (udp_send buf io x _) as [[r1 x1] p1]. cbn in Hfp. injection Hfp as -> ->.
    unfold Registration_poll_write_io, Registration_poll_io.
    eexists. split; [|by apply updated_write; rewrite Hg].
    destruct r as [a|e]; [|cbn in Hr; rewrite decide_False in Ht by done];
      by rewrite (loop_break _ _ _ _ Ht) by lia.
  - destruct (async_io_turn_calls (pe_registration (us_io self)) cx Write_ INTEREST_WRITABLE
      (udp_send buf io) fuel p v (readiness_future INTEREST_WRITABLE n) n' x)
      as (fut & p1 & v1 & Hup & Hm & _ & Ht);
      [done..|by split|cbn; by rewrite He|].
    rewrite Hf in Ht. unfold Registration_async_io_poll. cbn [fst snd] in Ht.
    exists (fut, n'), p1, v1. split; [|by split].
    destruct r as [a|e]; [|cbn in Hr; rewrite decide_False in Ht by done];
      by rewrite (loop_break _ _ _ _ Ht) by lia.
Qed.
End agree.

Module UdpRef.
Import MioRef PinListRef DriverRef.

(** A socket that takes datagrams of at most four bytes; the world holds what was
    sent. *)
#[export] Instance udp_ops : MioUdp nat unit (list (list Z)) pool := {|
  udp_bind _ x := (Ok 0%nat, x);
  udp_from_std _ := 0%nat;
  udp_connect _ _ x := (Ok (), x);
  udp_local_addr _ _ := Ok (local 1);
  udp_peer_addr _ _ := Ok (local 2);
  udp_send buf _ x p :=
    if decide (length buf ≤ 4)%nat then (Ok (Z.of_nat (length buf)), buf :: x, p)
    else (Err (error_of_kind InvalidInput), x, p);
  udp_send_to buf _ _ x p := (Ok (Z.of_nat (length buf)), buf :: x, p);
  udp_recv _ bx p := (Ok 0, bx, p);
  udp_recv_from _ bx p := (Ok (0, local 2), bx, p);
  udp_peek_from _ bx p := (Ok (0, local 2), bx, p);
  udp_try_io _ _ f x p := f x p;
|}.

Definition socket : UdpSocket nat := mkUdpSocket (mkPollEvented (Some 3%nat) RegistrationRef.self).
End UdpRef.

Import MioRef PinListRef DriverRef RegistrationRef UdpRef.

Lemma udp_send_interfaces_agree_witness :
  UdpSocket_try_send 2 socket [1; 2] [] (slab_with 2 5) = Done (Ok 2, [[1; 2]], slab_with 2 5) ∧
  (∃ p1, UdpSocket_poll_send 2 (λ _ _, false) socket 8%nat [1; 2] [] (slab_with 2 5) =
     Done (Ready_ (Ok 2), [[1; 2]], p1) ∧ updated RegistrationRef.self (slab_with 2 5) (slot_with 2 5) p1) ∧
  (∃ fut p2 v2, UdpSocket_send 2 socket 8%nat (readiness_future INTEREST_WRITABLE 0%nat) 1%nat [1; 2] []
       (slab_with 2 5) = Done (Ready_ (Ok 2), fut, [[1; 2]], p2) ∧
     updated RegistrationRef.self (slab_with 2 5) v2 p2 ∧
     sio_readiness v2 = sio_readiness (slot_with 2 5)).
Proof.
  apply (udp_send_interfaces_agree 2 (λ _ _, false) socket 8%nat [1; 2] [] (slab_with 2 5)
    (slot_with 2 5) 3%nat 0%nat 1%nat (Ok 2) [[1; 2]]).
  - reflexivity.
  - reflexivity.
  - apply slot_with_ok; lia.
  - vm_compute. reflexivity.
  - lia.
  - apply not_elem_of_nil.
  - intros x p. reflexivity.
  - intros p. reflexivity.
  - exact I.
Defined.
