(* ===== verification/Debug.v ===== *)
(** * Debug: the [Debug] output of the types that write their own
      (src/src/bits.rs, src/src/io/ready.rs, src/src/join_handle.rs,
      src/src/io/poll_evented.rs and the sockets)

    [debug_struct] and [debug_tuple] are the helpers of [std::fmt] without the
    alternate flag.  The output is a string of bytes, see [Text]. *)

From Stdlib Require Import String.
From S2P Require Import Prelude Bits Ready JoinHandle Text Registration PollEvented Tcp Udp.

Local Open Scope Z_scope.

(** ** Definitions *)

(** [f.debug_struct(name).field(..).finish()]. *)
Definition debug_fields (fields : list (str * str)) : str :=
  mjoin (imap (λ i '(k, v), (if decide (i = 0)%nat then [] else str_of ", ") ++ k ++ str_of ": " ++ v)
    fields).

Definition debug_struct (name : str) (fields : list (str * str)) : str :=
  match fields with
  | [] => name
  | _ => name ++ str_of " { " ++ debug_fields fields ++ str_of " }"
  end.

Definition debug_bool (b : bool) : str := if b then str_of "true" else str_of "false".

Definition debug_option {A} (debug : A → str) (o : option A) : str :=
  match o with Some a => str_of "Some(" ++ debug a ++ str_of ")" | None => str_of "None" end.

(** [{:b}] of a [usize], and [{}] of a [u32]. *)
Definition show_binary : Z → str := show_num 63 2.
Definition show_shift : Z → str := show_num 9 10.

Definition Pack_fmt (self : Pack) : str :=
  str_of "Pack { mask: " ++ show_binary (mask self) ++ str_of ", shift: " ++
  show_shift (shift self) ++ str_of " }".

Definition Ready_fmt (self : Ready) : str :=
  debug_struct (str_of "Ready")
    [(str_of "is_readable", debug_bool (Ready_is_readable self));
     (str_of "is_writable", debug_bool (Ready_is_writable self));
     (str_of "is_read_closed", debug_bool (Ready_is_read_closed self));
     (str_of "is_write_closed", debug_bool (Ready_is_write_closed self))].

Definition JoinError_fmt {P} (self : JoinError P) : str :=
  match self with
  | JoinError_Aborted => str_of "JoinError::Aborted"
  | JoinError_Panic _ => str_of "JoinError::Panic(...)"
  end.

Definition PollEvented_fmt {E} (debug : E → str) (self : PollEvented E) : str :=
  debug_struct (str_of "PollEvented") [(str_of "io", debug_option debug (pe_io self))].

(** [self.io.fmt(f)]. *)
Definition TcpStream_fmt {E} (debug : E → str) (self : TcpStream E) : str :=
  PollEvented_fmt debug (ts_io self).
Definition TcpListener_fmt {E} (debug : E → str) (self : TcpListener E) : str :=
  PollEvented_fmt debug (tl_io self).
Definition UdpSocket_fmt {E} (debug : E → str) (self : UdpSocket E) : str :=
  PollEvented_fmt debug (us_io self).

(** ** Properties *)

(** A separator that occurs in neither prefix. *)
Lemma split_unique {A} (l1 l2 r1 r2 : list A) c :
  c ∉ l1 → c ∉ l2 → l1 ++ c :: r1 = l2 ++ c :: r2 → l1 = l2 ∧ r1 = r2.
Proof.
  revert l2. induction l1 as [|a l1 IH]; intros [|b l2] H1 H2 Heq; cbn in Heq.
  - by injection Heq as ->.
  - injection Heq as -> _. destruct H2. by left.
  - injection Heq as -> _. destruct H1. by left.
  - injection Heq as -> Heq. apply not_elem_of_cons in H1 as [_ H1], H2 as [_ H2].
    by destruct (IH l2 H1 H2 Heq) as [-> ->].
Qed.

Lemma show_num_inj n radix x y :
  1 < radix ≤ 36 → 0 ≤ x < radix ^ Z.of_nat (S n) → 0 ≤ y < radix ^ Z.of_nat (S n) →
  show_num n radix x = show_num n radix y → x = y.
Proof.
  intros Hr Hx Hy Heq.
  destruct (show_digits_spec n radix x) as (Vx & _ & Dx & _); [lia|done|].
  destruct (show_digits_spec n radix y) as (Vy & _ & Dy & _); [lia|done|].
  rewrite <- Vx, <- Vy. f_equal. revert Heq Dx Dy. unfold show_num.
  generalize (show_digits n radix x) as l1, (show_digits n radix y) as l2.
  induction l1 as [|a l1 IH]; intros [|b l2] Heq Dx Dy; cbn in Heq; [done..|].
  injection Heq as Hab Heq. apply Forall_cons in Dx as [Da Dx], Dy as [Db Dy].
  f_equal; [|by apply IH]. apply (f_equal (to_digit radix)) in Hab.
  rewrite !to_digit_char in Hab by (done || lia). by injection Hab.
Qed.

(** The digits are neither commas nor blanks. *)
Lemma show_num_chars n radix x c :
  1 < radix ≤ 36 → 0 ≤ x < radix ^ Z.of_nat (S n) → c < 48 → c ∉ show_num n radix x.
Proof.
  intros Hr Hx Hc (d & Hd & Hin)%list_elem_of_fmap.
  destruct (show_digits_spec n radix x) as (_ & _ & Dx & _); [lia|done|].
  rewrite Forall_forall in Dx. destruct (Dx _ Hin). unfold digit_char in Hd. case_decide; lia.
Qed.

(** The output of a [Pack] tells the field it describes. *)
Lemma Pack_fmt_inj (p q : Pack) :
  0 ≤ mask p < 2 ^ 64 → 0 ≤ mask q < 2 ^ 64 → 0 ≤ shift p < 2 ^ 32 → 0 ≤ shift q < 2 ^ 32 →
  Pack_fmt p = Pack_fmt q → p = q.
Proof.
  intros Hp Hq Hsp Hsq Heq. unfold Pack_fmt in Heq. apply app_inv_head in Heq.
  change (str_of ", shift: ") with (44 :: str_of " shift: ") in Heq. cbn [app] in Heq.
  apply split_unique in Heq as [Hm Hs]; [|by apply show_num_chars; cbn; lia..].
  apply app_inv_head in Hs. change (str_of " }") with (32 :: str_of "}") in Hs.
  apply split_unique in Hs as [Hs _]; [|by apply show_num_chars; cbn; lia..].
  apply show_num_inj in Hm; [|cbn; lia..]. apply show_num_inj in Hs; [|cbn; lia..].
  destruct p, q. cbn in *. by subst.
Qed.

(** The output of a [Ready] tells its four queries and nothing else: a closed
    direction counts as ready, so the plain flag of a closed direction is not seen. *)
Lemma Ready_fmt_spec (a b : Ready) :
  Ready_wf a → Ready_wf b →
  Ready_fmt a = Ready_fmt b ↔
  Ready_is_readable a = Ready_is_readable b ∧ Ready_is_writable a = Ready_is_writable b ∧
  Ready_is_read_closed a = Ready_is_read_closed b ∧
  Ready_is_write_closed a = Ready_is_write_closed b.
Proof.
  intros _ _. split; [|by unfold Ready_fmt; intros (-> & -> & -> & ->)].
  unfold Ready_fmt.
  destruct (Ready_is_readable a), (Ready_is_writable a), (Ready_is_read_closed a),
    (Ready_is_write_closed a), (Ready_is_readable b), (Ready_is_writable b),
    (Ready_is_read_closed b), (Ready_is_write_closed b); vm_compute; done.
Qed.

Example Ready_fmt_example :
  Ready_fmt (Ready_bitor Ready_READABLE Ready_WRITE_CLOSED) =
  str_of "Ready { is_readable: true, is_writable: true, is_read_closed: false, is_write_closed: true }".
Proof. vm_compute. reflexivity. Qed.

Example Pack_fmt_example :
  Pack_fmt (mkPack 65280 8) = str_of "Pack { mask: 1111111100000000, shift: 8 }".
Proof. vm_compute. reflexivity. Qed.
