(* ===== verification/HttpDate.v ===== *)
(** * HttpDate: the cached [Date] header (src/examples/http-server.rs, [mod date])

    A thread renders the current date once per second and keeps the text in a
    buffer of 128 bytes.  The rendering is that of the crate [httpdate], which is a
    parameter: the pieces that its [Display] writes for a time, or a panic. *)

From Stdlib Require Import String.
From S2P Require Import Prelude Text.

Local Open Scope Z_scope.

(** ** Definitions *)

(** A [SystemTime]: nanoseconds since [UNIX_EPOCH], negative before it. *)
Definition SystemTime : Type := Z.

Definition nanos_per_sec : Z := 1000000000.

(** [now.duration_since(UNIX_EPOCH).map(|d| d.as_secs()).unwrap_or(0)]. *)
Definition unix_secs (now : SystemTime) : Z :=
  if decide (now < 0) then 0 else now / nanos_per_sec.

Record LastRenderedNow : Type := mkLast {
  bytes : list Z;
  amt : Z;
  unix_date : Z;
}.

(** The initial value of the thread-local [LAST]. *)
Definition LAST : LastRenderedNow := mkLast (replicate 128 0) 0 0.

(** [<LocalBuffer as fmt::Write>::write_str], with the buffer that it leaves.
    Taking the range [start..end] of the array panics when [end] is out of bounds. *)
Definition write_str (s : str) (self : LastRenderedNow) : outcome unit * LastRenderedNow :=
  let start := amt self in
  match checked_add start (Z.of_nat (length s)) with
  | Done end_ =>
      if decide (end_ ≤ Z.of_nat (length (bytes self))) then
        let bs := bytes self in
        let bs := take (Z.to_nat start) bs ++ s ++ drop (Z.to_nat end_) bs in
        (mret (), mkLast bs end_ (unix_date self))
      else (Panic, self)
  | _ => (Panic, self)
  end.

(** [write!]: the pieces one after the other. *)
Fixpoint write_pieces (ps : list str) (self : LastRenderedNow) : outcome unit * LastRenderedNow :=
  match ps with
  | [] => (mret (), self)
  | s :: ps =>
      match write_str s self with
      | (Done _, self) => write_pieces ps self
      | r => r
      end
  end.

(** [str::from_utf8]: well-formed sequences of one to four bytes. *)
Definition cont (c : Z) : bool := bool_decide (128 ≤ c ≤ 191).

Fixpoint is_utf8 (s : str) : bool :=
  match s with
  | [] => true
  | c :: s =>
      if decide (0 ≤ c ≤ 127) then is_utf8 s
      else if decide (194 ≤ c ≤ 223) then
        match s with c1 :: s => cont c1 && is_utf8 s | _ => false end
      else if decide (224 ≤ c ≤ 239) then
        match s with
        | c1 :: c2 :: s =>
            bool_decide ((if decide (c = 224) then 160 else 128) ≤ c1 ≤ (if decide (c = 237) then 159 else 191))
              && cont c2 && is_utf8 s
        | _ => false
        end
      else if decide (240 ≤ c ≤ 244) then
        match s with
        | c1 :: c2 :: c3 :: s =>
            bool_decide ((if decide (c = 240) then 144 else 128) ≤ c1 ≤ (if decide (c = 244) then 143 else 191))
              && cont c2 && cont c3 && is_utf8 s
        | _ => false
        end
      else false
  end.

(** [LastRenderedNow::buffer]. *)
Definition buffer (self : LastRenderedNow) : outcome str :=
  if decide (0 ≤ amt self ≤ Z.of_nat (length (bytes self))) then
    let s := take (Z.to_nat (amt self)) (bytes self) in
    if is_utf8 s then mret s else Panic
  else Panic.

Section date.
Context (http_date : SystemTime → outcome (list str)).

(** [LastRenderedNow::update].  The fields are assigned before the date is
    rendered; they keep those values when rendering panics. *)
Definition update (now : SystemTime) (now_unix : Z) (self : LastRenderedNow)
    : outcome unit * LastRenderedNow :=
  let self := mkLast (bytes self) 0 now_unix in
  match http_date now with
  | Done ps => write_pieces ps self
  | Panic => (Panic, self)
  | OutOfFuel => (OutOfFuel, self)
  end.

(** [<Now as Display>::fmt]: what is written, and the cache that is left. *)
Definition Now_fmt (now : SystemTime) (cache : LastRenderedNow) : outcome str * LastRenderedNow :=
  let now_unix := unix_secs now in
  if decide (unix_date cache ≠ now_unix) then
    match update now now_unix cache with
    | (Done _, cache) => (buffer cache, cache)
    | (Panic, cache) => (Panic, cache)
    | (OutOfFuel, cache) => (OutOfFuel, cache)
    end
  else (buffer cache, cache).
End date.

(** What [httpdate] documents: for the years 1970 to 9999 it renders the fixed
    format [Sun, 06 Nov 1994 08:49:37 GMT], 29 printable ASCII characters, to the
    second. *)
Definition year_10000 : Z := 253402300800 * nanos_per_sec.

Class HttpDateLaws (http_date : SystemTime → outcome (list str)) : Prop := {
  http_date_text : ∀ now, 0 ≤ now < year_10000 → ∃ ps, http_date now = Done ps ∧
    length (concat ps) = 29%nat ∧ Forall (λ c, 32 ≤ c ≤ 126) (concat ps);
  http_date_second : ∀ now now', 0 ≤ now → 0 ≤ now' → unix_secs now = unix_secs now' →
    http_date now = http_date now';
}.

(** ** Lemmas *)

Lemma is_utf8_ascii s : Forall (λ c, 32 ≤ c ≤ 126) s → is_utf8 s = true.
Proof. induction 1 as [|c s Hc Hs IH]; [done|]. cbn. by rewrite decide_True by lia. Qed.

Lemma write_pieces_spec ps c :
  0 ≤ amt c → amt c + Z.of_nat (length (concat ps)) ≤ Z.of_nat (length (bytes c)) ≤ 128 →
  let n := Z.to_nat (amt c) in
  write_pieces ps c =
    (Done (), mkLast (take n (bytes c) ++ concat ps ++ drop (n + length (concat ps)) (bytes c))
                (amt c + Z.of_nat (length (concat ps))) (unix_date c)).
Proof.
  revert c. induction ps as [|s ps IH]; intros c H0 Hlen n; subst n; cbn [concat].
  { cbn. rewrite Nat.add_0_r, take_drop, Z.add_0_r. by destruct c. }
  cbn [write_pieces]. cbn [concat] in Hlen. rewrite length_app in Hlen. unfold write_str, checked_add.
  rewrite bool_decide_eq_true_2 by (unfold usize_bound, word_width; lia).
  rewrite decide_True by lia. destruct c as [bs a u]. cbn [bytes amt unix_date] in *.
  rewrite IH; cbn [bytes amt unix_date].
  - do 2 f_equal; [|rewrite length_app; lia].
    rewrite !Z2Nat.inj_add, Nat2Z.id by lia. rewrite length_app.
    rewrite (app_assoc (take _ bs)), take_app_length' by (rewrite length_app, length_take; lia).
    rewrite <- !app_assoc. do 3 f_equal.
    rewrite app_assoc, drop_app_ge by (rewrite length_app, length_take; lia). rewrite drop_drop. f_equal.
    rewrite length_app, length_take. lia.
  - lia.
  - rewrite !length_app, length_take, length_drop. lia.
Qed.

Section cache.
Context (http_date : SystemTime → outcome (list str)) `{!HttpDateLaws http_date}.

(** The clock, in the range of [httpdate] and past the first second. *)
Definition date_ok (now : SystemTime) : Prop := nanos_per_sec ≤ now < year_10000.

Definition cache_ok (c : LastRenderedNow) : Prop :=
  length (bytes c) = 128%nat ∧
  (c = LAST ∨ ∃ now ps, date_ok now ∧ unix_date c = unix_secs now ∧ http_date now = Done ps ∧
     amt c = Z.of_nat (length (concat ps)) ∧ take (length (concat ps)) (bytes c) = concat ps).

Lemma unix_secs_pos now : date_ok now → 0 < unix_secs now.
Proof.
  unfold date_ok, unix_secs, nanos_per_sec. intros ?. rewrite decide_False by lia.
  apply Z.lt_le_trans with 1; [lia|]. apply Z.div_le_lower_bound; lia.
Qed.

Lemma date_ok_text now : date_ok now → ∃ ps, http_date now = Done ps ∧
  length (concat ps) = 29%nat ∧ is_utf8 (concat ps) = true ∧ Forall (λ c, 32 ≤ c ≤ 126) (concat ps).
Proof.
  intros Hn. destruct (http_date_text now) as (ps & Hp & Hl & Ha); [unfold date_ok, nanos_per_sec in Hn; lia|].
  exists ps. by rewrite is_utf8_ascii.
Qed.

(** A cache that holds a text shows it. *)
Lemma buffer_text c s :
  length (bytes c) = 128%nat → amt c = Z.of_nat (length s) → take (length s) (bytes c) = s →
  is_utf8 s = true → buffer c = Done s.
Proof.
  intros Hb Ha Ht Hu. assert (length s ≤ 128)%nat by (rewrite <- Ht, length_take; lia).
  unfold buffer. rewrite decide_True by lia. by rewrite Ha, Nat2Z.id, Ht, Hu.
Qed.

Lemma Now_fmt_ok now c :
  date_ok now → cache_ok c →
  ∃ ps, http_date now = Done ps ∧ (Now_fmt http_date now c).1 = Done (concat ps) ∧
    cache_ok (Now_fmt http_date now c).2.
Proof.
  intros Hn [Hb Hc]. destruct (date_ok_text now Hn) as (ps & Hp & Hl & Hu & _). exists ps.
  pose proof (unix_secs_pos now Hn) as Hpos. unfold Now_fmt. case_decide as Hd.
  - unfold update. rewrite Hp, write_pieces_spec by (cbn [amt bytes]; lia). cbn [amt bytes unix_date].
    change (Z.to_nat 0) with 0%nat. cbn [take app Nat.add fst snd].
    set (c' := mkLast (concat ps ++ drop (length (concat ps)) (bytes c)) (0 + Z.of_nat (length (concat ps))) (unix_secs now)).
    assert (length (bytes c') = 128%nat) as Hb'.
    { cbn. rewrite length_app, length_drop. lia. }
    assert (take (length (concat ps)) (bytes c') = concat ps) as Ht by (cbn; by rewrite take_app_length).
    split_and!; [done|by apply buffer_text|]. split; [done|]. right. by exists now, ps.
  - destruct Hc as [->|(now' & ps' & Hn' & Hu' & Hp' & Ha & Ht)]; [cbn in Hd; lia|].
    assert (http_date now = http_date now') as Heq.
    { unfold date_ok, nanos_per_sec in *. apply http_date_second; [lia|lia|].
      destruct (decide (unix_date c = unix_secs now)) as [<-|?]; [done|by destruct Hd]. }
    rewrite Hp, Hp' in Heq. injection Heq as ->. cbn [fst snd]. split_and!; [done|by apply buffer_text|].
    split; [done|]. right. by exists now', ps'.
Qed.

(** C33: the date cache is transparent.  Whatever times a thread has rendered
    before, formatting [now] writes what [httpdate] renders for the current time:
    no panic, no stale second, nothing left over from the 128 bytes of the buffer.
    The first second of the epoch (and, with no other date in the cache, the time
    before it) is excluded because the initial cache counts as rendered at second
    zero: there the header value is empty. *)
Theorem date_cache_transparent times now :
  Forall date_ok times → date_ok now →
  let cache := foldl (λ c t, (Now_fmt http_date t c).2) LAST times in
  (∃ ps, http_date now = Done ps ∧ (Now_fmt http_date now cache).1 = Done (concat ps)) ∧
  ∀ early, early < nanos_per_sec → Now_fmt http_date early LAST = (Done [], LAST).
Proof.
  intros Ht Hn cache. assert (cache_ok cache) as Hc.
  { subst cache. assert (cache_ok LAST) as H0 by (by split; [|left]). revert H0. generalize LAST as c.
    induction Ht as [|t times Ht Hts IH]; intros c Hc; [done|]. cbn [foldl]. apply IH.
    by destruct (Now_fmt_ok t c Ht Hc) as (_ & _ & _ & ?). }
  split; [destruct (Now_fmt_ok now cache Hn Hc) as (ps & ? & ? & _); by exists ps|].
  intros early He. unfold Now_fmt. assert (unix_secs early = 0) as ->; [|done].
  unfold unix_secs, nanos_per_sec in *. case_decide; [done|]. apply Z.div_small. lia.
Qed.
End cache.

(** A clock that shows only the second, twenty-nine digits wide. *)
Definition demo_date (now : SystemTime) : outcome (list str) :=
  mret [str_of "second "; digit_char <$> to_be 22 10 (unix_secs now)].

#[export] Instance demo_date_laws : HttpDateLaws demo_date.
Proof.
  split.
  - intros now Hn. eexists. split; [done|]. cbn [concat]. rewrite app_nil_r.
    destruct (to_be_spec 22 10 (unix_secs now)) as (_ & Hl & Hd); [lia| |].
    { unfold unix_secs, year_10000, nanos_per_sec in *. case_decide; [lia|]. split.
      - apply Z.div_pos; lia.
      - apply Z.div_lt_upper_bound; lia. }
    split; [by rewrite length_app, length_fmap, Hl|]. apply Forall_app. split.
    + by repeat (apply Forall_cons; split; [done|]); apply Forall_nil.
    + apply Forall_fmap. eapply Forall_impl; [exact Hd|]. intros d [??]. cbn. unfold digit_char.
      case_decide; lia.
  - intros now now' _ _ Hs. unfold demo_date. by rewrite Hs.
Qed.

Lemma date_cache_transparent_witness :
  let cache := foldl (λ c t, (Now_fmt demo_date t c).2) LAST [1500000000; 1700000000; 3000000000] in
  (Now_fmt demo_date 3500000000 cache).1 = Done (str_of "second 0000000000000000000003").
Proof.
  intros cache. destruct (date_cache_transparent demo_date [1500000000; 1700000000; 3000000000] 3500000000)
    as [(ps & Hp & Hf) _].
  - unfold date_ok, year_10000, nanos_per_sec. repeat constructor; lia.
  - unfold date_ok, year_10000, nanos_per_sec. lia.
  - subst cache. rewrite Hf. injection Hp as <-. vm_compute. reflexivity.
Defined.
