(* ===== verification/HttpServer.v ===== *)
(** * HttpServer: the example server (src/examples/http-server.rs)

    The server decodes requests from a byte buffer, answers two routes and encodes
    the responses.  The crates it uses are parameters: [bytes] (the buffers),
    [httparse] (the parser of request heads), [http] (requests, responses and
    their builders), [serde_json], and [tokio_util]'s [Framed] with the connection
    under it.  The module [date] is in [HttpDate]. *)

From Stdlib Require Import String.
From S2P Require Import Prelude Text IoDriver Net AddrParse AddrProps HttpDate.

Local Open Scope Z_scope.

(** ** The crates *)

(** [bytes::BytesMut]; [split_to] with [freeze] gives immutable bytes. *)
Class BytesMut (B : Type) : Type := {
  bm_bytes : B → str;
  extend_from_slice : str → B → B;
  split_to : Z → B → outcome (str * B);
}.

Class BytesMutLaws B `{BytesMut B} : Prop := {
  extend_bytes : ∀ s b, bm_bytes (extend_from_slice s b) = bm_bytes b ++ s;
  split_to_bytes : ∀ n b, 0 ≤ n ≤ Z.of_nat (length (bm_bytes b)) →
    ∃ b', split_to n b = Done (take (Z.to_nat n) (bm_bytes b), b') ∧
      bm_bytes b' = drop (Z.to_nat n) (bm_bytes b);
}.

(** A slice of the buffer that [httparse] read: where it starts, counted from the
    start of the buffer, and its length. *)
Record slice : Type := mkSlice { sl_start : Z; sl_len : Z }.

(** [httparse::Request] and [Status]. *)
Record HttparseRequest : Type := mkHttparse {
  hp_method : option slice;
  hp_path : option slice;
  hp_version : option Z;
  hp_headers : list (slice * slice);
}.

Inductive HttparseStatus : Type :=
| Complete (amt : Z)
| Partial.

(** [httparse::Request::parse] with room for 16 headers; the error is its [Debug]
    text. *)
Class Httparse : Type :=
  httparse : str → result (HttparseStatus * HttparseRequest) string.

(** The bytes of a slice. *)
Definition sl_bytes (a : slice) (s : str) : str :=
  take (Z.to_nat (sl_len a)) (drop (Z.to_nat (sl_start a)) s).

(** The head that was read is a prefix of the buffer, and the slices lie in it;
    there are at most as many headers as there was room for. *)
Definition sl_inside (amt : Z) (a : slice) : Prop :=
  0 ≤ sl_start a < amt ∧ 0 ≤ sl_len a ∧ sl_start a + sl_len a ≤ amt.

Class HttparseLaws `{Httparse} : Prop :=
  httparse_complete : ∀ s amt r, httparse s = Ok (Complete amt, r) →
    0 ≤ amt ≤ Z.of_nat (length s) ∧ (length (hp_headers r) ≤ 16)%nat ∧
    (∃ m, hp_method r = Some m ∧ sl_inside amt m) ∧ (∃ p, hp_path r = Some p ∧ sl_inside amt p) ∧
    (∃ v, hp_version r = Some v) ∧
    Forall (λ kv, sl_inside amt kv.1 ∧ sl_inside amt kv.2) (hp_headers r).

(** [http]: methods, header values, requests and responses with their builders.
    [res_status] is the [Display] of the status. *)
Class Http (M V RB Rq SB Rs E : Type) : Type := {
  Method_try_from : str → result M E;
  HeaderValue_from_bytes : str → result V E;
  Request_builder : RB;
  rq_method : M → RB → RB;
  rq_uri : str → RB → RB;
  rq_version_11 : RB → RB;
  rq_header : str → V → RB → RB;
  rq_body : RB → result Rq E;
  uri_path : Rq → str;
  Response_builder : SB;
  rs_header : str → str → SB → SB;
  rs_not_found : SB → SB;
  rs_body : str → SB → result Rs E;
  res_status : Rs → str;
  res_headers : Rs → list (str * str);
  res_body : Rs → str;
  error_text : E → string;
}.

(** What [http] documents: a status and the names and values of headers have no
    line breaks; a builder starts with [200 OK] and no headers, and names are in
    lower case. *)
Class HttpLaws M V RB Rq SB Rs E `{Http M V RB Rq SB Rs E} : Prop := {
  res_no_cr : ∀ r, (13 ∉ res_status r) ∧ Forall (λ kv, (13 ∉ kv.1) ∧ (13 ∉ kv.2)) (res_headers r);
  content_type_response : ∀ v b, Forall (λ c, 32 ≤ c ≤ 126) v →
    ∃ r, rs_body b (rs_header (str_of "Content-Type") v Response_builder) = Ok r ∧
      res_status r = str_of "200 OK" ∧ res_headers r = [(str_of "content-type", v)] ∧ res_body r = b;
  not_found_response : ∀ b, ∃ r, rs_body b (rs_not_found Response_builder) = Ok r ∧
    res_status r = str_of "404 Not Found" ∧ res_headers r = [] ∧ res_body r = b;
}.

(** [io::Error::new(io::ErrorKind::Other, ..)]. *)
Definition other_error (msg : string) : io_error := mkIoError Other msg.

Section server.
Context {B : Type} `{BytesMut B} `{Httparse} {M V RB Rq SB Rs E : Type} `{Http M V RB Rq SB Rs E}.

(** ** The decoder *)

(** [toslice]: subtracting the pointers panics, or wraps and fails the assertion,
    when the slice starts before the buffer. *)
Definition toslice (src : str) (a : slice) : outcome (Z * Z) :=
  let start := sl_start a in
  _ ← assert_ (bool_decide (0 ≤ start < Z.of_nat (length src)));
  end_ ← checked_add start (sl_len a);
  mret (start, end_).

(** [for (i, header) in r.headers.iter().enumerate() { .. headers[i] = .. }]: the
    index panics past the end of the array. *)
Fixpoint store_headers (src : str) (hs : list (slice * slice)) (i : nat)
    (headers : list (option ((Z * Z) * (Z * Z)))) : outcome (list (option ((Z * Z) * (Z * Z)))) :=
  match hs with
  | [] => mret headers
  | (name, value) :: hs =>
      k ← toslice src name;
      v ← toslice src value;
      if decide (i < length headers)%nat then
        store_headers src hs (S i) (<[i := Some (k, v)]> headers)
      else Panic
  end.

(** [data.slice(a..b)] and [&data[a..b]]. *)
Definition range (a : Z * Z) (data : str) : outcome str :=
  if decide (0 ≤ a.1 ≤ a.2 ∧ a.2 ≤ Z.of_nat (length data)) then
    mret (take (Z.to_nat (a.2 - a.1)) (drop (Z.to_nat a.1) data))
  else Panic.

(** The second loop over the headers: it breaks at the first that is [None], and
    returns early when a value is not valid. *)
Fixpoint add_headers (data : str) (headers : list (option ((Z * Z) * (Z * Z)))) (ret : RB)
    : outcome (io_result RB) :=
  match headers with
  | [] | None :: _ => mret (Ok ret)
  | Some (k, v) :: headers =>
      vb ← range v data;
      match HeaderValue_from_bytes vb with
      | Err _ => mret (Err (other_error "header decode error"))
      | Ok value =>
          name ← range k data;
          add_headers data headers (rq_header name value ret)
      end
  end.

(** The part of [decode] after the version check. *)
Definition build_request (method : M) (path : Z * Z) (amt : Z) (headers : list (option ((Z * Z) * (Z * Z))))
    (src : B) : outcome (io_result (option Rq) * B) :=
  '(data, src) ← split_to amt src;
  let ret := rq_method method Request_builder in
  s ← range path data;
  let ret := rq_uri s ret in
  let ret := rq_version_11 ret in
  r ← add_headers data headers ret;
  match r with
  | Err e => mret (Err e, src)
  | Ok ret =>
      match rq_body ret with
      | Err e => mret (Err (other_error (error_text e)), src)
      | Ok req => mret (Ok (Some req), src)
      end
  end.

(** [<Http as Decoder>::decode]. *)
Definition decode (src : B) : outcome (io_result (option Rq) * B) :=
  let headers := replicate 16 None in
  match httparse (bm_bytes src) with
  | Err e => mret (Err (other_error ("failed to parse http request: " ++ e)), src)
  | Ok (Partial, _) => mret (Ok None, src)
  | Ok (Complete amt, r) =>
      headers ← store_headers (bm_bytes src) (hp_headers r) 0 headers;
      m ← unwrap (hp_method r);
      match Method_try_from (sl_bytes m (bm_bytes src)) with
      | Err e => mret (Err (other_error (error_text e)), src)
      | Ok method =>
          p ← unwrap (hp_path r);
          path ← toslice (bm_bytes src) p;
          version ← unwrap (hp_version r);
          if decide (version ≠ 1) then mret (Err (other_error "only HTTP/1.1 accepted"), src)
          else build_request method path amt headers src
      end
  end.

(** ** The encoder *)

Definition crlf : str := [13; 10].

(** [usize]'s [Display]. *)
Definition show_usize : Z → str := show_num 19 10.

(** The loop over the headers. *)
Fixpoint put_headers (hs : list (str * str)) (dst : B) : B :=
  match hs with
  | [] => dst
  | (k, v) :: hs =>
      let dst := extend_from_slice k dst in
      let dst := extend_from_slice (str_of ": ") dst in
      let dst := extend_from_slice v dst in
      let dst := extend_from_slice crlf dst in
      put_headers hs dst
  end.

(** [<BytesWrite as fmt::Write>::write_str]. *)
Definition BytesWrite_write_str (s : str) (dst : B) : B := extend_from_slice s dst.

(** [<Http as Encoder>::encode], with the date cache of the thread. *)
Definition encode (http_date : SystemTime → outcome (list str)) (now : SystemTime) (item : Rs)
    (dst : B) (cache : LastRenderedNow) : outcome (io_result unit * B) * LastRenderedNow :=
  let dst := BytesWrite_write_str (str_of "HTTP/1.1 ") dst in
  let dst := BytesWrite_write_str (res_status item) dst in
  let dst := BytesWrite_write_str (crlf ++ str_of "Server: Example" ++ crlf ++ str_of "Content-Length: ") dst in
  let dst := BytesWrite_write_str (show_usize (Z.of_nat (length (res_body item)))) dst in
  let dst := BytesWrite_write_str (crlf ++ str_of "Date: ") dst in
  let '(date, cache) := Now_fmt http_date now cache in
  (date ← date;
   let dst := BytesWrite_write_str date dst in
   let dst := BytesWrite_write_str crlf dst in
   let dst := put_headers (res_headers item) dst in
   let dst := extend_from_slice crlf dst in
   let dst := extend_from_slice (res_body item) dst in
   mret (Ok (), dst), cache).

End server.

(** ** The routes *)

(** [Box<dyn Error>]: an [io::Error] or an error of [serde_json]. *)
Inductive BoxError (J : Type) : Type :=
| Box_io (e : io_error)
| Box_json (e : J).
Arguments Box_io {J} e.
Arguments Box_json {J} e.

Section routes.
Context {M V RB Rq SB Rs E : Type} `{Http M V RB Rq SB Rs E}.

(** [serde_json::to_string(&Message { message })]. *)
Context {J : Type} (json_message : str → result str J).

(** [respond]. *)
Definition respond (req : Rq) : result Rs (BoxError J) :=
  let response := Response_builder in
  let build (response : SB) (body : str) :=
    match rs_body body response with
    | Ok response => Ok response
    | Err e => Err (Box_io (other_error (error_text e)))
    end in
  if decide (uri_path req = str_of "/plaintext") then
    build (rs_header (str_of "Content-Type") (str_of "text/plain") response) (str_of "Hello, World!")
  else if decide (uri_path req = str_of "/json") then
    let response := rs_header (str_of "Content-Type") (str_of "application/json") response in
    match json_message (str_of "Hello, World!") with
    | Ok body => build response body
    | Err e => Err (Box_json e)
    end
  else build (rs_not_found response) [].

(** ** A connection *)

(** [Framed::new(stream.compat_write(), Http)]: the stream of decoded requests and
    the sink of responses. *)
Context {T : Type} (next : T → outcome (option (io_result Rq) * T)) (send : Rs → T → outcome (io_result unit * T)).

Definition process_turn (transport : T) : outcome (ctl T (result unit (BoxError J) * T)) :=
  '(request, transport) ← next transport;
  match request with
  | None => mret (Break (Ok (), transport))
  | Some (Err e) => mret (Break (Err (Box_io e), transport))
  | Some (Ok request) =>
      match respond request with
      | Err e => mret (Break (Err e, transport))
      | Ok response =>
          '(r, transport) ← send response transport;
          match r with
          | Err e => mret (Break (Err (Box_io e), transport))
          | Ok _ => mret (Continue transport)
          end
      end
  end.

(** [process]. *)
Definition process (fuel : nat) (transport : T) : outcome (result unit (BoxError J) * T) :=
  loop fuel process_turn transport.
End routes.

(** ** The server *)

Section main.
(** The server is a client of [TcpListener::bind], [TcpListener::accept] (modelled
    in [Tcp]) and [spawn] ([Executor]): it is written against what it uses of them,
    on whatever they act on.  [accept] is the awaited call; [spawn_process] spawns
    the task that runs [process] and prints its error. *)
Context {W L C : Type}.
Context (bind : SocketAddr → W → outcome (io_result L * W)).
Context (accept : L → W → outcome (io_result (C * SocketAddr) * W)).
Context (spawn_process : C → W → outcome W).

Definition accept_turn (server : L) (w : W) : outcome (ctl W (io_error * W)) :=
  '(r, w) ← accept server w;
  match r with
  | Err e => mret (Break (e, w))
  | Ok (stream, _) => w ← spawn_process stream w; mret (Continue w)
  end.

(** [main]: the argument, if any, has to be a socket address; the future that is
    blocked on ends with an error of [bind] or [accept]. *)
Definition main (fuel : nat) (arg : option str) (w : W) : outcome (io_error * W) :=
  let addr := default (str_of "127.0.0.1:8080") arg in
  socket ← unwrap (parse_SocketAddr addr);
  '(r, w) ← bind socket w;
  match r with
  | Err e => mret (e, w)
  | Ok server => loop fuel (accept_turn server) w
  end.
End main.

(** ** Decoding *)

Section decoding.
Context {B : Type} `{BytesMutLaws B} `{HttparseLaws} {M V RB Rq SB Rs E : Type} `{Http M V RB Rq SB Rs E}.

(** Decoding on plain bytes: the fields are copied out of the buffer. *)
Fixpoint copy_headers (s : str) (hs : list (slice * slice)) (ret : RB) : io_result RB :=
  match hs with
  | [] => Ok ret
  | (k, v) :: hs =>
      match HeaderValue_from_bytes (sl_bytes v s) with
      | Err _ => Err (other_error "header decode error")
      | Ok value => copy_headers s hs (rq_header (sl_bytes k s) value ret)
      end
  end.

Definition decode_spec (s : str) : io_result (option Rq) * str :=
  match httparse s with
  | Err e => (Err (other_error ("failed to parse http request: " ++ e)), s)
  | Ok (Partial, _) => (Ok None, s)
  | Ok (Complete amt, r) =>
      match hp_method r, hp_path r, hp_version r with
      | Some m, Some p, Some 1 =>
          match Method_try_from (sl_bytes m s) with
          | Err e => (Err (other_error (error_text e)), s)
          | Ok method =>
              (match copy_headers s (hp_headers r)
                       (rq_version_11 (rq_uri (sl_bytes p s) (rq_method method Request_builder))) with
               | Err e => Err e
               | Ok ret =>
                   match rq_body ret with
                   | Err e => Err (other_error (error_text e))
                   | Ok req => Ok (Some req)
                   end
               end, drop (Z.to_nat amt) s)
          end
      | Some m, Some _, Some _ =>
          (Err match Method_try_from (sl_bytes m s) with
               | Err e => other_error (error_text e)
               | Ok _ => other_error "only HTTP/1.1 accepted"
               end, s)
      | _, _, _ => (Ok None, s)
      end
  end.

Definition bounds (a : slice) : Z * Z := (sl_start a, sl_start a + sl_len a).

Lemma toslice_inside s amt a :
  sl_inside amt a → amt ≤ Z.of_nat (length s) < usize_bound → toslice s a = Done (bounds a).
Proof.
  intros (Hs & Hl & He) Hlen. unfold toslice, checked_add. rewrite bool_decide_eq_true_2 by lia.
  cbn [assert_ mbind outcome_bind]. by rewrite bool_decide_eq_true_2 by lia.
Qed.

Lemma range_inside s amt a :
  sl_inside amt a → amt ≤ Z.of_nat (length s) → range (bounds a) (take (Z.to_nat amt) s) = Done (sl_bytes a s).
Proof.
  intros (Hs & Hl & He) Hlen. unfold range, bounds, sl_bytes. cbn [fst snd].
  rewrite decide_True by (rewrite length_take; lia). unfold mret, outcome_ret. f_equal.
  replace (sl_start a + sl_len a - sl_start a) with (sl_len a) by lia.
  rewrite !take_drop_commute, take_take. do 2 f_equal. lia.
Qed.

Definition stored (kv : slice * slice) : option ((Z * Z) * (Z * Z)) := Some (bounds kv.1, bounds kv.2).

Lemma store_headers_inside s amt hs pre n :
  Forall (λ kv, sl_inside amt kv.1 ∧ sl_inside amt kv.2) hs → amt ≤ Z.of_nat (length s) < usize_bound →
  (length hs ≤ n)%nat →
  store_headers s hs (length pre) (pre ++ replicate n None) =
    Done (pre ++ (stored <$> hs) ++ replicate (n - length hs) None).
Proof.
  intros Hhs Hlen. revert pre n. induction Hhs as [|[k v] hs [Hk Hv] Hhs IH]; intros pre n Hn; cbn [length] in *.
  { cbn. by rewrite Nat.sub_0_r. }
  cbn [store_headers fst snd] in *. rewrite !(toslice_inside s amt) by done. cbn [mbind outcome_bind].
  destruct n as [|n]; [lia|]. rewrite decide_True by (rewrite length_app; cbn; lia).
  rewrite insert_app_r_alt, Nat.sub_diag by lia. cbn [replicate insert list_insert].
  change (stored <$> (k, v) :: hs) with (stored (k, v) :: (stored <$> hs)).
  specialize (IH (pre ++ [stored (k, v)]) n ltac:(lia)). rewrite length_app, Nat.add_1_r, <- !app_assoc in IH.
  exact IH.
Qed.

Lemma add_headers_inside s amt hs n (ret : RB) :
  Forall (λ kv, sl_inside amt kv.1 ∧ sl_inside amt kv.2) hs → amt ≤ Z.of_nat (length s) →
  add_headers (take (Z.to_nat amt) s) ((stored <$> hs) ++ replicate n None) ret = Done (copy_headers s hs ret).
Proof.
  intros Hhs Hlen. revert ret. induction Hhs as [|[k v] hs [Hk Hv] Hhs IH]; intros ret; [by destruct n|].
  cbn [fst snd] in *. cbn [fmap list_fmap app]. unfold stored at 1. cbn [add_headers fst snd].
  rewrite (range_inside s amt v) by done. cbn [mbind outcome_bind copy_headers].
  destruct (HeaderValue_from_bytes (sl_bytes v s)) as [value|]; [|done].
  rewrite (range_inside s amt k) by done. apply IH.
Qed.

(** C31: the decoder does on the buffer what [decode_spec] says on plain bytes: the
    offsets it keeps instead of slices, its array of sixteen entries and the
    [split_to] never panic, and the path and the headers it hands to the builder
    are the bytes that the parser found.  An incomplete head leaves the buffer as
    it is and asks for more; a head that is refused for its syntax, its method or
    its version is not consumed; otherwise exactly the head is consumed, also when
    a header value or the request is refused. *)
Theorem decode_refines_spec (src : B) :
  Z.of_nat (length (bm_bytes src)) < usize_bound →
  ∃ src', decode src = Done ((decode_spec (bm_bytes src)).1, src') ∧
    bm_bytes src' = (decode_spec (bm_bytes src)).2.
Proof.
  intros Hlen. unfold decode, decode_spec. pose proof (httparse_complete (bm_bytes src)) as Hlaw.
  destruct (httparse (bm_bytes src)) as [[[amt|] r]|e]; [|by exists src..].
  destruct (Hlaw amt r eq_refl) as (Hamt & Hn & (m & Hm & Hmi) & (p & Hp & Hpi) & (v & Hv) & Hhs).
  rewrite Hm, Hp, Hv. assert (amt ≤ Z.of_nat (length (bm_bytes src)) < usize_bound) as Hamt' by (split; [apply Hamt|done]).
  pose proof (store_headers_inside (bm_bytes src) amt _ [] 16 Hhs Hamt' Hn) as Hst.
  cbn [length app] in Hst. rewrite Hst. cbn [mbind outcome_bind unwrap].
  destruct (Method_try_from (sl_bytes m (bm_bytes src))) as [method|e].
  2: { exists src. split; [|by destruct v as [|[]|]]. by destruct v as [|[]|]. }
  rewrite (toslice_inside _ amt) by done. cbn [mbind outcome_bind].
  case_decide as Hv1.
  { exists src. by destruct v as [|[]|]. }
  assert (v = 1) as -> by lia. unfold build_request.
  destruct (split_to_bytes amt src Hamt) as (src' & Hsp & Hb). rewrite Hsp. cbn [mbind outcome_bind].
  rewrite range_inside by (done || apply Hamt). cbn [mbind outcome_bind].
  rewrite add_headers_inside by (done || apply Hamt). cbn [mbind outcome_bind]. exists src'. split; [|done].
  destruct (copy_headers _ _ _) as [ret|e]; [|done]. by destruct (rq_body ret).
Qed.
End decoding.

(** ** Encoding *)

(** A client: lines up to an empty one, then as many bytes as [Content-Length]
    says. *)
Fixpoint read_line (s : str) : option (str * str) :=
  match s with
  | [] => None
  | c :: s' =>
      if decide (c = 13 ∧ head s' = Some 10) then Some ([], tail s')
      else '(l, rest) ← read_line s'; Some (c :: l, rest)
  end.

Fixpoint read_lines (fuel : nat) (s : str) : option (list str * str) :=
  match fuel with
  | O => None
  | S fuel =>
      '(l, s) ← read_line s;
      if decide (l = []) then Some ([], s) else '(ls, s) ← read_lines fuel s; Some (l :: ls, s)
  end.

Fixpoint strip_prefix (p s : str) : option str :=
  match p, s with
  | [], _ => Some s
  | c :: p, c' :: s => if decide (c = c') then strip_prefix p s else None
  | _, [] => None
  end.

Fixpoint content_length (ls : list str) : option Z :=
  match ls with
  | [] => None
  | l :: ls =>
      match strip_prefix (str_of "Content-Length: ") l with
      | Some digits => of_be 10 <$> mapM (to_digit 10) digits
      | None => content_length ls
      end
  end.

Definition read_response (s : str) : option (list str * str * str) :=
  '(ls, s) ← read_lines (S (length s)) s;
  n ← content_length ls;
  if decide (n ≤ Z.of_nat (length s)) then Some (ls, take (Z.to_nat n) s, drop (Z.to_nat n) s) else None.

Definition put_line (l : str) : str := l ++ crlf.

Lemma read_line_app l rest : 13 ∉ l → read_line (l ++ crlf ++ rest) = Some (l, rest).
Proof.
  induction l as [|c l IH]; intros Hl; [done|]. apply not_elem_of_cons in Hl as [Hc Hl].
  cbn [app read_line]. rewrite decide_False by (intros [? _]; congruence). by rewrite IH.
Qed.

Lemma read_lines_app fuel ls rest :
  Forall (λ l, l ≠ [] ∧ 13 ∉ l) ls → (length ls < fuel)%nat →
  read_lines fuel (concat (put_line <$> ls) ++ crlf ++ rest) = Some (ls, rest).
Proof.
  intros Hls. revert fuel. induction Hls as [|l ls [Hne Hl] Hls IH]; intros fuel Hf; (destruct fuel as [|fuel]; [cbn in Hf; lia|]).
  - done.
  - cbn [fmap list_fmap concat read_lines]. unfold put_line at 1. rewrite <- !app_assoc, read_line_app by done.
    cbn [mbind option_bind]. rewrite decide_False by done. cbn [length] in Hf. by rewrite IH by lia.
Qed.

Lemma lines_length (ls : list str) : (length ls ≤ length (concat (put_line <$> ls)))%nat.
Proof.
  induction ls as [|l ls IH]; [done|]. cbn [fmap list_fmap concat length]. rewrite length_app.
  assert (1 ≤ length (put_line l))%nat by (unfold put_line; rewrite length_app; cbn; lia).
  change (list_fmap str str put_line ls) with (put_line <$> ls). lia.
Qed.

Lemma read_decimal n x : 0 ≤ x < 10 ^ Z.of_nat (S n) → of_be 10 <$> mapM (to_digit 10) (show_num n 10 x) = Some x.
Proof.
  intros Hx. destruct (show_digits_spec n 10 x ltac:(lia) Hx) as (Hv & _ & Hd & _). unfold show_num.
  assert (mapM (to_digit 10) (digit_char <$> show_digits n 10 x) = Some (show_digits n 10 x)) as ->;
    [|cbn; by rewrite Hv].
  apply mapM_Some. rewrite Forall2_fmap_l. apply Forall_Forall2_diag. eapply Forall_impl; [exact Hd|].
  intros d Hd'. cbn. by apply to_digit_char.
Qed.

Lemma strip_prefix_app p s : strip_prefix p (p ++ s) = Some s.
Proof. induction p as [|c p IH]; [by destruct s|]. cbn. by rewrite decide_True. Qed.

Section encoding.
Context {B : Type} `{BytesMutLaws B} {M V RB Rq SB Rs E : Type} `{HttpLaws M V RB Rq SB Rs E}.
Context (http_date : SystemTime → outcome (list str)) `{!HttpDateLaws http_date}.

Definition header_line (kv : str * str) : str := kv.1 ++ str_of ": " ++ kv.2.

(** The lines of a response's head. *)
Definition head_lines (r : Rs) (date : str) : list str :=
  (str_of "HTTP/1.1 " ++ res_status r) :: str_of "Server: Example" ::
  (str_of "Content-Length: " ++ show_usize (Z.of_nat (length (res_body r)))) ::
  (str_of "Date: " ++ date) :: (header_line <$> res_headers r).

Lemma put_headers_bytes hs (dst : B) :
  bm_bytes (put_headers hs dst) = bm_bytes dst ++ concat (put_line <$> (header_line <$> hs)).
Proof.
  revert dst. induction hs as [|[k v] hs IH]; intros dst; cbn [put_headers]; [by rewrite app_nil_r|].
  rewrite IH, !extend_bytes. cbn [fmap list_fmap concat]. unfold put_line at 2, header_line at 2. cbn [fst snd].
  by rewrite <- !app_assoc.
Qed.

Lemma encode_bytes now (r : Rs) (dst : B) cache text cache' :
  Now_fmt http_date now cache = (Done text, cache') →
  ∃ dst', encode http_date now r dst cache = (Done (Ok (), dst'), cache') ∧
    bm_bytes dst' = bm_bytes dst ++ concat (put_line <$> head_lines r text) ++ crlf ++ res_body r.
Proof.
  intros Hn. unfold encode. rewrite Hn. cbn [mbind outcome_bind]. eexists; split; [done|].
  unfold BytesWrite_write_str. rewrite !extend_bytes, put_headers_bytes, !extend_bytes.
  unfold head_lines. cbn [fmap list_fmap concat]. unfold put_line at 2 3 4 5. by rewrite <- !app_assoc.
Qed.

Lemma no_cr_printable s : Forall (λ c, 32 ≤ c ≤ 126) s → 13 ∉ s.
Proof. intros Hs Hin. rewrite Forall_forall in Hs. apply Hs in Hin. lia. Qed.

(** A constant text has no line break. *)
Ltac no_cr := apply (bool_decide_eq_true_1 _); vm_compute; reflexivity.

Lemma show_num_printable n x : 0 ≤ x < 10 ^ Z.of_nat (S n) → Forall (λ c, 32 ≤ c ≤ 126) (show_num n 10 x).
Proof.
  intros Hx. destruct (show_digits_spec n 10 x ltac:(lia) Hx) as (_ & _ & Hd & _). unfold show_num.
  apply Forall_fmap. eapply Forall_impl; [exact Hd|]. intros d [??]. cbn. unfold digit_char. case_decide; lia.
Qed.

Lemma head_lines_ok (r : Rs) text :
  13 ∉ text → Z.of_nat (length (res_body r)) < usize_bound →
  Forall (λ l, l ≠ [] ∧ 13 ∉ l) (head_lines r text).
Proof.
  intros Ht Hlen. destruct (res_no_cr r) as [Hs Hh]. unfold head_lines.
  assert (13 ∉ show_usize (Z.of_nat (length (res_body r)))) as Hd.
  { apply no_cr_printable, show_num_printable. unfold usize_bound, word_width in Hlen. lia. }
  assert (∀ a b, a ≠ [] → 13 ∉ a → 13 ∉ b → a ++ b ≠ [] ∧ 13 ∉ a ++ b) as Happ.
  { intros a b Ha Hna Hnb. split; [by destruct a|]. rewrite elem_of_app. by intros [?|?]. }
  repeat (apply Forall_cons; split); [| | | |].
  - by apply Happ; [|no_cr|].
  - split; [done|]. no_cr.
  - by apply Happ; [|no_cr|].
  - by apply Happ; [|no_cr|].
  - apply Forall_fmap. eapply Forall_impl; [exact Hh|]. intros [k v] [Hk Hv].
    cbn [fst snd] in Hk, Hv. unfold compose, header_line. cbn [fst snd]. split; [by destruct k|].
    rewrite !elem_of_app. assert (13 ∉ str_of ": ") by no_cr. by intros [?|[?|?]].
Qed.

(** C32: responses are framed.  With a date cache as the thread's earlier renderings
    left it, encoding a response appends bytes from which a client that reads lines up
    to the empty one and then [Content-Length] bytes gets back the status line, the
    headers in order and the body, and is left with exactly what was written after
    the response; so pipelined responses do not run into each other. *)
Theorem responses_are_framed now (r : Rs) (dst : B) cache rest :
  date_ok now → cache_ok http_date cache → Z.of_nat (length (res_body r)) < usize_bound →
  ∃ ps cache' dst' e, http_date now = Done ps ∧
    encode http_date now r dst cache = (Done (Ok (), dst'), cache') ∧ cache_ok http_date cache' ∧
    bm_bytes dst' = bm_bytes dst ++ e ∧
    read_response (e ++ rest) = Some (head_lines r (concat ps), res_body r, rest).
Proof.
  intros Hn Hc Hlen. destruct (Now_fmt_ok http_date now cache Hn Hc) as (ps & Hp & Hf & Hc').
  destruct (date_ok_text http_date now Hn) as (ps' & Hp' & _ & _ & Hpr).
  rewrite Hp in Hp'. injection Hp' as <-. apply no_cr_printable in Hpr.
  destruct (Now_fmt http_date now cache) as [text cache'] eqn:Hfmt. cbn [fst snd] in *. subst text.
  destruct (encode_bytes now r dst cache _ cache' Hfmt) as (dst' & He & Hb).
  eexists ps, cache', dst', _. split_and!; [done|done|done|exact Hb|].
  pose proof (head_lines_ok r _ Hpr Hlen) as Hls. unfold read_response. rewrite <- !app_assoc.
  rewrite read_lines_app; [|done|].
  2: { apply Nat.lt_succ_r. etransitivity; [apply lines_length|]. rewrite length_app. apply Nat.le_add_r. }
  cbn [mbind option_bind].
  assert (content_length (head_lines r (concat ps)) = Some (Z.of_nat (length (res_body r)))) as ->.
  { unfold head_lines. cbn [content_length]. change (strip_prefix _ (str_of "HTTP/1.1 " ++ _)) with (@None str).
    change (strip_prefix _ (str_of "Server: Example")) with (@None str). cbn [content_length].
    rewrite strip_prefix_app. apply read_decimal. unfold usize_bound, word_width in Hlen. lia. }
  cbn [mbind option_bind]. rewrite decide_True by (rewrite length_app; lia).
  by rewrite Nat2Z.id, take_app_length, drop_app_length.
Qed.
End encoding.

(** ** Answering requests *)

Section answering.
Context {M V RB Rq SB Rs E : Type} `{HttpLaws M V RB Rq SB Rs E}.
Context {J : Type} (json_message : str → result str J).
Context {T : Type} (next : T → outcome (option (io_result Rq) * T)) (send : Rs → T → outcome (io_result unit * T)).

(** The answer that the routes promise. *)
Definition routed (q : Rq) (r : Rs) : Prop :=
  if decide (uri_path q = str_of "/plaintext") then
    res_status r = str_of "200 OK" ∧ res_headers r = [(str_of "content-type", str_of "text/plain")] ∧
    res_body r = str_of "Hello, World!"
  else if decide (uri_path q = str_of "/json") then
    res_status r = str_of "200 OK" ∧ res_headers r = [(str_of "content-type", str_of "application/json")] ∧
    json_message (str_of "Hello, World!") = Ok (res_body r)
  else res_status r = str_of "404 Not Found" ∧ res_headers r = [] ∧ res_body r = [].

Lemma respond_routed q r : respond json_message q = Ok r → routed q r.
Proof.
  assert (∀ a, Forall (λ c, 32 ≤ c ≤ 126) (str_of a) ↔ bool_decide (Forall (λ c, 32 ≤ c ≤ 126) (str_of a)) = true) as Hdec.
  { intros a. by rewrite bool_decide_eq_true. }
  unfold respond, routed. intros Hr. case_decide; [|case_decide].
  - destruct (content_type_response (str_of "text/plain") (str_of "Hello, World!")) as (r' & Hb & ?);
      [by apply Hdec|]. rewrite Hb in Hr. by injection Hr as <-.
  - destruct (json_message _) as [body|]; [|done].
    destruct (content_type_response (str_of "application/json") body) as (r' & Hb & ? & ? & Hbody);
      [by apply Hdec|]. rewrite Hb in Hr. injection Hr as <-. by rewrite Hbody.
  - destruct (not_found_response []) as (r' & Hb & ?). rewrite Hb in Hr. by injection Hr as <-.
Qed.

(** Requests that were received and answered, one after the other. *)
Inductive exchange : T → list (Rq * Rs) → T → Prop :=
| exchange_nil t : exchange t [] t
| exchange_cons t q t1 r t2 l t3 :
    next t = Done (Some (Ok q), t1) → respond json_message q = Ok r → send r t1 = Done (Ok (), t2) →
    exchange t2 l t3 → exchange t ((q, r) :: l) t3.

(** A connection answers its requests in order, each with the response of its
    route before the next request is read, until the stream of requests ends, which
    ends the connection without an error, or fails, which ends it with that error. *)
Theorem process_answers_in_order fuel t l t' o t'' :
  exchange t l t' → next t' = Done (o, t'') → (o = None ∨ ∃ e, o = Some (Err e)) → (length l < fuel)%nat →
  process json_message next send fuel t =
    Done (match o with Some (Err e) => Err (Box_io e) | _ => Ok () end, t'') ∧
  Forall (λ qr, routed qr.1 qr.2) l.
Proof.
  intros Hex Ho Hend. revert fuel. induction Hex as [t|t q t1 r t2 l t3 Hn Hr Hs Hex IH]; intros fuel Hf.
  - split; [|done]. apply loop_break; [|done]. unfold process_turn. rewrite Ho. cbn [mbind outcome_bind].
    by destruct Hend as [->|[e ->]].
  - destruct fuel as [|fuel]; [cbn in Hf; lia|]. destruct (IH Ho fuel) as [Hp Hl]; [cbn in Hf; lia|]. split.
    + unfold process in *. rewrite (loop_continue _ _ _ t2); [exact Hp|]. unfold process_turn. rewrite Hn.
      cbn [mbind outcome_bind]. rewrite Hr, Hs. done.
    + apply Forall_cons. split; [by apply respond_routed|done].
Qed.
End answering.

(** ** Serving *)

Section serving.
Context {W L C : Type}.
Context (bind : SocketAddr → W → outcome (io_result L * W)).
Context (accept : L → W → outcome (io_result (C * SocketAddr) * W)).
Context (spawn_process : C → W → outcome W).

(** Connections that were accepted and given to a task, one after the other. *)
Inductive accepted (server : L) : W → list C → W → Prop :=
| accepted_nil w : accepted server w [] w
| accepted_cons w c peer w1 w2 l w3 :
    accept server w = Done (Ok (c, peer), w1) → spawn_process c w1 = Done w2 →
    accepted server w2 l w3 → accepted server w (c :: l) w3.

(** The server listens on the address that its argument shows (flow information is
    never shown), or on [127.0.0.1:8080], gives every connection it accepts to a task of its own, in the
    order of the connections, and ends with the error of the [accept] that fails. *)
Theorem main_serves fuel a arg w server w1 l w2 e w3 :
  addr_ok a → arg = Some (show_SocketAddr a) ∨ arg = None ∧ a = SocketAddr_V4 (mkV4 (mkIpv4 2130706433) 8080) →
  bind (without_flowinfo a) w = Done (Ok server, w1) → accepted server w1 l w2 → accept server w2 = Done (Err e, w3) →
  (length l < fuel)%nat →
  main bind accept spawn_process fuel arg w = Done (e, w3).
Proof.
  intros Ha Harg Hb Hl He. unfold main.
  assert (parse_SocketAddr (default (str_of "127.0.0.1:8080") arg) = Some (without_flowinfo a)) as ->.
  { destruct Harg as [->|[-> ->]]; [|by vm_compute].
    destruct a as [a|a]; [by apply parse_show_v4|by apply parse_show_v6]. }
  cbn [unwrap mbind outcome_bind]. rewrite Hb. cbn [mbind outcome_bind]. clear Hb. revert fuel.
  induction Hl as [w1|w1 c peer w1' w1'' l w2 Hacc Hsp Hl IH]; intros fuel Hf.
  - apply loop_break; [|done]. unfold accept_turn. by rewrite He.
  - destruct fuel as [|fuel]; [cbn in Hf; lia|]. rewrite (loop_continue _ _ _ w1''); [apply IH; [done|cbn in Hf; lia]|].
    unfold accept_turn. rewrite Hacc. cbn [mbind outcome_bind]. by rewrite Hsp.
Qed.
End serving.

(** ** Examples *)

(** A buffer that is a list. *)
Local Instance list_BytesMut : BytesMut str := {
  bm_bytes b := b;
  extend_from_slice s b := b ++ s;
  split_to n b := if decide (0 ≤ n ≤ Z.of_nat (length b)) then
    Done (take (Z.to_nat n) b, drop (Z.to_nat n) b) else Panic;
}.

Local Instance list_BytesMutLaws : BytesMutLaws str.
Proof. split; [done|]. intros n b Hn. cbn in *. rewrite decide_True by done. by eexists. Qed.

(** A parser of one request only. *)
Definition demo_head : str :=
  str_of "GET /json HTTP/1.1" ++ crlf ++ str_of "Host: a" ++ crlf ++ crlf.

Local Instance demo_Httparse : Httparse := λ s,
  match strip_prefix demo_head s with
  | Some _ => Ok (Complete 31, mkHttparse (Some (mkSlice 0 3)) (Some (mkSlice 4 5)) (Some 1)
                                 [(mkSlice 20 4, mkSlice 26 1)])
  | None => if decide (length s < 31)%nat then Ok (Partial, mkHttparse None None None []) else Err "Token"%string
  end.

Lemma strip_prefix_Some p s rest : strip_prefix p s = Some rest → s = p ++ rest.
Proof.
  revert s. induction p as [|c p IH]; intros [|c' s] Hs; cbn in *; try by simplify_eq.
  case_decide; [|done]. subst. f_equal. by apply IH.
Qed.

Local Instance demo_HttparseLaws : HttparseLaws.
Proof.
  intros s amt r. unfold httparse, demo_Httparse. destruct (strip_prefix demo_head s) as [rest|] eqn:Hs.
  2: { by case_decide. }
  apply strip_prefix_Some in Hs as ->. intros [= <- <-]. unfold sl_inside. cbn [hp_headers hp_method hp_path hp_version].
  split_and!; try (rewrite length_app; change (length demo_head) with 31%nat; lia);
    [lia|cbn; lia|eexists; split; [done|cbn; lia]..|by eexists|].
  apply Forall_singleton. cbn. lia.
Qed.

(** Requests and responses that keep their fields; a response drops line breaks. *)
Definition lower (c : Z) : Z := if decide (65 ≤ c ≤ 90) then c + 32 else c.
Definition no_breaks (s : str) : str := filter (λ c, c ≠ 13) s.

Local Instance demo_Http : Http str str (str * str * list (str * str)) (str * str * list (str * str))
    (str * list (str * str)) (str * list (str * str) * str) string := {
  Method_try_from m := if decide (m = str_of "GET") then Ok m else Err "invalid HTTP method"%string;
  HeaderValue_from_bytes v := Ok v;
  Request_builder := ([], [], []);
  rq_method m b := (m, b.1.2, b.2);
  rq_uri u b := (b.1.1, u, b.2);
  rq_version_11 b := b;
  rq_header k v b := (b.1, b.2 ++ [(lower <$> k, v)]);
  rq_body b := Ok b;
  uri_path q := q.1.2;
  Response_builder := (str_of "200 OK", []);
  rs_header k v b := (b.1, b.2 ++ [(lower <$> k, v)]);
  rs_not_found b := (str_of "404 Not Found", b.2);
  rs_body x b := Ok (b.1, b.2, x);
  res_status r := no_breaks r.1.1;
  res_headers r := (λ kv, (no_breaks kv.1, no_breaks kv.2)) <$> r.1.2;
  res_body r := r.2;
  error_text e := e;
}.

Lemma no_breaks_elem s : 13 ∉ no_breaks s.
Proof. unfold no_breaks. rewrite list_elem_of_filter. by intros [? _]. Qed.

Lemma no_breaks_printable s : Forall (λ c, 32 ≤ c ≤ 126) s → no_breaks s = s.
Proof.
  unfold no_breaks. induction 1 as [|c s Hc Hs IH]; [done|]. cbn. rewrite decide_True by lia. by f_equal.
Qed.

Local Instance demo_HttpLaws : HttpLaws str str (str * str * list (str * str)) (str * str * list (str * str))
    (str * list (str * str)) (str * list (str * str) * str) string.
Proof.
  split.
  - intros r. cbn. split; [apply no_breaks_elem|]. apply Forall_fmap, Forall_forall.
    intros kv _. cbn. split; apply no_breaks_elem.
  - intros v b Hv. eexists. split; [done|]. split_and!; [done| |done]. cbn. by rewrite no_breaks_printable.
  - intros b. by eexists.
Qed.

(** The second request has not arrived in full. *)
Lemma decode_refines_spec_witness :
  decode (demo_head ++ str_of "GET /pl") =
    Done (Ok (Some (str_of "GET", str_of "/json", [(str_of "host", str_of "a")])), str_of "GET /pl") ∧
  decode (str_of "GET /pl") = Done (Ok None, str_of "GET /pl").
Proof.
  split.
  - destruct (decode_refines_spec (demo_head ++ str_of "GET /pl")) as (src' & Hd & Hb); [vm_compute; reflexivity|].
    rewrite Hd. cbn in Hb. subst src'. vm_compute. reflexivity.
  - destruct (decode_refines_spec (str_of "GET /pl")) as (src' & Hd & Hb); [vm_compute; reflexivity|].
    rewrite Hd. cbn in Hb. subst src'. vm_compute. reflexivity.
Defined.

(** The response to [/plaintext], and another one after it. *)
Lemma responses_are_framed_witness :
  let r := (str_of "200 OK", [(str_of "content-type", str_of "text/plain")], str_of "Hello, World!") in
  ∃ dst' cache', encode demo_date 1500000000 r [] LAST = (Done (Ok (), dst'), cache') ∧
    read_response (dst' ++ str_of "HTTP/1.1 404") =
      Some ([str_of "HTTP/1.1 200 OK"; str_of "Server: Example"; str_of "Content-Length: 13";
             str_of "Date: second 0000000000000000000001"; str_of "content-type: text/plain"],
            str_of "Hello, World!", str_of "HTTP/1.1 404").
Proof.
  intros r. destruct (responses_are_framed demo_date 1500000000 r [] LAST (str_of "HTTP/1.1 404"))
    as (ps & cache' & dst' & e & Hp & He & _ & Hb & Hr).
  - unfold date_ok, year_10000, nanos_per_sec. lia.
  - split; [reflexivity|by left].
  - vm_compute. reflexivity.
  - exists dst', cache'. split; [exact He|]. cbn [bm_bytes list_BytesMut app] in Hb. rewrite Hb, Hr.
    injection Hp as <-. vm_compute. reflexivity.
Defined.

(** A transport with a queue of requests and the responses that were sent. *)
Definition demo_next (t : list (io_result (str * str * list (str * str))) * list (str * list (str * str) * str)) :=
  Done (head t.1, (tail t.1, t.2)).
Definition demo_send (r : str * list (str * str) * str)
    (t : list (io_result (str * str * list (str * str))) * list (str * list (str * str) * str)) :=
  Done (Ok () : io_result unit, (t.1, t.2 ++ [r])).
Definition demo_json (s : str) : result str string := Ok ([123] ++ s ++ [125]).

Lemma process_answers_in_order_witness :
  let get (path : str) := (str_of "GET", path, []) in
  let lost := other_error "connection lost" in
  ∃ r1 r2,
    process demo_json demo_next demo_send 3 ([Ok (get (str_of "/plaintext")); Ok (get (str_of "/other")); Err lost], []) =
      Done (Err (Box_io lost), ([], [r1; r2])) ∧
    res_status r1 = str_of "200 OK" ∧ res_status r2 = str_of "404 Not Found".
Proof.
  intros get lost.
  pose (r1 := (str_of "200 OK", [(str_of "content-type", str_of "text/plain")], str_of "Hello, World!")).
  pose (r2 := (str_of "404 Not Found", @nil (str * str), @nil Z)).
  destruct (process_answers_in_order demo_json demo_next demo_send 3
    ([Ok (get (str_of "/plaintext")); Ok (get (str_of "/other")); Err lost], [])
    [(get (str_of "/plaintext"), r1); (get (str_of "/other"), r2)] ([Err lost], [r1; r2])
    (Some (Err lost)) ([], [r1; r2])) as [Hp Hl].
  - eapply exchange_cons; [reflexivity|vm_compute; reflexivity|reflexivity|].
    eapply exchange_cons; [reflexivity|vm_compute; reflexivity|reflexivity|]. apply exchange_nil.
  - reflexivity.
  - right. by eexists.
  - cbn. lia.
  - exists r1, r2. split; [exact Hp|]. split; vm_compute; reflexivity.
Defined.

(** Two connections arrive; the tasks are counted. *)
Lemma main_serves_witness :
  let bind (a : SocketAddr) (w : list nat * nat) := Done (Ok a : io_result SocketAddr, w) in
  let accept (server : SocketAddr) (w : list nat * nat) :=
    match w.1 with
    | c :: l => Done (Ok (c, server), (l, w.2))
    | [] => Done (Err (other_error "closed"), w)
    end in
  let spawn_process (c : nat) (w : list nat * nat) := Done (w.1, S w.2) in
  main bind accept spawn_process 3 None ([7; 8]%nat, 0%nat) = Done (other_error "closed", ([], 2%nat)).
Proof.
  intros bind accept spawn_process. pose (a := SocketAddr_V4 (mkV4 (mkIpv4 2130706433) 8080)).
  apply (main_serves bind accept spawn_process 3 a None ([7; 8]%nat, 0%nat) a ([7; 8]%nat, 0%nat) [7; 8]%nat
    ([], 2%nat)).
  - cbn. unfold u16_max. lia.
  - by right.
  - reflexivity.
  - eapply accepted_cons; [reflexivity|reflexivity|]. eapply accepted_cons; [reflexivity|reflexivity|]. apply accepted_nil.
  - reflexivity.
  - cbn. lia.
Defined.
